(* ===== verification/_CoqProject ===== *)
-Q . S2P
Prelude.v
Word.v
Types.v
Dll.v
Kernel.v
Scheduler.v
SchedulerProofs.v
Slot.v
SlotProofs.v
Hal.v
ProcessManager.v
ProcessManagerProofs.v
Node.v
NodeProofs.v
Queues.v
QueueProofs.v
Notification.v
IpcPort.v
IpcProofs.v
MemoryTypes.v
PageWalk.v
Memory.v
MemoryProofs.v
Aarch64Memory.v
Aarch64MemoryProofs.v
Generic.v
Pcb.v
PcbProofs.v
AddressSpace.v
AddressSpaceProofs.v
Devices.v
Reclamation.v
KernelCall.v
ReclamationProofs.v
GenericProofs.v
DeviceProofs.v
Lock.v
LockProofs.v
CString.v
Print.v
PrintProofs.v
Logger.v
Version.v
Boot.v
BootProofs.v
ResultLib.v
ResultProofs.v
FairnessProofs.v
ReadyQueueInvariant.v
BootTermination.v
MemoryMap.v
DeviceTree.v
CpuTopology.v
DeviceTreeProofs.v
DeviceTreeSpec.v
DeviceTreeRoundtrip.v
CpuTopologyProofs.v
ElfLoader.v
ElfProofs.v
BootProtocol.v
BootProtocolProofs.v
Bus.v
Acpi.v
Platform.v
Apic.v
AcpiProofs.v
ApicProofs.v
SmpProofs.v
Interrupt.v
InterruptProofs.v
Gic.v
GicProofs.v
SmpBoot.v
Aarch64Process.v
Cpu.v
VmcsField.v
Vmx.v
Serial.v
Startup.v
StartupProofs.v
