(* ===== verification/Prelude.v ===== *)
(** * A verification of the A9N microkernel

    A9N is a capability-based microkernel in C++.  User programs hold
    capabilities in the slots of Nodes and reach every service of the kernel by a
    kernel call that names a slot and an operation.  This development is a
    shallow embedding of the kernel's own logic, of the hardware abstraction layer
    below it for x86-64 and AArch64, of the boot of the first process and of the
    freestanding library underneath; paths below are relative to src/src.

    ** How the parts interact

    An entry into the kernel (kernel call, timer, device interrupt,
    inter-processor interrupt, fault) takes the giant lock, runs one handler and
    releases the lock.  A kernel call reads a descriptor from the message
    registers of the running process, resolves it in the tree of Nodes below the
    root slot of that process and executes the component found there.  The
    components change slots and their dependency chain (Nodes, Generics), block
    and wake processes (IPC Ports, Notification Ports, Process Control Blocks),
    page tables (Address Spaces) or devices (I/O Ports, Interrupt Ports).  Blocking
    and waking goes through the process manager of a core to its scheduler and
    ends in a context switch of the hardware abstraction layer.

    ** The effect of the model

    C++ objects live in typed heaps of the record [kernel]; operations are
    functions in the monad [M] of Kernel.v, whose outcomes are [Ret] (an answer
    and the next state), [Undefined] (what C++ leaves undefined: an access through
    a dangling pointer, a null reference, a shift by 64) and [OutOfFuel].  An error
    the code reports is a value of [result], with the constructors of the code's
    error enumerations (Types.v).  [wp m Q k] says that [m] ends in a [Ret] that
    satisfies [Q], [wlp] allows the two other outcomes as well; a theorem that an
    operation works is stated with [wp] or with an equation, so that undefined
    behaviour and lack of fuel are excluded.  Words are integers in [0, 2^64) with
    the wrap-around written out (Word.v).  The boot adds the allocator and the init
    page to the state (monad [B] of Boot.v); the library types and the string and
    print functions, which need no kernel state, are functions into [option], where
    [None] is undefined behaviour.

    Drivers run in the monad [D] of Bus.v: an operation reads and writes device
    registers (ports, memory-mapped registers, model-specific and control
    registers, fields of a VMCS) and records each access in a trace; what a device
    answers to a read is a function of the trace so far, the class [bus_device],
    a parameter of every driver.  The objects of a driver are the state beside
    the trace.  [dwp] is the corresponding logic.  Code that several cores run at
    the same time without the giant lock (the lock itself, the start of the cores, the
    log) is a step relation over the program counters of the cores.

    ** The files

    Foundation.
    - Prelude.v: record updates, hint databases, tactics, lemmas on lists and maps.
    - Word.v: kernel/include/kernel/types.hpp, liba9n common/calculate.hpp.
    - Types.v: the enumerations and [result].
    - Dll.v: the theory of intrusive doubly linked lists, used for ready queues,
      wait queues and the dependency chain.
    - Kernel.v: the classes as records, the heaps, the monad and its logic; the
      class [config] holds what is not in the sources (the number of cores, the
      sizes of kernel objects, the answers of devices and interrupt controllers)
      and is a parameter of every definition that uses it.

    Processes.
    - Scheduler.v, SchedulerProofs.v: kernel/process/scheduler.cpp, refined to one
      list per priority; ReadyQueueInvariant.v: the invariant of all reachable states.
    - ProcessManager.v, ProcessManagerProofs.v: kernel/process/process_manager.cpp;
      FairnessProofs.v: every process of the highest ready priority runs.
    - Pcb.v, PcbProofs.v: kernel/capability/process_control_block.cpp and
      kernel/process/reclamation.cpp.
    - Lock.v, LockProofs.v: kernel/process/lock.cpp and lock.hpp with the atomic
      operations of hal/x86_64, as a step relation between cores.

    Capabilities.
    - Slot.v, SlotProofs.v: capability_component.hpp, the slots and the chain.
    - Node.v, NodeProofs.v: capability_node.cpp, lookup and the Node operations.
    - Reclamation.v, ReclamationProofs.v: capability_node_reclamation.cpp, the
      mutual recursion of revocation and removal.
    - Generic.v, GenericProofs.v: generic.cpp, allocation of physical memory.
    - Queues.v, QueueProofs.v: message words and the wait queues of ports.
    - IpcPort.v, IpcProofs.v: ipc_port.cpp.
    - Notification.v: notification_port.cpp.
    - AddressSpace.v, AddressSpaceProofs.v: address_space.cpp, against the interface
      [memory_manager] that Memory.v and Aarch64Memory.v both implement.
    - Devices.v, DeviceProofs.v: io_port_capability.cpp, interrupt_port.cpp,
      interrupt_region.cpp, virtual_cpu_capability.cpp.
    - KernelCall.v: kernelcall/kernel_call.cpp, interrupt/interrupt_manager.cpp,
      the entries that compose everything above.

    Hardware abstraction layer, both architectures.
    - MemoryTypes.v: memory_type.hpp and the interface [memory_manager] of
      hal/interface/memory_manager.hpp with its laws; PageWalk.v: the page walk of a
      processor with four levels of tables, the specification of both managers.
    - Bus.v: register accesses, the trace and the logic of drivers.
    - SmpBoot.v: the start of the other cores
      (hal/x86_64 arch_initializer.cpp, hal/aarch64 arch/cpu.cpp and boot/smp.cpp).
    - Serial.v: io/serial.cpp of the three platforms.

    Hardware abstraction layer, x86-64.
    - Hal.v: message registers, contexts, core-local variables.
    - Memory.v, MemoryProofs.v: memory/memory_manager.cpp, page tables as words of
      physical memory.
    - Acpi.v, AcpiProofs.v: platform/acpi.cpp and the walks over the MADT.
    - Platform.v: interrupt/pic.cpp and the timers of time/.
    - Apic.v, ApicProofs.v, SmpProofs.v: interrupt/apic.cpp, the inter-processor
      interrupts of interrupt/interrupt.cpp and init_sub_cores.
    - Interrupt.v, InterruptProofs.v: the dispatch of interrupts, exceptions and
      system calls (interrupt/interrupt.cpp, systemcall/syscall.cpp).
    - Cpu.v: arch/segment_configurator.cpp, arch/cpu.cpp, the control
      and model-specific registers, CPUID and the memory types.
    - VmcsField.v, Vmx.v: virtualization/vmx.

    Hardware abstraction layer, AArch64.
    - Aarch64Memory.v, Aarch64MemoryProofs.v: memory/memory_manager.cpp.
    - Gic.v, GicProofs.v: interrupt/interrupt.cpp, platform interrupt/gic.cpp and
      time/generic_timer.cpp.
    - Aarch64Process.v: process/process_manager.cpp,
      arch/arch_context.hpp.
    - MemoryMap.v, DeviceTree.v, DeviceTreeSpec.v,
      DeviceTreeProofs.v, DeviceTreeRoundtrip.v, ElfLoader.v, ElfProofs.v,
      BootProtocol.v, BootProtocolProofs.v: boot/boot_protocol.cpp.
    - CpuTopology.v, CpuTopologyProofs.v: boot/cpu_topology.cpp.

    Boot and library.
    - Boot.v, BootProofs.v, BootTermination.v: kernel/boot/init.cpp.
    - Startup.v, StartupProofs.v: the order of initialisation, kernel/main.cpp, the
      arch_initializer.cpp of both architectures and the IDLE processes of
      process_manager.cpp.  A machine is the product of the objects of the parts; a part
      runs on its component.
    - Version.v: liba9n common/version.hpp.
    - Print.v, PrintProofs.v: kernel/utility/print.cpp; Logger.v:
      kernel/utility/logger.cpp, the text of the log and the cores that write it.
    - CString.v: liba9n/src/libc/string/string.cpp.
    - ResultLib.v, ResultProofs.v: liba9n result and option with their storage, the
      arrays, the stack and the queue.

    ** What the theorems show

    - Authority.  Lookup finds the slot the descriptor names; the Node operations
      never create a right; aliases, moves and children stand in the chain where
      revocation looks for them; revocation removes the derived capabilities and
      nothing else, with the fuel of the model.
    - Memory.  The Generics of the boot tile the usable memory; the blocks of a
      Generic are disjoint as long as no address wraps, and what an allocation does when
      one wraps; a Node fits in its block; a
      mapped frame is what the processor translates to, an unmapped one is gone, on
      both architectures, and through the capability for any memory manager that
      obeys the laws of the interface.
    - Boot on AArch64.  The parser reads back every flattened device tree; the
      memory map keeps reserved memory apart, so that the kernel image never becomes
      a Generic; the ELF loader stays inside its buffer and loads every segment.
    - Boot of the machine.  On x86-64, whenever kernel_entry leaves for user mode the boot
      core runs the init process, at its entry point and in its address space, and no
      other process is ready.
    - Interrupts.  An enabled interrupt is programmed on its pin and reaches its
      handler; what stays disabled is masked; every interrupt taken on AArch64 is
      completed once; an exception suspends the process that raised it.
    - Start of the cores.  The tables of the firmware name the processors; each gets
      its INIT and start-up interrupts; in every interleaving the numbers of the
      cores are distinct and success is reported when all of them run; both
      architectures refine one abstract start.
    - Set-up.  Descriptor tables, memory types, VMCS fields and controls and the
      divisors of the serial ports have the documented values.
    - Processes.  The scheduler implements its abstract queues, in every reachable
      state; rescheduling runs the highest priority, ticks rotate it and starve
      none of it; stopping a process takes it from queue and processor.
    - Communication.  Wait queues are FIFO lists; SEND, RECEIVE, CALL and REPLY
      move the message, wake and block as documented; a CALL gets its reply, whatever the
      server does to its own message in between; notifications are not lost.
    - Concurrency.  At most one core works on the kernel state in any interleaving,
      and a waiting core can always get there; the calls of the logger that take its lock
      write whole lines in the order in which they took it, whatever characters put_char
      puts between.
    - Library.  [result] implements a sum type and its assignments respect lifetimes;
      numbers and versions print and read back; comparison is lexicographic; the stack
      is a list until it is full or empty.
    - Errors in the code.  Theorems that say what goes wrong: for every state in which
      the situation arises (failed_send_loses_receiver, priority_change_strands_process,
      invalid_call_resumes_idle, vmx_lock_inverted, the wrapping case of
      allocation_bounds), or by a run into a state the code should not reach
      (convert_escapes_region, convert_generic_orphans_children); smaller ones stand
      beside the component.

    ** Bounds and fuel

    - Descriptor lookup: 65 turns; a level uses at least one of the 64 bits of the
      descriptor and the component behind the last one may still have to answer.
      A lookup that runs past them, which a cyclic tree allows, is [OutOfFuel].
    - Walks over an intrusive list: the number of objects in the heap, which a list
      without repetition cannot exceed.
    - Revocation and removal: one more than the number of slots, the depth of the
      nesting of a chain; proved enough for memory and I/O capabilities.
    - The search for a ready priority: one turn per priority.
    - A TLB shootdown: 64 turns, one per bit of the word of owning cores, which the
      loop shifts right until it is zero.
    - Strings: the length of the string and one; digits: the size of the local array.
    - Page tables of the init process: the pages of the image, those of the pool
      (1024) and two, proved enough in BootTermination.v.
    - The flattened device tree: the bytes of its structure block and one, since each
      token takes at least four; a reg property: its length.
    - The MADT: its length in bytes; an entry of length 0, on which the code does not
      end, is [Running], the outcome of a driver whose fuel is used up.
    - Waiting for a device (timers, serial ports): the number of looks at the device
      is a parameter; theorems that a driver ends assume a device that becomes ready
      within it.  Waiting for an inter-processor interrupt: the 100 turns of the code.

    ** Assumptions

    Handlers are atomic, which the giant lock justifies (Lock.v).  The end-to-end
    theorems on scheduling and IPC are for one core ([one_core]); the operations
    themselves are modelled for any number.  The C++ objects of different classes
    do not overlap in memory.  The model of the kernel has the contexts and message
    registers of x86-64; Aarch64Process.v models those of AArch64 on the same state,
    with TPIDR_EL1 and TTBR0_EL1 in the fields named after GS and CR3.  The atomic
    operations are sequentially consistent.

    ** Not modelled

    - The boot assembly, the trampoline, the entry stubs and the code that saves and
      restores registers; idle loops.
    - The guest of the VMX test and its exits.
    - hal/aarch64/platform/rpi4b interrupt and time: the same code as for qemu, with
      the constants that are a parameter here.
    - The text of the messages that the operations of the kernel log; the names of
      processes.  logger::split, which formats into the buffer all cores share without
      taking the lock, as a step of the log.
    - Type traits, [not_null], function wrappers: computed by the compiler or a bare
      reference.
    - Conversions between results of different types, and the assignments between
      options, which do not compile once they are used.

    What is left to prove: that a boot on given devices succeeds in every step (it runs to
    the init process on the machine of StartupProofs.v, when evaluated), and revocation
    through ports and process control blocks. *)

From stdpp Require Export base tactics numbers option list gmap fin_maps.
From Stdlib Require Export ZArith Lia.

Global Open Scope Z_scope.

(** ** Record update

    [x <| f := v |>] is the record [x] with field [f] replaced by [v] and
    [x <| f ::= g |>] the one with [f] mapped through [g].  A record type opts
    in by an [Eta] instance, which rebuilds a value from its projections; the
    updater of a field is then found by instance search. *)

Class Eta (R : Type) := eta_expand : R → R.
Class Upd {R T : Type} (f : R → T) := upd : (T → T) → R → R.
Global Arguments upd {R T} f {_} g x.

Ltac build_upd R T f :=
  let s := constr:(fun (g : T → T) (x : R) =>
    ltac:(let b := eval hnf in (eta_expand (R := R) x) in
          let b := eval pattern (f x) in b in
          match b with
          | ?h _ => let r := eval cbv beta in (h (g (f x))) in exact r
          end)) in
  exact s.

Global Hint Extern 1 (@Upd ?R ?T ?f) => build_upd R T f : typeclass_instances.

Declare Scope a9n_scope.
Delimit Scope a9n_scope with a9n.
Global Open Scope a9n_scope.

Notation "x <| f := v |>" := (upd f (fun _ => v) x)
  (at level 1, f at level 20, v at level 99, left associativity,
   format "x  <| f  :=  v |>") : a9n_scope.
Notation "x <| f ::= g |>" := (upd f g x)
  (at level 1, f at level 20, g at level 99, left associativity,
   format "x  <| f  ::=  g |>") : a9n_scope.

(** ** Hint databases and tactics *)

Create HintDb a9n discriminated.

(** Case analysis on every [if]/[match] of the goal, with the equations kept
    and contradictory branches closed. *)
Ltac break_goal :=
  repeat (case_match; simplify_eq/=; try done).

(** Reduce a boolean hypothesis or goal to its arithmetic meaning. *)
Ltac bool_to_prop :=
  rewrite ?andb_true_iff, ?andb_false_iff, ?orb_true_iff, ?orb_false_iff,
    ?negb_true_iff, ?negb_false_iff, ?Z.eqb_eq, ?Z.eqb_neq, ?Z.ltb_lt,
    ?Z.ltb_ge, ?Z.leb_le, ?Z.leb_gt in *.

(** ** Lists *)

(** The last element of a non-empty list is the element at its end. *)
Lemma last_app_singleton {A} (l : list A) x : last (l ++ [x]) = Some x.
Proof. by rewrite last_snoc. Qed.

Lemma head_app_cons {A} (l1 : list A) x l2 y :
  head (l1 ++ x :: l2) = Some y → l1 = [] ∧ y = x ∨ ∃ l1', l1 = y :: l1'.
Proof. destruct l1; naive_solver. Qed.

Lemma NoDup_app_cons_notin {A} (l1 : list A) x l2 :
  NoDup (l1 ++ x :: l2) → (x ∉ l1) ∧ (x ∉ l2) ∧ NoDup (l1 ++ l2).
Proof.
  rewrite !NoDup_app, NoDup_cons. intros (H1 & H2 & H3 & H4).
  split_and!; try done.
  - intros Hx. apply (H2 x Hx). set_solver.
  - intros y Hy Hy'. apply (H2 y Hy). set_solver.
Qed.

(** The ends of a list from which an element is taken out. *)
Lemma head_app_last_None {A} (l1 l2 : list A) : last l1 = None → head (l1 ++ l2) = head l2.
Proof. by intros ->%last_None. Qed.
Lemma last_app_head_None {A} (l1 l2 : list A) : head l2 = None → last (l1 ++ l2) = last l1.
Proof. intros ->%head_None. by rewrite app_nil_r. Qed.
Lemma head_app_last_Some {A} (l1 l2 : list A) x y :
  last l1 = Some x → head (l1 ++ y :: l2) = head l1 ∧ head (l1 ++ l2) = head l1.
Proof. by destruct l1. Qed.
Lemma last_app_head_Some {A} (l1 l2 : list A) x y :
  head l2 = Some x → last (l1 ++ y :: l2) = last l2 ∧ last (l1 ++ l2) = last l2.
Proof.
  destruct l2 as [|z l2]; [done|]. intros _. rewrite !last_app, !last_cons.
  by destruct (last l2).
Qed.

(** ** Finite maps *)

(** A list of distinct keys of a map is no longer than the map is big. *)
Lemma NoDup_keys_length `{Countable K} {V} (m : gmap K V) (l : list K) :
  NoDup l → (∀ x, x ∈ l → is_Some (m !! x)) → (length l ≤ size m)%nat.
Proof.
  intros Hnd Hin. rewrite <- size_dom.
  rewrite <- (size_list_to_set (C := gset K) l Hnd).
  apply subseteq_size. intros x Hx. apply elem_of_dom, Hin. set_solver.
Qed.
