(* ===== verification/Word.v ===== *)
(** Machine words: the 64-bit unsigned arithmetic of [a9n::word]
    (src/src/kernel/include/kernel/types.hpp) and the power-of-two and
    alignment helpers of src/src/liba9n/include/liba9n/common/calculate.hpp.

    A word is a [Z] in [0, 2^64); [wrap] is the reduction every unsigned
    operation performs.  A shift by 64 or more is undefined in C++: [shl] and
    [shr] return [None] there, and so does whatever is computed from them. *)

From S2P Require Import Prelude.

(** ** Words *)

Definition BYTE_BITS : Z := 8.
Definition WORD_BITS : Z := 64.
Definition PAGE_SIZE : Z := 4096.

Definition is_word (x : Z) : Prop := 0 ≤ x < 2 ^ 64.

Definition wrap (x : Z) : Z := x mod 2 ^ 64.
Definition wrap8 (x : Z) : Z := x mod 2 ^ 8.
Definition wrap16 (x : Z) : Z := x mod 2 ^ 16.
Definition wrap32 (x : Z) : Z := x mod 2 ^ 32.

Definition wadd (x y : Z) : Z := wrap (x + y).
Definition wsub (x y : Z) : Z := wrap (x - y).
Definition wmul (x y : Z) : Z := wrap (x * y).

Definition shl (x n : Z) : option Z :=
  if n <? WORD_BITS then Some (wrap (Z.shiftl x n)) else None.
Definition shr (x n : Z) : option Z :=
  if n <? WORD_BITS then Some (Z.shiftr x n) else None.

(** [extract_depth]: the top byte of a descriptor, plus the byte it takes. *)
Definition extract_depth (descriptor : Z) : Z :=
  wadd (Z.land (Z.shiftr descriptor (WORD_BITS - BYTE_BITS))
               (Z.shiftl 1 BYTE_BITS - 1)) BYTE_BITS.

(** ** liba9n/common/calculate.hpp *)

(** [__builtin_clzll], for a non-zero word. *)
Definition clz (value : Z) : Z := 63 - Z.log2 value.

Definition round_up_power_of_2 (value : Z) : option Z :=
  if value =? 0 then Some 1
  else if Z.land value (wsub value 1) =? 0 then Some value
  else
    let leading_zero := clz value in
    let highest_bit := WORD_BITS - 1 - leading_zero in
    shl 1 (highest_bit + 1).

Definition round_down_power_of_2 (value : Z) : option Z :=
  if value =? 0 then Some 0
  else
    let leading_zero := clz value in
    let highest_bit := WORD_BITS - 1 - leading_zero in
    shl 1 highest_bit.

Definition align_value (value base : Z) : Z :=
  if base =? 0 then 0
  else wmul (wsub (wadd value base) 1 / base) base.

Definition align_value_floor (value base : Z) : Z :=
  if base =? 0 then 0 else wmul (value / base) base.

(** [while (power_of_2 >>= 1) radix++]: 64 turns empty any word. *)
Fixpoint calculate_radix_loop (fuel : nat) (power_of_2 radix : Z) : Z :=
  match fuel with
  | O => radix
  | S fuel' =>
      let shifted := Z.shiftr power_of_2 1 in
      if shifted =? 0 then radix
      else calculate_radix_loop fuel' shifted (radix + 1)
  end.

Definition calculate_radix (power_of_2 : Z) : Z :=
  if power_of_2 =? 0 then 0 else calculate_radix_loop 64 power_of_2 0.

Definition calculate_radix_ceil (value : Z) : option Z :=
  if value =? 0 then Some 0
  else calculate_radix <$> round_up_power_of_2 value.

Definition calculate_radix_floor (value : Z) : option Z :=
  if value =? 0 then Some 0
  else calculate_radix <$> round_down_power_of_2 value.

(** ** Lemmas on words *)

Lemma wrap_word x : is_word (wrap x).
Proof. unfold is_word, wrap. apply Z.mod_pos_bound. lia. Qed.

Lemma wrap_id x : is_word x → wrap x = x.
Proof. unfold is_word, wrap. intros. by apply Z.mod_small. Qed.

Lemma wrap8_id x : 0 ≤ x < 256 → wrap8 x = x.
Proof. intros. by apply Z.mod_small. Qed.

Lemma wadd_id x y : 0 ≤ x + y < 2 ^ 64 → wadd x y = x + y.
Proof. intros. by apply wrap_id. Qed.

Lemma wsub_id x y : 0 ≤ x - y < 2 ^ 64 → wsub x y = x - y.
Proof. intros. by apply wrap_id. Qed.

Lemma wmul_id x y : 0 ≤ x * y < 2 ^ 64 → wmul x y = x * y.
Proof. intros. by apply wrap_id. Qed.

Lemma shl_1 n : 0 ≤ n < 64 → shl 1 n = Some (2 ^ n).
Proof.
  intros Hn. unfold shl, WORD_BITS. rewrite (proj2 (Z.ltb_lt _ _)) by lia.
  rewrite Z.shiftl_1_l, wrap_id; [done|].
  split; [lia|]. apply Z.pow_lt_mono_r; lia.
Qed.

Lemma shl_ge x n : 64 ≤ n → shl x n = None.
Proof. intros. unfold shl, WORD_BITS. by rewrite (proj2 (Z.ltb_ge _ _)) by lia. Qed.

Lemma log2_word value : 0 < value < 2 ^ 64 → 0 ≤ Z.log2 value < 64.
Proof. intros. split; [apply Z.log2_nonneg|]. apply Z.log2_lt_pow2; lia. Qed.

(** A word has its low bits clear under [x & (x - 1)] exactly when it is a
    power of two. *)
Lemma land_pred_pow2 value :
  0 < value → Z.land value (value - 1) = 0 → value = 2 ^ Z.log2 value.
Proof.
  intros Hpos Hland.
  destruct (decide (value = 2 ^ Z.log2 value)) as [|Hne]; [done|exfalso].
  pose proof (Z.log2_spec value Hpos) as [Hlo Hhi].
  assert (Hlog : Z.log2 (value - 1) = Z.log2 value).
  { apply Z.log2_unique; [apply Z.log2_nonneg|lia]. }
  assert (Hb : Z.testbit (Z.land value (value - 1)) (Z.log2 value) = true).
  { rewrite Z.land_spec, Z.bit_log2 by done.
    rewrite <- Hlog at 1. rewrite Z.bit_log2; [done|].
    assert (0 < 2 ^ Z.log2 value) by (apply Z.pow_pos_nonneg; [lia|apply Z.log2_nonneg]).
    lia. }
  by rewrite Hland, Z.bits_0 in Hb.
Qed.

Lemma calculate_radix_loop_log2 fuel x r :
  0 < x < 2 ^ Z.of_nat fuel → calculate_radix_loop fuel x r = r + Z.log2 x.
Proof.
  revert x r. induction fuel as [|fuel IH]; intros x r Hx; [cbn in Hx; lia|].
  cbn [calculate_radix_loop]. rewrite Nat2Z.inj_succ, Z.pow_succ_r in Hx by lia.
  rewrite <- Z.div2_spec. destruct (Z.eqb_spec (Z.div2 x) 0) as [Hz|Hz].
  - assert (x = 1) as ->; [|cbn; lia].
    pose proof (Z.div2_odd x). destruct (Z.odd x); cbn in *; lia.
  - assert (0 < Z.div2 x < 2 ^ Z.of_nat fuel).
    { rewrite Z.div2_div in *. split; [|apply Z.div_lt_upper_bound; lia].
      pose proof (Z.div_pos x 2). lia. }
    rewrite IH by done.
    rewrite Z.div2_spec, Z.log2_shiftr by lia.
    assert (1 ≤ Z.log2 x); [|lia].
    apply Z.log2_le_pow2; [lia|]. rewrite Z.div2_div in *.
    destruct (Z.lt_ge_cases x 2); [|lia]. rewrite Z.div_small in * by lia. lia.
Qed.

Lemma round_up_power_of_2_log2_up value :
  0 < value ≤ 2 ^ 63 → round_up_power_of_2 value = Some (2 ^ Z.log2_up value).
Proof.
  intros Hv. unfold round_up_power_of_2.
  rewrite (proj2 (Z.eqb_neq value 0)) by lia. rewrite wsub_id by lia.
  destruct (Z.eqb_spec (Z.land value (value - 1)) 0) as [Hz|Hz].
  - pose proof (land_pred_pow2 value ltac:(lia) Hz) as Hp. f_equal.
    rewrite Hp at 2. rewrite Z.log2_up_pow2 by apply Z.log2_nonneg. done.
  - assert (Hnp : value ≠ 2 ^ Z.log2 value).
    { intros Hp. apply Hz. rewrite Hp at 2. rewrite Hp at 1.
      replace (2 ^ Z.log2 value - 1) with (Z.ones (Z.log2 value))
        by (rewrite Z.ones_equiv; lia).
      rewrite Z.land_ones by apply Z.log2_nonneg. rewrite Z.mod_same; [done|].
      apply Z.pow_nonzero; [lia|apply Z.log2_nonneg]. }
    pose proof (Z.log2_spec value ltac:(lia)) as [Hlo Hhi].
    assert (Z.log2 value < 63).
    { apply (Z.pow_lt_mono_r_iff 2); lia. }
    unfold clz, WORD_BITS. replace (64 - 1 - (63 - Z.log2 value) + 1)
      with (Z.log2 value + 1) by lia.
    pose proof (Z.log2_nonneg value).
    rewrite shl_1 by lia. do 2 f_equal. symmetry.
    apply Z.log2_up_unique; [lia|].
    replace (Z.pred (Z.log2 value + 1)) with (Z.log2 value) by lia. lia.
Qed.

Lemma calculate_radix_log2 value :
  0 < value < 2 ^ 64 → calculate_radix value = Z.log2 value.
Proof.
  intros Hv. unfold calculate_radix. rewrite (proj2 (Z.eqb_neq value 0)) by lia.
  rewrite calculate_radix_loop_log2; [lia|]. cbn. lia.
Qed.

Lemma calculate_radix_ceil_log2_up value :
  0 < value ≤ 2 ^ 63 → calculate_radix_ceil value = Some (Z.log2_up value).
Proof.
  intros Hv. unfold calculate_radix_ceil.
  rewrite (proj2 (Z.eqb_neq value 0)), round_up_power_of_2_log2_up by lia. cbn.
  assert (0 ≤ Z.log2_up value ≤ 63).
  { split; [apply Z.log2_up_nonneg|]. apply (Z.log2_up_le_mono value (2 ^ 63)). lia. }
  rewrite calculate_radix_log2, Z.log2_pow2 by
    (lia || (split; [apply Z.pow_pos_nonneg|apply Z.pow_lt_mono_r]; lia)). done.
Qed.

(** Rounding up to a multiple of [base], as long as the sum does not wrap. *)
Lemma align_value_bounds value base :
  0 < base → 0 ≤ value → value + base ≤ 2 ^ 64 →
  value ≤ align_value value base < value + base ∧ (base | align_value value base).
Proof.
  intros Hb Hv Ho. unfold align_value. rewrite (proj2 (Z.eqb_neq base 0)) by lia.
  assert (Hw : wsub (wadd value base) 1 = value + base - 1).
  { unfold wsub, wadd, wrap. rewrite Zminus_mod_idemp_l, Z.mod_small; lia. }
  rewrite Hw. pose proof (Z.div_mod (value + base - 1) base ltac:(lia)) as Hd.
  pose proof (Z.mod_pos_bound (value + base - 1) base ltac:(lia)).
  rewrite wmul_id by nia. split; [nia|]. by exists ((value + base - 1) / base).
Qed.

(** In general, for a power of two: the multiple at or above [value], and 0 when this is
    the end of the address space. *)
Definition aligned_up (value base : Z) : Z := (value + base - 1) / base * base.

Lemma aligned_up_bounds value base : 0 < base → value ≤ aligned_up value base < value + base ∧ (base | aligned_up value base).
Proof.
  intros Hb. unfold aligned_up. pose proof (Z.div_mod (value + base - 1) base ltac:(lia)).
  pose proof (Z.mod_pos_bound (value + base - 1) base Hb). split; [nia|]. by exists ((value + base - 1) / base).
Qed.

Lemma align_value_wraps value bits :
  0 ≤ bits < 64 → 0 ≤ value < 2 ^ 64 → align_value value (2 ^ bits) = aligned_up value (2 ^ bits) mod 2 ^ 64.
Proof.
  intros Hb Hv. set (base := 2 ^ bits). assert (0 < base) by (apply Z.pow_pos_nonneg; lia).
  assert (base < 2 ^ 64) by (apply Z.pow_lt_mono_r; lia). pose proof (aligned_up_bounds value base ltac:(lia)) as [Ha Hd].
  unfold align_value. rewrite (proj2 (Z.eqb_neq base 0)) by lia.
  unfold wmul, wsub, wadd, wrap. rewrite Zminus_mod_idemp_l.
  destruct (Z.lt_ge_cases (value + base - 1) (2 ^ 64)) as [Hs|Hs].
  { rewrite (Z.mod_small (value + base - 1)) by lia. reflexivity. }
  assert ((value + base - 1) mod 2 ^ 64 = value + base - 1 - 2 ^ 64) as ->.
  { rewrite <- (Z.mod_add _ (-1)) by lia. apply Z.mod_small. lia. }
  rewrite (Z.div_small _ base), Z.mul_0_l by lia.
  assert (aligned_up value base = 2 ^ 64) as ->; [|done].
  assert (Hdiv : (base | 2 ^ 64)).
  { exists (2 ^ (64 - bits)). unfold base. rewrite <- Z.pow_add_r by lia. f_equal. lia. }
  destruct Hd as [q Hq], Hdiv as [r Hr]. rewrite Hq in Ha |- *. rewrite Hr in *.
  assert (q = r) as -> by nia. done.
Qed.

(** ** Properties *)

(** [calculate_radix_ceil], which sizes every kernel object carved out of a
    Generic, returns the least exponent whose power of two holds [value], for
    every value up to 2^63 (above it the shift in [round_up_power_of_2] is
    undefined, and the model says so). *)
Theorem calculate_radix_ceil_least value :
  0 < value ≤ 2 ^ 63 →
  ∃ r, calculate_radix_ceil value = Some r ∧ 0 ≤ r ≤ 63 ∧ value ≤ 2 ^ r ∧
       (∀ r', 0 ≤ r' → value ≤ 2 ^ r' → r ≤ r') ∧
       round_up_power_of_2 value = Some (2 ^ r).
Proof.
  intros Hv. exists (Z.log2_up value).
  rewrite calculate_radix_ceil_log2_up, round_up_power_of_2_log2_up by done.
  split_and!; try done.
  - apply Z.log2_up_nonneg.
  - apply (Z.log2_up_le_mono value (2 ^ 63)). lia.
  - apply Z.log2_log2_up_spec. lia.
  - intros r' ? Hr'. apply Z.log2_up_le_pow2; lia.
Qed.

Lemma calculate_radix_ceil_least_witness :
  (0 < 96 ≤ 2 ^ 63) ∧ calculate_radix_ceil 96 = Some 7 ∧
  ∃ r, calculate_radix_ceil 96 = Some r ∧ 0 ≤ r ≤ 63 ∧ 96 ≤ 2 ^ r ∧
       (∀ r', 0 ≤ r' → 96 ≤ 2 ^ r' → r ≤ r') ∧
       round_up_power_of_2 96 = Some (2 ^ r).
Proof.
  split; [lia|]. split; [reflexivity|]. apply (calculate_radix_ceil_least 96). lia.
Defined.

(** [align_value] rounds an address up to the least multiple of a non-zero
    base that is not below it, whenever [value + base] does not exceed 2^64;
    and past that bound the sum wraps, so that the result falls below the
    address it was meant to bound. *)
Theorem align_value_least value base :
  0 < base → 0 ≤ value → value + base ≤ 2 ^ 64 →
  value ≤ align_value value base < value + base ∧
  (base | align_value value base) ∧
  (∀ m, value ≤ m → (base | m) → align_value value base ≤ m) ∧
  align_value (2 ^ 64 - 1) (2 ^ 12) < 2 ^ 64 - 1.
Proof.
  intros Hb Hv Ho. destruct (align_value_bounds value base Hb Hv Ho) as [Hr Hd].
  split; [done|]. split; [done|]. split; [|reflexivity].
  intros m Hm [c ->]. destruct Hd as [d Hd]. rewrite Hd in *.
  apply Z.mul_le_mono_nonneg_r; [lia|]. apply Z.lt_succ_r.
  apply (Z.mul_lt_mono_pos_r base); lia.
Qed.

Lemma align_value_least_witness :
  0 < 4096 ∧ 0 ≤ 5000 ∧ 5000 + 4096 ≤ 2 ^ 64 ∧ align_value 5000 4096 = 8192 ∧
  (5000 ≤ align_value 5000 4096 < 5000 + 4096 ∧
   (4096 | align_value 5000 4096) ∧
   (∀ m, 5000 ≤ m → (4096 | m) → align_value 5000 4096 ≤ m) ∧
   align_value (2 ^ 64 - 1) (2 ^ 12) < 2 ^ 64 - 1).
Proof.
  do 3 (split; [lia|]). split; [reflexivity|].
  apply (align_value_least 5000 4096); lia.
Defined.
