(* ===== verification/Types.v ===== *)
(** The enumerations the kernel's components share and [liba9n::result]:
    src/src/kernel/include/kernel/{kernel_result,capability/capability_result,
    capability/capability_types,capability/capability_component,process/process,
    process/scheduler,interrupt/fault,memory/memory_type}.hpp,
    src/src/hal/include/hal/hal_result.hpp and
    src/src/liba9n/include/liba9n/result.  Enumerators that several C++ scopes
    share carry a two-letter prefix naming their enumeration. *)

From S2P Require Import Prelude Word.

(** ** Errors *)

Inductive hal_error :=
| HE_PERMISSION_DENIED | HE_ILLEGAL_ARGUMENT | HE_ILLEGAL_DEVICE
| HE_NO_SUCH_DEVICE | HE_NO_SUCH_ADDRESS | HE_UNSUPPORTED | HE_TRY_AGAIN
| HE_UNEXPECTED | HE_INIT_FIRST | HE_TIMEOUT.

Inductive kernel_error :=
| KE_PERMISSION_DENIED | KE_ILLEGAL_ARGUMENT | KE_ILLEGAL_DEVICE
| KE_NO_SUCH_DEVICE | KE_NO_SUCH_ADDRESS | KE_UNSUPPORTED | KE_TRY_AGAIN
| KE_UNEXPECTED | KE_INIT_FIRST | KE_HAL_ERROR.

Inductive capability_error :=
| CE_ILLEGAL_OPERATION | CE_PERMISSION_DENIED | CE_INVALID_DESCRIPTOR
| CE_INVALID_DEPTH | CE_INVALID_ARGUMENT | CE_FATAL | CE_DEBUG_UNIMPLEMENTED.

Inductive capability_lookup_error :=
| LE_TERMINAL | LE_INDEX_OUT_OF_RANGE | LE_UNAVAILABLE | LE_EMPTY | LE_UNEXPECTED.

Inductive scheduler_error :=
| SE_NO_PROCESS | SE_INVALID_PROCESS | SE_INVALID_PRIORITY | SE_CPU_ERROR
| SE_INVALID_CPU_CORE | SE_PROCESS_NOT_IN_QUEUE
| SE_PROCESS_ALREADY_EXISTS_IN_QUEUE | SE_CAN_NOT_SCHEDULE.

Inductive memory_map_error :=
| MM_ILLEGAL_DEPTH | MM_ILLEGAL_AUTORITY | MM_INVALID_PAGE_TABLE | MM_INVALID_FRAME
| MM_ALREADY_MAPPED | MM_NO_SUCH_PAGE_TABLE.

Inductive memory_error := ME_OUT_OF_MEMORY | ME_INVALID_ADDRESS | ME_INVALID_ALIGNMENT.

(** The word a capability error is reported as ([liba9n::enum_cast]). *)
Definition capability_error_word (e : capability_error) : Z :=
  match e with
  | CE_ILLEGAL_OPERATION => 0
  | CE_PERMISSION_DENIED => 1
  | CE_INVALID_DESCRIPTOR => 2
  | CE_INVALID_DEPTH => 3
  | CE_INVALID_ARGUMENT => 4
  | CE_FATAL => 5
  | CE_DEBUG_UNIMPLEMENTED => 6
  end.

Definition convert_hal_to_kernel_error (e : hal_error) : kernel_error := KE_HAL_ERROR.
Definition convert_kernel_to_capability_error (e : kernel_error) : capability_error := CE_FATAL.

(** ** Results *)

(** [liba9n::result<T, E>]. *)
Inductive result (T E : Type) :=
| Ok (value : T)
| Err (error : E).
Global Arguments Ok {T E} value.
Global Arguments Err {T E} error.

Definition is_ok {T E} (r : result T E) : bool :=
  match r with Ok _ => true | Err _ => false end.
Definition unwrap_or {T E} (r : result T E) (default : T) : T :=
  match r with Ok v => v | Err _ => default end.
Definition transform_error {T E F} (f : E → F) (r : result T E) : result T F :=
  match r with Ok v => Ok v | Err e => Err (f e) end.

Abbreviation hal_result := (result unit hal_error).
Abbreviation kernel_result := (result unit kernel_error).
Abbreviation capability_result := (result unit capability_error).
Abbreviation scheduler_result := (result unit scheduler_error).

(** ** Capabilities *)

Inductive capability_type :=
| CT_NONE | CT_DEBUG | CT_NODE | CT_GENERIC | CT_ADDRESS_SPACE | CT_PAGE_TABLE
| CT_FRAME | CT_PROCESS_CONTROL_BLOCK | CT_IPC_PORT | CT_NOTIFICATION_PORT
| CT_INTERRUPT_REGION | CT_INTERRUPT_PORT | CT_IO_PORT | CT_VIRTUAL_CPU
| CT_VIRTUAL_ADDRESS_SPACE | CT_VIRTUAL_PAGE_TABLE.

(** [static_cast<capability_type>] of a word: the enumeration's underlying type
    is [uint8_t]; a byte that names no enumerator is [None]. *)
Definition capability_type_of_word (w : Z) : option capability_type :=
  match wrap8 w with
  | 0 => Some CT_NONE | 1 => Some CT_DEBUG | 2 => Some CT_NODE
  | 3 => Some CT_GENERIC | 4 => Some CT_ADDRESS_SPACE | 5 => Some CT_PAGE_TABLE
  | 6 => Some CT_FRAME | 7 => Some CT_PROCESS_CONTROL_BLOCK | 8 => Some CT_IPC_PORT
  | 9 => Some CT_NOTIFICATION_PORT | 10 => Some CT_INTERRUPT_REGION
  | 11 => Some CT_INTERRUPT_PORT | 12 => Some CT_IO_PORT | 13 => Some CT_VIRTUAL_CPU
  | 14 => Some CT_VIRTUAL_ADDRESS_SPACE | 15 => Some CT_VIRTUAL_PAGE_TABLE
  | _ => None
  end.

(** [capability_slot::object_rights]. *)
Definition RIGHTS_NONE : Z := 0.
Definition RIGHTS_READ : Z := 1.
Definition RIGHTS_WRITE : Z := 2.
Definition RIGHTS_COPY : Z := 4.
Definition RIGHTS_MODIFY : Z := 8.
Definition RIGHTS_ALL : Z := 15.
Definition RIGHTS_READ_WRITE : Z := Z.lor RIGHTS_READ RIGHTS_WRITE.

(** [(rights & mask) == mask], the test of every operation on rights. *)
Definition has_rights (rights mask : Z) : bool := Z.land rights mask =? mask.

(** ** Processes *)

Inductive process_status :=
| PS_UNUSED | PS_READY | PS_BLOCKED_SEND | PS_BLOCKED_RECEIVE | PS_BLOCKED_REPLY
| PS_BLOCKED_WAIT | PS_BLOCKED_SUSPEND | PS_BLOCKED_FAULT | PS_IDLE.

Inductive fault_type :=
| FT_NONE | FT_MEMORY | FT_MEMORY_INSTRUCTION_FETCH | FT_INVALID_INSTRUCTION
| FT_INVALID_ARITHMETIC | FT_INVALID_KERNEL_CALL | FT_FATAL | FT_ARCHITECTURE.

Definition fault_type_word (t : fault_type) : Z :=
  match t with
  | FT_NONE => 0 | FT_MEMORY => 1 | FT_MEMORY_INSTRUCTION_FETCH => 2
  | FT_INVALID_INSTRUCTION => 3 | FT_INVALID_ARITHMETIC => 4
  | FT_INVALID_KERNEL_CALL => 5 | FT_FATAL => 6 | FT_ARCHITECTURE => 7
  end.

Inductive source_reply_state_object := SR_NONE | SR_WAIT.
Inductive destination_reply_state_object := DR_NONE | DR_READY_TO_REPLY.

Inductive ipc_port_state := IPC_WAIT | IPC_READY_TO_SEND | IPC_READY_TO_RECEIVE.
Inductive notification_port_state := NP_WAIT | NP_READY_TO_WAKE.
Inductive notification_state := NS_NONE | NS_HAS_FLAG.

Inductive register_type := RT_INSTRUCTION_POINTER | RT_STACK_POINTER | RT_THREAD_LOCAL_BASE.
Inductive kernel_entry_type := ENTRY_TYPE_INTERRUPT | ENTRY_TYPE_SYSCALL.
Inductive cpu_mode := CM_KERNEL | CM_USER | CM_IDLE | CM_VM.

(** ** Decidable equality *)

#[global] Instance hal_error_eq_dec : EqDecision hal_error.
Proof. solve_decision. Defined.
#[global] Instance kernel_error_eq_dec : EqDecision kernel_error.
Proof. solve_decision. Defined.
#[global] Instance memory_map_error_eq_dec : EqDecision memory_map_error.
Proof. solve_decision. Defined.
#[global] Instance kernel_entry_type_eq_dec : EqDecision kernel_entry_type.
Proof. solve_decision. Defined.
#[global] Instance capability_error_eq_dec : EqDecision capability_error.
Proof. solve_decision. Defined.
#[global] Instance capability_lookup_error_eq_dec : EqDecision capability_lookup_error.
Proof. solve_decision. Defined.
#[global] Instance scheduler_error_eq_dec : EqDecision scheduler_error.
Proof. solve_decision. Defined.
#[global] Instance capability_type_eq_dec : EqDecision capability_type.
Proof. solve_decision. Defined.
#[global] Instance process_status_eq_dec : EqDecision process_status.
Proof. solve_decision. Defined.
#[global] Instance fault_type_eq_dec : EqDecision fault_type.
Proof. solve_decision. Defined.
#[global] Instance source_reply_eq_dec : EqDecision source_reply_state_object.
Proof. solve_decision. Defined.
#[global] Instance destination_reply_eq_dec : EqDecision destination_reply_state_object.
Proof. solve_decision. Defined.
#[global] Instance ipc_port_state_eq_dec : EqDecision ipc_port_state.
Proof. solve_decision. Defined.
#[global] Instance notification_port_state_eq_dec : EqDecision notification_port_state.
Proof. solve_decision. Defined.
#[global] Instance notification_state_eq_dec : EqDecision notification_state.
Proof. solve_decision. Defined.

(** ** Lemmas on rights *)

(** [has_rights] is inclusion of bit sets. *)
Lemma has_rights_bits rights mask :
  has_rights rights mask = true ↔
  ∀ i, Z.testbit mask i = true → Z.testbit rights i = true.
Proof.
  unfold has_rights. rewrite Z.eqb_eq. split.
  - intros H i Hi. rewrite <- H, Z.land_spec in Hi. by apply andb_true_iff in Hi as [? _].
  - intros H. apply Z.bits_inj. intros i. rewrite Z.land_spec.
    specialize (H i). destruct (Z.testbit mask i), (Z.testbit rights i); naive_solver.
Qed.

Lemma has_rights_refl rights : has_rights rights rights = true.
Proof. by apply has_rights_bits. Qed.

Lemma has_rights_trans a b c :
  has_rights a b = true → has_rights b c = true → has_rights a c = true.
Proof. rewrite !has_rights_bits. auto. Qed.

Lemma has_rights_0 rights : has_rights rights 0 = true.
Proof. apply has_rights_bits. intros i. by rewrite Z.bits_0. Qed.

(** A subset of an 8-bit rights mask is itself 8 bits wide. *)
Lemma has_rights_byte rights mask :
  0 ≤ rights < 256 → has_rights rights mask = true → wrap8 mask = mask.
Proof.
  rewrite has_rights_bits. intros Hr Hsub. unfold wrap8. apply Z.bits_inj'.
  intros i Hi. destruct (Z.lt_ge_cases i 8).
  - by rewrite Z.mod_pow2_bits_low.
  - rewrite Z.mod_pow2_bits_high by lia. symmetry.
    destruct (Z.testbit mask i) eqn:Hm; [|done]. apply Hsub in Hm.
    rewrite Z.bits_above_log2 in Hm; [done|lia|].
    destruct (decide (rights = 0)) as [->|]; [cbn; lia|].
    apply (Z.lt_le_trans _ 8); [apply Z.log2_lt_pow2; lia|done].
Qed.
