(* ===== verification/Dll.v ===== *)
(** Intrusive doubly linked lists.

    The ready queues, the wait queues of both kinds of port and the dependency
    chain of capability slots are all threaded through pairs of pointers inside
    the objects they link.  This file has the theory they share: a [links] view
    tells, for an address, the previous and next pointer stored there, and
    [dlist L l] says that the objects of [l], in this order, form a complete
    list.  The lemmas describe the pointer writes of the four operations the
    kernel performs (append, unlink, insert after, replace) on the view only,
    so that each client instantiates them with its own fields. *)

From S2P Require Import Prelude.

Section dll.
Context `{EqDecision K}.

(** Previous and next pointer stored at an address, where there is an object. *)
Definition links : Type := K → option (option K * option K).

Implicit Types (L : links) (l : list K) (x y : K) (p n : option K).

(** The first element of [l], or what follows it; and symmetrically. *)
Definition first_or l n : option K := match l with [] => n | x :: _ => Some x end.
Definition last_or l p : option K := match last l with None => p | Some x => Some x end.

(** The objects of [l] are linked in order, after [p] and before [n]. *)
Fixpoint dseg L p l n : Prop :=
  match l with
  | [] => True
  | x :: l' => L x = Some (p, first_or l' n) ∧ dseg L (Some x) l' n
  end.

Definition dlist L l : Prop := dseg L None l None.

(** Writing one of the two pointers of the object at [o], if there is one. *)
Definition write_next (o : option K) n L : links := λ y,
  if decide (o = Some y) then (λ '(p, _), (p, n)) <$> L y else L y.
Definition write_prev (o : option K) p L : links := λ y,
  if decide (o = Some y) then (λ '(_, n), (p, n)) <$> L y else L y.

(** ** Segments *)

Lemma first_or_None l : first_or l None = head l.
Proof. by destruct l. Qed.

Lemma last_or_None l : last_or l None = last l.
Proof. unfold last_or. by destruct (last l). Qed.

Lemma first_or_app l1 l2 n : first_or (l1 ++ l2) n = first_or l1 (first_or l2 n).
Proof. by destruct l1. Qed.

Lemma last_or_cons x l p : last_or (x :: l) p = last_or l (Some x).
Proof. unfold last_or. rewrite last_cons. by destruct (last l). Qed.

Lemma dseg_app L p l1 l2 n :
  dseg L p (l1 ++ l2) n ↔ dseg L p l1 (first_or l2 n) ∧ dseg L (last_or l1 p) l2 n.
Proof.
  revert p. induction l1 as [|x l1 IH]; intros p; [cbn; tauto|].
  cbn [app dseg]. rewrite IH, first_or_app, last_or_cons. tauto.
Qed.

Lemma dseg_ext L L' p l n :
  (∀ y, y ∈ l → L' y = L y) → dseg L p l n → dseg L' p l n.
Proof.
  revert p. induction l as [|x l IH]; intros p Hext; [done|]. cbn.
  intros [Hx Hl]. split; [rewrite Hext by left; done|].
  apply IH; [|done]. intros y Hy. apply Hext. by right.
Qed.

Lemma dseg_lookup L p l1 x l2 n :
  dseg L p (l1 ++ x :: l2) n → L x = Some (last_or l1 p, first_or l2 n).
Proof. rewrite dseg_app. cbn. tauto. Qed.

Lemma dseg_elem L p l n x : dseg L p l n → x ∈ l → is_Some (L x).
Proof.
  intros Hd (l1 & l2 & ->)%list_elem_of_split. apply dseg_lookup in Hd. eauto.
Qed.

(** What follows an object is determined by the next pointers. *)
Lemma dseg_det L p p' x l l' :
  dseg L p (x :: l) None → dseg L p' (x :: l') None → l = l'.
Proof.
  revert x p p' l'. induction l as [|y l IH]; intros x p p' l' H1 H2.
  - destruct H1 as [H1 _], H2 as [H2 _]. destruct l'; [done|].
    rewrite H1 in H2. naive_solver.
  - destruct H1 as [H1 Hl], H2 as [H2 Hl']. rewrite H1 in H2.
    destruct l' as [|y' l']; simplify_eq/=. f_equal. by eapply IH.
Qed.

Lemma dlist_NoDup L l : dlist L l → NoDup l.
Proof.
  unfold dlist. generalize (@None K) at 1 as p.
  induction l as [|x l IH]; intros p Hd; [constructor|].
  constructor; [|eapply IH, Hd].
  intros (l1 & l2 & ->)%list_elem_of_split.
  pose proof Hd as [_ Hd2]. apply dseg_app in Hd2 as [_ Hd2].
  pose proof (dseg_det _ _ _ _ _ _ Hd Hd2) as Heq.
  apply (f_equal length) in Heq. rewrite length_app in Heq. cbn in Heq. lia.
Qed.

(** ** Whole lists *)

Lemma dlist_lookup L l1 x l2 :
  dlist L (l1 ++ x :: l2) → L x = Some (last l1, head l2).
Proof.
  intros Hd. apply dseg_lookup in Hd. by rewrite last_or_None, first_or_None in Hd.
Qed.

Lemma dlist_ext L L' l : (∀ y, y ∈ l → L' y = L y) → dlist L l → dlist L' l.
Proof. apply dseg_ext. Qed.

Lemma dlist_nil L : dlist L [].
Proof. done. Qed.

Lemma dlist_singleton L x : L x = Some (None, None) → dlist L [x].
Proof. done. Qed.

(** An object with no previous pointer starts its list, and one with no next
    pointer ends it. *)
Lemma dlist_head_prev L l x p n : dlist L l → x ∈ l → L x = Some (p, n) → p = None ↔ head l = Some x.
Proof.
  intros Hd Hx HL. pose proof (dlist_NoDup _ _ Hd) as Hnd.
  apply list_elem_of_split in Hx as (l1 & l2 & ->).
  apply dlist_lookup in Hd. rewrite HL in Hd. simplify_eq.
  destruct l1 as [|y l1]; [naive_solver|]. rewrite last_cons. cbn.
  apply NoDup_app_cons_notin in Hnd as (Hnd & _ & _).
  split; [by destruct (last l1)|]. intros [= ->]. set_solver.
Qed.

Lemma dlist_last_next L l x p n : dlist L l → x ∈ l → L x = Some (p, n) → n = None ↔ last l = Some x.
Proof.
  intros Hd Hx HL. pose proof (dlist_NoDup _ _ Hd) as Hnd.
  apply list_elem_of_split in Hx as (l1 & l2 & ->).
  apply dlist_lookup in Hd. rewrite HL in Hd. simplify_eq.
  destruct l2 as [|y l2]; [by rewrite last_snoc|]. cbn. split; [done|].
  rewrite last_app, !last_cons. intros Hl.
  apply NoDup_app_cons_notin in Hnd as (_ & Hnd & _). exfalso. apply Hnd.
  destruct (last l2) as [z|] eqn:Hz; simplify_eq; [right|left].
  by apply last_Some_elem_of.
Qed.

(** The writes of an update agree with [L] on an object they do not touch. *)
Lemma write_next_other o n L y : o ≠ Some y → write_next o n L y = L y.
Proof. intros. unfold write_next. by rewrite decide_False. Qed.
Lemma write_prev_other o p L y : o ≠ Some y → write_prev o p L y = L y.
Proof. intros. unfold write_prev. by rewrite decide_False. Qed.

Lemma dseg_write_next L p l x n n' :
  dseg L p (l ++ [x]) n → x ∉ l → dseg (write_next (Some x) n' L) p (l ++ [x]) n'.
Proof.
  rewrite !dseg_app. cbn. intros [Hl [Hx _]] Hnot. split; [|split; [|done]].
  - eapply dseg_ext; [|exact Hl]. intros y Hy. apply write_next_other. set_solver.
  - unfold write_next. by rewrite decide_True, Hx by done.
Qed.

Lemma dseg_write_prev L p l x n p' :
  dseg L p (x :: l) n → x ∉ l → dseg (write_prev (Some x) p' L) p' (x :: l) n.
Proof.
  cbn. intros [Hx Hl] Hnot. split.
  - unfold write_prev. by rewrite decide_True, Hx by done.
  - eapply dseg_ext; [|exact Hl]. intros y Hy. apply write_prev_other. set_solver.
Qed.

(** The end of a list is rewired by a write to the next pointer of its last
    object, the beginning by a write to the previous pointer of its first. *)
Lemma dseg_redirect_next L p l n n' :
  NoDup l → dseg L p l n → dseg (write_next (last l) n' L) p l n'.
Proof.
  intros Hnd Hd. destruct l as [|x l _] using rev_ind; [done|].
  rewrite last_snoc. apply NoDup_app_cons_notin in Hnd as (? & _ & _).
  by apply (dseg_write_next _ _ _ _ n).
Qed.

Lemma dseg_redirect_prev L p l n p' :
  NoDup l → dseg L p l n → dseg (write_prev (head l) p' L) p' l n.
Proof.
  intros Hnd Hd. destruct l as [|x l]; [done|]. apply NoDup_cons in Hnd as [? _].
  by apply (dseg_write_prev _ p).
Qed.

(** ** The kernel's operations *)

(** Appending [x]: [tail->next = x; x->prev = tail; x->next = null]. *)
Lemma dlist_push L L' l x :
  dlist L l → x ∉ l →
  (∀ y, y ∈ l → L' y = write_next (last l) (Some x) L y) →
  L' x = Some (last l, None) →
  dlist L' (l ++ [x]).
Proof.
  intros Hd Hx Hext HLx. apply dseg_app. rewrite last_or_None. cbn.
  split; [|done]. eapply dseg_ext; [exact Hext|].
  apply (dseg_redirect_next _ _ _ None); [by eapply dlist_NoDup|done].
Qed.

(** Two neighbouring segments joined by writes to the pointers that meet. *)
Lemma dlist_join L L' l1 l2 n p :
  NoDup (l1 ++ l2) → dseg L None l1 n → dseg L p l2 None →
  (∀ y, y ∈ l1 ++ l2 →
     L' y = write_prev (head l2) (last l1) (write_next (last l1) (head l2) L) y) →
  dlist L' (l1 ++ l2).
Proof.
  rewrite NoDup_app. intros (Hnd1 & Hdisj & Hnd2) H1 H2 Hext.
  apply dseg_app. rewrite last_or_None, first_or_None. split.
  - apply (dseg_ext (write_next (last l1) (head l2) L)).
    + intros y Hy. rewrite Hext by set_solver. apply write_prev_other.
      intros Hh. apply (Hdisj y Hy). by apply head_Some_elem_of.
    + by apply (dseg_redirect_next _ _ _ n).
  - apply (dseg_ext (write_prev (head l2) (last l1) L)).
    + intros y Hy. rewrite Hext by set_solver.
      unfold write_prev. case_decide as Hh; rewrite ?write_next_other; try done.
      all: intros Hl; apply (Hdisj y); [by apply last_Some_elem_of|done].
    + by apply (dseg_redirect_prev _ p).
Qed.

(** Unlinking [x]: [prev->next = next; next->prev = prev]. *)
Lemma dlist_unlink L L' l1 x l2 :
  dlist L (l1 ++ x :: l2) →
  (∀ y, y ∈ l1 ++ l2 →
     L' y = write_prev (head l2) (last l1) (write_next (last l1) (head l2) L) y) →
  dlist L' (l1 ++ l2).
Proof.
  intros Hd Hext. pose proof (dlist_NoDup _ _ Hd) as Hnd.
  apply NoDup_app_cons_notin in Hnd as (_ & _ & Hnd).
  apply dseg_app in Hd as [H1 [_ H2]]. eapply dlist_join; done.
Qed.

(** Taking the head off. *)
Lemma dlist_pop L L' x l :
  dlist L (x :: l) →
  (∀ y, y ∈ l → L' y = write_prev (head l) None L y) →
  dlist L' l.
Proof.
  intros Hd Hext. apply (dlist_unlink L L' [] x l); [done|].
  intros y Hy. rewrite Hext by done. cbn.
  unfold write_prev. case_decide; by rewrite write_next_other.
Qed.

(** Inserting [x] after the last object of [l1]. *)
Lemma dlist_insert L L' l1 x l2 :
  dlist L (l1 ++ l2) → x ∉ l1 ++ l2 →
  (∀ y, y ∈ l1 ++ l2 →
     L' y = write_prev (head l2) (Some x) (write_next (last l1) (Some x) L) y) →
  L' x = Some (last l1, head l2) →
  dlist L' (l1 ++ x :: l2).
Proof.
  intros Hd Hx Hext HLx. pose proof (dlist_NoDup _ _ Hd) as Hnd.
  apply NoDup_app in Hnd as (Hnd1 & Hdisj & Hnd2).
  apply dseg_app in Hd as [H1 H2]. apply dseg_app. split; [|split].
  - cbn. apply (dseg_ext (write_next (last l1) (Some x) L)).
    + intros y Hy. rewrite Hext by set_solver. apply write_prev_other.
      intros Hh. apply (Hdisj y Hy). by apply head_Some_elem_of.
    + by eapply dseg_redirect_next.
  - by rewrite last_or_None, first_or_None.
  - apply (dseg_ext (write_prev (head l2) (Some x) L)).
    + intros y Hy. rewrite Hext by set_solver.
      unfold write_prev. case_decide; rewrite ?write_next_other; try done.
      all: intros Hl; apply (Hdisj y); [by apply last_Some_elem_of|done].
    + by eapply dseg_redirect_prev.
Qed.

(** Putting [x'] in the place of [x]: both neighbours are pointed at [x']. *)
Lemma dlist_replace L L' l1 x l2 x' :
  dlist L (l1 ++ x :: l2) → x' ∉ l1 ++ l2 →
  (∀ y, y ∈ l1 ++ l2 →
     L' y = write_prev (head l2) (Some x') (write_next (last l1) (Some x') L) y) →
  L' x' = Some (last l1, head l2) →
  dlist L' (l1 ++ x' :: l2).
Proof.
  intros Hd Hx' Hext HLx.
  set (L1 := write_prev (head l2) (last l1) (write_next (last l1) (head l2) L)).
  assert (Hd1 : dlist L1 (l1 ++ l2)) by (eapply dlist_unlink; done).
  pose proof (dlist_NoDup _ _ Hd1) as Hnd. apply NoDup_app in Hnd as (_ & Hdisj & _).
  apply (dlist_insert L1); [done..| |done].
  intros y Hy. rewrite Hext by done. unfold L1, write_prev, write_next.
  repeat case_decide; try done; destruct (L y) as [[]|]; try done.
Qed.

End dll.

Global Arguments links : clear implicits.

(** The view of a heap of objects, given their two pointer fields. *)
Definition heap_links `{Countable K} {V} (prev nxt : V → option K) (h : gmap K V) : links K :=
  λ x, (λ v, (prev v, nxt v)) <$> h !! x.

(** A linked list is no longer than its heap is big: the fuel of a traversal. *)
Lemma dlist_heap_length `{Countable K} {V} (prev nxt : V → option K) (h : gmap K V) l :
  dlist (heap_links prev nxt h) l → (length l ≤ size h)%nat.
Proof.
  intros Hd. apply NoDup_keys_length; [by eapply dlist_NoDup|].
  intros x Hx. eapply dseg_elem in Hd as [v Hv]; [|done].
  unfold heap_links in Hv. destruct (h !! x); naive_solver.
Qed.

(** Writing fields that are not links leaves the view alone. *)
Lemma heap_links_insert_same `{Countable K} {V} (prev nxt : V → option K) (h : gmap K V) x v v' y :
  h !! x = Some v → prev v' = prev v → nxt v' = nxt v →
  heap_links prev nxt (<[x := v']> h) y = heap_links prev nxt h y.
Proof.
  intros Hx Hp Hn. unfold heap_links. rewrite lookup_insert.
  case_decide; [subst|done]. by rewrite Hx; cbn; rewrite Hp, Hn.
Qed.

Lemma heap_links_insert_ne `{Countable K} {V} (prev nxt : V → option K) (h : gmap K V) x v y :
  x ≠ y → heap_links prev nxt (<[x := v]> h) y = heap_links prev nxt h y.
Proof. intros. unfold heap_links. by rewrite lookup_insert_ne. Qed.

Lemma heap_links_insert_eq `{Countable K} {V} (prev nxt : V → option K) (h : gmap K V) x v :
  heap_links prev nxt (<[x := v]> h) x = Some (prev v, nxt v).
Proof. unfold heap_links. by rewrite lookup_insert_eq. Qed.

(** ** Frames

    An operation on a linked structure keeps every object up to the fields the
    structure threads through it ([core] forgets them), and keeps the objects
    outside [T] entirely. *)

Section frame.
Context `{Countable K} {V : Type} (core : V → V).
Implicit Types (T : K → Prop) (h : gmap K V).

Record link_frame T h h' : Prop := {
  frame_core : core <$> h' = core <$> h;
  frame_other p : ¬ T p → h' !! p = h !! p;
}.

Lemma link_frame_refl T h : link_frame T h h.
Proof. done. Qed.

Lemma link_frame_trans T h1 h2 h3 :
  link_frame T h1 h2 → link_frame T h2 h3 → link_frame T h1 h3.
Proof. intros [A1 A2] [B1 B2]. split; [congruence|]. intros p Hp. by rewrite B2, A2. Qed.

Lemma link_frame_mono T T' h h' :
  (∀ p, T p → T' p) → link_frame T h h' → link_frame T' h h'.
Proof. intros HT [A1 A2]. split; naive_solver. Qed.

Lemma link_frame_insert T h p v v' :
  h !! p = Some v → core v' = core v → T p → link_frame T h (<[p := v']> h).
Proof.
  intros Hp Hf HT. split.
  - rewrite fmap_insert, Hf. apply insert_id. by rewrite lookup_fmap, Hp.
  - intros q Hq. rewrite lookup_insert_ne; [done|]. congruence.
Qed.

(** An object keeps every field but the links. *)
Lemma link_frame_lookup T h h' p v :
  link_frame T h h' → h !! p = Some v → ∃ v', h' !! p = Some v' ∧ core v' = core v.
Proof.
  intros [Hc _] Hv. apply (f_equal (.!! p)) in Hc. rewrite !lookup_fmap, Hv in Hc.
  destruct (h' !! p) as [v'|]; [|done].
  change (Some (core v') = Some (core v)) in Hc.
  exists v'. split; [done|congruence].
Qed.

End frame.
Global Arguments link_frame_refl {K _ _ V core} T h.
Global Arguments link_frame_lookup {K _ _ V core} T h h' p v.
Global Arguments frame_core {K _ _ V core} T h h' _.
Global Arguments frame_other {K _ _ V core} T h h' _ p _.

Lemma link_frame_replace `{Countable K} {V} (core : V → V) (T : K → Prop) h p v v' :
  core v' = core v → T p → link_frame core T (<[p := v]> h) (<[p := v']> h).
Proof.
  intros Hc HT. split; [by rewrite !fmap_insert, Hc|].
  intros q Hq. rewrite !lookup_insert_ne; [done|congruence..].
Qed.

(** Compare the links of an updated heap with the pointers written. *)
Ltac links_solve :=
  unfold write_prev, write_next, heap_links;
  repeat first [ rewrite lookup_insert_eq | rewrite lookup_insert_ne by congruence ];
  repeat (case_decide; simplify_eq);
  rewrite ?lookup_insert; repeat (case_decide; simplify_eq);
  cbn [fst snd fmap option_fmap option_map] in *; simplify_option_eq; try done; try congruence.

