(* ===== verification/Kernel.v ===== *)
(** The kernel's data and the effect every operation of it runs in.

    C++ objects live in typed heaps, one finite map per class, keyed by the
    object's address; a pointer is an address, a nullable pointer an [option].
    Capability slots are embedded in other objects, so their address
    ([slot_ref]) names the enclosing object and the place in it.  Reading or
    writing through an address that holds no object of the class is
    [Undefined], like every other behaviour C++ leaves undefined; an error
    the code reports is a value of [result].

    Sources: src/src/kernel/include/kernel/capability/capability_component.hpp,
    capability_node.hpp, ipc_port.hpp, notification_port.hpp, process/process.hpp,
    process/cpu.hpp, process/scheduler.hpp, process/process_manager.hpp,
    ipc/ipc_buffer.hpp, ipc/notification.hpp,
    interrupt/irq_notification_handlers.hpp and process/reclamation.cpp. *)

From S2P Require Import Prelude Word Types Dll.

(** ** Build configuration

    What the build system or the hardware fixes: [SMP_ENABLED] of config.hpp,
    the number of cores, the sizes of the object layouts the sources do not
    spell out, the words a C++ local array holds before it is written, what the
    interrupt controllers answer when an interrupt is sent to a core
    ([ipi_status]), masked or unmasked ([irq_status]) or completed
    ([eoi_status]), what a device answers to a read of a port, the physical
    address of the kernel's own page table, and how a core that another one waits
    for enters the kernel ([None]: it never does). *)
Class config := {
  SMP_ENABLED : bool;
  expected_core_count : Z;
  sizeof_process_control_block : Z;
  sizeof_ipc_port : Z;
  sizeof_notification_port : Z;
  sizeof_virtual_cpu_capability : Z;
  SUPPORT_2MiB_PAGE : bool;
  SUPPORT_1GiB_PAGE : bool;
  initial_floating_context : list Z;
  indeterminate : Z;
  ipi_status : Z → hal_result;
  irq_status : Z → hal_result;
  eoi_status : hal_result;
  port_input : Z → Z → Z;
  kernel_pml4 : Z;
  remote_entry : Z → option kernel_entry_type;
}.

(** One x86-64 core whose devices accept everything: the configuration of the
    concrete runs. *)
Definition example_config : config := {|
  SMP_ENABLED := false;
  expected_core_count := 1;
  sizeof_process_control_block := 2048;
  sizeof_ipc_port := 64;
  sizeof_notification_port := 64;
  sizeof_virtual_cpu_capability := 1024;
  SUPPORT_2MiB_PAGE := true;
  SUPPORT_1GiB_PAGE := true;
  initial_floating_context := [];
  indeterminate := 0;
  ipi_status := λ _, Ok tt;
  irq_status := λ _, Ok tt;
  eoi_status := Ok tt;
  port_input := λ port _, port;
  kernel_pml4 := 0x1000;
  remote_entry := λ _, None;
|}.

(** ** Constants *)

Definition PRIORITY_MAX : Z := 32.
Definition QUANTUM_MAX : Z := 10.
Definition CPU_COUNT_MAX : Z := 64.
Definition BSP_ID : Z := 0.
Definition HARDWARE_CONTEXT_SIZE : Z := 23.
Definition FLOATING_CONTEXT_SIZE : Z := 256.
Definition MESSAGE_REGISTER_COUNT : Z := 10.
Definition IRQ_NUMBER_MAX : Z := 256.
Definition KERNEL_VIRTUAL_BASE : Z := 0xFFFF800000000000.
(** 4096 / 8 words of a page, less 16 + 2 for the capability transfer. *)
Definition MESSAGE_BUFFER_SIZE_MAX : Z := PAGE_SIZE / 8 - (16 + 2).
Definition CAPABILITY_TRANSFER_COUNT_MAX : Z := 16.

(** ** Addresses *)

(** The slots embedded in a [process]. *)
Inductive process_slot :=
| ROOT_SLOT | ROOT_ADDRESS_SPACE | BUFFER_FRAME | BINDED_NOTIFICATION_PORT | RESOLVER_PORT.

(** The address of a capability slot: element [index] of a Node's slot array, a
    member of a process, or the slot of an IRQ notification handler. *)
Inductive slot_ref :=
| array_slot (array index : Z)
| process_slot_ref (p : Z) (member : process_slot)
| irq_slot (irq : Z).

(** [capability_component *]: the dynamic type of the component, which virtual
    calls dispatch on, and its address where the class has several instances.
    A Process Control Block and the [process_core] embedded in it have one name. *)
Inductive component_ref :=
| C_NODE (a : Z) | C_GENERIC | C_ADDRESS_SPACE | C_PAGE_TABLE | C_FRAME
| C_PROCESS_CONTROL_BLOCK (a : Z) | C_IPC_PORT (a : Z) | C_NOTIFICATION_PORT (a : Z)
| C_INTERRUPT_REGION | C_INTERRUPT_PORT | C_IO_PORT | C_VIRTUAL_CPU (a : Z).

#[global] Instance process_slot_eq_dec : EqDecision process_slot.
Proof. solve_decision. Defined.
#[global] Instance slot_ref_eq_dec : EqDecision slot_ref.
Proof. solve_decision. Defined.
#[global] Instance component_ref_eq_dec : EqDecision component_ref.
Proof. solve_decision. Defined.

Definition process_slot_code (s : process_slot) : Z :=
  match s with
  | ROOT_SLOT => 0 | ROOT_ADDRESS_SPACE => 1 | BUFFER_FRAME => 2
  | BINDED_NOTIFICATION_PORT => 3 | RESOLVER_PORT => 4
  end.
Definition process_slot_decode (c : Z) : process_slot :=
  match c with
  | 0 => ROOT_SLOT | 1 => ROOT_ADDRESS_SPACE | 2 => BUFFER_FRAME
  | 3 => BINDED_NOTIFICATION_PORT | _ => RESOLVER_PORT
  end.

#[global] Instance slot_ref_countable : Countable slot_ref.
Proof.
  refine (inj_countable'
    (λ s, match s with
          | array_slot a i => (0, a, i)
          | process_slot_ref p m => (1, p, process_slot_code m)
          | irq_slot n => (2, n, 0)
          end)
    (λ c, match c with
          | (0, a, i) => array_slot a i
          | (1, p, m) => process_slot_ref p (process_slot_decode m)
          | (_, n, _) => irq_slot n
          end) _).
  intros [| p [] |]; reflexivity.
Defined.

(** ** Objects *)

Record capability_slot_data := SlotData { data_0 : Z; data_1 : Z; data_2 : Z }.

Record capability_slot := MkSlot {
  component : option component_ref;
  type : capability_type;
  rights : Z;
  reclaiming : bool;
  data : capability_slot_data;
  next_slot : option slot_ref;
  preview_slot : option slot_ref;
  depth : Z;
}.

Record capability_node := MkNode {
  ignore_bits : Z;
  radix_bits : Z;
  capability_slots : option Z;
}.

Record process := MkProcess {
  registers : list Z;
  floating_registers : list Z;
  status : process_status;
  priority : Z;
  quantum : Z;
  core_affinity : Z;
  preview : option Z;
  next : option Z;
  is_in_ready_queue : bool;
  fault_reason : fault_type;
  fault_code : Z;
  arch_fault_code : Z;
  fault_address : Z;
  buffer : option Z;
  next_ipc_queue : option Z;
  preview_ipc_queue : option Z;
  next_notification_queue : option Z;
  preview_notification_queue : option Z;
  current_ipc_port : option Z;
  current_notification_port : option Z;
  identifier_when_blocked : Z;
  source_reply_state : source_reply_state_object;
  destination_reply_state : destination_reply_state_object;
  source_reply_target : option Z;
  destination_reply_target : option Z;
}.

Record ipc_buffer := MkIpcBuffer {
  messages : list Z;
  transfer_source_descriptors : list Z;
  transfer_destination_node : Z;
  transfer_destination_index : Z;
}.

Record ipc_port := MkIpcPort {
  ipc_queue_head : option Z;
  ipc_queue_tail : option Z;
  ipc_state : ipc_port_state;
}.

Record notification := MkNotification {
  current_state : notification_state;
  flag : Z;
}.

Record notification_port := MkNotificationPort {
  core : notification;
  np_queue_head : option Z;
  np_queue_tail : option Z;
  binded_process : option Z;
  np_state : notification_port_state;
}.

Record process_queue := MkQueue { queue_head : option Z; queue_tail : option Z }.

(** [queue] is indexed by priority, 0 to [PRIORITY_MAX - 1]. *)
Record scheduler := MkScheduler {
  queue : gmap Z process_queue;
  highest_priority : Z;
}.

(** [idle_process] is embedded in the manager: the model keeps its address. *)
Record process_manager := MkProcessManager {
  idle_process : Z;
  scheduler_core : scheduler;
}.

Record cpu_local_variable := MkCpu {
  current_process : option Z;
  core_number : Z;
  process_manager_core : process_manager;
  is_idle : bool;
  pending_reschedule_target : option Z;
}.

Record irq_notification_handler := MkIrqHandler { irq_number : Z; irq_used : bool }.

Inductive stop_state := STOP_IDLE | STOP_PENDING | STOP_STOPPED | STOP_FAILED.
Record stop_request := MkStopRequest { stop_target : option Z; stop_request_state : stop_state }.

(** The registers of one x86-64 core the modelled HAL reads or writes. *)
Record hal_core := MkHalCore {
  cr3 : Z;
  fs_base : Z;
  user_gs_base : Z;
  fs_gs_base_enabled : bool;
  gs_base : option Z;
  floating_unit : list Z;
}.

Inductive ipi_type := IPI_RESCHEDULE | IPI_INVALIDATE_TLB.

(** What the kernel asked of the hardware: an interrupt to a core, the
    invalidation of a page (or of all) on a core, the unmasking or masking of an
    IRQ, the end of an interrupt, an output to a port, a character of the log. *)
Inductive hal_event :=
| EV_IPI (type : ipi_type) (core : Z)
| EV_INVALIDATE_TLB (core : Z) (page : option Z)
| EV_ENABLE_IRQ (irq : Z)
| EV_DISABLE_IRQ (irq : Z)
| EV_EOI (core : Z)
| EV_PORT_WRITE (port width value : Z)
| EV_PUT_CHAR (c : Z).

Record kernel := MkKernel {
  slots : gmap slot_ref capability_slot;
  nodes : gmap Z capability_node;
  processes : gmap Z process;
  ipc_ports : gmap Z ipc_port;
  notification_ports : gmap Z notification_port;
  ipc_buffers : gmap Z ipc_buffer;
  cpu_local_variables : gmap Z cpu_local_variable;
  active_node_reclamations : list Z;
  irq_notification_handlers : gmap Z irq_notification_handler;
  stop_requests : gmap Z stop_request;
  (* hardware *)
  current_core : Z;
  hal_cores : gmap Z hal_core;
  memory_words : gmap Z Z;
  x_save_mask : Z;
  events : list hal_event;
}.

#[global] Instance eta_slot_data : Eta capability_slot_data := λ x,
  SlotData (data_0 x) (data_1 x) (data_2 x).
#[global] Instance eta_slot : Eta capability_slot := λ x,
  MkSlot (component x) (type x) (rights x) (reclaiming x) (data x) (next_slot x)
    (preview_slot x) (depth x).
#[global] Instance eta_node : Eta capability_node := λ x,
  MkNode (ignore_bits x) (radix_bits x) (capability_slots x).
#[global] Instance eta_process : Eta process := λ x,
  MkProcess (registers x) (floating_registers x) (status x) (priority x) (quantum x)
    (core_affinity x) (preview x) (next x) (is_in_ready_queue x) (fault_reason x)
    (fault_code x) (arch_fault_code x) (fault_address x) (buffer x) (next_ipc_queue x)
    (preview_ipc_queue x) (next_notification_queue x) (preview_notification_queue x)
    (current_ipc_port x) (current_notification_port x) (identifier_when_blocked x)
    (source_reply_state x) (destination_reply_state x) (source_reply_target x)
    (destination_reply_target x).
#[global] Instance eta_ipc_buffer : Eta ipc_buffer := λ x,
  MkIpcBuffer (messages x) (transfer_source_descriptors x)
    (transfer_destination_node x) (transfer_destination_index x).
#[global] Instance eta_ipc_port : Eta ipc_port := λ x,
  MkIpcPort (ipc_queue_head x) (ipc_queue_tail x) (ipc_state x).
#[global] Instance eta_notification : Eta notification := λ x,
  MkNotification (current_state x) (flag x).
#[global] Instance eta_notification_port : Eta notification_port := λ x,
  MkNotificationPort (core x) (np_queue_head x) (np_queue_tail x) (binded_process x)
    (np_state x).
#[global] Instance eta_queue : Eta process_queue := λ x,
  MkQueue (queue_head x) (queue_tail x).
#[global] Instance eta_scheduler : Eta scheduler := λ x,
  MkScheduler (queue x) (highest_priority x).
#[global] Instance eta_process_manager : Eta process_manager := λ x,
  MkProcessManager (idle_process x) (scheduler_core x).
#[global] Instance eta_cpu : Eta cpu_local_variable := λ x,
  MkCpu (current_process x) (core_number x) (process_manager_core x) (is_idle x)
    (pending_reschedule_target x).
#[global] Instance eta_irq_handler : Eta irq_notification_handler := λ x,
  MkIrqHandler (irq_number x) (irq_used x).
#[global] Instance eta_stop_request : Eta stop_request := λ x,
  MkStopRequest (stop_target x) (stop_request_state x).
#[global] Instance eta_hal_core : Eta hal_core := λ x,
  MkHalCore (cr3 x) (fs_base x) (user_gs_base x) (fs_gs_base_enabled x) (gs_base x)
    (floating_unit x).
#[global] Instance eta_kernel : Eta kernel := λ x,
  MkKernel (slots x) (nodes x) (processes x) (ipc_ports x) (notification_ports x)
    (ipc_buffers x) (cpu_local_variables x) (active_node_reclamations x)
    (irq_notification_handlers x) (stop_requests x) (current_core x) (hal_cores x)
    (memory_words x) (x_save_mask x) (events x).

(** ** Default-constructed objects: the member initialisers of the classes *)

Definition initial_slot : capability_slot :=
  MkSlot None CT_NONE 0 false (SlotData 0 0 0) None None 0.

Definition initial_process : process :=
  MkProcess (replicate (Z.to_nat HARDWARE_CONTEXT_SIZE) 0)
    (replicate (Z.to_nat FLOATING_CONTEXT_SIZE) 0) PS_UNUSED 0 0 0
    None None false FT_NONE 0 0 0 None None None None None None None 0
    SR_NONE DR_NONE None None.

Definition initial_scheduler : scheduler :=
  MkScheduler
    (gset_to_gmap (MkQueue None None) (list_to_set (seqZ 0 PRIORITY_MAX)))
    (PRIORITY_MAX - 1).

Definition initial_cpu (idle core : Z) : cpu_local_variable :=
  MkCpu None core (MkProcessManager idle initial_scheduler) false None.

(** No object but one core, whose IDLE process is at address 0. *)
Definition initial_kernel : kernel :=
  MkKernel ∅ ∅ ∅ ∅ ∅ ∅ {[0 := initial_cpu 0 0]} [] ∅ ∅ 0 ∅ ∅ 0 [].

(** ** The effect *)

(** A run ends with a value and a state, in undefined behaviour, or without
    having ended within the fuel of a loop or recursion. *)
Inductive outcome (A : Type) :=
| Ret (a : A) (k : kernel)
| Undefined
| OutOfFuel.
Global Arguments Ret {A} a k.
Global Arguments Undefined {A}.
Global Arguments OutOfFuel {A}.

Definition M (A : Type) : Type := kernel → outcome A.

#[global] Instance M_ret : MRet M := λ A a k, Ret a k.
#[global] Instance M_bind : MBind M := λ A B f m k,
  match m k with
  | Ret a k' => f a k'
  | Undefined => Undefined
  | OutOfFuel => OutOfFuel
  end.

Definition undefined {A} : M A := λ _, Undefined.
Definition out_of_fuel {A} : M A := λ _, OutOfFuel.
Definition reads {A} (f : kernel → A) : M A := λ k, Ret (f k) k.
Definition updates (f : kernel → kernel) : M unit := λ k, Ret tt (f k).

(** A computation C++ leaves undefined, such as a shift that is too wide. *)
Definition defined {A} (o : option A) : M A :=
  match o with Some a => mret a | None => undefined end.

(** [p->...] and [*p = ...] through one of the heaps of the state. *)
Definition load {K V} `{Countable K} (heap : kernel → gmap K V) (p : K) : M V :=
  λ k, match heap k !! p with Some v => Ret v k | None => Undefined end.
Definition modify {K V} `{Countable K} (heap : kernel → gmap K V) `{!Upd heap}
    (p : K) (f : V → V) : M unit :=
  λ k, match heap k !! p with
       | Some v => Ret tt (k <| heap ::= <[p := f v]> |>)
       | None => Undefined
       end.

(** Chaining of [liba9n::result]: [and_then], [or_else], [transform_error]. *)
Definition and_then {A B E} (m : M (result A E)) (f : A → M (result B E)) : M (result B E) :=
  r ← m; match r with Ok a => f a | Err e => mret (Err e) end.
Definition or_else {A E F} (m : M (result A E)) (f : E → M (result A F)) : M (result A F) :=
  r ← m; match r with Ok a => mret (Ok a) | Err e => f e end.
Definition map_error {A E F} (f : E → F) (m : M (result A E)) : M (result A F) :=
  r ← m; mret (transform_error f r).

Notation "'let?' x := m 'in' n" := (and_then m (λ x, n))
  (at level 10, x pattern, m at level 200, n at level 200) : a9n_scope.

(** [return {}] and [return error]. *)
Definition ok {E} : M (result unit E) := mret (Ok tt).
Definition fail {A E} (e : E) : M (result A E) := mret (Err e).

(** ** Reasoning about runs *)

(** [wp m Q k]: started in [k], [m] ends, without undefined behaviour, in a
    value and a state that satisfy [Q]. *)
Definition wp {A} (m : M A) (Q : A → kernel → Prop) (k : kernel) : Prop :=
  match m k with Ret a k' => Q a k' | _ => False end.

Lemma wp_ret {A} (a : A) Q k : Q a k → wp (mret a) Q k.
Proof. done. Qed.

Lemma wp_bind {A B} (m : M A) (f : A → M B) Q k :
  wp m (λ a k', wp (f a) Q k') k → wp (mbind f m) Q k.
Proof. unfold wp, mbind, M_bind. destruct (m k); done. Qed.

Lemma wp_mono {A} (m : M A) (Q Q' : A → kernel → Prop) k :
  (∀ a k', Q a k' → Q' a k') → wp m Q k → wp m Q' k.
Proof. unfold wp. destruct (m k); naive_solver. Qed.

Lemma wp_reads {A} (f : kernel → A) Q k : Q (f k) k → wp (reads f) Q k.
Proof. done. Qed.

Lemma wp_updates f Q k : Q tt (f k) → wp (updates f) Q k.
Proof. done. Qed.

Lemma wp_defined {A} (o : option A) a Q k : o = Some a → Q a k → wp (defined o) Q k.
Proof. by intros ->. Qed.

Lemma wp_load `{Countable K} {V} (heap : kernel → gmap K V) p v Q k :
  heap k !! p = Some v → Q v k → wp (load heap p) Q k.
Proof. unfold wp, load. by intros ->. Qed.

Lemma wp_modify `{Countable K} {V} (heap : kernel → gmap K V) `{!Upd heap} p f v Q k :
  heap k !! p = Some v → Q tt (k <| heap ::= <[p := f v]> |>) → wp (modify heap p f) Q k.
Proof. unfold wp, modify. by intros ->. Qed.

Lemma wp_and_then {A B E} (m : M (result A E)) (f : A → M (result B E)) Q k :
  wp m (λ r k', match r with Ok a => wp (f a) Q k' | Err e => Q (Err e) k' end) k →
  wp (and_then m f) Q k.
Proof.
  intros H. apply wp_bind. eapply wp_mono; [|exact H]. by intros [] k'.
Qed.

Lemma wp_or_else {A E F} (m : M (result A E)) (f : E → M (result A F)) Q k :
  wp m (λ r k', match r with Ok a => Q (Ok a) k' | Err e => wp (f e) Q k' end) k →
  wp (or_else m f) Q k.
Proof.
  intros H. apply wp_bind. eapply wp_mono; [|exact H]. by intros [] k'.
Qed.

Lemma wp_map_error {A E F} (g : E → F) (m : M (result A E)) Q k :
  wp m (λ r k', Q (transform_error g r) k') k → wp (map_error g m) Q k.
Proof. intros H. apply wp_bind. eapply wp_mono; [|exact H]. done. Qed.

(** A run satisfies [wp] exactly when it ends as described. *)
Lemma wp_run {A} (m : M A) Q k : wp m Q k ↔ ∃ a k', m k = Ret a k' ∧ Q a k'.
Proof. unfold wp. destruct (m k); naive_solver. Qed.

(** [wlp m Q k]: if [m] ends in a value and a state, they satisfy [Q].  This is
    the form of what no run may do, whatever the state it starts in. *)
Definition wlp {A} (m : M A) (Q : A → kernel → Prop) (k : kernel) : Prop :=
  match m k with Ret a k' => Q a k' | _ => True end.

Lemma wp_wlp {A} (m : M A) Q k : wp m Q k → wlp m Q k.
Proof. unfold wp, wlp. by destruct (m k). Qed.

Lemma wlp_run {A} (m : M A) Q k : wlp m Q k ↔ ∀ a k', m k = Ret a k' → Q a k'.
Proof. unfold wlp. destruct (m k); naive_solver. Qed.

Lemma wlp_ret {A} (a : A) Q k : Q a k → wlp (mret a) Q k.
Proof. done. Qed.

Lemma wlp_bind {A B} (m : M A) (f : A → M B) Q k :
  wlp m (λ a k', wlp (f a) Q k') k → wlp (mbind f m) Q k.
Proof. unfold wlp, mbind, M_bind. destruct (m k); done. Qed.

Lemma wlp_mono {A} (m : M A) (Q Q' : A → kernel → Prop) k :
  (∀ a k', Q a k' → Q' a k') → wlp m Q k → wlp m Q' k.
Proof. unfold wlp. destruct (m k); auto. Qed.

Lemma wlp_reads {A} (f : kernel → A) Q k : Q (f k) k → wlp (reads f) Q k.
Proof. done. Qed.

Lemma wlp_updates f Q k : Q tt (f k) → wlp (updates f) Q k.
Proof. done. Qed.

Lemma wlp_defined {A} (o : option A) Q k :
  (∀ a, o = Some a → Q a k) → wlp (defined o) Q k.
Proof. unfold wlp, defined. destruct o as [a|]; [|done]. intros HQ. by apply (HQ a). Qed.

Lemma wlp_load `{Countable K} {V} (heap : kernel → gmap K V) p Q k :
  (∀ v, heap k !! p = Some v → Q v k) → wlp (load heap p) Q k.
Proof. unfold wlp, load. destruct (heap k !! p); auto. Qed.

Lemma wlp_modify `{Countable K} {V} (heap : kernel → gmap K V) `{!Upd heap} p f Q k :
  (∀ v, heap k !! p = Some v → Q tt (k <| heap ::= <[p := f v]> |>)) →
  wlp (modify heap p f) Q k.
Proof. unfold wlp, modify. destruct (heap k !! p); auto. Qed.

Lemma wlp_and_then {A B E} (m : M (result A E)) (f : A → M (result B E)) Q k :
  wlp m (λ r k', match r with Ok a => wlp (f a) Q k' | Err e => Q (Err e) k' end) k →
  wlp (and_then m f) Q k.
Proof.
  intros H. apply wlp_bind. eapply wlp_mono; [|exact H]. by intros [] k'.
Qed.

Lemma wlp_map_error {A E F} (g : E → F) (m : M (result A E)) Q k :
  wlp m (λ r k', Q (transform_error g r) k') k → wlp (map_error g m) Q k.
Proof. intros H. apply wlp_bind. eapply wlp_mono; [|exact H]. done. Qed.

Lemma wlp_undefined {A} Q k : wlp (@undefined A) Q k.
Proof. done. Qed.

Lemma wlp_out_of_fuel {A} Q k : wlp (@out_of_fuel A) Q k.
Proof. done. Qed.

(** A run that answers [a] and changes nothing. *)
Definition answers {A} (m : M A) (k : kernel) (a : A) : Prop := m k = Ret a k.

Lemma wp_answers {A} (m : M A) k a Q : answers m k a → Q a k → wp m Q k.
Proof. unfold wp. by intros ->. Qed.

Lemma answers_wp {A} (m : M A) k a : wp m (λ r k', r = a ∧ k' = k) k → answers m k a.
Proof. unfold wp, answers. destruct (m k); [|done..]. by intros [-> ->]. Qed.

Lemma answers_inj {A} (m : M A) k a b : answers m k a → answers m k b → a = b.
Proof. unfold answers. by intros ->; injection 1. Qed.

(** ** Relations every run keeps

    [keeps R m]: the state [m] ends in is related to the one it starts in.  For a
    preorder this is checked step by step. *)

Definition keeps {A} (R : kernel → kernel → Prop) (m : M A) : Prop :=
  ∀ k, wlp m (λ _ k', R k k') k.

Section keeps.
Context (R : kernel → kernel → Prop) `{HR : !PreOrder R}.

Lemma keeps_ret {A} (a : A) : keeps R (mret a).
Proof. intros k. by apply wlp_ret. Qed.

Lemma keeps_bind {A B} (m : M A) (f : A → M B) :
  keeps R m → (∀ a, keeps R (f a)) → keeps R (mbind f m).
Proof.
  intros Hm Hf k. apply wlp_bind. eapply wlp_mono; [|apply Hm]. intros a k' Hk.
  eapply wlp_mono; [|apply Hf]. intros b k'' Hk'. by transitivity k'.
Qed.

Lemma keeps_load `{Countable K} {V} (heap : kernel → gmap K V) p : keeps R (load heap p).
Proof. intros k. by apply wlp_load. Qed.

Lemma keeps_reads {A} (f : kernel → A) : keeps R (reads f).
Proof. intros k. by apply wlp_reads. Qed.

Lemma keeps_defined {A} (o : option A) : keeps R (defined o).
Proof. intros k. by apply wlp_defined. Qed.

Lemma keeps_undefined {A} : keeps R (@undefined A).
Proof. intros k. apply wlp_undefined. Qed.

Lemma keeps_out_of_fuel {A} : keeps R (@out_of_fuel A).
Proof. intros k. apply wlp_out_of_fuel. Qed.

Lemma keeps_and_then {A B E} (m : M (result A E)) (f : A → M (result B E)) :
  keeps R m → (∀ a, keeps R (f a)) → keeps R (and_then m f).
Proof. intros Hm Hf. apply keeps_bind; [done|]. intros [a|e]; [apply Hf|apply keeps_ret]. Qed.

Lemma keeps_or_else {A E F} (m : M (result A E)) (f : E → M (result A F)) :
  keeps R m → (∀ e, keeps R (f e)) → keeps R (or_else m f).
Proof. intros Hm Hf. apply keeps_bind; [done|]. intros [a|e]; [apply keeps_ret|apply Hf]. Qed.

Lemma keeps_map_error {A E F} (g : E → F) (m : M (result A E)) :
  keeps R m → keeps R (map_error g m).
Proof. intros Hm. apply keeps_bind; [done|]. intros. apply keeps_ret. Qed.

(** A step whose continuation depends on what a load found. *)
Lemma keeps_load_bind `{Countable K} {V B} (heap : kernel → gmap K V) p (f : V → M B) :
  (∀ v k, heap k !! p = Some v → wlp (f v) (λ _ k', R k k') k) → keeps R (load heap p ≫= f).
Proof. intros Hf k. apply wlp_bind, wlp_load. auto. Qed.
End keeps.

Global Opaque wp wlp.

(** Read fields through record updates, and nothing else. *)
Ltac ksimpl :=
  cbn [data_0 data_1 data_2 component type rights reclaiming data next_slot
       preview_slot depth ignore_bits radix_bits capability_slots registers
       floating_registers status priority quantum core_affinity preview next
       is_in_ready_queue fault_reason fault_code arch_fault_code
       fault_address buffer next_ipc_queue preview_ipc_queue
       next_notification_queue preview_notification_queue current_ipc_port
       current_notification_port identifier_when_blocked source_reply_state
       destination_reply_state source_reply_target destination_reply_target
       messages transfer_source_descriptors transfer_destination_node
       transfer_destination_index ipc_queue_head ipc_queue_tail ipc_state
       current_state flag core np_queue_head np_queue_tail binded_process
       np_state queue_head queue_tail queue highest_priority idle_process
       scheduler_core current_process core_number process_manager_core
       is_idle pending_reschedule_target irq_number irq_used stop_target
       stop_request_state cr3 fs_base user_gs_base fs_gs_base_enabled gs_base
       floating_unit slots nodes processes ipc_ports notification_ports
       ipc_buffers cpu_local_variables active_node_reclamations
       irq_notification_handlers stop_requests current_core hal_cores
       memory_words x_save_mask events upd] in *.
Ltac ksimpl_goal :=
  cbn [data_0 data_1 data_2 component type rights reclaiming data next_slot
       preview_slot depth ignore_bits radix_bits capability_slots registers
       floating_registers status priority quantum core_affinity preview next
       is_in_ready_queue fault_reason fault_code arch_fault_code
       fault_address buffer next_ipc_queue preview_ipc_queue
       next_notification_queue preview_notification_queue current_ipc_port
       current_notification_port identifier_when_blocked source_reply_state
       destination_reply_state source_reply_target destination_reply_target
       messages transfer_source_descriptors transfer_destination_node
       transfer_destination_index ipc_queue_head ipc_queue_tail ipc_state
       current_state flag core np_queue_head np_queue_tail binded_process
       np_state queue_head queue_tail queue highest_priority idle_process
       scheduler_core current_process core_number process_manager_core
       is_idle pending_reschedule_target irq_number irq_used stop_target
       stop_request_state cr3 fs_base user_gs_base fs_gs_base_enabled gs_base
       floating_unit slots nodes processes ipc_ports notification_ports
       ipc_buffers cpu_local_variables active_node_reclamations
       irq_notification_handlers stop_requests current_core hal_cores
       memory_words x_save_mask events upd].

(** Look an address up through the updates of the state so far. *)
Ltac lookup_solve :=
  ksimpl_goal;
  repeat first [ rewrite lookup_insert_eq
               | rewrite lookup_insert_ne by (first [assumption | congruence]) ];
  first [ reflexivity | eassumption ].

(** The same, in the hypotheses. *)
Ltac lookup_simpl :=
  ksimpl; repeat first [ rewrite lookup_insert_eq in * | rewrite lookup_insert_ne in * by congruence ].

(** One structural step of a run: through a bind or to its end. *)
Ltac wp_head :=
  lazymatch goal with
  | |- wp (mbind _ _) _ _ => apply wp_bind
  | |- wp (and_then _ _) _ _ => apply wp_and_then
  | |- wp (map_error _ _) _ _ => apply wp_map_error
  | |- wp (or_else _ _) _ _ => apply wp_or_else
  | |- wp (mret _) _ _ => apply wp_ret
  | |- wp ok _ _ => apply wp_ret
  | |- wp (fail _) _ _ => apply wp_ret
  | |- wp (reads _) _ _ => apply wp_reads
  | |- wp (updates _) _ _ => apply wp_updates
  end; cbn beta iota.

(** The same for [wlp], loads and stores included. *)
Ltac wlp_step :=
  lazymatch goal with
  | |- wlp (mbind _ _) _ _ => apply wlp_bind
  | |- wlp (and_then _ _) _ _ => apply wlp_and_then
  | |- wlp (map_error _ _) _ _ => apply wlp_map_error
  | |- wlp (mret _) _ _ => apply wlp_ret
  | |- wlp ok _ _ => apply wlp_ret
  | |- wlp (fail _) _ _ => apply wlp_ret
  | |- wlp (reads _) _ _ => apply wlp_reads
  | |- wlp (updates _) _ _ => apply wlp_updates
  | |- wlp (defined _) _ _ => apply wlp_defined; intros ? ?
  | |- wlp (load _ _) _ _ => apply wlp_load; intros ? ?
  | |- wlp (modify _ _ _) _ _ => apply wlp_modify; intros ? ?
  | |- wlp undefined _ _ => apply wlp_undefined
  | |- wlp out_of_fuel _ _ => apply wlp_out_of_fuel
  end; cbn beta iota.
Ltac wlp_steps := repeat wlp_step.

(** One step of a run: structural, or by the rule of a primitive. *)
Ltac wp_step :=
  first
    [ wp_head
    | eapply wp_defined; [lookup_solve|]
    | eapply wp_load; [lookup_solve|]
    | eapply wp_modify; [lookup_solve|] ]; cbn beta iota.

Ltac wp_steps := repeat wp_step.

(** A heap that was updated object by object keeps their cores. *)
Ltac frame_solve :=
  repeat first
    [ eapply link_frame_refl
    | eapply link_frame_trans; [|eapply link_frame_insert; [lookup_solve|reflexivity|]] ].

(** Discharge [keeps R m] for a preorder [R]: structurally, and by the lemmas of
    the hint database [keeps] for the functions [m] calls. *)
Create HintDb keeps discriminated.
Ltac keeps_by lem := apply lem; [typeclasses eauto|..].
Ltac keeps_step :=
  lazymatch goal with
  | |- keeps _ (mret _) => keeps_by @keeps_ret
  | |- keeps _ ok => keeps_by @keeps_ret
  | |- keeps _ (fail _) => keeps_by @keeps_ret
  | |- keeps _ (mbind _ _) => keeps_by @keeps_bind; [|intros ?]
  | |- keeps _ (and_then _ _) => keeps_by @keeps_and_then; [|intros ?]
  | |- keeps _ (or_else _ _) => keeps_by @keeps_or_else; [|intros ?]
  | |- keeps _ (map_error _ _) => keeps_by @keeps_map_error
  | |- keeps _ (load _ _) => keeps_by @keeps_load
  | |- keeps _ (reads _) => keeps_by @keeps_reads
  | |- keeps _ (defined _) => keeps_by @keeps_defined
  | |- keeps _ undefined => apply keeps_undefined
  | |- keeps _ out_of_fuel => apply keeps_out_of_fuel
  | |- keeps _ (match _ with _ => _ end) => case_match
  | |- keeps _ _ => solve [eauto with keeps nocore]
  end.
Ltac keeps_steps := repeat keeps_step.
