(* ===== verification/Scheduler.v ===== *)
(** The ready queues of one core: src/src/kernel/process/scheduler.cpp and
    src/src/kernel/include/kernel/process/scheduler.hpp.

    A [scheduler] is 32 doubly linked FIFO queues, one per priority, threaded
    through the [preview]/[next] pointers of the processes, and a cached upper
    bound of the priorities that are ready.  The operations are the member
    functions, with the scheduler named by the core [c] whose process manager
    holds it.  The abstract specification ([ready_queues]) is one list per
    priority; [sched_inv] relates the two. *)

From S2P Require Import Prelude Word Types Kernel Dll.

(** ** Access to [this] *)

Definition this_scheduler (c : Z) : M scheduler :=
  cpu ← load cpu_local_variables c; mret (scheduler_core (process_manager_core cpu)).
Definition modify_scheduler (c : Z) (f : scheduler → scheduler) : M unit :=
  modify cpu_local_variables c
    (λ cpu, cpu <| process_manager_core ::= λ pm, pm <| scheduler_core ::= f |> |>).

(** [queue[i]]: the array has [PRIORITY_MAX] elements. *)
Definition read_queue (c i : Z) : M process_queue :=
  s ← this_scheduler c; defined (queue s !! i).
Definition modify_queue (c i : Z) (f : process_queue → process_queue) : M unit :=
  q ← read_queue c i; modify_scheduler c (λ s, s <| queue ::= <[i := f q]> |>).

(** ** [scheduler::schedule] *)

(** The body of the loop once [queue[i].head] is [next_process]. *)
Definition schedule_take (c i next_process : Z) : M (result Z scheduler_error) :=
  np ← load processes next_process;
  modify_queue c i (λ q, q <| queue_head := next np |>);;
  match next np with
  | Some head => modify processes head (λ p, p <| preview := None |>)
  | None => modify_queue c i (λ q, q <| queue_tail := None |>)
  end;;
  np ← load processes next_process;
  modify_scheduler c (λ s, s <| highest_priority := priority np |>);;
  modify processes next_process
    (λ p, p <| next := None |> <| preview := None |> <| is_in_ready_queue := false |>);;
  mret (Ok next_process).

(** [for (i = highest_priority; i >= 0; i--)], with [i + 1] turns left. *)
Fixpoint schedule_loop (c : Z) (turns : nat) : M (result Z scheduler_error) :=
  match turns with
  | O => fail SE_PROCESS_NOT_IN_QUEUE
  | S turns' =>
      q ← read_queue c (Z.of_nat turns');
      match queue_head q with
      | None => schedule_loop c turns'
      | Some next_process => schedule_take c (Z.of_nat turns') next_process
      end
  end.

Definition schedule (c : Z) : M (result Z scheduler_error) :=
  s ← this_scheduler c; schedule_loop c (Z.to_nat (highest_priority s + 1)).

(** ** [scheduler::add_process] *)

Definition add_process (c : Z) (target : option Z) : M scheduler_result :=
  match target with
  | None => fail SE_INVALID_PROCESS
  | Some t =>
      tp ← load processes t;
      if decide (status tp ≠ PS_READY) then fail SE_INVALID_PROCESS
      else
        let target_priority := priority tp in
        if (target_priority <? 0) || (PRIORITY_MAX <=? target_priority)
        then fail SE_INVALID_PRIORITY
        else if is_in_ready_queue tp || bool_decide (is_Some (next tp))
                || bool_decide (is_Some (preview tp))
        then fail SE_PROCESS_ALREADY_EXISTS_IN_QUEUE
        else
          s ← this_scheduler c;
          (if highest_priority s <? target_priority
           then modify_scheduler c (λ s, s <| highest_priority := target_priority |>)
           else mret tt);;
          q ← read_queue c target_priority;
          match queue_head q, queue_tail q with
          | Some _, Some tail =>
              modify processes tail (λ p, p <| next := Some t |>);;
              modify processes t (λ p, p <| preview := Some tail |>);;
              modify_queue c target_priority (λ q, q <| queue_tail := Some t |>);;
              modify processes t (λ p, p <| next := None |> <| is_in_ready_queue := true |>);;
              ok
          | _, _ =>
              modify_queue c target_priority
                (λ q, q <| queue_head := Some t |> <| queue_tail := Some t |>);;
              modify processes t (λ p, p <| is_in_ready_queue := true |>);;
              ok
          end
  end.

(** ** [scheduler::remove_process] *)

(** [while (floor < highest_priority && !queue[highest_priority].head)
    highest_priority--], the loop of [remove_process] (floor 0) and of
    [try_direct_schedule] (floor [target_priority]). *)
Fixpoint lower_highest_priority (c floor : Z) (fuel : nat) : M unit :=
  s ← this_scheduler c;
  if floor <? highest_priority s then
    q ← read_queue c (highest_priority s);
    match queue_head q with
    | Some _ => mret tt
    | None =>
        match fuel with
        | O => out_of_fuel
        | S fuel' =>
            modify_scheduler c (λ s, s <| highest_priority ::= Z.pred |>);;
            lower_highest_priority c floor fuel'
        end
    end
  else mret tt.

(** Unlinking [current] between [previous] and its successor. *)
Definition remove_unlink (c prio : Z) (previous : option Z) (current : Z) : M unit :=
  cp ← load processes current;
  let nxt := next cp in
  match previous with
  | Some prev => modify processes prev (λ p, p <| next := nxt |>)
  | None => modify_queue c prio (λ q, q <| queue_head := nxt |>)
  end;;
  match nxt with
  | Some n => modify processes n (λ p, p <| preview := previous |>)
  | None => modify_queue c prio (λ q, q <| queue_tail := previous |>)
  end;;
  modify processes current
    (λ p, p <| next := None |> <| preview := None |> <| is_in_ready_queue := false |>);;
  s ← this_scheduler c;
  lower_highest_priority c 0 (Z.to_nat (highest_priority s)).

(** [while (current)] along one queue; [true] when the target was removed. *)
Fixpoint remove_walk (fuel : nat) (c prio target : Z) (previous current : option Z) : M bool :=
  match current with
  | None => mret false
  | Some cur =>
      match fuel with
      | O => out_of_fuel
      | S fuel' =>
          if decide (cur = target) then remove_unlink c prio previous cur;; mret true
          else
            cp ← load processes cur;
            remove_walk fuel' c prio target (Some cur) (next cp)
      end
  end.

(** [for (priority = 0; priority < PRIORITY_MAX; priority++)]. *)
Fixpoint remove_scan (c target : Z) (prio : Z) (turns : nat) : M scheduler_result :=
  match turns with
  | O => fail SE_PROCESS_NOT_IN_QUEUE
  | S turns' =>
      q ← read_queue c prio;
      fuel ← reads (λ k, size (processes k));
      found ← remove_walk fuel c prio target None (queue_head q);
      if (found : bool) then ok else remove_scan c target (prio + 1) turns'
  end.

Definition remove_process (c : Z) (target : option Z) : M scheduler_result :=
  match target with
  | None => fail SE_INVALID_PROCESS
  | Some t => remove_scan c t 0 (Z.to_nat PRIORITY_MAX)
  end.

(** ** [scheduler::try_direct_schedule] *)

Definition try_direct_schedule (c : Z) (target : option Z) : M (result Z scheduler_error) :=
  match target with
  | None => fail SE_INVALID_PROCESS
  | Some t =>
      tp ← load processes t;
      let target_priority := priority tp in
      if (target_priority <? 0) || (PRIORITY_MAX <=? target_priority)
      then fail SE_INVALID_PRIORITY
      else
        s ← this_scheduler c;
        (if target_priority <? highest_priority s
         then lower_highest_priority c target_priority
                (Z.to_nat (highest_priority s - target_priority))
         else mret tt);;
        s ← this_scheduler c;
        if target_priority <? highest_priority s then
          if decide (status tp ≠ PS_READY) then fail SE_INVALID_PROCESS
          else let? _ := add_process c target in schedule c
        else if is_in_ready_queue tp then fail SE_PROCESS_ALREADY_EXISTS_IN_QUEUE
        else mret (Ok t)
  end.

(** ** Abstract specification: one FIFO list per priority *)

Definition ready_queues : Type := Z → list Z.

Definition update_queue (i : Z) (l : list Z) (qs : ready_queues) : ready_queues :=
  λ j, if decide (j = i) then l else qs j.

(** The first process of the highest non-empty queue below [bound]. *)
Fixpoint highest_ready (qs : ready_queues) (bound : nat) : option (Z * Z * list Z) :=
  match bound with
  | O => None
  | S bound' =>
      match qs (Z.of_nat bound') with
      | [] => highest_ready qs bound'
      | p :: l => Some (Z.of_nat bound', p, l)
      end
  end.

Definition abs_schedule (qs : ready_queues) : option (Z * Z * list Z) :=
  highest_ready qs (Z.to_nat PRIORITY_MAX).

(** ** Invariant *)

Abbreviation ready_links k := (heap_links preview next (processes k)).

(** What a process in queue [i] looks like. *)
Definition queued (i : Z) (v : process) : Prop :=
  priority v = i ∧ is_in_ready_queue v = true ∧ status v = PS_READY.

Record sched_repr (s : scheduler) (ps : gmap Z process) (qs : ready_queues) : Prop := {
  repr_queue i : 0 ≤ i < PRIORITY_MAX →
    queue s !! i = Some (MkQueue (head (qs i)) (last (qs i)));
  repr_dlist i : dlist (heap_links preview next ps) (qs i);
  repr_members i p : p ∈ qs i → ∃ v, ps !! p = Some v ∧ queued i v;
  repr_range i : qs i ≠ [] → 0 ≤ i < PRIORITY_MAX;
  repr_highest i : qs i ≠ [] → i ≤ highest_priority s;
  repr_highest_range : 0 ≤ highest_priority s < PRIORITY_MAX;
}.

Definition sched_inv (c : Z) (k : kernel) (qs : ready_queues) : Prop :=
  ∃ cpu, cpu_local_variables k !! c = Some cpu ∧
         sched_repr (scheduler_core (process_manager_core cpu)) (processes k) qs.

(** ** The state a scheduler operation works on *)

(** [k] with the scheduler of core [c] and the heap of processes replaced: every
    state a scheduler operation reaches from [k] has this form. *)
Definition with_sched (c : Z) (s : scheduler) (ps : gmap Z process) (k : kernel) : kernel :=
  k <| processes := ps |>
    <| cpu_local_variables ::=
         alter (λ cpu, cpu <| process_manager_core ::= λ pm, pm <| scheduler_core := s |> |>) c |>.

(** A process without what the ready queues thread through it. *)
Definition ready_core (v : process) : process :=
  v <| preview := None |> <| next := None |> <| is_in_ready_queue := false |>.

(** Only the ready-queue fields of the processes in [T] differ. *)
Abbreviation ready_frame := (link_frame ready_core).

(** The process at [p] is in no queue and its links are clear. *)
Definition dequeued (p : Z) (ps : gmap Z process) : Prop :=
  ∃ v, ps !! p = Some v ∧ is_in_ready_queue v = false ∧ next v = None ∧ preview v = None.

(** The processes of a core's queues. *)
Definition in_queues (qs : ready_queues) (p : Z) : Prop := ∃ i, p ∈ qs i.

(** The state after an operation that leaves the queues [qs'], having touched
    the processes of [T] only. *)
Definition sched_after (c : Z) (k : kernel) (ps : gmap Z process) (qs' : ready_queues)
    (T : Z → Prop) (P : gmap Z process → Prop) (k' : kernel) : Prop :=
  ∃ s' ps', k' = with_sched c s' ps' k ∧ sched_repr s' ps' qs' ∧ ready_frame T ps ps' ∧ P ps'.

Lemma with_sched_id c k cpu :
  cpu_local_variables k !! c = Some cpu →
  k = with_sched c (scheduler_core (process_manager_core cpu)) (processes k) k.
Proof.
  intros Hc. destruct k; cbn in Hc. cbv [with_sched upd]; ksimpl_goal. f_equal.
  symmetry. apply alter_id. intros cpu' Hc'. simplify_eq.
  by destruct cpu as [? ? [] ? ?].
Qed.

Lemma with_sched_cpu c s ps k cpu :
  cpu_local_variables k !! c = Some cpu →
  cpu_local_variables (with_sched c s ps k) !! c
  = Some (cpu <| process_manager_core ::= λ pm, pm <| scheduler_core := s |> |>).
Proof. intros Hc. cbn. by rewrite lookup_alter_eq, Hc. Qed.

Section wp_sched.
Context (c : Z) (k : kernel) (Hc : is_Some (cpu_local_variables k !! c)).
Implicit Types (s : scheduler) (ps : gmap Z process).

Lemma wp_this_scheduler s ps Q :
  Q s (with_sched c s ps k) → wp (this_scheduler c) Q (with_sched c s ps k).
Proof.
  destruct Hc as [cpu Hcpu]. intros HQ. unfold this_scheduler. apply wp_bind.
  eapply wp_load; [by apply with_sched_cpu|]. by apply wp_ret.
Qed.

Lemma wp_modify_scheduler s ps f Q :
  Q tt (with_sched c (f s) ps k) → wp (modify_scheduler c f) Q (with_sched c s ps k).
Proof.
  destruct Hc as [cpu Hcpu]. intros HQ.
  eapply wp_modify; [by apply with_sched_cpu|].
  eapply (eq_rect _ (Q tt)); [exact HQ|]. destruct k; cbn in Hcpu. cbv [with_sched upd]; ksimpl_goal. f_equal.
  apply map_eq. intros c'. destruct (decide (c = c')) as [<-|Hne].
  - rewrite lookup_insert_eq, lookup_alter_eq. by rewrite Hcpu.
  - by rewrite lookup_insert_ne, !lookup_alter_ne.
Qed.

Lemma wp_read_queue s ps i q Q :
  queue s !! i = Some q → Q q (with_sched c s ps k) →
  wp (read_queue c i) Q (with_sched c s ps k).
Proof.
  intros Hq HQ. apply wp_bind, wp_this_scheduler. by eapply wp_defined.
Qed.

Lemma wp_modify_queue s ps i q f Q :
  queue s !! i = Some q → Q tt (with_sched c (s <| queue ::= <[i := f q]> |>) ps k) →
  wp (modify_queue c i f) Q (with_sched c s ps k).
Proof.
  intros Hq HQ. apply wp_bind. eapply wp_read_queue; [done|].
  by apply wp_modify_scheduler.
Qed.

Lemma wp_sched_load s ps p v Q :
  ps !! p = Some v → Q v (with_sched c s ps k) → wp (load processes p) Q (with_sched c s ps k).
Proof. intros Hp HQ. by eapply wp_load. Qed.

Lemma wp_sched_modify s ps p v f Q :
  ps !! p = Some v → Q tt (with_sched c s (<[p := f v]> ps) k) →
  wp (modify processes p f) Q (with_sched c s ps k).
Proof. intros Hp HQ. by eapply wp_modify. Qed.

End wp_sched.

Ltac sched_step :=
  first
    [ apply wp_this_scheduler; [by eauto|]
    | apply wp_modify_scheduler; [by eauto|]
    | eapply wp_read_queue; [by eauto|lookup_solve|]
    | eapply wp_modify_queue; [by eauto|lookup_solve|]
    | eapply wp_sched_load; [lookup_solve|]
    | eapply wp_sched_modify; [lookup_solve|]
    | wp_head ]; cbn beta iota.
Ltac sched_steps := repeat sched_step.
