(* ===== verification/SchedulerProofs.v ===== *)
(** Correctness of the ready queues (Scheduler.v): each operation of
    src/src/kernel/process/scheduler.cpp, started in a state whose pointers
    represent one FIFO list per priority, ends in a state that represents the
    lists the abstract operation yields, with the answer it specifies. *)

From S2P Require Import Prelude Word Types Kernel Dll Scheduler.

(** ** Lemmas on the invariant *)

Lemma update_queue_eq i l qs : update_queue i l qs i = l.
Proof. unfold update_queue. by rewrite decide_True. Qed.
Lemma update_queue_ne i j l qs : j ≠ i → update_queue i l qs j = qs j.
Proof. intros. unfold update_queue. by rewrite decide_False. Qed.

Lemma queued_unique s ps qs i j p : sched_repr s ps qs → p ∈ qs i → p ∈ qs j → i = j.
Proof.
  intros [_ _ Hm _ _ _] (v & Hv & <- & _)%Hm (w & Hw & <- & _)%Hm. congruence.
Qed.

Lemma queued_links s ps qs i l1 p l2 :
  sched_repr s ps qs → qs i = l1 ++ p :: l2 →
  ∃ v, ps !! p = Some v ∧ queued i v ∧ preview v = last l1 ∧ next v = head l2.
Proof.
  intros Hr Hq. destruct (repr_members _ _ _ Hr i p) as (v & Hv & Hqv).
  { rewrite Hq. set_solver. }
  exists v. split_and!; try done.
  all: pose proof (repr_dlist _ _ _ Hr i) as Hd; rewrite Hq in Hd;
    apply dlist_lookup in Hd; unfold heap_links in Hd; rewrite Hv in Hd;
    cbn in Hd; by simplify_eq.
Qed.

(** Re-establishing the representation after the list of one queue changed. *)
Lemma sched_repr_update s ps qs s' ps' i l :
  sched_repr s ps qs → 0 ≤ i < PRIORITY_MAX →
  queue s' = <[i := MkQueue (head l) (last l)]> (queue s) →
  dlist (heap_links preview next ps') l →
  (∀ p, p ∈ l → ∃ v, ps' !! p = Some v ∧ queued i v) →
  (∀ j p, j ≠ i → p ∈ qs j → ps' !! p = ps !! p) →
  (∀ j, update_queue i l qs j ≠ [] → j ≤ highest_priority s') →
  0 ≤ highest_priority s' < PRIORITY_MAX →
  sched_repr s' ps' (update_queue i l qs).
Proof.
  intros Hr Hi Hqueue Hl Hm Hother Hhigh Hrange. split; try done.
  - intros j Hj. rewrite Hqueue. destruct (decide (j = i)) as [->|Hne].
    + by rewrite lookup_insert_eq, update_queue_eq.
    + rewrite lookup_insert_ne, update_queue_ne by done. by apply (repr_queue _ _ _ Hr).
  - intros j. destruct (decide (j = i)) as [->|Hne]; [by rewrite update_queue_eq|].
    rewrite update_queue_ne by done. eapply dlist_ext; [|apply (repr_dlist _ _ _ Hr)].
    intros y Hy. unfold heap_links. by rewrite (Hother j) by done.
  - intros j p. destruct (decide (j = i)) as [->|Hne]; [rewrite update_queue_eq; auto|].
    rewrite update_queue_ne by done. intros Hp. rewrite (Hother j) by done.
    by apply (repr_members _ _ _ Hr).
  - intros j. destruct (decide (j = i)) as [->|Hne]; [done|].
    rewrite update_queue_ne by done. apply (repr_range _ _ _ Hr).
Qed.

(** The scheduler's cached bound may be lowered or raised as long as it bounds
    every non-empty queue. *)
Lemma sched_repr_highest s ps qs h :
  sched_repr s ps qs → 0 ≤ h < PRIORITY_MAX → (∀ i, qs i ≠ [] → i ≤ h) →
  sched_repr (s <| highest_priority := h |>) ps qs.
Proof. intros [] Hh Hb. by split. Qed.

Lemma highest_ready_skip qs n m :
  (m ≤ n)%nat → (∀ i, Z.of_nat m ≤ i < Z.of_nat n → qs i = []) →
  highest_ready qs n = highest_ready qs m.
Proof.
  intros Hle Hnil. induction n as [|n IH]; [by replace m with 0%nat by lia|].
  destruct (decide (m = S n)) as [->|]; [done|]. cbn.
  rewrite Hnil by lia. apply IH; [lia|]. intros. apply Hnil. lia.
Qed.

Lemma highest_ready_Some qs n i p l :
  highest_ready qs n = Some (i, p, l) →
  0 ≤ i < Z.of_nat n ∧ qs i = p :: l ∧ ∀ j, i < j < Z.of_nat n → qs j = [].
Proof.
  induction n as [|n IH]; cbn; [done|].
  destruct (qs (Z.of_nat n)) as [|q l'] eqn:Hq.
  - intros (Hi & Hqs & Hj)%IH. split_and!; try lia || done.
    intros j Hj'. destruct (decide (j = Z.of_nat n)) as [->|]; [done|]. apply Hj. lia.
  - intros [= <- <- <-]. split_and!; try lia || done.
Qed.

Lemma highest_ready_None qs n :
  highest_ready qs n = None → ∀ i, 0 ≤ i < Z.of_nat n → qs i = [].
Proof.
  induction n as [|n IH]; cbn; [lia|].
  destruct (qs (Z.of_nat n)) eqn:Hq; [|done].
  intros H i Hi. destruct (decide (i = Z.of_nat n)) as [->|]; [done|]. apply IH; [done|lia].
Qed.

Lemma queued_other s ps qs i j p q :
  sched_repr s ps qs → p ∈ qs i → q ∈ qs j → j ≠ i → p ≠ q.
Proof. intros Hr Hp Hq Hne ->. eapply Hne, queued_unique; eauto. Qed.

(** Removing [p] from queue [i]: what the pointers written by an operation have
    to be for the queues to be [qs] without [p]. *)
Lemma sched_repr_remove s ps qs s' ps' i l1 p l2 :
  sched_repr s ps qs → qs i = l1 ++ p :: l2 →
  queue s' = <[i := MkQueue (head (l1 ++ l2)) (last (l1 ++ l2))]> (queue s) →
  ready_frame (λ q, q = p ∨ last l1 = Some q ∨ head l2 = Some q) ps ps' →
  (∀ y, y ∈ l1 ++ l2 → heap_links preview next ps' y
     = write_prev (head l2) (last l1) (write_next (last l1) (head l2)
         (heap_links preview next ps)) y) →
  (∀ y v, y ∈ l1 ++ l2 → ps' !! y = Some v → is_in_ready_queue v = true) →
  (∀ j, update_queue i (l1 ++ l2) qs j ≠ [] → j ≤ highest_priority s') →
  0 ≤ highest_priority s' < PRIORITY_MAX →
  sched_repr s' ps' (update_queue i (l1 ++ l2) qs).
Proof.
  intros Hr Hqs Hqueue Hf Hlinks Hin Hhigh Hrange.
  assert (Hsub : ∀ y, y ∈ l1 ++ l2 → y ∈ qs i) by (rewrite Hqs; set_solver).
  eapply sched_repr_update; try done.
  - apply (repr_range _ _ _ Hr). rewrite Hqs. by destruct l1.
  - eapply dlist_unlink; [|done]. rewrite <- Hqs. apply (repr_dlist _ _ _ Hr).
  - intros y Hy. destruct (repr_members _ _ _ Hr i y (Hsub y Hy)) as (v & Hv & Hp & Hi & Hs).
    destruct (link_frame_lookup _ _ _ _ _ Hf Hv) as (v' & Hv' & Hc).
    exists v'. split; [done|]. split_and!.
    + apply (f_equal priority) in Hc. exact (eq_trans Hc Hp).
    + by eapply Hin.
    + apply (f_equal status) in Hc. exact (eq_trans Hc Hs).
  - intros j q Hj Hq. apply (frame_other _ _ _ Hf).
    intros Hor. eapply (queued_other s ps qs i j q q); try done.
    rewrite Hqs. destruct Hor as [->|[[? Hl]%last_Some|[? Hl]%head_Some]];
      rewrite ?Hl; set_solver.
Qed.

Lemma queued_fresh s ps qs i l1 p l2 :
  sched_repr s ps qs → qs i = l1 ++ p :: l2 → p ∉ l1 ++ l2.
Proof.
  intros Hr Hqs. pose proof (repr_dlist _ _ _ Hr i) as Hd%dlist_NoDup.
  rewrite Hqs in Hd. apply NoDup_app_cons_notin in Hd. set_solver.
Qed.

Lemma queued_flag s ps qs i p v :
  sched_repr s ps qs → p ∈ qs i → ps !! p = Some v → is_in_ready_queue v = true.
Proof. intros Hr (w & Hw & _ & ? & _)%(repr_members _ _ _ Hr) Hv. congruence. Qed.

Lemma dequeued_insert p v ps :
  dequeued p (<[p := v <| next := None |> <| preview := None |> <| is_in_ready_queue := false |>]> ps).
Proof. eexists. by rewrite lookup_insert_eq. Qed.

Lemma schedule_take_spec c k s ps qs i p l :
  is_Some (cpu_local_variables k !! c) → sched_repr s ps qs →
  qs i = p :: l → (∀ j, i < j → qs j = []) →
  wp (schedule_take c i p)
     (λ r k', r = Ok p ∧
        sched_after c k ps (update_queue i l qs) (in_queues qs) (dequeued p) k')
     (with_sched c s ps k).
Proof.
  intros Hc Hr Hqs Hhigh.
  pose proof (repr_range _ _ _ Hr i ltac:(by rewrite Hqs)) as Hi.
  destruct (queued_links _ _ _ i [] p l Hr Hqs) as (v & Hv & (Hpr & _) & _ & Hnext).
  pose proof (repr_queue _ _ _ Hr i Hi) as Hq. rewrite Hqs in Hq.
  assert (Hhigh' : ∀ j, update_queue i l qs j ≠ [] → j ≤ i).
  { intros j Hj. destruct (decide (i < j)); [|lia].
    rewrite update_queue_ne, Hhigh in Hj by lia. done. }
  unfold schedule_take. sched_steps. rewrite Hnext.
  destruct l as [|h l]; cbn [head].
  - sched_steps. split; [done|]. do 2 eexists. split_and!; [done| | |apply dequeued_insert].
    + eapply (sched_repr_remove s ps qs _ _ i [] p []); try done; ksimpl_goal; try lia.
      * by rewrite insert_insert_eq.
      * frame_solve. by left.
      * set_solver.
      * set_solver.
      * intros. rewrite Hpr. auto.
    + frame_solve. exists i. rewrite Hqs. set_solver.
  - assert (Hne : p ∉ h :: l) by (eapply (queued_fresh s ps qs i []); eauto).
    destruct (queued_links _ _ _ i [p] h l Hr Hqs) as (w & Hw & (_ & Hin & _) & _ & Hnw).
    assert (p ≠ h) by set_solver.
    sched_steps. split; [done|]. do 2 eexists. split_and!; [done| | |apply dequeued_insert].
    + eapply (sched_repr_remove s ps qs _ _ i [] p (h :: l)); try done; ksimpl_goal; try lia.
      * frame_solve; auto.
      * intros y Hy. assert (y ≠ p) by (by intros ->). links_solve.
      * intros y v' Hy. assert (y ≠ p) by (by intros ->). intros Hv'.
        destruct (decide (y = h)) as [->|]; lookup_simpl; [by simplify_eq|].
        eapply queued_flag; eauto. rewrite Hqs. set_solver.
      * intros. rewrite Hpr. auto.
    + frame_solve; exists i; rewrite Hqs; set_solver.
Qed.

(** The loop that lowers the cached bound stops at the floor or at the first
    non-empty queue, and skips only empty ones. *)
Lemma lower_highest_priority_spec c k s ps qs floor fuel :
  is_Some (cpu_local_variables k !! c) → sched_repr s ps qs → 0 ≤ floor →
  highest_priority s - floor ≤ Z.of_nat fuel →
  wp (lower_highest_priority c floor fuel)
     (λ _ k', ∃ h, k' = with_sched c (s <| highest_priority := h |>) ps k ∧
        sched_repr (s <| highest_priority := h |>) ps qs ∧
        h ≤ highest_priority s ∧ (h ≤ floor ∨ qs h ≠ []) ∧
        (h = highest_priority s ∨ floor ≤ h))
     (with_sched c s ps k).
Proof.
  intros Hc Hr Hfl. revert s Hr.
  induction fuel as [|fuel IH]; intros s Hr Hfuel; cbn [lower_highest_priority];
    sched_steps.
  - rewrite (proj2 (Z.ltb_ge _ _)) by lia. sched_steps.
    exists (highest_priority s). destruct s; split_and!; try done; cbn in *; auto; lia.
  - destruct (floor <? highest_priority s) eqn:Hlt; bool_to_prop.
    + pose proof (repr_highest_range _ _ _ Hr).
      sched_step. eapply wp_read_queue; [done|apply (repr_queue _ _ _ Hr); lia|].
      ksimpl_goal. destruct (qs (highest_priority s)) as [|x l] eqn:Hq; cbn [head].
      * sched_steps. eapply wp_mono; [|apply IH].
        -- intros _ k' (h & -> & Hr' & Hh & Hor & Hf). exists h. ksimpl.
           split_and!; try done; try lia.
        -- apply sched_repr_highest; [done|lia|]. intros i Hi.
           pose proof (repr_highest _ _ _ Hr i Hi).
           destruct (decide (i = highest_priority s)); [congruence|lia].
        -- ksimpl_goal. lia.
      * sched_steps. exists (highest_priority s). rewrite Hq.
        destruct s; split_and!; try done; cbn in *; auto; lia.
    + sched_steps. exists (highest_priority s).
      destruct s; split_and!; try done; cbn in *; auto; lia.
Qed.

(** The end of [remove_unlink], after the neighbours of [p] were linked. *)
Lemma remove_finish_spec c k s ps qs i l1 p l2 s' ps' :
  is_Some (cpu_local_variables k !! c) → sched_repr s ps qs → qs i = l1 ++ p :: l2 →
  queue s' = <[i := MkQueue (head (l1 ++ l2)) (last (l1 ++ l2))]> (queue s) →
  highest_priority s' = highest_priority s →
  ready_frame (λ q, q = p ∨ last l1 = Some q ∨ head l2 = Some q) ps ps' →
  (∀ y, y ∈ l1 ++ l2 → heap_links preview next ps' y
     = write_prev (head l2) (last l1) (write_next (last l1) (head l2)
         (heap_links preview next ps)) y) →
  (∀ y v, y ∈ l1 ++ l2 → ps' !! y = Some v → is_in_ready_queue v = true) →
  dequeued p ps' →
  wp (lower_highest_priority c 0 (Z.to_nat (highest_priority s')))
     (λ _ k', sched_after c k ps (update_queue i (l1 ++ l2) qs) (in_queues qs) (dequeued p) k')
     (with_sched c s' ps' k).
Proof.
  intros Hc Hr Hqs Hqueue Hh Hf Hl Hin Hdq.
  pose proof (repr_highest_range _ _ _ Hr).
  assert (Hr1 : sched_repr s' ps' (update_queue i (l1 ++ l2) qs)).
  { eapply (sched_repr_remove s ps qs); try done; rewrite Hh; [|done].
    intros j Hj. apply (repr_highest _ _ _ Hr). unfold update_queue in Hj.
    case_decide; [subst; rewrite Hqs; by destruct l1|done]. }
  eapply wp_mono; [|eapply lower_highest_priority_spec; try done; lia].
  intros _ k' (h & -> & Hr' & _). do 2 eexists. split_and!; try done.
  eapply link_frame_mono; [|done]. intros q Hor. exists i. rewrite Hqs.
  destruct Hor as [->|[[? Hl']%last_Some|[? Hl']%head_Some]]; rewrite ?Hl'; set_solver.
Qed.

Lemma remove_unlink_spec c k s ps qs i l1 p l2 :
  is_Some (cpu_local_variables k !! c) → sched_repr s ps qs → qs i = l1 ++ p :: l2 →
  wp (remove_unlink c i (last l1) p)
     (λ _ k', sched_after c k ps (update_queue i (l1 ++ l2) qs) (in_queues qs) (dequeued p) k')
     (with_sched c s ps k).
Proof.
  intros Hc Hr Hqs.
  assert (Hi : 0 ≤ i < PRIORITY_MAX) by (apply (repr_range _ _ _ Hr); rewrite Hqs; by destruct l1).
  destruct (queued_links _ _ _ i l1 p l2 Hr Hqs) as (v & Hv & _ & _ & Hnext).
  pose proof (repr_queue _ _ _ Hr i Hi) as Hq. rewrite Hqs in Hq.
  pose proof (queued_fresh _ _ _ _ _ _ _ Hr Hqs) as Hfresh.
  assert (Hflag : ∀ y, y ∈ l1 ++ l2 → y ≠ p ∧ ∃ w, ps !! y = Some w ∧ is_in_ready_queue w = true).
  { intros y Hy. split; [by intros ->|].
    destruct (repr_members _ _ _ Hr i y) as (w & ? & _ & ? & _); [rewrite Hqs; set_solver|eauto]. }
  assert (Hpn : ∀ x, last l1 = Some x → head l2 = Some x → False).
  { intros x [l1' ->]%last_Some [l2' ->]%head_Some.
    pose proof (repr_dlist _ _ _ Hr i) as Hd%dlist_NoDup. rewrite Hqs in Hd.
    apply NoDup_app_cons_notin in Hd as (_ & _ & Hd). apply NoDup_app in Hd. set_solver. }
  unfold remove_unlink. sched_steps. rewrite Hnext.
  destruct (last l1) as [pv|] eqn:Hl1, (head l2) as [nx|] eqn:Hl2;
    [destruct (Hflag pv) as (? & pvv & Hpv & Hpvf);
       [apply last_Some in Hl1 as [? ->]; set_solver|]..| |];
    try (destruct (Hflag nx) as (? & nxv & Hnx & Hnxf);
           [apply head_Some in Hl2 as [? ->]; set_solver|]);
    try (assert (pv ≠ nx) by naive_solver);
    sched_steps;
    (eapply (remove_finish_spec c k s ps qs i l1 p l2); rewrite ?Hl1, ?Hl2; try done;
     [ | frame_solve; auto
       | intros y [? _]%Hflag; links_solve
       | intros y w Hy; destruct (Hflag y Hy) as (? & w' & Hw' & ?);
         rewrite ?lookup_insert; intros; repeat case_decide; by simplify_eq
       | apply dequeued_insert ]); ksimpl_goal.
  - rewrite (insert_id _ i); [done|]. rewrite Hq.
    pose proof (head_app_last_Some l1 l2 pv p Hl1) as [-> ->].
    by pose proof (last_app_head_Some l1 l2 nx p Hl2) as [-> ->].
  - pose proof (head_app_last_Some l1 l2 pv p Hl1) as [-> ->].
    by rewrite (last_app_head_None l1 l2), Hl1.
  - pose proof (last_app_head_Some l1 l2 nx p Hl2) as [-> ->].
    by rewrite (head_app_last_None l1 l2), Hl2.
  - rewrite insert_insert_eq. by rewrite (last_app_head_None l1 l2), (head_app_last_None l1 l2), Hl1, Hl2.
Qed.

(** Every operation starts from a state of the form [with_sched]. *)
Lemma sched_start {A} c k qs (m : M A) Q :
  sched_inv c k qs →
  (∀ s ps, is_Some (cpu_local_variables k !! c) → sched_repr s ps qs → processes k = ps →
           with_sched c s ps k = k → wp m Q (with_sched c s ps k)) →
  wp m Q k.
Proof.
  intros (cpu & Hc & Hr) H. rewrite (with_sched_id c k cpu) by done.
  apply H; eauto. symmetry. by apply with_sched_id.
Qed.

Lemma repr_above s ps qs j : sched_repr s ps qs → highest_priority s < j → qs j = [].
Proof.
  intros Hr Hj. destruct (qs j) eqn:Hq; [done|].
  pose proof (repr_highest _ _ _ Hr j ltac:(by rewrite Hq)). lia.
Qed.

Lemma schedule_loop_spec c k s ps qs turns :
  is_Some (cpu_local_variables k !! c) → sched_repr s ps qs →
  (Z.of_nat turns ≤ PRIORITY_MAX) → (∀ j, Z.of_nat turns ≤ j → qs j = []) →
  wp (schedule_loop c turns)
     (λ r k', match highest_ready qs turns with
              | Some (i, p, l) => r = Ok p ∧
                  sched_after c k ps (update_queue i l qs) (in_queues qs) (dequeued p) k'
              | None => r = Err SE_PROCESS_NOT_IN_QUEUE ∧ k' = with_sched c s ps k
              end)
     (with_sched c s ps k).
Proof.
  intros Hc Hr. induction turns as [|turns IH]; intros Hmax Hnil.
  { cbn [schedule_loop highest_ready]. by apply wp_ret. }
  cbn [schedule_loop highest_ready]. sched_step.
  eapply wp_read_queue; [done|apply (repr_queue _ _ _ Hr); lia|]. ksimpl_goal.
  destruct (qs (Z.of_nat turns)) as [|p l] eqn:Hq; cbn [head].
  - apply IH; [lia|]. intros j Hj. destruct (decide (j = Z.of_nat turns)) as [->|]; [done|].
    apply Hnil. lia.
  - eapply schedule_take_spec; try done. intros j Hj. apply Hnil. lia.
Qed.

(** [schedule] answers with the first process of the highest non-empty queue. *)
Lemma schedule_spec c k qs :
  sched_inv c k qs →
  wp (schedule c)
     (λ r k', match abs_schedule qs with
              | Some (i, p, l) => r = Ok p ∧
                  sched_after c k (processes k) (update_queue i l qs) (in_queues qs) (dequeued p) k'
              | None => r = Err SE_PROCESS_NOT_IN_QUEUE ∧ k' = k
              end) k.
Proof.
  intros Hinv. eapply sched_start; [done|]. intros s ps Hc Hr -> Hk.
  pose proof (repr_highest_range _ _ _ Hr). unfold schedule, abs_schedule. sched_steps.
  rewrite (highest_ready_skip qs (Z.to_nat PRIORITY_MAX) (Z.to_nat (highest_priority s + 1))).
  - eapply wp_mono; [|apply schedule_loop_spec; try done; [lia|]].
    + intros r k'. by rewrite Hk.
    + intros j Hj. apply (repr_above _ _ _ _ Hr). lia.
  - lia.
  - intros j Hj. apply (repr_above _ _ _ _ Hr). lia.
Qed.

(** The heap after a process was linked at the end of its queue. *)
Lemma sched_repr_add s ps qs s' ps' p v l :
  sched_repr s ps qs → 0 ≤ priority v < PRIORITY_MAX →
  ps !! p = Some v → status v = PS_READY → is_in_ready_queue v = false →
  qs (priority v) = l →
  queue s' = <[priority v := MkQueue (head (l ++ [p])) (Some p)]> (queue s) →
  highest_priority s' = highest_priority s `max` priority v →
  ready_frame (λ q, q = p ∨ last l = Some q) ps ps' →
  (∀ y, y ∈ l → heap_links preview next ps' y
     = write_next (last l) (Some p) (heap_links preview next ps) y) →
  heap_links preview next ps' p = Some (last l, None) →
  (∀ y w, y ∈ l ++ [p] → ps' !! y = Some w → is_in_ready_queue w = true) →
  sched_repr s' ps' (update_queue (priority v) (l ++ [p]) qs).
Proof.
  intros Hr Hpri Hp Hst Hflag <- Hqueue Hhigh Hf Hlinks Hlp Hin.
  pose proof (repr_highest_range _ _ _ Hr).
  assert (Hfresh : ∀ j, p ∉ qs j).
  { intros j Hj. eapply queued_flag in Hj; eauto. congruence. }
  eapply sched_repr_update; try done.
  - by rewrite last_snoc.
  - eapply dlist_push; try done; apply (repr_dlist _ _ _ Hr) || apply Hfresh.
  - intros y Hy.
    assert (∃ w, ps !! y = Some w ∧ priority w = priority v ∧ status w = PS_READY) as (w & Hw & Hpw & Hsw).
    { apply elem_of_app in Hy as [Hy|Hy%list_elem_of_singleton]; [|subst; eauto].
      destruct (repr_members _ _ _ Hr _ _ Hy) as (w & ? & ? & _ & ?). eauto. }
    destruct (link_frame_lookup _ _ _ _ _ Hf Hw) as (w' & Hw' & Hc).
    exists w'. split; [done|]. split_and!.
    + apply (f_equal priority) in Hc. exact (eq_trans Hc Hpw).
    + by eapply Hin.
    + apply (f_equal status) in Hc. exact (eq_trans Hc Hsw).
  - intros j q Hj Hq. apply (frame_other _ _ _ Hf). intros [->|[? Hl]%last_Some].
    + by eapply Hfresh.
    + eapply (queued_other s ps qs (priority v) j q q); try done. rewrite Hl. set_solver.
  - intros j Hj. rewrite Hhigh. destruct (decide (j = priority v)) as [->|]; [lia|].
    rewrite update_queue_ne in Hj by done. apply (repr_highest _ _ _ Hr) in Hj. lia.
  - lia.
Qed.

(** [p] is marked as queued; the links of a queued process are the queue's. *)
Definition enqueued (p : Z) (ps : gmap Z process) : Prop :=
  ∃ v, ps !! p = Some v ∧ is_in_ready_queue v = true.

(** What [add_process] answers for a process [v]. *)
Definition add_process_error (v : process) : option scheduler_error :=
  if decide (status v ≠ PS_READY) then Some SE_INVALID_PROCESS
  else if (priority v <? 0) || (PRIORITY_MAX <=? priority v) then Some SE_INVALID_PRIORITY
  else if is_in_ready_queue v || bool_decide (is_Some (next v)) || bool_decide (is_Some (preview v))
  then Some SE_PROCESS_ALREADY_EXISTS_IN_QUEUE
  else None.

(** [add_process] appends to the queue of the process's priority. *)
Lemma add_process_spec c k qs p v :
  sched_inv c k qs → processes k !! p = Some v →
  wp (add_process c (Some p))
     (λ r k', match add_process_error v with
              | Some e => r = Err e ∧ k' = k
              | None => r = Ok tt ∧
                  sched_after c k (processes k)
                    (update_queue (priority v) (qs (priority v) ++ [p]) qs)
                    (λ q, q = p ∨ in_queues qs q) (enqueued p) k'
              end) k.
Proof.
  intros Hinv Hp. eapply sched_start; [done|]. intros s ps Hc Hr <- Hk.
  unfold add_process, add_process_error. sched_steps.
  case_decide; [sched_steps; by rewrite Hk|].
  destruct ((priority v <? 0) || _) eqn:Hpri; [sched_steps; by rewrite Hk|].
  destruct (is_in_ready_queue v || _ || _) eqn:Hq; [sched_steps; by rewrite Hk|].
  bool_to_prop. destruct Hq as [[Hflag Hnext%bool_decide_eq_false] Hprev%bool_decide_eq_false].
  rewrite <- eq_None_not_Some in Hnext, Hprev.
  sched_step. sched_step. apply wp_bind.
  eapply (wp_mono _ (λ _ k', ∃ s1, k' = with_sched c s1 (processes k) k ∧ queue s1 = queue s ∧
                       highest_priority s1 = highest_priority s `max` priority v)).
  2:{ destruct (highest_priority s <? priority v) eqn:Hlt; bool_to_prop; sched_steps;
        eexists; (split; [reflexivity|]); ksimpl_goal; split; reflexivity || lia. }
  intros _ ? (s1 & -> & Hqueue & Hhigh).
  pose proof (repr_queue _ _ _ Hr _ Hpri) as Hq. rewrite <- Hqueue in Hq. sched_step.
  eapply wp_read_queue; [done..|]. ksimpl_goal.
  destruct (qs (priority v)) as [|x l _] eqn:Hqs using rev_ind; cbn [head].
  - sched_steps. split; [done|]. do 2 eexists. split_and!; [done| | |].
    + eapply (sched_repr_add s _ qs); ksimpl_goal; try done.
      * by rewrite Hqueue.
      * frame_solve. auto.
      * set_solver.
      * links_solve.
      * intros y w ->%list_elem_of_singleton. rewrite lookup_insert_eq. naive_solver.
    + frame_solve. auto.
    + eexists. rewrite lookup_insert_eq. done.
  - rewrite last_snoc.
    destruct (queued_links _ _ _ (priority v) l x [] Hr Hqs) as (w & Hw & (_ & Hwf & _) & _ & Hnw).
    assert (p ≠ x) by congruence.
    destruct (head (l ++ [x])) eqn:Hh; [|by destruct l].
    sched_steps. split; [done|]. do 2 eexists. split_and!; [done| | |].
    + eapply (sched_repr_add s _ qs); rewrite ?last_snoc; ksimpl_goal; try done.
      * rewrite Hqueue. by rewrite head_app, Hh. 
      * frame_solve; auto.
      * intros y Hy. assert (y ≠ p). { intros ->. eapply (queued_flag s _ qs) in Hp; [..|rewrite Hqs]; eauto. congruence. }
        links_solve.
      * links_solve.
      * intros y u Hy. rewrite !lookup_insert. intros.
        repeat case_decide; simplify_eq; try done.
        eapply (queued_flag s _ qs (priority v)); eauto. rewrite Hqs. set_solver.
    + frame_solve; [right; exists (priority v); rewrite Hqs; set_solver|auto..].
    + eexists. rewrite lookup_insert_eq. done.
Qed.

(** [t] was taken out of the queue that held it. *)
Definition removed_from (c : Z) (k : kernel) (ps : gmap Z process) (qs : ready_queues)
    (i t : Z) (k' : kernel) : Prop :=
  ∃ l1 l2, qs i = l1 ++ t :: l2 ∧
    sched_after c k ps (update_queue i (l1 ++ l2) qs) (in_queues qs) (dequeued t) k'.

Lemma remove_walk_spec c k s ps qs i t fuel l1 l2 :
  is_Some (cpu_local_variables k !! c) → sched_repr s ps qs → qs i = l1 ++ l2 →
  (length l2 ≤ fuel)%nat →
  wp (remove_walk fuel c i t (last l1) (head l2))
     (λ r k', if decide (t ∈ l2) then r = true ∧ removed_from c k ps qs i t k'
              else r = false ∧ k' = with_sched c s ps k)
     (with_sched c s ps k).
Proof.
  intros Hc Hr. revert l1 l2. induction fuel as [|fuel IH]; intros l1 [|x l2] Hqs Hf;
    cbn in Hf; try lia; cbn [remove_walk head].
  1, 2: apply wp_ret; cbn beta; by rewrite decide_False by set_solver.
  destruct (decide (x = t)) as [->|Hne].
  - apply wp_bind.
    eapply wp_mono; [|by apply (remove_unlink_spec c k s ps qs i l1 t l2)].
    intros ? k' Hk'. apply wp_ret. cbn beta. rewrite decide_True by left. split; [done|]. by exists l1, l2.
  - destruct (queued_links _ _ _ _ _ _ _ Hr Hqs) as (v & Hv & _ & _ & Hnext).
    sched_steps. rewrite Hnext. rewrite <- (last_snoc x l1).
    eapply wp_mono; [|apply (IH (l1 ++ [x]) l2); [by rewrite <- app_assoc|lia]].
    intros r k'. rewrite (decide_ext (t ∈ x :: l2) (t ∈ l2)); [done|].
    rewrite elem_of_cons. naive_solver.
Qed.

Lemma remove_scan_spec c k s ps qs t turns prio :
  is_Some (cpu_local_variables k !! c) → sched_repr s ps qs →
  ps = processes (with_sched c s ps k) →
  0 ≤ prio → prio + Z.of_nat turns = PRIORITY_MAX →
  wp (remove_scan c t prio turns)
     (λ r k', (∃ i, r = Ok tt ∧ removed_from c k ps qs i t k') ∨
        (∀ i, prio ≤ i → t ∉ qs i) ∧ r = Err SE_PROCESS_NOT_IN_QUEUE ∧ k' = with_sched c s ps k)
     (with_sched c s ps k).
Proof.
  intros Hc Hr Hps. revert prio. induction turns as [|turns IH]; intros prio Hp Hsum.
  - cbn [remove_scan]. apply wp_ret. right. split_and!; try done. intros i Hi Ht.
    assert (0 ≤ i < PRIORITY_MAX); [|lia].
    apply (repr_range _ _ _ Hr). destruct (qs i); [by apply not_elem_of_nil in Ht|done].
  - cbn [remove_scan]. sched_step.
    eapply wp_read_queue; [done|apply (repr_queue _ _ _ Hr); lia|].
    sched_step. sched_step. rewrite <- Hps. ksimpl_goal. apply wp_bind.
    eapply wp_mono; [|apply (remove_walk_spec c k s ps qs prio t _ [] (qs prio))]; try done.
    + intros r k'. case_decide as Ht.
      * intros [-> Hrem]. apply wp_ret. left. eauto.
      * intros [-> ->]. eapply wp_mono; [|apply IH; lia].
        intros r k' [?|(Hno & Hrest)]; [by left|]. right. split; [|done].
        intros i Hi. destruct (decide (i = prio)) as [->|]; [done|]. apply Hno. lia.
    + eapply dlist_heap_length, (repr_dlist _ _ _ Hr).
Qed.

(** [remove_process] takes the process out of the queue that holds it. *)
Lemma remove_process_spec c k qs t :
  sched_inv c k qs →
  wp (remove_process c (Some t))
     (λ r k', (∃ i, r = Ok tt ∧ removed_from c k (processes k) qs i t k') ∨
        (∀ i, t ∉ qs i) ∧ r = Err SE_PROCESS_NOT_IN_QUEUE ∧ k' = k) k.
Proof.
  intros Hinv. eapply sched_start; [done|]. intros s ps Hc Hr <- Hk.
  eapply wp_mono; [|eapply (remove_scan_spec c k s (processes k) qs); done].
  intros r k' [?|(Hno & ? & ->)]; [by left|]. right. split_and!; try done.
  intros i Hi. eapply Hno, Hi. apply (repr_range _ _ _ Hr). by intros Hn; rewrite Hn in Hi; apply not_elem_of_nil in Hi.
Qed.

Lemma with_sched_twice c s ps s' ps' k :
  with_sched c s' ps' (with_sched c s ps k) = with_sched c s' ps' k.
Proof.
  destruct k. cbv [with_sched upd]; ksimpl_goal. f_equal.
  rewrite alter_alter_eq. apply alter_ext. by intros [? ? [] ? ?].
Qed.

Lemma sched_inv_with c s ps k qs :
  is_Some (cpu_local_variables k !! c) → sched_repr s ps qs → sched_inv c (with_sched c s ps k) qs.
Proof.
  intros [cpu Hc] Hr. eexists. split; [by apply with_sched_cpu|]. done.
Qed.

(** A scheduler operation leaves the queues in the state it describes... *)
Lemma sched_after_inv c k ps qs T P k' :
  is_Some (cpu_local_variables k !! c) → sched_after c k ps qs T P k' → sched_inv c k' qs.
Proof. intros Hc (s & ps' & -> & Hr & _). by apply sched_inv_with. Qed.

(** ... and two operations in a row are one. *)
Lemma sched_after_trans c k ps qs1 T1 P1 k1 qs2 (T2 : Z → Prop) P2 k2 :
  sched_after c k ps qs1 T1 P1 k1 → sched_after c k1 (processes k1) qs2 T2 P2 k2 →
  (∀ p, T1 p → T2 p) → sched_after c k ps qs2 T2 P2 k2.
Proof.
  intros (s1 & ps1 & -> & _ & Hf1 & _) (s2 & ps2 & -> & Hr2 & Hf2 & HP) HT.
  exists s2, ps2. split_and!; try done; [by rewrite with_sched_twice|].
  eapply link_frame_trans; [by eapply link_frame_mono|done].
Qed.

Lemma sched_after_mono c k ps qs (T T' : Z → Prop) (P P' : gmap Z process → Prop) k' :
  sched_after c k ps qs T P k' → (∀ p, T p → T' p) → (∀ ps, P ps → P' ps) →
  sched_after c k ps qs T' P' k'.
Proof.
  intros (s' & ps' & -> & Hr & Hf & HP) HT HP'. exists s', ps'. split_and!; auto.
  by eapply link_frame_mono.
Qed.

Lemma with_sched_cpus c s ps k :
  is_Some (cpu_local_variables k !! c) → is_Some (cpu_local_variables (with_sched c s ps k) !! c).
Proof. intros [cpu Hc]. rewrite (with_sched_cpu c s ps k cpu Hc). eauto. Qed.

(** What [try_direct_schedule] answers, and the queues it leaves. *)
Definition abs_direct (qs : ready_queues) (t : Z) (v : process)
    : result Z scheduler_error * ready_queues :=
  if (priority v <? 0) || (PRIORITY_MAX <=? priority v) then (Err SE_INVALID_PRIORITY, qs)
  else match abs_schedule qs with
  | Some (i, p, l) =>
      if priority v <? i then
        match add_process_error v with
        | Some e => (Err e, qs)
        | None => (Ok p, update_queue i l (update_queue (priority v) (qs (priority v) ++ [t]) qs))
        end
      else if is_in_ready_queue v then (Err SE_PROCESS_ALREADY_EXISTS_IN_QUEUE, qs)
      else (Ok t, qs)
  | None =>
      if is_in_ready_queue v then (Err SE_PROCESS_ALREADY_EXISTS_IN_QUEUE, qs) else (Ok t, qs)
  end.

Lemma sched_after_refl c k qs s :
  sched_repr s (processes k) qs →
  ∀ T (P : gmap Z process → Prop), P (processes k) →
  sched_after c k (processes k) qs T P (with_sched c s (processes k) k).
Proof. intros Hr T P HP. exists s, (processes k). done. Qed.

(** Either nothing changed, or the process that is returned left the queues. *)
Definition direct_effect (r : result Z scheduler_error * ready_queues) (qs : ready_queues)
    (ps ps' : gmap Z process) : Prop :=
  r.2 = qs ∧ ps' = ps ∨ ∃ p, r.1 = Ok p ∧ dequeued p ps'.

(** The bound after the loop decides whether a higher queue is non-empty. *)
Lemma abs_schedule_bound s ps qs prio :
  sched_repr s ps qs → 
  (highest_priority s ≤ prio ∨ qs (highest_priority s) ≠ []) →
  if prio <? highest_priority s
  then ∃ p l, abs_schedule qs = Some (highest_priority s, p, l)
  else ∀ i p l, abs_schedule qs = Some (i, p, l) → i ≤ prio.
Proof.
  intros Hr Hor. pose proof (repr_highest_range _ _ _ Hr). case_match; bool_to_prop.
  - destruct Hor as [|Hne]; [lia|].
    destruct (abs_schedule qs) as [[[i p] l]|] eqn:Ha.
    + apply highest_ready_Some in Ha as (Hi & Hqs & Hj).
      pose proof (repr_highest _ _ _ Hr i ltac:(by rewrite Hqs)).
      destruct (decide (i = highest_priority s)) as [->|]; [eauto|].
      destruct Hne. apply Hj. lia.
    + destruct Hne. eapply highest_ready_None; [done|]. lia.
  - intros i p l (Hi & Hqs & _)%highest_ready_Some.
    pose proof (repr_highest _ _ _ Hr i ltac:(by rewrite Hqs)). lia.
Qed.

Lemma abs_schedule_update qs i p l j l' :
  abs_schedule qs = Some (i, p, l) → 0 ≤ j < i → abs_schedule (update_queue j l' qs) = Some (i, p, l).
Proof.
  unfold abs_schedule. intros Ha Hj. revert Ha.
  generalize (Z.to_nat PRIORITY_MAX) as n. induction n as [|n IH]; cbn; [done|].
  destruct (decide (Z.of_nat n = j)) as [Hn|Hn].
  - intros Ha. exfalso.
    destruct (qs (Z.of_nat n)); [apply highest_ready_Some in Ha as (? & _); lia|].
    simplify_eq. lia.
  - rewrite update_queue_ne by done. by destruct (qs (Z.of_nat n)).
Qed.

(** [try_direct_schedule] skips the queues unless a higher one is non-empty. *)
Lemma try_direct_schedule_spec c k qs t v :
  sched_inv c k qs → processes k !! t = Some v →
  wp (try_direct_schedule c (Some t))
     (λ r k', r = (abs_direct qs t v).1 ∧
        sched_after c k (processes k) (abs_direct qs t v).2
          (λ q, q = t ∨ in_queues qs q)
          (direct_effect (abs_direct qs t v) qs (processes k)) k') k.
Proof.
  intros Hinv Hv. eapply sched_start; [done|]. intros s ps Hc Hr <- Hk.
  unfold try_direct_schedule. sched_steps. unfold abs_direct.
  destruct (_ || _) eqn:Hpri.
  { sched_steps. split; [done|]. apply sched_after_refl; [done|by left]. }
  bool_to_prop. sched_step. sched_step. apply wp_bind.
  eapply (wp_mono _ (λ _ k', ∃ h, k' = with_sched c (s <| highest_priority := h |>) (processes k) k ∧
     sched_repr (s <| highest_priority := h |>) (processes k) qs ∧
     (h ≤ priority v ∨ qs h ≠ []))).
  2:{ destruct (priority v <? highest_priority s) eqn:Hlt; bool_to_prop.
      - eapply wp_mono; [|eapply lower_highest_priority_spec; try done; lia]. naive_solver.
      - sched_steps. exists (highest_priority s). destruct s; cbn in *; auto. }
  intros _ ? (h & -> & Hr1 & Hor). clear Hr. set (s1 := s <| highest_priority := h |>) in *.
  pose proof (abs_schedule_bound s1 _ qs (priority v) Hr1 Hor) as Hbound.
  sched_steps. destruct (priority v <? highest_priority s1) eqn:Hlt; bool_to_prop.
  - destruct Hbound as (p & l & Ha). rewrite Ha. rewrite (proj2 (Z.ltb_lt _ _)) by done.
    case_decide as Hst.
    { sched_steps. unfold add_process_error. rewrite decide_True by done.
      split; [done|]. apply sched_after_refl; [done|by left]. }
    apply wp_and_then. eapply wp_mono;
      [|eapply (add_process_spec c _ qs t v); [by apply sched_inv_with|done]].
    intros r k1. destruct (add_process_error v).
    { intros [-> ->]. split; [done|]. apply sched_after_refl; [done|by left]. }
    intros [-> Hadd]. eapply wp_mono; [|eapply schedule_spec, sched_after_inv, Hadd].
    2: by apply with_sched_cpus.
    intros r k2. rewrite (abs_schedule_update _ _ _ _ _ _ Ha) by lia.
    intros [-> Hafter]. split; [done|]. cbn [snd].
    eapply sched_after_trans; [by apply (sched_after_refl c k qs s1 Hr1 (λ _, False) (λ _, True))| |done].
    eapply sched_after_trans; [exact Hadd| |done].
    eapply sched_after_mono; [exact Hafter| |intros ps' Hd; right; eauto]. intros q [j Hq].
    destruct (decide (j = priority v)) as [->|].
    + rewrite update_queue_eq in Hq. apply elem_of_app in Hq as [Hq|Hq%list_elem_of_singleton].
      * right. by exists (priority v).
      * by left.
    + rewrite update_queue_ne in Hq by done. right. by exists j.
  - destruct (abs_schedule qs) as [[[i p] l]|] eqn:Ha.
    + specialize (Hbound i p l eq_refl). rewrite (proj2 (Z.ltb_ge _ _)) by lia.
      destruct (is_in_ready_queue v); sched_steps; (split; [done|]); (apply sched_after_refl; [done|by left]).
    + destruct (is_in_ready_queue v); sched_steps; (split; [done|]); (apply sched_after_refl; [done|by left]).
Qed.

(** ** The initial state *)

Lemma sched_repr_initial ps : sched_repr initial_scheduler ps (λ _, []).
Proof.
  split; try done.
  - intros i Hi. cbn [queue initial_scheduler head last].
    apply lookup_gset_to_gmap_Some. split; [|done].
    apply elem_of_list_to_set, elem_of_seqZ. unfold PRIORITY_MAX in *. lia.
  - intros i p Hp. by apply not_elem_of_nil in Hp.
Qed.

(** A core whose queue of priority 5 holds the processes 1 and 2, and on which
    the processes 3 and 4 (priorities 5 and 2) are outside the queues. *)
Definition ready_process (prio : Z) (prev nxt : option Z) (queued : bool) : process :=
  initial_process <| status := PS_READY |> <| priority := prio |> <| preview := prev |>
    <| next := nxt |> <| is_in_ready_queue := queued |>.

Definition example_processes : gmap Z process :=
  {[ 1 := ready_process 5 None (Some 2) true; 2 := ready_process 5 (Some 1) None true;
     3 := ready_process 5 None None false; 4 := ready_process 2 None None false ]}.

Definition example_scheduler : scheduler :=
  initial_scheduler <| queue ::= <[5 := MkQueue (Some 1) (Some 2)]> |>.

Definition example_kernel : kernel :=
  with_sched 0 example_scheduler example_processes initial_kernel.

Definition example_queues : ready_queues := update_queue 5 [1; 2] (λ _, []).

Lemma example_inv : sched_inv 0 example_kernel example_queues.
Proof.
  apply sched_inv_with; [by eexists|].
  apply (sched_repr_update initial_scheduler example_processes (λ _, [])); try done.
  - apply sched_repr_initial.
  - intros p Hp. assert (p = 1 ∨ p = 2) as [->| ->] by set_solver.
    + by eexists.
    + by eexists.
  - intros j. unfold update_queue. case_decide; [subst; intros; cbn; unfold PRIORITY_MAX; lia|done].
Qed.

(** ** Properties *)

(** C25: [scheduler::schedule] refines "take the head of the highest non-empty
    priority queue": it ends, without undefined behaviour, with that process,
    which leaves the queues with its links cleared; every other queue and every
    other field of every process is kept, and the pointers represent the new
    queues.  When all queues are empty it reports [PROCESS_NOT_IN_QUEUE] and
    changes nothing. *)
Theorem schedule_refines c k qs :
  sched_inv c k qs →
  wp (schedule c)
     (λ r k', match abs_schedule qs with
              | Some (i, p, l) => r = Ok p ∧
                  sched_after c k (processes k) (update_queue i l qs) (in_queues qs)
                    (dequeued p) k'
              | None => r = Err SE_PROCESS_NOT_IN_QUEUE ∧ k' = k
              end) k.
Proof. apply schedule_spec. Qed.

Lemma schedule_refines_witness :
  wp (schedule 0)
     (λ r k', r = Ok 1 ∧
        sched_after 0 example_kernel (processes example_kernel)
          (update_queue 5 [2] example_queues) (in_queues example_queues) (dequeued 1) k')
     example_kernel.
Proof. exact (schedule_refines 0 example_kernel example_queues example_inv). Defined.

(** [scheduler::add_process] appends the process to the queue of its
    priority and marks it queued, keeping the order of those already there; it
    answers with exactly the error [add_process_error] gives, and then changes
    nothing, for a process that is not READY, has a priority outside 0..31 or is
    already linked. *)
Theorem add_process_refines c k qs p v :
  sched_inv c k qs → processes k !! p = Some v →
  wp (add_process c (Some p))
     (λ r k', match add_process_error v with
              | Some e => r = Err e ∧ k' = k
              | None => r = Ok tt ∧
                  sched_after c k (processes k)
                    (update_queue (priority v) (qs (priority v) ++ [p]) qs)
                    (λ q, q = p ∨ in_queues qs q) (enqueued p) k'
              end) k.
Proof. apply add_process_spec. Qed.

Lemma add_process_refines_witness :
  wp (add_process 0 (Some 3))
     (λ r k', r = Ok tt ∧
        sched_after 0 example_kernel (processes example_kernel)
          (update_queue 5 [1; 2; 3] example_queues)
          (λ q, q = 3 ∨ in_queues example_queues q) (enqueued 3) k')
     example_kernel.
Proof.
  exact (add_process_refines 0 example_kernel example_queues 3 (ready_process 5 None None false)
           example_inv eq_refl).
Defined.

(** [scheduler::remove_process] finds the process wherever it is queued and
    takes it out, keeping the order of the others; the search ends, and when no
    queue holds the process it reports [PROCESS_NOT_IN_QUEUE] and changes
    nothing. *)
Theorem remove_process_refines c k qs t :
  sched_inv c k qs →
  wp (remove_process c (Some t))
     (λ r k', (∃ i, r = Ok tt ∧ removed_from c k (processes k) qs i t k') ∨
        (∀ i, t ∉ qs i) ∧ r = Err SE_PROCESS_NOT_IN_QUEUE ∧ k' = k) k.
Proof. apply remove_process_spec. Qed.

Lemma remove_process_refines_witness :
  wp (remove_process 0 (Some 2))
     (λ r k', (∃ i, r = Ok tt ∧
                 removed_from 0 example_kernel (processes example_kernel) example_queues i 2 k') ∨
        (∀ i, 2 ∉ example_queues i) ∧ r = Err SE_PROCESS_NOT_IN_QUEUE ∧ k' = example_kernel)
     example_kernel.
Proof. exact (remove_process_refines 0 example_kernel example_queues 2 example_inv). Defined.

(** [scheduler::try_direct_schedule] returns the target itself, and leaves
    the queues alone, unless some queue above the target's priority is non-empty;
    then the target is queued and the head of the highest queue is returned
    instead, so a direct switch never overtakes a higher priority.  Lowering the
    cached bound on the way is invisible in the queues. *)
Theorem try_direct_schedule_refines c k qs t v :
  sched_inv c k qs → processes k !! t = Some v →
  wp (try_direct_schedule c (Some t))
     (λ r k', r = (abs_direct qs t v).1 ∧
        sched_after c k (processes k) (abs_direct qs t v).2
          (λ q, q = t ∨ in_queues qs q) (λ _, True) k') k.
Proof.
  intros Hinv Hv. eapply wp_mono; [|by apply try_direct_schedule_spec]. intros r k' [-> Hk'].
  split; [done|]. by eapply sched_after_mono.
Qed.

Lemma try_direct_schedule_refines_witness :
  wp (try_direct_schedule 0 (Some 4))
     (λ r k', r = Ok 1 ∧
        sched_after 0 example_kernel (processes example_kernel)
          (update_queue 5 [2] (update_queue 2 [4] example_queues))
          (λ q, q = 4 ∨ in_queues example_queues q) (λ _, True) k')
     example_kernel.
Proof.
  exact (try_direct_schedule_refines 0 example_kernel example_queues 4
           (ready_process 2 None None false) example_inv eq_refl).
Defined.
