(* ===== verification/Slot.v ===== *)
(** Capability slots and the dependency chain threaded through them:
    src/src/kernel/include/kernel/capability/capability_component.hpp and the
    [is_same_object] overrides of the component classes.

    Every slot carries [preview_slot]/[next_slot]: a derivation tree laid out as
    a list in pre-order, [depth] being the level.  Copies ("peer aliases") have
    the depth of their source and stand next to it, children come behind the
    whole alias group one level deeper. *)

From S2P Require Import Prelude Word Types Kernel Dll.

(** ** Operations of [capability_slot] *)

Definition init (s : slot_ref) : M unit := modify slots s (λ _, initial_slot).

Definition remove_from_dependency_node (s : slot_ref) : M unit :=
  this ← load slots s;
  match preview_slot this with
  | Some p => modify slots p (λ v, v <| next_slot := next_slot this |>)
  | None => mret tt
  end;;
  this ← load slots s;
  match next_slot this with
  | Some n => modify slots n (λ v, v <| preview_slot := preview_slot this |>)
  | None => mret tt
  end.

(** The size a Generic's flags word encodes (its low 7 bits). *)
Definition generic_flags_size_bits (flags : Z) : Z := Z.land flags 0x7f.

(** The virtual [is_same_object] of the component [c] of two slots. *)
Definition component_is_same_object (c : component_ref) (left right : capability_slot) : bool :=
  match c with
  | C_GENERIC =>
      (data_0 (data left) =? data_0 (data right)) &&
      (generic_flags_size_bits (data_1 (data left)) =? generic_flags_size_bits (data_1 (data right)))
  | C_ADDRESS_SPACE | C_INTERRUPT_PORT => data_0 (data left) =? data_0 (data right)
  | C_FRAME =>
      (data_0 (data left) =? data_0 (data right)) && (data_2 (data left) =? data_2 (data right))
  | C_PAGE_TABLE =>
      (data_0 (data left) =? data_0 (data right)) &&
      (Z.land (data_1 (data left)) 0xff =? Z.land (data_1 (data right)) 0xff)
  | C_IO_PORT =>
      (data_0 (data left) =? data_0 (data right)) && (data_1 (data left) =? data_1 (data right))
  | _ => bool_decide (component left = component right)
  end.

(** [capability_slot::is_same_object]. *)
Definition is_same_object (this rhs : capability_slot) : bool :=
  if bool_decide (type this = CT_NONE) || negb (bool_decide (type this = type rhs))
  then false
  else match component this with
       | None => false
       | Some c =>
           if decide (component this = component rhs)
           then component_is_same_object c this rhs else false
       end.

(** [rhs] is a peer alias of [this]. *)
Definition is_alias (this rhs : capability_slot) : bool :=
  (depth rhs =? depth this) && is_same_object this rhs.

(** [while (last_alias->next_slot && ...)], from [last_alias]. *)
Fixpoint last_alias_loop (fuel : nat) (this : capability_slot) (last_alias : slot_ref) : M slot_ref :=
  la ← load slots last_alias;
  match next_slot la with
  | None => mret last_alias
  | Some n =>
      nv ← load slots n;
      if is_alias this nv then
        match fuel with
        | O => out_of_fuel
        | S fuel' => last_alias_loop fuel' this n
        end
      else mret last_alias
  end.

Definition last_alias_in_group (s : slot_ref) : M slot_ref :=
  this ← load slots s;
  fuel ← reads (λ k, size (slots k));
  last_alias_loop fuel this s.

Definition has_child (s : slot_ref) : M bool :=
  this ← load slots s;
  last_alias ← last_alias_in_group s;
  la ← load slots last_alias;
  match next_slot la with
  | None => mret false
  | Some n => nv ← load slots n; mret (depth this <? depth nv)
  end.

(** One disjunct of [has_sibling]: the neighbour [o] is an alias of [this]. *)
Definition neighbour_is_alias (this : capability_slot) (o : option slot_ref) : M bool :=
  match o with
  | None => mret false
  | Some n => nv ← load slots n; mret (is_alias this nv)
  end.

Definition has_sibling (s : slot_ref) : M bool :=
  this ← load slots s;
  b ← neighbour_is_alias this (next_slot this);
  if (b : bool) then mret true else neighbour_is_alias this (preview_slot this).

Definition insert (this slot : slot_ref) : M unit :=
  tv ← load slots this;
  let temp_next_slot := next_slot tv in
  modify slots this (λ v, v <| next_slot := Some slot |>);;
  modify slots slot (λ v, v <| preview_slot := Some this |> <| next_slot := temp_next_slot |>);;
  match temp_next_slot with
  | None => mret tt
  | Some n => modify slots n (λ v, v <| preview_slot := Some slot |>)
  end.

Definition insert_child (this child_slot : slot_ref) : M unit :=
  tv ← load slots this;
  modify slots child_slot (λ v, v <| depth := wadd (depth tv) 1 |>);;
  last_alias ← last_alias_in_group this;
  insert last_alias child_slot.

Definition insert_sibling (this sibling_slot : slot_ref) : M unit :=
  tv ← load slots this;
  modify slots sibling_slot (λ v, v <| depth := depth tv |>);;
  insert this sibling_slot.

Definition try_move_capability_slot (destination source : slot_ref) : M kernel_result :=
  dv ← load slots destination;
  if decide (type dv ≠ CT_NONE) then fail KE_INIT_FIRST
  else
    init destination;;
    sv ← load slots source;
    modify slots destination
      (λ v, v <| type := type sv |> <| data := data sv |> <| component := component sv |>
              <| rights := rights sv |> <| depth := depth sv |>
              <| next_slot := next_slot sv |> <| preview_slot := preview_slot sv |>);;
    dv ← load slots destination;
    match preview_slot dv with
    | Some p => modify slots p (λ v, v <| next_slot := Some destination |>)
    | None => mret tt
    end;;
    dv ← load slots destination;
    match next_slot dv with
    | Some n => modify slots n (λ v, v <| preview_slot := Some destination |>)
    | None => mret tt
    end;;
    init source;;
    ok.

Definition try_copy_capability_slot (destination source : slot_ref) : M kernel_result :=
  dv ← load slots destination;
  if decide (type dv ≠ CT_NONE) then fail KE_INIT_FIRST
  else
    init destination;;
    sv ← load slots source;
    modify slots destination
      (λ v, v <| type := type sv |> <| data := data sv |> <| component := component sv |>
              <| rights := rights sv |>);;
    insert_sibling source destination;;
    ok.
