(* ===== verification/SlotProofs.v ===== *)
(** Correctness of the slot operations (Slot.v): what copying, moving, deriving
    and unlinking a capability does to the dependency chain it stands in. *)

From S2P Require Import Prelude Word Types Dll Kernel Slot.

(** ** Rights *)

(** One right, tested either way. *)
Lemma has_right_bit r n : 0 ≤ n → (Z.land r (2 ^ n) =? 0) = negb (has_rights r (2 ^ n)).
Proof.
  intros Hn. unfold has_rights. pose proof (Z.pow_pos_nonneg 2 n ltac:(lia) Hn).
  assert (Z.land r (2 ^ n) = if Z.testbit r n then 2 ^ n else 0) as ->.
  { apply Z.bits_inj'. intros i Hi. rewrite Z.land_spec, Z.pow2_bits_eqb by done.
    destruct (Z.eqb_spec n i) as [<-|].
    - rewrite andb_true_r. destruct (Z.testbit r n); [by rewrite Z.pow2_bits_true|].
      by rewrite Z.testbit_0_l.
    - rewrite andb_false_r. destruct (Z.testbit r n); [|by rewrite Z.testbit_0_l].
      rewrite Z.pow2_bits_eqb by done. symmetry. by apply Z.eqb_neq. }
  destruct (Z.testbit r n); [rewrite Z.eqb_refl|]; cbn; destruct (2 ^ n) eqn:?; (done || lia).
Qed.

(** ** The dependency chain *)

Abbreviation chain_links σ := (heap_links preview_slot next_slot σ).

(** The slots of [l] form one dependency chain, in this order. *)
Definition chain (σ : gmap slot_ref capability_slot) (l : list slot_ref) : Prop :=
  dlist (chain_links σ) l.

(** A slot without its links. *)
Definition slot_core (v : capability_slot) : capability_slot :=
  v <| next_slot := None |> <| preview_slot := None |>.

Abbreviation chain_frame := (link_frame slot_core).

(** The state with the slots replaced: slot operations touch nothing else. *)
Definition with_slots (σ : gmap slot_ref capability_slot) (k : kernel) : kernel :=
  k <| slots := σ |>.

(** An operation ends in a state that differs from [k] in its slots only. *)
Definition slots_after (k : kernel) (P : gmap slot_ref capability_slot → Prop) (k' : kernel) : Prop :=
  ∃ σ, k' = with_slots σ k ∧ P σ.

Lemma with_slots_id k : k = with_slots (slots k) k.
Proof. by destruct k. Qed.

Lemma wp_slot_load k σ s v Q :
  σ !! s = Some v → Q v (with_slots σ k) → wp (load slots s) Q (with_slots σ k).
Proof. intros Hs HQ. by eapply wp_load. Qed.

Lemma wp_slot_modify k σ s v f Q :
  σ !! s = Some v → Q tt (with_slots (<[s := f v]> σ) k) →
  wp (modify slots s f) Q (with_slots σ k).
Proof. intros Hs HQ. by eapply wp_modify. Qed.

Lemma wp_init k σ s Q :
  is_Some (σ !! s) → Q tt (with_slots (<[s := initial_slot]> σ) k) →
  wp (init s) Q (with_slots σ k).
Proof. intros [v Hs] HQ. by eapply wp_slot_modify. Qed.

Ltac slot_step :=
  first
    [ eapply wp_slot_load; [lookup_solve|]
    | eapply wp_slot_modify; [lookup_solve|]
    | wp_head ]; cbn beta iota.
Ltac slot_steps := repeat slot_step.

(** ** Positions in a chain *)

Lemma chain_at σ l1 s l2 :
  chain σ (l1 ++ s :: l2) →
  ∃ v, σ !! s = Some v ∧ preview_slot v = last l1 ∧ next_slot v = head l2.
Proof.
  intros Hd%dlist_lookup. unfold heap_links in Hd.
  destruct (σ !! s) as [v|]; [|done]. cbn in Hd. simplify_eq. eauto.
Qed.

Lemma chain_is_Some σ l s : chain σ l → s ∈ l → is_Some (σ !! s).
Proof.
  intros Hd (l1 & l2 & ->)%list_elem_of_split.
  destruct (chain_at _ _ _ _ Hd) as (v & Hv & _). eauto.
Qed.

Lemma chain_fresh σ l1 s l2 : chain σ (l1 ++ s :: l2) → s ∉ l1 ++ l2.
Proof. intros Hd%dlist_NoDup%NoDup_app_cons_notin. set_solver. Qed.

(** ** [insert] and [insert_sibling] *)

Lemma insert_spec k σ l1 s l2 d dv Q :
  chain σ (l1 ++ s :: l2) → d ∉ l1 ++ s :: l2 → σ !! d = Some dv →
  (∀ σ', chain σ' (l1 ++ s :: d :: l2) →
         chain_frame (λ x, x = s ∨ x = d ∨ head l2 = Some x) σ σ' →
         Q tt (with_slots σ' k)) →
  wp (insert s d) Q (with_slots σ k).
Proof.
  intros Hch Hd Hdv HQ.
  destruct (chain_at _ _ _ _ Hch) as (v & Hv & Hp & Hn).
  assert (s ≠ d) by set_solver.
  unfold insert. slot_steps. rewrite Hn.
  assert (Hgo : ∀ σ', 
    chain_frame (λ x, x = s ∨ x = d ∨ head l2 = Some x) σ σ' →
    (∀ y, y ∈ (l1 ++ [s]) ++ l2 → chain_links σ' y
       = write_prev (head l2) (Some d) (write_next (Some s) (Some d) (chain_links σ)) y) →
    chain_links σ' d = Some (Some s, head l2) → Q tt (with_slots σ' k)).
  { intros σ' Hf Hl Hd'. apply HQ; [|done].
    unfold chain. change (s :: d :: l2) with ([s] ++ d :: l2). rewrite app_assoc.
    eapply (dlist_insert _ _ (l1 ++ [s]) d l2); rewrite ?last_snoc; try done.
    - by rewrite <- app_assoc.
    - set_solver. }
  destruct l2 as [|n l2]; cbn [head]; slot_steps.
  - apply Hgo; [frame_solve; auto| |links_solve].
    intros y Hy. assert (y ≠ d) by (intros ->; set_solver). links_solve.
  - destruct (chain_at σ (l1 ++ [s]) n l2) as (nv & Hnv & _ & Hnn); [by rewrite <- app_assoc|].
    assert (n ≠ d) by set_solver.
    assert (n ≠ s) by (apply chain_fresh in Hch; set_solver).
    slot_steps. apply Hgo; [frame_solve; auto| |links_solve].
    intros y Hy. assert (y ≠ d) by (intros ->; set_solver). links_solve.
Qed.

(** ** Alias groups *)

(** The peer aliases of [this] at the head of [l], and what follows them. *)
Fixpoint alias_prefix (σ : gmap slot_ref capability_slot) (this : capability_slot)
    (l : list slot_ref) : list slot_ref :=
  match l with
  | [] => []
  | x :: l' =>
      match σ !! x with
      | Some v => if is_alias this v then x :: alias_prefix σ this l' else []
      | None => []
      end
  end.

Definition alias_rest σ this (l : list slot_ref) : list slot_ref :=
  drop (length (alias_prefix σ this l)) l.

Lemma alias_split σ this l : l = alias_prefix σ this l ++ alias_rest σ this l.
Proof.
  unfold alias_rest. induction l as [|x l IH]; [done|]. cbn.
  destruct (σ !! x) as [v|]; [|done]. destruct (is_alias this v); [|done].
  cbn. by rewrite <- IH.
Qed.

Lemma alias_prefix_ext σ σ' this l :
  (∀ x, x ∈ l → σ' !! x = σ !! x) → alias_prefix σ' this l = alias_prefix σ this l.
Proof.
  induction l as [|x l IH]; intros Hext; [done|]. cbn. rewrite Hext by set_solver.
  rewrite IH; [done|]. intros. apply Hext. set_solver.
Qed.

(** The loop stops at the end of the group, and changes nothing. *)
Lemma last_alias_loop_spec k σ this l1 s l2 fuel Q :
  chain σ (l1 ++ s :: l2) → (length l2 ≤ fuel)%nat →
  Q (default s (last (alias_prefix σ this l2))) (with_slots σ k) →
  wp (last_alias_loop fuel this s) Q (with_slots σ k).
Proof.
  revert l1 s l2. induction fuel as [|fuel IH]; intros l1 s l2 Hch Hf HQ;
    destruct (chain_at _ _ _ _ Hch) as (v & Hv & _ & Hn);
    cbn [last_alias_loop]; slot_steps; rewrite Hn; destruct l2 as [|n l2]; cbn in Hf; try lia;
    cbn [head]; slot_steps; try done.
  destruct (chain_at σ (l1 ++ [s]) n l2) as (nv & Hnv & _); [by rewrite <- app_assoc|].
  cbn [alias_prefix] in HQ. rewrite Hnv in HQ. slot_steps.
  destruct (is_alias this nv); [|by slot_steps].
  apply (IH (l1 ++ [s]) n l2); [by rewrite <- app_assoc|lia|].
  rewrite last_cons in HQ. by destruct (last (alias_prefix σ this l2)).
Qed.

Lemma last_alias_in_group_spec k σ l1 s l2 v Q :
  chain σ (l1 ++ s :: l2) → σ !! s = Some v →
  Q (default s (last (alias_prefix σ v l2))) (with_slots σ k) →
  wp (last_alias_in_group s) Q (with_slots σ k).
Proof.
  intros Hch Hv HQ. unfold last_alias_in_group. slot_steps.
  eapply last_alias_loop_spec; [done| |done]. ksimpl_goal.
  transitivity (length (l1 ++ s :: l2)); [rewrite length_app; cbn; lia|].
  by apply (dlist_heap_length preview_slot next_slot).
Qed.

(** [insert_child] puts the child behind the whole alias group, a level down. *)
Lemma insert_child_spec k σ l1 s l2 v c cv Q :
  chain σ (l1 ++ s :: l2) → σ !! s = Some v → c ∉ l1 ++ s :: l2 → σ !! c = Some cv →
  (∀ σ', chain σ' (l1 ++ s :: alias_prefix σ v l2 ++ c :: alias_rest σ v l2) →
         chain_frame (λ x, x ∈ c :: l1 ++ s :: l2)
           (<[c := cv <| depth := wadd (depth v) 1 |>]> σ) σ' →
         Q tt (with_slots σ' k)) →
  wp (insert_child s c) Q (with_slots σ k).
Proof.
  intros Hch Hv Hc Hcv HQ. unfold insert_child. assert (s ≠ c) by set_solver. slot_steps.
  set (σ1 := <[c := _]> σ) in *.
  assert (Hext : ∀ x, x ∈ l1 ++ s :: l2 → σ1 !! x = σ !! x).
  { intros x Hx. apply lookup_insert_ne. by intros ->. }
  assert (Hch1 : chain σ1 (l1 ++ s :: l2)).
  { eapply dlist_ext; [|done]. intros y Hy. unfold heap_links. by rewrite Hext. }
  assert (Hpre : alias_prefix σ1 v l2 = alias_prefix σ v l2).
  { apply alias_prefix_ext. intros. apply Hext. set_solver. }
  eapply last_alias_in_group_spec; [done|by rewrite Hext by set_solver|].
  rewrite Hpre. pose proof (alias_split σ v l2) as Hsplit.
  set (al := alias_prefix σ v l2) in *. set (rest := alias_rest σ v l2) in *.
  assert (Hlast : ∃ l0, s :: al = l0 ++ [default s (last al)]).
  { destruct al as [|x al' _] using rev_ind; [by exists []|].
    exists (s :: al'). by rewrite last_snoc. }
  destruct Hlast as [l0 Hl0].
  assert (Heq : l1 ++ s :: l2 = (l1 ++ l0) ++ default s (last al) :: rest).
  { rewrite Hsplit, app_comm_cons, Hl0, <- !app_assoc. done. }
  eapply (insert_spec k σ1 (l1 ++ l0) (default s (last al)) rest c).
  - by rewrite <- Heq.
  - by rewrite <- Heq.
  - apply lookup_insert_eq.
  - intros σ' Hch' Hf. apply HQ.
    + rewrite <- app_assoc in Hch'. cbn [app] in Hch'.
      replace (l0 ++ default s (last al) :: c :: rest) with (s :: al ++ c :: rest) in Hch'; [done|].
      rewrite app_comm_cons, Hl0, <- app_assoc. done.
    + eapply link_frame_mono; [|done]. intros x Hx. rewrite Heq.
      destruct Hx as [->|[->|[? ->]%head_Some]]; set_solver.
Qed.

(** ** Unlinking *)

Lemma chain_neighbours σ l1 s l2 :
  chain σ (l1 ++ s :: l2) → ∀ x, last l1 = Some x ∨ head l2 = Some x →
  x ≠ s ∧ (∃ v, σ !! x = Some v) ∧ (last l1 = Some x → head l2 ≠ Some x).
Proof.
  intros Hch x Hor. assert (x ∈ l1 ++ l2) as Hx.
  { destruct Hor as [[? ->]%last_Some|[? ->]%head_Some]; set_solver. }
  pose proof (chain_fresh _ _ _ _ Hch) as Hs. split_and!.
  - by intros ->.
  - eapply chain_is_Some; [done|]. set_solver.
  - intros [? ->]%last_Some [? ->]%head_Some.
    apply dlist_NoDup, NoDup_app in Hch as (_ & Hch & _). apply (Hch x); set_solver.
Qed.

Lemma remove_from_dependency_node_spec k σ l1 s l2 Q :
  chain σ (l1 ++ s :: l2) →
  (∀ σ', chain σ' (l1 ++ l2) → σ' !! s = σ !! s →
         chain_frame (λ x, last l1 = Some x ∨ head l2 = Some x) σ σ' →
         Q tt (with_slots σ' k)) →
  wp (remove_from_dependency_node s) Q (with_slots σ k).
Proof.
  intros Hch HQ. destruct (chain_at _ _ _ _ Hch) as (v & Hv & Hp & Hn).
  pose proof (chain_neighbours _ _ _ _ Hch) as Hnb. pose proof (chain_fresh _ _ _ _ Hch) as Hs.
  unfold remove_from_dependency_node. slot_steps. rewrite Hp.
  assert (Hgo : ∀ σ', σ' !! s = Some v →
    chain_frame (λ x, last l1 = Some x ∨ head l2 = Some x) σ σ' →
    (∀ y, y ∈ l1 ++ l2 → chain_links σ' y
       = write_prev (head l2) (last l1) (write_next (last l1) (head l2) (chain_links σ)) y) →
    Q tt (with_slots σ' k)).
  { intros σ' Hsv Hf Hl. apply HQ; [by eapply dlist_unlink|by rewrite Hsv, Hv|done]. }
  destruct (last l1) as [p|] eqn:Hl1; [destruct (Hnb p) as (? & (pv & Hpv) & Hpn); [auto|]|];
    slot_steps; rewrite Hn;
    (destruct (head l2) as [n|] eqn:Hl2; [destruct (Hnb n) as (? & (nv & Hnv) & _); [auto|]|]);
    try (assert (p ≠ n) by naive_solver); rewrite ?Hp; slot_steps; (apply Hgo;
      [lookup_solve|frame_solve; auto|intros y Hy; assert (y ≠ s) by (by intros ->); links_solve]).
Qed.

(** ** Moving and copying *)

(** What a slot holds after [v] was copied or moved into it. *)
Definition transferred (v : capability_slot) : capability_slot :=
  slot_core v <| reclaiming := false |>.

(** [try_copy_capability_slot] makes an alias behind its source. *)
Lemma try_copy_capability_slot_spec k σ l1 s l2 v d dv Q :
  chain σ (l1 ++ s :: l2) → σ !! s = Some v → d ∉ l1 ++ s :: l2 →
  σ !! d = Some dv → type dv = CT_NONE →
  (∀ σ', chain σ' (l1 ++ s :: d :: l2) →
         chain_frame (λ x, x ∈ d :: l1 ++ s :: l2) (<[d := transferred v]> σ) σ' →
         Q (Ok tt) (with_slots σ' k)) →
  wp (try_copy_capability_slot d s) Q (with_slots σ k).
Proof.
  intros Hch Hv Hd Hdv Ht HQ. assert (s ≠ d) by set_solver.
  unfold try_copy_capability_slot. slot_steps. rewrite decide_False by naive_solver.
  unfold insert_sibling. slot_steps.
  rewrite !insert_insert_eq.
  set (σ1 := <[d := _]> σ).
  assert (Hext : ∀ x, x ∈ l1 ++ s :: l2 → σ1 !! x = σ !! x).
  { intros x Hx. apply lookup_insert_ne. by intros ->. }
  eapply (insert_spec k σ1 l1 s l2 d); [|done|apply lookup_insert_eq|].
  { eapply dlist_ext; [|done]. intros y Hy. unfold heap_links. by rewrite Hext. }
  intros σ' Hch' Hf. slot_steps. apply HQ; [done|].
  change σ1 with (<[d := transferred v]> σ) in Hf.
  eapply link_frame_mono; [|done]. intros x. rewrite !elem_of_cons, elem_of_app.
  intros [->|[->|[? ->]%head_Some]]; set_solver.
Qed.

(** [try_move_capability_slot] puts the destination in the place of the source. *)
Lemma try_move_capability_slot_spec k σ l1 s l2 v d dv Q :
  chain σ (l1 ++ s :: l2) → σ !! s = Some v → d ∉ l1 ++ s :: l2 →
  σ !! d = Some dv → type dv = CT_NONE →
  (∀ σ', chain σ' (l1 ++ d :: l2) →
         chain_frame (λ x, x = d ∨ x ∈ l1 ++ l2)
           (<[s := initial_slot]> (<[d := transferred v]> σ)) σ' →
         Q (Ok tt) (with_slots σ' k)) →
  wp (try_move_capability_slot d s) Q (with_slots σ k).
Proof.
  intros Hch Hv Hd Hdv Ht HQ. assert (s ≠ d) by set_solver.
  destruct (chain_at _ _ _ _ Hch) as (v' & Hv' & Hp & Hn). simplify_eq.
  pose proof (chain_neighbours _ _ _ _ Hch) as Hnb. pose proof (chain_fresh _ _ _ _ Hch) as Hs.
  unfold try_move_capability_slot. slot_steps. rewrite decide_False by naive_solver.
  slot_steps. ksimpl_goal. rewrite Hp.
  assert (Hgo : ∀ σ',
    chain_frame (λ x, x = d ∨ x ∈ l1 ++ l2) (<[d := transferred v]> σ) σ' →
    (∀ y, y ∈ l1 ++ l2 → chain_links σ' y
       = write_prev (head l2) (Some d) (write_next (last l1) (Some d) (chain_links σ)) y) →
    chain_links σ' d = Some (last l1, head l2) →
    Q (Ok tt) (with_slots (<[s := initial_slot]> σ') k)).
  { intros σ' Hf Hl Hld. apply HQ.
    - eapply dlist_ext; [|eapply (dlist_replace _ _ l1 s l2 d); [exact Hch|set_solver|exact Hl|exact Hld]].
      intros y Hy. unfold heap_links. rewrite lookup_insert_ne; [done|]. intros <-. set_solver.
    - destruct Hf as [Hc Ho]. split.
      + rewrite !fmap_insert, Hc, !fmap_insert. done.
      + intros x Hx. rewrite !(lookup_insert _ s). case_decide; [done|]. by apply Ho. }
  assert (Hin : ∀ x, last l1 = Some x ∨ head l2 = Some x → x ≠ d ∧ x ∈ l1 ++ l2).
  { intros x Hx. assert (x ∈ l1 ++ l2); [|set_solver].
    destruct Hx as [[? ->]%last_Some|[? ->]%head_Some]; set_solver. }
  destruct (last l1) as [p|] eqn:Hl1;
    [destruct (Hnb p) as (? & (pv & Hpv) & Hpn), (Hin p); [by auto..|]|];
    slot_steps; ksimpl_goal; rewrite Hn;
    (destruct (head l2) as [n|] eqn:Hl2;
      [destruct (Hnb n) as (? & (nv & Hnv) & _), (Hin n); [by auto..|]|]);
    try (assert (p ≠ n) by naive_solver); rewrite ?Hp; slot_steps.
  all: rewrite insert_insert_eq; apply Hgo;
    [ repeat first
        [ eapply link_frame_replace; [reflexivity|by auto]
        | eapply link_frame_trans; [|eapply link_frame_insert; [lookup_solve|reflexivity|by auto]] ]
    | intros y Hy; assert (y ≠ s) by (by intros ->); assert (y ≠ d) by set_solver; links_solve
    | links_solve ].
Qed.

(** ** Descendants *)

(** The slots at the head of [l] that are deeper than [d]. *)
Fixpoint descendants (σ : gmap slot_ref capability_slot) (d : Z) (l : list slot_ref)
    : list slot_ref :=
  match l with
  | [] => []
  | x :: l' =>
      match σ !! x with
      | Some v => if d <? depth v then x :: descendants σ d l' else []
      | None => []
      end
  end.

(** A predicate of slots that ignores the links sees the same prefix. *)
Lemma alias_prefix_frame T σ σ' this l :
  chain_frame T σ σ' → alias_prefix σ' this l = alias_prefix σ this l.
Proof.
  intros Hf. induction l as [|x l IH]; [done|]. cbn.
  pose proof (f_equal (.!! x) (frame_core _ _ _ Hf)) as Hx. rewrite !lookup_fmap in Hx.
  destruct (σ !! x) as [v|], (σ' !! x) as [v'|]; try done.
  change (Some (slot_core v') = Some (slot_core v)) in Hx. rewrite IH.
  assert (is_alias this v' = is_alias this v) as ->; [|done].
  destruct v, v'; unfold slot_core, is_alias, is_same_object, component_is_same_object in *.
  cbn in *. by simplify_eq.
Qed.

Lemma descendants_frame T σ σ' d l :
  chain_frame T σ σ' → descendants σ' d l = descendants σ d l.
Proof.
  intros Hf. induction l as [|x l IH]; [done|]. cbn.
  pose proof (f_equal (.!! x) (frame_core _ _ _ Hf)) as Hx. rewrite !lookup_fmap in Hx.
  destruct (σ !! x) as [v|], (σ' !! x) as [v'|]; try done.
  change (Some (slot_core v') = Some (slot_core v)) in Hx. rewrite IH.
  assert (depth v' = depth v) as ->; [|done].
  destruct v, v'; unfold slot_core in *. cbn in *. by simplify_eq.
Qed.

Lemma descendants_ext σ σ' d l :
  (∀ x, x ∈ l → σ' !! x = σ !! x) → descendants σ' d l = descendants σ d l.
Proof.
  induction l as [|x l IH]; intros Hext; [done|]. cbn. rewrite Hext by set_solver.
  rewrite IH; [done|]. intros. apply Hext. set_solver.
Qed.

Lemma alias_prefix_app σ this l1 l2 :
  alias_prefix σ this (alias_prefix σ this l1 ++ l2) = alias_prefix σ this l1 ++ alias_prefix σ this l2.
Proof.
  induction l1 as [|x l1 IH]; [done|]. cbn.
  destruct (σ !! x) as [v|] eqn:Hx; [|done]. destruct (is_alias this v) eqn:Ha; [|done].
  cbn. by rewrite Hx, Ha, IH.
Qed.

(** ** Properties *)

(** The dependency chain of three capabilities: a Generic, a copy of it, and a
    Frame made from it; and an empty slot outside the chain. *)
Definition example_generic (prev nxt : option slot_ref) : capability_slot :=
  MkSlot (Some C_GENERIC) CT_GENERIC RIGHTS_ALL false (SlotData 4096 14 4096) nxt prev 0.
Definition example_frame (prev : option slot_ref) : capability_slot :=
  MkSlot (Some C_FRAME) CT_FRAME RIGHTS_ALL false (SlotData 4096 0 12) None prev 1.
Definition example_slots : gmap slot_ref capability_slot :=
  {[ array_slot 1 0 := example_generic None (Some (array_slot 1 1));
     array_slot 1 1 := example_generic (Some (array_slot 1 0)) (Some (array_slot 1 2));
     array_slot 1 2 := example_frame (Some (array_slot 1 1));
     array_slot 1 3 := initial_slot ]}.

(** Copying a capability into an empty slot that is in no chain succeeds,
    touches slots only, gives the destination the source's component, type,
    data, rights and depth, and puts it directly behind the source, so that the
    copy joins the source's alias group; every other slot keeps its content. *)
Theorem try_copy_makes_alias k l1 s l2 v d dv :
  chain (slots k) (l1 ++ s :: l2) → slots k !! s = Some v → d ∉ l1 ++ s :: l2 →
  slots k !! d = Some dv → type dv = CT_NONE →
  wp (try_copy_capability_slot d s)
     (λ r k', r = Ok tt ∧
        slots_after k (λ σ', chain σ' (l1 ++ s :: d :: l2) ∧
          (slot_core <$> σ') = <[d := transferred v]> (slot_core <$> slots k) ∧
          ∀ x, x ∉ d :: l1 ++ s :: l2 → σ' !! x = slots k !! x) k') k.
Proof.
  intros Hch Hv Hd Hdv Ht. rewrite (with_slots_id k).
  eapply try_copy_capability_slot_spec; try done.
  intros σ' Hch' [Hc Ho]. split; [done|]. exists σ'. rewrite <- with_slots_id.
  split_and!; [done|done| |].
  - by rewrite Hc, fmap_insert.
  - intros x Hx. rewrite Ho by done. apply lookup_insert_ne. intros ->. set_solver.
Qed.

Lemma try_copy_makes_alias_witness :
  wp (try_copy_capability_slot (array_slot 1 3) (array_slot 1 2))
     (λ r k', r = Ok tt ∧
        slots_after (with_slots example_slots initial_kernel) (λ σ',
          chain σ' [array_slot 1 0; array_slot 1 1; array_slot 1 2; array_slot 1 3] ∧
          (slot_core <$> σ') = <[array_slot 1 3 := transferred (example_frame (Some (array_slot 1 1)))]>
             (slot_core <$> example_slots) ∧
          ∀ x, x ∉ [array_slot 1 3; array_slot 1 0; array_slot 1 1; array_slot 1 2] →
               σ' !! x = example_slots !! x) k')
     (with_slots example_slots initial_kernel).
Proof.
  apply (try_copy_makes_alias (with_slots example_slots initial_kernel)
           [array_slot 1 0; array_slot 1 1] (array_slot 1 2) []
           (example_frame (Some (array_slot 1 1))) (array_slot 1 3) initial_slot);
    try reflexivity; [by repeat split|set_solver].
Defined.

(** Moving a capability into an empty slot that is in no chain succeeds,
    empties the source, and puts the destination in its place: the chain is the
    old one with the source's address replaced, and every other slot keeps its
    content. *)
Theorem try_move_replaces k l1 s l2 v d dv :
  chain (slots k) (l1 ++ s :: l2) → slots k !! s = Some v → d ∉ l1 ++ s :: l2 →
  slots k !! d = Some dv → type dv = CT_NONE →
  wp (try_move_capability_slot d s)
     (λ r k', r = Ok tt ∧
        slots_after k (λ σ', chain σ' (l1 ++ d :: l2) ∧ σ' !! s = Some initial_slot ∧
          (slot_core <$> σ')
          = <[s := initial_slot]> (<[d := transferred v]> (slot_core <$> slots k)) ∧
          ∀ x, x ∉ d :: l1 ++ s :: l2 → σ' !! x = slots k !! x) k') k.
Proof.
  intros Hch Hv Hd Hdv Ht. rewrite (with_slots_id k).
  eapply try_move_capability_slot_spec; try done.
  intros σ' Hch' [Hc Ho]. split; [done|]. exists σ'. rewrite <- with_slots_id.
  pose proof (chain_fresh _ _ _ _ Hch) as Hs.
  split_and!; [done|done| | |].
  - rewrite Ho; [apply lookup_insert_eq|]. intros [->|?]; set_solver.
  - by rewrite Hc, !fmap_insert.
  - intros x Hx. rewrite Ho by set_solver. rewrite !lookup_insert_ne; [done|intros ->; set_solver..].
Qed.

Lemma try_move_replaces_witness :
  wp (try_move_capability_slot (array_slot 1 3) (array_slot 1 1))
     (λ r k', r = Ok tt ∧
        slots_after (with_slots example_slots initial_kernel) (λ σ',
          chain σ' [array_slot 1 0; array_slot 1 3; array_slot 1 2] ∧
          σ' !! array_slot 1 1 = Some initial_slot ∧
          (slot_core <$> σ') = <[array_slot 1 1 := initial_slot]>
             (<[array_slot 1 3 := transferred
                  (example_generic (Some (array_slot 1 0)) (Some (array_slot 1 2)))]>
                (slot_core <$> example_slots)) ∧
          ∀ x, x ∉ [array_slot 1 3; array_slot 1 0; array_slot 1 1; array_slot 1 2] →
               σ' !! x = example_slots !! x) k')
     (with_slots example_slots initial_kernel).
Proof.
  apply (try_move_replaces (with_slots example_slots initial_kernel)
           [array_slot 1 0] (array_slot 1 1) [array_slot 1 2]
           (example_generic (Some (array_slot 1 0)) (Some (array_slot 1 2)))
           (array_slot 1 3) initial_slot);
    try reflexivity; [by repeat split|set_solver].
Defined.

(** [insert_child] puts a slot outside the chain behind the parent's whole
    alias group and one level deeper, in front of the older children: the alias
    group is unchanged, and the parent's descendants (what revoking the parent
    removes) are the new child and the old ones. *)
Theorem insert_child_is_descendant k l1 s l2 v c cv :
  chain (slots k) (l1 ++ s :: l2) → slots k !! s = Some v → c ∉ l1 ++ s :: l2 →
  slots k !! c = Some cv → 0 ≤ depth v < 2 ^ 64 - 1 →
  let al := alias_prefix (slots k) v l2 in
  let rest := alias_rest (slots k) v l2 in
  wp (insert_child s c)
     (λ _ k', slots_after k (λ σ',
        chain σ' (l1 ++ s :: al ++ c :: rest) ∧
        (slot_core <$> σ')
        = <[c := slot_core (cv <| depth := depth v + 1 |>)]> (slot_core <$> slots k) ∧
        alias_prefix σ' v (al ++ c :: rest) = al ∧
        descendants σ' (depth v) (c :: rest) = c :: descendants (slots k) (depth v) rest) k') k.
Proof.
  intros Hch Hv Hc Hcv Hdepth al rest. rewrite (with_slots_id k).
  eapply insert_child_spec; try done.
  assert (wadd (depth v) 1 = depth v + 1) as -> by (unfold wadd, wrap; rewrite Z.mod_small; lia).
  fold al rest. intros σ' Hch' Hf. exists σ'. rewrite <- with_slots_id.
  pose proof (alias_split (slots k) v l2) as Hsplit. fold al rest in Hsplit.
  split_and!; [done|done| | |].
  - by rewrite (frame_core _ _ _ Hf), fmap_insert.
  - rewrite (alias_prefix_frame _ _ _ _ _ Hf).
    set (σ1 := <[c := _]> (slots k)).
    assert (al = alias_prefix σ1 v l2) as ->.
    { symmetry. apply alias_prefix_ext. intros x Hx. apply lookup_insert_ne. set_solver. }
    rewrite alias_prefix_app. cbn [alias_prefix]. subst σ1. rewrite lookup_insert_eq.
    unfold is_alias. ksimpl_goal.
    rewrite (proj2 (Z.eqb_neq _ _)) by lia. by rewrite app_nil_r.
  - rewrite (descendants_frame _ _ _ _ _ Hf). cbn [descendants]. rewrite lookup_insert_eq.
    ksimpl_goal. rewrite (proj2 (Z.ltb_lt _ _)) by lia. f_equal.
    apply descendants_ext. intros x Hx. apply lookup_insert_ne. intros <-.
    apply Hc. rewrite Hsplit. set_solver.
Qed.

Lemma insert_child_is_descendant_witness :
  wp (insert_child (array_slot 1 0) (array_slot 1 3))
     (λ _ k', slots_after (with_slots example_slots initial_kernel) (λ σ',
        chain σ' [array_slot 1 0; array_slot 1 1; array_slot 1 3; array_slot 1 2] ∧
        (slot_core <$> σ')
        = <[array_slot 1 3 := slot_core (initial_slot <| depth := 1 |>)]>
            (slot_core <$> example_slots) ∧
        alias_prefix σ' (example_generic None (Some (array_slot 1 1)))
          [array_slot 1 1; array_slot 1 3; array_slot 1 2] = [array_slot 1 1] ∧
        descendants σ' 0 [array_slot 1 3; array_slot 1 2] = [array_slot 1 3; array_slot 1 2]) k')
     (with_slots example_slots initial_kernel).
Proof.
  apply (insert_child_is_descendant (with_slots example_slots initial_kernel)
           [] (array_slot 1 0) [array_slot 1 1; array_slot 1 2]
           (example_generic None (Some (array_slot 1 1))) (array_slot 1 3) initial_slot);
    try reflexivity; [by repeat split|set_solver|cbn; lia].
Defined.
