(* ===== verification/Hal.v ===== *)
(** The hardware abstraction layer for x86-64, as far as the kernel's core logic
    observes it: message registers and contexts
    (src/src/hal/x86_64/process/process_manager.cpp), the core-local variables
    (src/src/hal/x86_64/arch/cpu.cpp), floating-point contexts
    (src/src/hal/x86_64/include/hal/x86_64/arch/floating_point.hpp) and the
    inter-processor interrupts (src/src/hal/x86_64/interrupt/interrupt.cpp). *)

From S2P Require Import Prelude Word Types Dll Kernel.

(** ** Registers *)

Module register_index.
Definition RAX : Z := 0.
Definition RBX : Z := 1.
Definition RCX : Z := 2.
Definition RDX : Z := 3.
Definition RDI : Z := 4.
Definition RSI : Z := 5.
Definition RBP : Z := 6.
Definition R8 : Z := 7.
Definition R9 : Z := 8.
Definition R10 : Z := 9.
Definition R11 : Z := 10.
Definition R12 : Z := 11.
Definition R13 : Z := 12.
Definition R14 : Z := 13.
Definition R15 : Z := 14.
Definition RIP : Z := 15.
Definition CS : Z := 16.
Definition RFLAGS : Z := 17.
Definition RSP : Z := 18.
Definition SS : Z := 19.
Definition GS_BASE : Z := 20.
Definition FS_BASE : Z := 21.
Definition ENTER_FROM : Z := 22.
End register_index.
Import register_index.

(** [context_entry] *)
Definition ENTRY_NONE : Z := 0.
Definition ENTRY_SYSCALL : Z := 1.
Definition ENTRY_INTERRUPT : Z := 2.

(** [registers[i]] of a [hardware_context]. *)
Definition get_register (regs : list Z) (i : Z) : option Z := regs !! Z.to_nat i.
Definition set_register (i v : Z) (regs : list Z) : list Z := <[Z.to_nat i := v]> regs.

(** The register that carries message register [index]; the others are in the
    IPC buffer. *)
Definition message_register_index (index : Z) : option Z :=
  match index with
  | 0 => Some RDI | 1 => Some RSI | 2 => Some RDX | 3 => Some R8 | 4 => Some R9
  | 5 => Some R10 | 6 => Some R12 | 7 => Some R13 | 8 => Some R14 | 9 => Some R15
  | _ => None
  end.

Definition get_message_register (target_process index : Z) : M (result Z hal_error) :=
  tp ← load processes target_process;
  match message_register_index index with
  | Some r => v ← defined (get_register (registers tp) r); mret (Ok v)
  | None =>
      match buffer tp with
      | None => fail HE_NO_SUCH_ADDRESS
      | Some b =>
          buf ← load ipc_buffers b;
          v ← defined (messages buf !! Z.to_nat index); mret (Ok v)
      end
  end.

(** [target_process.buffer->set_message(index, value)]. *)
Definition set_message (b index value : Z) : M unit :=
  buf ← load ipc_buffers b;
  defined (messages buf !! Z.to_nat index);;
  modify ipc_buffers b (λ buf, buf <| messages ::= <[Z.to_nat index := value]> |>).

Definition configure_message_register (target_process index value : Z) : M hal_result :=
  tp ← load processes target_process;
  match message_register_index index with
  | Some r => modify processes target_process (λ p, p <| registers ::= set_register r value |>);; ok
  | None =>
      match buffer tp with
      | None => fail HE_NO_SUCH_ADDRESS
      | Some b => set_message b index value;; ok
      end
  end.

Definition general_register_index (type : register_type) : Z :=
  match type with
  | RT_INSTRUCTION_POINTER => RIP
  | RT_STACK_POINTER => RSP
  | RT_THREAD_LOCAL_BASE => GS_BASE
  end.

Definition get_general_register (target_process : Z) (type : register_type) : M (result Z hal_error) :=
  tp ← load processes target_process;
  v ← defined (get_register (registers tp) (general_register_index type)); mret (Ok v).

Definition configure_general_register (target_process : Z) (type : register_type) (value : Z)
    : M hal_result :=
  modify processes target_process
    (λ p, p <| registers ::= set_register (general_register_index type) value |>);; ok.

(** Called on a stopped context: the two bytes of [syscall] are executed again. *)
Definition SYSCALL_INSTRUCTION_BYTES : Z := 2.
Definition restart_syscall (target : Z) : M unit :=
  tp ← load processes target;
  rip ← defined (get_register (registers tp) RIP);
  modify processes target
    (λ p, p <| registers ::= set_register RIP (wsub rip SYSCALL_INSTRUCTION_BYTES) |>).

Definition is_valid_user_address (address : Z) : bool :=
  (0 <=? address) && (address <? 0x00007fffffffffff).

(** ** Contexts *)

(** [segment_selector] *)
Definition KERNEL_CS : Z := 0x08.
Definition KERNEL_DS : Z := 0x10.
Definition USER_DS : Z := 0x20.
Definition USER_CS : Z := 0x28.

(** The context [init_hardware_context] writes, and its answer. *)
Definition init_hardware_context (mode : cpu_mode) : list Z * hal_result :=
  let context := replicate (Z.to_nat HARDWARE_CONTEXT_SIZE) 0 in
  match mode with
  | CM_KERNEL =>
      (set_register FS_BASE 0xdeadc0de (set_register SS KERNEL_DS (set_register RSP 0
        (set_register CS KERNEL_CS (set_register RFLAGS 0x202 context)))), Ok tt)
  | CM_USER =>
      (set_register FS_BASE 0xfeedface (set_register SS (Z.lor USER_DS 3) (set_register RSP 0
        (set_register CS (Z.lor USER_CS 3) (set_register RFLAGS 0x202 context)))), Ok tt)
  | _ => (context, Err HE_ILLEGAL_ARGUMENT)
  end.

(** A request to the hardware, in the order they are made. *)
Definition emit (e : hal_event) : M unit := updates (λ k, k <| events ::= λ l, l ++ [e] |>).

Section hal.
Context `{config}.

(** The registers of the core that runs. *)
Definition this_core : M hal_core := c ← reads current_core; load hal_cores c.
Definition modify_core (f : hal_core → hal_core) : M unit :=
  c ← reads current_core; modify hal_cores c f.

Definition configure_floating_context (target : Z) : M hal_result :=
  modify processes target (λ p, p <| floating_registers := initial_floating_context |>);; ok.

(** [xsaveopt64]/[xrstor64] copy the unit's state to and from memory. *)
Definition switch_floating_context (preview_process next_process : Z) : M unit :=
  mask ← reads x_save_mask;
  if mask =? 0 then mret tt
  else
    core ← this_core;
    modify processes preview_process (λ p, p <| floating_registers := floating_unit core |>);;
    np ← load processes next_process;
    modify_core (λ c, c <| floating_unit := floating_registers np |>).

Definition ADDRESS_SPACE_OWNERS_PML4_INDEX : Z := 511.
Definition read_address_space_owners (page_table_address : Z) : M Z :=
  load memory_words (page_table_address + 8 * ADDRESS_SPACE_OWNERS_PML4_INDEX).
Definition write_address_space_owners (page_table_address owners : Z) : M unit :=
  modify memory_words (page_table_address + 8 * ADDRESS_SPACE_OWNERS_PML4_INDEX) (λ _, owners).

Definition switch_context (preview_process next_process : Z) : M hal_result :=
  switch_floating_context preview_process next_process;;
  np ← load processes next_process;
  fs ← defined (get_register (registers np) FS_BASE);
  gs ← defined (get_register (registers np) GS_BASE);
  modify_core (λ c, c <| fs_base := fs |> <| user_gs_base := gs |>);;
  core ← this_core;
  let current_cr3 := cr3 core in
  root ← load slots (process_slot_ref next_process ROOT_ADDRESS_SPACE);
  let next_pml4 := data_0 (data root) in
  if next_pml4 =? 0 then fail HE_NO_SUCH_ADDRESS
  else if current_cr3 =? next_pml4 then ok
  else
    current_owner ← defined (shl 1 (Z.land (core_affinity np) (WORD_BITS - 1)));
    (if SMP_ENABLED then
       owners ← read_address_space_owners next_pml4;
       write_address_space_owners next_pml4 (Z.lor owners current_owner)
     else mret tt);;
    modify_core (λ c, c <| cr3 := next_pml4 |>);;
    (if SMP_ENABLED then
       owners ← read_address_space_owners current_cr3;
       write_address_space_owners current_cr3 (Z.land owners (2 ^ 64 - 1 - current_owner))
     else mret tt);;
    ok.

(** ** Cores *)

(** The core-local variables are named by their index, the address [GS] holds. *)
Definition current_local_variable : M (result Z hal_error) :=
  core ← this_core;
  if negb (fs_gs_base_enabled core) then fail HE_INIT_FIRST
  else match gs_base core with
       | None => fail HE_NO_SUCH_ADDRESS
       | Some local_variable => mret (Ok local_variable)
       end.

Definition current_core_number : M (result Z hal_error) :=
  let? local_variable := current_local_variable in
  lv ← load cpu_local_variables local_variable; mret (Ok (core_number lv)).

Definition core_count : Z := if SMP_ENABLED then expected_core_count else 1.

(** The command is written to the local APIC, which delivers it to the receiving
    core at a later step or lets the wait for its delivery time out. *)
Definition send_ipi (type : ipi_type) (core_number : Z) : M hal_result :=
  if (0 <=? core_number) && (core_number <? CPU_COUNT_MAX) then
    emit (EV_IPI type core_number);;
    mret (ipi_status core_number)
  else undefined.

End hal.

(** * Properties

    Correctness of the message registers: the ten machine registers and
    the IPC buffer form one array of words per process. *)

(** Message register [i] of process [p] holds [v]. *)
Definition readable (k : kernel) (p i v : Z) : Prop := answers (get_message_register p i) k (Ok v).

(** Distinct message registers are distinct machine registers. *)
Lemma message_register_index_inj i j r :
  message_register_index i = Some r → message_register_index j = Some r → i = j.
Proof. unfold message_register_index. repeat case_match; intros; simplify_eq; done. Qed.

Lemma message_register_index_range i r :
  message_register_index i = Some r → 0 ≤ r < HARDWARE_CONTEXT_SIZE ∧ 0 ≤ i.
Proof. unfold message_register_index. repeat case_match; intros; simplify_eq; by vm_compute. Qed.

(** Where a message register lives, and what it holds. *)
Lemma readable_spec k p i v :
  readable k p i v ↔
  ∃ tp, processes k !! p = Some tp ∧
    match message_register_index i with
    | Some r => registers tp !! Z.to_nat r = Some v
    | None => ∃ b buf, buffer tp = Some b ∧ ipc_buffers k !! b = Some buf ∧
                       messages buf !! Z.to_nat i = Some v
    end.
Proof.
  unfold readable, answers, get_message_register, mbind, M_bind, load, defined, get_register,
    mret, M_ret, fail. split.
  - destruct (processes k !! p) as [tp|]; [|done]. intros Hr. exists tp. split; [done|].
    destruct (message_register_index i) as [r|].
    + destruct (registers tp !! Z.to_nat r); naive_solver.
    + destruct (buffer tp) as [b|]; [|done]. destruct (ipc_buffers k !! b) as [buf|] eqn:Hb; [|done].
      destruct (messages buf !! Z.to_nat i) eqn:Hm; naive_solver.
  - intros (tp & -> & Hr). destruct (message_register_index i) as [r|]; [by rewrite Hr|].
    destruct Hr as (b & buf & -> & -> & Hm). by rewrite Hm.
Qed.

(** Two processes with different IPC buffers. *)
Definition separate_buffers (k : kernel) (p q : Z) : Prop :=
  ∀ v w b, processes k !! p = Some v → processes k !! q = Some w →
           buffer v = Some b → buffer w ≠ Some b.

Section configure.
Context (k : kernel) (p i v0 v : Z) (Hi : 0 ≤ i) (Hr : readable k p i v0).

(** The state after the write: one word of the register file or of the buffer. *)
Definition message_written (k' : kernel) : Prop :=
  readable k' p i v ∧
  (∀ j w, 0 ≤ j → j ≠ i → readable k p j w → readable k' p j w) ∧
  (∀ q j w, q ≠ p → separate_buffers k p q → readable k q j w → readable k' q j w) ∧
  k' = k <| processes := processes k' |> <| ipc_buffers := ipc_buffers k' |> ∧
  link_frame (λ x, x <| registers := [] |>) (λ q, q = p) (processes k) (processes k').

Lemma configure_message_register_spec :
  wp (configure_message_register p i v) (λ r k', r = Ok tt ∧ message_written k') k.
Proof.
  apply readable_spec in Hr as (tp & Htp & Hv). unfold configure_message_register. wp_steps.
  destruct (message_register_index i) as [r|] eqn:Hri.
  - wp_steps. split; [done|]. split_and!.
    + apply readable_spec. eexists. split; [lookup_solve|]. rewrite Hri. ksimpl_goal.
      unfold set_register. apply list_lookup_insert_eq. by apply lookup_lt_Some in Hv.
    + intros j w Hj Hne (tp' & Htp' & Hw)%readable_spec. simplify_eq. apply readable_spec.
      eexists. split; [lookup_solve|]. ksimpl_goal.
      destruct (message_register_index j) as [r'|] eqn:Hrj; [|done].
      unfold set_register. rewrite list_lookup_insert_ne; [done|]. intros Heq.
      apply message_register_index_range in Hri as Hr1.
      apply message_register_index_range in Hrj as Hr2.
      apply Hne. apply (message_register_index_inj _ _ r'); [done|]. rewrite Hri. f_equal. lia.
    + intros q j w Hq _ (tp' & Htp' & Hw)%readable_spec. apply readable_spec.
      exists tp'. split; [lookup_solve|]. done.
    + by destruct k.
    + ksimpl_goal. frame_solve; auto.
  - destruct Hv as (b & buf & Hb & Hbuf & Hm). rewrite Hb. unfold set_message. wp_steps.
    split; [done|]. split_and!.
    + apply readable_spec. exists tp. split; [lookup_solve|]. rewrite Hri.
      eexists b, _. split; [done|]. split; [lookup_solve|]. ksimpl_goal.
      apply list_lookup_insert_eq. by apply lookup_lt_Some in Hm.
    + intros j w Hj Hne (tp' & Htp' & Hw)%readable_spec. simplify_eq. apply readable_spec.
      exists tp. split; [lookup_solve|]. destruct (message_register_index j) eqn:Hrj; [done|].
      destruct Hw as (b' & buf' & ? & ? & Hw). assert (b' = b) as -> by congruence. simplify_eq.
      eexists b, _. split; [done|]. split; [lookup_solve|]. ksimpl_goal.
      rewrite list_lookup_insert_ne; [done|lia].
    + intros q j w Hq Hsep (tp' & Htp' & Hw)%readable_spec. apply readable_spec.
      exists tp'. split; [lookup_solve|]. destruct (message_register_index j); [done|].
      destruct Hw as (b' & buf' & Hb' & ? & Hw).
      assert (b ≠ b') by (intros <-; by eapply Hsep).
      eexists b', _. split; [done|]. split; [lookup_solve|]. done.
    + by destruct k.
    + apply link_frame_refl.
Qed.
End configure.

(** A process with registers and a buffer at address 9. *)
Definition example_messages : kernel :=
  initial_kernel
    <| processes := {[1 := initial_process <| buffer := Some 9 |>; 2 := initial_process]} |>
    <| ipc_buffers := {[9 := MkIpcBuffer (replicate 494 7) [] 0 0]} |>.

(** The message registers of a process form an array.  Writing a register
    that can be read, whether a machine register carries it or a word of the IPC
    buffer, succeeds; reading it back gives the value written; every other
    message register, of this process and of every process that does not share
    its buffer, keeps its value, and nothing but the registers of the process and
    the IPC buffers changes. *)
Theorem message_register_roundtrip k p i v0 v :
  0 ≤ i → readable k p i v0 →
  wp (configure_message_register p i v) (λ r k', r = Ok tt ∧ message_written k p i v k') k.
Proof. apply configure_message_register_spec. Qed.

Lemma message_register_roundtrip_witness :
  wp (configure_message_register 1 11 42)
     (λ r k', r = Ok tt ∧ message_written example_messages 1 11 42 k') example_messages ∧
  wp (configure_message_register 2 3 42)
     (λ r k', r = Ok tt ∧ message_written example_messages 2 3 42 k') example_messages.
Proof.
  split.
  - apply (message_register_roundtrip example_messages 1 11 7 42); [lia|reflexivity].
  - apply (message_register_roundtrip example_messages 2 3 0 42); [lia|reflexivity].
Defined.
