(* ===== verification/ProcessManager.v ===== *)
(** The process manager of a core, and the routing of scheduling decisions
    between cores: src/src/kernel/process/process_manager.cpp.

    A process manager is named by the core whose [cpu_local_variable] holds it
    ([c]); [lv] is the index of the local variables an overload takes. *)

From S2P Require Import Prelude Word Types Dll Kernel Scheduler Hal.

Section process_manager.
Context `{config}.

(** [transform_error] on a scheduler's answer. *)
Definition scheduler_to_hal_error (e : scheduler_error) : hal_error := HE_TRY_AGAIN.

Definition current_process_on_this_core : M (result Z kernel_error) :=
  let? local_variable := map_error convert_hal_to_kernel_error current_local_variable in
  lv ← load cpu_local_variables local_variable;
  match current_process lv with
  | None => fail KE_NO_SUCH_ADDRESS
  | Some p => mret (Ok p)
  end.

Definition retrieve_current_process : M (result Z kernel_error) := current_process_on_this_core.

(** The manager is named by its core. *)
Definition current_process_manager : M (result Z kernel_error) :=
  if negb SMP_ENABLED then mret (Ok BSP_ID)
  else map_error convert_hal_to_kernel_error current_local_variable.

Definition idle_process_of (c : Z) : M Z :=
  cpu ← load cpu_local_variables c; mret (idle_process (process_manager_core cpu)).

Definition switch_to_idle (c : Z) : M kernel_result :=
  let? local_variable := map_error convert_hal_to_kernel_error current_local_variable in
  lv ← load cpu_local_variables local_variable;
  if is_idle lv then ok
  else
    idle ← idle_process_of c;
    let previous_process := default idle (current_process lv) in
    let? _ := map_error convert_hal_to_kernel_error (switch_context previous_process idle) in
    modify cpu_local_variables local_variable
      (λ v, v <| current_process := Some idle |> <| is_idle := true |>);;
    ok.

(** [process &preview_process = *local_variable.current_process] and the switch
    to [next_process] every scheduling path ends in. *)
Definition switch_to_process (lv next_process : Z) : M hal_result :=
  v ← load cpu_local_variables lv;
  preview_process ← defined (current_process v);
  modify cpu_local_variables lv
    (λ v, v <| current_process := Some next_process |> <| is_idle := false |>);;
  switch_context preview_process next_process.

(** [process_manager::try_schedule_and_switch(cpu_local_variable &)]. *)
Definition try_schedule_and_switch_on (c lv : Z) : M kernel_result :=
  map_error convert_hal_to_kernel_error
    (or_else
       (let? next_process := map_error scheduler_to_hal_error (schedule c) in
        switch_to_process lv next_process)
       (λ _, map_error (λ _, HE_TRY_AGAIN) (switch_to_idle c))).

Definition try_schedule_and_switch (c : Z) : M kernel_result :=
  let? local_variable := map_error convert_hal_to_kernel_error current_local_variable in
  try_schedule_and_switch_on c local_variable.

Definition try_remote_target_and_switch (c target_process lv : Z) : M kernel_result :=
  tp ← load processes target_process;
  if negb (bool_decide (status tp = PS_READY)) || negb (is_in_ready_queue tp)
  then fail KE_TRY_AGAIN
  else
    remove_result ← remove_process c (Some target_process);
    if negb (is_ok remove_result) then fail KE_UNEXPECTED
    else map_error convert_hal_to_kernel_error (switch_to_process lv target_process).

(** [process_manager::try_direct_schedule_and_switch(process &, cpu_local_variable &)]. *)
Definition try_direct_schedule_and_switch_on (c target_process lv : Z) : M kernel_result :=
  map_error convert_hal_to_kernel_error
    (let? next_process := map_error scheduler_to_hal_error
                            (try_direct_schedule c (Some target_process)) in
     switch_to_process lv next_process).

Definition try_direct_schedule_and_switch (c target_process : Z) : M kernel_result :=
  let? local_variable := map_error convert_hal_to_kernel_error current_local_variable in
  try_direct_schedule_and_switch_on c target_process local_variable.

Definition schedule_if_preempted_by (c target : Z) : M kernel_result :=
  let? current := retrieve_current_process in
  tp ← load processes target;
  cp ← load processes current;
  if priority tp <=? priority cp then ok
  else
    result ← (if decide (status cp = PS_READY)
              then r ← add_process c (Some current); mret (is_ok r)
              else mret true);
    if (result : bool) then try_schedule_and_switch c else fail KE_UNEXPECTED.

(** [process_manager::mark_scheduled(process &)]. *)
Definition mark_scheduled_on (c p : Z) : M kernel_result :=
  modify processes p (λ v, v <| quantum := QUANTUM_MAX |>);;
  idle ← idle_process_of c;
  if decide (p = idle) then modify processes p (λ v, v <| status := PS_IDLE |>);; ok
  else
    modify processes p (λ v, v <| status := PS_READY |>);;
    result ← add_process c (Some p);
    match result with
    | Ok _ => ok
    | Err SE_PROCESS_ALREADY_EXISTS_IN_QUEUE => ok
    | Err _ => fail KE_UNEXPECTED
    end.

Definition mark_suspended (c p : Z) : M kernel_result :=
  result ← remove_process c (Some p);
  match result with
  | Ok _ | Err SE_PROCESS_NOT_IN_QUEUE =>
      modify processes p (λ v, v <| status := PS_BLOCKED_SUSPEND |>);; ok
  | Err _ => fail KE_UNEXPECTED
  end.

Definition yield (c : Z) : M kernel_result :=
  let? local_variable := map_error convert_hal_to_kernel_error current_local_variable in
  lv ← load cpu_local_variables local_variable;
  current ← defined (current_process lv);
  modify processes current (λ v, v <| quantum := QUANTUM_MAX |>);;
  let? _ := mark_scheduled_on c current in
  try_schedule_and_switch c.

(** [quantum] is a signed word; a decrement below its minimum is undefined. *)
Definition decrement_sword (x : Z) : option Z :=
  if x =? - 2 ^ 63 then None else Some (x - 1).

Definition handle_timer (c : Z) : M kernel_result :=
  let? current := retrieve_current_process in
  cp ← load processes current;
  if negb (bool_decide (status cp = PS_READY)) && negb (bool_decide (status cp = PS_IDLE))
  then try_schedule_and_switch c
  else
    q ← defined (decrement_sword (quantum cp));
    modify processes current (λ v, v <| quantum := q |>);;
    if q <=? 0 then
      modify processes current (λ v, v <| quantum := QUANTUM_MAX |>);;
      or_else
        (let? _ := mark_scheduled_on c current in try_schedule_and_switch c)
        (λ _, switch_to_idle c;; ok)
    else ok.

Definition reschedule_core (core_number : Z) : M kernel_result :=
  if SMP_ENABLED
  then map_error convert_hal_to_kernel_error (send_ipi IPI_RESCHEDULE core_number)
  else fail KE_UNEXPECTED.

(** [if (!target_local.pending_reschedule_target) ... = &target]. *)
Definition request_reschedule (target : Z) : M unit :=
  tp ← load processes target;
  modify cpu_local_variables (core_affinity tp)
    (λ v, match pending_reschedule_target v with
          | None => v <| pending_reschedule_target := Some target |>
          | Some _ => v
          end).

(** [route_mark_scheduled<PREEMPT_CURRENT>]. *)
Definition route_mark_scheduled (PREEMPT_CURRENT : bool) (current target : Z) : M kernel_result :=
  if negb SMP_ENABLED && negb PREEMPT_CURRENT then mark_scheduled_on BSP_ID target
  else
    tp ← load processes target;
    let manager := if SMP_ENABLED then core_affinity tp else BSP_ID in
    let? _ := mark_scheduled_on manager target in
    tp ← load processes target;
    cp ← load processes current;
    if SMP_ENABLED && negb (core_affinity tp =? core_affinity cp) then
      request_reschedule target;;
      reschedule_core (core_affinity tp)
    else if PREEMPT_CURRENT then schedule_if_preempted_by manager target
    else ok.

Definition mark_scheduled (current target : Z) : M kernel_result :=
  route_mark_scheduled false current target.
Definition mark_scheduled_with_preemption (current target : Z) : M kernel_result :=
  route_mark_scheduled true current target.

(** The free function [try_schedule_and_switch(process &current)]. *)
Definition schedule_and_switch_from (current : Z) : M kernel_result :=
  if negb SMP_ENABLED then try_schedule_and_switch BSP_ID
  else
    cp ← load processes current;
    try_schedule_and_switch_on (core_affinity cp) (core_affinity cp).

(** The free function [try_direct_schedule_and_switch(process &, process &)]. *)
Definition direct_schedule_and_switch (current target : Z) : M kernel_result :=
  if negb SMP_ENABLED then try_direct_schedule_and_switch BSP_ID target
  else
    cp ← load processes current;
    tp ← load processes target;
    if core_affinity tp =? core_affinity cp
    then try_direct_schedule_and_switch_on (core_affinity cp) target (core_affinity cp)
    else
      let? _ := mark_scheduled_on (core_affinity tp) target in
      request_reschedule target;;
      let? _ := reschedule_core (core_affinity tp) in
      try_schedule_and_switch_on (core_affinity cp) (core_affinity cp).

(** [process_manager::switch_to_user], up to the jump to user mode. *)
Definition switch_to_user (c : Z) : M kernel_result :=
  hal_res ←
    (let? local_variable := current_local_variable in
     result ← schedule c;
     match result with
     | Ok next_process =>
         modify cpu_local_variables local_variable
           (λ v, v <| current_process := Some next_process |>);;
         switch_context next_process next_process;;
         ok
     | Err _ => fail HE_TRY_AGAIN
     end);
  if is_ok hal_res then ok else fail KE_HAL_ERROR.

End process_manager.
