(* ===== verification/ProcessManagerProofs.v ===== *)
(** Correctness of the process manager (ProcessManager.v) on top of the
    scheduler's refinement: context switches, round-robin, preemption. *)

From S2P Require Import Prelude Word Types Dll Kernel Scheduler SchedulerProofs Hal ProcessManager.

(** ** Context switches *)

Section switch.
Context `{config}.

(** A process the processor can be given to: its context has every register and
    its address space is set (and, with several cores, has an owner word). *)
Record runnable (k : kernel) (p : Z) (v : process) (root : capability_slot) (fs gs : Z) : Prop := {
  run_process : processes k !! p = Some v;
  run_fs : get_register (registers v) register_index.FS_BASE = Some fs;
  run_gs : get_register (registers v) register_index.GS_BASE = Some gs;
  run_root : slots k !! process_slot_ref p ROOT_ADDRESS_SPACE = Some root;
  run_pml4 : data_0 (data root) ≠ 0;
}.

(** The floating-point state apart, a process. *)
Definition float_core (v : process) : process := v <| floating_registers := [] |>.

(** The state after the switch from [prev] to the process [next] that is [v]:
    only the saved floating-point state of [prev], the registers of this core and
    the owner words of the address spaces changed. *)
Record context_switched (prev next : Z) (root fs gs : Z) (c : hal_core) (k k' : kernel) : Prop := {
  switched_only : k' = k <| processes := processes k' |> <| hal_cores := hal_cores k' |>
                         <| memory_words := memory_words k' |>;
  switched_frame : link_frame float_core (λ q, q = prev) (processes k) (processes k');
  switched_core : ∃ unit, hal_cores k' !! current_core k
    = Some (c <| fs_base := fs |> <| user_gs_base := gs |> <| cr3 := root |> <| floating_unit := unit |>)
    ∧ (x_save_mask k ≠ 0 →
       (∃ pv, processes k' !! prev = Some pv ∧ floating_registers pv = floating_unit c) ∧
       (∃ nv, processes k' !! next = Some nv ∧ floating_registers nv = unit))
    ∧ (x_save_mask k = 0 → unit = floating_unit c);
}.

Definition one_core : Prop := SMP_ENABLED = false.

Lemma switch_floating_context_spec k prev next pv nv c Q :
  hal_cores k !! current_core k = Some c →
  processes k !! prev = Some pv → processes k !! next = Some nv →
  (∀ ps unit, link_frame float_core (λ q, q = prev) (processes k) ps →
     (x_save_mask k ≠ 0 →
       (∃ pv, ps !! prev = Some pv ∧ floating_registers pv = floating_unit c) ∧
       (∃ nv, ps !! next = Some nv ∧ floating_registers nv = unit)) →
     (x_save_mask k = 0 → unit = floating_unit c) →
     Q tt (k <| processes := ps |>
             <| hal_cores := <[current_core k := c <| floating_unit := unit |>]> (hal_cores k) |>)) →
  wp (switch_floating_context prev next) Q k.
Proof.
  intros Hc Hp Hn HQ. unfold switch_floating_context, this_core, modify_core. wp_steps.
  destruct (Z.eqb_spec (x_save_mask k) 0) as [Hm|Hm].
  - wp_steps. specialize (HQ (processes k) (floating_unit c)).
    replace k with (k <| processes := processes k |>
      <| hal_cores := <[current_core k := c <| floating_unit := floating_unit c |>]> (hal_cores k) |>).
    { apply HQ; [apply link_frame_refl|done|done]. }
    replace (c <| floating_unit := floating_unit c |>) with c by by destruct c.
    rewrite insert_id by done. by destruct k.
  - wp_steps. destruct (decide (prev = next)) as [->|Hne].
    + assert (pv = nv) as -> by congruence. clear Hp. wp_steps. apply HQ; [frame_solve; auto| |done].
      intros _. split; eexists; (split; [lookup_solve|done]).
    + wp_steps. apply HQ; [frame_solve; auto| |done].
      intros _. split; eexists; (split; [lookup_solve|done]).
Qed.

(** The switch of a uniprocessor. *)
Lemma switch_context_spec k prev next pv nv root fs gs c :
  one_core → hal_cores k !! current_core k = Some c →
  processes k !! prev = Some pv → runnable k next nv root fs gs →
  wp (switch_context prev next)
     (λ r k', r = Ok tt ∧ context_switched prev next (data_0 (data root)) fs gs c k k') k.
Proof.
  intros Hone Hc Hp [Hn Hfs Hgs Hroot Hpml4]. unfold switch_context. wp_head.
  eapply switch_floating_context_spec; [done..|]. intros ps unit Hf Hm1 Hm2.
  destruct (link_frame_lookup _ _ _ _ _ Hf Hn) as (nv' & Hn' & Hcore).
  assert (registers nv' = registers nv ∧ core_affinity nv' = core_affinity nv) as [Hregs Haff]
    by (split; [exact (f_equal registers Hcore)|exact (f_equal core_affinity Hcore)]).
  unfold modify_core, this_core. wp_steps. rewrite Hregs. wp_steps.
  rewrite (proj2 (Z.eqb_neq _ 0)) by done.
  assert (Hgo : ∀ k', k' = k <| processes := ps |> <| hal_cores := hal_cores k' |> →
    hal_cores k' !! current_core k = Some (c <| fs_base := fs |> <| user_gs_base := gs |>
       <| cr3 := data_0 (data root) |> <| floating_unit := unit |>) →
    context_switched prev next (data_0 (data root)) fs gs c k k').
  { intros k' Hk Hhc. split.
    - rewrite Hk. by destruct k.
    - by rewrite Hk.
    - exists unit. split_and!; [done| |done]. rewrite Hk. done. }
  case_match eqn:Hcr3; bool_to_prop.
  - wp_steps. split; [done|]. apply Hgo; [by destruct k|]. ksimpl_goal.
    rewrite lookup_insert_eq, <- Hcr3. by destruct c.
  - rewrite Haff. wp_head. eapply wp_defined.
    { apply shl_1. change (WORD_BITS - 1) with (Z.ones 6). rewrite Z.land_ones by lia.
      pose proof (Z.mod_pos_bound (core_affinity nv) (2 ^ 6)). lia. }
    rewrite Hone. wp_steps. split; [done|]. apply Hgo; [by destruct k|]. ksimpl_goal.
    rewrite lookup_insert_eq. by destruct c.
Qed.
End switch.

(** ** What the ready queues see of a process *)

Definition sched_view (v : process) : option Z * option Z * Z * bool * process_status :=
  (preview v, next v, priority v, is_in_ready_queue v, status v).

Lemma sched_repr_view s ps ps' qs :
  sched_view <$> ps' = sched_view <$> ps → sched_repr s ps qs → sched_repr s ps' qs.
Proof.
  intros Heq [H1 H2 H3 H4 H5 H6].
  assert (Hv : ∀ p v, ps !! p = Some v → ∃ v', ps' !! p = Some v' ∧ sched_view v' = sched_view v).
  { intros p v Hp. apply (f_equal (.!! p)) in Heq. rewrite !lookup_fmap, Hp in Heq.
    destruct (ps' !! p) as [v'|]; [|done]. exists v'. split; [done|].
    change (Some (sched_view v') = Some (sched_view v)) in Heq. congruence. }
  split; try done.
  - intros i. eapply dlist_ext; [|apply H2]. intros y (v & Hy & _)%H3.
    destruct (Hv y v Hy) as (v' & Hy' & He). unfold heap_links. rewrite Hy, Hy'. cbn.
    injection He. by intros _ _ _ -> ->.
  - intros i p (v & Hp & Hq)%H3. destruct (Hv p v Hp) as (v' & Hp' & He). exists v'. split; [done|].
    unfold queued in *. injection He. by intros -> -> -> _ _.
Qed.

(** A change of other fields does not reach the queues. *)
Lemma fmap_view {A B} (core : process → A) (view : A → B) (f : process → B) ps ps' :
  (∀ v, f v = view (core v)) → core <$> ps' = core <$> ps → f <$> ps' = (f <$> ps : gmap Z B).
Proof.
  intros Hf Hc. rewrite !(map_fmap_ext f (view ∘ core)) by (intros; apply Hf).
  by rewrite !map_fmap_compose, Hc.
Qed.

Lemma sched_repr_float T s ps ps' qs :
  link_frame float_core T ps ps' → sched_repr s ps qs → sched_repr s ps' qs.
Proof.
  intros [Hc _]. apply sched_repr_view. by eapply (fmap_view float_core sched_view).
Qed.

(** ** The switch to the process the scheduler picks *)

(** A process without what scheduling changes. *)
Definition context_core (v : process) : process :=
  v <| preview := None |> <| next := None |> <| is_in_ready_queue := false |>
    <| floating_registers := [] |>.

(** The core [c] whose local variables the running core names, with the process it
    runs and its saved context. *)
Record on_cpu (c : Z) (k : kernel) (cpu : cpu_local_variable) (hc : hal_core) (current : Z) : Prop := {
  cpu_local : cpu_local_variables k !! c = Some cpu;
  cpu_current : current_process cpu = Some current;
  cpu_core : hal_cores k !! current_core k = Some hc;
  cpu_gs_enabled : fs_gs_base_enabled hc = true;
  cpu_gs : gs_base hc = Some c;
}.

Definition idle_of (c : Z) (k : kernel) : option Z :=
  (λ cpu, idle_process (process_manager_core cpu)) <$> cpu_local_variables k !! c.

(** [k'] is [k] with the processor given to [p], and the ready queues [qs']. *)
Record dispatched (c p root fs gs : Z) (idle : bool) (qs' : ready_queues) (k k' : kernel) : Prop := {
  disp_only : k' = k <| processes := processes k' |> <| cpu_local_variables := cpu_local_variables k' |>
                     <| hal_cores := hal_cores k' |> <| memory_words := memory_words k' |>;
  disp_cpu : ∃ cpu' hc', on_cpu c k' cpu' hc' p ∧ is_idle cpu' = idle ∧
               cr3 hc' = root ∧ fs_base hc' = fs ∧ user_gs_base hc' = gs;
  disp_processes : context_core <$> processes k' = context_core <$> processes k;
  disp_queues : sched_inv c k' qs';
  disp_unlinked : idle = false → dequeued p (processes k');
  disp_idle : idle_of c k' = idle_of c k;
}.

Lemma current_local_variable_spec c k cpu hc current Q :
  on_cpu c k cpu hc current → Q (Ok c) k → wp current_local_variable Q k.
Proof.
  intros [_ _ Hhc He Hg] HQ. unfold current_local_variable, this_core. wp_steps.
  rewrite He, Hg. by wp_steps.
Qed.

Section dispatch.
Context `{config} (Hone : one_core).

(** The scheduler's own operations keep what a switch needs. *)
Lemma sched_after_on_cpu c k qs T P k1 cpu hc prev :
  sched_after c k (processes k) qs T P k1 → on_cpu c k cpu hc prev →
  ∃ cpu1, on_cpu c k1 cpu1 hc prev ∧ is_idle cpu1 = is_idle cpu ∧
          idle_process (process_manager_core cpu1) = idle_process (process_manager_core cpu).
Proof.
  intros (s1 & ps1 & -> & _) [H1 H2 H3 H4 H5]. eexists. split; [|split].
  - split; [by apply with_sched_cpu|done..].
  - done.
  - done.
Qed.

Lemma sched_after_runnable c k qs T P k1 p v root fs gs :
  sched_after c k (processes k) qs T P k1 → runnable k p v root fs gs →
  ∃ v1, runnable k1 p v1 root fs gs ∧ ready_core v1 = ready_core v.
Proof.
  intros (s1 & ps1 & -> & _ & Hf & _) [H1 H2 H3 H4 H5].
  destruct (link_frame_lookup _ _ _ _ _ Hf H1) as (v1 & Hv1 & Hc). exists v1. split; [|done].
  pose proof (f_equal registers Hc) as Hr. change (registers v1 = registers v) in Hr.
  split; [done|by rewrite Hr..|done|done].
Qed.

Lemma dispatched_after c k qs T P k1 p root fs gs idle qs' k' :
  sched_after c k (processes k) qs T P k1 → dispatched c p root fs gs idle qs' k1 k' →
  dispatched c p root fs gs idle qs' k k'.
Proof.
  intros (s1 & ps1 & -> & _ & [Hf _] & _) [H1 H2 H3 H4 H5 H6]. split; try done.
  - rewrite H3. by eapply (fmap_view ready_core context_core).
  - rewrite H6. unfold idle_of, with_sched. ksimpl_goal.
    rewrite lookup_alter_eq. by destruct (cpu_local_variables k !! c).
Qed.

Lemma dequeued_float T p ps ps' : link_frame float_core T ps ps' → dequeued p ps → dequeued p ps'.
Proof.
  intros Hf (v & Hv & H1 & H2 & H3). destruct (link_frame_lookup _ _ _ _ _ Hf Hv) as (v' & Hv' & Hc).
  exists v'. split; [done|]. split_and!.
  - exact (eq_trans (f_equal is_in_ready_queue Hc) H1).
  - exact (eq_trans (f_equal next Hc) H2).
  - exact (eq_trans (f_equal preview Hc) H3).
Qed.

Lemma switch_to_process_spec c k qs cpu hc prev p v root fs gs :
  on_cpu c k cpu hc prev → is_Some (processes k !! prev) → runnable k p v root fs gs →
  sched_inv c k qs → dequeued p (processes k) →
  wp (switch_to_process c p)
     (λ r k', r = Ok tt ∧ dispatched c p (data_0 (data root)) fs gs false qs k k') k.
Proof.
  intros [Hcpu Hcur Hhc He Hg] [pv Hprev] [H1 H2 H3 H4 H5] (cpu' & Hcpu' & Hr) Hun.
  assert (cpu' = cpu) as -> by congruence. unfold switch_to_process. wp_steps.
  eapply wp_mono; [|eapply switch_context_spec; [done|done|exact Hprev|by split]].
  intros r k' [-> [Hk' Hfr (unit & Hhc' & _)]]. split; [done|]. rewrite Hk' in *. ksimpl. split.
  - by destruct k.
  - eexists _, _. split; [split|]; ksimpl_goal; [lookup_solve|done|done|done|done|done].
  - ksimpl_goal. eapply (fmap_view float_core context_core); [done|by apply Hfr].
  - eexists. split; [lookup_solve|]. ksimpl_goal. by eapply sched_repr_float.
  - intros _. ksimpl_goal. by eapply dequeued_float.
  - unfold idle_of. ksimpl_goal. by rewrite lookup_insert_eq, Hcpu.
Qed.

(** Who runs next, whether it is the IDLE process, and the queues it leaves. *)
Definition next_to_run (idle : Z) (qs : ready_queues) : Z * bool * ready_queues :=
  match abs_schedule qs with
  | Some (i, p, l) => (p, false, update_queue i l qs)
  | None => (idle, true, qs)
  end.

(** The state after the core [c] was rescheduled: nothing, when there is no ready
    process and the core is idle already. *)
Definition rescheduled (c : Z) (cpu : cpu_local_variable) (root fs gs : Z) (qs : ready_queues)
    (k k' : kernel) : Prop :=
  let '(p, idle, qs') := next_to_run (idle_process (process_manager_core cpu)) qs in
  if idle && is_idle cpu then k' = k else dispatched c p root fs gs idle qs' k k'.

Lemma switch_to_idle_spec c k qs cpu hc prev v root fs gs :
  on_cpu c k cpu hc prev → is_Some (processes k !! prev) → sched_inv c k qs →
  let idle := idle_process (process_manager_core cpu) in
  runnable k idle v root fs gs →
  wp (switch_to_idle c)
     (λ r k', r = Ok tt ∧
        if is_idle cpu then k' = k
        else dispatched c idle (data_0 (data root)) fs gs true qs k k') k.
Proof.
  intros Hon [pv Hprev] (cpu' & Hcpu' & Hr) idle Hrun. pose proof Hon as [Hcpu Hcur Hhc He Hg].
  assert (cpu' = cpu) as -> by congruence. unfold switch_to_idle, idle_process_of.
  wp_head. wp_head. eapply current_local_variable_spec; [done|]. cbn [transform_error]. wp_steps.
  destruct (is_idle cpu) eqn:Hi; [by wp_steps|]. wp_steps. rewrite Hcur. cbn [default].
  eapply wp_mono; [|eapply switch_context_spec; [done|done|exact Hprev|exact Hrun]].
  intros r k' [-> [Hk' Hfr (unit & Hhc' & _)]]. cbn [transform_error].
  rewrite Hk' in *. ksimpl. wp_steps. split; [done|]. split.
  - by destruct k.
  - eexists _, _. split; [split|]; ksimpl_goal; [lookup_solve|done|done|done|done|done].
  - ksimpl_goal. eapply (fmap_view float_core context_core); [done|by apply Hfr].
  - eexists. split; [lookup_solve|]. ksimpl_goal. by eapply sched_repr_float.
  - done.
  - unfold idle_of. ksimpl_goal. by rewrite lookup_insert_eq, Hcpu.
Qed.

Lemma try_schedule_and_switch_on_spec c k qs cpu hc prev v root fs gs :
  on_cpu c k cpu hc prev → is_Some (processes k !! prev) → sched_inv c k qs →
  runnable k (next_to_run (idle_process (process_manager_core cpu)) qs).1.1 v root fs gs →
  wp (try_schedule_and_switch_on c c)
     (λ r k', r = Ok tt ∧ rescheduled c cpu (data_0 (data root)) fs gs qs k k') k.
Proof.
  intros Hon [pv Hprev] Hinv Hrun. unfold try_schedule_and_switch_on, rescheduled.
  wp_head. wp_head. wp_head. wp_head. eapply wp_mono; [|by apply schedule_spec].
  intros r k1. unfold next_to_run in *. destruct (abs_schedule qs) as [[[i p] l]|]; intros [-> Hk1].
  - cbn [transform_error andb fst] in *.
    destruct (sched_after_on_cpu _ _ _ _ _ _ _ _ _ Hk1 Hon) as (cpu1 & Hon1 & _ & _).
    destruct (sched_after_runnable _ _ _ _ _ _ _ _ _ _ _ Hk1 Hrun) as (v1 & Hrun1 & _).
    eapply wp_mono; [|eapply (switch_to_process_spec c k1); [done| |done| |]].
    + intros r k' [-> Hd]. split; [done|]. by eapply dispatched_after.
    + destruct Hk1 as (s1 & ps1 & -> & _ & Hf & _).
      by destruct (link_frame_lookup _ _ _ _ _ Hf Hprev) as (v' & Hv' & _); eexists.
    + destruct Hon as [Hc _ _ _ _]. eapply sched_after_inv; [by eexists|done].
    + by destruct Hk1 as (s1 & ps1 & -> & _ & _ & Hun).
  - subst. cbn [transform_error andb fst] in *. wp_head.
    eapply wp_mono; [|by eapply switch_to_idle_spec]. intros r k' [-> Hd]. done.
Qed.

Lemma try_schedule_and_switch_spec c k qs cpu hc prev v root fs gs :
  on_cpu c k cpu hc prev → is_Some (processes k !! prev) → sched_inv c k qs →
  runnable k (next_to_run (idle_process (process_manager_core cpu)) qs).1.1 v root fs gs →
  wp (try_schedule_and_switch c)
     (λ r k', r = Ok tt ∧ rescheduled c cpu (data_0 (data root)) fs gs qs k k') k.
Proof.
  intros Hon Hprev Hinv Hrun. unfold try_schedule_and_switch. wp_head. wp_head.
  eapply current_local_variable_spec; [done|]. by eapply try_schedule_and_switch_on_spec.
Qed.

(** ** Making a process ready *)

Definition readied (v : process) : process := v <| quantum := QUANTUM_MAX |> <| status := PS_READY |>.

(** A process that is either in a ready queue or in none and unlinked. *)
Definition sched_consistent (qs : ready_queues) (p : Z) (v : process) : Prop :=
  if is_in_ready_queue v then in_queues qs p else next v = None ∧ preview v = None.

(** The queues once [p] is ready: appended, unless it waits there already. *)
Definition ready_queues_with (qs : ready_queues) (p : Z) (v : process) : ready_queues :=
  if is_in_ready_queue v then qs else update_queue (priority v) (qs (priority v) ++ [p]) qs.

Definition made_ready (c p : Z) (v : process) (qs : ready_queues) (k k' : kernel) : Prop :=
  sched_after c k (<[p := readied v]> (processes k)) (ready_queues_with qs p v)
    (λ q, q = p ∨ in_queues qs q) (enqueued p) k'.

Lemma sched_inv_insert c k qs p v w :
  sched_inv c k qs → processes k !! p = Some v → sched_view w = sched_view v ∨ is_in_ready_queue v = false →
  sched_inv c (k <| processes ::= <[p := w]> |>) qs.
Proof.
  intros (cpu & Hc & Hr) Hp Hor. exists cpu. split; [done|].
  change (sched_repr (scheduler_core (process_manager_core cpu)) (<[p := w]> (processes k)) qs).
  destruct Hor as [Hv|Hv].
  - eapply sched_repr_view; [|exact Hr]. rewrite fmap_insert, Hv. apply insert_id.
    by rewrite lookup_fmap, Hp.
  - assert (Hout : ∀ i q, q ∈ qs i → <[p := w]> (processes k) !! q = processes k !! q).
    { intros i q Hq. apply lookup_insert_ne. intros <-.
      pose proof (queued_flag _ _ _ _ _ _ Hr Hq Hp). congruence. }
    destruct Hr as [H1 H2 H3 H4 H5 H6]. split; try done.
    + intros i. eapply dlist_ext; [|apply H2]. intros y Hy. unfold heap_links. by erewrite Hout.
    + intros i q Hq. erewrite Hout by done. by apply H3.
Qed.

Lemma queued_status c k qs p v :
  sched_inv c k qs → in_queues qs p → processes k !! p = Some v → status v = PS_READY.
Proof.
  intros (cpu & _ & Hr) [i Hi] Hp. destruct (repr_members _ _ _ Hr i p Hi) as (w & Hw & _ & _ & Hs).
  congruence.
Qed.

Lemma mark_scheduled_on_spec c k qs cpu p v :
  cpu_local_variables k !! c = Some cpu → sched_inv c k qs → processes k !! p = Some v →
  p ≠ idle_process (process_manager_core cpu) → 0 ≤ priority v < PRIORITY_MAX →
  sched_consistent qs p v →
  wp (mark_scheduled_on c p) (λ r k', r = Ok tt ∧ made_ready c p v qs k k') k.
Proof.
  intros Hcpu Hinv Hp Hidle Hprio Hcons. unfold mark_scheduled_on, idle_process_of. wp_steps.
  rewrite decide_False by done. wp_steps. ksimpl_goal. rewrite ?insert_insert_eq.
  set (k1 := k <| processes := <[p := readied v]> (processes k) |>).
  assert (Hk1 : sched_inv c k1 qs).
  { eapply sched_inv_insert; [done..|]. unfold sched_consistent in Hcons.
    destruct (is_in_ready_queue v) eqn:Hq; [left|by right].
    unfold sched_view. ksimpl_goal. by rewrite (queued_status c k qs p v). }
  match goal with |- wp _ _ ?s => replace s with k1 end.
  2:{ unfold k1. destruct k. cbv [upd]. ksimpl_goal. by rewrite insert_insert_eq. }
  eapply wp_mono; [|eapply (add_process_spec c k1 qs p (readied v)); [done|apply lookup_insert_eq]].
  intros r k'. unfold add_process_error, made_ready, ready_queues_with, sched_consistent in *. ksimpl_goal.
  rewrite decide_False by naive_solver.
  change (priority (readied v)) with (priority v). change (next (readied v)) with (next v).
  change (preview (readied v)) with (preview v).
  change (is_in_ready_queue (readied v)) with (is_in_ready_queue v).
  rewrite (proj2 (Z.ltb_ge (priority v) 0)), (proj2 (Z.leb_gt PRIORITY_MAX (priority v))) by lia. cbn [orb].
  destruct (is_in_ready_queue v) eqn:Hq; cbn [orb].
  - intros [-> ->]. wp_steps. split; [done|]. destruct Hk1 as (cpu1 & Hc1 & Hr1).
    exists (scheduler_core (process_manager_core cpu1)), (processes k1). split_and!; try done.
    + unfold k1 in *. rewrite (with_sched_id c _ cpu1 Hc1) at 1. by destruct k.
    + exists (readied v). split; [apply lookup_insert_eq|done].
  - destruct Hcons as [-> ->]. rewrite !bool_decide_eq_false_2 by (by intros []). cbn [orb].
    intros [-> (s' & ps' & -> & Hrest)]. wp_steps. split; [done|].
    exists s', ps'. split; [by destruct k|done].
Qed.

(** ** Round robin *)

(** [p] goes to the end of its queue and the processor to the first process of
    the highest one, [next]. *)
Definition requeued (c p next : Z) (v : process) (root fs gs : Z) (qs qs' : ready_queues)
    (k k' : kernel) : Prop :=
  next_to_run 0 (ready_queues_with qs p v) = (next, false, qs') ∧
  dispatched c next root fs gs false qs' (k <| processes ::= <[p := readied v]> |>) k'.

Section requeue.
Context (c : Z) (k : kernel) (qs : ready_queues) (cpu : cpu_local_variable) (hc : hal_core).
Context (current : Z) (v : process) (next : Z) (nv : process) (root : capability_slot) (fs gs : Z).
Context (qs' : ready_queues).
Hypothesis (Hon : on_cpu c k cpu hc current) (Hinv : sched_inv c k qs).
Hypothesis (Hv : processes k !! current = Some v).
Hypothesis (Hidle : current ≠ idle_process (process_manager_core cpu)).
Hypothesis (Hprio : 0 ≤ priority v < PRIORITY_MAX) (Hcons : sched_consistent qs current v).
Hypothesis (Hnext : next_to_run 0 (ready_queues_with qs current v) = (next, false, qs')).
Hypothesis (Hrun : runnable k next nv root fs gs).

Lemma requeue_and_switch :
  wp (let? _ := mark_scheduled_on c current in try_schedule_and_switch c)
     (λ r k', r = Ok tt ∧ requeued c current next v (data_0 (data root)) fs gs qs qs' k k') k.
Proof.
  pose proof Hon as [Hcpu _ _ _ _]. wp_head.
  eapply wp_mono; [|by eapply mark_scheduled_on_spec]. intros r k2 [-> Hm]. unfold made_ready in Hm.
  set (k1 := k <| processes ::= <[current := readied v]> |>).
  assert (Hm1 : sched_after c k1 (processes k1) (ready_queues_with qs current v)
                  (λ q, q = current ∨ in_queues qs q) (enqueued current) k2).
  { destruct Hm as (s & ps & -> & Hrest). exists s, ps. split; [by destruct k|done]. }
  assert (Hon1 : on_cpu c k1 cpu hc current) by by destruct Hon.
  assert (Hrun1 : ∃ nv1, runnable k1 next nv1 root fs gs).
  { destruct Hrun as [H1 H2 H3 H4 H5]. destruct (decide (next = current)) as [->|Hne].
    - assert (nv = v) as -> by congruence. exists (readied v). split; try done. apply lookup_insert_eq.
    - exists nv. split; try done.
      change (<[current := readied v]> (processes k) !! next = Some nv). by rewrite lookup_insert_ne. }
  destruct Hrun1 as [nv1 Hrun1].
  destruct (sched_after_on_cpu _ _ _ _ _ _ _ _ _ Hm1 Hon1) as (cpu2 & Hon2 & _ & Hidle2).
  destruct (sched_after_runnable _ _ _ _ _ _ _ _ _ _ _ Hm1 Hrun1) as (nv2 & Hrun2 & _).
  assert (Hnext2 : ∀ idle, next_to_run idle (ready_queues_with qs current v) = (next, false, qs')).
  { intros idle. revert Hnext. unfold next_to_run. by destruct (abs_schedule _) as [[[] ]|]. }
  eapply wp_mono; [|eapply (try_schedule_and_switch_spec c k2);
                    [done| |eapply sched_after_inv; [|exact Hm1]|by rewrite Hnext2]].
  - intros r k' [-> Hd]. split; [done|]. split; [done|]. unfold rescheduled in Hd.
    rewrite Hnext2 in Hd. cbn [andb] in Hd. by eapply dispatched_after.
  - destruct Hm1 as (s & ps & -> & _ & _ & (w & Hw & _)). by exists w.
  - by eexists.
Qed.
End requeue.

End dispatch.

Lemma handle_timer_spec `{config} c k qs cpu hc current v next nv root fs gs qs' :
  one_core → on_cpu c k cpu hc current → sched_inv c k qs → processes k !! current = Some v →
  current ≠ idle_process (process_manager_core cpu) → status v = PS_READY →
  0 ≤ priority v < PRIORITY_MAX → sched_consistent qs current v → - 2 ^ 63 < quantum v →
  next_to_run 0 (ready_queues_with qs current v) = (next, false, qs') →
  runnable k next nv root fs gs →
  wp (handle_timer c)
     (λ r k', r = Ok tt ∧
        if 1 <? quantum v then k' = k <| processes ::= <[current := v <| quantum ::= Z.pred |>]> |>
        else requeued c current next v (data_0 (data root)) fs gs qs qs' k k') k.
Proof.
  intros Hone Hon Hinv Hv Hidle Hst Hprio Hcons Hq Hnext Hrun. pose proof Hon as [Hcpu Hcur Hhc He Hg].
  unfold handle_timer, retrieve_current_process, current_process_on_this_core. wp_head. wp_head. wp_head.
  eapply current_local_variable_spec; [done|]. cbn [transform_error]. wp_steps. rewrite Hcur. wp_steps.
  rewrite Hst. cbn [bool_decide negb andb]. rewrite bool_decide_eq_true_2 by done. cbn [negb andb].
  wp_head. eapply wp_defined.
  { unfold decrement_sword. rewrite (proj2 (Z.eqb_neq _ _)) by lia. done. }
  wp_steps. rewrite Z.leb_antisym. destruct (Z.ltb_spec 1 (quantum v)) as [Hlt|Hge].
  { rewrite (proj2 (Z.ltb_lt _ _)) by lia. wp_steps. done. }
  rewrite (proj2 (Z.ltb_ge _ _)) by lia. cbn [negb]. do 3 wp_step.
  match goal with |- wp _ _ ?s => replace s with (k <| processes ::= <[current := v <| quantum := QUANTUM_MAX |>]> |>) end.
  2:{ destruct k. cbv [upd]. ksimpl_goal. by rewrite insert_insert_eq. }
  set (k1 := k <| processes ::= _ |>).
  assert (Hrun1 : ∃ nv1, runnable k1 next nv1 root fs gs).
  { destruct Hrun as [H1 H2 H3 H4 H5]. destruct (decide (next = current)) as [->|Hne].
    - assert (nv = v) as -> by congruence. eexists. split; [apply lookup_insert_eq|done..].
    - exists nv. split; try done. unfold k1. by lookup_solve. }
  destruct Hrun1 as [nv1 Hrun1].
  eapply wp_mono; [|eapply (requeue_and_switch Hone c k1 qs cpu hc current (v <| quantum := QUANTUM_MAX |>)); try done].
  - intros r k' [-> [Hn Hd]]. wp_steps. split; [done|]. split; [done|].
    replace (k <| processes ::= <[current := readied v]> |>)
      with (k1 <| processes ::= <[current := readied (v <| quantum := QUANTUM_MAX |>)]> |>); [done|].
    unfold k1. destruct k. cbv [upd]. ksimpl_goal. by rewrite insert_insert_eq.
  - eapply sched_inv_insert; [done..|]. by left.
  - apply lookup_insert_eq.
Qed.

(** ** Properties *)

(** A context switch of a uniprocessor succeeds, saves the floating-point state
    of the process that ran and loads that of the next one (when the processor
    has any), loads the thread bases and the page table of the next process,
    and changes nothing else. *)
Theorem switch_context_loads `{config} k prev next pv nv root fs gs c :
  one_core → hal_cores k !! current_core k = Some c →
  processes k !! prev = Some pv → runnable k next nv root fs gs →
  wp (switch_context prev next)
     (λ r k', r = Ok tt ∧ context_switched prev next (data_0 (data root)) fs gs c k k') k.
Proof. apply switch_context_spec. Qed.

(** C27: rescheduling a core gives the processor to the first process of the highest
    non-empty ready queue, which leaves the queue; with all queues empty it goes
    to the IDLE process, unless it is there already.  The process that runs is
    the one the core's local variables name, its page table and thread bases are
    loaded, and of the other processes only the ready-queue links and the saved
    floating-point state change. *)
Theorem reschedule_runs_highest `{config} c k qs cpu hc prev v root fs gs :
  one_core → on_cpu c k cpu hc prev → is_Some (processes k !! prev) → sched_inv c k qs →
  runnable k (next_to_run (idle_process (process_manager_core cpu)) qs).1.1 v root fs gs →
  wp (try_schedule_and_switch c)
     (λ r k', r = Ok tt ∧ rescheduled c cpu (data_0 (data root)) fs gs qs k k') k.
Proof. intros. by eapply try_schedule_and_switch_spec. Qed.

(** The timer is round robin.  A tick takes one unit of the quantum of the
    running process; when none is left the quantum is refilled, the process goes
    to the end of the queue of its priority and the processor to the first
    process of the highest queue. *)
Theorem handle_timer_round_robin `{config} c k qs cpu hc current v next nv root fs gs qs' :
  one_core → on_cpu c k cpu hc current → sched_inv c k qs → processes k !! current = Some v →
  current ≠ idle_process (process_manager_core cpu) → status v = PS_READY →
  0 ≤ priority v < PRIORITY_MAX → sched_consistent qs current v → - 2 ^ 63 < quantum v →
  next_to_run 0 (ready_queues_with qs current v) = (next, false, qs') →
  runnable k next nv root fs gs →
  wp (handle_timer c)
     (λ r k', r = Ok tt ∧
        if 1 <? quantum v then k' = k <| processes ::= <[current := v <| quantum ::= Z.pred |>]> |>
        else requeued c current next v (data_0 (data root)) fs gs qs qs' k k') k.
Proof. apply handle_timer_spec. Qed.

Section example.
#[local] Existing Instance example_config.

(** The core of [example_kernel] running process 3, whose quantum is [q]; every
    process has an address space. *)
Definition example_space (p : Z) : capability_slot :=
  initial_slot <| component := Some C_ADDRESS_SPACE |> <| type := CT_ADDRESS_SPACE |>
    <| data := SlotData (0x1000 * (p + 1)) 4 0 |>.
Definition example_core : hal_core := MkHalCore 0x4000 0 0 true (Some 0) [7].
Definition example_cpu (current : Z) : cpu_local_variable :=
  MkCpu (Some current) 0 (MkProcessManager 0 example_scheduler) false None.
Definition example_machine (q : Z) : kernel :=
  initial_kernel
    <| processes := <[0 := initial_process]> (<[3 := (ready_process 5 None None false) <| quantum := q |>]> example_processes) |>
    <| cpu_local_variables := {[0 := example_cpu 3]} |>
    <| slots := {[process_slot_ref 0 ROOT_ADDRESS_SPACE := example_space 0;
                  process_slot_ref 1 ROOT_ADDRESS_SPACE := example_space 1;
                  process_slot_ref 2 ROOT_ADDRESS_SPACE := example_space 2;
                  process_slot_ref 3 ROOT_ADDRESS_SPACE := example_space 3]} |>
    <| hal_cores := {[0 := example_core]} |> <| x_save_mask := 7 |>.

Lemma example_machine_inv q : sched_inv 0 (example_machine q) example_queues.
Proof.
  eexists. split; [reflexivity|].
  apply (sched_repr_update initial_scheduler (processes (example_machine q)) (λ _, [])); try done.
  - apply sched_repr_initial.
  - intros p Hp. assert (p = 1 ∨ p = 2) as [->| ->] by set_solver; by eexists.
  - intros j. unfold update_queue. case_decide; [subst; intros; cbn; unfold PRIORITY_MAX; lia|done].
Qed.

Lemma switch_context_loads_witness :
  wp (switch_context 3 1)
     (λ r k', r = Ok tt ∧ context_switched 3 1 0x2000 0 0 example_core (example_machine 10) k')
     (example_machine 10).
Proof.
  apply (switch_context_loads (example_machine 10) 3 1
           ((ready_process 5 None None false) <| quantum := 10 |>) (ready_process 5 None (Some 2) true)
           (example_space 1)); [done..|]. by split.
Defined.

Lemma reschedule_runs_highest_witness :
  wp (try_schedule_and_switch 0)
     (λ r k', r = Ok tt ∧
        dispatched 0 1 0x2000 0 0 false (update_queue 5 [2] example_queues) (example_machine 10) k')
     (example_machine 10).
Proof.
  apply (reschedule_runs_highest 0 (example_machine 10) example_queues (example_cpu 3) example_core 3
           (ready_process 5 None (Some 2) true) (example_space 1) 0 0);
    [done|by split|by eexists|apply example_machine_inv|by split].
Defined.

Lemma handle_timer_round_robin_witness :
  let v q := (ready_process 5 None None false) <| quantum := q |> in
  wp (handle_timer 0)
     (λ r k', r = Ok tt ∧ k' = (example_machine 5) <| processes ::= <[3 := (v 5) <| quantum ::= Z.pred |>]> |>)
     (example_machine 5) ∧
  wp (handle_timer 0)
     (λ r k', r = Ok tt ∧
        requeued 0 3 1 (v 1) 0x2000 0 0 example_queues
          (update_queue 5 [2; 3] (update_queue 5 [1; 2; 3] example_queues)) (example_machine 1) k')
     (example_machine 1).
Proof.
  intros v. split.
  - apply (handle_timer_round_robin 0 (example_machine 5) example_queues (example_cpu 3) example_core 3
      (v 5) 1 (ready_process 5 None (Some 2) true) (example_space 1) 0 0
      (update_queue 5 [2; 3] (update_queue 5 [1; 2; 3] example_queues)));
      try done; apply example_machine_inv.
  - apply (handle_timer_round_robin 0 (example_machine 1) example_queues (example_cpu 3) example_core 3
      (v 1) 1 (ready_process 5 None (Some 2) true) (example_space 1) 0 0
      (update_queue 5 [2; 3] (update_queue 5 [1; 2; 3] example_queues)));
      try done; apply example_machine_inv.
Defined.
End example.
