(* ===== verification/Node.v ===== *)
(** Capability Nodes: lookup of descriptors and the operations on slots.
    src/src/kernel/capability/capability_node.cpp,
    src/src/kernel/capability/capability_node_reclamation.cpp,
    src/src/kernel/include/kernel/capability/capability_node.hpp and
    src/src/kernel/include/kernel/capability/capability_utility.hpp.

    Reclamation is mutually recursive through the virtual [revoke] of every
    component; the functions here take the functions they call back as
    arguments, and Reclamation.v ties the knot. *)

From S2P Require Import Prelude Word Types Dll Kernel Slot Hal.

(** ** Geometry *)

Definition is_geometry_valid (ignored radix : Z) : bool :=
  (ignored <? WORD_BITS) && negb (radix =? 0) && (radix <? WORD_BITS)
  && (radix <=? WORD_BITS - ignored).

(** A shift by [WORD_BITS] or more is undefined. *)
Definition calculate_capability_index (n : capability_node) (descriptor descriptor_used_bits : Z)
    : option Z :=
  one ← shl 1 (radix_bits n);
  let mask_bits := wsub one 1 in
  let shift_bits :=
    wsub WORD_BITS (wadd (wadd (ignore_bits n) (radix_bits n)) descriptor_used_bits) in
  shifted ← shr descriptor shift_bits;
  Some (Z.land shifted mask_bits).

Definition calculate_used_bits (n : capability_node) (old_descriptor_used_bits : Z) : Z :=
  wadd (wadd (ignore_bits n) (radix_bits n)) old_descriptor_used_bits.

(** ** Lookup *)

Abbreviation capability_lookup_result := (result slot_ref capability_lookup_error).

(** [capability_node::retrieve_slot]: the index is not checked, and the address
    of an element outside the array is undefined. *)
Definition node_retrieve_slot (a index : Z) : M capability_lookup_result :=
  n ← load nodes a;
  match capability_slots n with
  | None => fail LE_UNAVAILABLE
  | Some array => load slots (array_slot array index);; mret (Ok (array_slot array index))
  end.

Definition lookup_slot (a descriptor descriptor_used_bits : Z) : M capability_lookup_result :=
  n ← load nodes a;
  index ← defined (calculate_capability_index n descriptor descriptor_used_bits);
  node_retrieve_slot a index.

(** The virtual [retrieve_slot] and [traverse_slot]: every component but the
    Node ends a lookup. *)
Definition retrieve_slot (c : component_ref) (index : Z) : M capability_lookup_result :=
  match c with
  | C_NODE a => node_retrieve_slot a index
  | _ => fail LE_TERMINAL
  end.

Fixpoint traverse_slot_fuel (fuel : nat) (c : component_ref)
    (descriptor descriptor_max_bits descriptor_used_bits : Z) : M capability_lookup_result :=
  match c with
  | C_NODE a =>
      let? slot := lookup_slot a descriptor descriptor_used_bits in
      n ← load nodes a;
      let new_used_bits := calculate_used_bits n descriptor_used_bits in
      if new_used_bits =? descriptor_max_bits then mret (Ok slot)
      else
        sv ← load slots slot;
        match component sv, fuel with
        | None, _ => fail LE_EMPTY
        | Some _, O => out_of_fuel
        | Some c', S fuel' =>
            traverse_slot_fuel fuel' c' descriptor descriptor_max_bits new_used_bits
        end
  | _ => fail LE_TERMINAL
  end.

(** A level of the recursion uses at least one of the 64 bits of the descriptor,
    and the component behind the last one may still have to answer. *)
Definition traverse_slot (c : component_ref)
    (descriptor descriptor_max_bits descriptor_used_bits : Z) : M capability_lookup_result :=
  traverse_slot_fuel 65 c descriptor descriptor_max_bits descriptor_used_bits.

Definition convert_lookup_to_capability_error (e : capability_lookup_error) : capability_error :=
  CE_INVALID_ARGUMENT.

(** [process.root_slot.component->traverse_slot(d, extract_depth(d), BYTE_BITS)];
    calling through a null component is undefined. *)
Definition traverse_root (owner descriptor : Z) : M capability_lookup_result :=
  root ← load slots (process_slot_ref owner ROOT_SLOT);
  c ← defined (component root);
  traverse_slot c descriptor (extract_depth descriptor) BYTE_BITS.

(** ** capability_utility.hpp *)

Definition lookup_to_kernel_error (e : capability_lookup_error) : kernel_error := KE_ILLEGAL_ARGUMENT.

Definition try_get_slot_from_node_and_index (owner destination_node destination_node_index : Z)
    : M (result slot_ref kernel_error) :=
  root ← load slots (process_slot_ref owner ROOT_SLOT);
  if negb (bool_decide (type root = CT_NODE)) || negb (bool_decide (is_Some (component root)))
  then fail KE_ILLEGAL_ARGUMENT
  else
    map_error lookup_to_kernel_error
      (let? slot := traverse_root owner destination_node in
       sv ← load slots slot;
       c ← defined (component sv);
       retrieve_slot c destination_node_index).

Definition try_get_slot_from_node_and_index_in_message
    (owner destination_node_descriptor_offset destination_node_index_offset : Z)
    : M (result slot_ref kernel_error) :=
  let? node_descriptor := map_error convert_hal_to_kernel_error
                            (get_message_register owner destination_node_descriptor_offset) in
  let? index := map_error convert_hal_to_kernel_error
                  (get_message_register owner destination_node_index_offset) in
  try_get_slot_from_node_and_index owner node_descriptor index.

(** ** Operations *)

Inductive node_operation := NODE_COPY | NODE_MOVE | NODE_MINT | NODE_DEMOTE | NODE_REVOKE | NODE_REMOVE.
#[global] Instance node_operation_eq_dec : EqDecision node_operation.
Proof. solve_decision. Defined.

Definition node_operation_of_word (w : Z) : option node_operation :=
  match w with
  | 1 => Some NODE_COPY | 2 => Some NODE_MOVE | 3 => Some NODE_MINT
  | 4 => Some NODE_DEMOTE | 5 => Some NODE_REVOKE | 6 => Some NODE_REMOVE
  | _ => None
  end.

(** [operation_index] *)
Definition NODE_OPERATION_TYPE : Z := 1.
Definition NODE_DESTINATION_INDEX : Z := 2.
Definition NODE_SOURCE_DESCRIPTOR : Z := 3.
Definition NODE_NEW_RIGHTS : Z := 4.

(** [get_message_register(owner, i).unwrap_or(0)]. *)
Definition message_or_0 (owner i : Z) : M Z :=
  r ← get_message_register owner i; mret (unwrap_or r 0).

(** COPY and MINT, once both slots are known. *)
Definition transfer_copy (minting : bool) (new_rights : Z) (destination_slot source_slot : slot_ref)
    : M capability_result :=
  sv ← load slots source_slot;
  if Z.land (rights sv) RIGHTS_COPY =? 0 then fail CE_PERMISSION_DENIED
  else if minting && negb (has_rights (rights sv) new_rights) then fail CE_PERMISSION_DENIED
  else
    let? _ := map_error convert_kernel_to_capability_error
                (try_copy_capability_slot destination_slot source_slot) in
    (if minting
     then modify slots destination_slot (λ v, v <| rights := wrap8 new_rights |>)
     else mret tt);;
    ok.

Definition node_operation_transfer (owner a : Z) (self : slot_ref) (operation : node_operation)
    : M capability_result :=
  selfv ← load slots self;
  if negb (has_rights (rights selfv) RIGHTS_READ_WRITE) then fail CE_ILLEGAL_OPERATION
  else
    destination_index ← message_or_0 owner NODE_DESTINATION_INDEX;
    source_descriptor ← message_or_0 owner NODE_SOURCE_DESCRIPTOR;
    new_rights ← (if decide (operation = NODE_MINT)
                  then message_or_0 owner NODE_NEW_RIGHTS else mret 0);
    let? destination_slot := map_error convert_lookup_to_capability_error
                               (node_retrieve_slot a destination_index) in
    let? source_slot := map_error convert_lookup_to_capability_error
                          (traverse_root owner source_descriptor) in
    if decide (operation = NODE_MOVE) then
      map_error convert_kernel_to_capability_error
        (try_move_capability_slot destination_slot source_slot)
    else
      transfer_copy (bool_decide (operation = NODE_MINT)) new_rights destination_slot source_slot.

Definition node_operation_demote (owner a : Z) (self : slot_ref) : M capability_result :=
  selfv ← load slots self;
  if Z.land (rights selfv) RIGHTS_WRITE =? 0 then fail CE_ILLEGAL_OPERATION
  else
    destination_index ← message_or_0 owner NODE_DESTINATION_INDEX;
    new_rights ← message_or_0 owner NODE_NEW_RIGHTS;
    let? target_slot := map_error convert_lookup_to_capability_error
                          (node_retrieve_slot a destination_index) in
    tv ← load slots target_slot;
    if negb (has_rights (rights tv) new_rights) then fail CE_PERMISSION_DENIED
    else modify slots target_slot (λ v, v <| rights := wrap8 new_rights |>);; ok.

Section reclamation.
(** The mutually recursive functions of Reclamation.v. *)
Context (revoke_slot remove_slot : slot_ref → M kernel_result).

Definition node_operation_revoke (owner a : Z) (self : slot_ref) : M capability_result :=
  selfv ← load slots self;
  if negb (has_rights (rights selfv) RIGHTS_READ_WRITE) then fail CE_PERMISSION_DENIED
  else
    destination_index ← message_or_0 owner NODE_DESTINATION_INDEX;
    let? target_slot := map_error convert_lookup_to_capability_error
                          (node_retrieve_slot a destination_index) in
    tv ← load slots target_slot;
    if bool_decide (type tv = CT_NONE) || negb (bool_decide (is_Some (component tv)))
    then fail CE_INVALID_DESCRIPTOR
    else if negb (has_rights (rights tv) RIGHTS_READ_WRITE) then fail CE_PERMISSION_DENIED
    else map_error convert_kernel_to_capability_error (revoke_slot target_slot).

Definition node_operation_remove (owner a : Z) (self : slot_ref) : M capability_result :=
  selfv ← load slots self;
  if negb (has_rights (rights selfv) RIGHTS_READ_WRITE) then fail CE_PERMISSION_DENIED
  else
    destination_index ← message_or_0 owner NODE_DESTINATION_INDEX;
    let? target_slot := map_error convert_lookup_to_capability_error
                          (node_retrieve_slot a destination_index) in
    map_error convert_kernel_to_capability_error (remove_slot target_slot).

Definition node_execute (owner a : Z) (self : slot_ref) : M capability_result :=
  operation ← message_or_0 owner NODE_OPERATION_TYPE;
  match node_operation_of_word operation with
  | Some ((NODE_COPY | NODE_MOVE | NODE_MINT) as op) => node_operation_transfer owner a self op
  | Some NODE_DEMOTE => node_operation_demote owner a self
  | Some NODE_REVOKE => node_operation_revoke owner a self
  | Some NODE_REMOVE => node_operation_remove owner a self
  | None => fail CE_ILLEGAL_OPERATION
  end.

(** [capability_node::is_reclaiming]: a finaliser of the Node is active. *)
Definition node_is_reclaiming (a : Z) : M bool :=
  reads (λ k, bool_decide (a ∈ active_node_reclamations k)).

(** One turn of the loop of [capability_node::revoke]. *)
Definition node_revoke_step (array : option Z) (i : Z) (self : slot_ref) : M capability_result :=
  match array with
  | None => fail CE_ILLEGAL_OPERATION
  | Some arr =>
      let slot := array_slot arr i in
      sv ← load slots slot;
      if decide (slot = self) then ok
      else
        selfv ← load slots self;
        if is_same_object sv selfv then
          remove_from_dependency_node slot;; init slot;; ok
        else if decide (type sv = CT_NONE) then ok
        else
          result ← remove_slot slot;
          if is_ok result then ok else fail CE_ILLEGAL_OPERATION
  end.

(** [for (i = 0; i < 1 << radix_bits; i++)], with [turns] turns left. *)
Fixpoint node_revoke_loop (array : option Z) (i : Z) (turns : nat) (self : slot_ref)
    : M capability_result :=
  match turns with
  | O => ok
  | S turns' =>
      let? _ := node_revoke_step array i self in
      node_revoke_loop array (i + 1) turns' self
  end.

(** The destructor of the [node_reclamation_scope] runs on every exit. *)
Definition node_revoke (a : Z) (self : slot_ref) : M capability_result :=
  active ← node_is_reclaiming a;
  if (active : bool) then ok
  else
    previous ← reads active_node_reclamations;
    updates (λ k, k <| active_node_reclamations := a :: previous |>);;
    n ← load nodes a;
    count ← defined (shl 1 (radix_bits n));
    result ← node_revoke_loop (capability_slots n) 0 (Z.to_nat count) self;
    updates (λ k, k <| active_node_reclamations := previous |>);;
    mret result.

End reclamation.

(** ** Reclamation of a slot: capability_node_reclamation.cpp *)

(** The virtual [is_reclaiming]. *)
Definition component_is_reclaiming (c : component_ref) : M bool :=
  match c with
  | C_NODE a => node_is_reclaiming a
  | _ => mret false
  end.

Definition unlink_and_clear_slot (slot : slot_ref) : M kernel_result :=
  remove_from_dependency_node slot;; init slot;; ok.

(** [while (last_alias->next_slot && last_alias->next_slot->depth > slot.depth)]. *)
Fixpoint revoke_children (remove_slot : slot_ref → M kernel_result) (fuel : nat)
    (slot last_alias : slot_ref) : M kernel_result :=
  la ← load slots last_alias;
  match next_slot la with
  | None => ok
  | Some n =>
      nv ← load slots n;
      sv ← load slots slot;
      if depth sv <? depth nv then
        match fuel with
        | O => out_of_fuel
        | S fuel' =>
            let? _ := remove_slot n in
            revoke_children remove_slot fuel' slot last_alias
        end
      else ok
  end.

(** [capability_node::revoke_slot], with the [reclaiming] guard around its body.
    A removal that succeeds empties a slot, so the loop has at most as many turns
    as there are slots. *)
Definition revoke_slot_body
    (component_revoke : component_ref → slot_ref → M capability_result)
    (remove_slot : slot_ref → M kernel_result) (slot : slot_ref) : M kernel_result :=
  sv ← load slots slot;
  if bool_decide (type sv = CT_NONE) || negb (bool_decide (is_Some (component sv))) || reclaiming sv
  then fail KE_ILLEGAL_ARGUMENT
  else
    modify slots slot (λ v, v <| reclaiming := true |>);;
    last_alias ← last_alias_in_group slot;
    fuel ← reads (λ k, size (slots k));
    result ←
      (let? _ := revoke_children remove_slot fuel slot last_alias in
       sv ← load slots slot;
       c ← defined (component sv);
       r ← component_revoke c slot;
       if is_ok r then ok else fail KE_UNEXPECTED);
    modify slots slot (λ v, v <| reclaiming := false |>);;
    mret result.

(** [capability_node::remove_slot]. *)
Definition remove_slot_body (revoke_slot : slot_ref → M kernel_result) (slot : slot_ref)
    : M kernel_result :=
  sv ← load slots slot;
  if reclaiming sv then
    active ← match component sv with
             | None => mret false
             | Some c => component_is_reclaiming c
             end;
    if (active : bool) then unlink_and_clear_slot slot else fail KE_ILLEGAL_ARGUMENT
  else if decide (type sv = CT_NONE) then unlink_and_clear_slot slot
  else
    sibling ← has_sibling slot;
    if (sibling : bool) then unlink_and_clear_slot slot
    else
      match component sv with
      | None => unlink_and_clear_slot slot
      | Some _ =>
          revoke_result ← revoke_slot slot;
          if is_ok revoke_result then unlink_and_clear_slot slot else fail KE_UNEXPECTED
      end.

(** ** Construction *)

Definition sizeof_capability_node : Z := 32.
Definition sizeof_capability_slot : Z := 64.

(** The constructor of [capability_node], with its slot array at [array]:
    [is_valid] afterwards says whether the geometry was accepted. *)
Definition make_node (ignored radix : Z) (array : option Z) : capability_node :=
  if is_geometry_valid ignored radix then MkNode ignored radix array
  else MkNode ignored radix None.

(** The slots [new (p) capability_slot[1 << radix] {}] puts at [array]. *)
Definition make_slots (array : Z) (count : nat) (σ : gmap slot_ref capability_slot)
    : gmap slot_ref capability_slot :=
  foldr (λ i m, <[array_slot array (Z.of_nat i) := initial_slot]> m) σ (seq 0 count).

(** [try_make_capability_node]; the Node is named by its address. *)
Definition try_make_capability_node (base radix : Z) : M (result Z kernel_error) :=
  if (base =? 0) || negb (is_geometry_valid 0 radix) then fail KE_ILLEGAL_ARGUMENT
  else
    node_unit_radix ← defined (calculate_radix_ceil sizeof_capability_node);
    node_unit_size ← defined (shl 1 node_unit_radix);
    if negb (base mod node_unit_size =? 0) then fail KE_ILLEGAL_ARGUMENT
    else
      slot_unit_radix ← defined (calculate_radix_ceil sizeof_capability_slot);
      slot_unit_size ← defined (shl 1 slot_unit_radix);
      if WORD_BITS - slot_unit_radix <=? radix then fail KE_ILLEGAL_ARGUMENT
      else
        let node_end_address := wadd base node_unit_size in
        let slot_start_address := align_value node_end_address slot_unit_size in
        count ← defined (shl 1 radix);
        updates (λ k, k <| slots ::= make_slots slot_start_address (Z.to_nat count) |>
                        <| nodes ::= <[base := make_node 0 radix (Some slot_start_address)]> |>);;
        mret (Ok base).

Definition try_configure_capability_node_slot (slot : slot_ref) (node : Z) : M kernel_result :=
  sv ← load slots slot;
  n ← load nodes node;
  if decide (type sv ≠ CT_NONE) then fail KE_INIT_FIRST
  else if negb (bool_decide (is_Some (capability_slots n))) then fail KE_ILLEGAL_ARGUMENT
  else
    modify slots slot
      (λ _, initial_slot <| component := Some (C_NODE node) |> <| type := CT_NODE |>
              <| rights := RIGHTS_ALL |> <| data := SlotData 0 0 0 |>);;
    ok.
