(* ===== verification/NodeProofs.v ===== *)
(** Correctness of capability lookup and of the Node operations (Node.v). *)

From S2P Require Import Prelude Word Types Dll Kernel Slot SlotProofs Hal Node.

(** ** Lookup: specification *)

(** The [radix] bits of a descriptor below its first [used + ignored] ones. *)
Definition descriptor_field (descriptor used : Z) (n : capability_node) : Z :=
  (descriptor / 2 ^ (64 - (ignore_bits n + radix_bits n + used))) mod 2 ^ radix_bits n.

(** What a descriptor of depth [max] names, below the Node at [a] and after
    [used] bits: a slot of the Node the depth ends in. *)
Inductive resolves (k : kernel) (descriptor max : Z) : Z → Z → capability_lookup_result → Prop :=
| resolves_here used a n array :
    nodes k !! a = Some n → capability_slots n = Some array →
    ignore_bits n + radix_bits n + used = max →
    resolves k descriptor max used a (Ok (array_slot array (descriptor_field descriptor used n)))
| resolves_empty used a n array v :
    nodes k !! a = Some n → capability_slots n = Some array →
    ignore_bits n + radix_bits n + used ≠ max →
    slots k !! array_slot array (descriptor_field descriptor used n) = Some v →
    component v = None →
    resolves k descriptor max used a (Err LE_EMPTY)
| resolves_terminal used a n array v c :
    nodes k !! a = Some n → capability_slots n = Some array →
    ignore_bits n + radix_bits n + used ≠ max →
    slots k !! array_slot array (descriptor_field descriptor used n) = Some v →
    component v = Some c → (∀ a', c ≠ C_NODE a') →
    resolves k descriptor max used a (Err LE_TERMINAL)
| resolves_deeper used a n array v a' r :
    nodes k !! a = Some n → capability_slots n = Some array →
    ignore_bits n + radix_bits n + used ≠ max →
    slots k !! array_slot array (descriptor_field descriptor used n) = Some v →
    component v = Some (C_NODE a') →
    resolves k descriptor max (ignore_bits n + radix_bits n + used) a' r →
    resolves k descriptor max used a r.

(** The Nodes reachable from the one at [a] have their slot arrays, and the bits
    they take along every path fit in a descriptor after [used] ones. *)
Inductive cspace_fits (k : kernel) : Z → Z → Prop :=
| cspace_fits_node used a n array :
    nodes k !! a = Some n → capability_slots n = Some array →
    0 ≤ used → 0 ≤ ignore_bits n → 1 ≤ radix_bits n < 64 →
    ignore_bits n + radix_bits n + used ≤ 64 →
    (∀ i, 0 ≤ i < 2 ^ radix_bits n → is_Some (slots k !! array_slot array i)) →
    (∀ i v a', slots k !! array_slot array i = Some v → component v = Some (C_NODE a') →
               cspace_fits k (ignore_bits n + radix_bits n + used) a') →
    cspace_fits k used a.

(** ** Lookup: correctness *)

Lemma calculate_capability_index_field n descriptor used :
  is_word descriptor → 0 ≤ used → 0 ≤ ignore_bits n → 1 ≤ radix_bits n < 64 →
  ignore_bits n + radix_bits n + used ≤ 64 →
  calculate_capability_index n descriptor used = Some (descriptor_field descriptor used n).
Proof.
  intros Hd Hu Hi Hr Hsum. unfold calculate_capability_index, WORD_BITS.
  rewrite shl_1 by lia. cbn [mbind option_bind].
  rewrite (wadd_id (ignore_bits n)), wadd_id, (wsub_id 64) by lia.
  unfold shr, WORD_BITS. rewrite (proj2 (Z.ltb_lt _ _)) by lia. cbn [mbind option_bind].
  assert (0 < 2 ^ radix_bits n < 2 ^ 64).
  { split; [apply Z.pow_pos_nonneg; lia|]. apply Z.pow_lt_mono_r; lia. }
  rewrite wsub_id by lia. unfold descriptor_field. f_equal.
  rewrite <- Z.sub_1_r, <- Z.ones_equiv || rewrite Z.sub_1_r, <- Z.ones_equiv.
  by rewrite Z.land_ones, Z.shiftr_div_pow2 by lia.
Qed.

Lemma descriptor_field_range descriptor used n :
  1 ≤ radix_bits n → 0 ≤ descriptor_field descriptor used n < 2 ^ radix_bits n.
Proof. intros. apply Z.mod_pos_bound, Z.pow_pos_nonneg; lia. Qed.

Lemma calculate_used_bits_id n used :
  0 ≤ used → 0 ≤ ignore_bits n → 1 ≤ radix_bits n → ignore_bits n + radix_bits n + used ≤ 64 →
  calculate_used_bits n used = ignore_bits n + radix_bits n + used.
Proof. intros. unfold calculate_used_bits. rewrite (wadd_id (ignore_bits n)), wadd_id; lia. Qed.

Lemma traverse_slot_fuel_spec k descriptor max used a fuel :
  is_word descriptor → cspace_fits k used a → 65 - used ≤ Z.of_nat fuel →
  wp (traverse_slot_fuel fuel (C_NODE a) descriptor max used)
     (λ r k', k' = k ∧ resolves k descriptor max used a r) k.
Proof.
  intros Hd Hfits. revert fuel.
  induction Hfits as [used a n array Hn Harr Hu Hi Hr Hsum Hslots _ IH]; intros fuel Hfuel.
  pose proof (descriptor_field_range descriptor used n ltac:(lia)) as Hidx.
  destruct (Hslots _ Hidx) as [v Hv].
  destruct fuel as [|fuel]; [lia|]. cbn [traverse_slot_fuel].
  wp_head. unfold lookup_slot. wp_head. eapply wp_load; [done|].
  wp_head. eapply wp_defined; [by apply calculate_capability_index_field|].
  unfold node_retrieve_slot. wp_steps. rewrite Harr. wp_steps.
  rewrite calculate_used_bits_id by lia.
  destruct (_ =? max) eqn:Hmax; bool_to_prop.
  { wp_steps. split; [done|]. by eapply resolves_here. }
  wp_steps. destruct (component v) as [c|] eqn:Hc.
  2:{ wp_steps. split; [done|]. by eapply resolves_empty. }
  destruct c as [a'| | | | | | | | | | |].
  { eapply wp_mono; [|eapply IH; [done|done|lia]]. intros r k' [-> Hres].
    split; [done|]. by eapply resolves_deeper. }
  all: destruct fuel; cbn [traverse_slot_fuel]; wp_steps; (split; [done|]);
    by eapply resolves_terminal.
Qed.

(** ** Authority *)

Lemma has_rights_wrap8 mask : has_rights mask (wrap8 mask) = true.
Proof.
  apply has_rights_bits. intros i. unfold wrap8. rewrite <- Z.land_ones by lia.
  rewrite Z.land_spec. intros [? _]%andb_true_iff. done.
Qed.

(** Every capability of [k'] was held in [k], with at least its rights. *)
Definition same_authority (v v' : capability_slot) : Prop :=
  component v = component v' ∧ type v = type v' ∧ data v = data v' ∧
  has_rights (rights v) (rights v') = true.

Definition no_new_authority (k k' : kernel) : Prop :=
  ∀ x v', slots k' !! x = Some v' → is_Some (component v') →
  ∃ y v, slots k !! y = Some v ∧ same_authority v v'.

Lemma same_authority_refl v : same_authority v v.
Proof. split_and!; auto using has_rights_refl. Qed.

Lemma no_new_authority_refl k : no_new_authority k k.
Proof. intros x v Hv _. exists x, v. auto using same_authority_refl. Qed.

Lemma no_new_authority_trans k1 k2 k3 :
  no_new_authority k1 k2 → no_new_authority k2 k3 → no_new_authority k1 k3.
Proof.
  intros H12 H23 x v3 Hv3 Hc. destruct (H23 x v3 Hv3 Hc) as (y & v2 & Hv2 & (E1 & E2 & E3 & E4)).
  destruct (H12 y v2 Hv2) as (z & v1 & Hv1 & (D1 & D2 & D3 & D4)); [by rewrite E1|].
  exists z, v1. split; [done|]. split_and!; try congruence. by eapply has_rights_trans.
Qed.

(** Writing a slot is harmless when what is written was held somewhere. *)
Lemma no_new_authority_insert k s w :
  (is_Some (component w) → ∃ y v, slots k !! y = Some v ∧ same_authority v w) →
  no_new_authority k (k <| slots ::= <[s := w]> |>).
Proof.
  intros Hw x v'. ksimpl_goal. rewrite lookup_insert. case_decide.
  - intros [= <-] Hc. auto.
  - intros Hv _. exists x, v'. auto using same_authority_refl.
Qed.

Lemma no_new_authority_slots k k' : slots k' = slots k → no_new_authority k k'.
Proof. intros Heq x v. rewrite Heq. apply no_new_authority_refl. Qed.

#[global] Instance no_new_authority_preorder : PreOrder no_new_authority.
Proof. split; [exact no_new_authority_refl|exact no_new_authority_trans]. Qed.

(** The content of every slot of [k'] is the one it had in [k]: only links,
    depths and reclamation marks differ. *)
Definition same_content (v v' : capability_slot) : Prop :=
  component v = component v' ∧ type v = type v' ∧ data v = data v' ∧ rights v = rights v'.

Definition keeps_content (k k' : kernel) : Prop :=
  ∀ x v', slots k' !! x = Some v' → ∃ v, slots k !! x = Some v ∧ same_content v v'.

#[global] Instance keeps_content_preorder : PreOrder keeps_content.
Proof.
  split.
  - intros k x v Hv. by exists v.
  - intros k1 k2 k3 H12 H23 x v3 Hv3. destruct (H23 x v3 Hv3) as (v2 & Hv2 & ? & ? & ? & ?).
    destruct (H12 x v2 Hv2) as (v1 & Hv1 & ? & ? & ? & ?).
    exists v1. split; [done|]. split_and!; congruence.
Qed.

Lemma keeps_content_authority k k' : keeps_content k k' → no_new_authority k k'.
Proof.
  intros Hk x v' Hv' _. destruct (Hk x v' Hv') as (v & Hv & ? & ? & ? & Hr).
  exists x, v. split; [done|]. split_and!; try done. rewrite Hr. apply has_rights_refl.
Qed.

Lemma keeps_weaken {A} (m : M A) : keeps keeps_content m → keeps no_new_authority m.
Proof.
  intros Hm k. eapply wlp_mono; [|apply Hm]. intros ? k' Hk. by apply keeps_content_authority.
Qed.

(** A write of links, depth or the reclamation mark. *)
Lemma keeps_content_modify s f :
  (∀ v, same_content v (f v)) → keeps keeps_content (modify slots s f).
Proof.
  intros Hf k. apply wlp_modify. intros v Hv x v'. ksimpl_goal. rewrite lookup_insert.
  case_decide; [intros [= <-]; subst; eauto|intros; by exists v'].
Qed.
#[export] Hint Extern 2 (keeps keeps_content (modify slots _ _)) =>
  apply keeps_content_modify; intros; done : keeps.

#[export] Hint Extern 3 (keeps no_new_authority (modify slots _ _)) =>
  apply keeps_weaken, keeps_content_modify; intros; done : keeps.

Lemma insert_sibling_content s d : keeps keeps_content (insert_sibling s d).
Proof. unfold insert_sibling, insert. keeps_steps. Qed.

Lemma init_authority s : keeps no_new_authority (init s).
Proof.
  intros k. apply wlp_modify. intros v Hv. apply no_new_authority_insert. by intros [].
Qed.
#[export] Hint Resolve init_authority : keeps.

(** The content of [sv] moved or copied into another slot. *)
Lemma transfer_authority k k' d s sv w :
  slots k !! s = Some sv → same_content sv w →
  no_new_authority (k <| slots ::= <[d := w]> |>) k' → no_new_authority k k'.
Proof.
  intros Hs (? & ? & ? & Hr) Hk. etransitivity; [|exact Hk]. apply no_new_authority_insert.
  intros _. exists s, sv. split; [done|]. split_and!; try done. rewrite Hr. apply has_rights_refl.
Qed.

(** *** Reads keep every relation *)

Section reads_keep.
Context (R : kernel → kernel → Prop) `{!PreOrder R}.

Lemma get_message_register_keeps p i : keeps R (get_message_register p i).
Proof. unfold get_message_register. keeps_steps. Qed.

Lemma message_or_0_keeps p i : keeps R (message_or_0 p i).
Proof. unfold message_or_0. keeps_step; [apply get_message_register_keeps|keeps_steps]. Qed.

Lemma node_retrieve_slot_keeps a i : keeps R (node_retrieve_slot a i).
Proof. unfold node_retrieve_slot. keeps_steps. Qed.

Lemma lookup_slot_keeps a d u : keeps R (lookup_slot a d u).
Proof. unfold lookup_slot. keeps_steps. apply node_retrieve_slot_keeps. Qed.

Lemma traverse_slot_fuel_keeps fuel c d m u : keeps R (traverse_slot_fuel fuel c d m u).
Proof.
  revert c u. induction fuel as [|fuel IH]; intros c u; cbn [traverse_slot_fuel];
    case_match; keeps_steps; auto using lookup_slot_keeps.
Qed.

Lemma traverse_root_keeps owner d : keeps R (traverse_root owner d).
Proof. unfold traverse_root, traverse_slot. keeps_steps. apply traverse_slot_fuel_keeps. Qed.
End reads_keep.
#[export] Hint Resolve get_message_register_keeps message_or_0_keeps node_retrieve_slot_keeps
  lookup_slot_keeps traverse_root_keeps : keeps.
#[export] Hint Extern 0 (PreOrder _) => typeclasses eauto : keeps.

(** *** Copying and moving *)

(** After a copy that succeeded the destination holds the source's content. *)
Lemma try_copy_authority d s k sv :
  slots k !! s = Some sv →
  wlp (try_copy_capability_slot d s)
      (λ r k', no_new_authority k k' ∧
         (r = Ok tt → ∀ dv, slots k' !! d = Some dv → is_Some (component dv) →
            same_content sv dv)) k.
Proof.
  intros Hs. unfold try_copy_capability_slot. wlp_steps. case_decide as Ht.
  { wlp_steps. split; [reflexivity|done]. }
  wlp_steps. apply wlp_modify. intros dv Hdv. wlp_steps.
  rename v0 into sv1, H0 into Hsv1, v1 into dv1, H1 into Hdv1.
  ksimpl. rewrite lookup_insert_eq in Hdv1. injection Hdv1 as <-.
  (* the source as the copy reads it: [d] itself was emptied *)
  assert (Hsrc : d = s ∧ sv1 = initial_slot ∨ d ≠ s ∧ sv1 = sv).
  { rewrite lookup_insert in Hsv1. case_decide; [left|right]; naive_solver. }
  eapply wlp_mono; [|apply insert_sibling_content].
  intros ? k' Hk. cbn beta in Hk. wlp_steps. split.
  - etransitivity; [|exact (keeps_content_authority _ _ Hk)].
    etransitivity; [apply (no_new_authority_insert k d initial_slot); by intros []|].
    apply no_new_authority_insert. intros _. exists s, sv1. split; [by ksimpl_goal|].
    split_and!; try done. apply has_rights_refl.
  - intros _ dv' Hdv' Hc. destruct (Hk d dv' Hdv') as (w & Hw & E1 & E2 & E3 & E4).
    ksimpl. rewrite lookup_insert_eq in Hw. injection Hw as <-. ksimpl.
    destruct Hsrc as [[_ ->]|[_ ->]]; [by rewrite <- E1 in Hc; destruct Hc|].
    split_and!; congruence.
Qed.

Lemma try_move_authority d s : keeps no_new_authority (try_move_capability_slot d s).
Proof.
  unfold try_move_capability_slot. keeps_step; [keeps_steps|]. case_match; [keeps_steps|].
  keeps_step; [keeps_steps|]. apply keeps_load_bind. intros sv k Hs.
  apply wlp_bind, wlp_modify. intros v Hv.
  lazymatch goal with
  | |- wlp ?m _ ?k1 =>
      assert (Hm : keeps no_new_authority m) by keeps_steps;
      eapply (wlp_mono m (λ _, no_new_authority k1)); [|exact (Hm k1)]
  end.
  intros ? k' Hk. by eapply (transfer_authority k k' d s sv); [exact Hs| |exact Hk].
Qed.
#[export] Hint Resolve try_move_authority : keeps.

(** *** The operations of a Node *)

Lemma transfer_copy_authority minting new_rights d s :
  keeps no_new_authority (transfer_copy minting new_rights d s).
Proof.
  unfold transfer_copy. apply keeps_load_bind. intros sv k Hs.
  case_match; [apply wlp_ret; reflexivity|].
  destruct (minting && _) eqn:Hm; [apply wlp_ret; reflexivity|].
  apply wlp_and_then, wlp_map_error. eapply wlp_mono; [|by apply try_copy_authority].
  intros [[]|e] k1 [Hk1 Hd]; cbn [transform_error]; [|done].
  destruct minting; [|by wlp_steps]. cbn in Hm. apply negb_false_iff in Hm.
  wlp_steps. rename v into dv, H0 into Hdv.
  intros x v'. ksimpl_goal. rewrite lookup_insert. case_decide; [|apply Hk1].
  intros [= <-] Hc. ksimpl. destruct (Hd eq_refl dv Hdv Hc) as (E1 & E2 & E3 & E4).
  exists s, sv. split; [done|]. split_and!; ksimpl_goal; try done.
  eapply has_rights_trans; [done|apply has_rights_wrap8].
Qed.
#[export] Hint Resolve transfer_copy_authority : keeps.

Lemma node_operation_transfer_authority owner a self op :
  keeps no_new_authority (node_operation_transfer owner a self op).
Proof. unfold node_operation_transfer. keeps_steps. Qed.

Lemma node_operation_demote_authority owner a self :
  keeps no_new_authority (node_operation_demote owner a self).
Proof.
  unfold node_operation_demote. keeps_step; [keeps_steps|]. case_match; [keeps_steps|].
  do 2 (keeps_step; [keeps_steps|]). keeps_step; [keeps_steps|].
  apply keeps_load_bind. intros tv k Ht.
  case_match eqn:Hr; [apply wlp_ret; reflexivity|]. apply negb_false_iff in Hr.
  apply wlp_bind, wlp_modify. intros tv' Ht'. wlp_steps.
  apply no_new_authority_insert. intros _. exists a3, tv. simplify_eq.
  split; [done|]. split_and!; try done. ksimpl_goal.
  eapply has_rights_trans; [done|apply has_rights_wrap8].
Qed.

(** ** Functional behaviour of COPY and MINT *)

(** The rights check of COPY ([minting = false]) and MINT. *)
Definition transfer_allowed (minting : bool) (new_rights : Z) (v : capability_slot) : bool :=
  negb (Z.land (rights v) RIGHTS_COPY =? 0) && (negb minting || has_rights (rights v) new_rights).

(** The content of a slot after COPY or MINT. *)
Definition minted (minting : bool) (new_rights : Z) (v : capability_slot) : capability_slot :=
  if minting then transferred v <| rights := wrap8 new_rights |> else transferred v.

Lemma chain_insert_core σ l d w w' :
  chain σ l → σ !! d = Some w → next_slot w' = next_slot w → preview_slot w' = preview_slot w →
  chain (<[d := w']> σ) l.
Proof.
  intros Hch Hd Hn Hp. eapply dlist_ext; [|done]. intros y _.
  by eapply heap_links_insert_same.
Qed.

Lemma transfer_copy_spec k minting new_rights l1 s l2 v d dv :
  chain (slots k) (l1 ++ s :: l2) → slots k !! s = Some v → d ∉ l1 ++ s :: l2 →
  slots k !! d = Some dv → type dv = CT_NONE →
  wp (transfer_copy minting new_rights d s)
     (λ r k', if transfer_allowed minting new_rights v then
        r = Ok tt ∧ slots_after k (λ σ', chain σ' (l1 ++ s :: d :: l2) ∧
          (slot_core <$> σ') = <[d := minted minting new_rights v]> (slot_core <$> slots k)) k'
      else r = Err CE_PERMISSION_DENIED ∧ k' = k) k.
Proof.
  intros Hch Hv Hd Hdv Ht. unfold transfer_copy, transfer_allowed. rewrite (with_slots_id k).
  slot_steps. destruct (_ =? 0); [by slot_steps|]. cbn [negb andb].
  destruct (minting && _) eqn:Hm.
  { slot_steps. apply andb_true_iff in Hm as [-> Hm%negb_true_iff]. by rewrite Hm. }
  assert ((negb minting || has_rights (rights v) new_rights) = true) as ->.
  { destruct minting; [|done]. cbn in *. by apply negb_false_iff in Hm. }
  apply wp_and_then, wp_map_error. eapply try_copy_capability_slot_spec; try done.
  intros σ' Hch' Hf. cbn [transform_error].
  pose proof (frame_core _ _ _ Hf) as Hc. rewrite fmap_insert in Hc.
  destruct minting; slot_steps.
  - destruct (chain_is_Some _ _ d Hch' ltac:(set_solver)) as [w Hw]. slot_steps.
    split; [done|]. eexists. split; [done|]. split; [by eapply chain_insert_core|].
    rewrite fmap_insert, Hc. apply (f_equal (.!! d)) in Hc.
    rewrite lookup_fmap, Hw, lookup_insert_eq in Hc.
    change (Some (slot_core w) = Some (slot_core (transferred v))) in Hc.
    rewrite insert_insert_eq. f_equal. unfold minted.
    destruct w, v. unfold transferred, slot_core in *. cbn in *. by simplify_eq.
  - split; [done|]. exists σ'. split_and!; [done|done|exact Hc].
Qed.

(** ** Properties *)

(** A process 7 whose root Node (at 100, two index bits) holds the slots of
    [example_slots]; its message registers ask for a MINT of slot 2 into slot 3
    with the rights READ and WRITE. *)
Definition example_descriptor (i : Z) : Z := Z.lor (Z.shiftl 2 56) (Z.shiftl i 54).
Definition example_registers : list Z :=
  set_register register_index.RSI 3 (set_register register_index.RDX 3
    (set_register register_index.R8 (example_descriptor 2)
      (set_register register_index.R9 3 (replicate 23 0)))).
Definition example_root : capability_slot :=
  MkSlot (Some (C_NODE 100)) CT_NODE RIGHTS_ALL false (SlotData 0 0 0) None None 0.
Definition example_cspace : kernel :=
  initial_kernel
    <| processes := {[7 := initial_process <| registers := example_registers |>]} |>
    <| nodes := {[100 := MkNode 0 2 (Some 1)]} |>
    <| slots := <[process_slot_ref 7 ROOT_SLOT := example_root]> example_slots |>.

(** C26: looking a descriptor up from a Node whose reachable Nodes fit in a
    descriptor ends without undefined behaviour, changes nothing, and finds
    exactly the slot the descriptor's fields name, level by level, or the error
    of the level where it stops; a slot it finds exists. *)
Theorem traverse_slot_resolves k a descriptor :
  is_word descriptor → cspace_fits k BYTE_BITS a →
  wp (traverse_slot (C_NODE a) descriptor (extract_depth descriptor) BYTE_BITS)
     (λ r k', k' = k ∧ resolves k descriptor (extract_depth descriptor) BYTE_BITS a r ∧
        ∀ s, r = Ok s → is_Some (slots k !! s)) k.
Proof.
  intros Hd Hfits. eapply wp_mono; [|by apply traverse_slot_fuel_spec].
  intros r k' [-> Hres]. split_and!; [done|done|]. clear Hd.
  induction Hres as [used a n array Hn Harr Hmax| | |used a n array v a' r Hn Harr _ Hv Hc _ IH];
    intros s Hs; try done; inversion Hfits; simplify_eq; [|eauto].
  match goal with H : ∀ i, _ → is_Some _ |- _ => apply H end.
  apply descriptor_field_range. lia.
Qed.

Lemma traverse_slot_resolves_witness :
  wp (traverse_slot (C_NODE 100) (example_descriptor 2) (extract_depth (example_descriptor 2)) BYTE_BITS)
     (λ r k', k' = example_cspace ∧
        resolves example_cspace (example_descriptor 2) (extract_depth (example_descriptor 2))
          BYTE_BITS 100 r ∧
        ∀ s, r = Ok s → is_Some (slots example_cspace !! s)) example_cspace.
Proof.
  apply (traverse_slot_resolves example_cspace 100 (example_descriptor 2)).
  - by vm_compute.
  - apply (cspace_fits_node example_cspace BYTE_BITS 100 (MkNode 0 2 (Some 1)) 1);
      try reflexivity; try (cbn; unfold BYTE_BITS; lia).
    + intros i Hi. cbn in Hi.
      assert (i = 0 ∨ i = 1 ∨ i = 2 ∨ i = 3) as [->|[->|[->| ->]]] by lia; by eexists.
    + intros i v a' Hv Hc.
      change (slots example_cspace)
        with (<[process_slot_ref 7 ROOT_SLOT := example_root]> example_slots) in Hv.
      apply lookup_insert_Some in Hv as [[? ?]|[_ Hv]]; [done|]. unfold example_slots in Hv.
      repeat (apply lookup_insert_Some in Hv as [[_ <-]|[_ Hv]]; [done|]).
      by rewrite lookup_singleton_Some in Hv; destruct Hv as [_ <-].
Defined.

(** C3: COPY and MINT of a Node, invoked with READ and WRITE rights on it and with an
    empty destination slot outside the chain of the source, put an alias of the source
    behind it with the source's rights (COPY) or the new ones (MINT) exactly when the
    source has the COPY right and, for MINT, all of the new rights; otherwise they
    report [PERMISSION_DENIED] and change nothing. *)
Theorem node_copy_mint_spec k owner a self selfv op di sd nr l1 s l2 v d dv :
  slots k !! self = Some selfv → has_rights (rights selfv) RIGHTS_READ_WRITE = true →
  op = NODE_COPY ∨ op = NODE_MINT →
  answers (message_or_0 owner NODE_DESTINATION_INDEX) k di →
  answers (message_or_0 owner NODE_SOURCE_DESCRIPTOR) k sd →
  answers (message_or_0 owner NODE_NEW_RIGHTS) k nr →
  answers (node_retrieve_slot a di) k (Ok d) → answers (traverse_root owner sd) k (Ok s) →
  chain (slots k) (l1 ++ s :: l2) → slots k !! s = Some v → d ∉ l1 ++ s :: l2 →
  slots k !! d = Some dv → type dv = CT_NONE →
  let minting := bool_decide (op = NODE_MINT) in
  wp (node_operation_transfer owner a self op)
     (λ r k', if transfer_allowed minting nr v then
        r = Ok tt ∧ slots_after k (λ σ', chain σ' (l1 ++ s :: d :: l2) ∧
          (slot_core <$> σ') = <[d := minted minting nr v]> (slot_core <$> slots k)) k'
      else r = Err CE_PERMISSION_DENIED ∧ k' = k) k.
Proof.
  intros Hself Hrw Hop Hdi Hsd Hnr Hret Htr Hch Hv Hd Hdv Ht minting.
  unfold node_operation_transfer. wp_steps. rewrite Hrw. cbn [negb].
  wp_head. eapply wp_answers; [done|]. wp_head. eapply wp_answers; [done|].
  assert (Hrest : ∀ nr', minting = false ∨ nr' = nr →
    wp (let? destination_slot := map_error convert_lookup_to_capability_error (node_retrieve_slot a di) in
        let? source_slot := map_error convert_lookup_to_capability_error (traverse_root owner sd) in
        if decide (op = NODE_MOVE) then
          map_error convert_kernel_to_capability_error
            (try_move_capability_slot destination_slot source_slot)
        else transfer_copy minting nr' destination_slot source_slot)
     (λ r k', if transfer_allowed minting nr v then
        r = Ok tt ∧ slots_after k (λ σ', chain σ' (l1 ++ s :: d :: l2) ∧
          (slot_core <$> σ') = <[d := minted minting nr v]> (slot_core <$> slots k)) k'
      else r = Err CE_PERMISSION_DENIED ∧ k' = k) k).
  { intros nr' Hnr'. wp_head. wp_head. eapply wp_answers; [done|]. cbn [transform_error].
    wp_head. wp_head. eapply wp_answers; [done|]. cbn [transform_error].
    rewrite decide_False by naive_solver.
    eapply wp_mono; [|eapply (transfer_copy_spec k minting nr' l1 s l2 v d dv); done].
    intros r k'. destruct Hnr' as [-> | ->]; [|done]. done. }
  wp_head. unfold minting in *. destruct (decide (op = NODE_MINT)) as [->|Hne].
  - eapply wp_answers; [done|]. apply Hrest. by right.
  - apply wp_ret, Hrest. left. by apply bool_decide_eq_false.
Qed.

Lemma node_copy_mint_spec_witness :
  wp (node_operation_transfer 7 100 (process_slot_ref 7 ROOT_SLOT) NODE_MINT)
     (λ r k', r = Ok tt ∧ slots_after example_cspace (λ σ',
        chain σ' [array_slot 1 0; array_slot 1 1; array_slot 1 2; array_slot 1 3] ∧
        (slot_core <$> σ')
        = <[array_slot 1 3 := minted true 3 (example_frame (Some (array_slot 1 1)))]>
            (slot_core <$> slots example_cspace)) k') example_cspace.
Proof.
  apply (node_copy_mint_spec example_cspace 7 100 (process_slot_ref 7 ROOT_SLOT) example_root
           NODE_MINT 3 (example_descriptor 2) 3
           [array_slot 1 0; array_slot 1 1] (array_slot 1 2) []
           (example_frame (Some (array_slot 1 1))) (array_slot 1 3) initial_slot);
    try (vm_compute; reflexivity); [by right|by repeat split|set_solver].
Defined.

(** C2: no COPY, MOVE, MINT or DEMOTE creates authority: whatever the state and
    the message registers, every capability held after an operation that ends (its
    component, type and data) was held before, with at least its rights.  With an index
    outside the Node the operation is undefined. *)
Theorem node_operations_confined owner a self op :
  keeps no_new_authority (node_operation_transfer owner a self op) ∧
  keeps no_new_authority (node_operation_demote owner a self).
Proof.
  split; [apply node_operation_transfer_authority|apply node_operation_demote_authority].
Qed.

(** A Node with two index bits (and seven ignored ones) that holds itself. *)
Definition cyclic_cspace : kernel :=
  initial_kernel
    <| nodes := {[100 := MkNode 7 2 (Some 1)]} |>
    <| slots := {[array_slot 1 0 := example_root]} |>.

(** The lookup compares the bits used with the depth only for equality, so a
    descriptor whose depth ends inside a Node that holds itself is followed past
    the 64th bit, where the index is computed by an undefined shift. *)
Theorem traverse_slot_overshoots :
  traverse_slot (C_NODE 100) (Z.shiftl 4 56) (extract_depth (Z.shiftl 4 56)) BYTE_BITS cyclic_cspace
  = Undefined.
Proof. vm_compute. reflexivity. Qed.

(** The index of a Node operation comes from a message register and is not
    checked against the Node's size: DEMOTE of index [2^radix] of a Node forms
    the address of a slot outside the array. *)
Theorem node_index_unchecked :
  node_operation_demote 7 100 (process_slot_ref 7 ROOT_SLOT)
    (example_cspace <| processes := {[7 := initial_process
       <| registers := set_register register_index.RDX 4 (replicate 23 0) |>]} |>)
  = Undefined.
Proof. vm_compute. reflexivity. Qed.
