(* ===== verification/Queues.v ===== *)
(** Messages and wait queues, shared by the IPC Port and the Notification Port:
    [message_info] (src/src/kernel/include/kernel/capability/ipc_port.hpp), the
    queue operations of src/src/kernel/capability/ipc_port.cpp and
    notification_port.cpp, the notification word
    (src/src/kernel/include/kernel/ipc/notification.hpp), and the completion of a
    wait that was cancelled. *)

From S2P Require Import Prelude Word Types Dll Kernel Scheduler Hal ProcessManager.

(** ** [ipc_port::message_info] *)

Module message_info.
Inductive message_source := NORMAL | FAULT | NOTIFICATION | RESERVED.
#[global] Instance message_source_eq_dec : EqDecision message_source.
Proof. solve_decision. Defined.

Definition source_word (s : message_source) : Z :=
  match s with NORMAL => 0 | FAULT => 1 | NOTIFICATION => 2 | RESERVED => 3 end.
(** [static_cast<message_source>] of a two-bit field. *)
Definition source_of_word (w : Z) : message_source :=
  match w with 0 => NORMAL | 1 => FAULT | 2 => NOTIFICATION | _ => RESERVED end.

Definition BLOCK_SHIFT : Z := 0.
Definition MESSAGE_LENGTH_SHIFT : Z := 1.
Definition TRANSFER_COUNT_SHIFT : Z := 9.
Definition SOURCE_SHIFT : Z := 13.
Definition BLOCK_MASK : Z := Z.shiftl 0x01 BLOCK_SHIFT.
Definition MESSAGE_LENGTH_MASK : Z := Z.shiftl 0xFF MESSAGE_LENGTH_SHIFT.
Definition TRANSFER_COUNT_MASK : Z := Z.shiftl 0x0F TRANSFER_COUNT_SHIFT.
Definition SOURCE_MASK : Z := Z.shiftl 0x03 SOURCE_SHIFT.

(** [(data & ~MASK) | (value << SHIFT)]. *)
Definition set_field (mask shift value data : Z) : Z :=
  Z.lor (Z.ldiff data mask) (Z.shiftl value shift).

Definition configure_block (is_block : bool) (data : Z) : Z :=
  set_field BLOCK_MASK BLOCK_SHIFT (if is_block then 1 else 0) data.
Definition configure_message_length (new_message_length data : Z) : Z :=
  set_field MESSAGE_LENGTH_MASK MESSAGE_LENGTH_SHIFT (Z.land new_message_length 0xFF) data.
Definition configure_transfer_count (new_transfer_count data : Z) : Z :=
  set_field TRANSFER_COUNT_MASK TRANSFER_COUNT_SHIFT (Z.land new_transfer_count 0x0F) data.
Definition configure_source (new_source : message_source) (data : Z) : Z :=
  set_field SOURCE_MASK SOURCE_SHIFT (Z.land (source_word new_source) 0x03) data.

(** The constructor from fields; the one from a word is the identity. *)
Definition make (block : bool) (message_length transfer_count : Z) (source : message_source) : Z :=
  configure_source source
    (configure_transfer_count transfer_count
      (configure_message_length message_length (configure_block block 0))).

Definition is_block (data : Z) : bool :=
  negb (Z.shiftr (Z.land data BLOCK_MASK) BLOCK_SHIFT =? 0).
Definition message_length (data : Z) : Z :=
  wrap8 (Z.shiftr (Z.land data MESSAGE_LENGTH_MASK) MESSAGE_LENGTH_SHIFT).
Definition transfer_count (data : Z) : Z :=
  wrap8 (Z.shiftr (Z.land data TRANSFER_COUNT_MASK) TRANSFER_COUNT_SHIFT).
Definition source (data : Z) : message_source :=
  source_of_word (Z.shiftr (Z.land data SOURCE_MASK) SOURCE_SHIFT).
Definition is_normal (data : Z) : bool := bool_decide (source data = NORMAL).
End message_info.

(** [ipc_port::operation_index] *)
Definition IPC_OPERATION_TYPE : Z := 1.
Definition IPC_MESSAGE_INFO : Z := 2.
Definition IPC_IDENTIFIER_SOURCE : Z := IPC_MESSAGE_INFO.
Definition IPC_IDENTIFIER_DESTINATION : Z := 3.
Definition IPC_PAYLOAD_START : Z := 4.

(** [detail::convert_hal_to_capability_error]. *)
Definition convert_hal_to_capability_error (e : hal_error) : capability_error := CE_FATAL.
(** [convert_hal_to_kernel_error], then [convert_kernel_to_capability_error]. *)
Definition hal_to_capability_error (e : hal_error) : capability_error :=
  convert_kernel_to_capability_error (convert_hal_to_kernel_error e).

(** ** Identifiers *)

Section ports.
Context `{config}.

Definition convert_slot_data_to_identifier (d : capability_slot_data) : Z := data_0 d.
(** Only the first word of the local array is written. *)
Definition convert_identifier_to_slot_data (identifier : Z) : capability_slot_data :=
  SlotData identifier indeterminate indeterminate.

(** A slot that names the port [c] of type [t]. *)
Definition configure_port_slot (slot : slot_ref) (c : component_ref) (t : capability_type)
    (identifier : Z) : M kernel_result :=
  modify slots slot
    (λ _, initial_slot <| component := Some c |> <| type := t |> <| rights := RIGHTS_ALL |>
            <| data := convert_identifier_to_slot_data identifier |>);;
  ok.
Definition try_configure_ipc_port_slot (slot : slot_ref) (port identifier : Z) : M kernel_result :=
  configure_port_slot slot (C_IPC_PORT port) CT_IPC_PORT identifier.
Definition try_configure_notification_port_slot (slot : slot_ref) (port identifier : Z)
    : M kernel_result :=
  configure_port_slot slot (C_NOTIFICATION_PORT port) CT_NOTIFICATION_PORT identifier.

(** ** The IPC Port's queue *)

Definition push_ipc_queue (this target_process : Z) : M kernel_result :=
  modify processes target_process (λ p, p <| current_ipc_port := Some this |>);;
  port ← load ipc_ports this;
  match ipc_queue_head port, ipc_queue_tail port with
  | Some _, Some tail =>
      modify processes target_process
        (λ p, p <| next_ipc_queue := None |> <| preview_ipc_queue := Some tail |>);;
      modify processes tail (λ p, p <| next_ipc_queue := Some target_process |>);;
      modify ipc_ports this (λ v, v <| ipc_queue_tail := Some target_process |>);;
      ok
  | _, _ =>
      modify ipc_ports this
        (λ v, v <| ipc_queue_head := Some target_process |>
                <| ipc_queue_tail := Some target_process |>);;
      modify processes target_process
        (λ p, p <| preview_ipc_queue := None |> <| next_ipc_queue := None |>);;
      ok
  end.

Definition pop_ipc_queue (this : Z) : M (result Z kernel_error) :=
  port ← load ipc_ports this;
  match ipc_queue_head port with
  | None => fail KE_NO_SUCH_ADDRESS
  | Some target =>
      tp ← load processes target;
      modify ipc_ports this (λ v, v <| ipc_queue_head := next_ipc_queue tp |>);;
      match next_ipc_queue tp with
      | None =>
          modify ipc_ports this (λ v, v <| ipc_queue_tail := None |> <| ipc_state := IPC_WAIT |>)
      | Some head =>
          modify processes head (λ p, p <| preview_ipc_queue := None |>);;
          modify processes target (λ p, p <| next_ipc_queue := None |>)
      end;;
      modify processes target (λ p, p <| current_ipc_port := None |>);;
      mret (Ok target)
  end.

Definition remove_ipc_queue (this target_process : Z) : M kernel_result :=
  tp ← load processes target_process;
  if decide (current_ipc_port tp ≠ Some this) then fail KE_ILLEGAL_ARGUMENT
  else
    match preview_ipc_queue tp with
    | Some prev => modify processes prev (λ p, p <| next_ipc_queue := next_ipc_queue tp |>)
    | None => modify ipc_ports this (λ v, v <| ipc_queue_head := next_ipc_queue tp |>)
    end;;
    tp ← load processes target_process;
    match next_ipc_queue tp with
    | Some nxt => modify processes nxt (λ p, p <| preview_ipc_queue := preview_ipc_queue tp |>)
    | None => modify ipc_ports this (λ v, v <| ipc_queue_tail := preview_ipc_queue tp |>)
    end;;
    modify processes target_process
      (λ p, p <| next_ipc_queue := None |> <| preview_ipc_queue := None |>
              <| current_ipc_port := None |>);;
    port ← load ipc_ports this;
    match ipc_queue_head port with
    | None =>
        modify ipc_ports this (λ v, v <| ipc_queue_tail := None |> <| ipc_state := IPC_WAIT |>)
    | Some _ => mret tt
    end;;
    ok.

(** ** The Notification Port's queue *)

Definition push_notification_queue (this target_process : Z) : M kernel_result :=
  modify processes target_process (λ p, p <| current_notification_port := Some this |>);;
  port ← load notification_ports this;
  match np_queue_head port, np_queue_tail port with
  | Some _, Some tail =>
      modify processes target_process (λ p, p <| next_notification_queue := None |>);;
      modify processes tail (λ p, p <| next_notification_queue := Some target_process |>);;
      modify processes target_process (λ p, p <| preview_notification_queue := Some tail |>);;
      modify notification_ports this (λ v, v <| np_queue_tail := Some target_process |>);;
      ok
  | _, _ =>
      modify notification_ports this
        (λ v, v <| np_queue_head := Some target_process |>
                <| np_queue_tail := Some target_process |>);;
      modify processes target_process
        (λ p, p <| preview_notification_queue := None |> <| next_notification_queue := None |>);;
      ok
  end.

Definition pop_notification_queue (this : Z) : M (result Z kernel_error) :=
  port ← load notification_ports this;
  match np_queue_head port with
  | None => fail KE_NO_SUCH_ADDRESS
  | Some target =>
      tp ← load processes target;
      modify notification_ports this (λ v, v <| np_queue_head := next_notification_queue tp |>);;
      match next_notification_queue tp with
      | None =>
          modify notification_ports this
            (λ v, v <| np_queue_tail := None |> <| np_state := NP_WAIT |>)
      | Some head => modify processes head (λ p, p <| preview_notification_queue := None |>)
      end;;
      modify processes target
        (λ p, p <| next_notification_queue := None |> <| preview_notification_queue := None |>
                <| current_notification_port := None |>);;
      mret (Ok target)
  end.

Definition remove_notification_queue (this target_process : Z) : M kernel_result :=
  tp ← load processes target_process;
  if decide (current_notification_port tp ≠ Some this) then fail KE_ILLEGAL_ARGUMENT
  else
    match preview_notification_queue tp with
    | Some prev =>
        modify processes prev (λ p, p <| next_notification_queue := next_notification_queue tp |>)
    | None => modify notification_ports this (λ v, v <| np_queue_head := next_notification_queue tp |>)
    end;;
    tp ← load processes target_process;
    match next_notification_queue tp with
    | Some nxt =>
        modify processes nxt
          (λ p, p <| preview_notification_queue := preview_notification_queue tp |>)
    | None =>
        modify notification_ports this (λ v, v <| np_queue_tail := preview_notification_queue tp |>)
    end;;
    modify processes target_process
      (λ p, p <| next_notification_queue := None |> <| preview_notification_queue := None |>
              <| current_notification_port := None |>);;
    port ← load notification_ports this;
    match np_queue_head port with
    | None =>
        modify notification_ports this
          (λ v, v <| np_queue_tail := None |> <| np_state := NP_WAIT |>)
    | Some _ => mret tt
    end;;
    ok.

(** ** The notification word *)

Definition has_notification (n : notification) : bool :=
  bool_decide (current_state n = NS_HAS_FLAG) && negb (flag n =? 0).
Definition notify (new_flag : Z) (n : notification) : notification :=
  MkNotification NS_HAS_FLAG (Z.lor (flag n) new_flag).
(** The state [consume] leaves; it returns the old [flag]. *)
Definition consume (n : notification) : notification := MkNotification NS_NONE 0.

(** [core.consume()] of a port. *)
Definition consume_notification (this : Z) : M Z :=
  port ← load notification_ports this;
  modify notification_ports this (λ v, v <| core ::= consume |>);;
  mret (flag (core port)).

(** ** Cancelled waits *)

(** [invocation_result_index] *)
Definition RESULT_IS_SUCCESS : Z := 0.
Definition RESULT_ERROR_CODE : Z := 1.

Definition complete_revoked_wait (target : Z) : M capability_result :=
  let? _ := map_error convert_hal_to_capability_error
              (configure_message_register target RESULT_IS_SUCCESS 0) in
  let? _ := map_error convert_hal_to_capability_error
              (configure_message_register target RESULT_ERROR_CODE
                 (capability_error_word CE_ILLEGAL_OPERATION)) in
  tp ← load processes target;
  if decide (fault_reason tp ≠ FT_NONE) then
    modify processes target (λ p, p <| status := PS_BLOCKED_SUSPEND |>);; ok
  else
    match status tp with
    | PS_BLOCKED_SEND | PS_BLOCKED_RECEIVE | PS_BLOCKED_REPLY | PS_BLOCKED_WAIT =>
        map_error convert_kernel_to_capability_error (mark_scheduled target target)
    | _ => ok
    end.

End ports.
