(* ===== verification/QueueProofs.v ===== *)
(** Correctness of messages and wait queues (Queues.v): the fields of a
    [message_info] are independent, and the pointer structure of a port's queue
    is a FIFO list of processes. *)

From S2P Require Import Prelude Word Types Dll Kernel Scheduler Hal ProcessManager Queues.

(** ** The queue of an IPC Port *)

(** A process without what the IPC queues thread through it. *)
Definition ipc_core (v : process) : process :=
  v <| next_ipc_queue := None |> <| preview_ipc_queue := None |> <| current_ipc_port := None |>.

Abbreviation ipc_links ps := (heap_links preview_ipc_queue next_ipc_queue ps).

(** The pointers of the port at [a] represent the list [l] of its waiters. *)
Record ipc_queue_repr (a : Z) (ps : gmap Z process) (port : ipc_port) (l : list Z) : Prop := {
  ipc_repr_head : ipc_queue_head port = head l;
  ipc_repr_tail : ipc_queue_tail port = last l;
  ipc_repr_dlist : dlist (ipc_links ps) l;
  ipc_repr_member p v : ps !! p = Some v → current_ipc_port v = Some a ↔ p ∈ l;
}.

Definition ipc_queue (a : Z) (k : kernel) (l : list Z) : Prop :=
  ∃ port, ipc_ports k !! a = Some port ∧ ipc_queue_repr a (processes k) port l.

(** A port advertises a sender or a receiver exactly when one waits. *)
Definition ipc_state_ok (a : Z) (k : kernel) (l : list Z) : Prop :=
  ∃ port, ipc_ports k !! a = Some port ∧ (ipc_state port = IPC_WAIT ↔ l = []).

(** The state after an operation on the queue of the port at [a]: nothing but
    that port and the queue fields of the processes in [T] changed. *)
Record ipc_after (a : Z) (T : Z → Prop) (k k' : kernel) : Prop := {
  ipc_after_only : k' = k <| processes := processes k' |> <| ipc_ports := ipc_ports k' |>;
  ipc_after_frame : link_frame ipc_core T (processes k) (processes k');
  ipc_after_ports b : b ≠ a → ipc_ports k' !! b = ipc_ports k !! b;
}.

Lemma ipc_repr_at a ps port l1 p l2 :
  ipc_queue_repr a ps port (l1 ++ p :: l2) →
  ∃ v, ps !! p = Some v ∧ current_ipc_port v = Some a ∧
       preview_ipc_queue v = last l1 ∧ next_ipc_queue v = head l2.
Proof.
  intros Hr. pose proof (ipc_repr_dlist _ _ _ _ Hr) as Hd. apply dlist_lookup in Hd.
  unfold heap_links in Hd. destruct (ps !! p) as [v|] eqn:Hv; [|done]. cbn in Hd. simplify_eq.
  exists v. split_and!; try done. apply (ipc_repr_member _ _ _ _ Hr p v Hv). set_solver.
Qed.

Lemma ipc_repr_fresh a ps port l1 p l2 :
  ipc_queue_repr a ps port (l1 ++ p :: l2) → p ∉ l1 ++ l2.
Proof.
  intros Hr. pose proof (ipc_repr_dlist _ _ _ _ Hr) as Hd%dlist_NoDup%NoDup_app_cons_notin. set_solver.
Qed.

(** The pointer writes of a queue operation leave the membership marks of the
    processes they do not name. *)
Ltac ipc_member :=
  intros ? ?; rewrite ?lookup_insert; intros; repeat (case_decide; simplify_eq); ksimpl_goal.

Lemma push_ipc_queue_spec a k l p v :
  ipc_queue a k l → processes k !! p = Some v → p ∉ l →
  wp (push_ipc_queue a p)
     (λ r k', r = Ok tt ∧ ipc_queue a k' (l ++ [p]) ∧
        ipc_after a (λ q, q = p ∨ last l = Some q) k k' ∧
        ∃ port port', ipc_ports k !! a = Some port ∧ ipc_ports k' !! a = Some port' ∧
                      ipc_state port' = ipc_state port) k.
Proof.
  intros (port & Hport & Hr) Hp Hnot. unfold push_ipc_queue. wp_steps.
  rewrite (ipc_repr_head _ _ _ _ Hr), (ipc_repr_tail _ _ _ _ Hr).
  destruct l as [|x l _] using rev_ind; cbn [head].
  - wp_steps. split; [done|]. ksimpl_goal. split_and!.
    + exists (port <| ipc_queue_head := Some p |> <| ipc_queue_tail := Some p |>).
      split; [lookup_solve|]. split; ksimpl_goal; try done.
      * apply dlist_singleton. links_solve.
      * ipc_member; [set_solver|]. rewrite (ipc_repr_member _ _ _ _ Hr) by done. set_solver.
    + split; [by destruct k|frame_solve; auto|]. intros b Hb. ksimpl_goal. by rewrite lookup_insert_ne.
    + eexists _, _. split_and!; [done|lookup_solve|done].
  - rewrite last_snoc. destruct (head (l ++ [x])) eqn:Hh; [|by destruct l].
    destruct (ipc_repr_at _ _ _ _ _ _ Hr) as (w & Hw & Hwc & Hwp & Hwn).
    assert (p ≠ x) by set_solver.
    wp_steps. split; [done|]. ksimpl_goal. split_and!.
    + exists (port <| ipc_queue_tail := Some p |>). split; [lookup_solve|]. split; ksimpl_goal.
      * by rewrite head_app, (ipc_repr_head _ _ _ _ Hr), Hh.
      * by rewrite last_snoc.
      * eapply dlist_push; [apply (ipc_repr_dlist _ _ _ _ Hr)|done| |].
        -- intros y Hy. assert (y ≠ p) by (by intros ->). rewrite last_snoc. links_solve.
        -- rewrite last_snoc. links_solve.
      * ipc_member; [set_solver..|].
        rewrite (ipc_repr_member _ _ _ _ Hr) by done. set_solver.
    + split; [by destruct k|frame_solve; auto|]. intros b Hb. ksimpl_goal. by rewrite lookup_insert_ne.
    + eexists _, _. split_and!; [done|lookup_solve|done].
Qed.

Lemma pop_ipc_queue_spec a k p l :
  ipc_queue a k (p :: l) →
  wp (pop_ipc_queue a)
     (λ r k', r = Ok p ∧ ipc_queue a k' l ∧
        ipc_after a (λ q, q = p ∨ head l = Some q) k k' ∧
        (∃ v, processes k' !! p = Some v ∧ current_ipc_port v = None ∧
              next_ipc_queue v = None ∧ preview_ipc_queue v = None) ∧
        ∃ port port', ipc_ports k !! a = Some port ∧ ipc_ports k' !! a = Some port' ∧
          ipc_state port' = if decide (l = []) then IPC_WAIT else ipc_state port) k.
Proof.
  intros (port & Hport & Hr). pose proof (ipc_repr_fresh _ _ _ [] p l Hr) as Hfresh.
  destruct (ipc_repr_at _ _ _ [] p l Hr) as (v & Hv & Hc & Hprev & Hnext).
  unfold pop_ipc_queue. wp_steps. rewrite (ipc_repr_head _ _ _ _ Hr). cbn [head]. wp_steps.
  rewrite Hnext. destruct l as [|h l]; cbn [head].
  - wp_steps. split; [done|]. split_and!.
    + eexists. split; [lookup_solve|]. split; ksimpl_goal; try done.
      ipc_member; [set_solver|]. rewrite (ipc_repr_member _ _ _ _ Hr) by done. set_solver.
    + split; [by destruct k|ksimpl_goal; frame_solve; auto|].
      intros b Hb. ksimpl_goal. by rewrite !lookup_insert_ne.
    + eexists. split; [lookup_solve|]. done.
    + eexists _, _. split_and!; [done|lookup_solve|done].
  - destruct (ipc_repr_at _ _ _ [p] h l Hr) as (w & Hw & Hwc & Hwp & Hwn).
    assert (p ≠ h) by set_solver.
    wp_steps. split; [done|]. split_and!.
    + eexists. split; [lookup_solve|]. split; ksimpl_goal; try done.
      * rewrite (ipc_repr_tail _ _ _ _ Hr). done.
      * eapply dlist_pop; [apply (ipc_repr_dlist _ _ _ _ Hr)|]. intros y Hy.
        assert (y ≠ p) by (by intros ->). links_solve.
      * ipc_member; [set_solver..|]. rewrite (ipc_repr_member _ _ _ _ Hr) by done. set_solver.
    + split; [by destruct k|ksimpl_goal; frame_solve; auto|].
      intros b Hb. ksimpl_goal. by rewrite !lookup_insert_ne.
    + eexists. split; [lookup_solve|]. done.
    + eexists _, _. split_and!; [done|lookup_solve|done].
Qed.

(** The neighbours of a waiter: other processes of the same queue. *)
Lemma ipc_repr_neighbours a ps port l1 p l2 :
  ipc_queue_repr a ps port (l1 ++ p :: l2) →
  ∀ x, last l1 = Some x ∨ head l2 = Some x →
  x ≠ p ∧ (∃ v, ps !! x = Some v ∧ current_ipc_port v = Some a) ∧
  (last l1 = Some x → head l2 ≠ Some x).
Proof.
  intros Hr x Hor. assert (x ∈ l1 ++ l2) as Hx.
  { destruct Hor as [[? ->]%last_Some|[? ->]%head_Some]; set_solver. }
  pose proof (ipc_repr_fresh _ _ _ _ _ _ Hr) as Hs. split_and!.
  - by intros ->.
  - assert (x ∈ l1 ++ p :: l2) as (l1' & l2' & Heq)%list_elem_of_split by set_solver.
    rewrite Heq in Hr. destruct (ipc_repr_at _ _ _ _ _ _ Hr) as (v & ? & ? & _). eauto.
  - intros [? ->]%last_Some [? ->]%head_Some.
    pose proof (ipc_repr_dlist _ _ _ _ Hr) as Hd%dlist_NoDup%NoDup_app.
    destruct Hd as (_ & Hd & _). apply (Hd x); set_solver.
Qed.

(** What the pointer writes of a removal have to amount to. *)
Lemma ipc_repr_remove a ps port l1 p l2 ps' port' v' :
  ipc_queue_repr a ps port (l1 ++ p :: l2) →
  ipc_queue_head port' = head (l1 ++ l2) → ipc_queue_tail port' = last (l1 ++ l2) →
  ps' !! p = Some v' → current_ipc_port v' = None →
  (∀ q w', q ≠ p → ps' !! q = Some w' →
           ∃ w, ps !! q = Some w ∧ current_ipc_port w' = current_ipc_port w) →
  (∀ y, y ∈ l1 ++ l2 → ipc_links ps' y
     = write_prev (head l2) (last l1) (write_next (last l1) (head l2) (ipc_links ps)) y) →
  ipc_queue_repr a ps' port' (l1 ++ l2).
Proof.
  intros Hr Hh Ht Hp Hc Hother Hl. pose proof (ipc_repr_fresh _ _ _ _ _ _ Hr) as Hfresh.
  split; try done.
  - eapply dlist_unlink; [apply (ipc_repr_dlist _ _ _ _ Hr)|done].
  - intros q w' Hw'. destruct (decide (q = p)) as [->|Hne].
    + simplify_eq. rewrite Hc. split; [done|]. intros. by destruct Hfresh.
    + destruct (Hother q w' Hne Hw') as (w & Hw & ->).
      rewrite (ipc_repr_member _ _ _ _ Hr) by done. set_solver.
Qed.

Lemma remove_ipc_queue_spec a k l1 p l2 :
  ipc_queue a k (l1 ++ p :: l2) →
  wp (remove_ipc_queue a p)
     (λ r k', r = Ok tt ∧ ipc_queue a k' (l1 ++ l2) ∧
        ipc_after a (λ q, q = p ∨ last l1 = Some q ∨ head l2 = Some q) k k' ∧
        (∃ v, processes k' !! p = Some v ∧ current_ipc_port v = None ∧
              next_ipc_queue v = None ∧ preview_ipc_queue v = None) ∧
        ∃ port port', ipc_ports k !! a = Some port ∧ ipc_ports k' !! a = Some port' ∧
          ipc_state port' = if decide (l1 ++ l2 = []) then IPC_WAIT else ipc_state port) k.
Proof.
  intros (port & Hport & Hr). pose proof (ipc_repr_neighbours _ _ _ _ _ _ Hr) as Hnb.
  pose proof (ipc_repr_fresh _ _ _ _ _ _ Hr) as Hfresh.
  destruct (ipc_repr_at _ _ _ _ _ _ Hr) as (v & Hv & Hc & Hprev & Hnext).
  unfold remove_ipc_queue. wp_steps. rewrite decide_False by naive_solver. rewrite Hprev.
  destruct (last l1) as [pv|] eqn:Hl1;
    [destruct (Hnb pv) as (? & (pvv & Hpv & Hpvc) & Hpn); [by auto|]|]; wp_steps; rewrite Hnext;
    (destruct (head l2) as [nx|] eqn:Hl2;
      [destruct (Hnb nx) as (? & (nxv & Hnx & Hnxc) & _); [by auto|]|]);
    try (assert (pv ≠ nx) by naive_solver); rewrite ?Hprev; wp_steps; ksimpl_goal;
    rewrite ?(ipc_repr_head _ _ _ _ Hr);
    try (destruct (head_app_last_Some l1 l2 pv p Hl1) as [Hh1 Hh2]; rewrite Hh1;
         destruct (head l1) eqn:Hh; [|by destruct l1]); wp_steps;
    (split; [done|]); split_and!.
  all: try (split; [by destruct k|ksimpl_goal; frame_solve; auto|];
            intros b Hb; ksimpl_goal; by rewrite ?lookup_insert_ne).
  all: try (eexists; split; [lookup_solve|]; by ksimpl_goal).
  all: try (eexists _, _; split; [exact Hport|]; split; [lookup_solve|]; ksimpl_goal;
            try (rewrite decide_False; [done|]; intros [-> ->]%app_nil; done);
            by apply last_None in Hl1 as ->; apply head_None in Hl2 as ->).
  all: eexists; (split; [lookup_solve|]);
    eapply (ipc_repr_remove a _ _ l1 p l2 _ _ _ Hr); ksimpl_goal; try (lookup_solve); try done.
  all: try (intros q w' Hq Hw';
            repeat (apply lookup_insert_Some in Hw' as [[<- <-]|[_ Hw']];
                    [first [done | eexists; split; [eassumption|reflexivity]]|]);
            by eexists).
  all: try (intros y Hy; assert (y ≠ p) by (by intros ->); rewrite Hl1, Hl2; links_solve).
  all: rewrite ?(ipc_repr_head _ _ _ _ Hr), ?(ipc_repr_tail _ _ _ _ Hr);
    try (destruct (last_app_head_Some l1 l2 nx p Hl2) as [Ht1 Ht2]; rewrite ?Ht1, ?Ht2);
    rewrite ?Hh1, ?Hh2, ?(last_app_head_None l1 l2 Hl2), ?(head_app_last_None l1 l2 Hl1), ?Hl1, ?Hl2;
    done.
Qed.

(** An empty queue has nothing to give; a process that waits elsewhere cannot be
    taken out. *)
Lemma pop_ipc_queue_empty a k :
  ipc_queue a k [] → wp (pop_ipc_queue a) (λ r k', r = Err KE_NO_SUCH_ADDRESS ∧ k' = k) k.
Proof.
  intros (port & Hport & Hr). unfold pop_ipc_queue. wp_steps.
  rewrite (ipc_repr_head _ _ _ _ Hr). by wp_steps.
Qed.

Lemma remove_ipc_queue_other a k l p v :
  ipc_queue a k l → processes k !! p = Some v → p ∉ l →
  wp (remove_ipc_queue a p) (λ r k', r = Err KE_ILLEGAL_ARGUMENT ∧ k' = k) k.
Proof.
  intros (port & Hport & Hr) Hp Hnot. unfold remove_ipc_queue. wp_steps.
  rewrite decide_True; [by wp_steps|]. by rewrite (ipc_repr_member _ _ _ _ Hr p v Hp).
Qed.

(** What an operation may touch: the port and the queue fields of processes that
    wait there or are named by the call. *)
Definition ipc_touches (a p : Z) (l : list Z) : kernel → kernel → Prop :=
  ipc_after a (λ q, q = p ∨ q ∈ l).

Lemma ipc_after_mono a (T T' : Z → Prop) k k' :
  (∀ q, T q → T' q) → ipc_after a T k k' → ipc_after a T' k k'.
Proof. intros HT [? ? ?]. split; try done. by eapply link_frame_mono. Qed.

(** C30: the intrusive queue of an IPC Port is a FIFO list of processes.  Pushing
    appends a process, popping takes the first one and reports an empty queue,
    removing takes a waiter out of any place and refuses every other process.
    Nothing but the port and the queue fields of the processes concerned
    changes. *)
Theorem ipc_queue_refines a k l :
  ipc_queue a k l →
  (∀ p v, processes k !! p = Some v → p ∉ l →
     wp (push_ipc_queue a p)
        (λ r k', r = Ok tt ∧ ipc_queue a k' (l ++ [p]) ∧ ipc_touches a p l k k') k) ∧
  wp (pop_ipc_queue a)
     (λ r k', match l with
              | [] => r = Err KE_NO_SUCH_ADDRESS ∧ k' = k
              | p :: l' => r = Ok p ∧ ipc_queue a k' l' ∧ ipc_touches a p l k k'
              end) k ∧
  (∀ p v, processes k !! p = Some v →
     wp (remove_ipc_queue a p)
        (λ r k', if decide (p ∈ l)
                 then r = Ok tt ∧ ipc_touches a p l k k' ∧
                      ∃ l1 l2, l = l1 ++ p :: l2 ∧ ipc_queue a k' (l1 ++ l2)
                 else r = Err KE_ILLEGAL_ARGUMENT ∧ k' = k) k).
Proof.
  intros Hq. split_and!.
  - intros p v Hp Hnot. eapply wp_mono; [|by eapply push_ipc_queue_spec].
    intros r k' (? & ? & Ha & _). split_and!; [done..|]. eapply ipc_after_mono; [|exact Ha].
    intros q [->|Hl]; [by left|right]. apply last_Some in Hl as [l' ->]. set_solver.
  - destruct l as [|p l]; [by apply pop_ipc_queue_empty|].
    eapply wp_mono; [|by apply pop_ipc_queue_spec]. intros r k' (? & ? & Ha & _).
    split_and!; [done..|]. eapply ipc_after_mono; [|exact Ha].
    intros q [->|Hl]; [by left|right]. apply head_Some in Hl as [l' ->]. set_solver.
  - intros p v Hp. case_decide as Hin; [|by eapply remove_ipc_queue_other].
    apply list_elem_of_split in Hin as (l1 & l2 & ->).
    eapply wp_mono; [|by apply remove_ipc_queue_spec]. intros r k' (? & ? & Ha & _).
    split_and!; [done| |by eauto]. eapply ipc_after_mono; [|exact Ha].
    intros q [->|[Hl|Hl]]; [by left|right..].
    + apply last_Some in Hl as [l' ->]. set_solver.
    + apply head_Some in Hl as [l' ->]. set_solver.
Qed.

(** A port at address 100 with the waiters 1 and 2, and a process 3. *)
Definition example_ports : kernel :=
  initial_kernel
    <| processes := {[1 := initial_process <| current_ipc_port := Some 100 |>
                                           <| next_ipc_queue := Some 2 |>;
                      2 := initial_process <| current_ipc_port := Some 100 |>
                                           <| preview_ipc_queue := Some 1 |>;
                      3 := initial_process]} |>
    <| ipc_ports := {[100 := MkIpcPort (Some 1) (Some 2) IPC_READY_TO_SEND]} |>.

Lemma example_ipc_queue : ipc_queue 100 example_ports [1; 2].
Proof.
  eexists. split; [reflexivity|]. split; try reflexivity.
  - repeat split.
  - intros p v Hp.
    assert (p = 1 ∨ p = 2 ∨ p = 3) as [->|[->| ->]].
    { unfold example_ports in Hp. ksimpl.
      repeat (apply lookup_insert_Some in Hp as [[<- _]|[_ Hp]]; [by auto|]).
      by apply lookup_singleton_Some in Hp as [<- _]; auto. }
    all: vm_compute in Hp; simplify_eq; ksimpl_goal; set_solver.
Qed.

Lemma ipc_queue_refines_witness :
  (∀ p v, processes example_ports !! p = Some v → p ∉ [1; 2] →
     wp (push_ipc_queue 100 p)
        (λ r k', r = Ok tt ∧ ipc_queue 100 k' [1; 2; p] ∧
                 ipc_touches 100 p [1; 2] example_ports k') example_ports) ∧
  wp (pop_ipc_queue 100)
     (λ r k', r = Ok 1 ∧ ipc_queue 100 k' [2] ∧ ipc_touches 100 1 [1; 2] example_ports k')
     example_ports ∧
  (∀ p v, processes example_ports !! p = Some v →
     wp (remove_ipc_queue 100 p)
        (λ r k', if decide (p ∈ [1; 2])
                 then r = Ok tt ∧ ipc_touches 100 p [1; 2] example_ports k' ∧
                      ∃ l1 l2, [1; 2] = l1 ++ p :: l2 ∧ ipc_queue 100 k' (l1 ++ l2)
                 else r = Err KE_ILLEGAL_ARGUMENT ∧ k' = example_ports) example_ports).
Proof. exact (ipc_queue_refines 100 example_ports [1; 2] example_ipc_queue). Defined.

(** ** Fields of a [message_info] *)

Section fields.
Import message_info.

(** The field of [width] bits at [shift]. *)
Definition get_field (width shift data : Z) : Z :=
  Z.shiftr (Z.land data (Z.shiftl (Z.ones width) shift)) shift.

Lemma testbit_get_field width shift data i :
  0 ≤ width → 0 ≤ shift → 0 ≤ i →
  Z.testbit (get_field width shift data) i = Z.testbit data (i + shift) && (i <? width).
Proof.
  intros. unfold get_field. rewrite Z.shiftr_spec, Z.land_spec by lia.
  rewrite Z.shiftl_spec by lia. replace (i + shift - shift) with i by lia.
  rewrite Z.testbit_ones_nonneg by lia. done.
Qed.

Lemma testbit_set_field width shift value data i :
  0 ≤ width → 0 ≤ shift → 0 ≤ value < 2 ^ width → 0 ≤ i →
  Z.testbit (set_field (Z.shiftl (Z.ones width) shift) shift value data) i
  = if (shift <=? i) && (i <? shift + width) then Z.testbit value (i - shift) else Z.testbit data i.
Proof.
  intros Hw Hs Hv Hi. unfold set_field. rewrite Z.lor_spec, Z.ldiff_spec.
  rewrite !Z.shiftl_spec by lia.
  destruct (shift <=? i) eqn:H1; destruct (i <? shift + width) eqn:H2; bool_to_prop; cbn [andb].
  - rewrite Z.testbit_ones_nonneg by lia. rewrite (proj2 (Z.ltb_lt _ _)) by lia.
    cbn [negb]. by rewrite andb_false_r.
  - rewrite Z.testbit_ones_nonneg by lia. rewrite (proj2 (Z.ltb_ge _ _)) by lia.
    cbn [negb]. rewrite andb_true_r.
    rewrite <- (Z.mod_small value (2 ^ width)) by lia.
    rewrite Z.mod_pow2_bits_high by lia. by rewrite orb_false_r.
  - rewrite !(Z.testbit_neg_r _ (i - shift)) by lia. by rewrite andb_true_r, orb_false_r.
  - lia.
Qed.

Lemma get_set_field_same width shift value data :
  0 ≤ width → 0 ≤ shift → 0 ≤ value < 2 ^ width →
  get_field width shift (set_field (Z.shiftl (Z.ones width) shift) shift value data) = value.
Proof.
  intros. apply Z.bits_inj'. intros i Hi. rewrite testbit_get_field, testbit_set_field by lia.
  replace (i + shift - shift) with i by lia.
  destruct (i <? width) eqn:Hlt; bool_to_prop.
  - rewrite (proj2 (Z.leb_le _ _)), (proj2 (Z.ltb_lt _ _)) by lia. cbn. by rewrite andb_true_r.
  - rewrite andb_false_r. rewrite <- (Z.mod_small value (2 ^ width)) by lia.
    by rewrite Z.mod_pow2_bits_high by lia.
Qed.

Lemma get_set_field_other width shift width' shift' value data :
  0 ≤ width → 0 ≤ shift → 0 ≤ width' → 0 ≤ shift' → 0 ≤ value < 2 ^ width' →
  shift + width ≤ shift' ∨ shift' + width' ≤ shift →
  get_field width shift (set_field (Z.shiftl (Z.ones width') shift') shift' value data)
  = get_field width shift data.
Proof.
  intros. apply Z.bits_inj'. intros i Hi. rewrite !testbit_get_field, testbit_set_field by lia.
  destruct (i <? width) eqn:Hlt; bool_to_prop; [|by rewrite !andb_false_r].
  destruct ((shift' <=? i + shift) && (i + shift <? shift' + width')) eqn:Hr; [|done].
  bool_to_prop. lia.
Qed.

(** The four fields of a message info word. *)
Definition fields (data : Z) : bool * Z * Z * message_source :=
  (is_block data, message_length data, transfer_count data, source data).

Lemma fields_get data :
  fields data = (negb (get_field 1 0 data =? 0), wrap8 (get_field 8 1 data),
                 wrap8 (get_field 4 9 data), source_of_word (get_field 2 13 data)).
Proof. reflexivity. Qed.

Lemma land_ones_small x width : 0 ≤ width → 0 ≤ x < 2 ^ width → Z.land x (Z.ones width) = x.
Proof. intros. rewrite Z.land_ones by lia. by apply Z.mod_small. Qed.

Lemma fields_block b data :
  fields (configure_block b data) = (b, message_length data, transfer_count data, source data).
Proof.
  rewrite fields_get. unfold configure_block.
  change BLOCK_MASK with (Z.shiftl (Z.ones 1) 0). change BLOCK_SHIFT with 0.
  assert (0 ≤ (if b then 1 else 0) < 2 ^ 1) by (destruct b; lia).
  rewrite get_set_field_same, !get_set_field_other by lia. by destruct b.
Qed.

Lemma fields_message_length len data :
  0 ≤ len < 256 →
  fields (configure_message_length len data) = (is_block data, len, transfer_count data, source data).
Proof.
  intros Hl. rewrite fields_get. unfold configure_message_length.
  change 0xFF with (Z.ones 8). rewrite land_ones_small by lia.
  change MESSAGE_LENGTH_MASK with (Z.shiftl (Z.ones 8) 1). change MESSAGE_LENGTH_SHIFT with 1.
  rewrite get_set_field_same, !get_set_field_other by lia.
  by rewrite (wrap8_id len) by lia.
Qed.

Lemma fields_transfer_count count data :
  0 ≤ count < 16 →
  fields (configure_transfer_count count data) = (is_block data, message_length data, count, source data).
Proof.
  intros Hl. rewrite fields_get. unfold configure_transfer_count.
  change 0x0F with (Z.ones 4). rewrite land_ones_small by lia.
  change TRANSFER_COUNT_MASK with (Z.shiftl (Z.ones 4) 9). change TRANSFER_COUNT_SHIFT with 9.
  rewrite get_set_field_same, !get_set_field_other by lia.
  by rewrite (wrap8_id count) by lia.
Qed.

Lemma fields_source src data :
  fields (configure_source src data) = (is_block data, message_length data, transfer_count data, src).
Proof.
  rewrite fields_get. unfold configure_source.
  change SOURCE_MASK with (Z.shiftl (Z.ones 2) 13). change SOURCE_SHIFT with 13.
  assert (0 ≤ Z.land (source_word src) 3 < 2 ^ 2) by (destruct src; by vm_compute).
  rewrite get_set_field_same, !get_set_field_other by lia. by destruct src.
Qed.

(** A message info built from its fields gives each of them back, and
    writing one field of any word leaves the other three alone. *)
Theorem message_info_fields block len count src data :
  0 ≤ len < 256 → 0 ≤ count < 16 →
  fields (make block len count src) = (block, len, count, src) ∧
  fields (configure_block block data)
    = (block, message_length data, transfer_count data, source data) ∧
  fields (configure_message_length len data)
    = (is_block data, len, transfer_count data, source data) ∧
  fields (configure_transfer_count count data)
    = (is_block data, message_length data, count, source data) ∧
  fields (configure_source src data)
    = (is_block data, message_length data, transfer_count data, src).
Proof.
  intros Hl Hc. split_and!; auto using fields_block, fields_message_length,
    fields_transfer_count, fields_source.
  unfold make. rewrite fields_source.
  pose proof (fields_transfer_count count
                (configure_message_length len (configure_block block 0)) Hc) as H1.
  pose proof (fields_message_length len (configure_block block 0) Hl) as H2.
  pose proof (fields_block block 0) as H3. unfold fields in *. simplify_eq. congruence.
Qed.

Lemma message_info_fields_witness :
  fields (make true 30 2 FAULT) = (true, 30, 2, FAULT) ∧
  fields (configure_block true 0x7fff) = (true, 255, 15, RESERVED) ∧
  fields (configure_message_length 30 0x7fff) = (true, 30, 15, RESERVED) ∧
  fields (configure_transfer_count 2 0x7fff) = (true, 255, 2, RESERVED) ∧
  fields (configure_source FAULT 0x7fff) = (true, 255, 15, FAULT).
Proof. apply (message_info_fields true 30 2 FAULT 0x7fff); lia. Defined.

End fields.
