(* ===== verification/Notification.v ===== *)
(** Notification Ports: src/src/kernel/capability/notification_port.cpp.

    [this] is the address of the port, [owner] the invoking process and [self]
    the slot the capability was invoked through. *)

From S2P Require Import Prelude Word Types Dll Kernel Slot Scheduler Hal ProcessManager Queues.

Inductive notification_operation :=
| OPERATION_NOTIFY | OPERATION_WAIT | OPERATION_POLL | OPERATION_IDENTIFY.
Definition notification_operation_of_word (w : Z) : option notification_operation :=
  match w with
  | 1 => Some OPERATION_NOTIFY | 2 => Some OPERATION_WAIT
  | 3 => Some OPERATION_POLL | 4 => Some OPERATION_IDENTIFY
  | _ => None
  end.

(** [operation_index] and [result_index] *)
Definition NP_OPERATION_TYPE : Z := 1.
Definition NP_NEW_IDENTIFIER : Z := 2.
Definition NP_FLAG_WORD : Z := 2.

Section notification_port.
Context `{config}.

Definition try_wake_binded_process (this current : Z) : M capability_result :=
  port ← load notification_ports this;
  match binded_process port with
  | None => fail CE_FATAL
  | Some target_process =>
      tp ← load processes target_process;
      if decide (status tp ≠ PS_BLOCKED_RECEIVE) then fail CE_FATAL
      else match current_ipc_port tp with
      | None => fail CE_FATAL
      | Some target_ipc_port =>
          let? _ := map_error convert_kernel_to_capability_error
                      (remove_ipc_queue target_ipc_port target_process) in
          let info := message_info.make false 0 0 message_info.NOTIFICATION in
          notification_identifier ← consume_notification this;
          let? _ := map_error convert_hal_to_capability_error
                      (configure_message_register target_process IPC_MESSAGE_INFO info) in
          let? _ := map_error convert_hal_to_capability_error
                      (configure_message_register target_process IPC_IDENTIFIER_DESTINATION
                         notification_identifier) in
          modify processes target_process
            (λ p, p <| status := PS_READY |> <| current_ipc_port := None |>
                    <| current_notification_port := None |>);;
          map_error convert_kernel_to_capability_error
            (mark_scheduled_with_preemption current target_process)
      end
  end.

(** [core.notify(identifier)] and what follows it: also the path an interrupt
    takes, which has no slot. *)
Definition notify_with (this owner identifier : Z) : M capability_result :=
  modify notification_ports this (λ v, v <| core ::= notify identifier |>);;
  port ← load notification_ports this;
  blocked ← match binded_process port with
            | None => mret false
            | Some b => bp ← load processes b; mret (bool_decide (status bp = PS_BLOCKED_RECEIVE))
            end;
  if (blocked : bool) then try_wake_binded_process this owner
  else
    match np_state port with
    | NP_WAIT => ok
    | NP_READY_TO_WAKE =>
        match np_queue_head port with
        | None => fail CE_FATAL
        | Some _ =>
            let? target := map_error convert_kernel_to_capability_error
                             (pop_notification_queue this) in
            flag_word ← consume_notification this;
            let? _ := map_error convert_hal_to_capability_error
                        (configure_message_register target NP_FLAG_WORD flag_word) in
            map_error convert_kernel_to_capability_error
              (mark_scheduled_with_preemption owner target)
        end
    end.

Definition notification_operation_notify (this owner : Z) (self : slot_ref) : M capability_result :=
  sv ← load slots self;
  if Z.land (rights sv) RIGHTS_WRITE =? 0 then fail CE_PERMISSION_DENIED
  else notify_with this owner (convert_slot_data_to_identifier (data sv)).

(** [binded_process && binded_process != &owner]. *)
Definition bound_to_another (port : notification_port) (owner : Z) : bool :=
  match binded_process port with
  | None => false
  | Some b => negb (b =? owner)
  end.

Definition notification_operation_wait (this owner : Z) (self : slot_ref) : M capability_result :=
  sv ← load slots self;
  if Z.land (rights sv) RIGHTS_READ =? 0 then fail CE_PERMISSION_DENIED
  else
    port ← load notification_ports this;
    if bound_to_another port owner then fail CE_FATAL
    else if bool_decide (np_state port = NP_WAIT) && has_notification (core port) then
      flag_word ← consume_notification this;
      map_error convert_hal_to_capability_error
        (configure_message_register owner NP_FLAG_WORD flag_word)
    else
      modify notification_ports this (λ v, v <| np_state := NP_READY_TO_WAKE |>);;
      modify processes owner (λ p, p <| status := PS_BLOCKED_WAIT |>);;
      map_error convert_kernel_to_capability_error
        (let? _ := push_notification_queue this owner in schedule_and_switch_from owner).

Definition notification_operation_poll (this owner : Z) (self : slot_ref) : M capability_result :=
  sv ← load slots self;
  if Z.land (rights sv) RIGHTS_READ =? 0 then fail CE_PERMISSION_DENIED
  else
    port ← load notification_ports this;
    if bound_to_another port owner then fail CE_FATAL
    else
      flag_word ← (if has_notification (core port) then consume_notification this else mret 0);
      map_error convert_hal_to_capability_error
        (configure_message_register owner NP_FLAG_WORD flag_word).

Definition notification_operation_identify (owner : Z) (self : slot_ref) : M capability_result :=
  sv ← load slots self;
  if Z.land (rights sv) RIGHTS_MODIFY =? 0 then fail CE_PERMISSION_DENIED
  else
    let? identifier := map_error convert_hal_to_capability_error
                         (get_message_register owner NP_NEW_IDENTIFIER) in
    modify slots self (λ v, v <| data := convert_identifier_to_slot_data identifier |>);;
    ok.

Definition notification_execute (this owner : Z) (self : slot_ref) : M capability_result :=
  r ← get_message_register owner NP_OPERATION_TYPE;
  match notification_operation_of_word (unwrap_or r 0) with
  | Some OPERATION_NOTIFY => notification_operation_notify this owner self
  | Some OPERATION_WAIT => notification_operation_wait this owner self
  | Some OPERATION_POLL => notification_operation_poll this owner self
  | Some OPERATION_IDENTIFY => notification_operation_identify owner self
  | None => fail CE_ILLEGAL_OPERATION
  end.

Definition bind_process (this target_process : Z) : M kernel_result :=
  port ← load notification_ports this;
  if bound_to_another port target_process then fail KE_ILLEGAL_ARGUMENT
  else modify notification_ports this (λ v, v <| binded_process := Some target_process |>);; ok.

Definition unbind_process (this target_process : Z) : M kernel_result :=
  port ← load notification_ports this;
  if decide (binded_process port ≠ Some target_process) then fail KE_ILLEGAL_ARGUMENT
  else modify notification_ports this (λ v, v <| binded_process := None |>);; ok.

(** [while (queue_head)] of [revoke]: a turn takes a waiter off the queue. *)
Fixpoint notification_revoke_waiters (fuel : nat) (this : Z) : M capability_result :=
  port ← load notification_ports this;
  match np_queue_head port with
  | None => ok
  | Some _ =>
      match fuel with
      | O => out_of_fuel
      | S fuel' =>
          let? target := map_error (λ _, CE_FATAL) (pop_notification_queue this) in
          let? _ := complete_revoked_wait target in
          notification_revoke_waiters fuel' this
      end
  end.

(** The end of [revoke], after the binding is gone. *)
Definition notification_reset (this : Z) : M capability_result :=
  modify notification_ports this (λ v, v <| core ::= consume |> <| np_state := NP_WAIT |>);; ok.

Definition notification_revoke (remove_slot : slot_ref → M kernel_result) (this : Z) (self : slot_ref)
    : M capability_result :=
  fuel ← reads (λ k, size (processes k));
  let? _ := notification_revoke_waiters fuel this in
  port ← load notification_ports this;
  match binded_process port with
  | None => notification_reset this
  | Some target =>
      let? _ := map_error (λ _, CE_FATAL) (unbind_process this target) in
      let slot := process_slot_ref target BINDED_NOTIFICATION_PORT in
      sv ← load slots slot;
      let? _ := (if negb (bool_decide (slot = self))
                    && bool_decide (component sv = Some (C_NOTIFICATION_PORT this))
                 then map_error (λ _, CE_FATAL) (remove_slot slot)
                 else ok) in
      notification_reset this
  end.

End notification_port.

(** * Properties

    Correctness of the notification word: no notification is lost
    between two reads. *)

From S2P Require Import SlotProofs Hal.
(** A port no process waits on or is bound to. *)
Definition quiet (port : notification_port) : Prop :=
  binded_process port = None ∧ np_state port = NP_WAIT.

Section notify.
Context `{config} (a owner : Z).

Lemma notify_with_spec k port id Q :
  notification_ports k !! a = Some port → quiet port →
  Q (Ok tt) (k <| notification_ports ::= <[a := port <| core ::= notify id |>]> |>) →
  wp (notify_with a owner id) Q k.
Proof.
  intros Hp [Hb Hw] HQ. unfold notify_with. wp_steps. ksimpl_goal. rewrite Hb. wp_steps.
  rewrite Hw. wp_steps. exact HQ.
Qed.

(** NOTIFY with the identifiers [ids], one after the other. *)
Fixpoint notify_all (ids : list Z) : M capability_result :=
  match ids with
  | [] => ok
  | id :: ids' => let? _ := notify_with a owner id in notify_all ids'
  end.

Lemma notify_all_spec k port ids Q :
  notification_ports k !! a = Some port → quiet port →
  Q (Ok tt) (k <| notification_ports ::= <[a := port <| core ::= λ n, foldl (λ n id, notify id n) n ids |>]> |>) →
  wp (notify_all ids) Q k.
Proof.
  revert k port. induction ids as [|id ids IH]; intros k port Hp Hq HQ; cbn [notify_all].
  - wp_steps. eapply (eq_rect _ (Q (Ok tt))); [exact HQ|]. cbn [foldl].
    replace (port <| core ::= λ n, n |>) with port by by destruct port.
    destruct k. cbv [upd]. ksimpl_goal. cbn in Hp. by rewrite insert_id.
  - wp_head. eapply notify_with_spec; [done..|]. eapply IH; [lookup_solve|done|].
    eapply (eq_rect _ (Q (Ok tt))); [exact HQ|]. destruct k. cbv [upd]. ksimpl_goal.
    by rewrite insert_insert_eq.
Qed.
End notify.

Lemma foldl_notify n ids :
  flag (foldl (λ n id, notify id n) n ids) = foldl Z.lor (flag n) ids ∧
  (ids ≠ [] → current_state (foldl (λ n id, notify id n) n ids) = NS_HAS_FLAG).
Proof.
  revert n. induction ids as [|id ids IH]; intros n; cbn [foldl]; [done|].
  destruct (IH (notify id n)) as [-> Hs]. split; [done|]. intros _.
  destruct ids; [done|]. by apply Hs.
Qed.

(** No notification is lost.  After any number of NOTIFYs on a consumed port that
    nobody waits on, a POLL through a capability with the READ right delivers the
    union of their identifiers in the flag word of the poller and leaves nothing
    pending: the next POLL delivers 0. *)
Theorem notifications_accumulate `{config} k a port sender owner self sv ids v0 :
  notification_ports k !! a = Some port → quiet port → core port = MkNotification NS_NONE 0 →
  slots k !! self = Some sv → has_rights (rights sv) RIGHTS_READ = true →
  readable k owner NP_FLAG_WORD v0 →
  wp (let? _ := notify_all a sender ids in notification_operation_poll a owner self)
     (λ r k', r = Ok tt ∧ readable k' owner NP_FLAG_WORD (foldl Z.lor 0 ids) ∧
        ∃ port', notification_ports k' !! a = Some port' ∧ has_notification (core port') = false ∧
                 quiet port') k.
Proof.
  intros Hp Hq Hc Hs Hr Hv. wp_head. eapply notify_all_spec; [done..|].
  unfold notification_operation_poll. wp_steps. change RIGHTS_READ with (2 ^ 0) in *.
  rewrite has_right_bit, Hr by done. cbn [negb]. wp_steps. unfold bound_to_another. ksimpl_goal.
  rewrite (proj1 Hq). rewrite Hc. set (n := foldl _ _ _).
  destruct (foldl_notify (MkNotification NS_NONE 0) ids) as [Hflag Hstate]. fold n in Hflag, Hstate.
  cbn [flag] in Hflag. rewrite <- Hflag.
  assert (Hgo : ∀ n' w, has_notification n' = false → w = flag n →
    wp (configure_message_register owner NP_FLAG_WORD w)
       (λ r k', transform_error convert_hal_to_capability_error r = Ok tt ∧ readable k' owner NP_FLAG_WORD (flag n) ∧
          ∃ port', notification_ports k' !! a = Some port' ∧ has_notification (core port') = false ∧ quiet port')
       (k <| notification_ports ::= <[a := port <| core := n' |>]> |>)).
  { intros n' w Hn' ->. eapply wp_mono; [|eapply configure_message_register_spec; [done|]].
    - intros r k' (-> & Hread & _ & _ & Hk' & _). split_and!; [done|done|]. rewrite Hk'.
      eexists. split; [lookup_solve|]. done.
    - apply readable_spec. apply readable_spec in Hv. exact Hv. }
  destruct (has_notification n) eqn:Hn.
  - unfold consume_notification. wp_steps. ksimpl_goal.
    match goal with |- wp _ _ ?s =>
      replace s with (k <| notification_ports ::= <[a := port <| core := consume n |>]> |>) end.
    { apply Hgo; [done|]. ksimpl_goal. by rewrite Hc. }
    destruct k. cbv [upd]. ksimpl_goal. rewrite insert_insert_eq. by rewrite Hc.
  - wp_steps. replace (port <| core ::= _ |>) with (port <| core := n |>) by (subst n; by rewrite <- Hc; destruct port).
    apply Hgo; [done|]. unfold has_notification in Hn. destruct ids as [|id ids]; [done|].
    rewrite Hstate, bool_decide_eq_true_2 in Hn by done. cbn [andb] in Hn.
    apply negb_false_iff in Hn. bool_to_prop. done.
Qed.

Section example.
#[local] Existing Instance example_config.

(** Two notifications, 1 and 4, and a poll by process 2. *)
Lemma notifications_accumulate_witness :
  let k := initial_kernel <| processes := {[2 := initial_process]} |>
    <| slots := {[array_slot 1 0 := initial_slot <| rights := RIGHTS_ALL |>]} |>
    <| notification_ports := {[300 := MkNotificationPort (MkNotification NS_NONE 0) None None None NP_WAIT]} |> in
  wp (let? _ := notify_all 300 1 [1; 4] in notification_operation_poll 300 2 (array_slot 1 0))
     (λ r k', r = Ok tt ∧ readable k' 2 NP_FLAG_WORD 5 ∧
        ∃ port', notification_ports k' !! 300 = Some port' ∧ has_notification (core port') = false ∧
                 quiet port') k.
Proof.
  intros k. apply (notifications_accumulate k 300
    (MkNotificationPort (MkNotification NS_NONE 0) None None None NP_WAIT) 1 2 (array_slot 1 0)
    (initial_slot <| rights := RIGHTS_ALL |>) [1; 4] 0); done.
Defined.
End example.
