(* ===== verification/IpcPort.v ===== *)
(** IPC Ports: src/src/kernel/capability/ipc_port.cpp.

    [this] is the address of the port, [owner] the invoking process, [self] the
    slot the capability was invoked through and [info] the word of a
    [message_info]. *)

From S2P Require Import Prelude Word Types Dll Kernel Slot Scheduler Hal ProcessManager.
From S2P Require Import Node Queues Notification.

Inductive ipc_operation :=
| IPC_SEND | IPC_RECEIVE | IPC_CALL | IPC_REPLY | IPC_REPLY_RECEIVE | IPC_IDENTIFY.
Definition ipc_operation_of_word (w : Z) : option ipc_operation :=
  match w with
  | 1 => Some IPC_SEND | 2 => Some IPC_RECEIVE | 3 => Some IPC_CALL
  | 4 => Some IPC_REPLY | 5 => Some IPC_REPLY_RECEIVE | 6 => Some IPC_IDENTIFY
  | _ => None
  end.

Inductive reply_cancellation_mode := DETACH_ONLY | RESUME_WITH_ERROR.

(** Message registers of fault messages: [fault_index] and the enumerations that
    extend it. *)
Definition FAULT_MR_IS_SUCCESS : Z := 0.
Definition FAULT_MR_ERROR_CODE : Z := 1.
Definition FAULT_MR_MESSAGE_INFO : Z := 2.
Definition FAULT_MR_IDENTIFIER : Z := 3.
Definition FAULT_MR_FAULT_REASON : Z := 4.
Definition FAULT_MR_PROGRAM_COUNTER : Z := 5.
Definition FAULT_MEMORY_MR_ADDRESS : Z := 6.
Definition FAULT_MEMORY_MR_ARCHITECTURE_CODE : Z := 7.
Definition FAULT_MEMORY_MESSAGE_LENGTH : Z := 8.
Definition FAULT_MR_ARCHITECTURE_CODE : Z := 6.
Definition FAULT_MESSAGE_LENGTH : Z := 7.
Definition FAULT_KERNEL_CALL_MR_NUMBER : Z := 6.
Definition FAULT_KERNEL_CALL_MR_CONTEXT_START : Z := 7.

Section ipc_port.
Context `{config}.

(** ** Messages *)

Definition get_message_info (owner : Z) : M (result Z kernel_error) :=
  map_error convert_hal_to_kernel_error (get_message_register owner IPC_MESSAGE_INFO).

(** One element of [copy_messages]. *)
Definition copy_message (destination_process source_process i : Z) : M kernel_result :=
  let index := wadd i IPC_PAYLOAD_START in
  map_error convert_hal_to_kernel_error
    (let? v := get_message_register source_process index in
     configure_message_register destination_process index v).

(** [for (i = start; ...; i++)] over [count] elements. *)
Fixpoint copy_messages_loop (destination_process source_process start : Z) (count : nat)
    : M kernel_result :=
  match count with
  | O => ok
  | S count' =>
      let? _ := copy_message destination_process source_process start in
      copy_messages_loop destination_process source_process (start + 1) count'
  end.

(** The first loop copies what fits in registers and returns early when the
    message ends there; the second copies the rest. *)
Definition copy_messages (destination_process source_process message_length : Z) : M kernel_result :=
  let register_payload_count := MESSAGE_REGISTER_COUNT - IPC_PAYLOAD_START in
  if message_length <? register_payload_count
  then copy_messages_loop destination_process source_process 0 (Z.to_nat message_length)
  else
    let? _ := copy_messages_loop destination_process source_process 0
                (Z.to_nat register_payload_count) in
    copy_messages_loop destination_process source_process register_payload_count
      (Z.to_nat (message_length - register_payload_count)).

Definition lookup_invalid_argument (e : capability_lookup_error) : capability_error :=
  CE_INVALID_ARGUMENT.

(** The body of the loop of [move_capabilities]. *)
Definition move_capability (destination_node_slot : slot_ref) (source_process b i offset : Z)
    : M capability_result :=
  buf ← load ipc_buffers b;
  source_descriptor ← defined (transfer_source_descriptors buf !! Z.to_nat i);
  let? source_slot := map_error lookup_invalid_argument
                        (traverse_root source_process source_descriptor) in
  dn ← load slots destination_node_slot;
  c ← defined (component dn);
  let? destination_slot := map_error lookup_invalid_argument (retrieve_slot c (wadd i offset)) in
  map_error (λ _, CE_INVALID_ARGUMENT) (try_move_capability_slot destination_slot source_slot).

Fixpoint move_capabilities_loop (destination_node_slot : slot_ref) (source_process b i offset : Z)
    (count : nat) : M capability_result :=
  match count with
  | O => ok
  | S count' =>
      let? _ := move_capability destination_node_slot source_process b i offset in
      move_capabilities_loop destination_node_slot source_process b (i + 1) offset count'
  end.

Definition move_capabilities (destination_process source_process transfer_count : Z)
    : M capability_result :=
  if transfer_count =? 0 then ok
  else
    dp ← load processes destination_process;
    sp ← load processes source_process;
    dframe ← load slots (process_slot_ref destination_process BUFFER_FRAME);
    sframe ← load slots (process_slot_ref source_process BUFFER_FRAME);
    match buffer dp, buffer sp with
    | Some db, Some sb =>
        if negb (bool_decide (type dframe = CT_FRAME)) || negb (bool_decide (type sframe = CT_FRAME))
        then fail CE_ILLEGAL_OPERATION
        else
          dbuf ← load ipc_buffers db;
          let? destination_node_slot := map_error lookup_invalid_argument
               (traverse_root destination_process (transfer_destination_node dbuf)) in
          dn ← load slots destination_node_slot;
          if negb (bool_decide (is_Some (component dn))) || negb (bool_decide (type dn = CT_NODE))
          then fail CE_INVALID_ARGUMENT
          else
            dbuf ← load ipc_buffers db;
            move_capabilities_loop destination_node_slot source_process sb 0
              (transfer_destination_index dbuf) (Z.to_nat transfer_count)
    | _, _ => fail CE_ILLEGAL_OPERATION
    end.

(** The message info and the identifier; the results are not checked. *)
Definition write_message_header (receiver sender info : Z) : M unit :=
  configure_message_register receiver IPC_MESSAGE_INFO info;;
  sp ← load processes sender;
  configure_message_register receiver IPC_IDENTIFIER_DESTINATION (identifier_when_blocked sp);;
  mret tt.

Definition is_empty_message (info : Z) : bool :=
  (message_info.message_length info =? 0) && (message_info.transfer_count info =? 0).

Definition transfer_message (this receiver sender info : Z) : M capability_result :=
  write_message_header receiver sender info;;
  if is_empty_message info then ok
  else
    let? _ := or_else (copy_messages receiver sender (message_info.message_length info))
                (λ _, modify ipc_ports this (λ v, v <| ipc_state := IPC_WAIT |>);; fail CE_FATAL) in
    move_capabilities receiver sender (message_info.transfer_count info).

Definition transfer_direct_message (receiver sender info : Z) : M capability_result :=
  write_message_header receiver sender info;;
  if is_empty_message info then ok
  else
    let? _ := or_else (copy_messages receiver sender (message_info.message_length info))
                (λ _, fail CE_FATAL) in
    if negb (message_info.transfer_count info =? 0)
    then move_capabilities receiver sender (message_info.transfer_count info)
    else ok.

(** [write_message_registers<...>]. *)
Fixpoint write_message_registers (owner : Z) (values : list (Z * Z)) : M capability_result :=
  match values with
  | [] => ok
  | (index, value) :: rest =>
      let? _ := map_error convert_hal_to_capability_error
                  (configure_message_register owner index value) in
      write_message_registers owner rest
  end.

Definition is_synchronized (this : Z) : M bool :=
  port ← load ipc_ports this;
  if negb (bool_decide (ipc_state port = IPC_WAIT))
     && (negb (bool_decide (is_Some (ipc_queue_head port)))
         || negb (bool_decide (is_Some (ipc_queue_tail port))))
  then modify ipc_ports this (λ v, v <| ipc_state := IPC_WAIT |>);; mret false
  else mret true.

Definition make_fault_info (message_length : Z) : Z :=
  message_info.make false (wrap8 message_length) 0 message_info.FAULT.

(** The registers every fault message starts with. *)
Definition fault_header (info identifier : Z) (reason : fault_type) (fault_pc : Z) : list (Z * Z) :=
  [(FAULT_MR_IS_SUCCESS, 1); (FAULT_MR_ERROR_CODE, 0); (FAULT_MR_MESSAGE_INFO, info);
   (FAULT_MR_IDENTIFIER, identifier); (FAULT_MR_FAULT_REASON, fault_type_word reason);
   (FAULT_MR_PROGRAM_COUNTER, fault_pc)].

(** The fault message of [sp]: the registers written one by one by the
    [write_message_registers] of its case, then its hardware context (for an
    invalid kernel call); [None] for the cases that cannot be reported. *)
Definition fault_message (sp : process) (fault_pc : Z) : option (list (Z * Z) * list (Z * Z)) :=
  let id := identifier_when_blocked sp in
  match fault_reason sp with
  | FT_MEMORY | FT_MEMORY_INSTRUCTION_FETCH =>
      Some (fault_header (make_fault_info FAULT_MEMORY_MESSAGE_LENGTH) id (fault_reason sp) fault_pc
            ++ [(FAULT_MEMORY_MR_ADDRESS, fault_address sp);
                (FAULT_MEMORY_MR_ARCHITECTURE_CODE, arch_fault_code sp)], [])
  | FT_INVALID_INSTRUCTION | FT_INVALID_ARITHMETIC | FT_ARCHITECTURE =>
      Some (fault_header (make_fault_info FAULT_MESSAGE_LENGTH) id (fault_reason sp) fault_pc
            ++ [(FAULT_MR_ARCHITECTURE_CODE, arch_fault_code sp)], [])
  | FT_INVALID_KERNEL_CALL =>
      Some (fault_header
              (make_fault_info (FAULT_KERNEL_CALL_MR_CONTEXT_START + HARDWARE_CONTEXT_SIZE))
              id (fault_reason sp) fault_pc
            ++ [(FAULT_KERNEL_CALL_MR_NUMBER, wrap (fault_code sp))],
            imap (λ i r, (FAULT_KERNEL_CALL_MR_CONTEXT_START + Z.of_nat i, r)) (registers sp))
  | FT_FATAL | FT_NONE => None
  end.

Definition transfer_fault_message (this receiver sender : Z) : M capability_result :=
  synchronized ← is_synchronized this;
  if negb synchronized then fail CE_FATAL
  else
    port ← load ipc_ports this;
    match ipc_queue_head port with
    | None => modify ipc_ports this (λ v, v <| ipc_state := IPC_WAIT |>)
    | Some _ => mret tt
    end;;
    pc ← get_general_register sender RT_INSTRUCTION_POINTER;
    sp ← load processes sender;
    match fault_message sp (unwrap_or pc 0) with
    | None => fail CE_FATAL
    | Some (header, context) =>
        let? _ := write_message_registers receiver header in
        write_message_registers receiver context
    end.

(** ** Replies *)

Definition cancel_reply (client : Z) (mode : reply_cancellation_mode) : M capability_result :=
  cp ← load processes client;
  match source_reply_target cp with
  | None => mret tt
  | Some server =>
      sp ← load processes server;
      if decide (destination_reply_target sp = Some client) then
        modify processes server
          (λ p, p <| destination_reply_target := None |> <| destination_reply_state := DR_NONE |>)
      else mret tt
  end;;
  modify processes client
    (λ p, p <| source_reply_target := None |> <| source_reply_state := SR_NONE |>);;
  match mode with
  | RESUME_WITH_ERROR => complete_revoked_wait client
  | DETACH_ONLY => ok
  end.

(** [for (i = 0; i < register_count; i++) client.registers[i] = ...]. *)
Fixpoint reply_registers_loop (owner client i : Z) (count : nat) : M capability_result :=
  match count with
  | O => ok
  | S count' =>
      let? value := map_error hal_to_capability_error
                      (get_message_register owner (wadd IPC_PAYLOAD_START i)) in
      modify processes client (λ p, p <| registers ::= set_register i value |>);;
      reply_registers_loop owner client (i + 1) count'
  end.

Definition apply_invalid_kernel_call_reply_context (owner client info : Z) : M capability_result :=
  cp ← load processes client;
  if decide (fault_reason cp ≠ FT_INVALID_KERNEL_CALL) then ok
  else
    let register_count := message_info.message_length info in
    if HARDWARE_CONTEXT_SIZE <? register_count then fail CE_INVALID_ARGUMENT
    else reply_registers_loop owner client 0 (Z.to_nat register_count).

Definition complete_fault_reply_without_message_transfer (owner client : Z) : M capability_result :=
  modify processes client
    (λ p, p <| status := PS_READY |> <| source_reply_state := SR_NONE |>
            <| source_reply_target := None |> <| fault_reason := FT_NONE |>);;
  modify processes owner
    (λ p, p <| destination_reply_state := DR_NONE |> <| destination_reply_target := None |>);;
  map_error convert_kernel_to_capability_error (mark_scheduled owner client).

(** The client's and the server's side of a reply, after its message. *)
Definition finish_reply (owner client : Z) : M unit :=
  modify processes client
    (λ p, p <| status := PS_READY |> <| source_reply_state := SR_NONE |>
            <| source_reply_target := None |> <| fault_reason := FT_NONE |>);;
  modify processes owner
    (λ p, p <| destination_reply_state := DR_NONE |> <| destination_reply_target := None |>).

(** [complete_reply<ShouldEnqueueCaller>]. *)
Definition complete_reply (ShouldEnqueueCaller : bool) (owner info : Z) : M capability_result :=
  op ← load processes owner;
  match destination_reply_state op with
  | DR_NONE => ok
  | DR_READY_TO_REPLY =>
      match destination_reply_target op with
      | None => fail CE_FATAL
      | Some client =>
          cp ← load processes client;
          if decide (fault_reason cp ≠ FT_NONE) then
            let? _ := apply_invalid_kernel_call_reply_context owner client info in
            complete_fault_reply_without_message_transfer owner client
          else
            let? _ := transfer_direct_message client owner info in
            finish_reply owner client;;
            if ShouldEnqueueCaller
            then map_error convert_kernel_to_capability_error (mark_scheduled owner client)
            else ok
      end
  end.

(** [owner.status = READY] and the direct switch to itself a reply ends with. *)
Definition resume_owner (owner : Z) : M capability_result :=
  modify processes owner (λ p, p <| status := PS_READY |>);;
  map_error convert_kernel_to_capability_error (direct_schedule_and_switch owner owner).

Definition ipc_operation_reply (owner info : Z) : M capability_result :=
  op ← load processes owner;
  match destination_reply_state op with
  | DR_NONE => ok
  | DR_READY_TO_REPLY =>
      match destination_reply_target op with
      | None => fail CE_FATAL
      | Some client =>
          cp ← load processes client;
          if decide (fault_reason cp ≠ FT_NONE) then
            let? _ := apply_invalid_kernel_call_reply_context owner client info in
            let? _ := complete_fault_reply_without_message_transfer owner client in
            resume_owner owner
          else
            let? _ := transfer_direct_message client owner info in
            finish_reply owner client;;
            let? _ := map_error convert_kernel_to_capability_error (mark_scheduled owner client) in
            resume_owner owner
      end
  end.

(** ** Rendezvous *)

(** The Notification Port bound to [owner], when its slot holds one. *)
Definition bound_notification_port (owner : Z) : M (option Z) :=
  sv ← load slots (process_slot_ref owner BINDED_NOTIFICATION_PORT);
  match type sv, component sv with
  | CT_NOTIFICATION_PORT, Some (C_NOTIFICATION_PORT port) => mret (Some port)
  | CT_NOTIFICATION_PORT, Some _ => undefined
  | _, _ => mret None
  end.

Definition has_pending_notification (owner : Z) : M bool :=
  bound ← bound_notification_port owner;
  match bound with
  | None => mret false
  | Some port => pv ← load notification_ports port; mret (has_notification (core pv))
  end.

(** The value is [delivered]. *)
Definition try_deliver_pending_binded_notification (owner : Z) : M (result bool capability_error) :=
  bound ← bound_notification_port owner;
  match bound with
  | None => mret (Ok false)
  | Some port =>
      pv ← load notification_ports port;
      if negb (has_notification (core pv)) then mret (Ok false)
      else
        let info := message_info.make false 0 0 message_info.NOTIFICATION in
        identifier ← consume_notification port;
        let? _ := map_error hal_to_capability_error
                    (configure_message_register owner IPC_MESSAGE_INFO info) in
        let? _ := map_error hal_to_capability_error
                    (configure_message_register owner IPC_IDENTIFIER_DESTINATION identifier) in
        mret (Ok true)
  end.

(** Every blocking path: queue the process and run another one. *)
Definition block_and_switch (this owner : Z) : M capability_result :=
  map_error convert_kernel_to_capability_error
    (let? _ := push_ipc_queue this owner in schedule_and_switch_from owner).

(** The receiver takes over the reply of [sender]. *)
Definition accept_call (receiver sender : Z) : M unit :=
  modify processes receiver
    (λ p, p <| destination_reply_state := DR_READY_TO_REPLY |>
            <| destination_reply_target := Some sender |>);;
  modify processes sender
    (λ p, p <| status := PS_BLOCKED_REPLY |> <| source_reply_target := Some receiver |>).

Definition try_receive_from_ready_sender (this receiver : Z) : M capability_result :=
  port ← load ipc_ports this;
  if decide (ipc_state port ≠ IPC_READY_TO_SEND) then fail CE_FATAL
  else
    let? sender := map_error convert_kernel_to_capability_error (pop_ipc_queue this) in
    let? sender_info := map_error convert_kernel_to_capability_error (get_message_info sender) in
    rp ← load processes receiver;
    if decide (destination_reply_state rp ≠ DR_NONE) then fail CE_FATAL
    else
      sp ← load processes sender;
      if decide (fault_reason sp ≠ FT_NONE) then
        let? _ := transfer_fault_message this receiver sender in
        accept_call receiver sender;; ok
      else
        let is_call_sender := negb (bool_decide (source_reply_state sp = SR_NONE)) in
        let? _ := transfer_message this receiver sender sender_info in
        if is_call_sender then accept_call receiver sender;; ok
        else
          modify processes receiver
            (λ p, p <| destination_reply_state := DR_NONE |>
                    <| destination_reply_target := None |>);;
          modify processes sender (λ p, p <| status := PS_READY |>);;
          map_error convert_kernel_to_capability_error (mark_scheduled receiver sender).

(** The wait of RECEIVE and REPLY_RECEIVE on a port without a sender. *)
Definition receive_or_block (this owner info : Z) : M capability_result :=
  let? delivered := try_deliver_pending_binded_notification owner in
  if (delivered : bool) then ok
  else if negb (message_info.is_block info) then ok
  else
    modify ipc_ports this (λ v, v <| ipc_state := IPC_READY_TO_RECEIVE |>);;
    modify processes owner (λ p, p <| status := PS_BLOCKED_RECEIVE |>);;
    block_and_switch this owner.

Definition ipc_operation_send (this owner : Z) (self : slot_ref) (info : Z) : M capability_result :=
  sv ← load slots self;
  if Z.land (rights sv) RIGHTS_WRITE =? 0 then fail CE_PERMISSION_DENIED
  else
    let identifier := convert_slot_data_to_identifier (data sv) in
    port ← load ipc_ports this;
    match ipc_state port with
    | IPC_WAIT | IPC_READY_TO_SEND =>
        if negb (message_info.is_block info) then ok
        else
          modify ipc_ports this (λ v, v <| ipc_state := IPC_READY_TO_SEND |>);;
          modify processes owner
            (λ p, p <| status := PS_BLOCKED_SEND |> <| identifier_when_blocked := identifier |>);;
          map_error (λ _, CE_FATAL)
            (let? _ := push_ipc_queue this owner in schedule_and_switch_from owner)
    | IPC_READY_TO_RECEIVE =>
        let? target := map_error convert_kernel_to_capability_error (pop_ipc_queue this) in
        modify processes target (λ p, p <| status := PS_READY |>);;
        modify processes owner (λ p, p <| identifier_when_blocked := identifier |>);;
        let? _ := transfer_message this target owner info in
        map_error convert_kernel_to_capability_error (mark_scheduled owner target)
    end.

Definition ipc_operation_receive (this owner : Z) (self : slot_ref) (info : Z) : M capability_result :=
  sv ← load slots self;
  if Z.land (rights sv) RIGHTS_READ =? 0 then fail CE_PERMISSION_DENIED
  else
    op ← load processes owner;
    let? _ :=
      match destination_reply_state op with
      | DR_NONE => ok
      | DR_READY_TO_REPLY =>
          let? _ := match destination_reply_target op with
                    | None => ok
                    | Some client => cancel_reply client RESUME_WITH_ERROR
                    end in
          modify processes owner
            (λ p, p <| destination_reply_state := DR_NONE |>
                    <| destination_reply_target := None |>);;
          ok
      end in
    port ← load ipc_ports this;
    match ipc_state port with
    | IPC_WAIT | IPC_READY_TO_RECEIVE => receive_or_block this owner info
    | IPC_READY_TO_SEND => try_receive_from_ready_sender this owner
    end.

Definition ipc_operation_call (this owner : Z) (self : slot_ref) (info : Z) : M capability_result :=
  sv ← load slots self;
  if Z.land (rights sv) RIGHTS_WRITE =? 0 then fail CE_PERMISSION_DENIED
  else
    let identifier := convert_slot_data_to_identifier (data sv) in
    port ← load ipc_ports this;
    match ipc_state port with
    | IPC_WAIT | IPC_READY_TO_SEND =>
        if negb (message_info.is_block info) then ok
        else
          let? delivered := try_deliver_pending_binded_notification owner in
          if (delivered : bool) then ok
          else
            modify ipc_ports this (λ v, v <| ipc_state := IPC_READY_TO_SEND |>);;
            modify processes owner
              (λ p, p <| status := PS_BLOCKED_SEND |> <| source_reply_state := SR_WAIT |>
                      <| identifier_when_blocked := identifier |>);;
            block_and_switch this owner
    | IPC_READY_TO_RECEIVE =>
        let? target := map_error convert_kernel_to_capability_error (pop_ipc_queue this) in
        modify processes owner (λ p, p <| identifier_when_blocked := identifier |>);;
        tp ← load processes target;
        if decide (destination_reply_state tp ≠ DR_NONE) then fail CE_FATAL
        else
          modify processes target
            (λ p, p <| destination_reply_state := DR_READY_TO_REPLY |>
                    <| destination_reply_target := Some owner |>);;
          modify processes owner
            (λ p, p <| status := PS_BLOCKED_REPLY |> <| source_reply_state := SR_WAIT |>
                    <| source_reply_target := Some target |>);;
          let? _ := transfer_message this target owner info in
          modify processes target (λ p, p <| status := PS_READY |>);;
          map_error convert_kernel_to_capability_error (direct_schedule_and_switch owner target)
    end.

(** The conditions of REPLY_RECEIVE's direct switch to the client. *)
Definition can_reply_directly (this owner info : Z) : M (option Z) :=
  op ← load processes owner;
  match destination_reply_state op, destination_reply_target op with
  | DR_READY_TO_REPLY, Some client =>
      cp ← load processes client;
      port ← load ipc_ports this;
      if bool_decide (fault_reason cp = FT_NONE) && message_info.is_block info
         && (bool_decide (ipc_state port = IPC_WAIT)
             || bool_decide (ipc_state port = IPC_READY_TO_RECEIVE))
         && (negb SMP_ENABLED || (core_affinity cp =? core_affinity op))
      then
        pending ← has_pending_notification owner;
        mret (if (pending : bool) then None else Some client)
      else mret None
  | _, _ => mret None
  end.

Definition ipc_operation_reply_receive (this owner : Z) (self : slot_ref) (info : Z)
    : M capability_result :=
  sv ← load slots self;
  if Z.land (rights sv) RIGHTS_READ =? 0 then fail CE_PERMISSION_DENIED
  else
    direct ← can_reply_directly this owner info;
    match direct with
    | Some client =>
        let? _ := complete_reply false owner info in
        modify ipc_ports this (λ v, v <| ipc_state := IPC_READY_TO_RECEIVE |>);;
        modify processes owner (λ p, p <| status := PS_BLOCKED_RECEIVE |>);;
        map_error convert_kernel_to_capability_error
          (let? _ := push_ipc_queue this owner in
           op ← load processes owner;
           let local_variable := if SMP_ENABLED then core_affinity op else BSP_ID in
           try_direct_schedule_and_switch_on local_variable client local_variable)
    | None =>
        let? _ := complete_reply true owner info in
        port ← load ipc_ports this;
        match ipc_state port with
        | IPC_READY_TO_SEND => try_receive_from_ready_sender this owner
        | IPC_WAIT | IPC_READY_TO_RECEIVE => receive_or_block this owner info
        end
    end.

Definition ipc_operation_identify (owner : Z) (self : slot_ref) : M capability_result :=
  sv ← load slots self;
  if Z.land (rights sv) RIGHTS_MODIFY =? 0 then fail CE_PERMISSION_DENIED
  else
    let? identifier := map_error hal_to_capability_error
                         (get_message_register owner IPC_IDENTIFIER_SOURCE) in
    modify slots self (λ v, v <| data := convert_identifier_to_slot_data identifier |>);;
    ok.

Definition ipc_execute (this owner : Z) (self : slot_ref) : M capability_result :=
  let? info := map_error convert_kernel_to_capability_error (get_message_info owner) in
  if negb (message_info.is_normal info) then fail CE_INVALID_ARGUMENT
  else
    r ← get_message_register owner IPC_OPERATION_TYPE;
    match ipc_operation_of_word (unwrap_or r 0) with
    | Some IPC_SEND => ipc_operation_send this owner self info
    | Some IPC_RECEIVE => ipc_operation_receive this owner self info
    | Some IPC_CALL => ipc_operation_call this owner self info
    | Some IPC_REPLY => ipc_operation_reply owner info
    | Some IPC_REPLY_RECEIVE => ipc_operation_reply_receive this owner self info
    | Some IPC_IDENTIFY => ipc_operation_identify owner self
    | None => fail CE_ILLEGAL_OPERATION
    end.

(** The faulting process calls its resolver. *)
Definition operation_fault_call (this owner : Z) (self : slot_ref) : M capability_result :=
  sv ← load slots self;
  if (Z.land (rights sv) RIGHTS_WRITE =? 0) || (Z.land (rights sv) RIGHTS_READ =? 0) then
    modify processes owner (λ p, p <| status := PS_BLOCKED_FAULT |>);;
    fail CE_PERMISSION_DENIED
  else
    let identifier := convert_slot_data_to_identifier (data sv) in
    modify processes owner (λ p, p <| identifier_when_blocked := identifier |>);;
    port ← load ipc_ports this;
    match ipc_state port with
    | IPC_WAIT | IPC_READY_TO_SEND =>
        modify ipc_ports this (λ v, v <| ipc_state := IPC_READY_TO_SEND |>);;
        modify processes owner
          (λ p, p <| status := PS_BLOCKED_FAULT |> <| source_reply_state := SR_WAIT |>
                  <| identifier_when_blocked := identifier |>);;
        block_and_switch this owner
    | IPC_READY_TO_RECEIVE =>
        let? target := map_error convert_kernel_to_capability_error (pop_ipc_queue this) in
        modify processes owner (λ p, p <| identifier_when_blocked := identifier |>);;
        tp ← load processes target;
        if decide (destination_reply_state tp ≠ DR_NONE) then
          modify processes owner
            (λ p, p <| status := PS_BLOCKED_FAULT |> <| source_reply_state := SR_WAIT |>);;
          block_and_switch this owner
        else
          modify processes target
            (λ p, p <| destination_reply_state := DR_READY_TO_REPLY |>
                    <| destination_reply_target := Some owner |>);;
          modify processes owner
            (λ p, p <| status := PS_BLOCKED_FAULT |> <| source_reply_state := SR_WAIT |>
                    <| source_reply_target := Some target |>);;
          let? _ := transfer_fault_message this target owner in
          modify processes target (λ p, p <| status := PS_READY |>);;
          map_error convert_kernel_to_capability_error (direct_schedule_and_switch owner target)
    end.

(** ** Revocation *)

(** [while (queue_head)]: a turn takes a waiter off the queue. *)
Fixpoint ipc_revoke_waiters (fuel : nat) (this : Z) : M capability_result :=
  port ← load ipc_ports this;
  match ipc_queue_head port with
  | None => ok
  | Some _ =>
      match fuel with
      | O => out_of_fuel
      | S fuel' =>
          let? target := map_error (λ _, CE_FATAL) (pop_ipc_queue this) in
          modify processes target
            (λ p, p <| source_reply_state := SR_NONE |> <| source_reply_target := None |>);;
          let? _ := complete_revoked_wait target in
          ipc_revoke_waiters fuel' this
      end
  end.

Definition ipc_revoke (this : Z) : M capability_result :=
  fuel ← reads (λ k, size (processes k));
  let? _ := ipc_revoke_waiters fuel this in
  modify ipc_ports this (λ v, v <| ipc_state := IPC_WAIT |>);; ok.

End ipc_port.
