(* ===== verification/IpcProofs.v ===== *)
(** Correctness of message transfer and of the rendezvous on IPC Ports
    (IpcPort.v), on one core. *)

From S2P Require Import Prelude Word Types Dll Kernel Slot SlotProofs Scheduler SchedulerProofs Hal.
From S2P Require Import ProcessManager ProcessManagerProofs Queues QueueProofs Node IpcPort.

(** ** What the parts of the kernel see of a process *)

Definition ipc_view (v : process) : option Z * option Z * option Z :=
  (preview_ipc_queue v, next_ipc_queue v, current_ipc_port v).
Definition reg_view (v : process) : list Z * option Z := (registers v, buffer v).

Lemma view_lookup {B} (f : process → B) (ps ps' : gmap Z process) p v :
  f <$> ps' = f <$> ps → ps !! p = Some v → ∃ v', ps' !! p = Some v' ∧ f v' = f v.
Proof.
  intros Heq Hp. apply (f_equal (.!! p)) in Heq. rewrite !lookup_fmap, Hp in Heq.
  destruct (ps' !! p) as [v'|]; [|done]. exists v'. split; [done|].
  change (Some (f v') = Some (f v)) in Heq. congruence.
Qed.

Lemma view_insert {B} (f : process → B) (ps : gmap Z process) p v w :
  ps !! p = Some v → f w = f v → f <$> <[p := w]> ps = f <$> ps.
Proof. intros Hp Hf. rewrite fmap_insert, Hf. apply insert_id. by rewrite lookup_fmap, Hp. Qed.

Lemma readable_view k k' p i w :
  reg_view <$> processes k' = reg_view <$> processes k → ipc_buffers k' = ipc_buffers k →
  readable k p i w → readable k' p i w.
Proof.
  intros Hv Hb (tp & Htp & Hr)%readable_spec. apply readable_spec.
  destruct (view_lookup _ _ _ _ _ Hv Htp) as (tp' & Htp' & He). exists tp'. split; [done|].
  injection He. intros -> ->. by rewrite Hb.
Qed.

Lemma separate_view k k' p q :
  reg_view <$> processes k' = reg_view <$> processes k →
  separate_buffers k p q → separate_buffers k' p q.
Proof.
  intros Hv Hsep v' w' b Hp Hq Hb.
  destruct (view_lookup _ _ _ _ _ (eq_sym Hv) Hp) as (v & Hv1 & He1).
  destruct (view_lookup _ _ _ _ _ (eq_sym Hv) Hq) as (w & Hw1 & He2).
  injection He1. injection He2. intros He _ Hf _. rewrite <- He, <- Hf in *. by eapply Hsep.
Qed.

Lemma ipc_queue_view a k k' l :
  ipc_view <$> processes k' = ipc_view <$> processes k → ipc_ports k' !! a = ipc_ports k !! a →
  ipc_queue a k l → ipc_queue a k' l.
Proof.
  intros Hv Hp (port & Hport & [H1 H2 H3 H4]). exists port. split; [by rewrite Hp|]. split; try done.
  - eapply dlist_ext; [|exact H3]. intros y Hy. unfold heap_links.
    destruct (processes k !! y) as [v|] eqn:Hky.
    + destruct (view_lookup _ _ _ _ _ Hv Hky) as (v' & -> & He). cbn. by injection He; intros _ -> ->.
    + destruct (processes k' !! y) as [v'|] eqn:Hky'; [|done].
      destruct (view_lookup _ _ _ _ _ (eq_sym Hv) Hky') as (v & ? & _). congruence.
  - intros p v' Hv'. destruct (view_lookup _ _ _ _ _ (eq_sym Hv) Hv') as (v & Hv0 & He).
    rewrite <- (H4 p v Hv0). injection He. by intros -> _ _.
Qed.

Lemma sched_inv_view c k k' qs :
  sched_view <$> processes k' = sched_view <$> processes k →
  cpu_local_variables k' !! c = cpu_local_variables k !! c → sched_inv c k qs → sched_inv c k' qs.
Proof.
  intros Hv Hc (cpu & Hcpu & Hr). exists cpu. split; [by rewrite Hc|]. by eapply sched_repr_view.
Qed.

(** ** Message registers written one after the other *)

(** Nothing but the message registers [J] of [d] changed. *)
Record messages_changed (d : Z) (J : Z → Prop) (k k' : kernel) : Prop := {
  changed_own j w : 0 ≤ j → ¬ J j → readable k d j w → readable k' d j w;
  changed_other q j w : q ≠ d → separate_buffers k d q → readable k q j w → readable k' q j w;
  changed_readable j w : 0 ≤ j → readable k d j w → ∃ w', readable k' d j w';
  changed_only : k' = k <| processes := processes k' |> <| ipc_buffers := ipc_buffers k' |>;
  changed_frame : link_frame (λ x, x <| registers := [] |>) (λ q, q = d) (processes k) (processes k');
}.

Lemma messages_changed_view d J k k' {B} (f : process → B) :
  (∀ v, f v = f (v <| registers := [] |>)) → messages_changed d J k k' →
  f <$> processes k' = f <$> processes k.
Proof.
  intros Hf [_ _ _ _ [Hc _]]. by eapply (fmap_view (λ x : process, x <| registers := [] |>) f).
Qed.

Lemma separate_changed d J k k' p q :
  messages_changed d J k k' → separate_buffers k p q → separate_buffers k' p q.
Proof.
  intros Hm Hsep v w b Hv Hw.
  assert (Hb : buffer <$> processes k' = buffer <$> processes k) by by eapply messages_changed_view.
  destruct (view_lookup _ _ _ _ _ (eq_sym Hb) Hv) as (v0 & Hv0 & He).
  destruct (view_lookup _ _ _ _ _ (eq_sym Hb) Hw) as (w0 & Hw0 & Hf).
  rewrite <- He, <- Hf. by eapply Hsep.
Qed.

Lemma messages_changed_refl d J k : messages_changed d J k k.
Proof. split; [done|done|eauto|by destruct k|apply link_frame_refl]. Qed.

Lemma messages_changed_mono d (J J' : Z → Prop) k k' :
  (∀ j, J j → J' j) → messages_changed d J k k' → messages_changed d J' k k'.
Proof. intros HJ [H1 H2 H3 H4 H5]. split; try done. intros j w Hj Hn. apply H1; [done|]. auto. Qed.

Lemma messages_changed_trans d J k1 k2 k3 :
  messages_changed d J k1 k2 → messages_changed d J k2 k3 → messages_changed d J k1 k3.
Proof.
  intros H12 H23. pose proof H12 as [A1 A2 A3 A4 A5]. pose proof H23 as [B1 B2 B3 B4 B5]. split.
  - intros j w Hj Hn Hr. apply B1; auto.
  - intros q j w Hq Hs Hr. apply B2; [done|by eapply separate_changed|by apply A2].
  - intros j w Hj Hr. destruct (A3 j w Hj Hr) as [w' Hw']. by eapply B3.
  - rewrite B4 at 1. rewrite A4 at 1. by destruct k1.
  - by eapply link_frame_trans.
Qed.

Lemma message_written_changed k d i v k' :
  0 ≤ i → message_written k d i v k' → messages_changed d (λ j, j = i) k k'.
Proof.
  intros Hi (H1 & H2 & H3 & H4 & H5). split; try done.
  intros j w Hj Hr. destruct (decide (j = i)) as [->|]; eauto.
Qed.

(** One write, in the middle of others. *)
Lemma configure_changed_spec k d i v0 v Q :
  0 ≤ i → readable k d i v0 →
  (∀ k', readable k' d i v → messages_changed d (λ j, j = i) k k' → Q (Ok tt) k') →
  wp (configure_message_register d i v) Q k.
Proof.
  intros Hi Hr HQ. eapply wp_mono; [|by eapply configure_message_register_spec].
  intros r k' [-> Hw]. apply HQ; [by destruct Hw|by eapply message_written_changed].
Qed.

(** ** Copying *)

Section copy.
Context (d s : Z) (Hne : s ≠ d).

Lemma copy_messages_loop_spec k lo n Q :
  0 ≤ lo → lo + Z.of_nat n + IPC_PAYLOAD_START < 2 ^ 64 → separate_buffers k d s →
  (∀ i, lo ≤ i < lo + Z.of_nat n →
     (∃ w, readable k s (i + IPC_PAYLOAD_START) w) ∧ ∃ v, readable k d (i + IPC_PAYLOAD_START) v) →
  (∀ k', messages_changed d (λ j, lo ≤ j - IPC_PAYLOAD_START < lo + Z.of_nat n) k k' →
     (∀ i w, lo ≤ i < lo + Z.of_nat n → readable k s (i + IPC_PAYLOAD_START) w →
             readable k' d (i + IPC_PAYLOAD_START) w) →
     Q (Ok tt) k') →
  wp (copy_messages_loop d s lo n) Q k.
Proof.
  unfold IPC_PAYLOAD_START. revert k lo. induction n as [|n IH]; intros k lo Hlo Hb Hsep Hr HQ.
  { apply wp_ret, HQ; [apply messages_changed_refl|lia]. }
  cbn [copy_messages_loop]. unfold copy_message.
  destruct (Hr lo ltac:(lia)) as [[w Hw] [v Hv]].
  assert (wadd lo IPC_PAYLOAD_START = lo + 4) as ->.
  { unfold wadd, wrap, IPC_PAYLOAD_START. apply Z.mod_small. lia. }
  wp_head. wp_head. wp_head. eapply wp_answers; [exact Hw|cbn beta iota].
  eapply configure_changed_spec; [lia|exact Hv|]. intros k1 H1 Hc1. cbn [transform_error].
  eapply IH; [lia|lia|by eapply separate_changed| |].
  - intros i Hi. destruct (Hr i ltac:(lia)) as [[w' Hw'] [v' Hv']]. split.
    + exists w'. by eapply changed_other.
    + eapply changed_readable; [done|lia|done].
  - intros k' Hc2 Hcopy. apply HQ.
    + eapply messages_changed_trans; (eapply messages_changed_mono; [|done]); cbn; intros; lia.
    + intros i w' Hi Hw'. destruct (decide (i = lo)) as [->|].
      * assert (w' = w) as -> by (by pose proof (answers_inj _ _ _ _ Hw Hw') as [= ->]).
        eapply changed_own; [exact Hc2|lia|cbv beta; lia|done].
      * apply Hcopy; [lia|]. by eapply changed_other.
Qed.

Lemma copy_messages_spec k len Q :
  0 ≤ len < 256 → separate_buffers k d s →
  (∀ i, 0 ≤ i < len →
     (∃ w, readable k s (i + IPC_PAYLOAD_START) w) ∧ ∃ v, readable k d (i + IPC_PAYLOAD_START) v) →
  (∀ k', messages_changed d (λ j, 0 ≤ j - IPC_PAYLOAD_START < len) k k' →
     (∀ i w, 0 ≤ i < len → readable k s (i + IPC_PAYLOAD_START) w →
             readable k' d (i + IPC_PAYLOAD_START) w) →
     Q (Ok tt) k') →
  wp (copy_messages d s len) Q k.
Proof.
  intros Hlen Hsep Hr HQ. unfold copy_messages. set (rc := MESSAGE_REGISTER_COUNT - IPC_PAYLOAD_START).
  assert (rc = 6) as -> by done. case_match eqn:Hlt; bool_to_prop.
  - eapply copy_messages_loop_spec; [lia|unfold IPC_PAYLOAD_START; lia|done|..].
    + intros i Hi. apply Hr. lia.
    + intros k' Hc Hcopy. apply HQ; [eapply messages_changed_mono; [|done]; cbn; lia|].
      intros i w Hi. apply Hcopy. lia.
  - wp_head. eapply copy_messages_loop_spec; [lia|unfold IPC_PAYLOAD_START; lia|done|..].
    { intros i Hi. apply Hr. lia. }
    intros k1 Hc1 Hcopy1. eapply copy_messages_loop_spec; [lia|unfold IPC_PAYLOAD_START; lia|by eapply separate_changed|..].
    + intros i Hi. destruct (Hr i ltac:(lia)) as [[w Hw] [v Hv]]. split.
      * exists w. by eapply changed_other.
      * eapply changed_readable; [done|unfold IPC_PAYLOAD_START; lia|done].
    + intros k' Hc2 Hcopy2. apply HQ.
      * eapply messages_changed_trans; (eapply messages_changed_mono; [|done]); cbn; intros; lia.
      * intros i w Hi Hw. destruct (decide (i < 6)).
        -- eapply changed_own; [exact Hc2|unfold IPC_PAYLOAD_START; lia|cbv [IPC_PAYLOAD_START]; lia|].
           apply Hcopy1; [lia|done].
        -- apply Hcopy2; [lia|]. by eapply changed_other.
Qed.
End copy.

(** ** Transfer *)

(** A message of [s] that fits: [info] asks for no capability transfer, and both
    processes have the registers or the buffer for its words. *)
Record transferable (k : kernel) (d s : Z) (sv : process) (info : Z) : Prop := {
  trans_distinct : s ≠ d;
  trans_separate : separate_buffers k d s;
  trans_sender : processes k !! s = Some sv;
  trans_header : (∃ v, readable k d IPC_MESSAGE_INFO v) ∧ ∃ v, readable k d IPC_IDENTIFIER_DESTINATION v;
  trans_payload i : 0 ≤ i < message_info.message_length info →
    (∃ w, readable k s (i + IPC_PAYLOAD_START) w) ∧ ∃ v, readable k d (i + IPC_PAYLOAD_START) v;
  trans_no_caps : message_info.transfer_count info = 0;
}.

(** The words a message of length [len] occupies in the receiver. *)
Definition message_words_of (len j : Z) : Prop :=
  j = IPC_MESSAGE_INFO ∨ j = IPC_IDENTIFIER_DESTINATION ∨ 0 ≤ j - IPC_PAYLOAD_START < len.

(** [d] holds the message of [s] in [k]: its info, the identifier of the sender and
    every word of the payload; nothing else changed. *)
Record message_delivered (d s identifier info : Z) (k k' : kernel) : Prop := {
  delivered_info : readable k' d IPC_MESSAGE_INFO info;
  delivered_identifier : readable k' d IPC_IDENTIFIER_DESTINATION identifier;
  delivered_payload i w : 0 ≤ i < message_info.message_length info →
    readable k s (i + IPC_PAYLOAD_START) w → readable k' d (i + IPC_PAYLOAD_START) w;
  delivered_changed : messages_changed d (message_words_of (message_info.message_length info)) k k';
}.

Lemma message_length_range info : 0 ≤ message_info.message_length info < 256.
Proof. unfold message_info.message_length, wrap8. by apply Z.mod_pos_bound. Qed.

Lemma write_message_header_spec k d s sv info Q :
  processes k !! s = Some sv →
  (∃ v, readable k d IPC_MESSAGE_INFO v) ∧ (∃ v, readable k d IPC_IDENTIFIER_DESTINATION v) →
  (∀ k', readable k' d IPC_MESSAGE_INFO info →
     readable k' d IPC_IDENTIFIER_DESTINATION (identifier_when_blocked sv) →
     messages_changed d (message_words_of 0) k k' → Q tt k') →
  wp (write_message_header d s info) Q k.
Proof.
  intros Hs [[v1 Hv1] [v2 Hv2]] HQ. unfold write_message_header. wp_head.
  eapply configure_changed_spec; [done|done|]. intros k1 H1 Hc1. wp_steps.
  assert (Hid : identifier_when_blocked <$> processes k1 = identifier_when_blocked <$> processes k)
    by by eapply messages_changed_view.
  destruct (view_lookup _ _ _ _ _ Hid Hs) as (sv1 & Hs1 & Hi).
  eapply wp_load; [exact Hs1|]. wp_steps. rewrite Hi.
  eapply configure_changed_spec; [done|eapply changed_own; [exact Hc1|done|done|exact Hv2]|].
  intros k2 H2 Hc2. wp_steps. apply HQ; [|done|].
  - eapply changed_own; [exact Hc2|done|done|done].
  - eapply messages_changed_trans; (eapply messages_changed_mono; [|done]); intros j ->; unfold message_words_of; auto.
Qed.

(** Both transfers, which differ in what a failed copy does ([F]) and in how they
    go on to the capabilities ([G]). *)
Lemma transfer_with_spec (F : kernel_error → M capability_result) (G : M capability_result) k d s sv info Q :
  transferable k d s sv info → (∀ Q k, Q (Ok tt) k → wp G Q k) →
  (∀ k', message_delivered d s (identifier_when_blocked sv) info k k' → Q (Ok tt) k') →
  wp (write_message_header d s info;;
      if is_empty_message info then ok
      else let? _ := or_else (copy_messages d s (message_info.message_length info)) F in G) Q k.
Proof.
  intros Ht HG HQ. pose proof Ht as [Hne Hsep Hs Hhead Hpay Hcaps]. wp_head.
  eapply write_message_header_spec; [done..|]. intros k1 H1 H2 Hc1.
  pose proof (message_length_range info) as Hlen. unfold is_empty_message. rewrite Hcaps. cbn [Z.eqb].
  rewrite andb_true_r. destruct (Z.eqb_spec (message_info.message_length info) 0) as [H0|H0].
  { wp_steps. apply HQ. split; [done|done|lia|]. by rewrite H0. }
  wp_head. wp_head. eapply copy_messages_spec; [done|done|by eapply separate_changed|..].
  - intros i Hi. destruct (Hpay i Hi) as [[w Hw] [v Hv]]. split.
    + exists w. by eapply changed_other.
    + eapply changed_readable; [done|unfold IPC_PAYLOAD_START; lia|done].
  - intros k2 Hc2 Hcopy. apply HG, HQ.
    assert (Hown : ∀ j w, j = 2 ∨ j = 3 → readable k1 d j w → readable k2 d j w).
    { intros j w Hj. eapply changed_own; [exact Hc2|lia|]. cbv [IPC_PAYLOAD_START]. lia. }
    split.
    + apply Hown; [by left|done].
    + apply Hown; [by right|done].
    + intros i w Hi Hw. apply Hcopy; [done|]. by eapply changed_other.
    + eapply messages_changed_trans; (eapply messages_changed_mono; [|done]);
        unfold message_words_of; intros j; intuition lia.
Qed.

Lemma transfer_message_spec `{config} a k d s sv info Q :
  transferable k d s sv info →
  (∀ k', message_delivered d s (identifier_when_blocked sv) info k k' → Q (Ok tt) k') →
  wp (transfer_message a d s info) Q k.
Proof.
  intros Ht HQ. pose proof Ht as [_ _ _ _ _ Hcaps]. eapply transfer_with_spec; [done| |done].
  intros Q' k' HQ'. unfold move_capabilities. rewrite Hcaps. by wp_steps.
Qed.

Lemma transfer_direct_message_spec `{config} k d s sv info Q :
  transferable k d s sv info →
  (∀ k', message_delivered d s (identifier_when_blocked sv) info k k' → Q (Ok tt) k') →
  wp (transfer_direct_message d s info) Q k.
Proof.
  intros Ht HQ. pose proof Ht as [_ _ _ _ _ Hcaps]. eapply transfer_with_spec; [done| |done].
  intros Q' k' HQ'. rewrite Hcaps. by wp_steps.
Qed.

Lemma transferable_view k k' d s sv sv' info :
  reg_view <$> processes k' = reg_view <$> processes k → ipc_buffers k' = ipc_buffers k →
  processes k' !! s = Some sv' → transferable k d s sv info → transferable k' d s sv' info.
Proof.
  intros Hv Hb Hs [H1 H2 H3 [[v1 H4] [v2 H5]] H6 H7]. split; try done.
  - by eapply separate_view.
  - split; eexists; by eapply readable_view.
  - intros i Hi. destruct (H6 i Hi) as [[w Hw] [v Hw']]. split; eexists; by eapply readable_view.
Qed.

(** ** A transfer that fails *)

(** A message of [s] that does not fit: it has words outside the message registers
    of the machine, and the sender or the receiver has no IPC buffer for them. *)
Record unfitting (k : kernel) (d s : Z) (sv : process) (info : Z) : Prop := {
  unfit_distinct : s ≠ d;
  unfit_sender : processes k !! s = Some sv;
  unfit_header : (∃ v, readable k d IPC_MESSAGE_INFO v) ∧ ∃ v, readable k d IPC_IDENTIFIER_DESTINATION v;
  unfit_registers i : 0 ≤ i < MESSAGE_REGISTER_COUNT - IPC_PAYLOAD_START →
    (∃ w, readable k s (i + IPC_PAYLOAD_START) w) ∧ ∃ v, readable k d (i + IPC_PAYLOAD_START) v;
  unfit_length : MESSAGE_REGISTER_COUNT - IPC_PAYLOAD_START < message_info.message_length info;
  unfit_buffer :
    buffer sv = None ∨
    (∃ w, readable k s MESSAGE_REGISTER_COUNT w) ∧ ∃ dv, processes k !! d = Some dv ∧ buffer dv = None;
}.

Lemma unfitting_separate k d s sv info : unfitting k d s sv info → separate_buffers k d s.
Proof.
  intros [_ Hs _ _ _ [Hb|(_ & dv & Hd & Hb)]] v w b Hv Hw Hvb; congruence.
Qed.

Lemma unfitting_view k k' d s sv sv' info :
  reg_view <$> processes k' = reg_view <$> processes k → ipc_buffers k' = ipc_buffers k →
  processes k' !! s = Some sv' → unfitting k d s sv info → unfitting k' d s sv' info.
Proof.
  intros Hv Hb Hs [H1 H2 [[v1 H3] [v2 H4]] H5 H6 H7].
  assert (Hr : ∀ q i w, readable k q i w → readable k' q i w) by (intros; by eapply readable_view).
  split; try done.
  - split; eexists; by apply Hr.
  - intros i Hi. destruct (H5 i Hi) as [[w Hw] [v Hw']]. split; eexists; by apply Hr.
  - destruct (view_lookup _ _ _ _ _ Hv H2) as (sv1 & Hs1 & He). assert (sv1 = sv') as -> by congruence.
    injection He. intros -> _. destruct H7 as [?|((w & Hw) & dv & Hd & Hdb)]; [by left|right].
    destruct (view_lookup _ _ _ _ _ Hv Hd) as (dv' & Hd' & Hed). injection Hed. intros Hbd _.
    split; [eexists; by apply Hr|]. exists dv'. split; [done|congruence].
Qed.

Lemma unfitting_changed J k k' d s sv sv' info :
  messages_changed d J k k' → processes k' !! s = Some sv' →
  unfitting k d s sv info → unfitting k' d s sv' info.
Proof.
  intros Hc Hs' Hu. pose proof (unfitting_separate _ _ _ _ _ Hu) as Hsep.
  destruct Hu as [H1 H2 [[v1 H3] [v2 H4]] H5 H6 H7].
  assert (Hbv : buffer <$> processes k' = buffer <$> processes k) by by eapply messages_changed_view.
  assert (Hr : ∀ i, 0 ≤ i → (∃ w, readable k d i w) → ∃ w, readable k' d i w)
    by (intros i Hi [w Hw]; by eapply changed_readable).
  split; try done.
  - split; apply Hr; eauto; done.
  - intros i Hi. destruct (H5 i Hi) as [[w Hw] Hd].
    split; [exists w; by eapply changed_other|apply Hr; [unfold IPC_PAYLOAD_START; lia|done]].
  - destruct (view_lookup _ _ _ _ _ Hbv H2) as (sv1 & Hs1 & He). assert (sv1 = sv') as -> by congruence.
    rewrite He. destruct H7 as [?|((w & Hw) & dv & Hd & Hdb)]; [by left|right].
    destruct (view_lookup _ _ _ _ _ Hbv Hd) as (dv' & Hd' & Hbd).
    split; [exists w; by eapply changed_other|]. exists dv'. split; [done|congruence].
Qed.

(** The first word outside the registers. *)
Lemma copy_message_fails k d s sv info Q :
  unfitting k d s sv info → Q (Err (convert_hal_to_kernel_error HE_NO_SUCH_ADDRESS)) k →
  wp (copy_message d s (MESSAGE_REGISTER_COUNT - IPC_PAYLOAD_START)) Q k.
Proof.
  intros [_ Hs _ _ _ Hb] HQ. unfold copy_message. wp_head. wp_head.
  change (wadd (MESSAGE_REGISTER_COUNT - IPC_PAYLOAD_START) IPC_PAYLOAD_START) with MESSAGE_REGISTER_COUNT.
  destruct (buffer sv) as [b|] eqn:Hsb.
  - destruct Hb as [?|((w & Hw) & dv & Hd & Hdb)]; [done|].
    eapply wp_answers; [exact Hw|cbn beta iota]. unfold configure_message_register. wp_steps.
    change (message_register_index MESSAGE_REGISTER_COUNT) with (@None Z). cbn iota. rewrite Hdb. by wp_steps.
  - unfold get_message_register. wp_steps.
    change (message_register_index MESSAGE_REGISTER_COUNT) with (@None Z). cbn iota. rewrite Hsb. by wp_steps.
Qed.

(** The words that fit are copied; the others are not. *)
Lemma copy_messages_fails k d s sv info Q :
  unfitting k d s sv info →
  (∀ k', messages_changed d (message_words_of (MESSAGE_REGISTER_COUNT - IPC_PAYLOAD_START)) k k' →
     Q (Err (convert_hal_to_kernel_error HE_NO_SUCH_ADDRESS)) k') →
  wp (copy_messages d s (message_info.message_length info)) Q k.
Proof.
  intros Hu HQ. pose proof (unfitting_separate _ _ _ _ _ Hu) as Hsep.
  pose proof Hu as [Hne Hs _ Hr Hlen _]. unfold copy_messages.
  set (rc := MESSAGE_REGISTER_COUNT - IPC_PAYLOAD_START) in *. assert (rc = 6) as -> by done.
  rewrite (proj2 (Z.ltb_ge _ _)) by lia. wp_head.
  eapply copy_messages_loop_spec; [done|lia|unfold IPC_PAYLOAD_START; lia|done|intros i Hi; apply Hr; lia|].
  intros k1 Hc _. assert (Hbv : buffer <$> processes k1 = buffer <$> processes k)
    by by eapply messages_changed_view.
  destruct (view_lookup _ _ _ _ _ Hbv Hs) as (sv1 & Hs1 & _).
  replace (Z.to_nat (message_info.message_length info - 6))
    with (S (Z.to_nat (message_info.message_length info - 7))) by lia.
  cbn [copy_messages_loop]. wp_head.
  eapply (copy_message_fails k1 d s sv1 info); [by eapply unfitting_changed|]. wp_steps. apply HQ.
  eapply messages_changed_mono; [|exact Hc]. unfold message_words_of. cbn. intros; lia.
Qed.

Lemma transfer_message_fails `{config} a k d s sv info port Q :
  unfitting k d s sv info → ipc_ports k !! a = Some port →
  (∀ k', messages_changed d (message_words_of (MESSAGE_REGISTER_COUNT - IPC_PAYLOAD_START)) k k' →
     Q (Err CE_FATAL) (k' <| ipc_ports ::= <[a := port <| ipc_state := IPC_WAIT |>]> |>)) →
  wp (transfer_message a d s info) Q k.
Proof.
  intros Hu Hp HQ. pose proof Hu as [Hne Hs Hhead _ Hlen _]. unfold transfer_message. wp_head.
  eapply write_message_header_spec; [done..|]. intros k1 _ _ Hc1. unfold is_empty_message.
  rewrite (proj2 (Z.eqb_neq (message_info.message_length info) 0));
    [|unfold MESSAGE_REGISTER_COUNT, IPC_PAYLOAD_START in Hlen; lia]. cbn [andb]. wp_head. wp_head.
  assert (Hbv : buffer <$> processes k1 = buffer <$> processes k) by by eapply messages_changed_view.
  destruct (view_lookup _ _ _ _ _ Hbv Hs) as (sv1 & Hs1 & _).
  eapply (copy_messages_fails k1 d s sv1 info); [by eapply unfitting_changed|]. intros k2 Hc2.
  assert (Hp2 : ipc_ports k2 !! a = Some port)
    by (by rewrite (changed_only _ _ _ _ Hc2), (changed_only _ _ _ _ Hc1)).
  wp_steps. apply HQ. eapply messages_changed_trans; [|exact Hc2].
  eapply messages_changed_mono; [|exact Hc1]. unfold message_words_of. intros j; intuition lia.
Qed.

(** ** Rendezvous *)

(** [p] waits for a message: it is a blocked process of the core's. *)
Record parked (c : Z) (k : kernel) (qs : ready_queues) (cpu : cpu_local_variable) (p : Z) (v : process)
  : Prop := {
  parked_cpu : cpu_local_variables k !! c = Some cpu;
  parked_inv : sched_inv c k qs;
  parked_process : processes k !! p = Some v;
  parked_not_idle : p ≠ idle_process (process_manager_core cpu);
  parked_priority : 0 ≤ priority v < PRIORITY_MAX;
  parked_unqueued : is_in_ready_queue v = false ∧ next v = None ∧ preview v = None;
}.

(** [parked] along the steps of an operation: a change the scheduler does not see,
    a change of the process itself, a change of another process. *)
Lemma parked_view c k k' qs cpu p v :
  sched_view <$> processes k' = sched_view <$> processes k →
  cpu_local_variables k' = cpu_local_variables k → parked c k qs cpu p v →
  ∃ v', parked c k' qs cpu p v' ∧ priority v' = priority v.
Proof.
  intros Hv Hc [H1 H2 H3 H4 H5 H6]. destruct (view_lookup _ _ _ _ _ Hv H3) as (v' & Hv' & He).
  injection He. intros E1 E2 E3 E4 E5. exists v'. split; [|done].
  split; [by rewrite Hc|by eapply sched_inv_view; [|by rewrite Hc|]|done|done|by rewrite E3|].
  by rewrite E2, E4, E5.
Qed.

Lemma parked_update c k qs cpu p v w :
  parked c k qs cpu p v → priority w = priority v → is_in_ready_queue w = false →
  next w = None → preview w = None → parked c (k <| processes ::= <[p := w]> |>) qs cpu p w.
Proof.
  intros [H1 H2 H3 H4 H5 [H6 _]] Hp Hf Hn Hpr.
  split; [done|by eapply sched_inv_insert; [..|right]|apply lookup_insert_eq|done|by rewrite Hp|done].
Qed.

Lemma parked_other c k qs cpu p v q u w :
  parked c k qs cpu p v → q ≠ p → processes k !! q = Some u → sched_view w = sched_view u →
  parked c (k <| processes ::= <[q := w]> |>) qs cpu p v.
Proof.
  intros [H1 H2 H3 H4 H5 H6] Hne Hu Hw.
  split; [done|by eapply sched_inv_insert; [..|left]|by lookup_solve|done..].
Qed.

(** Waking it. *)
Lemma wake_spec `{config} owner k qs cpu p v Q :
  one_core → parked BSP_ID k qs cpu p v →
  (∀ k', made_ready BSP_ID p v qs k k' →
     sched_inv BSP_ID k' (update_queue (priority v) (qs (priority v) ++ [p]) qs) → Q (Ok tt) k') →
  wp (map_error convert_kernel_to_capability_error (mark_scheduled owner p)) Q k.
Proof.
  intros Hone [H1 H2 H3 H4 H5 (H6 & H7 & H8)] HQ.
  unfold mark_scheduled, route_mark_scheduled. rewrite Hone. cbn [negb andb]. wp_head.
  eapply wp_mono; [|eapply mark_scheduled_on_spec; [done..|]].
  - intros r k' [-> Hm]. apply HQ; [done|]. unfold made_ready, ready_queues_with in Hm.
    rewrite H6 in Hm. eapply sched_after_inv; [by eexists|exact Hm].
  - unfold sched_consistent. by rewrite H6.
Qed.

Definition ipc_state_of (a : Z) (k : kernel) : option ipc_port_state :=
  ipc_state <$> ipc_ports k !! a.

(** The state after [owner] handed its message to the waiting [p]. *)
Record handed_over (a owner p identifier info : Z) (l : list Z) (v : process) (qs : ready_queues)
    (k k' : kernel) : Prop := {
  handed_info : readable k' p IPC_MESSAGE_INFO info;
  handed_identifier : readable k' p IPC_IDENTIFIER_DESTINATION identifier;
  handed_payload i w : 0 ≤ i < message_info.message_length info →
    readable k owner (i + IPC_PAYLOAD_START) w → readable k' p (i + IPC_PAYLOAD_START) w;
  handed_owner j w : readable k owner j w → readable k' owner j w;
  handed_queue : ipc_queue a k' l;
  handed_state : ipc_state_of a k' = Some (if decide (l = []) then IPC_WAIT else IPC_READY_TO_RECEIVE);
  handed_ready : sched_inv BSP_ID k' (update_queue (priority v) (qs (priority v) ++ [p]) qs);
  handed_current : current_process <$> cpu_local_variables k' !! BSP_ID
                   = current_process <$> cpu_local_variables k !! BSP_ID;
}.

(** What a queue operation and a wake-up leave alone. *)
Lemma ipc_after_view a T k k1 {B} (f : process → B) :
  (∀ v, f v = f (ipc_core v)) → ipc_after a T k k1 → f <$> processes k1 = f <$> processes k.
Proof. intros Hf [_ [Hc _] _]. by eapply (fmap_view ipc_core f). Qed.

Lemma made_ready_view c p v qs k k' {B} (f : process → B) :
  (∀ v, f v = f (ready_core v)) → f (readied v) = f v → processes k !! p = Some v →
  made_ready c p v qs k k' → f <$> processes k' = f <$> processes k.
Proof.
  intros Hf Hr Hp (s & ps & -> & _ & [Hc _] & _).
  rewrite <- (view_insert f (processes k) p v (readied v) Hp Hr). by eapply (fmap_view ready_core f).
Qed.

Lemma made_ready_only c p v qs k k' :
  made_ready c p v qs k k' →
  ipc_ports k' = ipc_ports k ∧ ipc_buffers k' = ipc_buffers k ∧
  current_process <$> cpu_local_variables k' !! c = current_process <$> cpu_local_variables k !! c.
Proof.
  intros (s & ps & -> & _). split_and!; try done. unfold with_sched. ksimpl_goal. rewrite lookup_alter_eq.
  by destruct (cpu_local_variables k !! c).
Qed.

(** The last steps of a rendezvous, put together: [k1] after the queue operation,
    [k3] before the transfer, [k4] after it. *)
Lemma handed_over_intro a owner p identifier info l v v4 qs k k1 k3 k4 k' :
  owner ≠ p → separate_buffers k p owner →
  reg_view <$> processes k3 = reg_view <$> processes k → ipc_buffers k3 = ipc_buffers k →
  ipc_view <$> processes k3 = ipc_view <$> processes k1 → ipc_queue a k1 l → ipc_ports k3 = ipc_ports k1 →
  ipc_state <$> ipc_ports k3 !! a = Some (if decide (l = []) then IPC_WAIT else IPC_READY_TO_RECEIVE) →
  cpu_local_variables k3 = cpu_local_variables k →
  message_delivered p owner identifier info k3 k4 → processes k4 !! p = Some v4 →
  made_ready BSP_ID p v4 qs k4 k' →
  sched_inv BSP_ID k' (update_queue (priority v) (qs (priority v) ++ [p]) qs) →
  handed_over a owner p identifier info l v qs k k'.
Proof.
  intros Hne Hsep Hreg3 Hbuf3 Hipc3 Hq1 Hports Hst Hcpu3 [D1 D2 D3 D4] Hv4 Hm Hs.
  pose proof (changed_only _ _ _ _ D4) as Hk4.
  destruct (made_ready_only _ _ _ _ _ _ Hm) as (Hp5 & Hb5 & Hc5).
  pose proof (made_ready_view _ p v4 qs k4 k' reg_view (λ _, eq_refl) eq_refl Hv4 Hm) as Hreg5.
  pose proof (made_ready_view _ p v4 qs k4 k' ipc_view (λ _, eq_refl) eq_refl Hv4 Hm) as Hipc5.
  assert (Hr5 : ∀ q j w, readable k4 q j w → readable k' q j w) by (intros; by eapply readable_view).
  assert (Hr3 : ∀ q j w, readable k q j w → readable k3 q j w) by (intros; by eapply readable_view).
  split; [by apply Hr5|by apply Hr5|..|done|].
  - intros i w Hi Hw. apply Hr5, D3; [done|by apply Hr3].
  - intros j w Hw. apply Hr5. eapply changed_other; [done|done|by eapply separate_view|by apply Hr3].
  - eapply ipc_queue_view; [exact Hipc5|by rewrite Hp5|].
    eapply ipc_queue_view; [by eapply (messages_changed_view _ _ _ _ ipc_view)|by rewrite Hk4|].
    eapply ipc_queue_view; [exact Hipc3|by rewrite Hports|done].
  - unfold ipc_state_of. rewrite Hp5, Hk4. done.
  - rewrite Hc5, Hk4. ksimpl_goal. by rewrite Hcpu3.
Qed.

(** What a SEND whose copy fails leaves: [p] has left the queue of the port, where
    [l] still waits, without entering a ready queue; the port is in state [WAIT]. *)
Record receiver_lost (a owner p : Z) (l : list Z) (qs : ready_queues) (k k' : kernel) : Prop := {
  lost_process : ∃ v', processes k' !! p = Some v' ∧ status v' = PS_READY ∧
                   is_in_ready_queue v' = false ∧ current_ipc_port v' = None;
  lost_unqueued i : p ∉ qs i;
  lost_queue : ipc_queue a k' l ∧ p ∉ l;
  lost_state : ipc_state_of a k' = Some IPC_WAIT;
  lost_ready : sched_inv BSP_ID k' qs;
  lost_owner j w : readable k owner j w → readable k' owner j w;
}.

(** The failing rendezvous, from the port's queue on. *)
Lemma hand_over_fails `{config} a k owner ov info identifier p v l qs cpu Q :
  ipc_queue a k (p :: l) → unfitting k p owner ov info → parked BSP_ID k qs cpu p v →
  (∀ k', receiver_lost a owner p l qs k k' → Q (Err CE_FATAL) k') →
  wp (let? target := map_error convert_kernel_to_capability_error (pop_ipc_queue a) in
      modify processes target (λ p, p <| status := PS_READY |>);;
      modify processes owner (λ p, p <| identifier_when_blocked := identifier |>);;
      let? _ := transfer_message a target owner info in
      map_error convert_kernel_to_capability_error (mark_scheduled owner target)) Q k.
Proof.
  intros Hq Hu Hp HQ. wp_head. wp_head. eapply wp_mono; [|by apply pop_ipc_queue_spec].
  intros r k1 (-> & Hq1 & Ha1 & (v1 & Hv1 & Hport1 & _) & _ & port1 & _ & Hp1 & _).
  cbn [transform_error]. pose proof (ipc_after_only _ _ _ _ Ha1) as Hk1.
  pose proof (ipc_after_view _ _ _ _ reg_view (λ _, eq_refl) Ha1) as Hreg1.
  pose proof (ipc_after_view _ _ _ _ sched_view (λ _, eq_refl) Ha1) as Hsch1.
  assert (Hbuf1 : ipc_buffers k1 = ipc_buffers k) by by rewrite Hk1.
  assert (Hcpu1 : cpu_local_variables k1 = cpu_local_variables k) by by rewrite Hk1.
  destruct (parked_view _ _ k1 _ _ _ _ Hsch1 Hcpu1 Hp) as (v1' & Hpark1 & _).
  assert (v1' = v1) as -> by (destruct Hpark1; congruence).
  pose proof (unfit_distinct _ _ _ _ _ Hu) as Hne. pose proof (unfitting_separate _ _ _ _ _ Hu) as Hsep.
  destruct (view_lookup _ _ _ _ _ Hreg1 (unfit_sender _ _ _ _ _ Hu)) as (ov1 & Hov1 & _).
  do 4 wp_step. match goal with |- wp _ _ ?s => set (k3 := s) end. wp_head.
  assert (Hview : ∀ B (f : process → B), f (v1 <| status := PS_READY |>) = f v1 →
    f (ov1 <| identifier_when_blocked := identifier |>) = f ov1 → f <$> processes k3 = f <$> processes k1).
  { intros B f Hf1 Hf2. unfold k3. ksimpl_goal.
    rewrite (view_insert f _ owner ov1) by (done || lookup_solve). by rewrite (view_insert f _ p v1). }
  assert (Hreg3 : reg_view <$> processes k3 = reg_view <$> processes k) by (rewrite Hview by done; done).
  assert (Hbuf3 : ipc_buffers k3 = ipc_buffers k) by done.
  eapply (transfer_message_fails _ _ _ _ (ov1 <| identifier_when_blocked := identifier |>) _ port1);
    [eapply unfitting_view; [exact Hreg3|done|unfold k3; lookup_solve|exact Hu]|done|].
  intros k4 Hc. wp_steps. apply HQ. pose proof (changed_only _ _ _ _ Hc) as Hk4.
  assert (Hv3 : processes k3 !! p = Some (v1 <| status := PS_READY |>)) by (unfold k3; lookup_solve).
  destruct (link_frame_lookup _ _ _ _ _ (changed_frame _ _ _ _ Hc) Hv3) as (v4 & Hv4 & Hcore).
  pose proof (parked_unqueued _ _ _ _ _ _ Hpark1) as (Hflag & _).
  assert (Hflag4 : is_in_ready_queue v4 = false) by (rewrite <- Hflag; exact (f_equal is_in_ready_queue Hcore)).
  assert (Hpark3 : parked BSP_ID k3 qs cpu p (v1 <| status := PS_READY |>)).
  { eapply parked_other; [eapply (parked_update _ _ _ _ _ v1)|done|lookup_solve|done]; try done;
      by destruct Hpark1 as [_ _ _ _ _ (? & ? & ?)]. }
  assert (Hsch4 : sched_view <$> processes k4 = sched_view <$> processes k3) by by eapply messages_changed_view.
  split; ksimpl_goal.
  - exists v4. split_and!; [done|exact (f_equal status Hcore)|done|].
    rewrite <- Hport1. exact (f_equal current_ipc_port Hcore).
  - intros i Hin. pose proof Hp as [_ (cpu' & _ & Hr) Hpv _ _ (Hf & _)].
    pose proof (queued_flag _ _ _ _ _ _ Hr Hin Hpv). congruence.
  - split.
    + destruct Hq1 as (port & Hport & Hr). assert (port = port1) as -> by congruence.
      assert (Hq3 : ipc_queue a k3 l).
      { eapply ipc_queue_view; [by apply Hview|done|]. by exists port1. }
      assert (Hq4 : ipc_queue a k4 l).
      { eapply ipc_queue_view; [by eapply messages_changed_view|by rewrite Hk4|exact Hq3]. }
      destruct Hq4 as (port4 & Hport4 & [S1 S2 S3 S4]).
      assert (port4 = port1) as -> by (rewrite Hk4 in Hport4; change (ipc_ports k1 !! a = Some port4) in Hport4; congruence).
      eexists. split; [apply lookup_insert_eq|]. by split.
    + pose proof Hq as (port & _ & Hr). by apply (ipc_repr_fresh _ _ _ [] p l Hr).
  - unfold ipc_state_of. ksimpl_goal. by rewrite lookup_insert_eq.
  - eapply (sched_inv_view _ k3); [exact Hsch4|by rewrite Hk4|by apply Hpark3].
  - intros j w Hw. eapply (readable_view k4); [done|done|].
    eapply changed_other; [exact Hc|done|by eapply separate_view|by eapply readable_view].
Qed.

Section send.
Context `{config} (Hone : one_core) (a : Z) (k : kernel) (owner : Z) (ov : process) (info : Z).

(** The message of [owner] reaches the process [p] taken off the queue, which
    becomes ready. *)
Lemma transfer_and_wake k3 ov3 p v3 qs cpu Q :
  transferable k3 p owner ov3 info → parked BSP_ID k3 qs cpu p v3 →
  (∀ k4 v4 k', message_delivered p owner (identifier_when_blocked ov3) info k3 k4 →
     processes k4 !! p = Some v4 → made_ready BSP_ID p v4 qs k4 k' →
     sched_inv BSP_ID k' (update_queue (priority v3) (qs (priority v3) ++ [p]) qs) →
     Q (Ok tt) k') →
  wp (let? _ := transfer_message a p owner info in
      map_error convert_kernel_to_capability_error (mark_scheduled owner p)) Q k3.
Proof.
  intros Ht Hp HQ. wp_head. eapply transfer_message_spec; [done|]. intros k4 Hd.
  pose proof (delivered_changed _ _ _ _ _ _ Hd) as Hc.
  assert (Hcpu : cpu_local_variables k4 = cpu_local_variables k3) by by rewrite (changed_only _ _ _ _ Hc).
  destruct (parked_view _ _ k4 _ _ _ _ (messages_changed_view _ _ _ _ sched_view (λ _, eq_refl) Hc) Hcpu Hp)
    as (v4 & Hp4 & Hpr).
  eapply wake_spec; [done|exact Hp4|]. intros k' Hm Hs. rewrite Hpr in Hs.
  eapply HQ; [done|by eapply parked_process|done|done].
Qed.

(** From the port's queue to the ready queue, with the message. *)
Lemma hand_over_spec identifier p v l qs cpu Q :
  ipc_queue a k (p :: l) → ipc_state_of a k = Some IPC_READY_TO_RECEIVE →
  transferable k p owner ov info → parked BSP_ID k qs cpu p v →
  (∀ k', handed_over a owner p identifier info l v qs k k' → Q (Ok tt) k') →
  wp (let? target := map_error convert_kernel_to_capability_error (pop_ipc_queue a) in
      modify processes target (λ p, p <| status := PS_READY |>);;
      modify processes owner (λ p, p <| identifier_when_blocked := identifier |>);;
      let? _ := transfer_message a target owner info in
      map_error convert_kernel_to_capability_error (mark_scheduled owner target)) Q k.
Proof.
  intros Hq Hst Ht Hp HQ. wp_head. wp_head. eapply wp_mono; [|by apply pop_ipc_queue_spec].
  intros r k1 (-> & Hq1 & Ha1 & (v1 & Hv1 & _) & port & port1 & Hport & Hport1 & Hst1).
  cbn [transform_error]. pose proof (ipc_after_only _ _ _ _ Ha1) as Hk1.
  pose proof (ipc_after_view _ _ _ _ reg_view (λ _, eq_refl) Ha1) as Hreg1.
  assert (Hcpu1 : cpu_local_variables k1 = cpu_local_variables k) by by rewrite Hk1.
  destruct (parked_view _ _ k1 _ _ _ _ (ipc_after_view _ _ _ _ sched_view (λ _, eq_refl) Ha1) Hcpu1 Hp)
    as (v1' & Hp1 & Hpr). assert (v1' = v1) as -> by (destruct Hp1; congruence).
  pose proof (trans_distinct _ _ _ _ _ Ht) as Hne.
  destruct (view_lookup _ _ _ _ _ Hreg1 (trans_sender _ _ _ _ _ Ht)) as (ov1 & Hov1 & _).
  do 4 wp_step. match goal with |- wp _ _ ?s => set (k3 := s) end.
  assert (Hview : ∀ B (f : process → B), f (v1 <| status := PS_READY |>) = f v1 →
    f (ov1 <| identifier_when_blocked := identifier |>) = f ov1 → f <$> processes k3 = f <$> processes k1).
  { intros B f Hf1 Hf2. unfold k3. ksimpl_goal.
    rewrite (view_insert f _ owner ov1) by (done || lookup_solve). by rewrite (view_insert f _ p v1). }
  assert (Hreg3 : reg_view <$> processes k3 = reg_view <$> processes k) by (rewrite Hview by done; done).
  eapply (transfer_and_wake k3 (ov1 <| identifier_when_blocked := identifier |>) p (v1 <| status := PS_READY |>) qs cpu).
  - eapply transferable_view; [exact Hreg3|unfold k3; ksimpl_goal; by rewrite Hk1|unfold k3; lookup_solve|exact Ht].
  - eapply parked_other; [eapply (parked_update _ _ _ _ _ v1)|done|lookup_solve|done]; try done;
      by destruct Hp1 as [_ _ _ _ _ (? & ? & ?)].
  - intros k4 v4 k' Hd Hv4 Hm Hs. apply HQ. ksimpl. rewrite Hpr in Hs.
    eapply (handed_over_intro _ _ _ _ _ _ _ v4 _ _ k1 k3 k4);
      [done|by eapply trans_separate|done| |by apply Hview|done|done| | |done..].
    + unfold k3. ksimpl_goal. by rewrite Hk1.
    + unfold k3. ksimpl_goal. rewrite Hport1. cbn. rewrite Hst1. unfold ipc_state_of in Hst.
      rewrite Hport in Hst. cbn in Hst. by injection Hst as ->.
    + unfold k3. ksimpl_goal. by rewrite Hk1.
Qed.
End send.

(** ** Blocking *)

(** [owner] waits at the end of the port's queue, the port is in state [st], and
    the processor runs [next]. *)
Record waits (a owner : Z) (st : ipc_port_state) (l : list Z) (v : process) (next : Z) (idle : bool)
    (qs' : ready_queues) (k' : kernel) : Prop := {
  waits_queue : ipc_queue a k' (l ++ [owner]);
  waits_state : ipc_state_of a k' = Some st;
  waits_process : ∃ v', processes k' !! owner = Some v' ∧
    context_core (ipc_core v') = context_core (ipc_core v);
  waits_cpu : ∃ cpu' hc', on_cpu BSP_ID k' cpu' hc' next ∧ is_idle cpu' = idle;
  waits_ready : sched_inv BSP_ID k' qs';
}.

(** What a process that blocks leaves behind: it runs, is in no queue, and some
    process (the IDLE process at worst) can take over. *)
Record can_block (a : Z) (k : kernel) (l : list Z) (owner : Z) (v : process) (cpu : cpu_local_variable)
    (hc : hal_core) (qs : ready_queues) (next : Z) (idle : bool) (qs' : ready_queues) : Prop := {
  block_cpu : on_cpu BSP_ID k cpu hc owner;
  block_busy : is_idle cpu = false;
  block_queue : ipc_queue a k l;
  block_fresh : owner ∉ l;
  block_owner : processes k !! owner = Some v;
  block_unqueued : is_in_ready_queue v = false;
  block_ready : sched_inv BSP_ID k qs;
  block_next : next_to_run (idle_process (process_manager_core cpu)) qs = (next, idle, qs');
  block_runnable : ∃ nv root fs gs, runnable k next nv root fs gs;
}.

(** Changing fields of the owner that no queue sees keeps all this. *)
Lemma can_block_update a k l owner v w st cpu hc qs next idle qs' port :
  can_block a k l owner v cpu hc qs next idle qs' → ipc_ports k !! a = Some port →
  ipc_view w = ipc_view v → reg_view w = reg_view v → is_in_ready_queue w = false →
  can_block a (k <| ipc_ports ::= <[a := port <| ipc_state := st |>]> |> <| processes ::= <[owner := w]> |>)
    l owner w cpu hc qs next idle qs'.
Proof.
  intros [H1 H2 (port' & Hport & Hq) H4 H5 H6 H7 H8 (nv & root & fs & gs & [R1 R2 R3 R4 R5])] Hp Hi Hr Hw.
  assert (port' = port) as -> by congruence.
  assert (Hv : ∀ B (f : process → B), f w = f v → f <$> <[owner := w]> (processes k) = f <$> processes k).
  { intros B f Hf. by apply (view_insert f _ owner v). }
  split; try done.
  - destruct H1. by split.
  - eexists. split; [lookup_solve|]. destruct Hq as [Q1 Q2 Q3 Q4]. 
    assert (Hq' : ipc_queue a (k <| processes ::= <[owner := w]> |>) l).
    { eapply ipc_queue_view; [by apply Hv|done|]. exists port. split; [done|]. by split. }
    destruct Hq' as (port2 & Hport2 & [S1 S2 S3 S4]). ksimpl. simplify_eq. by split.
  - apply lookup_insert_eq.
  - by eapply (sched_inv_insert BSP_ID (k <| ipc_ports ::= _ |>)); [|done|right].
  - assert (∃ nv', <[owner := w]> (processes k) !! next = Some nv' ∧ registers nv' = registers nv)
      as (nv' & Hn & Hregs).
    { destruct (decide (next = owner)) as [->|].
      - exists w. rewrite lookup_insert_eq. split; [done|]. assert (nv = v) as -> by congruence. by injection Hr.
      - exists nv. by rewrite lookup_insert_ne. }
    exists nv', root, fs, gs. split; [exact Hn|by rewrite Hregs..|done|done].
Qed.

Section block.
Context `{config} (Hone : one_core).

Lemma block_spec a k l owner v cpu hc qs next idle qs' st :
  can_block a k l owner v cpu hc qs next idle qs' → ipc_state_of a k = Some st →
  wp (let? _ := push_ipc_queue a owner in schedule_and_switch_from owner)
     (λ r k', r = Ok tt ∧ waits a owner st l v next idle qs' k') k.
Proof.
  intros [H1 H2 H3 H4 H5 H6 H7 H8 (nv & root & fs & gs & Hrun)] Hst. wp_head.
  eapply wp_mono; [|by eapply push_ipc_queue_spec].
  intros r k1 (-> & Hq1 & Ha1 & port & port1 & Hport & Hport1 & Hst1).
  pose proof (ipc_after_only _ _ _ _ Ha1) as Hk1.
  pose proof (ipc_after_view _ _ _ _ sched_view (λ _, eq_refl) Ha1) as Hsch1.
  pose proof (ipc_after_view _ _ _ _ registers (λ _, eq_refl) Ha1) as Hreg1.
  destruct (link_frame_lookup _ _ _ _ _ (ipc_after_frame _ _ _ _ Ha1) H5) as (v1 & Hv1 & Hc1).
  unfold schedule_and_switch_from. rewrite Hone. cbn [negb].
  assert (Hrun1 : ∃ nv1, runnable k1 next nv1 root fs gs).
  { destruct Hrun as [R1 R2 R3 R4 R5]. destruct (view_lookup _ _ _ _ _ Hreg1 R1) as (nv1 & Hn1 & Hr1).
    exists nv1. split; [done|by rewrite Hr1..|by rewrite Hk1|done]. }
  destruct Hrun1 as [nv1 Hrun1].
  assert (Hon1 : on_cpu BSP_ID k1 cpu hc owner).
  { destruct H1. split; try done; by rewrite Hk1. }
  eapply wp_mono; [|eapply (try_schedule_and_switch_spec Hone BSP_ID k1 qs cpu hc owner);
    [done|by eexists|eapply sched_inv_view; [done|by rewrite Hk1|done]|by rewrite H8]].
  intros r k' [-> Hd]. split; [done|]. unfold rescheduled in Hd. rewrite H8, H2, andb_false_r in Hd.
  destruct Hd as [D1 (cpu' & hc' & D2 & D3 & _) D4 D5].
  split; [|..|eauto|done].
  - eapply ipc_queue_view; [by eapply (fmap_view context_core ipc_view)|by rewrite D1|done].
  - unfold ipc_state_of in *. rewrite D1. ksimpl_goal. rewrite Hport1. rewrite Hport in Hst. cbn in *. congruence.
  - destruct (view_lookup _ _ _ _ _ D4 Hv1) as (v' & Hv' & He). exists v'. split; [done|].
    change (ipc_core (context_core v') = ipc_core (context_core v)).
    rewrite He. change (context_core (ipc_core v1) = context_core (ipc_core v)). by rewrite Hc1.
Qed.
End block.

(** ** Taking a message from a blocked sender *)

(** [owner] holds the message of [p], which left the queue of the port. *)
Record took (a owner p identifier info : Z) (l : list Z) (k k' : kernel) : Prop := {
  took_info : readable k' owner IPC_MESSAGE_INFO info;
  took_identifier : readable k' owner IPC_IDENTIFIER_DESTINATION identifier;
  took_payload i w : 0 ≤ i < message_info.message_length info →
    readable k p (i + IPC_PAYLOAD_START) w → readable k' owner (i + IPC_PAYLOAD_START) w;
  took_sender j w : readable k p j w → readable k' p j w;
  took_queue : ipc_queue a k' l;
  took_state : ipc_state_of a k' = Some (if decide (l = []) then IPC_WAIT else IPC_READY_TO_SEND);
}.

Lemma took_view a owner p identifier info l k k1 k2 :
  reg_view <$> processes k2 = reg_view <$> processes k1 →
  ipc_view <$> processes k2 = ipc_view <$> processes k1 →
  ipc_buffers k2 = ipc_buffers k1 → ipc_ports k2 = ipc_ports k1 →
  took a owner p identifier info l k k1 → took a owner p identifier info l k k2.
Proof.
  intros Hr Hi Hb Hp [T1 T2 T3 T4 T5 T6].
  assert (Hv : ∀ q j w, readable k1 q j w → readable k2 q j w) by (intros; by eapply readable_view).
  split; eauto.
  - eapply ipc_queue_view; [done|by rewrite Hp|done].
  - unfold ipc_state_of. by rewrite Hp.
Qed.

(** A process as another component left it: what IPC compares before a transfer. *)
Definition call_view (v : process) : fault_type * source_reply_state_object * destination_reply_state_object * Z :=
  (fault_reason v, source_reply_state v, destination_reply_state v, identifier_when_blocked v).

Section receive.
Context `{config} (a : Z) (k : kernel) (owner p : Z) (ov v : process) (l : list Z) (info : Z).
Hypothesis (Hq : ipc_queue a k (p :: l)) (Hst : ipc_state_of a k = Some IPC_READY_TO_SEND).
Hypothesis (Ht : transferable k owner p v info) (Hinfo : readable k p IPC_MESSAGE_INFO info).
Hypothesis (Hov : processes k !! owner = Some ov) (Hdr : destination_reply_state ov = DR_NONE).
Hypothesis (Hfault : fault_reason v = FT_NONE).

(** Up to the end of the transfer. *)
Lemma take_message_spec Q :
  (∀ k2, took a owner p (identifier_when_blocked v) info l k k2 →
     sched_view <$> processes k2 = sched_view <$> processes k →
     call_view <$> processes k2 = call_view <$> processes k →
     cpu_local_variables k2 = cpu_local_variables k →
     wp (if negb (bool_decide (source_reply_state v = SR_NONE)) then accept_call owner p;; ok
         else
           modify processes owner
             (λ p, p <| destination_reply_state := DR_NONE |> <| destination_reply_target := None |>);;
           modify processes p (λ p, p <| status := PS_READY |>);;
           map_error convert_kernel_to_capability_error (mark_scheduled owner p)) Q k2) →
  wp (try_receive_from_ready_sender a owner) Q k.
Proof.
  intros HQ. pose proof Hq as (port & Hport & _). unfold ipc_state_of in Hst. rewrite Hport in Hst.
  injection Hst as Hst'. unfold try_receive_from_ready_sender. wp_steps.
  rewrite decide_False by naive_solver. wp_head. wp_head.
  eapply wp_mono; [|by apply pop_ipc_queue_spec].
  intros r k1 (-> & Hq1 & Ha1 & _ & port0 & port1 & Hport0 & Hport1 & Hst1). simplify_eq.
  cbn [transform_error]. pose proof (ipc_after_only _ _ _ _ Ha1) as Hk1.
  pose proof (ipc_after_view _ _ _ _ reg_view (λ _, eq_refl) Ha1) as Hreg1.
  pose proof (ipc_after_view _ _ _ _ call_view (λ _, eq_refl) Ha1) as Hcall1.
  pose proof (ipc_after_view _ _ _ _ sched_view (λ _, eq_refl) Ha1) as Hsch1.
  assert (Hbuf1 : ipc_buffers k1 = ipc_buffers k) by by rewrite Hk1.
  unfold get_message_info. wp_head. wp_head. wp_head.
  eapply wp_answers; [by eapply readable_view|]. cbn [transform_error].
  destruct (view_lookup _ _ _ _ _ Hcall1 Hov) as (ov1 & Hov1 & Ho). injection Ho. intros _ Ho1 _ _.
  destruct (view_lookup _ _ _ _ _ Hcall1 (trans_sender _ _ _ _ _ Ht)) as (v1 & Hv1 & Hv).
  injection Hv. intros Hid _ Hsr Hfr. wp_steps. rewrite decide_False by (rewrite Ho1; auto). wp_steps.
  rewrite decide_False by (rewrite Hfr; auto). rewrite Hsr. wp_head.
  assert (Ht1 : transferable k1 owner p v1 info) by by eapply transferable_view.
  eapply transfer_message_spec; [done|]. intros k2 [D1 D2 D3 D4].
  pose proof (changed_only _ _ _ _ D4) as Hk2. apply HQ.
  - split; [done|by rewrite <- Hid| | | |].
    + intros i w Hi Hw. apply D3; [done|]. by eapply readable_view.
    + intros j w Hw. eapply changed_other; [exact D4|by eapply trans_distinct|by eapply trans_separate|].
      by eapply readable_view.
    + eapply ipc_queue_view; [by eapply (messages_changed_view _ _ _ _ ipc_view)|by rewrite Hk2|done].
    + unfold ipc_state_of. rewrite Hk2. ksimpl_goal. rewrite Hport1. cbn. rewrite Hst1, Hst'. done.
  - rewrite <- Hsch1. by eapply messages_changed_view.
  - rewrite <- Hcall1. by eapply messages_changed_view.
  - by rewrite Hk2, Hk1.
Qed.
End receive.

(** ** Properties *)

(** Copying a message copies every one of its words, whether a machine register
    or the IPC buffer carries it, and changes no other message register of the
    receiver and none of the sender. *)
Theorem copy_messages_copies k d s len :
  s ≠ d → 0 ≤ len < 256 → separate_buffers k d s →
  (∀ i, 0 ≤ i < len →
     (∃ w, readable k s (i + IPC_PAYLOAD_START) w) ∧ ∃ v, readable k d (i + IPC_PAYLOAD_START) v) →
  wp (copy_messages d s len)
     (λ r k', r = Ok tt ∧ messages_changed d (λ j, 0 ≤ j - IPC_PAYLOAD_START < len) k k' ∧
        ∀ i w, 0 ≤ i < len → readable k s (i + IPC_PAYLOAD_START) w →
               readable k' d (i + IPC_PAYLOAD_START) w) k.
Proof. intros Hne Hlen Hsep Hr. by eapply copy_messages_spec. Qed.

(** C20: SEND to a port where a receiver waits is a rendezvous, for a message that
    asks for no transfer of capabilities and whose header and words both processes can
    access ([transferable]; [failed_send_loses_receiver] is about the others).  The
    first process of the queue leaves it with the message: the info word, the
    identifier of the sender's capability and every word of the payload; it becomes
    the last ready process of its priority, the sender keeps running with its
    registers unchanged, the other receivers keep waiting in order, and the port
    returns to [WAIT] exactly when none is left.  Without the WRITE right nothing
    happens. *)
Theorem send_delivers `{config} a k self sv owner ov p v l qs cpu info :
  one_core → slots k !! self = Some sv →
  ipc_queue a k (p :: l) → ipc_state_of a k = Some IPC_READY_TO_RECEIVE →
  transferable k p owner ov info → parked BSP_ID k qs cpu p v →
  wp (ipc_operation_send a owner self info)
     (λ r k', if has_rights (rights sv) RIGHTS_WRITE
              then r = Ok tt ∧ handed_over a owner p (data_0 (data sv)) info l v qs k k'
              else r = Err CE_PERMISSION_DENIED ∧ k' = k) k.
Proof.
  intros Hone Hself Hq Hst Ht Hp. unfold ipc_operation_send. wp_steps.
  change RIGHTS_WRITE with (2 ^ 1). rewrite has_right_bit by done.
  destruct (has_rights _ _); cbn [negb]; [|by wp_steps].
  unfold ipc_state_of in Hst. destruct (ipc_ports k !! a) as [port|] eqn:Hport; [|done].
  injection Hst as Hst. wp_steps. rewrite Hst.
  eapply (hand_over_spec Hone a k owner ov info (data_0 (data sv))); [done| |done..|by auto].
  unfold ipc_state_of. rewrite Hport. cbn. by rewrite Hst.
Qed.

(** C38: a SEND whose message does not fit loses a receiver and wedges the port.  When
    receivers wait and the message has words outside the machine's message
    registers for which the sender or the first receiver has no IPC buffer, the
    call answers FATAL; that receiver has left the queue of the port, is READY and
    waits on no port, but is in no ready queue, so that nothing will run it; and
    the port is in state [WAIT] although the other receivers still wait in order. *)
Theorem failed_send_loses_receiver `{config} a k self sv owner ov p v l qs cpu info :
  slots k !! self = Some sv → has_rights (rights sv) RIGHTS_WRITE = true →
  ipc_queue a k (p :: l) → ipc_state_of a k = Some IPC_READY_TO_RECEIVE →
  unfitting k p owner ov info → parked BSP_ID k qs cpu p v →
  wp (ipc_operation_send a owner self info)
     (λ r k', r = Err CE_FATAL ∧ receiver_lost a owner p l qs k k') k.
Proof.
  intros Hself Hw Hq Hst Hu Hp. unfold ipc_operation_send. wp_steps.
  change RIGHTS_WRITE with (2 ^ 1) in *. rewrite has_right_bit, Hw by done. cbn [negb].
  unfold ipc_state_of in Hst. destruct (ipc_ports k !! a) as [port|] eqn:Hport; [|done].
  injection Hst as Hst. wp_steps. rewrite Hst. eapply hand_over_fails; [done..|]. by auto.
Qed.

(** A blocking SEND to a port without a waiting receiver queues the sender: it
    is the last of the port's queue, blocked, with the identifier of the
    capability it sent through, the port announces a sender, and the processor
    goes to the first process of the highest ready queue (or to IDLE). *)
Theorem send_blocks `{config} a k self sv owner ov l cpu hc qs next idle qs' st info :
  one_core → slots k !! self = Some sv → has_rights (rights sv) RIGHTS_WRITE = true →
  can_block a k l owner ov cpu hc qs next idle qs' →
  ipc_state_of a k = Some st → st ≠ IPC_READY_TO_RECEIVE → message_info.is_block info = true →
  wp (ipc_operation_send a owner self info)
     (λ r k', r = Ok tt ∧
        waits a owner IPC_READY_TO_SEND l
          (ov <| status := PS_BLOCKED_SEND |> <| identifier_when_blocked := data_0 (data sv) |>)
          next idle qs' k') k.
Proof.
  intros Hone Hself Hw Hb Hst Hne Hblk. unfold ipc_operation_send. wp_steps.
  change RIGHTS_WRITE with (2 ^ 1) in *. rewrite has_right_bit, Hw by done. cbn [negb].
  unfold ipc_state_of in Hst. destruct (ipc_ports k !! a) as [port|] eqn:Hport; [|done].
  injection Hst as Hst. wp_steps. rewrite Hst, Hblk. cbn [negb].
  pose proof (block_owner _ _ _ _ _ _ _ _ _ _ _ Hb) as Hov.
  assert (Hgo : wp (modify ipc_ports a (λ v, v <| ipc_state := IPC_READY_TO_SEND |>);;
    modify processes owner
      (λ p, p <| status := PS_BLOCKED_SEND |> <| identifier_when_blocked := data_0 (data sv) |>);;
    map_error (λ _, CE_FATAL) (let? _ := push_ipc_queue a owner in schedule_and_switch_from owner))
    (λ r k', r = Ok tt ∧ waits a owner IPC_READY_TO_SEND l
      (ov <| status := PS_BLOCKED_SEND |> <| identifier_when_blocked := data_0 (data sv) |>) next idle qs' k') k).
  { do 5 wp_step. eapply wp_mono; [|eapply (block_spec Hone); [eapply can_block_update; [exact Hb|exact Hport|..]|]].
    - intros r k' [-> ?]. done.
    - done.
    - done.
    - exact (block_unqueued _ _ _ _ _ _ _ _ _ _ _ Hb).
    - unfold ipc_state_of. ksimpl_goal. by rewrite lookup_insert_eq. }
  by destruct st.
Qed.

(** A blocking RECEIVE on a port without a waiting sender, by a process that
    owes no reply and has no bound notification, queues the receiver the same
    way, and the port announces a receiver. *)
Theorem receive_blocks `{config} a k self sv owner ov bv l cpu hc qs next idle qs' st info :
  one_core → slots k !! self = Some sv → has_rights (rights sv) RIGHTS_READ = true →
  can_block a k l owner ov cpu hc qs next idle qs' → destination_reply_state ov = DR_NONE →
  slots k !! process_slot_ref owner BINDED_NOTIFICATION_PORT = Some bv → type bv = CT_NONE →
  ipc_state_of a k = Some st → st ≠ IPC_READY_TO_SEND → message_info.is_block info = true →
  wp (ipc_operation_receive a owner self info)
     (λ r k', r = Ok tt ∧
        waits a owner IPC_READY_TO_RECEIVE l (ov <| status := PS_BLOCKED_RECEIVE |>) next idle qs' k') k.
Proof.
  intros Hone Hself Hw Hb Hdr Hbv Hbt Hst Hne Hblk. unfold ipc_operation_receive.
  pose proof (block_owner _ _ _ _ _ _ _ _ _ _ _ Hb) as Hov. wp_steps.
  change RIGHTS_READ with (2 ^ 0) in *. rewrite has_right_bit, Hw by done. cbn [negb].
  unfold ipc_state_of in Hst. destruct (ipc_ports k !! a) as [port|] eqn:Hport; [|done].
  injection Hst as Hst. wp_steps. rewrite Hdr. wp_steps. rewrite Hst.
  assert (Hgo : wp (receive_or_block a owner info)
    (λ r k', r = Ok tt ∧ waits a owner IPC_READY_TO_RECEIVE l (ov <| status := PS_BLOCKED_RECEIVE |>)
       next idle qs' k') k); [|by destruct st].
  unfold receive_or_block, try_deliver_pending_binded_notification, bound_notification_port. wp_steps.
  rewrite Hbt. wp_steps. rewrite Hblk. cbn [negb]. do 4 wp_step. unfold block_and_switch. wp_head.
  eapply wp_mono; [|eapply (block_spec Hone); [eapply can_block_update; [exact Hb|exact Hport|..]|]].
  - intros r k' [-> ?]. done.
  - done.
  - done.
  - exact (block_unqueued _ _ _ _ _ _ _ _ _ _ _ Hb).
  - unfold ipc_state_of. ksimpl_goal. by rewrite lookup_insert_eq.
Qed.

(** The entry of RECEIVE when a sender waits. *)
Lemma receive_ready_sender `{config} a k self sv owner ov info Q :
  slots k !! self = Some sv → has_rights (rights sv) RIGHTS_READ = true →
  processes k !! owner = Some ov → destination_reply_state ov = DR_NONE →
  ipc_state_of a k = Some IPC_READY_TO_SEND →
  wp (try_receive_from_ready_sender a owner) Q k → wp (ipc_operation_receive a owner self info) Q k.
Proof.
  intros Hself Hw Hov Hdr Hst HQ. unfold ipc_operation_receive. wp_steps.
  change RIGHTS_READ with (2 ^ 0) in *. rewrite has_right_bit, Hw by done. cbn [negb].
  unfold ipc_state_of in Hst. destruct (ipc_ports k !! a) as [port|] eqn:Hport; [|done].
  injection Hst as Hst. wp_steps. rewrite Hdr. wp_steps. by rewrite Hst.
Qed.

(** RECEIVE on a port where a sender waits takes its message: the first process
    of the queue leaves it, the receiver holds its info word, the identifier it
    sent with and every word of the payload, the sender becomes the last ready
    process of its priority, and the port returns to [WAIT] exactly when no
    sender is left. *)
Theorem receive_takes_message `{config} a k self sv owner ov p v l qs cpu info any :
  one_core → slots k !! self = Some sv → has_rights (rights sv) RIGHTS_READ = true →
  processes k !! owner = Some ov → destination_reply_state ov = DR_NONE →
  ipc_queue a k (p :: l) → ipc_state_of a k = Some IPC_READY_TO_SEND →
  transferable k owner p v info → readable k p IPC_MESSAGE_INFO info →
  fault_reason v = FT_NONE → source_reply_state v = SR_NONE → parked BSP_ID k qs cpu p v →
  wp (ipc_operation_receive a owner self any)
     (λ r k', r = Ok tt ∧ took a owner p (identifier_when_blocked v) info l k k' ∧
        sched_inv BSP_ID k' (update_queue (priority v) (qs (priority v) ++ [p]) qs)) k.
Proof.
  intros Hone Hself Hw Hov Hdr Hq Hst Ht Hinfo Hfault Hsr Hp.
  eapply receive_ready_sender; [done..|]. eapply (take_message_spec a k owner p ov v l info); [done..|].
  intros k2 Htook Hsch Hcall Hcpu2. rewrite Hsr. rewrite bool_decide_eq_true_2 by done. cbn [negb].
  destruct (view_lookup _ _ _ _ _ Hcall Hov) as (ov2 & Hov2 & _).
  destruct (parked_view _ _ k2 _ _ _ _ Hsch Hcpu2 Hp) as (v2 & Hp2 & Hpr).
  pose proof (parked_process _ _ _ _ _ _ Hp2) as Hv2.
  pose proof (trans_distinct _ _ _ _ _ Ht) as Hne. do 4 wp_step.
  eapply wake_spec; [done|eapply parked_update; [eapply parked_other; [exact Hp2|done|exact Hov2|done]|..]|].
  1: done. 1-3: by destruct Hp2 as [_ _ _ _ _ (? & ? & ?)].
  ksimpl_goal. rewrite Hpr. intros k' Hm Hs. split_and!; [done| |done].
  destruct (made_ready_only _ _ _ _ _ _ Hm) as (Hp5 & Hb5 & _).
  eapply took_view; [by eapply made_ready_view; [..|exact Hm]; [| |lookup_solve]..|done|done|].
  eapply (took_view _ _ _ _ _ _ _ k2); ksimpl_goal; [..|done|done|done].
  all: rewrite (view_insert _ _ p v2) by (done || lookup_solve); by rewrite (view_insert _ _ owner ov2).
Qed.

(** [client] waits for the reply of [server], and both know. *)
Definition reply_owed (k : kernel) (server client : Z) : Prop :=
  ∃ sv cv, processes k !! server = Some sv ∧ processes k !! client = Some cv ∧
    destination_reply_state sv = DR_READY_TO_REPLY ∧ destination_reply_target sv = Some client ∧
    status cv = PS_BLOCKED_REPLY ∧ source_reply_target cv = Some server.

(** RECEIVE of a CALL, with the caller blocked on the reply. *)
Lemma receive_call_spec `{config} a k self sv owner ov p v l qs cpu info any :
  slots k !! self = Some sv → has_rights (rights sv) RIGHTS_READ = true →
  processes k !! owner = Some ov → destination_reply_state ov = DR_NONE →
  ipc_queue a k (p :: l) → ipc_state_of a k = Some IPC_READY_TO_SEND →
  transferable k owner p v info → readable k p IPC_MESSAGE_INFO info →
  fault_reason v = FT_NONE → source_reply_state v = SR_WAIT → parked BSP_ID k qs cpu p v →
  wp (ipc_operation_receive a owner self any)
     (λ r k', r = Ok tt ∧ took a owner p (identifier_when_blocked v) info l k k' ∧
        reply_owed k' owner p ∧
        ∃ cv, parked BSP_ID k' qs cpu p cv ∧ priority cv = priority v ∧ fault_reason cv = FT_NONE) k.
Proof.
  intros Hself Hw Hov Hdr Hq Hst Ht Hinfo Hfault Hsr Hpark.
  eapply receive_ready_sender; [done..|]. eapply (take_message_spec a k owner p ov v l info); [done..|].
  intros k2 Htook Hsch Hcall Hcpu2. rewrite Hsr. rewrite bool_decide_eq_false_2 by done. cbn [negb].
  destruct (view_lookup _ _ _ _ _ Hcall Hov) as (ov2 & Hov2 & _).
  destruct (parked_view _ _ k2 _ _ _ _ Hsch Hcpu2 Hpark) as (v2 & Hp2 & Hpr2).
  pose proof (parked_process _ _ _ _ _ _ Hp2) as Hv2.
  destruct (view_lookup _ _ _ _ _ Hcall (parked_process _ _ _ _ _ _ Hpark)) as (v2' & Hv2' & He).
  rewrite Hv2 in Hv2'. injection Hv2' as <-.
  injection He. intros _ _ _ Hf2.
  pose proof (trans_distinct _ _ _ _ _ Ht) as Hne. unfold accept_call. wp_steps. split_and!; [done|..].
  - eapply (took_view _ _ _ _ _ _ _ k2); ksimpl_goal; [..|done|done|done].
    all: rewrite (view_insert _ _ p v2) by (done || lookup_solve); by rewrite (view_insert _ _ owner ov2).
  - eexists _, _. split; [lookup_solve|]. split; [lookup_solve|]. done.
  - eexists. split_and!; [eapply parked_update; [eapply parked_other; [exact Hp2|done|lookup_solve|done]|..]| |].
    all: try (destruct Hp2 as [_ _ _ _ _ (? & ? & ?)]; done).
    all: cbn; congruence.
Qed.

(** RECEIVE of a CALL takes the message the same way and makes the receiver owe
    the reply: the caller stays blocked, now on the reply of this receiver, and
    enters no ready queue. *)
Theorem receive_takes_call `{config} a k self sv owner ov p v l qs cpu info any :
  slots k !! self = Some sv → has_rights (rights sv) RIGHTS_READ = true →
  processes k !! owner = Some ov → destination_reply_state ov = DR_NONE →
  ipc_queue a k (p :: l) → ipc_state_of a k = Some IPC_READY_TO_SEND →
  transferable k owner p v info → readable k p IPC_MESSAGE_INFO info →
  fault_reason v = FT_NONE → source_reply_state v = SR_WAIT → parked BSP_ID k qs cpu p v →
  wp (ipc_operation_receive a owner self any)
     (λ r k', r = Ok tt ∧ took a owner p (identifier_when_blocked v) info l k k' ∧
        reply_owed k' owner p ∧ sched_inv BSP_ID k' qs) k.
Proof.
  intros. eapply wp_mono; [|by eapply receive_call_spec].
  intros r k' (Hr & Htook & Howed & cv & [_ Hinv _ _ _ _] & _). by split_and!.
Qed.

(** Both ends of a reply, and whether the process runs. *)
Definition reply_view (v : process)
    : destination_reply_state_object * option Z * source_reply_state_object * option Z * process_status :=
  (destination_reply_state v, destination_reply_target v, source_reply_state v, source_reply_target v, status v).

(** A reply settles what is owed.  The client of a CALL receives the message of
    the server, is ready again and owes and is owed nothing, the server owes
    nothing any more, and the client enters the ready queue of its priority. *)
Theorem complete_reply_settles `{config} k owner ov client cv qs cpu info :
  one_core → reply_owed k owner client →
  transferable k client owner ov info → fault_reason cv = FT_NONE → parked BSP_ID k qs cpu client cv →
  wp (complete_reply true owner info)
     (λ r k', r = Ok tt ∧
        readable k' client IPC_MESSAGE_INFO info ∧
        (∀ i w, 0 ≤ i < message_info.message_length info →
           readable k owner (i + IPC_PAYLOAD_START) w → readable k' client (i + IPC_PAYLOAD_START) w) ∧
        (∃ ov' cv', processes k' !! owner = Some ov' ∧ processes k' !! client = Some cv' ∧
           destination_reply_state ov' = DR_NONE ∧ destination_reply_target ov' = None ∧
           status cv' = PS_READY ∧ source_reply_state cv' = SR_NONE ∧ source_reply_target cv' = None) ∧
        sched_inv BSP_ID k' (update_queue (priority cv) (qs (priority cv) ++ [client]) qs)) k.
Proof.
  intros Hone (ov0 & cv0 & Hov & Hcv & Hds & Hdt & _) Ht Hfault Hp.
  pose proof (trans_sender _ _ _ _ _ Ht) as Hov'. pose proof (parked_process _ _ _ _ _ _ Hp). simplify_eq.
  unfold complete_reply. wp_steps. rewrite Hds, Hdt. wp_steps. rewrite decide_False by naive_solver.
  wp_head. eapply transfer_direct_message_spec; [done|]. intros k1 [D1 D2 D3 D4].
  assert (Hcpu1 : cpu_local_variables k1 = cpu_local_variables k) by by rewrite (changed_only _ _ _ _ D4).
  assert (Hsch : sched_view <$> processes k1 = sched_view <$> processes k) by by eapply messages_changed_view.
  destruct (view_lookup _ _ _ _ _ Hsch Hov) as (ov1 & Hov1 & _).
  destruct (parked_view _ _ k1 _ _ _ _ Hsch Hcpu1 Hp) as (cv1 & Hp1 & Hpr).
  pose proof (parked_process _ _ _ _ _ _ Hp1) as Hcv1.
  pose proof (trans_distinct _ _ _ _ _ Ht) as Hne. unfold finish_reply. do 4 wp_step.
  eapply wake_spec; [done|eapply parked_other; [eapply parked_update; [exact Hp1|..]|done|lookup_solve|done]|].
  1: done. 1-3: by destruct Hp1 as [_ _ _ _ _ (? & ? & ?)].
  ksimpl_goal. rewrite Hpr. intros k' Hm Hs. match type of Hm with made_ready _ _ ?c _ ?s _ =>
    set (k3 := s) in *; assert (Hc3 : processes k3 !! client = Some c) by (unfold k3; lookup_solve) end.
  destruct (made_ready_only _ _ _ _ _ _ Hm) as (_ & Hb5 & _).
  assert (Hr3 : reg_view <$> processes k3 = reg_view <$> processes k1).
  { unfold k3. ksimpl_goal. rewrite (view_insert _ _ owner ov1) by (done || lookup_solve).
    by rewrite (view_insert _ _ client cv1). }
  assert (Hread : ∀ j w, readable k1 client j w → readable k' client j w).
  { intros j w Hw. eapply readable_view; [eapply made_ready_view; [..|exact Hc3|exact Hm]; done|done|].
    by eapply readable_view. }
  split_and!; [done|by apply Hread|intros i w Hi Hw; by apply Hread, D3| |done].
  assert (Hrv : reply_view <$> processes k' = reply_view <$> processes k3)
    by (eapply made_ready_view; [..|exact Hc3|exact Hm]; done).
  destruct (view_lookup _ _ _ _ _ Hrv Hc3) as (cv' & Hcv' & Hec).
  assert (Ho3 : ∃ w, processes k3 !! owner = Some w ∧ destination_reply_state w = DR_NONE ∧
    destination_reply_target w = None) by (eexists; split; [unfold k3; lookup_solve|done]).
  destruct Ho3 as (w & Hw3 & Hw1 & Hw2). destruct (view_lookup _ _ _ _ _ Hrv Hw3) as (w' & Hw' & Heo).
  injection Hec. injection Heo. intros. exists w', cv'. split_and!; congruence.
Qed.

(** C28: A CALL is answered.  A client that waits in the queue of a port with a CALL
    is taken by the RECEIVE of a server: the server gets the message, the identifier
    and the info of the client.  Whatever the server then does to its own message
    registers and buffer, its reply takes the words it left there to the client, which
    becomes ready, last in the queue of its priority; neither side owes or waits for
    anything afterwards.  Both messages carry no capabilities and have words both
    sides can access ([transferable]). *)
Theorem call_round_trip `{config} a k self sv server ov client v l qs cpu info any :
  one_core → slots k !! self = Some sv → has_rights (rights sv) RIGHTS_READ = true →
  processes k !! server = Some ov → destination_reply_state ov = DR_NONE →
  ipc_queue a k (client :: l) → ipc_state_of a k = Some IPC_READY_TO_SEND →
  transferable k server client v info → readable k client IPC_MESSAGE_INFO info →
  fault_reason v = FT_NONE → source_reply_state v = SR_WAIT → parked BSP_ID k qs cpu client v →
  wp (ipc_operation_receive a server self any)
     (λ r k1, r = Ok tt ∧ took a server client (identifier_when_blocked v) info l k k1 ∧
        ∀ k2 sv2 reply, messages_changed server (λ _, True) k1 k2 → transferable k2 client server sv2 reply →
          wp (complete_reply true server reply)
             (λ r' k3, r' = Ok tt ∧ readable k3 client IPC_MESSAGE_INFO reply ∧
                (∀ i w, 0 ≤ i < message_info.message_length reply →
                   readable k2 server (i + IPC_PAYLOAD_START) w → readable k3 client (i + IPC_PAYLOAD_START) w) ∧
                (∃ sv3 cv3, processes k3 !! server = Some sv3 ∧ processes k3 !! client = Some cv3 ∧
                   destination_reply_state sv3 = DR_NONE ∧ destination_reply_target sv3 = None ∧
                   status cv3 = PS_READY ∧ source_reply_state cv3 = SR_NONE ∧ source_reply_target cv3 = None) ∧
                sched_inv BSP_ID k3 (update_queue (priority v) (qs (priority v) ++ [client]) qs)) k2) k.
Proof.
  intros Hone Hself Hw Hov Hdr Hq Hst Ht Hinfo Hfault Hsr Hpark.
  eapply wp_mono; [|by eapply receive_call_spec].
  intros r k1 (-> & Htook & Howed & cv & Hcv & Hpr & Hf). split_and!; [done|done|]. intros k2 sv2 reply Hm Ht2.
  assert (Hsch : sched_view <$> processes k2 = sched_view <$> processes k1) by by eapply messages_changed_view.
  assert (Hrep : reply_view <$> processes k2 = reply_view <$> processes k1) by by eapply messages_changed_view.
  assert (Hcall : call_view <$> processes k2 = call_view <$> processes k1) by by eapply messages_changed_view.
  assert (Hcpu : cpu_local_variables k2 = cpu_local_variables k1) by by rewrite (changed_only _ _ _ _ Hm).
  destruct (parked_view _ _ k2 _ _ _ _ Hsch Hcpu Hcv) as (cv2 & Hcv2 & Hpr2).
  destruct (view_lookup _ _ _ _ _ Hcall (parked_process _ _ _ _ _ _ Hcv)) as (cv2' & Hcv2' & He).
  rewrite (parked_process _ _ _ _ _ _ Hcv2) in Hcv2'. injection Hcv2' as <-. injection He. intros _ _ _ Hf2.
  rewrite <- Hpr, <- Hpr2. eapply complete_reply_settles; [done| |done|congruence|exact Hcv2].
  destruct Howed as (s1 & c1 & Hs1 & Hc1 & H1 & H2 & H3 & H4).
  destruct (view_lookup _ _ _ _ _ Hrep Hs1) as (s2 & Hs2 & Es). destruct (view_lookup _ _ _ _ _ Hrep Hc1) as (c2 & Hc2 & Ec).
  injection Es. injection Ec. intros. exists s2, c2. split_and!; congruence.
Qed.

(** ** Examples *)

Section example.
#[local] Existing Instance example_config.

(** The capability with identifier 77 for the port 100, an address space, and the
    message registers of a message of two words. *)
Definition example_info : Z := message_info.make true 2 0 message_info.NORMAL.
Definition example_port_slot : capability_slot :=
  initial_slot <| component := Some (C_IPC_PORT 100) |> <| type := CT_IPC_PORT |>
    <| rights := RIGHTS_ALL |> <| data := SlotData 77 0 0 |>.
Definition example_message_registers : list Z :=
  set_register register_index.RDX example_info
    (set_register register_index.R9 11 (set_register register_index.R10 12 (replicate 23 0))).

(** Process 1 runs on a core with empty ready queues; 2 and 3 are blocked. *)
Definition example_ipc (port : ipc_port) (v1 v2 v3 : process) : kernel :=
  initial_kernel
    <| processes := {[0 := initial_process; 1 := v1; 2 := v2; 3 := v3]} |>
    <| slots := {[array_slot 9 0 := example_port_slot;
                  process_slot_ref 1 BINDED_NOTIFICATION_PORT := initial_slot;
                  process_slot_ref 0 ROOT_ADDRESS_SPACE := example_space 0]} |>
    <| cpu_local_variables := {[0 := MkCpu (Some 1) 0 (MkProcessManager 0 initial_scheduler) false None]} |>
    <| hal_cores := {[0 := example_core]} |>
    <| ipc_ports := {[100 := port]} |>.
Definition example_sender : process :=
  initial_process <| status := PS_READY |> <| priority := 5 |> <| registers := example_message_registers |>.
Definition example_waiter (st : process_status) (prev nxt : option Z) : process :=
  example_sender <| status := st |> <| current_ipc_port := Some 100 |>
    <| preview_ipc_queue := prev |> <| next_ipc_queue := nxt |> <| identifier_when_blocked := 55 |>.
(** 2 and 3 wait on the port. *)
Definition example_waiting (st : ipc_port_state) (ps : process_status) (reply : source_reply_state_object)
  : kernel :=
  example_ipc (MkIpcPort (Some 2) (Some 3) st) example_sender
    ((example_waiter ps None (Some 3)) <| source_reply_state := reply |>) (example_waiter ps (Some 2) None).

Lemma example_processes_split port v1 v2 v3 p v :
  processes (example_ipc port v1 v2 v3) !! p = Some v →
  (p = 0 ∧ v = initial_process) ∨ (p = 1 ∧ v = v1) ∨ (p = 2 ∧ v = v2) ∨ (p = 3 ∧ v = v3).
Proof.
  unfold example_ipc. ksimpl_goal. intros Hp.
  repeat (apply lookup_insert_Some in Hp as [[<- <-]|[_ Hp]]; [by auto 10|]).
  apply lookup_singleton_Some in Hp as [<- <-]. auto 10.
Qed.

Lemma example_sched port v1 v2 v3 : sched_inv BSP_ID (example_ipc port v1 v2 v3) (λ _, []).
Proof. eexists. split; [reflexivity|]. apply sched_repr_initial. Qed.

Lemma example_waiting_queue st ps reply : ipc_queue 100 (example_waiting st ps reply) [2; 3].
Proof.
  eexists. split; [reflexivity|]. split; try reflexivity.
  - repeat split.
  - unfold example_waiting. intros p v Hp. apply example_processes_split in Hp as [[-> ->]|[[-> ->]|[[-> ->]|[-> ->]]]];
      apply (bool_decide_unpack _); vm_compute; exact I.
Qed.

Lemma example_separate port v1 v2 v3 p q :
  buffer v1 = None → buffer v2 = None → buffer v3 = None →
  separate_buffers (example_ipc port v1 v2 v3) p q.
Proof.
  intros H1 H2 H3 v w b Hv _ Hb.
  apply example_processes_split in Hv as [[-> ->]|[[-> ->]|[[-> ->]|[-> ->]]]]; (discriminate || congruence).
Qed.

Lemma example_readable port v1 v2 v3 p i r w :
  registers v1 = example_message_registers → registers v2 = example_message_registers →
  p = 1 ∨ p = 2 → message_register_index i = Some r → example_message_registers !! Z.to_nat r = Some w →
  readable (example_ipc port v1 v2 v3) p i w.
Proof.
  intros H1 H2 Hp Hi Hw. apply readable_spec. destruct Hp as [->| ->]; [exists v1|exists v2];
    (split; [reflexivity|]); rewrite Hi; congruence.
Qed.

Lemma example_transferable st ps reply p q v :
  (p = 1 ∧ q = 2) ∨ (p = 2 ∧ q = 1) → processes (example_waiting st ps reply) !! q = Some v →
  transferable (example_waiting st ps reply) p q v example_info.
Proof.
  intros Hpq Hv. split.
  - lia.
  - unfold example_waiting. by apply example_separate.
  - done.
  - unfold example_waiting.
    split; eexists; (eapply example_readable; [reflexivity..|lia|reflexivity|reflexivity]).
  - change (message_info.message_length example_info) with 2. unfold example_waiting. intros i Hi.
    assert (i = 0 ∨ i = 1) as [->| ->] by lia;
      split; eexists; (eapply example_readable; [reflexivity..|lia|reflexivity|reflexivity]).
  - reflexivity.
Qed.

Lemma example_parked st ps reply v :
  processes (example_waiting st ps reply) !! 2 = Some v →
  parked BSP_ID (example_waiting st ps reply) (λ _, []) (MkCpu (Some 1) 0 (MkProcessManager 0 initial_scheduler) false None) 2 v.
Proof.
  intros Hv. unfold example_waiting in *. split; [done|apply example_sched|done|done|..];
    apply example_processes_split in Hv as [[[=] _]|[[[=] _]|[[_ ->]|[[=] _]]]]; [by vm_compute|done].
Qed.

Abbreviation example_ipc_cpu := (MkCpu (Some 1) 0 (MkProcessManager 0 initial_scheduler) false None).

Lemma copy_messages_copies_witness :
  let k := example_waiting IPC_READY_TO_RECEIVE PS_BLOCKED_RECEIVE SR_NONE in
  wp (copy_messages 2 1 2)
     (λ r k', r = Ok tt ∧ messages_changed 2 (λ j, 0 ≤ j - IPC_PAYLOAD_START < 2) k k' ∧
        ∀ i w, 0 ≤ i < 2 → readable k 1 (i + IPC_PAYLOAD_START) w →
               readable k' 2 (i + IPC_PAYLOAD_START) w) k.
Proof.
  intros k. assert (Ht : transferable k 2 1 example_sender example_info)
    by (apply example_transferable; [by right|reflexivity]).
  apply (copy_messages_copies k 2 1 2); [done|lia|by eapply trans_separate|by apply Ht].
Defined.

Lemma send_delivers_witness :
  let k := example_waiting IPC_READY_TO_RECEIVE PS_BLOCKED_RECEIVE SR_NONE in
  wp (ipc_operation_send 100 1 (array_slot 9 0) example_info)
     (λ r k', r = Ok tt ∧
        handed_over 100 1 2 77 example_info [3] (example_waiter PS_BLOCKED_RECEIVE None (Some 3)) (λ _, []) k k') k.
Proof.
  intros k. apply (send_delivers 100 k (array_slot 9 0) example_port_slot 1 example_sender 2
    (example_waiter PS_BLOCKED_RECEIVE None (Some 3)) [3] (λ _, []) example_ipc_cpu example_info); try reflexivity.
  - apply example_waiting_queue.
  - apply example_transferable; [by right|reflexivity].
  - apply example_parked. reflexivity.
Defined.

Lemma receive_takes_message_witness :
  let k := example_waiting IPC_READY_TO_SEND PS_BLOCKED_SEND SR_NONE in
  wp (ipc_operation_receive 100 1 (array_slot 9 0) example_info)
     (λ r k', r = Ok tt ∧ took 100 1 2 55 example_info [3] k k' ∧
        sched_inv BSP_ID k' (update_queue 5 [2] (λ _, []))) k.
Proof.
  intros k. apply (receive_takes_message 100 k (array_slot 9 0) example_port_slot 1 example_sender 2
    (example_waiter PS_BLOCKED_SEND None (Some 3)) [3] (λ _, []) example_ipc_cpu example_info example_info);
    try reflexivity.
  - apply example_waiting_queue.
  - apply example_transferable; [by left|reflexivity].
  - apply example_parked. reflexivity.
Defined.

Lemma receive_takes_call_witness :
  let k := example_waiting IPC_READY_TO_SEND PS_BLOCKED_SEND SR_WAIT in
  wp (ipc_operation_receive 100 1 (array_slot 9 0) example_info)
     (λ r k', r = Ok tt ∧ took 100 1 2 55 example_info [3] k k' ∧
        reply_owed k' 1 2 ∧ sched_inv BSP_ID k' (λ _, [])) k.
Proof.
  intros k. pose proof (receive_takes_call 100 k (array_slot 9 0) example_port_slot 1 example_sender 2
    ((example_waiter PS_BLOCKED_SEND None (Some 3)) <| source_reply_state := SR_WAIT |>)
    [3] (λ _, []) example_ipc_cpu example_info example_info) as Hreceive.
  eapply Hreceive;
    [reflexivity|reflexivity|reflexivity|reflexivity|apply example_waiting_queue|reflexivity
    |apply example_transferable; [by left|reflexivity]|reflexivity..|].
  apply example_parked. reflexivity.
Defined.

Lemma call_round_trip_witness :
  let k := example_waiting IPC_READY_TO_SEND PS_BLOCKED_SEND SR_WAIT in
  wp (ipc_operation_receive 100 1 (array_slot 9 0) example_info)
     (λ r k1, r = Ok tt ∧ took 100 1 2 55 example_info [3] k k1 ∧
        ∀ k2 sv2 reply, messages_changed 1 (λ _, True) k1 k2 → transferable k2 2 1 sv2 reply →
          wp (complete_reply true 1 reply) (λ r' k3, r' = Ok tt ∧ readable k3 2 IPC_MESSAGE_INFO reply) k2) k.
Proof.
  intros k. pose proof (call_round_trip 100 k (array_slot 9 0) example_port_slot 1 example_sender 2
    ((example_waiter PS_BLOCKED_SEND None (Some 3)) <| source_reply_state := SR_WAIT |>)
    [3] (λ _, []) example_ipc_cpu example_info example_info) as Hcall.
  eapply wp_mono; [|eapply Hcall;
    [reflexivity|reflexivity|reflexivity|reflexivity|reflexivity|apply example_waiting_queue|reflexivity
    |apply example_transferable; [by left|reflexivity]|reflexivity..|]].
  - intros r k1 (Hr & Htook & Hreply). split_and!; [done|done|]. intros k2 sv2 reply Hm Ht.
    eapply wp_mono; [|by eapply Hreply]. by intros r' k3 (? & ? & _).
  - apply example_parked. reflexivity.
Defined.

(** Nobody waits on the port. *)
Definition example_alone : kernel :=
  example_ipc (MkIpcPort None None IPC_WAIT) example_sender initial_process initial_process.

Lemma example_can_block :
  can_block 100 example_alone [] 1 example_sender example_ipc_cpu example_core (λ _, []) 0 true (λ _, []).
Proof.
  split; try reflexivity.
  - by split.
  - eexists. split; [reflexivity|]. split; try done. unfold example_alone. intros p v Hp.
    apply example_processes_split in Hp as [[-> ->]|[[-> ->]|[[-> ->]|[-> ->]]]]; split; intros Hx;
      (discriminate Hx || by apply not_elem_of_nil in Hx).
  - apply not_elem_of_nil.
  - apply example_sched.
  - exists initial_process, (example_space 0), 0, 0. by split.
Qed.

Lemma send_blocks_witness :
  wp (ipc_operation_send 100 1 (array_slot 9 0) example_info)
     (λ r k', r = Ok tt ∧
        waits 100 1 IPC_READY_TO_SEND []
          (example_sender <| status := PS_BLOCKED_SEND |> <| identifier_when_blocked := 77 |>)
          0 true (λ _, []) k') example_alone.
Proof.
  apply (send_blocks 100 example_alone (array_slot 9 0) example_port_slot 1 example_sender []
    example_ipc_cpu example_core (λ _, []) 0 true (λ _, []) IPC_WAIT example_info); try reflexivity; [|done].
  apply example_can_block.
Defined.

Lemma receive_blocks_witness :
  wp (ipc_operation_receive 100 1 (array_slot 9 0) example_info)
     (λ r k', r = Ok tt ∧
        waits 100 1 IPC_READY_TO_RECEIVE [] (example_sender <| status := PS_BLOCKED_RECEIVE |>)
          0 true (λ _, []) k') example_alone.
Proof.
  apply (receive_blocks 100 example_alone (array_slot 9 0) example_port_slot 1 example_sender initial_slot []
    example_ipc_cpu example_core (λ _, []) 0 true (λ _, []) IPC_WAIT example_info); try reflexivity; [|done].
  apply example_can_block.
Defined.

(** 1 owes 2 a reply. *)
Definition example_server : process :=
  example_sender <| destination_reply_state := DR_READY_TO_REPLY |> <| destination_reply_target := Some 2 |>.
Definition example_client : process :=
  example_sender <| status := PS_BLOCKED_REPLY |> <| source_reply_state := SR_WAIT |>
    <| source_reply_target := Some 1 |>.
Definition example_owing : kernel :=
  example_ipc (MkIpcPort None None IPC_WAIT) example_server example_client initial_process.

Lemma complete_reply_settles_witness :
  wp (complete_reply true 1 example_info)
     (λ r k', r = Ok tt ∧
        readable k' 2 IPC_MESSAGE_INFO example_info ∧
        (∀ i w, 0 ≤ i < 2 → readable example_owing 1 (i + IPC_PAYLOAD_START) w →
                readable k' 2 (i + IPC_PAYLOAD_START) w) ∧
        (∃ ov' cv', processes k' !! 1 = Some ov' ∧ processes k' !! 2 = Some cv' ∧
           destination_reply_state ov' = DR_NONE ∧ destination_reply_target ov' = None ∧
           status cv' = PS_READY ∧ source_reply_state cv' = SR_NONE ∧ source_reply_target cv' = None) ∧
        sched_inv BSP_ID k' (update_queue 5 [2] (λ _, []))) example_owing.
Proof.
  apply (complete_reply_settles example_owing 1 example_server 2 example_client (λ _, []) example_ipc_cpu
           example_info); try reflexivity.
  - exists example_server, example_client. by split_and!.
  - unfold example_owing. split; [done|by apply example_separate|done|..|reflexivity].
    + split; eexists; (eapply example_readable; [reflexivity..|lia|reflexivity|reflexivity]).
    + change (message_info.message_length example_info) with 2. intros i Hi.
      assert (i = 0 ∨ i = 1) as [->| ->] by lia;
        split; eexists; (eapply example_readable; [reflexivity..|lia|reflexivity|reflexivity]).
  - split; [reflexivity|apply example_sched|done|done|by vm_compute|done].
Defined.

(** Seven words of a sender without an IPC buffer. *)
Definition example_long_info : Z := message_info.make true 7 0 message_info.NORMAL.

Lemma failed_send_loses_receiver_witness :
  let k := example_waiting IPC_READY_TO_RECEIVE PS_BLOCKED_RECEIVE SR_NONE in
  wp (ipc_operation_send 100 1 (array_slot 9 0) example_long_info)
     (λ r k', r = Err CE_FATAL ∧ receiver_lost 100 1 2 [3] (λ _, []) k k') k.
Proof.
  intros k. apply (failed_send_loses_receiver 100 k (array_slot 9 0) example_port_slot 1 example_sender 2
    (example_waiter PS_BLOCKED_RECEIVE None (Some 3)) [3] (λ _, []) example_ipc_cpu example_long_info);
    try reflexivity.
  - apply example_waiting_queue.
  - split; [done|reflexivity|..|reflexivity|by left].
    + split; eexists; (eapply example_readable; [reflexivity..|lia|reflexivity|reflexivity]).
    + intros i Hi. assert (i = 0 ∨ i = 1 ∨ i = 2 ∨ i = 3 ∨ i = 4 ∨ i = 5) as Hcase
        by (unfold MESSAGE_REGISTER_COUNT, IPC_PAYLOAD_START in Hi; lia).
      repeat destruct Hcase as [->|Hcase]; [..|subst i];
        split; eexists; (eapply example_readable; [reflexivity..|lia|reflexivity|reflexivity]).
  - apply example_parked. reflexivity.
Defined.

(** The next SEND queues its sender behind the receiver that still waits, and
    announces senders only. *)
Lemma failed_send_run :
  ∃ k1 k2,
    ipc_operation_send 100 1 (array_slot 9 0) example_long_info
      (example_waiting IPC_READY_TO_RECEIVE PS_BLOCKED_RECEIVE SR_NONE) = Ret (Err CE_FATAL) k1 ∧
    ipc_ports k1 !! 100 = Some (MkIpcPort (Some 3) (Some 3) IPC_WAIT) ∧
    ipc_operation_send 100 1 (array_slot 9 0) example_long_info k1 = Ret (Ok tt) k2 ∧
    ipc_ports k2 !! 100 = Some (MkIpcPort (Some 3) (Some 1) IPC_READY_TO_SEND).
Proof.
  do 2 eexists. split; [vm_compute; reflexivity|].
  split; [vm_compute; reflexivity|]. split; vm_compute; reflexivity.
Qed.
End example.
