(* ===== verification/MemoryTypes.v ===== *)
(** Memory as the kernel names it, and the interface to the processor's memory
    manager: src/src/kernel/include/kernel/memory/{memory,memory_type}.hpp and
    src/src/hal/include/hal/interface/memory_manager.hpp.

    An architecture implements the interface: Memory.v for x86-64,
    Aarch64Memory.v for AArch64.  The Address Space capability (AddressSpace.v)
    is written against the interface.  What an implementation promises is stated
    by the laws of PageWalk.v. *)

From S2P Require Import Prelude Word Types Dll Kernel.

(** ** kernel/memory *)

Definition physical_to_virtual_address (target_physical_address : Z) : Z :=
  Z.lor target_physical_address KERNEL_VIRTUAL_BASE.
Definition virtual_to_physical_address (kernel_virtual_address : Z) : Z :=
  Z.ldiff kernel_virtual_address KERNEL_VIRTUAL_BASE.

(** [rights] of memory_type.hpp and the cache attribute next to them. *)
Definition MEMORY_READ : Z := 1.
Definition MEMORY_WRITE : Z := 2.
Definition MEMORY_EXECUTE : Z := 4.
Definition MEMORY_ALL : Z := 7.
Inductive mapping_flag := MAPPING_NORMAL | MAPPING_BUFFERED | MAPPING_UNCACHED.
Definition MAPPING_FLAG_SHIFT : Z := 4.
Definition MAPPING_FLAG_MASK : Z := Z.shiftl 0xf MAPPING_FLAG_SHIFT.
Definition MAPPING_ATTRIBUTE_MASK : Z := Z.lor MEMORY_ALL MAPPING_FLAG_MASK.

Definition mapping_flag_word (attribute : Z) : Z :=
  Z.shiftr (Z.land attribute MAPPING_FLAG_MASK) MAPPING_FLAG_SHIFT.
Definition is_valid_mapping_attribute (attribute : Z) : bool :=
  (Z.ldiff attribute MAPPING_ATTRIBUTE_MASK =? 0) && (mapping_flag_word attribute <=? 2).
(** [None] for the reserved values. *)
Definition get_mapping_flag (attribute : Z) : option mapping_flag :=
  match mapping_flag_word attribute with
  | 0 => Some MAPPING_NORMAL | 1 => Some MAPPING_BUFFERED | 2 => Some MAPPING_UNCACHED
  | _ => None
  end.

Record page_table := MkPageTable { table_address : Z; table_flags : Z }.
Record frame := MkFrame { frame_address : Z; frame_size_bits : Z; frame_flags : Z }.

(** The constructor of [page_table] and [get_depth]: the depth is a byte. *)
Definition make_page_table (address depth : Z) : page_table := MkPageTable address (wrap8 depth).
Definition get_depth (t : page_table) : Z := Z.land (table_flags t) 0xFF.

Definition FRAME_FLAG_DEVICE : Z := Z.shiftl 1 16.

Definition has_attribute (rights mask : Z) : bool := negb (Z.land rights mask =? 0).

(** [memcpy] and [memset(0)] of [count] words. *)
Fixpoint copy_words (count : nat) (destination source : Z) : M unit :=
  match count with
  | O => mret tt
  | S count' =>
      w ← load memory_words source;
      modify memory_words destination (λ _, w);;
      copy_words count' (destination + 8) (source + 8)
  end.
Fixpoint clear_words (count : nat) (destination : Z) : M unit :=
  match count with
  | O => mret tt
  | S count' =>
      modify memory_words destination (λ _, 0);;
      clear_words count' (destination + 8)
  end.

(** ** hal/interface/memory_manager.hpp

    The declarations the Address Space capability calls, and the bound of user
    addresses of hal/interface/process_manager.hpp. *)

Abbreviation memory_map_result := (result unit memory_map_error).

Class memory_manager := {
  hal_validate_root_address_space : page_table → memory_map_result;
  hal_map_page_table : page_table → page_table → Z → Z → M memory_map_result;
  hal_unmap_page_table : page_table → page_table → Z → M memory_map_result;
  hal_map_frame : page_table → frame → Z → Z → M memory_map_result;
  hal_unmap_frame : page_table → frame → Z → M memory_map_result;
  hal_search_unset_page_table_depth : page_table → Z → Z → M (result Z memory_map_error);
  hal_validate_frame_size_bits : Z → memory_map_result;
  hal_is_valid_user_address : Z → bool;
}.
