(* ===== verification/PageWalk.v ===== *)
(** What a memory manager promises: the page walk of the processor, and the laws
    every implementation of the interface of MemoryTypes.v satisfies.

    x86-64 and AArch64 walk the same tree, four levels of tables of 512 words, and
    differ in how they read an entry ([entry_decoder]).  The permissions of a
    translation are those that every entry on the way grants. *)

From S2P Require Import Prelude Word Types Dll Kernel MemoryTypes.

(** ** Entries *)

(** What a user program may do; reading is always allowed. *)
Record access := MkAccess { access_user : bool; access_write : bool; access_execute : bool }.
Definition full_access : access := MkAccess true true true.
Definition meet (a b : access) : access :=
  MkAccess (access_user a && access_user b) (access_write a && access_write b)
    (access_execute a && access_execute b).

Lemma meet_full a : meet full_access a = a.
Proof. by destruct a. Qed.
Lemma meet_full_r a : meet a full_access = a.
Proof. destruct a as [[] [] []]; done. Qed.
Lemma meet_assoc a b c : meet a (meet b c) = meet (meet a b) c.
Proof. destruct a, b, c. unfold meet. cbn. by rewrite !andb_assoc. Qed.

(** How the processor reads an entry of a table at a depth: as nothing, as the
    address of the next table, or as the base of a page or block. *)
Inductive entry_kind :=
| ENTRY_NOTHING
| ENTRY_TABLE (next : Z) (a : access)
| ENTRY_LEAF (base : Z) (a : access).

(** ** The walk *)

(** The number of address bits below an entry at depth [d], and the address of the
    entry for [va]. *)
Definition leaf_shift (d : Z) : Z := 12 + 9 * (d - 1).
Definition walk_entry (table va d : Z) : Z :=
  table + 8 * Z.land (Z.shiftr va (leaf_shift d)) 0x1FF.

Section walk.
Context (decode : Z → Z → entry_kind).

(** The leaf for [va] below the table at depth [levels]: its base, its depth, and
    the access granted on the way. *)
Fixpoint page_walk (m : gmap Z Z) (levels : nat) (table va : Z) : option (Z * Z * access) :=
  match levels with
  | O => None
  | S below =>
      let d := Z.of_nat levels in
      entry ← m !! walk_entry table va d;
      match decode d entry with
      | ENTRY_NOTHING => None
      | ENTRY_LEAF base a => Some (base, d, a)
      | ENTRY_TABLE next a =>
          leaf ← page_walk m below next va;
          Some (fst leaf, meet a (snd leaf))
      end
  end.

(** The physical address and the access, or [None] for a fault. *)
Definition translate (m : gmap Z Z) (root va : Z) : option (Z * access) :=
  leaf ← page_walk m 4 root va;
  Some (fst (fst leaf) + va mod 2 ^ leaf_shift (snd (fst leaf)), snd leaf).

(** ** Paths through tables *)

(** [n] levels below the table at depth [i] on the way to [va], every entry naming
    a table (none at address 0), is the table [t]; the entries grant [a]. *)
Fixpoint tables_path (m : gmap Z Z) (n : nat) (table va i t : Z) (a : access) : Prop :=
  match n with
  | O => t = table ∧ a = full_access
  | S n' =>
      ∃ entry next b c, m !! walk_entry table va i = Some entry ∧ decode i entry = ENTRY_TABLE next b ∧
        next ≠ 0 ∧ a = meet b c ∧ tables_path m n' next va (i - 1) t c
  end.

(** The entries read on the way. *)
Fixpoint path_entries (m : gmap Z Z) (n : nat) (table va i : Z) : list Z :=
  match n with
  | O => []
  | S n' =>
      let e := walk_entry table va i in
      e :: match m !! e with
           | Some entry =>
               match decode i entry with
               | ENTRY_TABLE next _ => path_entries m n' next va (i - 1)
               | _ => []
               end
           | None => []
           end
  end.

(** A write elsewhere does not touch the path. *)
Lemma tables_path_insert m n table va i t a e w :
  e ∉ path_entries m n table va i →
  tables_path m n table va i t a → tables_path (<[e := w]> m) n table va i t a.
Proof.
  revert table i a. induction n as [|n IH]; intros table i a; [done|]. cbn [path_entries].
  intros Hne (entry & next & b & c & He & Hd & H0 & -> & Hp). rewrite He, Hd in Hne.
  exists entry, next, b, c. rewrite lookup_insert_ne by set_solver.
  split_and!; try done. apply IH; [set_solver|done].
Qed.

(** One more table at the end of a path. *)
Lemma tables_path_snoc m n table va i t a entry next b :
  tables_path m n table va i t a → m !! walk_entry t va (i - Z.of_nat n) = Some entry →
  decode (i - Z.of_nat n) entry = ENTRY_TABLE next b → next ≠ 0 →
  tables_path m (S n) table va i next (meet a b).
Proof.
  revert table i a. induction n as [|n IH]; intros table i a.
  - intros [-> ->] He Hd H0. rewrite Z.sub_0_r in *. exists entry, next, b, full_access.
    by rewrite meet_full, meet_full_r.
  - intros (entry' & next' & b' & c' & He' & Hd' & H0' & -> & Hp) He Hd H0.
    replace (i - Z.of_nat (S n)) with (i - 1 - Z.of_nat n) in * by lia.
    exists entry', next', b', (meet c' b). rewrite meet_assoc. split_and!; try done. by apply IH.
Qed.

(** An entry that is read as nothing at every depth is not on a path. *)
Lemma path_entries_unused m n table va i t a e v :
  tables_path m n table va i t a → m !! e = Some v → (∀ d, decode d v = ENTRY_NOTHING) →
  e ∉ path_entries m n table va i.
Proof.
  intros Hp Hv Hno. revert table i a Hp. induction n as [|n IH]; intros table i a; [set_solver|].
  intros (entry & next & b & c & He & Hd & H0 & -> & Hp). cbn [path_entries]. rewrite He, Hd.
  apply not_elem_of_cons. split; [|by eapply IH].
  intros ->. rewrite Hv in He. injection He as <-. by rewrite Hno in Hd.
Qed.

(** ** The addresses of a leaf *)

(** Two addresses that agree above a leaf at depth [d]. *)
Definition same_leaf (d va va' : Z) : Prop := ∀ i, d ≤ i → walk_entry 0 va' i = walk_entry 0 va i.

Lemma same_leaf_entry d va va' table i :
  same_leaf d va va' → d ≤ i → walk_entry table va' i = walk_entry table va i.
Proof. intros Hs Hi. specialize (Hs i Hi). unfold walk_entry in *. lia. Qed.

Lemma offset_same_leaf d va offset :
  1 ≤ d → (2 ^ leaf_shift d | va) → 0 ≤ offset < 2 ^ leaf_shift d → same_leaf d va (va + offset).
Proof.
  intros Hd [q Hq] Ho i Hi. unfold walk_entry, leaf_shift in *. rewrite !Z.shiftr_div_pow2 by lia.
  do 2 f_equal. f_equal.
  replace (12 + 9 * (i - 1)) with ((12 + 9 * (d - 1)) + 9 * (i - d)) by lia.
  rewrite Z.pow_add_r, <- !Z.div_div by lia. f_equal.
  rewrite Hq, Z.div_add_l, Z_div_mult, (Z.div_small offset) by lia. lia.
Qed.

(** The processor follows the path. *)
Lemma page_walk_path m n j table va va' t a :
  (1 ≤ j)%nat → same_leaf (Z.of_nat j) va va' →
  tables_path m n table va (Z.of_nat (n + j)) t a →
  page_walk m (n + j) table va' =
  leaf ← page_walk m j t va'; Some (fst leaf, meet a (snd leaf)).
Proof.
  intros Hj Hsame. revert table a. induction n as [|n IH]; intros table a Hp.
  - destruct Hp as [-> ->]. cbn [Nat.add]. destruct (page_walk m j table va') as [[l b]|]; [|done].
    cbn. by rewrite meet_full.
  - destruct Hp as (entry & next & b & c & He & Hd & H0 & -> & Hp). cbn [Nat.add page_walk].
    change (S (n + j)) with (S n + j)%nat. rewrite (same_leaf_entry (Z.of_nat j) va va') by (done || lia).
    rewrite He. cbn [mbind option_bind]. rewrite Hd.
    replace (Z.of_nat (S n + j) - 1) with (Z.of_nat (n + j)) in Hp by lia. rewrite (IH _ _ Hp).
    destruct (page_walk m j t va') as [[l x]|]; [|done]. cbn. by rewrite meet_assoc.
Qed.

(** ** A place for a leaf *)

(** The entry for the address [va] at depth [d] of the tree [root] is in the table
    [t], is reached with the access [a], and holds [v]. *)
Record entry_site (m : gmap Z Z) (root va d t : Z) (a : access) (v : Z) : Prop := EntrySite {
  site_depth : 1 ≤ d ≤ 4;
  site_path : tables_path m (Z.to_nat (4 - d)) root va 4 t a;
  site_entry : m !! walk_entry t va d = Some v;
}.

(** What the processor finds once the entry holds [w]. *)
Lemma site_walk m root va d t a v w offset :
  entry_site m root va d t a v → (2 ^ leaf_shift d | va) → 0 ≤ offset < 2 ^ leaf_shift d →
  walk_entry t va d ∉ path_entries m (Z.to_nat (4 - d)) root va 4 →
  page_walk (<[walk_entry t va d := w]> m) 4 root (va + offset) =
  match decode d w with
  | ENTRY_NOTHING => None
  | ENTRY_LEAF base b => Some (base, d, meet a b)
  | ENTRY_TABLE next b =>
      leaf ← page_walk (<[walk_entry t va d := w]> m) (Z.to_nat (d - 1)) next (va + offset);
      Some (fst leaf, meet a (meet b (snd leaf)))
  end.
Proof.
  intros [Hd Hp He] Hva Ho Hfresh. pose proof (offset_same_leaf d va offset ltac:(lia) Hva Ho) as Hs.
  replace 4%nat with (Z.to_nat (4 - d) + Z.to_nat d)%nat by lia.
  rewrite (page_walk_path _ _ _ _ va _ t a); [|lia|by rewrite Z2Nat.id by lia|].
  2: { replace (Z.of_nat (Z.to_nat (4 - d) + Z.to_nat d)) with 4 by lia. by apply tables_path_insert. }
  replace (Z.to_nat d) with (S (Z.to_nat (d - 1))) by lia. cbn [page_walk].
  replace (Z.of_nat (S (Z.to_nat (d - 1)))) with d by lia.
  rewrite (same_leaf_entry d va (va + offset)) by (done || lia). rewrite lookup_insert_eq. cbn [mbind option_bind].
  destruct (decode d w); [done| |done]. by destruct (page_walk _ _ _ _) as [[l x]|].
Qed.
End walk.

(** ** The laws of a memory manager *)

(** What the manager tells the translation buffer of its own core after a change at
    [va]: to forget the page or everything, certainly when the core uses the
    address space, and otherwise perhaps nothing. *)
Definition tlb_told (k : kernel) (root : page_table) (va : Z) (local : list hal_event) : Prop :=
  (local = [] ∧ ∀ core, hal_cores k !! current_core k = Some core → cr3 core ≠ table_address root) ∨
  ∃ page, local = [EV_INVALIDATE_TLB (current_core k) page] ∧ (page = None ∨ page = Some va).

(** The run changed one word of memory and told the translation buffer. *)
Definition word_written (k : kernel) (root : page_table) (va e w : Z) (k' : kernel) : Prop :=
  ∃ local, tlb_told k root va local ∧
    k' = k <| memory_words ::= <[e := w]> |> <| events ::= λ l, l ++ local |>.

(** The access a mapping attribute asks for. *)
Definition requested_access (attribute : Z) : access :=
  MkAccess true (has_attribute attribute MEMORY_WRITE) (has_attribute attribute MEMORY_EXECUTE).

(** A root the manager accepts, at a physical address. *)
Record valid_root `{!memory_manager} (root : page_table) : Prop := ValidRoot {
  root_valid : hal_validate_root_address_space root = Ok tt;
  root_physical : 0 ≤ table_address root < 2 ^ 48;
}.

(** [hal_decode] is how the processor reads an entry, [hal_unused] tells the entries
    the manager takes for free.  The laws say what the operations of the interface
    do at the entry for [va] at depth [d] ([entry_site]) of a valid root. *)
Class memory_manager_laws `{config} (mm : memory_manager) := {
  hal_decode : Z → Z → entry_kind;
  hal_unused : Z → bool;
  hal_table_access : Z → access;

  unused_nothing d v : hal_unused v = true → hal_decode d v = ENTRY_NOTHING;
  zero_unused : hal_unused 0 = true;

  map_frame_law k root f va attribute d t a v :
    is_Some (hal_cores k !! current_core k) → valid_root root →
    entry_site hal_decode (memory_words k) (table_address root) va d t a v → hal_unused v = true →
    d ≤ 3 → frame_size_bits f = leaf_shift d → is_valid_mapping_attribute attribute = true →
    (2 ^ leaf_shift d | va) → 0 ≤ frame_address f < 2 ^ 48 → (2 ^ leaf_shift d | frame_address f) →
    wp (hal_map_frame root f va attribute)
       (λ r k', r = Ok tt ∧ ∃ w, word_written k root va (walk_entry t va d) w k' ∧
          hal_decode d w = ENTRY_LEAF (frame_address f) (requested_access attribute)) k;

  map_frame_used_law k root f va attribute d t a v :
    hal_validate_root_address_space root = Ok tt →
    entry_site hal_decode (memory_words k) (table_address root) va d t a v → hal_unused v = false →
    d ≤ 3 → frame_size_bits f = leaf_shift d → is_valid_mapping_attribute attribute = true →
    (2 ^ leaf_shift d | va) → (2 ^ leaf_shift d | frame_address f) →
    answers (hal_map_frame root f va attribute) k (Err MM_ALREADY_MAPPED);

  unmap_frame_law k root f va d t a v :
    is_Some (hal_cores k !! current_core k) → valid_root root →
    entry_site hal_decode (memory_words k) (table_address root) va d t a v → hal_unused v = false →
    d ≤ 3 → frame_size_bits f = leaf_shift d →
    wp (hal_unmap_frame root f va)
       (λ r k', r = Ok tt ∧ word_written k root va (walk_entry t va d) 0 k') k;

  map_page_table_law k root table va attribute d t a v :
    is_Some (hal_cores k !! current_core k) → valid_root root →
    entry_site hal_decode (memory_words k) (table_address root) va d t a v → hal_unused v = true →
    get_depth table = d - 1 → 2 ≤ d → 0 < table_address table < 2 ^ 48 → (2 ^ 12 | table_address table) →
    wp (hal_map_page_table root table va attribute)
       (λ r k', r = Ok tt ∧ ∃ w, word_written k root va (walk_entry t va d) w k' ∧
          hal_decode d w = ENTRY_TABLE (table_address table) (hal_table_access attribute)) k;

  search_unset_law k root va d i t a v :
    hal_validate_root_address_space root = Ok tt →
    entry_site hal_decode (memory_words k) (table_address root) va i t a v → hal_unused v = true →
    1 ≤ d ≤ 3 → d < i →
    answers (hal_search_unset_page_table_depth root va (leaf_shift d)) k (Ok (i - 1));

  search_set_law k root va d t a :
    hal_validate_root_address_space root = Ok tt → 1 ≤ d ≤ 3 →
    tables_path hal_decode (memory_words k) (Z.to_nat (4 - d)) (table_address root) va 4 t a →
    answers (hal_search_unset_page_table_depth root va (leaf_shift d)) k (Ok 0);
}.

(** ** What follows for every memory manager *)

Lemma leaf_shift_page d : 1 ≤ d → (2 ^ 12 | 2 ^ leaf_shift d).
Proof. intros Hd. exists (2 ^ (9 * (d - 1))). unfold leaf_shift. rewrite Z.pow_add_r by lia. lia. Qed.

Lemma aligned_offset_mod d va offset :
  (2 ^ leaf_shift d | va) → 0 ≤ offset < 2 ^ leaf_shift d → (va + offset) mod 2 ^ leaf_shift d = offset.
Proof. intros [q ->] Ho. by rewrite (Z.add_comm (q * _)), Z_mod_plus_full, Z.mod_small. Qed.

Lemma aligned_land x n : 0 ≤ n < 64 → (2 ^ n | x) → Z.land x (wsub (2 ^ n) 1) = 0.
Proof.
  intros Hn Hd. pose proof (Z.pow_pos_nonneg 2 n ltac:(lia) ltac:(lia)).
  pose proof (Z.pow_lt_mono_r 2 n 64 ltac:(lia) ltac:(lia) ltac:(lia)).
  unfold wsub, wrap. rewrite Z.mod_small by lia.
  replace (2 ^ n - 1) with (Z.ones n) by (rewrite Z.ones_equiv; lia).
  rewrite Z.land_ones by lia. by apply Z.mod_divide; [lia|].
Qed.

Section client.
Context `{config} {mm : memory_manager} {laws : memory_manager_laws mm}.
Context (k : kernel) (root : page_table) (f : frame) (va d t : Z) (a : access) (v : Z).
Hypothesis (Hcore : is_Some (hal_cores k !! current_core k)).
Hypothesis (Hroot : valid_root root).
Hypothesis (Hsite : entry_site hal_decode (memory_words k) (table_address root) va d t a v).
Hypothesis (Hd : d ≤ 3) (Hbits : frame_size_bits f = leaf_shift d) (Hva : (2 ^ leaf_shift d | va)).

Lemma site_fresh :
  hal_unused v = true →
  walk_entry t va d ∉ path_entries hal_decode (memory_words k) (Z.to_nat (4 - d)) (table_address root) va 4.
Proof.
  intros Hv. destruct Hsite as [_ Hp He]. eapply path_entries_unused; [done..|].
  intros d'. by apply unused_nothing.
Qed.

(** A mapped frame is what the processor translates to. *)
Lemma map_frame_run attribute :
  hal_unused v = true → is_valid_mapping_attribute attribute = true →
  0 ≤ frame_address f < 2 ^ 48 → (2 ^ leaf_shift d | frame_address f) →
  wp (hal_map_frame root f va attribute)
     (λ r k', r = Ok tt ∧ (∃ w, word_written k root va (walk_entry t va d) w k') ∧
        (∀ offset, 0 ≤ offset < 2 ^ leaf_shift d →
           translate hal_decode (memory_words k') (table_address root) (va + offset) =
           Some (frame_address f + offset, meet a (requested_access attribute)))) k.
Proof.
  intros Hv Hattr Hf Hfa. eapply wp_mono; [|by eapply map_frame_law].
  intros r k' (-> & w & Hw & Hdec). split; [done|]. split; [by exists w|].
  destruct Hw as (local & _ & ->). intros offset Ho. ksimpl_goal. unfold translate.
  rewrite (site_walk _ _ _ va d t a v) by (done || by apply site_fresh). rewrite Hdec.
  cbn [mbind option_bind fst snd]. by rewrite aligned_offset_mod.
Qed.

(** An unmapped one is gone. *)
Lemma unmap_frame_run :
  hal_unused v = false →
  walk_entry t va d ∉ path_entries hal_decode (memory_words k) (Z.to_nat (4 - d)) (table_address root) va 4 →
  wp (hal_unmap_frame root f va)
     (λ r k', r = Ok tt ∧ word_written k root va (walk_entry t va d) 0 k' ∧
        (∀ offset, 0 ≤ offset < 2 ^ leaf_shift d →
           translate hal_decode (memory_words k') (table_address root) (va + offset) = None)) k.
Proof.
  intros Hv Hne. eapply wp_mono; [|by eapply unmap_frame_law].
  intros r k' (-> & Hw). split; [done|]. split; [done|]. destruct Hw as (local & _ & ->).
  intros offset Ho. ksimpl_goal. unfold translate.
  rewrite (site_walk _ _ _ va d t a v) by done. by rewrite unused_nothing by apply zero_unused.
Qed.
End client.
