(* ===== verification/Memory.v ===== *)
(** Page tables and address spaces of x86-64: src/src/hal/x86_64/memory/memory_manager.cpp,
    src/src/hal/x86_64/include/hal/x86_64/memory/{paging,memory_types}.hpp, and the
    slot layouts of page_table_capability.hpp, frame_capability.hpp and
    address_space.hpp.

    Physical memory is the map [memory_words] from the physical address of a word
    to its value; the kernel reaches it at [address | KERNEL_VIRTUAL_BASE], which
    the model leaves out.  A page-table entry is the 64-bit word [page::all]. *)

From S2P Require Import Prelude Word Types Dll Kernel Slot Hal.
From S2P Require Export MemoryTypes.

(** ** x86_64::page *)

Definition PAGE_TABLE_COUNT : Z := 512.
Definition DEPTH_PML4 : Z := 4.
Definition DEPTH_PDPT : Z := 3.
Definition DEPTH_PD : Z := 2.
Definition DEPTH_PT : Z := 1.
Definition DEPTH_OFFSET : Z := 0.

Definition page_present (all : Z) : bool := Z.testbit all 0.
Definition page_rw (all : Z) : bool := Z.testbit all 1.
Definition page_user (all : Z) : bool := Z.testbit all 2.
Definition page_page_size (all : Z) : bool := Z.testbit all 7.
Definition page_execute_disable (all : Z) : bool := Z.testbit all 63.
(** The 40-bit field [address], at bit 12. *)
Definition get_physical_address (all : Z) : Z :=
  Z.shiftl (Z.land (Z.shiftr all 12) (Z.ones 40)) 12.

(** An entry built field by field from 0. *)
Definition make_page (address : Z) (rw page_size execute_disable : bool) (cache : Z) : Z :=
  Z.lor (Z.lor (Z.shiftl (Z.land (Z.shiftr address 12) (Z.ones 40)) 12)
               (Z.lor 1 (Z.lor (Z.shiftl (Z.b2z rw) 1) (Z.shiftl 1 2))))
        (Z.lor (Z.lor (Z.shiftl (Z.b2z page_size) 7) (Z.shiftl (Z.b2z execute_disable) 63)) cache).

Definition calculate_page_table_index (target_virtual_address table_depth : Z) : Z :=
  let shift := if 0 <? table_depth then 12 + 9 * (table_depth - 1) else 12 in
  Z.land (Z.shiftr target_virtual_address shift) 0x1FF.

Definition convert_leaf_size_bits_to_internal_depth (leaf_size_bits : Z) : result Z hal_error :=
  match leaf_size_bits with
  | 12 => Ok DEPTH_PT
  | 21 => Ok DEPTH_PD
  | 30 => Ok DEPTH_PDPT
  | _ => Err HE_ILLEGAL_ARGUMENT
  end.

Definition PAGE_CACHE_MASK : Z := Z.lor (Z.shiftl 1 3) (Z.shiftl 1 4).
Definition mapping_cache_flags (attribute : Z) : Z :=
  match get_mapping_flag attribute with
  | Some MAPPING_BUFFERED => Z.shiftl 1 3
  | Some MAPPING_UNCACHED => PAGE_CACHE_MASK
  | _ => 0
  end.

Section memory_manager.
Context `{config}.

(** ** memory_manager.cpp *)

Definition validate_root_address_space (target_root : page_table) : memory_map_result :=
  if negb (get_depth target_root =? DEPTH_PML4) then Err MM_ILLEGAL_DEPTH
  else if table_address target_root =? 0 then Err MM_INVALID_PAGE_TABLE
  else Ok tt.

(** [invalidate_local_tlb<FLUSH_ADDRESS_SPACE>]. *)
Definition invalidate_local_tlb (FLUSH_ADDRESS_SPACE : bool) (target_address_space : page_table)
    (target_address : Z) : M unit :=
  core ← this_core;
  if negb (cr3 core =? table_address target_address_space) then mret tt
  else
    c ← reads current_core;
    emit (EV_INVALIDATE_TLB c (if FLUSH_ADDRESS_SPACE then None else Some target_address)).

(** [&table[calculate_page_table_index(address, depth)]], a physical address. *)
Definition entry_address (table target_address depth : Z) : Z :=
  table + 8 * calculate_page_table_index target_address depth.

(** [for (i = PML4; i > depth; i--)]: [turns] levels below the table at depth
    [i]; the result is the table at the target depth. *)
Fixpoint traverse_tables (turns : nat) (table target_address i : Z) : M (result Z memory_map_error) :=
  match turns with
  | O => mret (Ok table)
  | S turns' =>
      entry ← load memory_words (entry_address table target_address i);
      if negb (page_present entry) then fail MM_NO_SUCH_PAGE_TABLE
      else if get_physical_address entry =? 0 then fail MM_NO_SUCH_PAGE_TABLE
      else traverse_tables turns' (get_physical_address entry) target_address (i - 1)
  end.

(** The address of the entry for [target_address] at [depth]. *)
Definition traverse_page_table_entry (target_root : page_table) (target_address depth : Z)
    : M (result Z memory_map_error) :=
  let? _ := mret (validate_root_address_space target_root) in
  if (DEPTH_PML4 <? depth) || (depth <? DEPTH_PT) then fail MM_ILLEGAL_DEPTH
  else if table_address target_root =? 0 then fail MM_INVALID_PAGE_TABLE
  else
    let? table := traverse_tables (Z.to_nat (DEPTH_PML4 - depth)) (table_address target_root)
                    target_address DEPTH_PML4 in
    mret (Ok (entry_address table target_address depth)).

Definition map_page_table (target_root target_table : page_table) (target_address rights : Z)
    : M memory_map_result :=
  let? _ := mret (validate_root_address_space target_root) in
  if table_address target_table =? 0 then fail MM_INVALID_PAGE_TABLE
  else if get_depth target_table <=? DEPTH_OFFSET then fail MM_ILLEGAL_DEPTH
  else if get_depth target_root + 1 <=? get_depth target_table then fail MM_ILLEGAL_DEPTH
  else
    let parent_depth := get_depth target_table + 1 in
    let? entry := traverse_page_table_entry target_root target_address parent_depth in
    value ← load memory_words entry;
    if page_present value then fail MM_ALREADY_MAPPED
    else
      let is_writable := has_attribute rights MEMORY_WRITE in
      let is_executable := has_attribute rights MEMORY_EXECUTE in
      modify memory_words entry
        (λ _, make_page (table_address target_table) is_writable false (negb is_executable) 0);;
      invalidate_local_tlb true target_root target_address;;
      ok.

Definition unmap_page_table (target_root target_table : page_table) (target_address : Z)
    : M memory_map_result :=
  if table_address target_table =? 0 then fail MM_INVALID_PAGE_TABLE
  else
    let? entry := traverse_page_table_entry target_root target_address (get_depth target_table + 1) in
    value ← load memory_words entry;
    if negb (page_present value) then ok
    else
      modify memory_words entry (λ _, 0);;
      invalidate_local_tlb true target_root target_address;;
      ok.

(** [convert_leaf_size_bits_to_internal_depth(...).transform_error(...)]. *)
Definition leaf_depth (size_bits : Z) : result Z memory_map_error :=
  transform_error (λ _, MM_ILLEGAL_DEPTH) (convert_leaf_size_bits_to_internal_depth size_bits).

Definition map_frame (target_root : page_table) (target_frame : frame) (target_address rights : Z)
    : M memory_map_result :=
  let? target_leaf_depth := mret (leaf_depth (frame_size_bits target_frame)) in
  if negb (is_valid_mapping_attribute rights) then fail MM_INVALID_FRAME
  else
    let? entry := traverse_page_table_entry target_root target_address target_leaf_depth in
    value ← load memory_words entry;
    if page_present value then fail MM_ALREADY_MAPPED
    else
      frame_size ← defined (shl 1 (frame_size_bits target_frame));
      let frame_mask := wsub frame_size 1 in
      if negb (Z.land (frame_address target_frame) frame_mask =? 0)
         || negb (Z.land target_address frame_mask =? 0)
      then fail MM_ILLEGAL_DEPTH
      else
        let is_writable := has_attribute rights MEMORY_WRITE in
        let is_executable := has_attribute rights MEMORY_EXECUTE in
        modify memory_words entry
          (λ _, make_page (frame_address target_frame) is_writable
                  (negb (target_leaf_depth =? DEPTH_PT)) (negb is_executable)
                  (mapping_cache_flags rights));;
        invalidate_local_tlb false target_root target_address;;
        ok.

Definition unmap_frame (target_root : page_table) (target_frame : frame) (target_address : Z)
    : M memory_map_result :=
  let? target_leaf_depth := mret (leaf_depth (frame_size_bits target_frame)) in
  let? entry := traverse_page_table_entry target_root target_address target_leaf_depth in
  value ← load memory_words entry;
  if negb (page_present value) then ok
  else
    modify memory_words entry (λ _, 0);;
    invalidate_local_tlb false target_root target_address;;
    ok.

(** [for (current_depth = PML4; current_depth > target_leaf_depth; ...)]. *)
Fixpoint search_unset_loop (turns : nat) (table target_address current_depth : Z)
    : M (result Z memory_map_error) :=
  match turns with
  | O => mret (Ok 0)
  | S turns' =>
      entry ← load memory_words (entry_address table target_address current_depth);
      if negb (page_present entry) then mret (Ok (current_depth - 1))
      else if page_page_size entry then fail MM_ALREADY_MAPPED
      else if get_physical_address entry =? 0 then fail MM_NO_SUCH_PAGE_TABLE
      else search_unset_loop turns' (get_physical_address entry) target_address (current_depth - 1)
  end.

Definition search_unset_page_table_depth (target_root : page_table) (target_address leaf_size_bits : Z)
    : M (result Z memory_map_error) :=
  let? _ := mret (validate_root_address_space target_root) in
  let? target_leaf_depth := mret (leaf_depth leaf_size_bits) in
  search_unset_loop (Z.to_nat (DEPTH_PML4 - target_leaf_depth)) (table_address target_root)
    target_address DEPTH_PML4.

Definition search_page_table_cover_size_by_depth (depth : Z) : result Z memory_map_error :=
  match depth with
  | 4 => Ok (512 * 512 * 512 * PAGE_SIZE)
  | 3 => Ok (512 * 512 * PAGE_SIZE)
  | 2 => Ok (512 * PAGE_SIZE)
  | 1 => Ok PAGE_SIZE
  | _ => Err MM_ILLEGAL_DEPTH
  end.

Definition validate_frame_size_bits (size_bits : Z) : memory_map_result :=
  match size_bits with
  | 12 => Ok tt
  | 21 => if SUPPORT_2MiB_PAGE then Ok tt else Err MM_ILLEGAL_DEPTH
  | 30 => if SUPPORT_1GiB_PAGE then Ok tt else Err MM_ILLEGAL_DEPTH
  | _ => Err MM_ILLEGAL_DEPTH
  end.

Definition make_address_space (root_address : Z) : M (result page_table hal_error) :=
  if root_address =? 0 then fail HE_ILLEGAL_ARGUMENT
  else if (physical_to_virtual_address root_address =? 0)
          || (physical_to_virtual_address kernel_pml4 =? 0)
  then fail HE_ILLEGAL_ARGUMENT
  else
    copy_words (Z.to_nat PAGE_TABLE_COUNT) root_address kernel_pml4;;
    write_address_space_owners root_address 0;;
    mret (Ok (make_page_table root_address DEPTH_PML4)).

(** ** Slots *)

(** Only the first two words of the local array are written. *)
Definition convert_page_table_to_slot_data (table : page_table) : capability_slot_data :=
  SlotData (table_address table) (table_flags table) indeterminate.
Definition convert_slot_data_to_page_table (d : capability_slot_data) : page_table :=
  make_page_table (data_0 d) (data_1 d).
Definition convert_frame_to_slot_data (f : frame) : capability_slot_data :=
  SlotData (frame_address f) (frame_flags f) (frame_size_bits f).
Definition convert_slot_data_to_frame (d : capability_slot_data) : frame :=
  MkFrame (data_0 d) (data_2 d) (data_1 d).

Definition try_configure_page_table_slot (slot : slot_ref) (table : page_table) : M kernel_result :=
  if table_address table =? 0 then fail KE_ILLEGAL_ARGUMENT
  else
    clear_words (Z.to_nat PAGE_TABLE_COUNT) (table_address table);;
    modify slots slot
      (λ _, initial_slot <| rights := RIGHTS_ALL |> <| component := Some C_PAGE_TABLE |>
              <| type := CT_PAGE_TABLE |> <| data := convert_page_table_to_slot_data table |>);;
    ok.

Definition try_configure_frame_slot (slot : slot_ref) (f : frame) : M kernel_result :=
  modify slots slot
    (λ _, initial_slot <| component := Some C_FRAME |> <| type := CT_FRAME |>
            <| rights := RIGHTS_ALL |> <| data := convert_frame_to_slot_data f |>);;
  ok.

(** The slot is not initialised first: its place in a chain stays. *)
Definition try_configure_address_space_slot (slot : slot_ref) (table : page_table)
    : M kernel_result :=
  let? _ := mret (transform_error (λ _, KE_NO_SUCH_ADDRESS) (validate_root_address_space table)) in
  if table_address table =? 0 then fail KE_ILLEGAL_ARGUMENT
  else
    modify slots slot
      (λ v, v <| rights := RIGHTS_ALL |> <| component := Some C_ADDRESS_SPACE |>
              <| type := CT_ADDRESS_SPACE |> <| data := convert_page_table_to_slot_data table |>);;
    ok.

(** The implementation of the interface. *)
#[global] Instance x86_64_memory_manager : memory_manager := {|
  hal_validate_root_address_space := validate_root_address_space;
  hal_map_page_table := map_page_table;
  hal_unmap_page_table := unmap_page_table;
  hal_map_frame := map_frame;
  hal_unmap_frame := unmap_frame;
  hal_search_unset_page_table_depth := search_unset_page_table_depth;
  hal_validate_frame_size_bits := validate_frame_size_bits;
  hal_is_valid_user_address := is_valid_user_address;
|}.

End memory_manager.
