(* ===== verification/MemoryProofs.v ===== *)
(** Correctness of the page tables (Memory.v) against the page walk of the
    hardware. *)

From S2P Require Import Prelude Word Types Dll Kernel Slot Hal Memory PageWalk.

(** ** Entries as the processor reads them *)

(** An entry with the page-size bit is a leaf at depths 2 and 3; at depth 4 the bit
    is reserved. *)
Definition x86_64_decode (d entry : Z) : entry_kind :=
  let a := MkAccess (page_user entry) (page_rw entry) (negb (page_execute_disable entry)) in
  if negb (page_present entry) then ENTRY_NOTHING
  else if d =? 1 then ENTRY_LEAF (get_physical_address entry) a
  else if page_page_size entry
       then if d <=? 3 then ENTRY_LEAF (get_physical_address entry) a else ENTRY_NOTHING
       else ENTRY_TABLE (get_physical_address entry) a.
Abbreviation x86_64_path := (tables_path x86_64_decode).
Abbreviation x86_64_site := (entry_site x86_64_decode).

(** ** Entries *)

Section entry.
Context (a : Z) (rw ps xd : bool) (cache : Z).
Hypothesis (Hcache : cache = 0 ∨ cache = 8 ∨ cache = 24).

Lemma testbit_b2z_shift b n i :
  0 ≤ n → 0 ≤ i → Z.testbit (Z.shiftl (Z.b2z b) n) i = b && (i =? n).
Proof.
  intros Hn Hi. destruct (Z.lt_ge_cases i n).
  - rewrite Z.shiftl_spec_low by lia. rewrite (proj2 (Z.eqb_neq i n)) by lia. by rewrite andb_false_r.
  - rewrite Z.shiftl_spec_high by lia. destruct (Z.eqb_spec i n) as [->|].
    + rewrite Z.sub_diag, Z.b2z_bit0. by rewrite andb_true_r.
    + rewrite andb_false_r. destruct b; [|apply Z.testbit_0_l].
      apply (Z.bits_above_log2 1); [lia|cbn; lia].
Qed.

Lemma cache_high i : 5 ≤ i → Z.testbit cache i = false.
Proof.
  intros Hi. destruct Hcache as [->|[->| ->]]; [apply Z.testbit_0_l|..];
    apply Z.bits_above_log2; cbn; lia.
Qed.

Lemma testbit_make_page i :
  0 ≤ i → i ∉ [3; 4] →
  Z.testbit (make_page a rw ps xd cache) i =
  (12 <=? i) && (i <? 52) && Z.testbit a i || (i =? 0) || rw && (i =? 1) || (i =? 2)
  || ps && (i =? 7) || xd && (i =? 63).
Proof.
  intros Hi Hn. unfold make_page.
  change 1 with (Z.shiftl (Z.b2z true) 0) at 1. change (Z.shiftl 1 2) with (Z.shiftl (Z.b2z true) 2).
  rewrite !Z.lor_spec, !testbit_b2z_shift by lia. cbn [andb].
  assert (Z.testbit cache i = false) as ->.
  { destruct (decide (5 ≤ i)); [by apply cache_high|].
    assert (i = 0 ∨ i = 1 ∨ i = 2 ∨ i = 3 ∨ i = 4) as [->|[->|[->|[->| ->]]]] by lia;
      try (exfalso; apply Hn; set_solver); by destruct Hcache as [->|[->| ->]]. }
  assert (Z.testbit (Z.shiftl (Z.land (Z.shiftr a 12) (Z.ones 40)) 12) i
          = (12 <=? i) && (i <? 52) && Z.testbit a i) as ->.
  { destruct (Z.leb_spec 12 i); [|by rewrite Z.shiftl_spec_low by lia].
    rewrite Z.shiftl_spec_high, Z.land_spec, Z.shiftr_spec, Z.testbit_ones_nonneg by lia.
    replace (i - 12 + 12) with i by lia. replace (i - 12 <? 40) with (i <? 52); [apply andb_comm|].
    destruct (Z.ltb_spec i 52), (Z.ltb_spec (i - 12) 40); lia. }
  rewrite orb_false_r, !orb_assoc. done.
Qed.

Lemma make_page_fields :
  page_present (make_page a rw ps xd cache) = true ∧ page_rw (make_page a rw ps xd cache) = rw ∧
  page_user (make_page a rw ps xd cache) = true ∧ page_page_size (make_page a rw ps xd cache) = ps ∧
  page_execute_disable (make_page a rw ps xd cache) = xd.
Proof.
  unfold page_present, page_rw, page_user, page_page_size, page_execute_disable.
  rewrite !testbit_make_page by (lia || set_solver). cbn. by destruct rw, ps, xd.
Qed.

Lemma make_page_address :
  0 ≤ a < 2 ^ 52 → (2 ^ 12 | a) → get_physical_address (make_page a rw ps xd cache) = a.
Proof.
  intros Ha [q Hq]. apply Z.bits_inj'. intros i Hi. unfold get_physical_address.
  destruct (Z.lt_ge_cases i 12).
  - rewrite Z.shiftl_spec_low by lia. rewrite Hq. symmetry. by apply Z.mul_pow2_bits_low.
  - rewrite Z.shiftl_spec_high, Z.land_spec, Z.shiftr_spec, Z.testbit_ones_nonneg by lia.
    replace (i - 12 + 12) with i by lia. rewrite testbit_make_page by (lia || set_solver).
    destruct (Z.ltb_spec (i - 12) 40) as [Hlt|Hge].
    + rewrite (proj2 (Z.leb_le 12 i)), (proj2 (Z.ltb_lt i 52)) by lia.
      rewrite !(proj2 (Z.eqb_neq i _)) by lia. cbn. rewrite !andb_false_r, !orb_false_r.
      by rewrite andb_true_r.
    + rewrite andb_false_r. symmetry.
      destruct (decide (a = 0)) as [->|]; [apply Z.testbit_0_l|].
      apply Z.bits_above_log2; [lia|]. apply (Z.lt_le_trans _ 52); [apply Z.log2_lt_pow2; lia|lia].
Qed.
End entry.

(** ** The walk of the manager *)

Lemma entry_address_walk table va d : 1 ≤ d → entry_address table va d = walk_entry table va d.
Proof.
  intros Hd. unfold entry_address, walk_entry, calculate_page_table_index, leaf_shift.
  by rewrite (proj2 (Z.ltb_lt 0 d)) by lia.
Qed.

Lemma decode_table d entry next a :
  x86_64_decode d entry = ENTRY_TABLE next a →
  page_present entry = true ∧ page_page_size entry = false ∧ get_physical_address entry = next.
Proof. unfold x86_64_decode. repeat case_match; intros; simplify_eq; bool_to_prop; done. Qed.

Lemma traverse_tables_spec k n table va i t a Q :
  Z.of_nat n < i → x86_64_path (memory_words k) n table va i t a → Q (Ok t) k →
  wp (traverse_tables n table va i) Q k.
Proof.
  revert table i a. induction n as [|n IH]; intros table i a Hi Hp HQ; cbn [traverse_tables].
  { apply wp_ret. destruct Hp as [-> _]. done. }
  destruct Hp as (entry & next & b & c & He & Hd & Hn & _ & Hp).
  apply decode_table in Hd as (Hpr & _ & Ha). wp_step. rewrite entry_address_walk by lia.
  eapply wp_load; [exact He|]. rewrite Hpr, Ha, (proj2 (Z.eqb_neq _ _)) by done.
  eapply IH; [|exact Hp|exact HQ]. lia.
Qed.

(** ** Leaf depths *)

Lemma leaf_depth_shift d : 1 ≤ d ≤ 3 → leaf_depth (leaf_shift d) = Ok d.
Proof. intros Hd. assert (d = 1 ∨ d = 2 ∨ d = 3) as [->|[->| ->]] by lia; done. Qed.

Section operations.
Context `{config} (k : kernel).

Lemma invalidate_local_tlb_spec e w all root va Q :
  is_Some (hal_cores k !! current_core k) → (∀ k', word_written k root va e w k' → Q tt k') →
  wp (invalidate_local_tlb all root va) Q (k <| memory_words ::= <[e := w]> |>).
Proof.
  intros [c Hcore] HQ. unfold invalidate_local_tlb, this_core. wp_steps.
  destruct (Z.eqb_spec (cr3 c) (table_address root)) as [Heq|Hne]; cbn [negb]; wp_steps.
  - unfold emit. wp_steps. apply HQ. exists [EV_INVALIDATE_TLB (current_core k) (if all then None else Some va)].
    split; [right; eexists; split; [done|]; destruct all; tauto|done].
  - apply HQ. exists []. split; [left; split; [done|]; congruence|].
    destruct k. unfold upd. cbn. by rewrite app_nil_r.
Qed.

Lemma traverse_page_table_entry_spec root va d t a v Q :
  validate_root_address_space root = Ok tt →
  x86_64_site (memory_words k) (table_address root) va d t a v →
  Q (Ok (walk_entry t va d)) k → wp (traverse_page_table_entry root va d) Q k.
Proof.
  intros Hroot [Hd Hp _] HQ. unfold traverse_page_table_entry. rewrite Hroot. wp_steps.
  unfold DEPTH_PML4, DEPTH_PT in *.
  rewrite (proj2 (Z.ltb_ge 4 d)), (proj2 (Z.ltb_ge d 1)) by lia. cbn [orb].
  unfold validate_root_address_space in Hroot. do 2 (case_match; [done|]).
  wp_step. eapply traverse_tables_spec; [|exact Hp|]; [lia|]. rewrite entry_address_walk by lia. by wp_steps.
Qed.

Lemma search_unset_loop_unset n j table va i t a v Q :
  Z.of_nat n < i → x86_64_path (memory_words k) n table va i t a → (n < j)%nat →
  memory_words k !! walk_entry t va (i - Z.of_nat n) = Some v → page_present v = false →
  Q (Ok (i - Z.of_nat n - 1)) k → wp (search_unset_loop j table va i) Q k.
Proof.
  revert j table i a. induction n as [|n IH]; intros [|j] table i a Hi Hp Hj Hv Hno HQ; try lia;
    cbn [search_unset_loop]; wp_step; rewrite entry_address_walk by lia.
  - destruct Hp as [-> _]. rewrite Z.sub_0_r in *. eapply wp_load; [exact Hv|]. rewrite Hno. by wp_steps.
  - destruct Hp as (entry & next & b & c & He & Hd & Hn & _ & Hp).
    apply decode_table in Hd as (Hpr & Hps & Ha). eapply wp_load; [exact He|].
    rewrite Hpr, Hps, Ha, (proj2 (Z.eqb_neq _ _)) by done. cbn [negb].
    replace (i - Z.of_nat (S n)) with (i - 1 - Z.of_nat n) in * by lia.
    eapply (IH j); [|exact Hp|lia|exact Hv|done|done]. lia.
Qed.

Lemma search_unset_loop_set n table va i t a Q :
  Z.of_nat n < i → x86_64_path (memory_words k) n table va i t a → Q (Ok 0) k →
  wp (search_unset_loop n table va i) Q k.
Proof.
  revert table i a. induction n as [|n IH]; intros table i a Hi Hp HQ; cbn [search_unset_loop]; [by wp_steps|].
  destruct Hp as (entry & next & b & c & He & Hd & Hn & _ & Hp).
  apply decode_table in Hd as (Hpr & Hps & Ha). wp_step. rewrite entry_address_walk by lia.
  eapply wp_load; [exact He|]. rewrite Hpr, Hps, Ha, (proj2 (Z.eqb_neq _ _)) by done. cbn [negb].
  eapply IH; [|exact Hp|done]. lia.
Qed.
End operations.

(** ** The laws *)

Lemma mapping_cache_flags_values rights :
  mapping_cache_flags rights = 0 ∨ mapping_cache_flags rights = 8 ∨ mapping_cache_flags rights = 24.
Proof. unfold mapping_cache_flags. repeat case_match; vm_compute; tauto. Qed.

Lemma decode_make_page_leaf d address rw xd cache :
  cache = 0 ∨ cache = 8 ∨ cache = 24 → 1 ≤ d ≤ 3 → 0 ≤ address < 2 ^ 52 → (2 ^ 12 | address) →
  x86_64_decode d (make_page address rw (negb (d =? 1)) xd cache) =
  ENTRY_LEAF address (MkAccess true rw (negb xd)).
Proof.
  intros Hc Hd Ha Hal. unfold x86_64_decode.
  destruct (make_page_fields address rw (negb (d =? 1)) xd cache Hc) as (-> & -> & -> & -> & ->).
  rewrite make_page_address, (proj2 (Z.leb_le d 3)) by (done || lia). by destruct (d =? 1).
Qed.

Lemma decode_make_page_table d address rw xd :
  2 ≤ d → 0 ≤ address < 2 ^ 52 → (2 ^ 12 | address) →
  x86_64_decode d (make_page address rw false xd 0) = ENTRY_TABLE address (MkAccess true rw (negb xd)).
Proof.
  intros Hd Ha Hal. unfold x86_64_decode.
  destruct (make_page_fields address rw false xd 0 ltac:(tauto)) as (-> & -> & -> & -> & ->).
  by rewrite make_page_address, (proj2 (Z.eqb_neq d 1)) by (done || lia).
Qed.

Section laws.
Context `{config} (k : kernel) (root : page_table) (f : frame) (va d t : Z) (a : access) (v : Z).
Hypothesis (Hroot : validate_root_address_space root = Ok tt).
Hypothesis (Hsite : x86_64_site (memory_words k) (table_address root) va d t a v).

Lemma x86_64_map_frame rights Q :
  is_Some (hal_cores k !! current_core k) → page_present v = false →
  d ≤ 3 → frame_size_bits f = leaf_shift d → is_valid_mapping_attribute rights = true →
  (2 ^ leaf_shift d | va) → (2 ^ leaf_shift d | frame_address f) →
  (∀ k', word_written k root va (walk_entry t va d)
           (make_page (frame_address f) (has_attribute rights MEMORY_WRITE) (negb (d =? 1))
              (negb (has_attribute rights MEMORY_EXECUTE)) (mapping_cache_flags rights)) k' → Q (Ok tt) k') →
  wp (map_frame root f va rights) Q k.
Proof.
  intros Hcore Hv Hd Hb Hr Hva Hf HQ. pose proof Hsite as [Hd' _ He]. unfold map_frame.
  rewrite Hb, leaf_depth_shift by lia. wp_steps. rewrite Hr. cbn [negb].
  wp_step. eapply traverse_page_table_entry_spec; [exact Hroot|exact Hsite|].
  wp_steps. rewrite Hv. wp_step.
  assert (0 ≤ leaf_shift d < 64) by (unfold leaf_shift; lia).
  eapply wp_defined; [by apply shl_1|]. rewrite !aligned_land by done. cbn [Z.eqb negb orb].
  wp_steps. eapply (invalidate_local_tlb_spec k); [done|]. intros k' Hw. wp_steps. by apply HQ.
Qed.

Lemma x86_64_map_frame_used rights Q :
  page_present v = true → d ≤ 3 → frame_size_bits f = leaf_shift d →
  is_valid_mapping_attribute rights = true → Q (Err MM_ALREADY_MAPPED) k →
  wp (map_frame root f va rights) Q k.
Proof.
  intros Hv Hd Hb Hr HQ. pose proof Hsite as [Hd' _ He]. unfold map_frame.
  rewrite Hb, leaf_depth_shift by lia. wp_steps. rewrite Hr. cbn [negb].
  wp_step. eapply traverse_page_table_entry_spec; [exact Hroot|exact Hsite|].
  wp_steps. rewrite Hv. by wp_steps.
Qed.

Lemma x86_64_unmap_frame Q :
  is_Some (hal_cores k !! current_core k) → page_present v = true → d ≤ 3 →
  frame_size_bits f = leaf_shift d → (∀ k', word_written k root va (walk_entry t va d) 0 k' → Q (Ok tt) k') →
  wp (unmap_frame root f va) Q k.
Proof.
  intros Hcore Hv Hd Hb HQ. pose proof Hsite as [Hd' _ He]. unfold unmap_frame.
  rewrite Hb, leaf_depth_shift by lia. wp_steps.
  eapply traverse_page_table_entry_spec; [exact Hroot|exact Hsite|].
  wp_steps. rewrite Hv. cbn [negb]. wp_steps.
  eapply (invalidate_local_tlb_spec k); [done|]. intros k' Hw. wp_steps. by apply HQ.
Qed.

Lemma x86_64_map_page_table table rights Q :
  is_Some (hal_cores k !! current_core k) → page_present v = false →
  get_depth table = d - 1 → 2 ≤ d → 0 < table_address table →
  (∀ k', word_written k root va (walk_entry t va d)
           (make_page (table_address table) (has_attribute rights MEMORY_WRITE) false
              (negb (has_attribute rights MEMORY_EXECUTE)) 0) k' → Q (Ok tt) k') →
  wp (map_page_table root table va rights) Q k.
Proof.
  intros Hcore Hv Hdepth Hd Ht HQ. pose proof Hsite as [Hd' _ He]. unfold map_page_table.
  rewrite Hroot. wp_steps. rewrite (proj2 (Z.eqb_neq _ 0)), Hdepth by lia.
  assert (get_depth root = 4) as ->.
  { unfold validate_root_address_space in Hroot. case_match; [done|]. bool_to_prop. done. }
  unfold DEPTH_OFFSET. rewrite (proj2 (Z.leb_gt _ _)), (proj2 (Z.leb_gt _ _)) by lia.
  replace (d - 1 + 1) with d by lia.
  wp_step. eapply traverse_page_table_entry_spec; [exact Hroot|exact Hsite|].
  wp_steps. rewrite Hv. wp_steps.
  eapply (invalidate_local_tlb_spec k); [done|]. intros k' Hw. wp_steps. by apply HQ.
Qed.
End laws.

#[global] Instance x86_64_memory_manager_laws `{config} : memory_manager_laws x86_64_memory_manager.
Proof.
  refine {| hal_decode := x86_64_decode; hal_unused := λ v, negb (page_present v);
            hal_table_access := requested_access |};
    cbv beta iota delta [x86_64_memory_manager hal_validate_root_address_space hal_map_page_table
      hal_map_frame hal_unmap_frame hal_search_unset_page_table_depth].
  - intros d v Hv. unfold x86_64_decode. by rewrite Hv.
  - reflexivity.
  - intros k root f va rights d t a v Hcore [Hroot _] Hsite Hv%negb_true_iff Hd Hb Hr Hva Hf Hfa.
    pose proof (site_depth _ _ _ _ _ _ _ _ Hsite).
    eapply x86_64_map_frame; try done. intros k' Hw. split; [done|]. eexists. split; [exact Hw|].
    rewrite decode_make_page_leaf; [by rewrite negb_involutive|apply mapping_cache_flags_values|lia..|].
    etransitivity; [|exact Hfa]. apply leaf_shift_page. lia.
  - intros k root f va rights d t a v Hroot Hsite Hv%negb_false_iff Hd Hb Hr _ _.
    apply answers_wp. by eapply x86_64_map_frame_used.
  - intros k root f va d t a v Hcore [Hroot _] Hsite Hv%negb_false_iff Hd Hb. by eapply x86_64_unmap_frame.
  - intros k root table va rights d t a v Hcore [Hroot _] Hsite Hv%negb_true_iff Hdepth Hd Ht Hal.
    eapply x86_64_map_page_table; try done; [lia|]. intros k' Hw. split; [done|]. eexists. split; [exact Hw|].
    rewrite decode_make_page_table by (done || lia). by rewrite negb_involutive.
  - intros k root va d i t a v Hroot [Hi Hp He] Hv%negb_true_iff Hd Hdi.
    apply answers_wp. unfold search_unset_page_table_depth. rewrite Hroot, leaf_depth_shift by lia. wp_steps.
    eapply (search_unset_loop_unset k (Z.to_nat (4 - i))); [|exact Hp| |..]; unfold DEPTH_PML4; try lia.
    all: replace (4 - Z.of_nat (Z.to_nat (4 - i))) with i by lia; done.
  - intros k root va d t a Hroot Hd Hp.
    apply answers_wp. unfold search_unset_page_table_depth. rewrite Hroot, leaf_depth_shift by lia. wp_steps.
    eapply search_unset_loop_set; [|exact Hp|done]. unfold DEPTH_PML4. lia.
Defined.

(** ** Mapping and unmapping a frame *)

(** Mapping a frame at an aligned address whose tables exist and whose leaf
    entry is free succeeds, writes exactly that one entry, and from then on the
    processor translates every address of the frame's window to the byte of the
    frame at the same offset, with the requested permissions as far as the tables
    on the way grant them. *)
Theorem map_frame_translates `{config} k root f va rights d t a v :
  is_Some (hal_cores k !! current_core k) → valid_root root →
  x86_64_site (memory_words k) (table_address root) va d t a v → page_present v = false →
  d ≤ 3 → frame_size_bits f = leaf_shift d → is_valid_mapping_attribute rights = true →
  (2 ^ leaf_shift d | va) → 0 ≤ frame_address f < 2 ^ 48 → (2 ^ leaf_shift d | frame_address f) →
  wp (map_frame root f va rights)
     (λ r k', r = Ok tt ∧ (∃ w, word_written k root va (walk_entry t va d) w k') ∧
        (∀ offset, 0 ≤ offset < 2 ^ leaf_shift d →
           translate x86_64_decode (memory_words k') (table_address root) (va + offset) =
           Some (frame_address f + offset, meet a (requested_access rights)))) k.
Proof.
  intros Hcore Hroot Hs Hv Hd Hb Hr Hva Hf Hfa.
  apply (map_frame_run (laws := x86_64_memory_manager_laws) k root f va d t a v); try done.
  unfold hal_unused, x86_64_memory_manager_laws. by rewrite Hv.
Qed.

(** Unmapping a mapped frame succeeds, clears exactly the leaf entry, and from
    then on the processor translates no address of the window. *)
Theorem unmap_frame_untranslates `{config} k root f va d t a v :
  is_Some (hal_cores k !! current_core k) → valid_root root →
  x86_64_site (memory_words k) (table_address root) va d t a v → page_present v = true →
  walk_entry t va d ∉ path_entries x86_64_decode (memory_words k) (Z.to_nat (4 - d)) (table_address root) va 4 →
  d ≤ 3 → frame_size_bits f = leaf_shift d → (2 ^ leaf_shift d | va) →
  wp (unmap_frame root f va)
     (λ r k', r = Ok tt ∧ word_written k root va (walk_entry t va d) 0 k' ∧
        (∀ offset, 0 ≤ offset < 2 ^ leaf_shift d →
           translate x86_64_decode (memory_words k') (table_address root) (va + offset) = None)) k.
Proof.
  intros Hcore Hroot Hs Hv Hne Hd Hb Hva.
  apply (unmap_frame_run (laws := x86_64_memory_manager_laws) k root f va d t a v); try done.
  unfold hal_unused, x86_64_memory_manager_laws. by rewrite Hv.
Qed.

Section example.
#[local] Existing Instance example_config.

(** An address space at 0x10000 whose tables at 0x11000, 0x12000 and 0x13000 reach
    the address 0x200000; its page-directory entry for 0x400000 is free. *)
Definition example_tables : gmap Z Z :=
  {[0x10000 := make_page 0x11000 true false false 0;
    0x11000 := make_page 0x12000 true false false 0;
    0x12008 := make_page 0x13000 true false false 0; 0x12010 := 0;
    0x13000 := 0; 0x13008 := make_page 0x7000 true false true 0]}.
Definition example_root : page_table := MkPageTable 0x10000 4.
Definition example_memory : kernel :=
  initial_kernel <| memory_words := example_tables |>
    <| hal_cores := {[0 := MkHalCore 0 0 0 true None []]} |>.

(** The path to 0x200000 grants every access. *)
Lemma example_path va : va = 0x200000 ∨ va = 0x201000 →
  x86_64_path example_tables 3 0x10000 va 4 0x13000 full_access.
Proof.
  intros [->| ->]; repeat (eexists; eexists; exists full_access, full_access; split_and!;
    [vm_compute; reflexivity|vm_compute; reflexivity|lia|reflexivity|]); vm_compute; done.
Qed.

Lemma map_frame_translates_witness :
  wp (map_frame example_root (MkFrame 0x8000 12 0) 0x200000 3)
     (λ r k', r = Ok tt ∧ (∃ w, word_written example_memory example_root 0x200000 0x13000 w k') ∧
        (∀ offset, 0 ≤ offset < 2 ^ 12 →
           translate x86_64_decode (memory_words k') 0x10000 (0x200000 + offset) =
           Some (0x8000 + offset, MkAccess true true false))) example_memory.
Proof.
  apply (map_frame_translates example_memory example_root (MkFrame 0x8000 12 0) 0x200000 3 1 0x13000 full_access 0);
    try reflexivity; try lia.
  - by eexists.
  - split; [reflexivity|cbn; lia].
  - split; [lia|apply example_path; tauto|reflexivity].
  - by exists 512.
  - cbn. lia.
  - by exists 8.
Defined.

Lemma unmap_frame_untranslates_witness :
  wp (unmap_frame example_root (MkFrame 0x7000 12 0) 0x201000)
     (λ r k', r = Ok tt ∧ word_written example_memory example_root 0x201000 0x13008 0 k' ∧
        (∀ offset, 0 ≤ offset < 2 ^ 12 →
           translate x86_64_decode (memory_words k') 0x10000 (0x201000 + offset) = None)) example_memory.
Proof.
  apply (unmap_frame_untranslates example_memory example_root (MkFrame 0x7000 12 0) 0x201000 1 0x13000 full_access
           (make_page 0x7000 true false true 0)); try reflexivity; try lia.
  - by eexists.
  - split; [reflexivity|cbn; lia].
  - split; [lia|apply example_path; tauto|reflexivity].
  - vm_compute. set_solver.
  - by exists 513.
Defined.

(** The walk of [map_frame] does not look at the page-size bit.  With a 2 MiB
    frame mapped at 0x400000, mapping a 4 KiB frame there succeeds and writes its
    page-table entry into the first word of the user's own frame, which the
    user can write: the processor still translates to the 2 MiB frame.  The
    search for a missing table reports [ALREADY_MAPPED] for the same address. *)
Theorem map_frame_writes_user_frame :
  ∃ k1 k2,
    map_frame example_root (MkFrame 0x200000 21 0) 0x400000 3
      (example_memory <| memory_words ::= <[0x200000 := 0]> |>) = Ret (Ok tt) k1 ∧
    translate x86_64_decode (memory_words k1) 0x10000 0x400000 = Some (0x200000, MkAccess true true false) ∧
    map_frame example_root (MkFrame 0x8000 12 0) 0x400000 3 k1 = Ret (Ok tt) k2 ∧
    memory_words k2 !! 0x200000 = Some (make_page 0x8000 true false true 0) ∧
    translate x86_64_decode (memory_words k2) 0x10000 0x400000 = Some (0x200000, MkAccess true true false) ∧
    search_unset_page_table_depth example_root 0x400000 12 k1 = Ret (Err MM_ALREADY_MAPPED) k1.
Proof. do 2 eexists. do 5 (split; [vm_compute; reflexivity|]). vm_compute. reflexivity. Qed.
End example.
