(* ===== verification/Aarch64Memory.v ===== *)
(** Page tables of AArch64: src/src/hal/aarch64/memory/memory_manager.cpp and
    src/src/hal/aarch64/include/hal/aarch64/memory/paging.hpp.

    Physical memory is [memory_words], as for x86-64 (Memory.v).  The root of the
    address space a core uses, TTBR0_EL1, is the field [cr3] of [hal_core]: the one
    register of a core that names its user page table. *)

From S2P Require Import Prelude Word Types Dll Kernel Hal MemoryTypes.

(** ** paging.hpp *)

Definition PAGE_TABLE_ENTRY_COUNT : Z := 512.
Definition ADDRESS_SPACE_OWNERS_INDEX : Z := PAGE_TABLE_ENTRY_COUNT - 1.

(** [page_depth] *)
Definition DEPTH_L0 : Z := 4.
Definition DEPTH_L1 : Z := 3.
Definition DEPTH_L2 : Z := 2.
Definition DEPTH_L3 : Z := 1.

Definition descriptor_valid : Z := Z.shiftl 1 0.
Definition descriptor_table_page : Z := Z.shiftl 1 1.
Definition descriptor_attr_normal : Z := Z.shiftl 0 2.
Definition descriptor_attr_device : Z := Z.shiftl 1 2.
Definition descriptor_attr_buffered : Z := Z.shiftl 2 2.
Definition descriptor_access : Z := Z.shiftl 1 10.
Definition descriptor_inner_shareable : Z := Z.shiftl 3 8.
Definition descriptor_user : Z := Z.shiftl 1 6.
Definition descriptor_read_only : Z := Z.shiftl 1 7.
Definition descriptor_pxn : Z := Z.shiftl 1 53.
Definition descriptor_uxn : Z := Z.shiftl 1 54.
Definition descriptor_address_mask : Z := 0x0000FFFFFFFFF000.

Definition aarch64_page_table_index (address depth : Z) : Z :=
  Z.land (Z.shiftr address (12 + 9 * (depth - 1))) 0x1ff.

Definition aarch64_leaf_depth (size_bits : Z) : result Z hal_error :=
  match size_bits with
  | 12 => Ok DEPTH_L3
  | 21 => Ok DEPTH_L2
  | 30 => Ok DEPTH_L1
  | _ => Err HE_ILLEGAL_ARGUMENT
  end.

Definition current_user_page_table : M Z :=
  core ← this_core; mret (Z.land (cr3 core) descriptor_address_mask).

Section memory_manager.
Context `{config}.

(** ** memory_manager.cpp *)

(** [entry & flag] as a condition. *)
Definition descriptor_has (entry flag : Z) : bool := negb (Z.land entry flag =? 0).

Definition page_aligned (address : Z) : bool := Z.land address (PAGE_SIZE - 1) =? 0.

Definition invalidate_if_current (root : page_table) : M unit :=
  current ← current_user_page_table;
  if current =? table_address root
  then c ← reads current_core; emit (EV_INVALIDATE_TLB c None)
  else mret tt.

Definition aarch64_validate_root_address_space (target_root : page_table) : memory_map_result :=
  if negb (get_depth target_root =? DEPTH_L0) then Err MM_ILLEGAL_DEPTH
  else if (table_address target_root =? 0) || negb (page_aligned (table_address target_root))
  then Err MM_INVALID_PAGE_TABLE
  else Ok tt.

(** [&table[calculate_page_table_index(address, depth)]] *)
Definition aarch64_entry_address (table address depth : Z) : Z :=
  table + 8 * aarch64_page_table_index address depth.

(** [for (current_depth = L0; current_depth > depth; --current_depth)]: [turns]
    levels below the table at depth [current_depth]. *)
Fixpoint aarch64_traverse_tables (turns : nat) (table address current_depth : Z)
    : M (result Z memory_map_error) :=
  match turns with
  | O => mret (Ok table)
  | S turns' =>
      entry ← load memory_words (aarch64_entry_address table address current_depth);
      if negb (descriptor_has entry descriptor_valid) || negb (descriptor_has entry descriptor_table_page)
      then fail MM_NO_SUCH_PAGE_TABLE
      else
        let next_address := Z.land entry descriptor_address_mask in
        if next_address =? 0 then fail MM_NO_SUCH_PAGE_TABLE
        else aarch64_traverse_tables turns' next_address address (current_depth - 1)
  end.

Definition aarch64_traverse_page_table_entry (root : page_table) (address depth : Z)
    : M (result Z memory_map_error) :=
  let? _ := mret (aarch64_validate_root_address_space root) in
  if (depth <? DEPTH_L3) || (DEPTH_L0 <? depth) then fail MM_ILLEGAL_DEPTH
  else
    let? table := aarch64_traverse_tables (Z.to_nat (DEPTH_L0 - depth)) (table_address root) address DEPTH_L0 in
    mret (Ok (aarch64_entry_address table address depth)).

Definition aarch64_make_address_space (root_address : Z) : M (result page_table hal_error) :=
  if (root_address =? 0) || negb (page_aligned root_address) then fail HE_ILLEGAL_ARGUMENT
  else
    clear_words (Z.to_nat PAGE_TABLE_ENTRY_COUNT) root_address;;
    mret (Ok (make_page_table root_address DEPTH_L0)).

Definition aarch64_read_address_space_owners (table : page_table) : M Z :=
  load memory_words (table_address table + 8 * ADDRESS_SPACE_OWNERS_INDEX).
Definition aarch64_write_address_space_owners (table : page_table) (owners : Z) : M unit :=
  modify memory_words (table_address table + 8 * ADDRESS_SPACE_OWNERS_INDEX) (λ _, owners).

Definition table_descriptor (address : Z) : Z :=
  Z.lor (Z.lor (Z.land address descriptor_address_mask) descriptor_valid) descriptor_table_page.

(** The fourth argument is not used. *)
Definition aarch64_map_page_table (target_root target_table : page_table) (target_address rights : Z)
    : M memory_map_result :=
  if (table_address target_table =? 0) || negb (page_aligned (table_address target_table))
  then fail MM_INVALID_PAGE_TABLE
  else if (get_depth target_table <? DEPTH_L3) || (get_depth target_root <=? get_depth target_table)
  then fail MM_ILLEGAL_DEPTH
  else
    let? entry := aarch64_traverse_page_table_entry target_root target_address (get_depth target_table + 1) in
    value ← load memory_words entry;
    if descriptor_has value descriptor_valid then fail MM_ALREADY_MAPPED
    else
      modify memory_words entry (λ _, table_descriptor (table_address target_table));;
      invalidate_if_current target_root;;
      ok.

Definition aarch64_unmap_page_table (target_root target_table : page_table) (target_address : Z)
    : M memory_map_result :=
  if table_address target_table =? 0 then fail MM_INVALID_PAGE_TABLE
  else
    let? entry := aarch64_traverse_page_table_entry target_root target_address (get_depth target_table + 1) in
    modify memory_words entry (λ _, 0);;
    invalidate_if_current target_root;;
    ok.

Definition memory_attribute (rights : Z) : Z :=
  match get_mapping_flag rights with
  | Some MAPPING_BUFFERED => descriptor_attr_buffered
  | Some MAPPING_UNCACHED => descriptor_attr_device
  | _ => descriptor_attr_normal
  end.

(** The descriptor of a frame at [depth]. *)
Definition frame_descriptor (address depth rights : Z) : Z :=
  let descriptor :=
    Z.lor (Z.lor (Z.lor (Z.lor (Z.lor (Z.lor (Z.land address descriptor_address_mask) descriptor_valid)
      descriptor_access) descriptor_inner_shareable) (memory_attribute rights)) descriptor_user)
      descriptor_pxn in
  let descriptor := if depth =? DEPTH_L3 then Z.lor descriptor descriptor_table_page else descriptor in
  let descriptor := if Z.land rights MEMORY_WRITE =? 0 then Z.lor descriptor descriptor_read_only
                    else descriptor in
  if Z.land rights MEMORY_EXECUTE =? 0 then Z.lor descriptor descriptor_uxn else descriptor.

Definition aarch64_map_frame (target_root : page_table) (target_frame : frame) (target_address rights : Z)
    : M memory_map_result :=
  if negb (is_valid_mapping_attribute rights) then fail MM_INVALID_FRAME
  else
    let? depth := mret (transform_error (λ _, MM_ILLEGAL_DEPTH)
                          (aarch64_leaf_depth (frame_size_bits target_frame))) in
    frame_size ← defined (shl 1 (frame_size_bits target_frame));
    if negb (Z.land (frame_address target_frame) (wsub frame_size 1) =? 0)
       || negb (Z.land target_address (wsub frame_size 1) =? 0)
    then fail MM_ILLEGAL_DEPTH
    else
      let? entry := aarch64_traverse_page_table_entry target_root target_address depth in
      value ← load memory_words entry;
      if descriptor_has value descriptor_valid then fail MM_ALREADY_MAPPED
      else
        modify memory_words entry (λ _, frame_descriptor (frame_address target_frame) depth rights);;
        invalidate_if_current target_root;;
        ok.

Definition aarch64_unmap_frame (target_root : page_table) (target_frame : frame) (target_address : Z)
    : M memory_map_result :=
  let? depth := mret (transform_error (λ _, MM_ILLEGAL_DEPTH)
                        (aarch64_leaf_depth (frame_size_bits target_frame))) in
  let? entry := aarch64_traverse_page_table_entry target_root target_address depth in
  modify memory_words entry (λ _, 0);;
  invalidate_if_current target_root;;
  ok.

(** [for (depth = L0; depth > depth_result.unwrap(); --depth)] *)
Fixpoint aarch64_search_unset_loop (turns : nat) (table target_address depth : Z)
    : M (result Z memory_map_error) :=
  match turns with
  | O => mret (Ok 0)
  | S turns' =>
      entry ← load memory_words (aarch64_entry_address table target_address depth);
      if negb (descriptor_has entry descriptor_valid) then mret (Ok (depth - 1))
      else if negb (descriptor_has entry descriptor_table_page) then fail MM_ALREADY_MAPPED
      else aarch64_search_unset_loop turns' (Z.land entry descriptor_address_mask) target_address (depth - 1)
  end.

Definition aarch64_search_unset_page_table_depth (target_root : page_table) (target_address leaf_size_bits : Z)
    : M (result Z memory_map_error) :=
  let? _ := mret (aarch64_validate_root_address_space target_root) in
  let? depth := mret (transform_error (λ _, MM_ILLEGAL_DEPTH) (aarch64_leaf_depth leaf_size_bits)) in
  aarch64_search_unset_loop (Z.to_nat (DEPTH_L0 - depth)) (table_address target_root) target_address DEPTH_L0.

Definition aarch64_search_page_table_cover_size_by_depth (target_root : page_table) (depth : Z)
    : result Z memory_map_error :=
  match aarch64_validate_root_address_space target_root with
  | Err e => Err e
  | Ok _ =>
      match depth with
      | 4 => Ok (512 * 512 * 512 * PAGE_SIZE)
      | 3 => Ok (512 * 512 * PAGE_SIZE)
      | 2 => Ok (512 * PAGE_SIZE)
      | 1 => Ok PAGE_SIZE
      | _ => Err MM_ILLEGAL_DEPTH
      end
  end.

Definition aarch64_validate_frame_size_bits (size_bits : Z) : memory_map_result :=
  match size_bits with
  | 12 | 21 | 30 => Ok tt
  | _ => Err MM_ILLEGAL_DEPTH
  end.

(** [is_valid_user_address] of process_manager.cpp. *)
Definition aarch64_is_valid_user_address (address : Z) : bool :=
  (0 <=? address) && (address <? 0x0000800000000000).

(** The implementation of the interface.  It is not an instance: which
    architecture is meant is said where both are in scope. *)
Definition aarch64_memory_manager : memory_manager := {|
  hal_validate_root_address_space := aarch64_validate_root_address_space;
  hal_map_page_table := aarch64_map_page_table;
  hal_unmap_page_table := aarch64_unmap_page_table;
  hal_map_frame := aarch64_map_frame;
  hal_unmap_frame := aarch64_unmap_frame;
  hal_search_unset_page_table_depth := aarch64_search_unset_page_table_depth;
  hal_validate_frame_size_bits := aarch64_validate_frame_size_bits;
  hal_is_valid_user_address := aarch64_is_valid_user_address;
|}.

End memory_manager.
