(* ===== verification/Aarch64MemoryProofs.v ===== *)
(** Correctness of the AArch64 page tables (Aarch64Memory.v): they satisfy the laws
    of a memory manager (PageWalk.v) for the page walk of the processor. *)

From S2P Require Import Prelude Word Types Dll Kernel Hal MemoryTypes PageWalk Aarch64Memory.

(** ** Entries as the processor reads them

    With the granule of 4 KiB: bit 0 is valid; bit 1 tells a table from a block at
    depths 4 to 2 (no block at depth 4), and has to be set for a page at depth 1; a
    leaf without the access flag (bit 10) faults.  AP[1] and AP[2] are bits 6 and 7,
    UXN is bit 54; a table restricts what is below it with bits 60 to 62. *)
Definition aarch64_decode (d entry : Z) : entry_kind :=
  let leaf :=
    if Z.testbit entry 10
    then ENTRY_LEAF (Z.land entry descriptor_address_mask)
           (MkAccess (Z.testbit entry 6) (negb (Z.testbit entry 7)) (negb (Z.testbit entry 54)))
    else ENTRY_NOTHING in
  if negb (Z.testbit entry 0) then ENTRY_NOTHING
  else if Z.testbit entry 1
       then if d =? 1 then leaf
            else ENTRY_TABLE (Z.land entry descriptor_address_mask)
                   (MkAccess (negb (Z.testbit entry 61)) (negb (Z.testbit entry 62))
                      (negb (Z.testbit entry 60)))
       else if (2 <=? d) && (d <=? 3) then leaf else ENTRY_NOTHING.

Abbreviation aarch64_path := (tables_path aarch64_decode).
Abbreviation aarch64_site := (entry_site aarch64_decode).

Lemma descriptor_has_bit entry n : 0 ≤ n → descriptor_has entry (Z.shiftl 1 n) = Z.testbit entry n.
Proof.
  intros Hn. unfold descriptor_has. rewrite Z.shiftl_1_l. destruct (Z.testbit entry n) eqn:Hb.
  - apply negb_true_iff, Z.eqb_neq. intros H0. apply (f_equal (λ x, Z.testbit x n)) in H0.
    rewrite Z.land_spec, Z.pow2_bits_true, Hb, Z.testbit_0_l in H0 by lia. done.
  - apply negb_false_iff, Z.eqb_eq, Z.bits_inj'. intros i Hi.
    rewrite Z.land_spec, Z.testbit_0_l. destruct (decide (i = n)) as [->|]; [by rewrite Hb|].
    rewrite Z.pow2_bits_false by lia. apply andb_false_r.
Qed.
Lemma descriptor_has_valid entry : descriptor_has entry descriptor_valid = Z.testbit entry 0.
Proof. by apply descriptor_has_bit. Qed.
Lemma descriptor_has_table entry : descriptor_has entry descriptor_table_page = Z.testbit entry 1.
Proof. by apply (descriptor_has_bit entry 1). Qed.

Lemma address_mask_id a : 0 ≤ a < 2 ^ 48 → (2 ^ 12 | a) → Z.land a descriptor_address_mask = a.
Proof.
  intros Ha [q Hq]. change descriptor_address_mask with (Z.shiftl (Z.ones 36) 12).
  apply Z.bits_inj'. intros i Hi. rewrite Z.land_spec.
  destruct (Z.lt_ge_cases i 12).
  - rewrite Z.shiftl_spec_low by lia. rewrite Hq, andb_false_r. symmetry. by apply Z.mul_pow2_bits_low.
  - rewrite Z.shiftl_spec_high, Z.testbit_ones_nonneg by lia.
    destruct (Z.ltb_spec (i - 12) 36); [by rewrite andb_true_r|]. rewrite andb_false_r. symmetry.
    destruct (decide (a = 0)) as [->|]; [apply Z.testbit_0_l|].
    apply Z.bits_above_log2; [lia|]. apply (Z.lt_le_trans _ 48); [apply Z.log2_lt_pow2; lia|lia].
Qed.

(** Clear the address in a test of one bit of a descriptor, and the flags in its
    address. *)
Ltac descriptor_bit :=
  rewrite ?Z.lor_spec, ?Z.land_spec;
  match goal with
  | |- context [Z.testbit descriptor_address_mask ?i] =>
      change (Z.testbit descriptor_address_mask i) with false
  end; rewrite andb_false_r; reflexivity.
Ltac descriptor_address :=
  rewrite !Z.land_lor_distr_l, <- Z.land_assoc, Z.land_diag;
  repeat match goal with
         | |- context [Z.lor ?x (Z.land ?flag descriptor_address_mask)] =>
             change (Z.land flag descriptor_address_mask) with 0; rewrite (Z.lor_0_r x)
         end; by apply address_mask_id.

Section descriptors.
Context (address : Z) (Haddress : 0 ≤ address < 2 ^ 48) (Halign : (2 ^ 12 | address)).

Lemma decode_table_descriptor d :
  2 ≤ d → aarch64_decode d (table_descriptor address) = ENTRY_TABLE address full_access.
Proof.
  intros Hd. unfold aarch64_decode, table_descriptor.
  assert (∀ i, i ∈ [0; 1] → Z.testbit (Z.lor (Z.lor (Z.land address descriptor_address_mask)
                               descriptor_valid) descriptor_table_page) i = true) as Hset.
  { intros i Hi. rewrite !elem_of_cons, elem_of_nil in Hi. destruct Hi as [->|[->|[]]]; descriptor_bit. }
  assert (∀ i, i ∈ [60; 61; 62] → Z.testbit (Z.lor (Z.lor (Z.land address descriptor_address_mask)
                               descriptor_valid) descriptor_table_page) i = false) as Hclear.
  { intros i Hi. rewrite !elem_of_cons, elem_of_nil in Hi.
    destruct Hi as [->|[->|[->|[]]]]; descriptor_bit. }
  rewrite (Hset 0), (Hset 1), (Hclear 60), (Hclear 61), (Hclear 62) by set_solver.
  rewrite (proj2 (Z.eqb_neq d 1)) by lia. cbn [negb].
  f_equal. descriptor_address.
Qed.

Lemma frame_descriptor_bits d rights :
  let w := frame_descriptor address d rights in
  Z.testbit w 0 = true ∧ Z.testbit w 1 = (d =? DEPTH_L3) ∧ Z.testbit w 6 = true ∧
  Z.testbit w 7 = (Z.land rights MEMORY_WRITE =? 0) ∧ Z.testbit w 10 = true ∧
  Z.testbit w 54 = (Z.land rights MEMORY_EXECUTE =? 0) ∧ Z.land w descriptor_address_mask = address.
Proof.
  cbn zeta. unfold frame_descriptor, memory_attribute.
  destruct (d =? DEPTH_L3), (Z.land rights MEMORY_WRITE =? 0), (Z.land rights MEMORY_EXECUTE =? 0),
    (get_mapping_flag rights) as [[]|]; split_and!; (descriptor_bit || descriptor_address).
Qed.

Lemma decode_frame_descriptor d rights :
  1 ≤ d ≤ 3 →
  aarch64_decode d (frame_descriptor address d rights) = ENTRY_LEAF address (requested_access rights).
Proof.
  intros Hd. unfold aarch64_decode.
  destruct (frame_descriptor_bits d rights) as (-> & -> & -> & -> & -> & -> & ->).
  unfold requested_access, has_attribute, DEPTH_L3. cbn [negb].
  rewrite (proj2 (Z.leb_le d 3)) by lia. destruct (Z.eqb_spec d 1); [done|].
  by rewrite (proj2 (Z.leb_le 2 d)) by lia.
Qed.
End descriptors.

(** ** The walk of the manager *)

Lemma aarch64_entry_walk table va d : aarch64_entry_address table va d = walk_entry table va d.
Proof. reflexivity. Qed.

Lemma aarch64_decode_table d entry next a :
  aarch64_decode d entry = ENTRY_TABLE next a →
  Z.testbit entry 0 = true ∧ Z.testbit entry 1 = true ∧ Z.land entry descriptor_address_mask = next.
Proof. unfold aarch64_decode. repeat case_match; intros; simplify_eq; bool_to_prop; done. Qed.

Lemma aarch64_leaf_depth_shift d : 1 ≤ d ≤ 3 → aarch64_leaf_depth (leaf_shift d) = Ok d.
Proof. intros Hd. assert (d = 1 ∨ d = 2 ∨ d = 3) as [->|[->| ->]] by lia; done. Qed.

Section operations.
Context `{config} (k : kernel).

Lemma aarch64_traverse_tables_spec n table va i t a Q :
  aarch64_path (memory_words k) n table va i t a → Q (Ok t) k →
  wp (aarch64_traverse_tables n table va i) Q k.
Proof.
  revert table i a. induction n as [|n IH]; intros table i a Hp HQ; cbn [aarch64_traverse_tables].
  { apply wp_ret. by destruct Hp as [-> _]. }
  destruct Hp as (entry & next & b & c & He & Hd & Hn & _ & Hp).
  apply aarch64_decode_table in Hd as (Hvalid & Htable & Ha). wp_step.
  eapply wp_load; [exact He|]. rewrite descriptor_has_valid, descriptor_has_table, Hvalid, Htable.
  cbn [negb orb]. rewrite Ha, (proj2 (Z.eqb_neq _ _)) by done. by eapply IH.
Qed.

Lemma invalidate_if_current_spec e w root va Q :
  is_Some (hal_cores k !! current_core k) → 0 ≤ table_address root < 2 ^ 48 → (2 ^ 12 | table_address root) →
  (∀ k', word_written k root va e w k' → Q tt k') →
  wp (invalidate_if_current root) Q (k <| memory_words ::= <[e := w]> |>).
Proof.
  intros [c Hcore] Hroot Hal HQ. unfold invalidate_if_current, current_user_page_table, this_core. wp_steps.
  destruct (Z.eqb_spec (Z.land (cr3 c) descriptor_address_mask) (table_address root)) as [Heq|Hne]; wp_steps.
  - unfold emit. wp_steps. apply HQ. exists [EV_INVALIDATE_TLB (current_core k) None].
    split; [right; eexists; split; [done|]; tauto|done].
  - apply HQ. exists []. split.
    + left. split; [done|]. rewrite Hcore. intros ? [= <-] Hc. apply Hne. rewrite Hc. by apply address_mask_id.
    + destruct k. unfold upd. cbn. by rewrite app_nil_r.
Qed.

Lemma aarch64_traverse_spec root va d t a v Q :
  aarch64_validate_root_address_space root = Ok tt →
  aarch64_site (memory_words k) (table_address root) va d t a v →
  Q (Ok (walk_entry t va d)) k → wp (aarch64_traverse_page_table_entry root va d) Q k.
Proof.
  intros Hroot [Hd Hp _] HQ. unfold aarch64_traverse_page_table_entry. rewrite Hroot. wp_steps.
  unfold DEPTH_L0, DEPTH_L3 in *.
  rewrite (proj2 (Z.ltb_ge 4 d)), (proj2 (Z.ltb_ge d 1)) by lia. cbn [orb].
  wp_step. eapply aarch64_traverse_tables_spec; [exact Hp|]. by wp_steps.
Qed.

Lemma aarch64_search_unset n j table va i t a v Q :
  aarch64_path (memory_words k) n table va i t a → (n < j)%nat →
  memory_words k !! walk_entry t va (i - Z.of_nat n) = Some v → Z.testbit v 0 = false →
  Q (Ok (i - Z.of_nat n - 1)) k → wp (aarch64_search_unset_loop j table va i) Q k.
Proof.
  revert j table i a. induction n as [|n IH]; intros [|j] table i a Hp Hj Hv Hno HQ; try lia;
    cbn [aarch64_search_unset_loop]; wp_step.
  - destruct Hp as [-> _]. rewrite Z.sub_0_r in *. eapply wp_load; [exact Hv|].
    rewrite descriptor_has_valid, Hno. by wp_steps.
  - destruct Hp as (entry & next & b & c & He & Hd & Hn & _ & Hp).
    apply aarch64_decode_table in Hd as (Hvalid & Htable & Ha). eapply wp_load; [exact He|].
    rewrite descriptor_has_valid, descriptor_has_table, Hvalid, Htable. cbn [negb]. rewrite Ha.
    replace (i - Z.of_nat (S n)) with (i - 1 - Z.of_nat n) in * by lia.
    eapply (IH j); [exact Hp|lia|exact Hv|done|done].
Qed.

Lemma aarch64_search_set n table va i t a Q :
  aarch64_path (memory_words k) n table va i t a → Q (Ok 0) k →
  wp (aarch64_search_unset_loop n table va i) Q k.
Proof.
  revert table i a. induction n as [|n IH]; intros table i a Hp HQ;
    cbn [aarch64_search_unset_loop]; [by wp_steps|].
  destruct Hp as (entry & next & b & c & He & Hd & Hn & _ & Hp).
  apply aarch64_decode_table in Hd as (Hvalid & Htable & Ha). wp_step.
  eapply wp_load; [exact He|]. rewrite descriptor_has_valid, descriptor_has_table, Hvalid, Htable.
  cbn [negb]. rewrite Ha. by eapply IH.
Qed.
End operations.

(** ** The laws *)

Lemma page_aligned_spec a : (2 ^ 12 | a) → page_aligned a = true.
Proof.
  intros Hd. unfold page_aligned. change (PAGE_SIZE - 1) with (Z.ones 12). rewrite Z.land_ones by lia.
  apply Z.eqb_eq. by apply Z.mod_divide.
Qed.

Lemma root_aligned root : aarch64_validate_root_address_space root = Ok tt → (2 ^ 12 | table_address root).
Proof.
  unfold aarch64_validate_root_address_space. repeat case_match; try done. bool_to_prop. intros _.
  destruct_and!. unfold page_aligned in *. bool_to_prop.
  apply Z.mod_divide; [done|]. rewrite <- Z.land_ones by lia. done.
Qed.

Section laws.
Context `{config} (k : kernel) (root : page_table) (f : frame) (va d t : Z) (a : access) (v : Z).
Hypothesis (Hroot : aarch64_validate_root_address_space root = Ok tt).
Hypothesis (Hsite : aarch64_site (memory_words k) (table_address root) va d t a v).

(** The common part of mapping a frame: up to the look at the entry. *)
Lemma aarch64_map_frame_run rights Q :
  d ≤ 3 → frame_size_bits f = leaf_shift d → is_valid_mapping_attribute rights = true →
  (2 ^ leaf_shift d | va) → (2 ^ leaf_shift d | frame_address f) →
  (if Z.testbit v 0 then Q (Err MM_ALREADY_MAPPED) k
   else is_Some (hal_cores k !! current_core k) ∧ 0 ≤ table_address root < 2 ^ 48 ∧
        ∀ k', word_written k root va (walk_entry t va d) (frame_descriptor (frame_address f) d rights) k' →
              Q (Ok tt) k') →
  wp (aarch64_map_frame root f va rights) Q k.
Proof.
  intros Hd Hb Hr Hva Hf HQ. pose proof Hsite as [Hd' _ He]. unfold aarch64_map_frame.
  rewrite Hr, Hb, aarch64_leaf_depth_shift by lia. cbn [negb transform_error]. wp_steps.
  assert (0 ≤ leaf_shift d < 64) by (unfold leaf_shift; lia).
  eapply wp_defined; [by apply shl_1|].
  rewrite !aligned_land by done. cbn [Z.eqb negb orb].
  wp_step. eapply aarch64_traverse_spec; [exact Hroot|exact Hsite|].
  wp_steps. rewrite descriptor_has_valid. destruct (Z.testbit v 0); [by wp_steps|].
  destruct HQ as (Hcore & Hvalid & HQ). wp_steps.
  eapply (invalidate_if_current_spec k); [done|exact Hvalid|by apply root_aligned|].
  intros k' Hw. wp_steps. by apply HQ.
Qed.

Lemma aarch64_unmap_frame_run Q :
  is_Some (hal_cores k !! current_core k) → 0 ≤ table_address root < 2 ^ 48 → d ≤ 3 → frame_size_bits f = leaf_shift d →
  (∀ k', word_written k root va (walk_entry t va d) 0 k' → Q (Ok tt) k') →
  wp (aarch64_unmap_frame root f va) Q k.
Proof.
  intros Hcore Hvalid Hd Hb HQ. pose proof Hsite as [Hd' _ He]. unfold aarch64_unmap_frame.
  rewrite Hb, aarch64_leaf_depth_shift by lia. cbn [transform_error]. wp_steps.
  eapply aarch64_traverse_spec; [exact Hroot|exact Hsite|]. wp_steps.
  eapply (invalidate_if_current_spec k); [done|exact Hvalid|by apply root_aligned|].
  intros k' Hw. wp_steps. by apply HQ.
Qed.

Lemma aarch64_map_page_table_run table rights Q :
  is_Some (hal_cores k !! current_core k) → 0 ≤ table_address root < 2 ^ 48 → Z.testbit v 0 = false →
  get_depth table = d - 1 → 2 ≤ d → 0 < table_address table → (2 ^ 12 | table_address table) →
  (∀ k', word_written k root va (walk_entry t va d) (table_descriptor (table_address table)) k' → Q (Ok tt) k') →
  wp (aarch64_map_page_table root table va rights) Q k.
Proof.
  intros Hcore Hvalid Hv Hdepth Hd Ht Hal HQ. pose proof Hsite as [Hd' _ He]. unfold aarch64_map_page_table.
  rewrite (proj2 (Z.eqb_neq _ 0)), page_aligned_spec, Hdepth by (done || lia). cbn [negb orb].
  assert (get_depth root = 4) as ->.
  { unfold aarch64_validate_root_address_space in Hroot. case_match; [done|]. bool_to_prop. done. }
  unfold DEPTH_L3. rewrite (proj2 (Z.ltb_ge _ _)), (proj2 (Z.leb_gt _ _)) by lia. cbn [orb].
  replace (d - 1 + 1) with d by lia. wp_step. eapply aarch64_traverse_spec; [exact Hroot|exact Hsite|].
  wp_steps. rewrite descriptor_has_valid, Hv. wp_steps.
  eapply (invalidate_if_current_spec k); [done|exact Hvalid|by apply root_aligned|].
  intros k' Hw. wp_steps. by apply HQ.
Qed.
End laws.

Definition aarch64_memory_manager_laws `{config} : memory_manager_laws aarch64_memory_manager.
Proof.
  refine {| hal_decode := aarch64_decode; hal_unused := λ v, negb (Z.testbit v 0);
            hal_table_access := λ _, full_access |};
    cbv beta iota delta [aarch64_memory_manager hal_validate_root_address_space hal_map_page_table
      hal_map_frame hal_unmap_frame hal_search_unset_page_table_depth].
  - intros d v Hv. unfold aarch64_decode. by rewrite Hv.
  - reflexivity.
  - intros k root f va rights d t a v Hcore [Hroot Hvalid] Hsite Hv%negb_true_iff Hd Hb Hr Hva Hf Hfa.
    pose proof (site_depth _ _ _ _ _ _ _ _ Hsite).
    eapply aarch64_map_frame_run; try done. rewrite Hv. do 2 (split; [done|]). intros k' Hw.
    split; [done|]. eexists. split; [exact Hw|]. apply decode_frame_descriptor; [done| |lia].
    etransitivity; [|exact Hfa]. apply leaf_shift_page. lia.
  - intros k root f va rights d t a v Hroot Hsite Hv%negb_false_iff Hd Hb Hr Hva Hfa.
    apply answers_wp. eapply aarch64_map_frame_run; try done. by rewrite Hv.
  - intros k root f va d t a v Hcore [Hroot Hvalid] Hsite Hv Hd Hb. by eapply aarch64_unmap_frame_run.
  - intros k root table va rights d t a v Hcore [Hroot Hvalid] Hsite Hv%negb_true_iff Hdepth Hd Ht Hal.
    eapply aarch64_map_page_table_run; try done; [lia|]. intros k' Hw. split; [done|]. eexists.
    split; [exact Hw|]. apply decode_table_descriptor; (done || lia).
  - intros k root va d i t a v Hroot [Hi Hp He] Hv%negb_true_iff Hd Hdi.
    apply answers_wp. unfold aarch64_search_unset_page_table_depth.
    rewrite Hroot, aarch64_leaf_depth_shift by lia. cbn [transform_error]. wp_steps.
    eapply (aarch64_search_unset k (Z.to_nat (4 - i))); [exact Hp| |..]; unfold DEPTH_L0; try lia.
    all: replace (4 - Z.of_nat (Z.to_nat (4 - i))) with i by lia; done.
  - intros k root va d t a Hroot Hd Hp.
    apply answers_wp. unfold aarch64_search_unset_page_table_depth.
    rewrite Hroot, aarch64_leaf_depth_shift by lia. cbn [transform_error]. wp_steps.
    by eapply aarch64_search_set; [exact Hp|].
Defined.

(** C16: On AArch64, mapping a frame of 4 KiB, 2 MiB or 1 GiB at an aligned address
    whose tables exist and whose descriptor is not valid succeeds, writes exactly
    that descriptor, tells the translation buffer, and from then on the processor
    translates every address of the window to the byte of the frame at the same
    offset, with the requested permissions as far as the tables on the way grant
    them; at a descriptor that is valid it reports ALREADY_MAPPED and changes
    nothing. *)
Theorem aarch64_map_frame_translates `{config} k root f va rights d t a v :
  is_Some (hal_cores k !! current_core k) → @valid_root aarch64_memory_manager root →
  aarch64_site (memory_words k) (table_address root) va d t a v →
  d ≤ 3 → frame_size_bits f = leaf_shift d → is_valid_mapping_attribute rights = true →
  (2 ^ leaf_shift d | va) → 0 ≤ frame_address f < 2 ^ 48 → (2 ^ leaf_shift d | frame_address f) →
  if Z.testbit v 0 then answers (aarch64_map_frame root f va rights) k (Err MM_ALREADY_MAPPED)
  else
    wp (aarch64_map_frame root f va rights)
       (λ r k', r = Ok tt ∧ (∃ w, word_written k root va (walk_entry t va d) w k') ∧
          (∀ offset, 0 ≤ offset < 2 ^ leaf_shift d →
             translate aarch64_decode (memory_words k') (table_address root) (va + offset) =
             Some (frame_address f + offset, meet a (requested_access rights)))) k.
Proof.
  intros Hcore Hroot Hs Hd Hb Hr Hva Hf Hfa. destruct (Z.testbit v 0) eqn:Hv.
  - apply (map_frame_used_law (memory_manager_laws := aarch64_memory_manager_laws) k root f va rights d t a v);
      try done; [apply Hroot|]. unfold hal_unused, aarch64_memory_manager_laws. by rewrite Hv.
  - apply (map_frame_run (laws := aarch64_memory_manager_laws) k root f va d t a v); try done.
    unfold hal_unused, aarch64_memory_manager_laws. by rewrite Hv.
Qed.

Section example.
#[local] Existing Instance example_config.

(** An address space at 0x40010000 whose tables reach the address 0x200000, where
    nothing is mapped. *)
Definition aarch64_example_memory : kernel :=
  initial_kernel
    <| memory_words := {[0x40010000 := table_descriptor 0x40011000; 0x40011000 := table_descriptor 0x40012000;
                         0x40012008 := table_descriptor 0x40013000; 0x40013000 := 0]} |>
    <| hal_cores := {[0 := MkHalCore 0x40010000 0 0 true None []]} |>.

Lemma aarch64_map_frame_translates_witness :
  wp (aarch64_map_frame (MkPageTable 0x40010000 4) (MkFrame 0x48000000 12 0) 0x200000 3)
     (λ r k', r = Ok tt ∧
        (∃ w, word_written aarch64_example_memory (MkPageTable 0x40010000 4) 0x200000 0x40013000 w k') ∧
        (∀ offset, 0 ≤ offset < 2 ^ 12 →
           translate aarch64_decode (memory_words k') 0x40010000 (0x200000 + offset) =
           Some (0x48000000 + offset, MkAccess true true false))) aarch64_example_memory.
Proof.
  apply (aarch64_map_frame_translates aarch64_example_memory (MkPageTable 0x40010000 4) (MkFrame 0x48000000 12 0)
           0x200000 3 1 0x40013000 full_access 0); try reflexivity; try lia.
  - by eexists.
  - split; [reflexivity|cbn; lia].
  - split; [lia| |reflexivity].
    repeat (eexists; eexists; exists full_access, full_access; split_and!;
      [vm_compute; reflexivity|vm_compute; reflexivity|lia|reflexivity|]); vm_compute; done.
  - by exists 512.
  - cbn. lia.
  - by exists 0x48000.
Defined.
End example.
