(* ===== verification/Generic.v ===== *)
(** Generic capabilities, the kernel's allocator of physical memory:
    src/src/kernel/capability/generic.cpp and
    src/src/kernel/include/kernel/capability/generic.hpp.

    A Generic owns the region [base, base + 2^size_bits) and hands it out by
    raising a watermark; objects are constructed in place, at the kernel's
    virtual address of the memory they are given.  [self] is the slot of the
    Generic, [owner] the invoking process. *)

From S2P Require Import Prelude Word Types Dll Kernel Slot Hal Node Memory Scheduler.
From S2P Require Import ProcessManager Queues.

(** ** Flags *)

Definition serialize_generic_flags (is_device : bool) (size_bits : Z) : Z :=
  Z.lor (Z.shiftl (Z.b2z is_device) 7) (Z.land size_bits (Z.shiftl 1 7 - 1)).
Definition generic_flags_is_device (flags : Z) : bool := Z.testbit flags 7.

(** ** [generic_info] *)

Record generic_info := MkGenericInfo {
  base_address : Z;
  size_bits : Z;
  watermark : Z;
  device : bool;
}.
#[global] Instance eta_generic_info : Eta generic_info := λ x,
  MkGenericInfo (base_address x) (size_bits x) (watermark x) (device x).

(** [generic_info::size]: undefined for a region of 2^64 bytes or more. *)
Definition region_size (g : generic_info) : option Z := shl 1 (size_bits g).

Definition is_allocatable (g : generic_info) (memory_size_bits count : Z) : option bool :=
  sz ← region_size g;
  let end_address := wadd (base_address g) sz in
  request_unit_size ← shl 1 memory_size_bits;
  let aligned_watermark := align_value (watermark g) request_unit_size in
  let target_end_address := wadd aligned_watermark (wmul request_unit_size count) in
  Some (target_end_address <=? end_address).

(** The state [apply_allocate] leaves. *)
Definition apply_allocate (g : generic_info) (memory_size_bits : Z) : option generic_info :=
  request_unit_size ← shl 1 memory_size_bits;
  let aligned_watermark := align_value (watermark g) request_unit_size in
  Some (g <| watermark := wadd aligned_watermark request_unit_size |>).

(** The memory given, or the error, and the state left. *)
Definition try_apply_allocate (g : generic_info) (memory_size_bits : Z)
    : option (result Z memory_error * generic_info) :=
  unit_size ← shl 1 memory_size_bits;
  let aligned_watermark := align_value (watermark g) unit_size in
  let boundary_address := wadd aligned_watermark unit_size in
  sz ← region_size g;
  if wadd (base_address g) sz <? boundary_address then Some (Err ME_OUT_OF_MEMORY, g)
  else
    g' ← apply_allocate g memory_size_bits;
    Some (Ok aligned_watermark, g').

(** [generic_info::init] *)
Definition reset_watermark (g : generic_info) : generic_info := g <| watermark := base_address g |>.

Definition dump_slot_data (g : generic_info) : capability_slot_data :=
  SlotData (base_address g) (serialize_generic_flags (device g) (size_bits g)) (watermark g).

Definition create_generic_info (d : capability_slot_data) : generic_info :=
  MkGenericInfo (data_0 d) (generic_flags_size_bits (data_1 d)) (data_2 d)
    (generic_flags_is_device (data_1 d)).

Definition try_configure_generic_slot (slot : slot_ref) (g : generic_info) : M kernel_result :=
  modify slots slot
    (λ _, initial_slot <| component := Some C_GENERIC |> <| type := CT_GENERIC |>
            <| rights := RIGHTS_READ_WRITE |> <| data := dump_slot_data g |>);;
  ok.

(** ** Errors *)

Definition convert_memory_error_to_capability_error (e : memory_error) : capability_error :=
  match e with
  | ME_OUT_OF_MEMORY => CE_INVALID_ARGUMENT
  | ME_INVALID_ALIGNMENT | ME_INVALID_ADDRESS => CE_FATAL
  end.

(** [convert_capability_error] of [convert]. *)
Definition convert_lookup_error (e : capability_lookup_error) : capability_error :=
  match e with
  | LE_TERMINAL => CE_INVALID_DESCRIPTOR
  | LE_INDEX_OUT_OF_RANGE => CE_INVALID_ARGUMENT
  | LE_UNAVAILABLE | LE_EMPTY => CE_ILLEGAL_OPERATION
  | LE_UNEXPECTED => CE_FATAL
  end.

(** [operation_index] *)
Definition GENERIC_OPERATION_TYPE : Z := 1.
Definition GENERIC_CAPABILITY_TYPE : Z := 2.
Definition GENERIC_CAPABILITY_SPECIFIC_BITS : Z := 3.
Definition GENERIC_CAPABILITY_COUNT : Z := 4.
Definition GENERIC_ROOT_DESCRIPTOR : Z := 5.
Definition GENERIC_SLOT_INDEX : Z := 6.
Definition OPERATION_CONVERT : Z := 0.

Section generic.
Context `{config}.

(** ** Sizes *)

(** The memory a Node of radix [specific_bits] takes. *)
Definition node_memory_size_bits (specific_bits : Z) : option (option Z) :=
  slot_size_bits ← calculate_radix_ceil sizeof_capability_slot;
  if negb (is_geometry_valid 0 specific_bits) || (WORD_BITS - slot_size_bits <=? specific_bits)
  then Some None
  else
    node_size_bits ← calculate_radix_ceil sizeof_capability_node;
    node_alignment ← shl 1 node_size_bits;
    slot_alignment ← shl 1 slot_size_bits;
    slot_count ← shl 1 specific_bits;
    let aligned_node_size := align_value sizeof_capability_node node_alignment in
    let slot_array_base := align_value aligned_node_size slot_alignment in
    let slot_array_size := wmul sizeof_capability_slot slot_count in
    let total_size := wadd slot_array_base slot_array_size in
    Some <$> calculate_radix_ceil total_size.

(** The outer [option] is undefined behaviour, the inner one [option_none]. *)
Definition calculate_capability_memory_size_bits (t : option capability_type) (specific_bits : Z)
    : option (option Z) :=
  match t with
  | Some CT_NODE => node_memory_size_bits specific_bits
  | Some CT_GENERIC => Some (Some specific_bits)
  | Some CT_ADDRESS_SPACE | Some CT_PAGE_TABLE => Some (Some (calculate_radix PAGE_SIZE))
  | Some CT_FRAME =>
      Some (if is_ok (validate_frame_size_bits specific_bits) then Some specific_bits else None)
  | Some CT_PROCESS_CONTROL_BLOCK => Some <$> calculate_radix_ceil sizeof_process_control_block
  | Some CT_IPC_PORT => Some <$> calculate_radix_ceil sizeof_ipc_port
  | Some CT_NOTIFICATION_PORT => Some <$> calculate_radix_ceil sizeof_notification_port
  | Some CT_VIRTUAL_CPU => Some <$> calculate_radix_ceil sizeof_virtual_cpu_capability
  | _ => Some None
  end.

(** ** Construction *)

(** [new (p) process_control_block {}]: a process in a fresh user context. *)
Definition make_process_control_block (a : Z) : M unit :=
  let p := initial_process <| registers := fst (init_hardware_context CM_USER) |>
             <| floating_registers := initial_floating_context |> in
  updates (λ k, k <| processes ::= <[a := p]> |>
                  <| slots ::= λ m,
                       foldr (λ s m, <[process_slot_ref a s := initial_slot]> m) m
                         [ROOT_SLOT; ROOT_ADDRESS_SPACE; BUFFER_FRAME; BINDED_NOTIFICATION_PORT;
                          RESOLVER_PORT] |>).
Definition try_configure_process_control_block_slot (slot : slot_ref) (a : Z) : M kernel_result :=
  modify slots slot
    (λ _, initial_slot <| rights := RIGHTS_ALL |> <| component := Some (C_PROCESS_CONTROL_BLOCK a) |>
            <| type := CT_PROCESS_CONTROL_BLOCK |>);;
  ok.
(** The slot is not initialised first. *)
Definition try_configure_virtual_cpu_slot (slot : slot_ref) (a : Z) : M kernel_result :=
  sv ← load slots slot;
  if decide (type sv ≠ CT_NONE) then fail KE_INIT_FIRST
  else
    modify slots slot
      (λ v, v <| component := Some (C_VIRTUAL_CPU a) |> <| type := CT_VIRTUAL_CPU |>
              <| rights := RIGHTS_ALL |> <| data := SlotData 0 0 0 |>);;
    ok.

(** [info.try_apply_allocate(bits)] and the construction in the memory it gives;
    [info] is passed back with its new watermark. *)
Definition allocate_and (g : generic_info) (memory_size_bits : Z)
    (construct : generic_info → Z → M capability_result) : M (capability_result * generic_info) :=
  ag ← defined (try_apply_allocate g memory_size_bits);
  match fst ag with
  | Err e => mret (Err (convert_memory_error_to_capability_error e), snd ag)
  | Ok new_watermark => r ← construct (snd ag) new_watermark; mret (r, snd ag)
  end.

Definition to_fatal (e : kernel_error) : capability_error := CE_FATAL.

(** The objects built in the memory at [new_watermark], and the slot that names them. *)
Definition make_frame_capability (memory_size_bits : Z) (target_slot : slot_ref) (g : generic_info)
    (new_watermark : Z) : M capability_result :=
  map_error to_fatal
    (try_configure_frame_slot target_slot
       (MkFrame new_watermark memory_size_bits (if device g then FRAME_FLAG_DEVICE else 0))).
Definition make_pcb_capability (target_slot : slot_ref) (new_watermark : Z) : M capability_result :=
  let pcb := physical_to_virtual_address new_watermark in
  make_process_control_block pcb;;
  map_error convert_kernel_to_capability_error
    (try_configure_process_control_block_slot target_slot pcb).
Definition make_ipc_port_capability (target_slot : slot_ref) (new_watermark : Z) : M capability_result :=
  let port := physical_to_virtual_address new_watermark in
  updates (λ k, k <| ipc_ports ::= <[port := MkIpcPort None None IPC_WAIT]> |>);;
  map_error convert_kernel_to_capability_error
    (try_configure_ipc_port_slot target_slot port 0).
Definition make_notification_port_capability (target_slot : slot_ref) (new_watermark : Z) : M capability_result :=
  let port := physical_to_virtual_address new_watermark in
  updates (λ k, k <| notification_ports ::=
                     <[port := MkNotificationPort (MkNotification NS_NONE 0)
                                 None None None NP_WAIT]> |>);;
  map_error convert_kernel_to_capability_error
    (try_configure_notification_port_slot target_slot port 0).
Definition make_virtual_cpu_capability (target_slot : slot_ref) (new_watermark : Z) : M capability_result :=
  map_error convert_kernel_to_capability_error
    (try_configure_virtual_cpu_slot target_slot (physical_to_virtual_address new_watermark)).

Definition try_make_capability (t : option capability_type) (memory_size_bits specific_bits : Z)
    (g : generic_info) (self target_slot : slot_ref) : M (capability_result * generic_info) :=
  match t with
  | Some CT_NONE => mret (Err CE_ILLEGAL_OPERATION, g)
  | Some CT_NODE =>
      allocate_and g memory_size_bits (λ _ new_watermark,
        map_error to_fatal
          (let? node := try_make_capability_node (physical_to_virtual_address new_watermark)
                          specific_bits in
           try_configure_capability_node_slot target_slot node))
  | Some CT_GENERIC =>
      allocate_and g memory_size_bits (λ g' new_watermark,
        let child_info := MkGenericInfo new_watermark memory_size_bits new_watermark (device g') in
        map_error to_fatal
          (let? _ := try_configure_generic_slot self g' in
           try_configure_generic_slot target_slot child_info))
  | Some CT_ADDRESS_SPACE =>
      allocate_and g memory_size_bits (λ _ new_watermark,
        let? table := map_error (λ _, CE_FATAL) (make_address_space new_watermark) in
        map_error to_fatal (try_configure_address_space_slot target_slot table))
  | Some CT_PAGE_TABLE =>
      allocate_and g memory_size_bits (λ _ new_watermark,
        map_error to_fatal
          (try_configure_page_table_slot target_slot (make_page_table new_watermark specific_bits)))
  | Some CT_FRAME =>
      if memory_size_bits =? 0 then mret (Err CE_INVALID_ARGUMENT, g)
      else
        allocate_and g memory_size_bits (make_frame_capability memory_size_bits target_slot)
  | Some CT_PROCESS_CONTROL_BLOCK => allocate_and g memory_size_bits (λ _, make_pcb_capability target_slot)
  | Some CT_IPC_PORT => allocate_and g memory_size_bits (λ _, make_ipc_port_capability target_slot)
  | Some CT_NOTIFICATION_PORT => allocate_and g memory_size_bits (λ _, make_notification_port_capability target_slot)
  | Some CT_INTERRUPT_REGION | Some CT_INTERRUPT_PORT | Some CT_IO_PORT =>
      mret (Err CE_INVALID_ARGUMENT, g)
  | Some CT_VIRTUAL_CPU => allocate_and g memory_size_bits (λ _, make_virtual_cpu_capability target_slot)
  | Some CT_DEBUG | Some CT_VIRTUAL_ADDRESS_SPACE | Some CT_VIRTUAL_PAGE_TABLE | None =>
      mret (Err CE_DEBUG_UNIMPLEMENTED, g)
  end.

(** ** Operations *)

Definition retrieve_target_root_slot (owner : Z) : M capability_lookup_result :=
  let? descriptor := map_error (λ _, LE_UNEXPECTED)
                       (get_message_register owner GENERIC_ROOT_DESCRIPTOR) in
  traverse_root owner descriptor.

Section convert.
(** [try_remove_and_init] of Reclamation.v. *)
Context (remove_slot : slot_ref → M kernel_result).

(** The body of the loop of [convert]: one object in slot [index] of the Node. *)
Definition convert_one (t : option capability_type) (memory_size_bits specific_bits : Z)
    (g : generic_info) (self : slot_ref) (root : component_ref) (index : Z)
    : M (capability_result * generic_info) :=
  r ← retrieve_slot root index;
  match r with
  | Err e => mret (Err (convert_lookup_error e), g)
  | Ok destination_slot =>
      dv ← load slots destination_slot;
      if decide (type dv ≠ CT_NONE) then mret (Err CE_INVALID_ARGUMENT, g)
      else
        removed ← remove_slot destination_slot;
        match removed with
        | Err _ => mret (Err CE_FATAL, g)
        | Ok _ =>
            rg ← try_make_capability t memory_size_bits specific_bits g self destination_slot;
            match fst rg with
            | Err e => mret (Err e, snd rg)
            | Ok _ =>
                modify slots self (λ v, v <| data := dump_slot_data (snd rg) |>);;
                insert_child self destination_slot;;
                mret (Ok tt, snd rg)
            end
        end
  end.

(** [i] is an [int]: its increment beyond 2^31 - 1 is undefined. *)
Definition increment_int (i : Z) : option Z := if i =? 2 ^ 31 - 1 then None else Some (i + 1).

(** [for (auto i = 0; i < count; i++)], with [turns] turns left. *)
Fixpoint convert_loop (t : option capability_type) (memory_size_bits specific_bits : Z)
    (g : generic_info) (self : slot_ref) (root : component_ref) (index i : Z) (turns : nat)
    : M capability_result :=
  match turns with
  | O => ok
  | S turns' =>
      rg ← convert_one t memory_size_bits specific_bits g self root (wadd index i);
      match fst rg with
      | Err e => fail e
      | Ok _ =>
          i' ← defined (increment_int i);
          convert_loop t memory_size_bits specific_bits (snd rg) self root index i' turns'
      end
  end.

(** [convert], once the Node and the arguments are known. *)
Definition convert_into (self : slot_ref) (root : component_ref)
    (g : generic_info) (type_raw specific_bits count index : Z) : M capability_result :=
  if count =? 0 then fail CE_INVALID_ARGUMENT
  else
    let t := capability_type_of_word type_raw in
    if device g && negb (bool_decide (t = Some CT_FRAME)) && negb (bool_decide (t = Some CT_GENERIC))
    then fail CE_INVALID_ARGUMENT
    else
      memory_size_bits_option ← defined (calculate_capability_memory_size_bits t specific_bits);
      match memory_size_bits_option with
      | None => fail CE_INVALID_ARGUMENT
      | Some memory_size_bits =>
          allocatable ← defined (is_allocatable g memory_size_bits count);
          if negb (allocatable : bool) then fail CE_ILLEGAL_OPERATION
          else convert_loop t memory_size_bits specific_bits g self root index 0 (Z.to_nat count)
      end.

Definition convert (owner : Z) (self : slot_ref) : M capability_result :=
  sv ← load slots self;
  if negb (has_rights (rights sv) RIGHTS_READ_WRITE) then fail CE_PERMISSION_DENIED
  else
    let? root_slot := map_error convert_lookup_error (retrieve_target_root_slot owner) in
    rv ← load slots root_slot;
    match type rv, component rv with
    | CT_NODE, Some root =>
        if negb (has_rights (rights rv) RIGHTS_READ_WRITE) then fail CE_PERMISSION_DENIED
        else
          sv ← load slots self;
          let self_info := create_generic_info (data sv) in
          let argument i := map_error (λ _, CE_FATAL) (get_message_register owner i) in
          let? type_raw := argument GENERIC_CAPABILITY_TYPE in
          let? specific_bits := argument GENERIC_CAPABILITY_SPECIFIC_BITS in
          let? count := argument GENERIC_CAPABILITY_COUNT in
          let? index := argument GENERIC_SLOT_INDEX in
          convert_into self root self_info type_raw specific_bits count index
    | _, _ => fail CE_INVALID_DESCRIPTOR
    end.

Definition generic_execute (owner : Z) (self : slot_ref) : M capability_result :=
  operation ← message_or_0 owner GENERIC_OPERATION_TYPE;
  if operation =? OPERATION_CONVERT then convert owner self else fail CE_ILLEGAL_OPERATION.
End convert.

Definition generic_revoke (self : slot_ref) : M capability_result :=
  child ← has_child self;
  if (child : bool) then fail CE_ILLEGAL_OPERATION
  else
    modify slots self
      (λ v, v <| data := dump_slot_data (reset_watermark (create_generic_info (data v))) |>);;
    ok.

End generic.
