(* ===== verification/Pcb.v ===== *)
(** Process Control Blocks and the stopping of processes:
    src/src/kernel/capability/process_control_block.cpp,
    src/src/kernel/process/reclamation.cpp and the service of stop requests by a
    core that waits for the giant lock (src/src/kernel/process/lock.cpp).

    [this] names the block and the process embedded in it, [owner] the invoking
    process. *)

From S2P Require Import Prelude Word Types Dll Kernel Slot Scheduler Hal ProcessManager Node.
From S2P Require Import Memory Queues Notification IpcPort.

Section process_control_block.
Context `{config}.

(** ** reclamation.cpp *)

(** [m], run by core [c]. *)
Definition on_core {A} (c : Z) (m : M A) : M A :=
  previous ← reads current_core;
  updates (λ k, k <| current_core := c |>);;
  a ← m;
  updates (λ k, k <| current_core := previous |>);;
  mret a.

(** [if (cpu.pending_reschedule_target == target) ... = nullptr]. *)
Definition forget_reschedule_target (c : Z) (target : option Z) : M unit :=
  modify cpu_local_variables c
    (λ v, if decide (pending_reschedule_target v = target)
          then v <| pending_reschedule_target := None |> else v).

(** What a core does, while it waits for the giant lock, about a request to stop
    the process it runs. *)
Definition service_pending_stop_request (entry : kernel_entry_type) : M unit :=
  local_result ← current_local_variable;
  match local_result with
  | Err _ => mret tt
  | Ok current_cpu =>
      cpu ← load cpu_local_variables current_cpu;
      request ← load stop_requests (core_number cpu);
      match stop_request_state request with
      | STOP_PENDING =>
          let target := stop_target request in
          completion_state ←
            (if bool_decide (current_process cpu = target) && negb (is_idle cpu) then
               switch_result ← switch_to_idle current_cpu;
               if negb (is_ok switch_result) then mret STOP_FAILED
               else
                 (if decide (entry = ENTRY_TYPE_SYSCALL)
                  then t ← defined target; restart_syscall t
                  else mret tt);;
                 mret STOP_STOPPED
             else mret STOP_STOPPED);
          forget_reschedule_target current_cpu target;;
          modify stop_requests (core_number cpu) (λ r, r <| stop_request_state := completion_state |>)
      | _ => mret tt
      end
  end.

(** The requester spins, holding the giant lock, so that all the other core can
    do is enter the kernel, wait for the lock and service the request.  A core
    that never enters leaves the requester spinning. *)
Definition wait_for_stop_completion (core : Z) : M stop_state :=
  match remote_entry core with
  | None => out_of_fuel
  | Some entry =>
      on_core core (service_pending_stop_request entry);;
      request ← load stop_requests core;
      match stop_request_state request with
      | STOP_PENDING => out_of_fuel
      | s => mret s
      end
  end.

Definition stop_process_for_reclamation (target : Z) : M kernel_result :=
  tp ← load processes target;
  if CPU_COUNT_MAX <=? core_affinity tp then fail KE_ILLEGAL_ARGUMENT
  else
    let? current_cpu := map_error convert_hal_to_kernel_error current_local_variable in
    let target_cpu := core_affinity tp in
    let? _ := mark_suspended target_cpu target in
    forget_reschedule_target target_cpu (Some target);;
    tc ← load cpu_local_variables target_cpu;
    if negb (bool_decide (current_process tc = Some target)) || is_idle tc then ok
    else
      cc ← load cpu_local_variables current_cpu;
      if core_number tc =? core_number cc then switch_to_idle target_cpu
      else if SMP_ENABLED then
        let? _ := map_error convert_hal_to_kernel_error (send_ipi IPI_RESCHEDULE (core_number tc)) in
        modify stop_requests (core_number tc)
          (λ r, r <| stop_target := Some target |> <| stop_request_state := STOP_PENDING |>);;
        completion_state ← wait_for_stop_completion (core_number tc);
        modify stop_requests (core_number tc) (λ r, r <| stop_request_state := STOP_IDLE |>);;
        match completion_state with
        | STOP_STOPPED => ok
        | _ => fail KE_UNEXPECTED
        end
      else fail KE_UNEXPECTED.

(** ** process_control_block.cpp *)

Definition is_running_on_assigned_core (target : Z) : M bool :=
  tp ← load processes target;
  cpu ← load cpu_local_variables (core_affinity tp);
  mret (bool_decide (current_process cpu = Some target) && negb (is_idle cpu)).

Definition clear_fault (target : Z) : M unit :=
  modify processes target
    (λ p, p <| fault_reason := FT_NONE |> <| fault_code := 0 |> <| arch_fault_code := 0 |>
            <| fault_address := 0 |>).

(** [operation_index] and [operation_configure_index] *)
Definition PCB_OPERATION_TYPE : Z := 1.
Definition PCB_CONFIGURATION_INFO : Z := 2.
Definition PCB_ADDRESS_SPACE_DESCRIPTOR : Z := 3.
Definition PCB_ROOT_NODE_DESCRIPTOR : Z := 4.
Definition PCB_FRAME_IPC_BUFFER_DESCRIPTOR : Z := 5.
Definition PCB_NOTIFICATION_PORT_DESCRIPTOR : Z := 6.
Definition PCB_IPC_PORT_RESOLVER : Z := 7.
Definition PCB_INSTRUCTION_POINTER : Z := 8.
Definition PCB_STACK_POINTER : Z := 9.
Definition PCB_THREAD_LOCAL_BASE : Z := 10.
Definition PCB_PRIORITY : Z := 11.
Definition PCB_AFFINITY : Z := 12.
Definition PCB_REGISTER_COUNT : Z := 2.
Definition PCB_REGISTER : Z := 3.

(** [configuration_info::contains]: bit [n] of the selection word. *)
Definition configuration_contains (flags n : Z) : bool := negb (Z.land flags (Z.shiftl 1 n) =? 0).

Definition lookup_invalid_descriptor (e : capability_lookup_error) : capability_error :=
  CE_INVALID_DESCRIPTOR.

Section reclamation.
(** [try_remove_and_init] of Reclamation.v. *)
Context (remove_slot : slot_ref → M kernel_result).

(** [process_core.slot.try_remove_and_init()], every failure being FATAL. *)
Definition clear_process_slot (this : Z) (member : process_slot) : M capability_result :=
  map_error (λ _, CE_FATAL) (remove_slot (process_slot_ref this member)).

Definition copy_to_process_slot_error (e : kernel_error) : capability_error :=
  match e with
  | KE_INIT_FIRST => CE_INVALID_DESCRIPTOR
  | KE_PERMISSION_DENIED => CE_PERMISSION_DENIED
  | _ => CE_INVALID_ARGUMENT
  end.

Definition configure_address_space (this owner descriptor : Z) : M capability_result :=
  let? slot := map_error lookup_invalid_descriptor (traverse_root owner descriptor) in
  sv ← load slots slot;
  if decide (type sv ≠ CT_ADDRESS_SPACE) then fail CE_INVALID_DESCRIPTOR
  else
    let? _ := clear_process_slot this ROOT_ADDRESS_SPACE in
    map_error copy_to_process_slot_error
      (try_copy_capability_slot (process_slot_ref this ROOT_ADDRESS_SPACE) slot).

Definition configure_root_node (this owner descriptor : Z) : M capability_result :=
  let? slot := map_error lookup_invalid_descriptor (traverse_root owner descriptor) in
  sv ← load slots slot;
  if decide (type sv ≠ CT_NODE) then fail CE_INVALID_DESCRIPTOR
  else
    let? _ := clear_process_slot this ROOT_SLOT in
    map_error convert_kernel_to_capability_error
      (try_copy_capability_slot (process_slot_ref this ROOT_SLOT) slot).

Definition configure_frame_ipc_buffer (this owner descriptor : Z) : M capability_result :=
  let? slot := map_error lookup_invalid_descriptor (traverse_root owner descriptor) in
  sv ← load slots slot;
  if decide (type sv ≠ CT_FRAME) then fail CE_INVALID_DESCRIPTOR
  else
    let? _ := clear_process_slot this BUFFER_FRAME in
    sv ← load slots slot;
    let target_frame := convert_slot_data_to_frame (data sv) in
    let? _ := map_error convert_kernel_to_capability_error
                (try_copy_capability_slot (process_slot_ref this BUFFER_FRAME) slot) in
    modify processes this
      (λ p, p <| buffer := Some (physical_to_virtual_address (frame_address target_frame)) |>);;
    ok.

(** The Notification Port of a slot of that type: an unchecked downcast. *)
Definition slot_notification_port (sv : capability_slot) : M (option Z) :=
  match type sv, component sv with
  | CT_NOTIFICATION_PORT, Some (C_NOTIFICATION_PORT p) => mret (Some p)
  | CT_NOTIFICATION_PORT, Some _ => undefined
  | _, _ => mret None
  end.

(** Undo the binding of the process to its Notification Port, if it has one. *)
Definition unbind_notification_port (this : Z) : M unit :=
  bv ← load slots (process_slot_ref this BINDED_NOTIFICATION_PORT);
  old ← slot_notification_port bv;
  match old with
  | Some old_port => unbind_process old_port this;; mret tt
  | None => mret tt
  end.

Definition configure_notification_port (this owner descriptor : Z) : M capability_result :=
  let? slot := map_error lookup_invalid_descriptor (traverse_root owner descriptor) in
  sv ← load slots slot;
  target ← slot_notification_port sv;
  match target with
  | None => fail CE_INVALID_DESCRIPTOR
  | Some target_notification_port =>
      unbind_notification_port this;;
      let? _ := clear_process_slot this BINDED_NOTIFICATION_PORT in
      let? _ := map_error convert_kernel_to_capability_error
                  (bind_process target_notification_port this) in
      map_error convert_kernel_to_capability_error
        (try_copy_capability_slot (process_slot_ref this BINDED_NOTIFICATION_PORT) slot)
  end.

Definition configure_ipc_port_resolver (this owner descriptor : Z) : M capability_result :=
  let? slot := map_error lookup_invalid_descriptor (traverse_root owner descriptor) in
  sv ← load slots slot;
  if decide (type sv ≠ CT_IPC_PORT) then fail CE_INVALID_DESCRIPTOR
  else
    let? _ := clear_process_slot this RESOLVER_PORT in
    map_error convert_kernel_to_capability_error
      (try_copy_capability_slot (process_slot_ref this RESOLVER_PORT) slot).

(** [get_message_register], every failure being FATAL. *)
Definition argument (owner index : Z) : M (result Z capability_error) :=
  map_error (λ _, CE_FATAL) (get_message_register owner index).

(** [capability_configurations]: bit, message register, function. *)
Definition capability_configurations : list (Z * Z * (Z → Z → Z → M capability_result)) :=
  [(0, PCB_ADDRESS_SPACE_DESCRIPTOR, configure_address_space);
   (1, PCB_ROOT_NODE_DESCRIPTOR, configure_root_node);
   (2, PCB_FRAME_IPC_BUFFER_DESCRIPTOR, configure_frame_ipc_buffer);
   (3, PCB_NOTIFICATION_PORT_DESCRIPTOR, configure_notification_port);
   (4, PCB_IPC_PORT_RESOLVER, configure_ipc_port_resolver)].

Fixpoint configure_capabilities (l : list (Z * Z * (Z → Z → Z → M capability_result)))
    (this owner flags : Z) : M capability_result :=
  match l with
  | [] => ok
  | (bit, index, configure) :: l' =>
      let? _ := (if configuration_contains flags bit
                 then let? descriptor := argument owner index in configure this owner descriptor
                 else ok) in
      configure_capabilities l' this owner flags
  end.

(** [register_configurations]: bit, message register, register, error. *)
Definition register_configurations : list (Z * Z * register_type * capability_error) :=
  [(5, PCB_INSTRUCTION_POINTER, RT_INSTRUCTION_POINTER, CE_ILLEGAL_OPERATION);
   (6, PCB_STACK_POINTER, RT_STACK_POINTER, CE_ILLEGAL_OPERATION);
   (7, PCB_THREAD_LOCAL_BASE, RT_THREAD_LOCAL_BASE, CE_FATAL)].

Definition configure_register (this owner index : Z) (r : register_type)
    (invalid_address_error : capability_error) : M capability_result :=
  let? register_value := argument owner index in
  if negb (is_valid_user_address register_value) then fail invalid_address_error
  else map_error (λ _, CE_FATAL) (configure_general_register this r register_value).

Fixpoint configure_registers (l : list (Z * Z * register_type * capability_error))
    (this owner flags : Z) : M capability_result :=
  match l with
  | [] => ok
  | (bit, index, r, e) :: l' =>
      let? _ := (if configuration_contains flags bit then configure_register this owner index r e
                 else ok) in
      configure_registers l' this owner flags
  end.

Definition configure_priority (this owner : Z) : M capability_result :=
  let? new_priority := argument owner PCB_PRIORITY in
  if PRIORITY_MAX <=? new_priority then fail CE_INVALID_ARGUMENT
  else modify processes this (λ p, p <| priority := new_priority |>);; ok.

Definition configure_affinity (this owner : Z) : M capability_result :=
  let? new_affinity := argument owner PCB_AFFINITY in
  if core_count <=? new_affinity then fail CE_INVALID_ARGUMENT
  else
    tp ← load processes this;
    let? _ :=
      (if new_affinity =? core_affinity tp then ok
       else if decide (status tp = PS_READY) then fail CE_INVALID_ARGUMENT
       else running ← is_running_on_assigned_core this;
            if (running : bool) then fail CE_INVALID_ARGUMENT else ok) in
    modify processes this (λ p, p <| core_affinity := new_affinity |>);; ok.

Definition pcb_operation_configure (this owner : Z) : M capability_result :=
  let? flags := argument owner PCB_CONFIGURATION_INFO in
  let? _ := configure_capabilities capability_configurations this owner flags in
  let? _ := configure_registers register_configurations this owner flags in
  let? _ := (if configuration_contains flags 8 then configure_priority this owner else ok) in
  if configuration_contains flags 9 then configure_affinity this owner else ok.

(** [for (i = 0; i < register_count; i++)] of READ_REGISTER and WRITE_REGISTER. *)
Fixpoint read_registers_loop (this owner i : Z) (count : nat) : M capability_result :=
  match count with
  | O => ok
  | S count' =>
      tp ← load processes this;
      v ← defined (get_register (registers tp) i);
      let? _ := map_error (λ _, CE_FATAL) (configure_message_register owner (i + PCB_REGISTER) v) in
      read_registers_loop this owner (i + 1) count'
  end.
Fixpoint write_registers_loop (this owner i : Z) (count : nat) : M capability_result :=
  match count with
  | O => ok
  | S count' =>
      let? value := argument owner (i + PCB_REGISTER) in
      modify processes this (λ p, p <| registers ::= set_register i value |>);;
      write_registers_loop this owner (i + 1) count'
  end.

Definition pcb_operation_read_register (this owner : Z) : M capability_result :=
  let? register_count := map_error hal_to_capability_error
                           (get_message_register owner PCB_REGISTER_COUNT) in
  if HARDWARE_CONTEXT_SIZE <? register_count then fail CE_INVALID_ARGUMENT
  else read_registers_loop this owner 0 (Z.to_nat register_count).

Definition pcb_operation_write_register (this owner : Z) : M capability_result :=
  let? register_count := map_error hal_to_capability_error
                           (get_message_register owner PCB_REGISTER_COUNT) in
  if HARDWARE_CONTEXT_SIZE <? register_count then fail CE_INVALID_ARGUMENT
  else write_registers_loop this owner 0 (Z.to_nat register_count).

Definition detach_from_wait_queues (this : Z) : M capability_result :=
  tp ← load processes this;
  let? _ := match current_ipc_port tp with
            | Some port => map_error convert_kernel_to_capability_error (remove_ipc_queue port this)
            | None => ok
            end in
  tp ← load processes this;
  match current_notification_port tp with
  | Some port => map_error convert_kernel_to_capability_error (remove_notification_queue port this)
  | None => ok
  end.

Definition cancel_own_wait (this : Z) : M capability_result :=
  let? _ := detach_from_wait_queues this in cancel_reply this DETACH_ONLY.

Definition pcb_operation_resume (this owner : Z) : M capability_result :=
  running ← is_running_on_assigned_core this;
  if (running : bool) then fail CE_INVALID_ARGUMENT
  else
    let? _ := cancel_own_wait this in
    clear_fault this;;
    modify processes this (λ p, p <| status := PS_READY |>);;
    map_error convert_kernel_to_capability_error (mark_scheduled owner this).

(** The process waits for an answer to one of its own invocations. *)
Definition is_native_wait (p : process) : bool :=
  bool_decide (fault_reason p = FT_NONE) &&
  (bool_decide (is_Some (current_ipc_port p)) || bool_decide (is_Some (current_notification_port p))
   || bool_decide (source_reply_state p = SR_WAIT) || bool_decide (status p = PS_BLOCKED_SEND)
   || bool_decide (status p = PS_BLOCKED_RECEIVE) || bool_decide (status p = PS_BLOCKED_REPLY)
   || bool_decide (status p = PS_BLOCKED_WAIT)).

Definition pcb_operation_suspend (this : Z) : M capability_result :=
  tp ← load processes this;
  let fault := fault_reason tp in
  let native_wait := is_native_wait tp in
  let? _ := map_error convert_kernel_to_capability_error (stop_process_for_reclamation this) in
  let? _ :=
    (if native_wait then
       let? _ := map_error (λ _, CE_FATAL) (configure_message_register this RESULT_IS_SUCCESS 0) in
       map_error (λ _, CE_FATAL)
         (configure_message_register this RESULT_ERROR_CODE
            (capability_error_word CE_ILLEGAL_OPERATION))
     else ok) in
  let? _ := cancel_own_wait this in
  (if decide (fault = FT_INVALID_KERNEL_CALL) then restart_syscall this else mret tt);;
  clear_fault this;;
  ok.

Definition pcb_execute (this owner : Z) : M capability_result :=
  operation ← message_or_0 owner PCB_OPERATION_TYPE;
  match operation with
  | 1 => pcb_operation_configure this owner
  | 2 => pcb_operation_read_register this owner
  | 3 => pcb_operation_write_register this owner
  | 4 => pcb_operation_resume this owner
  | 5 => pcb_operation_suspend this
  | _ => fail CE_ILLEGAL_OPERATION
  end.

(** The loop over [owned_slots] of [revoke]. *)
Fixpoint release_slots (this : Z) (l : list process_slot) : M capability_result :=
  match l with
  | [] => ok
  | member :: l' =>
      remove_result ← remove_slot (process_slot_ref this member);
      (if decide (member = BUFFER_FRAME)
       then modify processes this (λ p, p <| buffer := None |>) else mret tt);;
      match remove_result with
      | Err e => fail (convert_kernel_to_capability_error e)
      | Ok _ => release_slots this l'
      end
  end.

Definition pcb_revoke (this : Z) : M capability_result :=
  let? _ := map_error convert_kernel_to_capability_error (stop_process_for_reclamation this) in
  let? _ := detach_from_wait_queues this in
  tp ← load processes this;
  let? _ := match destination_reply_target tp with
            | Some caller => cancel_reply caller RESUME_WITH_ERROR
            | None => ok
            end in
  let? _ := cancel_reply this DETACH_ONLY in
  let? _ := release_slots this [ROOT_SLOT; ROOT_ADDRESS_SPACE; BUFFER_FRAME; RESOLVER_PORT] in
  modify processes this
    (λ p, p <| registers := fst (init_hardware_context CM_USER) |>
            <| floating_registers := initial_floating_context |>);;
  unbind_notification_port this;;
  map_error convert_kernel_to_capability_error
    (remove_slot (process_slot_ref this BINDED_NOTIFICATION_PORT)).

End reclamation.
End process_control_block.
