(* ===== verification/PcbProofs.v ===== *)
(** Correctness of stopping a process (Pcb.v), and what changing the priority of a
    ready process does to the scheduler. *)

From S2P Require Import Prelude Word Types Dll Kernel Scheduler SchedulerProofs Hal ProcessManager.
From S2P Require Import ProcessManagerProofs Pcb.

(** ** Suspension *)

Definition without (t : Z) (qs : ready_queues) : ready_queues := λ i, filter (λ x, x ≠ t) (qs i).

Lemma filter_absent (t : Z) (l : list Z) : t ∉ l → filter (λ x, x ≠ t) l = l.
Proof.
  intros Ht. induction l as [|x l IH]; [done|]. rewrite filter_cons_True by set_solver.
  rewrite IH; [done|set_solver].
Qed.

Lemma without_absent t qs i : t ∉ qs i → without t qs i = qs i.
Proof. apply filter_absent. Qed.

Lemma sched_repr_ext s ps qs qs' : (∀ i, qs' i = qs i) → sched_repr s ps qs → sched_repr s ps qs'.
Proof. intros He [H1 H2 H3 H4 H5 H6]. split; intros *; rewrite ?He; eauto. Qed.

Lemma sched_inv_ext c k qs qs' : (∀ i, qs' i = qs i) → sched_inv c k qs → sched_inv c k qs'.
Proof. intros He (cpu & Hc & Hr). exists cpu. split; [done|]. by eapply sched_repr_ext. Qed.

(** Removing [t] from the queue it is in leaves [without t qs]. *)
Lemma removed_without c k qs i l1 t l2 :
  sched_inv c k qs → qs i = l1 ++ t :: l2 →
  ∀ j, without t qs j = update_queue i (l1 ++ l2) qs j.
Proof.
  intros (cpu & Hc & Hr) Hq j. unfold update_queue. case_decide as Hj.
  - subst. unfold without. rewrite Hq, filter_app, filter_cons_False by (by intros []).
    pose proof (queued_fresh _ _ _ _ _ _ _ Hr Hq). rewrite !filter_absent by set_solver. done.
  - apply without_absent. intros Ht. apply Hj. eapply queued_unique; [exact Hr|done|].
    rewrite Hq. set_solver.
Qed.

(** [t] is suspended and in no ready queue; the queues of the core are [qs']. *)
Record suspended (c t : Z) (v : process) (qs' : ready_queues) (k k' : kernel) : Prop := {
  susp_process : ∃ v', processes k' !! t = Some v' ∧ status v' = PS_BLOCKED_SUSPEND ∧
                   is_in_ready_queue v' = false ∧ next v' = None ∧ preview v' = None;
  susp_queues : sched_inv c k' qs';
  susp_frame : ∃ s ps, k' = with_sched c s ps k ∧
    (ready_core <$> ps) = <[t := ready_core (v <| status := PS_BLOCKED_SUSPEND |>)]> (ready_core <$> processes k);
}.

Lemma mark_suspended_spec c k qs t v :
  is_Some (cpu_local_variables k !! c) → sched_inv c k qs → processes k !! t = Some v →
  sched_consistent qs t v →
  wp (mark_suspended c t) (λ r k', r = Ok tt ∧ suspended c t v (without t qs) k k') k.
Proof.
  intros Hcpu Hinv Hv Hcons. unfold mark_suspended. wp_head.
  eapply wp_mono; [|by apply remove_process_spec].
  intros r k1 [(i & -> & l1 & l2 & Hq & (s & ps & -> & Hr & [Hf _] & (v1 & Hv1 & Hflag & Hn & Hp)))|(Hno & -> & ->)].
  - wp_steps. split; [done|].
    assert (Hinv1 : sched_inv c (with_sched c s ps k) (without t qs)).
    { eapply sched_inv_ext; [by eapply removed_without|]. by apply sched_inv_with. }
    split.
    + eexists. split; [lookup_solve|]. done.
    + eapply sched_inv_insert; [done|done|by right].
    + exists s, (<[t := v1 <| status := PS_BLOCKED_SUSPEND |>]> ps). split; [done|].
      rewrite fmap_insert, Hf. f_equal.
      apply (f_equal (.!! t)) in Hf. rewrite !lookup_fmap, Hv, Hv1 in Hf.
      change (Some (ready_core v1) = Some (ready_core v)) in Hf.
      change ((ready_core v1) <| status := PS_BLOCKED_SUSPEND |> = (ready_core v) <| status := PS_BLOCKED_SUSPEND |>).
      assert (ready_core v1 = ready_core v) as -> by congruence. done.
  - wp_steps. split; [done|]. unfold sched_consistent in Hcons.
    destruct (is_in_ready_queue v) eqn:Hflag; [by destruct Hcons as [i ?%Hno]|]. destruct Hcons as [Hn Hp].
    split.
    + eexists. split; [lookup_solve|]. done.
    + eapply sched_inv_insert; [|done|by right]. eapply sched_inv_ext; [|done].
      intros i. by apply without_absent.
    + destruct Hinv as (cpu & Hc & Hr).
      exists (scheduler_core (process_manager_core cpu)), (<[t := v <| status := PS_BLOCKED_SUSPEND |>]> (processes k)).
      split; [|by rewrite fmap_insert]. rewrite (with_sched_id c k cpu Hc) at 1. by destruct k.
Qed.

(** ** Stopping a process *)

Lemma on_cpu_with_sched c s ps k cpu hc current :
  on_cpu c k cpu hc current →
  on_cpu c (with_sched c s ps k) (cpu <| process_manager_core ::= λ pm, pm <| scheduler_core := s |> |>) hc current.
Proof. intros [H1 H2 H3 H4 H5]. split; [by apply with_sched_cpu|done..]. Qed.

(** The other processes after a suspension. *)
Lemma suspended_other t w (ps1 ps : gmap Z process) q u :
  ready_core <$> ps1 = <[t := w]> (ready_core <$> ps) → q ≠ t → ps !! q = Some u →
  ∃ u1, ps1 !! q = Some u1 ∧ ready_core u1 = ready_core u.
Proof.
  intros He Hne Hu. apply (f_equal (.!! q)) in He.
  rewrite lookup_insert_ne, !lookup_fmap, Hu in He by congruence.
  destruct (ps1 !! q) as [u1|]; [|done]. exists u1. split; [done|].
  change (Some (ready_core u1) = Some (ready_core u)) in He. congruence.
Qed.

Lemma forget_reschedule_target_spec c k cpu hc current target Q :
  on_cpu c k cpu hc current →
  (∀ cpu', on_cpu c (k <| cpu_local_variables ::= <[c := cpu']> |>) cpu' hc current →
     process_manager_core cpu' = process_manager_core cpu → is_idle cpu' = is_idle cpu →
     Q tt (k <| cpu_local_variables ::= <[c := cpu']> |>)) →
  wp (forget_reschedule_target c target) Q k.
Proof.
  intros [H1 H2 H3 H4 H5] HQ. unfold forget_reschedule_target. wp_steps.
  apply HQ; [|by case_decide..]. split; [apply lookup_insert_eq|by case_decide|done..].
Qed.

(** Stopping a process on its core succeeds: the process is suspended and in no
    ready queue, the other ready processes keep their places, and when it was
    running the processor goes to the IDLE process; otherwise it stays with the
    process that runs. *)
Theorem stop_process_stops `{config} k t v qs cpu hc current iv root fs gs :
  one_core → processes k !! t = Some v → 0 ≤ core_affinity v < CPU_COUNT_MAX →
  let c := core_affinity v in
  on_cpu c k cpu hc current → is_Some (processes k !! current) → sched_inv c k qs → sched_consistent qs t v →
  t ≠ idle_process (process_manager_core cpu) →
  runnable k (idle_process (process_manager_core cpu)) iv root fs gs →
  wp (stop_process_for_reclamation t)
     (λ r k', r = Ok tt ∧
        (∃ v', processes k' !! t = Some v' ∧ status v' = PS_BLOCKED_SUSPEND) ∧
        sched_inv c k' (without t qs) ∧
        ∃ cpu' hc' current', on_cpu c k' cpu' hc' current' ∧
          (current' ≠ t ∨ is_idle cpu' = true) ∧ (current ≠ t → current' = current)) k.
Proof.
  intros Hone Hv Haff c Hon [pv Hpv] Hinv Hcons Hidle Hrun.
  unfold stop_process_for_reclamation. wp_steps. rewrite (proj2 (Z.leb_gt _ _)) by lia.
  assert (Hc : core_affinity v = c) by done. clearbody c. rewrite Hc.
  wp_head. wp_head. eapply current_local_variable_spec; [done|]. cbn [transform_error]. wp_head.
  eapply wp_mono; [|eapply mark_suspended_spec; [by destruct Hon; eexists|done..]].
  intros r k1 [-> [(v1 & Hv1 & Hs1 & _) Hinv1 (s1 & ps1 & Hk1 & Hps1)]]. wp_head.
  assert (Hon1 := on_cpu_with_sched _ s1 ps1 _ _ _ _ Hon). rewrite <- Hk1 in Hon1.
  eapply forget_reschedule_target_spec; [exact Hon1|]. intros cpu2 Hon2 Hpm Hi2.
  set (k2 := k1 <| cpu_local_variables ::= _ |>) in *.
  assert (Hinv2 : sched_inv c k2 (without t qs)).
  { destruct Hinv1 as (cpu1 & Hc1 & Hr1). destruct Hon1 as [Hc1' _ _ _ _].
    rewrite Hc1 in Hc1'. injection Hc1' as ->.
    exists cpu2. split; [apply lookup_insert_eq|]. by rewrite Hpm. }
  assert (Hps2 : processes k2 = ps1) by (unfold k2; by rewrite Hk1).
  assert (Hv2 : ∃ v', processes k2 !! t = Some v' ∧ status v' = PS_BLOCKED_SUSPEND) by eauto.
  pose proof Hon2 as [Hcpu2 Hcur2 _ _ _]. wp_step. eapply wp_load; [exact Hcpu2|]. rewrite Hcur2.
  destruct (bool_decide (Some current = Some t) && negb (is_idle cpu2)) eqn:Hrunning; cycle 1.
  { assert (negb (bool_decide (Some current = Some t)) || is_idle cpu2 = true) as ->
      by (by destruct (bool_decide _), (is_idle cpu2)). wp_steps.
    split_and!; [done|done|done|]. exists cpu2, hc, current. split_and!; [done| |done].
    apply andb_false_iff in Hrunning as [Hne%bool_decide_eq_false|Hb]; [left; congruence|right].
    by destruct (is_idle cpu2). }
  apply andb_true_iff in Hrunning as [Hcurt%bool_decide_eq_true Hnotidle]. injection Hcurt as ->.
  rewrite bool_decide_eq_true_2, (proj1 (negb_true_iff _) Hnotidle) by done. cbn [negb orb].
  wp_step. eapply wp_load; [exact Hcpu2|]. rewrite Z.eqb_refl.
  assert (Hrun2 : ∃ iv2, runnable k2 (idle_process (process_manager_core cpu2)) iv2 root fs gs).
  { rewrite Hpm. ksimpl_goal. destruct Hrun as [R1 R2 R3 R4 R5].
    destruct (suspended_other _ _ _ _ _ _ Hps1 (not_eq_sym Hidle) R1) as (iv2 & Hiv2 & Hiv).
    pose proof (f_equal registers Hiv) as Hregs. change (registers iv2 = registers iv) in Hregs.
    exists iv2. split; [by rewrite Hps2|by rewrite Hregs..|by unfold k2; rewrite Hk1|done]. }
  destruct Hrun2 as [iv2 Hrun2].
  eapply wp_mono; [|eapply (switch_to_idle_spec Hone c k2); [exact Hon2| |exact Hinv2|exact Hrun2]];
    [|by destruct Hv2 as (? & ? & _); eexists].
  rewrite (proj1 (negb_true_iff _) Hnotidle).
  intros r k' [-> [D1 (cpu' & hc' & D2 & D3 & _) D4 D5]]. split_and!; [done| |done|].
  - destruct Hv2 as (v2 & Hv2 & Hst2).
    apply (f_equal (.!! t)) in D4. rewrite !lookup_fmap, Hv2 in D4.
    destruct (processes k' !! t) as [v'|]; [|done]. exists v'. split; [done|].
    change (Some (context_core v') = Some (context_core v2)) in D4.
    assert (Heq : context_core v' = context_core v2) by congruence. rewrite <- Hst2.
    exact (f_equal status Heq).
  - exists cpu', hc', (idle_process (process_manager_core cpu2)). split_and!; [done|by right|done].
Qed.

(** ** Changing the priority of a ready process *)

Section schedule.
Context (c : Z) (k : kernel) (Hc : is_Some (cpu_local_variables k !! c)).
Context (s : scheduler) (ps : gmap Z process) (qs : ready_queues) (h : Z).
(** [s] with some bound of the ready priorities represents [qs]; [s] itself may not. *)
Hypothesis (Hr : sched_repr (s <| highest_priority := h |>) ps qs).

(** The loop takes the first process of the highest queue it looks at. *)
Lemma schedule_loop_unbounded ps' turns Q :
  Z.of_nat turns ≤ PRIORITY_MAX →
  match highest_ready qs turns with
  | Some (i, p, l) => wp (schedule_take c i p) Q (with_sched c s ps' k)
  | None => Q (Err SE_PROCESS_NOT_IN_QUEUE) (with_sched c s ps' k)
  end →
  wp (schedule_loop c turns) Q (with_sched c s ps' k).
Proof.
  induction turns as [|turns IH]; intros Hmax HQ; cbn [schedule_loop highest_ready] in *; [by apply wp_ret|].
  sched_step. eapply wp_read_queue; [done|apply (repr_queue _ _ _ Hr); lia|]. ksimpl_goal.
  destruct (qs (Z.of_nat turns)) as [|p l]; cbn [head]; [apply IH; [lia|done]|done].
Qed.

(** Taking the head [t] of a queue, whose process changed from [v] to [w] but not
    in its links. *)
Lemma schedule_take_unbounded i t l v w Q :
  qs i = t :: l → ps !! t = Some v → next w = next v →
  (∀ s' ps', highest_priority s' = priority w → sched_repr (s' <| highest_priority := h |>) ps' (update_queue i l qs) →
     Q (Ok t) (with_sched c s' ps' k)) →
  wp (schedule_take c i t) Q (with_sched c s (<[t := w]> ps) k).
Proof.
  intros Hq Hv Hnw HQ. pose proof (repr_range _ _ _ Hr i ltac:(by rewrite Hq)) as Hi.
  destruct (queued_links _ _ _ i [] t l Hr Hq) as (v' & Hv' & (Hpr & _) & _ & Hnext).
  assert (v' = v) as -> by congruence.
  pose proof (repr_queue _ _ _ Hr i Hi) as Hqi. rewrite Hq in Hqi. ksimpl.
  assert (Hbound : ∀ j, update_queue i l qs j ≠ [] → j ≤ h).
  { intros j Hj. apply (repr_highest _ _ _ Hr). unfold update_queue in Hj. case_decide; [subst; by rewrite Hq|done]. }
  assert (Hother : ∀ j y z, j ≠ i → y ∈ qs j → z ∈ qs i → y ≠ z)
    by (intros j y z Hj Hy Hz ->; apply Hj; by eapply queued_unique).
  assert (Ht : t ∈ qs i) by (rewrite Hq; set_solver).
  assert (Hfresh : t ∉ l) by (eapply (queued_fresh _ ps qs i []); eauto).
  assert (Hlinks : dlist (write_prev (head l) None (write_next None (head l) (heap_links preview next ps))) l).
  { pose proof (repr_dlist _ _ _ Hr i) as Hd. rewrite Hq in Hd. by apply (dlist_unlink _ _ [] t l Hd). }
  pose proof (repr_highest_range _ _ _ Hr) as Hrange. cbn in Hrange.
  unfold schedule_take. sched_steps. rewrite Hnw, Hnext. destruct l as [|x l]; cbn [head].
  - sched_steps. apply HQ; [done|]. eapply (sched_repr_update _ ps qs _ _ i []); try done.
    + ksimpl_goal. by rewrite insert_insert_eq.
    + intros y Hy. by apply not_elem_of_nil in Hy.
    + intros j y Hj Hy. assert (y ≠ t) by by eapply Hother. lookup_solve.
  - assert (Hx : x ∈ qs i) by (rewrite Hq; set_solver). assert (t ≠ x) by set_solver.
    destruct (repr_members _ _ _ Hr i x Hx) as (u & Hu & _). sched_steps.
    apply HQ; [done|]. eapply (sched_repr_update _ ps qs _ _ i (x :: l)); try done.
    + eapply dlist_ext; [|exact Hlinks]. intros y Hy. assert (y ≠ t) by (by intros ->). links_solve.
    + intros y Hy. assert (y ≠ t) by (by intros ->).
      destruct (repr_members _ _ _ Hr i y ltac:(rewrite Hq; set_solver)) as (z & Hz & Hzq).
      destruct (decide (y = x)) as [->|]; eexists; (split; [lookup_solve|]); [|done].
      assert (z = u) as -> by congruence. done.
    + intros j y Hj Hy. assert (y ≠ t) by by eapply Hother. assert (y ≠ x) by by eapply Hother. lookup_solve.
Qed.

(** The answer alone. *)
Lemma schedule_unbounded_answers Q :
  0 ≤ highest_priority s < PRIORITY_MAX →
  (∀ k', Q (match highest_ready qs (Z.to_nat (highest_priority s + 1)) with
            | Some (_, p, _) => Ok p
            | None => Err SE_PROCESS_NOT_IN_QUEUE
            end) k') →
  wp (schedule c) Q (with_sched c s ps k).
Proof.
  intros Hh HQ. unfold schedule. sched_step. sched_step. apply schedule_loop_unbounded; [lia|].
  destruct (highest_ready _ _) as [[[i p] l]|] eqn:Hready; [|done].
  apply highest_ready_Some in Hready as (_ & Hq & _).
  destruct (queued_links _ _ _ i [] p l Hr Hq) as (v & Hv & _).
  rewrite <- (insert_id ps p v Hv). by eapply schedule_take_unbounded.
Qed.

End schedule.

(** Parts of CONFIGURE that are not asked for. *)
Lemma configure_capabilities_none l t owner flags Q k :
  Forall (λ e, configuration_contains flags (fst (fst e)) = false) l → Q (Ok tt) k →
  wp (configure_capabilities l t owner flags) Q k.
Proof.
  intros Hl HQ. induction Hl as [|[[bit index] f] l Hb _ IH]; cbn [configure_capabilities]; [by wp_steps|].
  cbn in Hb. rewrite Hb. by wp_steps.
Qed.

Lemma configure_registers_none `{config} l t owner flags Q k :
  Forall (λ e, configuration_contains flags (fst (fst (fst e))) = false) l → Q (Ok tt) k →
  wp (configure_registers l t owner flags) Q k.
Proof.
  intros Hl HQ. induction Hl as [|[[[bit index] f] e] l Hb _ IH]; cbn [configure_registers]; [by wp_steps|].
  cbn in Hb. rewrite Hb. by wp_steps.
Qed.

(** CONFIGURE of the priority alone. *)
Lemma configure_priority_spec `{config} remove t owner prio k v Q :
  readable k owner PCB_CONFIGURATION_INFO (2 ^ 8) → readable k owner PCB_PRIORITY prio →
  prio < PRIORITY_MAX → processes k !! t = Some v →
  Q (Ok tt) (k <| processes ::= <[t := v <| priority := prio |>]> |>) →
  wp (pcb_operation_configure remove t owner) Q k.
Proof.
  intros Hflags Hprio Hmax Hv HQ. unfold pcb_operation_configure, argument.
  wp_head. wp_head. eapply wp_answers; [exact Hflags|]. cbn [transform_error]. wp_head.
  apply configure_capabilities_none; [by repeat constructor|]. wp_head.
  apply configure_registers_none; [by repeat constructor|].
  change (configuration_contains (2 ^ 8) 8) with true. change (configuration_contains (2 ^ 8) 9) with false.
  unfold configure_priority, argument. wp_head. wp_head. wp_head. eapply wp_answers; [exact Hprio|].
  cbn [transform_error]. rewrite (proj2 (Z.leb_gt _ _)) by done. by wp_steps.
Qed.

Lemma highest_ready_at qs i p l n :
  0 ≤ i < Z.of_nat n → qs i = p :: l → (∀ j, i < j → qs j = []) → highest_ready qs n = Some (i, p, l).
Proof.
  intros Hi Hq Hhigh. rewrite (highest_ready_skip qs n (S (Z.to_nat i))).
  - cbn [highest_ready]. by rewrite Z2Nat.id, Hq by lia.
  - lia.
  - intros j Hj. apply Hhigh. lia.
Qed.

Lemma highest_ready_ext qs qs' n :
  (∀ i, 0 ≤ i < Z.of_nat n → qs' i = qs i) → highest_ready qs' n = highest_ready qs n.
Proof.
  induction n as [|n IH]; intros He; [done|]. cbn [highest_ready]. rewrite He by lia.
  rewrite IH; [done|]. intros i Hi. apply He. lia.
Qed.

(** C39: CONFIGURE of the priority of a ready process passes the processes behind it
    over.  When [t] is the first process of the highest ready queue, [q] is
    behind it and the new priority is lower, the call succeeds and leaves [t]
    where it stands; the next scheduling takes [t] and makes its new priority the
    bound of the search, so that the one after that looks at the queues up to
    the new priority only: it answers with a process of lower priority, or that
    no process is ready, although [q] is still READY and in its queue. *)
Theorem priority_change_strands_process `{config} remove c k qs owner t q l prio prio' :
  sched_inv c k qs → qs prio = t :: q :: l → (∀ i, prio < i → qs i = []) →
  readable k owner PCB_CONFIGURATION_INFO (2 ^ 8) → readable k owner PCB_PRIORITY prio' → 0 ≤ prio' < prio →
  wp (pcb_operation_configure remove t owner)
     (λ r k1, r = Ok tt ∧
        wp (schedule c)
           (λ r1 k2, r1 = Ok t ∧ (∃ w, processes k2 !! q = Some w ∧ queued prio w) ∧
              wp (schedule c)
                 (λ r2 _, r2 ≠ Ok q ∧
                    r2 = match highest_ready qs (Z.to_nat (prio' + 1)) with
                         | Some (_, p, _) => Ok p
                         | None => Err SE_PROCESS_NOT_IN_QUEUE
                         end) k2) k1) k.
Proof.
  intros Hinv Hq Hhigh Hflags Hprio Hlt.
  eapply sched_start; [done|]. intros s ps Hc Hr <- Hk. rewrite Hk.
  pose proof (repr_range _ _ _ Hr prio ltac:(by rewrite Hq)) as Hmax.
  pose proof (repr_highest _ _ _ Hr prio ltac:(by rewrite Hq)) as Hbound.
  pose proof (repr_highest_range _ _ _ Hr) as Hrange.
  destruct (queued_links _ _ _ prio [] t (q :: l) Hr Hq) as (v & Hv & _).
  eapply (configure_priority_spec remove t owner prio' k v); [done..|lia|done|]. split; [done|].
  set (w := v <| priority := prio' |>). set (k1 := k <| processes ::= <[t := w]> |>).
  assert (Hk1 : k1 = with_sched c s (<[t := w]> (processes k)) k).
  { unfold k1. rewrite <- Hk at 1. by destruct k. }
  assert (Hr' : sched_repr (s <| highest_priority := highest_priority s |>) (processes k) qs) by (by destruct s).
  rewrite Hk1. unfold schedule at 1. sched_step. sched_step.
  eapply (schedule_loop_unbounded c k Hc s _ qs _ Hr'); [lia|].
  rewrite (highest_ready_at qs prio t (q :: l)) by (done || lia).
  eapply (schedule_take_unbounded c k Hc s _ qs _ Hr' prio t (q :: l) v w); [done..|].
  intros s2 ps2 Hs2 Hr2. change (priority w) with prio' in Hs2. split; [done|].
  assert (Hq2 : q ∈ update_queue prio (q :: l) qs prio) by (rewrite update_queue_eq; set_solver).
  split; [by apply (repr_members _ _ _ Hr2)|].
  eapply (schedule_unbounded_answers c k Hc s2 ps2 _ _ Hr2); [lia|]. intros k'. rewrite Hs2.
  rewrite (highest_ready_ext qs) by (intros i Hi; apply update_queue_ne; lia). split; [|done].
  destruct (highest_ready _ _) as [[[i p] l']|] eqn:Hready; [|done].
  apply highest_ready_Some in Hready as (Hi & Hqi & _). intros [= ->].
  assert (i = prio) by (eapply queued_unique; [exact Hr|rewrite Hqi; by left|rewrite Hq; right; by left]). lia.
Qed.

(** ** Examples *)

Section example.
#[local] Existing Instance example_config.

Lemma stop_process_stops_witness :
  wp (stop_process_for_reclamation 3)
     (λ r k', r = Ok tt ∧
        (∃ v', processes k' !! 3 = Some v' ∧ status v' = PS_BLOCKED_SUSPEND) ∧
        sched_inv 0 k' (without 3 example_queues) ∧
        ∃ cpu' hc' current', on_cpu 0 k' cpu' hc' current' ∧
          (current' ≠ 3 ∨ is_idle cpu' = true) ∧ (3 ≠ 3 → current' = 3)) (example_machine 10).
Proof.
  pose proof (stop_process_stops (example_machine 10) 3 ((ready_process 5 None None false) <| quantum := 10 |>)
    example_queues (example_cpu 3) example_core 3 initial_process (example_space 0) 0 0) as Hstop.
  change (core_affinity ((ready_process 5 None None false) <| quantum := 10 |>)) with 0 in Hstop.
  apply Hstop.
  - done.
  - done.
  - by vm_compute.
  - by split.
  - by eexists.
  - apply example_machine_inv.
  - done.
  - done.
  - by split.
Defined.

(** Process 3 runs and holds the Process Control Block of process 1, which is ready
    with priority 5, before process 2; the message registers of 3 ask for the
    priority 2. *)
Definition example_configure : kernel :=
  (example_machine 10)
    <| processes ::= <[3 := (ready_process 5 None None false) <| buffer := Some 9 |>
         <| registers := set_register register_index.RDX 256 (replicate 23 0) |>]> |>
    <| ipc_buffers := {[9 := MkIpcBuffer (<[11%nat := 2]> (replicate 494 0)) [] 0 0]} |>.

Lemma priority_change_strands_process_witness :
  wp (pcb_operation_configure (λ _, ok) 1 3)
     (λ r k1, r = Ok tt ∧
        wp (schedule 0)
           (λ r1 k2, r1 = Ok 1 ∧ (∃ w, processes k2 !! 2 = Some w ∧ queued 5 w) ∧
              wp (schedule 0) (λ r2 _, r2 ≠ Ok 2 ∧ r2 = Err SE_PROCESS_NOT_IN_QUEUE) k2) k1)
     example_configure.
Proof.
  apply (priority_change_strands_process (λ _, ok) 0 example_configure example_queues 3 1 2 [] 5 2);
    [|reflexivity| |reflexivity|reflexivity|lia].
  - destruct (example_machine_inv 10) as (cpu & Hcpu & Hr). exists cpu. split; [done|].
    eapply sched_repr_view; [|exact Hr]. by vm_compute.
  - intros i Hi. unfold example_queues, update_queue. by rewrite decide_False by lia.
Defined.
End example.
