(* ===== verification/AddressSpace.v ===== *)
(** Address Space capabilities: src/src/kernel/capability/address_space.cpp.

    [owner] is the invoking process, [self] the slot of the address space, whose
    data name its root page table.  The page tables are those of any
    implementation of the memory manager. *)

From S2P Require Import Prelude Word Types Dll Kernel Slot Hal Node Memory.

(** [operation_index] and [result_index] *)
Definition AS_OPERATION_TYPE : Z := 1.
Definition AS_DESCRIPTOR : Z := 2.
Definition AS_ADDRESS : Z := 3.
Definition AS_ATTRIBUTE : Z := 4.
Definition AS_GET_UNSET_DEPTH_ADDRESS : Z := 2.
Definition AS_GET_UNSET_DEPTH_LEAF_SIZE_BITS : Z := 3.
Definition AS_CAN_MAP_FRAME_SIZE_BITS_SIZE_BITS : Z := 2.
Definition AS_RESULT_DEPTH : Z := 2.

Definition convert_memory_map_to_capability_error (e : memory_map_error) : capability_error :=
  match e with
  | MM_ILLEGAL_DEPTH | MM_INVALID_PAGE_TABLE | MM_INVALID_FRAME | MM_NO_SUCH_PAGE_TABLE =>
      CE_INVALID_DESCRIPTOR
  | MM_ILLEGAL_AUTORITY => CE_PERMISSION_DENIED
  | MM_ALREADY_MAPPED => CE_ILLEGAL_OPERATION
  end.

(** The conversion of a lookup error of address_space.cpp. *)
Definition as_lookup_error (e : capability_lookup_error) : capability_error := CE_INVALID_DESCRIPTOR.

(** The [get_message_register] of address_space.cpp. *)
Definition as_message_register (owner index : Z) : M (result Z capability_error) :=
  map_error (λ _, CE_FATAL) (get_message_register owner index).
(** The attribute is read from the processor's registers with the conversions of the
    result types instead. *)
Definition as_attribute (owner : Z) : M (result Z capability_error) :=
  map_error convert_kernel_to_capability_error
    (map_error convert_hal_to_kernel_error (get_message_register owner AS_ATTRIBUTE)).

Definition validate_root `{!memory_manager} (root : page_table) : M capability_result :=
  mret (transform_error convert_memory_map_to_capability_error (hal_validate_root_address_space root)).

Section address_space.
Context `{config} {mm : memory_manager}.

(** [for (core_number = 0; owners; core_number++, owners >>= 1)]: 64 turns empty
    a word. *)
Fixpoint shootdown_loop (turns : nat) (core_number owners : Z) : M capability_result :=
  if owners =? 0 then ok
  else
    match turns with
    | O => out_of_fuel
    | S turns' =>
        let? _ := (if Z.land owners 1 =? 0 then ok
                   else map_error (λ _, CE_FATAL) (send_ipi IPI_INVALIDATE_TLB core_number)) in
        shootdown_loop turns' (core_number + 1) (Z.shiftr owners 1)
    end.

Definition shootdown_remote_tlb (owner : Z) (space : page_table) : M capability_result :=
  if SMP_ENABLED then
    owners ← read_address_space_owners (table_address space);
    op ← load processes owner;
    current_owner ← defined (shl 1 (Z.land (core_affinity op) (WORD_BITS - 1)));
    shootdown_loop 64 0 (Z.ldiff owners current_owner)
  else ok.

Definition complete_address_space_update (owner : Z) (space : page_table)
    (update : M (result unit memory_map_error)) : M capability_result :=
  let? _ := map_error convert_memory_map_to_capability_error update in
  shootdown_remote_tlb owner space.

(** The slot a descriptor in a message register names. *)
Definition as_target_slot (owner : Z) : M (result slot_ref capability_error) :=
  let? descriptor := as_message_register owner AS_DESCRIPTOR in
  map_error as_lookup_error (traverse_root owner descriptor).

Definition as_operation_map (owner : Z) (self : slot_ref) : M capability_result :=
  sv ← load slots self;
  let? _ := validate_root (convert_slot_data_to_page_table (data sv)) in
  let? slot := as_target_slot owner in
  sv ← load slots self;
  let root_table := convert_slot_data_to_page_table (data sv) in
  tv ← load slots slot;
  match type tv with
  | CT_PAGE_TABLE =>
      let? address := as_message_register owner AS_ADDRESS in
      if negb (hal_is_valid_user_address address) then fail CE_INVALID_ARGUMENT
      else
        let? attr := as_attribute owner in
        complete_address_space_update owner root_table
          (hal_map_page_table root_table (convert_slot_data_to_page_table (data tv)) address attr)
  | CT_FRAME =>
      let? address := as_message_register owner AS_ADDRESS in
      if negb (hal_is_valid_user_address address) then fail CE_INVALID_ARGUMENT
      else
        let? attr := as_attribute owner in
        if negb (is_valid_mapping_attribute attr) then fail CE_INVALID_ARGUMENT
        else
          complete_address_space_update owner root_table
            (hal_map_frame root_table (convert_slot_data_to_frame (data tv)) address attr)
  | _ => fail CE_INVALID_DESCRIPTOR
  end.

Definition as_operation_unmap (owner : Z) (self : slot_ref) : M capability_result :=
  sv ← load slots self;
  let root_table := convert_slot_data_to_page_table (data sv) in
  let? _ := validate_root root_table in
  let? slot := as_target_slot owner in
  tv ← load slots slot;
  match type tv with
  | CT_PAGE_TABLE =>
      let? address := as_message_register owner AS_ADDRESS in
      if negb (hal_is_valid_user_address address) then fail CE_INVALID_ARGUMENT
      else
        complete_address_space_update owner root_table
          (hal_unmap_page_table root_table (convert_slot_data_to_page_table (data tv)) address)
  | CT_FRAME =>
      let? address := as_message_register owner AS_ADDRESS in
      if negb (hal_is_valid_user_address address) then fail CE_INVALID_ARGUMENT
      else
        complete_address_space_update owner root_table
          (hal_unmap_frame root_table (convert_slot_data_to_frame (data tv)) address)
  | _ => fail CE_INVALID_DESCRIPTOR
  end.

Definition as_operation_get_unset_depth (owner : Z) (self : slot_ref) : M capability_result :=
  sv ← load slots self;
  let self_table := convert_slot_data_to_page_table (data sv) in
  let? _ := validate_root self_table in
  let? address := as_message_register owner AS_GET_UNSET_DEPTH_ADDRESS in
  let? leaf_size_bits := as_message_register owner AS_GET_UNSET_DEPTH_LEAF_SIZE_BITS in
  let? depth := map_error convert_memory_map_to_capability_error
                  (hal_search_unset_page_table_depth self_table address leaf_size_bits) in
  map_error (λ e, convert_kernel_to_capability_error (convert_hal_to_kernel_error e))
    (configure_message_register owner AS_RESULT_DEPTH depth).

Definition as_operation_can_map_frame_size_bits (owner : Z) (self : slot_ref) : M capability_result :=
  sv ← load slots self;
  let? _ := validate_root (convert_slot_data_to_page_table (data sv)) in
  let? size_bits := as_message_register owner AS_CAN_MAP_FRAME_SIZE_BITS_SIZE_BITS in
  mret (transform_error convert_memory_map_to_capability_error (hal_validate_frame_size_bits size_bits)).

Definition as_execute (owner : Z) (self : slot_ref) : M capability_result :=
  operation ← message_or_0 owner AS_OPERATION_TYPE;
  match operation with
  | 1 => as_operation_map owner self
  | 2 => as_operation_unmap owner self
  | 3 => as_operation_get_unset_depth owner self
  | 4 => as_operation_can_map_frame_size_bits owner self
  | _ => fail CE_ILLEGAL_OPERATION
  end.

End address_space.
