(* ===== verification/AddressSpaceProofs.v ===== *)
(** Correctness of Address Space capabilities (AddressSpace.v), for every memory
    manager that satisfies the laws of PageWalk.v. *)

From Stdlib Require Import Btauto.
From S2P Require Import Prelude Word Types Dll Kernel Slot Hal Node NodeProofs MemoryTypes PageWalk.
From S2P Require Import Memory MemoryProofs Aarch64Memory Aarch64MemoryProofs AddressSpace.

(** ** Shootdown *)

(** The cores whose bit is set, from [base] on. *)
Fixpoint set_bits (n : nat) (base owners : Z) : list Z :=
  match n with
  | O => []
  | S n' => (if Z.odd owners then [base] else []) ++ set_bits n' (base + 1) (Z.shiftr owners 1)
  end.

Lemma set_bits_spec n base owners c :
  c ∈ set_bits n base owners ↔ base ≤ c < base + Z.of_nat n ∧ Z.testbit owners (c - base) = true.
Proof.
  revert base owners. induction n as [|n IH]; intros base owners; cbn [set_bits].
  { rewrite elem_of_nil. split; [done|lia]. }
  rewrite elem_of_app, IH. destruct (decide (c = base)) as [->|Hne].
  - rewrite Z.sub_diag, Z.bit0_odd. destruct (Z.odd owners); set_solver by lia.
  - assert (c ∉ (if Z.odd owners then [base] else [])) by (destruct (Z.odd owners); set_solver).
    destruct (decide (base < c)) as [Hlt|].
    + rewrite Z.shiftr_spec by lia. replace (c - (base + 1) + 1) with (c - base) by lia.
      split; [intros [|[? ?]]; [done|split; [lia|done]]|intros [? ?]; right; split; [lia|done]].
    + split; [intros [|[? _]]; [done|lia]|intros [? _]; lia].
Qed.

Lemma set_bits_0 n base : set_bits n base 0 = [].
Proof. revert base. induction n as [|n IH]; intros base; [done|]. cbn. apply IH. Qed.

Lemma ldiff_bound a b n : 0 ≤ n → 0 ≤ a < 2 ^ n → 0 ≤ Z.ldiff a b < 2 ^ n.
Proof.
  intros Hn Ha. replace (Z.ldiff a b) with (Z.ldiff a b mod 2 ^ n); [apply Z.mod_pos_bound; lia|].
  rewrite <- (Z.mod_small a (2 ^ n)) by done. rewrite <- !Z.land_ones by done.
  apply Z.bits_inj'. intros i Hi. rewrite !Z.land_spec, !Z.ldiff_spec, !Z.land_spec. btauto.
Qed.

Definition tlb_interrupts (cores : list Z) : list hal_event := map (EV_IPI IPI_INVALIDATE_TLB) cores.

Section shootdown.
Context `{config}.

Lemma shootdown_loop_spec turns core owners k Q :
  0 ≤ core → core + Z.of_nat turns ≤ CPU_COUNT_MAX → 0 ≤ owners < 2 ^ Z.of_nat turns →
  (∀ c, c ∈ set_bits turns core owners → ipi_status c = Ok tt) →
  Q (Ok tt) (k <| events ::= λ l, l ++ tlb_interrupts (set_bits turns core owners) |>) →
  wp (shootdown_loop turns core owners) Q k.
Proof.
  revert core owners k. induction turns as [|turns IH]; intros core owners k Hcore Hmax Ho Hok HQ.
  { assert (owners = 0) as -> by (cbn in Ho; lia). cbn. wp_steps.
    destruct k. unfold upd in HQ. cbn in HQ. by rewrite app_nil_r in HQ. }
  cbn [shootdown_loop]. destruct (Z.eqb_spec owners 0) as [->|Hne].
  { wp_steps. rewrite set_bits_0 in HQ. destruct k. unfold upd in HQ. cbn in HQ. by rewrite app_nil_r in HQ. }
  assert (Z.land owners 1 = Z.b2z (Z.odd owners)) as Hodd.
  { change 1 with (Z.ones 1). rewrite Z.land_ones by lia. change (2 ^ 1) with 2. rewrite Zmod_odd.
    by destruct (Z.odd owners). }
  assert (0 ≤ Z.shiftr owners 1 < 2 ^ Z.of_nat turns) as Hshift.
  { rewrite Z.shiftr_div_pow2 by lia. replace (Z.of_nat (S turns)) with (Z.of_nat turns + 1) in Ho by lia.
    rewrite Z.pow_add_r in Ho by lia. change (2 ^ 1) with 2 in *. split; [apply Z.div_pos; lia|].
    apply Z.div_lt_upper_bound; lia. }
  cbn [set_bits] in Hok, HQ. rewrite Hodd. destruct (Z.odd owners); cbn [Z.b2z Z.eqb].
  - wp_step. wp_step. unfold send_ipi.
    rewrite (proj2 (Z.leb_le 0 core)), (proj2 (Z.ltb_lt core CPU_COUNT_MAX)) by lia. cbn [andb].
    unfold emit. wp_steps. rewrite Hok by set_solver. cbn [transform_error].
    apply IH; [lia..|done|intros c Hc; apply Hok; set_solver|].
    ksimpl_goal. unfold upd in *. cbn in *. by rewrite <- app_assoc.
  - wp_steps. apply IH; [lia..|done|done|done].
Qed.

(** The cores that use the address space, but for the one of [owner]. *)
Definition remote_cores (owners affinity : Z) : list Z :=
  set_bits 64 0 (Z.ldiff owners (2 ^ (affinity mod 64))).

Lemma remote_cores_spec owners affinity c :
  c ∈ remote_cores owners affinity ↔
  0 ≤ c < 64 ∧ Z.testbit owners c = true ∧ c ≠ affinity mod 64.
Proof.
  unfold remote_cores. rewrite set_bits_spec, Z.sub_0_r, Z.ldiff_spec, andb_true_iff, negb_true_iff.
  pose proof (Z.mod_pos_bound affinity 64). split.
  - intros (Hc & Ho & Hp). split_and!; try lia; [done|]. intros ->.
    rewrite Z.pow2_bits_true in Hp by lia. done.
  - intros (Hc & Ho & Hne). split; [lia|]. split; [done|]. by apply Z.pow2_bits_false.
Qed.

(** [owners] uses the address space [root] of [k]. *)
Definition owners_word (k : kernel) (root : page_table) (owners : Z) : Prop :=
  memory_words k !! (table_address root + 8 * ADDRESS_SPACE_OWNERS_PML4_INDEX) = Some owners ∧ is_word owners.

Definition remote_events (owners affinity : Z) : list hal_event :=
  if SMP_ENABLED then tlb_interrupts (remote_cores owners affinity) else [].

Lemma shootdown_remote_tlb_spec owner op root owners k Q :
  processes k !! owner = Some op → owners_word k root owners →
  (∀ c, c ∈ remote_cores owners (core_affinity op) → ipi_status c = Ok tt) →
  Q (Ok tt) (k <| events ::= λ l, l ++ remote_events owners (core_affinity op) |>) →
  wp (shootdown_remote_tlb owner root) Q k.
Proof.
  intros Hop [Hw Ho] Hok HQ. unfold shootdown_remote_tlb, remote_events in *. destruct SMP_ENABLED.
  - unfold read_address_space_owners. wp_steps. change (WORD_BITS - 1) with (Z.ones 6).
    rewrite Z.land_ones by lia. change (2 ^ 6) with 64. pose proof (Z.mod_pos_bound (core_affinity op) 64 ltac:(lia)) as Hmod.
    eapply wp_defined; [apply shl_1; exact Hmod|].
    apply shootdown_loop_spec; [done|done| |done|done].
    by apply ldiff_bound.
  - wp_steps. destruct k. unfold upd in HQ. cbn in HQ. by rewrite app_nil_r in HQ.
Qed.
End shootdown.

(** ** The operations *)

Section operations.
Context `{config} {mm : memory_manager} {laws : memory_manager_laws mm}.

(** [owner] asks the address space in [self], whose root is [root], to do
    [operation] to the object in [target] at the address [va]. *)
Record as_request (k : kernel) (owner operation : Z) (self : slot_ref) (root : page_table)
    (target : slot_ref) (tv : capability_slot) (va : Z) : Prop := AsRequest {
  request_core : is_Some (hal_cores k !! current_core k);
  request_self : ∃ sv, slots k !! self = Some sv ∧ convert_slot_data_to_page_table (data sv) = root;
  request_root : valid_root root;
  request_operation : readable k owner AS_OPERATION_TYPE operation;
  request_target : ∃ descriptor, readable k owner AS_DESCRIPTOR descriptor ∧
    answers (traverse_root owner descriptor) k (Ok target);
  request_slot : slots k !! target = Some tv;
  request_address : readable k owner AS_ADDRESS va;
  request_user : hal_is_valid_user_address va = true;
}.

(** The cores that use [root] can be interrupted, and the word that names them is
    not the entry [e] the operation writes. *)
Record as_cores (k : kernel) (owner : Z) (root : page_table) (e owners affinity : Z) : Prop := AsCores {
  cores_owner : ∃ op, processes k !! owner = Some op ∧ core_affinity op = affinity;
  cores_word : owners_word k root owners;
  cores_apart : e ≠ table_address root + 8 * ADDRESS_SPACE_OWNERS_PML4_INDEX;
  cores_status : ∀ c, c ∈ remote_cores owners affinity → ipi_status c = Ok tt;
}.

(** The state after one written entry: the translation buffer of this core is told
    first, then those of the other cores. *)
Definition as_updated (k : kernel) (root : page_table) (va e w owners affinity : Z) (k' : kernel) : Prop :=
  ∃ local, tlb_told k root va local ∧
    k' = k <| memory_words ::= <[e := w]> |>
           <| events ::= λ l, l ++ local ++ remote_events owners affinity |>.

Lemma complete_update_spec owner root update va e k owners affinity (P : Z → Prop) Q :
  as_cores k owner root e owners affinity →
  wp update (λ r k', r = Ok tt ∧ ∃ w, word_written k root va e w k' ∧ P w) k →
  (∀ w k', as_updated k root va e w owners affinity k' → P w → Q (Ok tt) k') →
  wp (complete_address_space_update owner root update) Q k.
Proof.
  intros [(op & Hop & <-) [Hw Ho] Hne Hok] Hu HQ. unfold complete_address_space_update.
  wp_step. wp_step. eapply wp_mono; [|exact Hu]. intros r k' (-> & w & (local & Ht & ->) & HP).
  cbn [transform_error]. eapply (shootdown_remote_tlb_spec _ op root owners); [exact Hop| |done|].
  - split; [|done]. ksimpl_goal. by rewrite lookup_insert_ne.
  - eapply (HQ w); [|done]. exists local. split; [done|]. unfold upd. cbn. by rewrite app_assoc.
Qed.

(** Every operation begins by looking at the root and the target. *)
Lemma as_read owner k i v B (f : Z → M (result B capability_error)) Q :
  readable k owner i v → wp (f v) Q k → wp (and_then (as_message_register owner i) f) Q k.
Proof.
  intros Hr HQ. unfold as_message_register. wp_step. wp_step. eapply wp_answers; [exact Hr|].
  done.
Qed.

Lemma as_attribute_read owner k v B (f : Z → M (result B capability_error)) Q :
  readable k owner AS_ATTRIBUTE v → wp (f v) Q k → wp (and_then (as_attribute owner) f) Q k.
Proof.
  intros Hr HQ. unfold as_attribute. wp_step. wp_step. wp_step. eapply wp_answers; [exact Hr|].
  done.
Qed.

Lemma as_target_run k owner operation self root target tv va B (f : slot_ref → M (result B capability_error)) Q :
  as_request k owner operation self root target tv va → wp (f target) Q k →
  wp (and_then (as_target_slot owner) f) Q k.
Proof.
  intros [_ _ _ _ (descriptor & Hd & Ht) _ _ _] HQ. unfold as_target_slot. wp_step.
  eapply as_read; [exact Hd|]. wp_step. eapply wp_answers; [exact Ht|]. done.
Qed.

Lemma validate_root_run k root Q :
  valid_root root → Q (Ok tt) k → wp (validate_root root) Q k.
Proof. intros [Hv _] HQ. unfold validate_root. rewrite Hv. cbn [transform_error]. by wp_steps. Qed.

Section frame.
Context (k : kernel) (owner : Z) (self target : slot_ref) (tv : capability_slot) (root : page_table).
Context (va d t v owners affinity : Z) (a : access).
Let f := convert_slot_data_to_frame (data tv).
Let e := walk_entry t va d.
Hypothesis (Htype : type tv = CT_FRAME).
Hypothesis (Hsite : entry_site hal_decode (memory_words k) (table_address root) va d t a v).
Hypothesis (Hd : d ≤ 3) (Hbits : frame_size_bits f = leaf_shift d) (Hva : (2 ^ leaf_shift d | va)).
Hypothesis (Hcores : as_cores k owner root e owners affinity).

Lemma as_map_run attribute Q :
  as_request k owner 1 self root target tv va → readable k owner AS_ATTRIBUTE attribute →
  is_valid_mapping_attribute attribute = true → hal_unused v = true →
  0 ≤ frame_address f < 2 ^ 48 → (2 ^ leaf_shift d | frame_address f) →
  (∀ w k', as_updated k root va e w owners affinity k' →
     hal_decode d w = ENTRY_LEAF (frame_address f) (requested_access attribute) → Q (Ok tt) k') →
  wp (as_execute owner self) Q k.
Proof.
  intros Hreq Hattr Hvalid Hv Hf Hfa HQ.
  pose proof Hreq as [Hcore (sv & Hsv & Hconv) Hroot Hop _ Hslot Hadd Huser].
  unfold as_execute, message_or_0. wp_step. wp_step. eapply wp_answers; [exact Hop|]. wp_steps.
  cbn [unwrap_or]. unfold as_operation_map. wp_steps. rewrite Hconv.
  apply validate_root_run; [done|]. eapply as_target_run; [exact Hreq|]. wp_steps. rewrite Hconv, Htype.
  eapply as_read; [exact Hadd|]. rewrite Huser. cbn [negb]. eapply as_attribute_read; [exact Hattr|].
  rewrite Hvalid. cbn [negb]. eapply complete_update_spec; [done| |].
  - by eapply map_frame_law.
  - exact HQ.
Qed.

Lemma as_unmap_run Q :
  as_request k owner 2 self root target tv va → hal_unused v = false →
  (∀ k', as_updated k root va e 0 owners affinity k' → Q (Ok tt) k') →
  wp (as_execute owner self) Q k.
Proof.
  intros Hreq Hv HQ.
  pose proof Hreq as [Hcore (sv & Hsv & Hconv) Hroot Hop _ Hslot Hadd Huser].
  unfold as_execute, message_or_0. wp_step. wp_step. eapply wp_answers; [exact Hop|]. wp_steps.
  cbn [unwrap_or]. unfold as_operation_unmap. wp_steps. rewrite Hconv.
  apply validate_root_run; [done|]. eapply as_target_run; [exact Hreq|]. wp_steps. rewrite Htype.
  eapply as_read; [exact Hadd|]. rewrite Huser. cbn [negb].
  eapply (complete_update_spec _ _ _ _ _ _ _ _ (λ w, w = 0)); [done| |].
  - eapply wp_mono; [|by eapply unmap_frame_law]. intros r k' (-> & Hw). by split; [|exists 0].
  - intros w k' Hu ->. by apply HQ.
Qed.
End frame.
End operations.

(** C15: MAP of a Frame, on any architecture.  When the request names a Frame and an
    aligned user address whose tables exist and whose entry is free, the call
    succeeds, writes that one entry and nothing else, tells the translation buffer
    of its own core and then those of exactly the other cores that use the address
    space, in the order of their numbers; from then on the processor translates
    every address of the window to the frame, with the attribute's permissions as
    far as the tables grant them. *)
Theorem address_space_maps `{config} {mm : memory_manager} {laws : memory_manager_laws mm}
    k owner self target tv root va d t a v owners affinity attribute :
  let f := convert_slot_data_to_frame (data tv) in
  type tv = CT_FRAME →
  as_request k owner 1 self root target tv va → readable k owner AS_ATTRIBUTE attribute →
  is_valid_mapping_attribute attribute = true →
  entry_site hal_decode (memory_words k) (table_address root) va d t a v → hal_unused v = true →
  d ≤ 3 → frame_size_bits f = leaf_shift d → (2 ^ leaf_shift d | va) →
  0 ≤ frame_address f < 2 ^ 48 → (2 ^ leaf_shift d | frame_address f) →
  as_cores k owner root (walk_entry t va d) owners affinity →
  wp (as_execute owner self)
     (λ r k', r = Ok tt ∧ (∃ w, as_updated k root va (walk_entry t va d) w owners affinity k') ∧
        ∀ offset, 0 ≤ offset < 2 ^ leaf_shift d →
          translate hal_decode (memory_words k') (table_address root) (va + offset) =
          Some (frame_address f + offset, meet a (requested_access attribute))) k.
Proof.
  intros f Htype Hreq Hattr Hvalid Hsite Hv Hd Hbits Hva Hf Hfa Hcores.
  eapply as_map_run; [done..|]. intros w k' (local & Ht & ->) Hdec.
  split; [done|]. split; [by exists w, local|]. intros offset Ho. ksimpl_goal. unfold translate.
  rewrite (site_walk _ _ _ va d t a v) by (done || by eapply (site_fresh k root va d t a v)). rewrite Hdec.
  cbn [mbind option_bind fst snd]. by rewrite aligned_offset_mod.
Qed.

(** UNMAP of a Frame, on any architecture.  The call clears the one entry of the
    window, tells its own core and every other core that uses the address space, and
    from then on the processor translates no address of the window. *)
Theorem address_space_unmaps `{config} {mm : memory_manager} {laws : memory_manager_laws mm}
    k owner self target tv root va d t a v owners affinity :
  let f := convert_slot_data_to_frame (data tv) in
  type tv = CT_FRAME → as_request k owner 2 self root target tv va →
  entry_site hal_decode (memory_words k) (table_address root) va d t a v → hal_unused v = false →
  walk_entry t va d ∉ path_entries hal_decode (memory_words k) (Z.to_nat (4 - d)) (table_address root) va 4 →
  d ≤ 3 → frame_size_bits f = leaf_shift d → (2 ^ leaf_shift d | va) →
  as_cores k owner root (walk_entry t va d) owners affinity →
  wp (as_execute owner self)
     (λ r k', r = Ok tt ∧ as_updated k root va (walk_entry t va d) 0 owners affinity k' ∧
        ∀ offset, 0 ≤ offset < 2 ^ leaf_shift d →
          translate hal_decode (memory_words k') (table_address root) (va + offset) = None) k.
Proof.
  intros f Htype Hreq Hsite Hv Hfresh Hd Hbits Hva Hcores.
  eapply as_unmap_run; [done..|]. intros k' (local & Ht & ->).
  split; [done|]. split; [by exists local|]. intros offset Ho. ksimpl_goal. unfold translate.
  rewrite (site_walk _ _ _ va d t a v) by done. by rewrite unused_nothing by apply zero_unused.
Qed.

Section example.
(** Four cores that accept every interrupt. *)
Definition smp_example_config : config := {|
  SMP_ENABLED := true;
  expected_core_count := 4;
  sizeof_process_control_block := 2048;
  sizeof_ipc_port := 64;
  sizeof_notification_port := 64;
  sizeof_virtual_cpu_capability := 1024;
  SUPPORT_2MiB_PAGE := true;
  SUPPORT_1GiB_PAGE := true;
  initial_floating_context := [];
  indeterminate := 0;
  ipi_status := λ _, Ok tt;
  irq_status := λ _, Ok tt;
  eoi_status := Ok tt;
  port_input := λ port _, port;
  kernel_pml4 := 0x1000;
  remote_entry := λ _, None;
|}.
#[local] Existing Instance smp_example_config.

(** Process 7 asks for [operation] at [va] of the Frame in slot 1 of its root Node,
    through the address space of [example_tables] in slot 2, which the cores 0, 1
    and 3 use. *)
Definition as_example (operation va address : Z) : kernel :=
  initial_kernel
    <| processes := {[7 := initial_process <| registers :=
         set_register register_index.RSI operation (set_register register_index.RDX (NodeProofs.example_descriptor 1)
           (set_register register_index.R8 va (set_register register_index.R9 3 (replicate 23 0)))) |>]} |>
    <| nodes := {[100 := MkNode 0 2 (Some 1)]} |>
    <| slots := {[process_slot_ref 7 ROOT_SLOT := NodeProofs.example_root;
                  array_slot 1 1 := MkSlot (Some C_FRAME) CT_FRAME RIGHTS_ALL false (SlotData address 0 12) None None 0;
                  array_slot 1 2 := MkSlot (Some C_ADDRESS_SPACE) CT_ADDRESS_SPACE RIGHTS_ALL false
                                      (SlotData 0x10000 4 0) None None 0]} |>
    <| memory_words := <[0x10ff8 := 0xb]> example_tables |>
    <| hal_cores := {[0 := MkHalCore 0x10000 0 0 true None []]} |>.

Lemma as_example_request operation va address :
  va = 0x200000 ∨ va = 0x201000 → operation = 1 ∨ operation = 2 →
  as_request (as_example operation va address) 7 operation (array_slot 1 2) (MkPageTable 0x10000 4) (array_slot 1 1)
    (MkSlot (Some C_FRAME) CT_FRAME RIGHTS_ALL false (SlotData address 0 12) None None 0) va.
Proof.
  intros Hva Hop. split; [by eexists|by eexists| | |eexists; split|reflexivity| |].
  - split; [reflexivity|cbn; lia].
  - destruct Hva as [->| ->], Hop as [->| ->]; vm_compute; reflexivity.
  - destruct Hva as [->| ->], Hop as [->| ->]; vm_compute; reflexivity.
  - destruct Hva as [->| ->], Hop as [->| ->]; vm_compute; reflexivity.
  - destruct Hva as [->| ->], Hop as [->| ->]; vm_compute; reflexivity.
  - destruct Hva as [->| ->]; reflexivity.
Qed.

Lemma as_example_cores operation va address e :
  e ≠ 0x10ff8 → as_cores (as_example operation va address) 7 (MkPageTable 0x10000 4) e 0xb 0.
Proof. intros He. split; [by eexists|by split; [|split]|done|done]. Qed.

Lemma as_example_path va operation address : va = 0x200000 ∨ va = 0x201000 →
  x86_64_path (memory_words (as_example operation va address)) 3 0x10000 va 4 0x13000 full_access.
Proof.
  intros Hva. apply tables_path_insert; [|by apply example_path]. destruct Hva as [->| ->]; vm_compute; set_solver.
Qed.

Lemma address_space_maps_witness :
  wp (as_execute 7 (array_slot 1 2))
     (λ r k', r = Ok tt ∧
        (∃ page, events k' = [EV_INVALIDATE_TLB 0 page; EV_IPI IPI_INVALIDATE_TLB 1; EV_IPI IPI_INVALIDATE_TLB 3]) ∧
        translate x86_64_decode (memory_words k') 0x10000 0x200010 = Some (0x8010, MkAccess true true false))
     (as_example 1 0x200000 0x8000).
Proof.
  eapply wp_mono; [|apply (address_space_maps (as_example 1 0x200000 0x8000) 7 (array_slot 1 2) (array_slot 1 1)
    (MkSlot (Some C_FRAME) CT_FRAME RIGHTS_ALL false (SlotData 0x8000 0 12) None None 0) (MkPageTable 0x10000 4)
    0x200000 1 0x13000 full_access 0 0xb 0 3)]; try reflexivity; try lia.
  - intros r k' (-> & (w & local & Ht & ->) & Htr). split; [done|]. split; [|apply (Htr 0x10); change (2 ^ leaf_shift 1) with 4096; lia].
    destruct Ht as [[_ Hno]|(page & -> & _)]; [by destruct (Hno _ eq_refl)|by exists page].
  - apply as_example_request; tauto.
  - split; [lia|apply as_example_path; tauto|reflexivity].
  - by exists 512.
  - cbn. lia.
  - by exists 8.
  - by apply as_example_cores.
Defined.

Lemma address_space_unmaps_witness :
  wp (as_execute 7 (array_slot 1 2))
     (λ r k', r = Ok tt ∧
        (∃ page, events k' = [EV_INVALIDATE_TLB 0 page; EV_IPI IPI_INVALIDATE_TLB 1; EV_IPI IPI_INVALIDATE_TLB 3]) ∧
        translate x86_64_decode (memory_words k') 0x10000 0x201010 = None)
     (as_example 2 0x201000 0x7000).
Proof.
  eapply wp_mono; [|apply (address_space_unmaps (as_example 2 0x201000 0x7000) 7 (array_slot 1 2) (array_slot 1 1)
    (MkSlot (Some C_FRAME) CT_FRAME RIGHTS_ALL false (SlotData 0x7000 0 12) None None 0) (MkPageTable 0x10000 4)
    0x201000 1 0x13000 full_access (make_page 0x7000 true false true 0) 0xb 0)]; try reflexivity; try lia.
  - intros r k' (-> & (local & Ht & ->) & Htr). split; [done|]. split; [|apply (Htr 0x10); change (2 ^ leaf_shift 1) with 4096; lia].
    destruct Ht as [[_ Hno]|(page & -> & _)]; [by destruct (Hno _ eq_refl)|by exists page].
  - apply as_example_request; tauto.
  - split; [lia|apply as_example_path; tauto|reflexivity].
  - vm_compute. set_solver.
  - by exists 513.
  - by apply as_example_cores.
Defined.
End example.
