(* ===== verification/Devices.v ===== *)
(** I/O ports and interrupts: src/src/kernel/capability/io_port_capability.cpp,
    interrupt_region.cpp and interrupt_port.cpp,
    src/src/kernel/include/kernel/interrupt/irq_notification_handlers.hpp, the
    masking of src/src/kernel/interrupt/interrupt_manager.cpp and the ports of
    src/src/hal/x86_64/io/io_port.cpp. *)

From S2P Require Import Prelude Word Types Dll Kernel Slot Hal Node.

Section devices.
Context `{config}.

(** ** hal/x86_64/io/io_port.cpp *)

(** The port number is cast to [uint16_t], the data to the width. *)
Definition read_io_port (address byte_width : Z) : M (result Z hal_error) :=
  match byte_width with
  | 1 | 2 | 4 => mret (Ok (port_input (wrap16 address) byte_width mod 2 ^ (8 * byte_width)))
  | _ => fail HE_ILLEGAL_ARGUMENT
  end.
Definition write_io_port (address byte_width value : Z) : M hal_result :=
  match byte_width with
  | 1 | 2 | 4 =>
      emit (EV_PORT_WRITE (wrap16 address) byte_width (value mod 2 ^ (8 * byte_width)));; ok
  | _ => fail HE_ILLEGAL_ARGUMENT
  end.

(** ** io_port_capability.cpp *)

Record io_port_address_range := MkRange { range_min : Z; range_max : Z }.

Definition IO_OPERATION_TYPE : Z := 1.
Definition IO_PORT_NUMBER : Z := 2.
Definition IO_WIDTH : Z := 3.
Definition IO_WRITE_DATA : Z := 4.
Definition IO_READ_DATA : Z := 2.
Definition IO_NEW_ADDRESS_MIN : Z := 2.
Definition IO_NEW_ADDRESS_MAX : Z := 3.
Definition IO_DESTINATION_NODE : Z := 4.
Definition IO_DESTINATION_NODE_INDEX : Z := 5.

Definition convert_slot_data_to_address_range (d : capability_slot_data) : io_port_address_range :=
  MkRange (data_0 d) (data_1 d).
Definition convert_address_range_to_slot_data (r : io_port_address_range) : capability_slot_data :=
  SlotData (range_min r) (range_max r) indeterminate.

Definition judge_range_is_subset (current_range new_range : io_port_address_range)
    : capability_result :=
  if range_max new_range <? range_min new_range then Err CE_INVALID_ARGUMENT
  else if (range_min new_range <? range_min current_range)
          || (range_max current_range <? range_max new_range)
  then Err CE_PERMISSION_DENIED
  else Ok tt.
Definition is_address_is_in_range (r : io_port_address_range) (address : Z) : bool :=
  (range_min r <=? address) && (address <=? range_max r).

Definition try_configure_io_port_slot (slot : slot_ref) (r : io_port_address_range)
    : M kernel_result :=
  modify slots slot
    (λ _, initial_slot <| component := Some C_IO_PORT |> <| type := CT_IO_PORT |>
            <| rights := RIGHTS_ALL |> <| data := convert_address_range_to_slot_data r |>);;
  ok.

Definition io_hal_error (e : hal_error) : capability_error := CE_FATAL.

Definition io_operation_read (owner : Z) (self : slot_ref) : M capability_result :=
  sv ← load slots self;
  if Z.land (rights sv) RIGHTS_READ =? 0 then fail CE_PERMISSION_DENIED
  else
    let? value := map_error io_hal_error
      (let? port := get_message_register owner IO_PORT_NUMBER in
       let? byte_width := get_message_register owner IO_WIDTH in
       read_io_port port byte_width) in
    map_error io_hal_error (configure_message_register owner IO_READ_DATA value).

Definition io_operation_write (owner : Z) (self : slot_ref) : M capability_result :=
  sv ← load slots self;
  if Z.land (rights sv) RIGHTS_WRITE =? 0 then fail CE_PERMISSION_DENIED
  else
    let? port := map_error io_hal_error (get_message_register owner IO_PORT_NUMBER) in
    if negb (is_address_is_in_range (convert_slot_data_to_address_range (data sv)) port)
    then fail CE_PERMISSION_DENIED
    else
      map_error io_hal_error
        (let? value := get_message_register owner IO_WRITE_DATA in
         let? byte_width := get_message_register owner IO_WIDTH in
         write_io_port port byte_width value).

Definition io_operation_mint (owner : Z) (self : slot_ref) : M capability_result :=
  sv ← load slots self;
  if Z.land (rights sv) RIGHTS_COPY =? 0 then fail CE_PERMISSION_DENIED
  else
    new_min ← message_or_0 owner IO_NEW_ADDRESS_MIN;
    new_max ← message_or_0 owner IO_NEW_ADDRESS_MAX;
    let new_range := MkRange new_min new_max in
    let? _ := mret (judge_range_is_subset (convert_slot_data_to_address_range (data sv)) new_range) in
    let? destination_slot := map_error convert_kernel_to_capability_error
        (try_get_slot_from_node_and_index_in_message owner IO_DESTINATION_NODE
           IO_DESTINATION_NODE_INDEX) in
    dv ← load slots destination_slot;
    if decide (type dv ≠ CT_NONE) then fail CE_INVALID_ARGUMENT
    else
      let? _ := map_error convert_kernel_to_capability_error
                  (try_configure_io_port_slot destination_slot new_range) in
      sv ← load slots self;
      modify slots destination_slot (λ v, v <| rights := rights sv |>);;
      sv ← load slots self;
      dv ← load slots destination_slot;
      (if is_same_object sv dv then insert_sibling self destination_slot
       else insert_child self destination_slot);;
      ok.

Definition io_execute (owner : Z) (self : slot_ref) : M capability_result :=
  operation ← message_or_0 owner IO_OPERATION_TYPE;
  match operation with
  | 1 => io_operation_read owner self
  | 2 => io_operation_write owner self
  | 3 => io_operation_mint owner self
  | _ => fail CE_ILLEGAL_OPERATION
  end.

(** ** Masking of interrupts *)

Definition IO_BASE : Z := 0x30.
Definition IPI_HALT : Z := if SMP_ENABLED then 0xF0 else 0x48.

(** The redirection entry is written by the I/O APIC, which may refuse. *)
Definition enable_interrupt (irq : Z) : M kernel_result :=
  map_error convert_hal_to_kernel_error
    (if 256 <=? irq then fail HE_ILLEGAL_ARGUMENT
     else if IPI_HALT <=? IO_BASE + irq then fail HE_ILLEGAL_ARGUMENT
     else emit (EV_ENABLE_IRQ irq);; mret (irq_status irq)).
Definition disable_interrupt (irq : Z) : M kernel_result :=
  map_error convert_hal_to_kernel_error
    (if 256 <=? irq then fail HE_ILLEGAL_ARGUMENT
     else emit (EV_DISABLE_IRQ irq);; mret (irq_status irq)).
Definition ack_interrupt : M kernel_result :=
  c ← reads current_core;
  map_error convert_hal_to_kernel_error (emit (EV_EOI c);; mret eoi_status).

(** ** irq_notification_handlers.hpp *)

(** A handler is named by its index. *)
Definition irq_number_to_irq_notification_handler (irq : Z) : result Z kernel_error :=
  if IRQ_NUMBER_MAX <=? irq then Err KE_UNSUPPORTED else Ok irq.

(** ** interrupt_port.cpp *)

Definition INT_OPERATION_TYPE : Z := 1.
Definition INT_NOTIFICATION_PORT_DESCRIPTOR : Z := 2.
Definition INT_RESULT_IRQ_NUMBER : Z := 2.

Definition convert_interrupt_port_info_to_slot_data (irq flags : Z) : capability_slot_data :=
  SlotData irq flags indeterminate.
Definition try_configure_interrupt_port_slot (slot : slot_ref) (irq flags : Z) : M kernel_result :=
  modify slots slot
    (λ _, initial_slot <| component := Some C_INTERRUPT_PORT |> <| type := CT_INTERRUPT_PORT |>
            <| rights := RIGHTS_ALL |> <| data := convert_interrupt_port_info_to_slot_data irq flags |>);;
  ok.

Definition int_lookup_error (e : capability_lookup_error) : capability_error := CE_INVALID_DESCRIPTOR.

Definition operation_bind_notification_port (owner : Z) (self : slot_ref) : M capability_result :=
  let? descriptor := map_error io_hal_error
                       (get_message_register owner INT_NOTIFICATION_PORT_DESCRIPTOR) in
  let? slot := map_error int_lookup_error (traverse_root owner descriptor) in
  nv ← load slots slot;
  if decide (type nv ≠ CT_NOTIFICATION_PORT) then fail CE_INVALID_DESCRIPTOR
  else
    sv ← load slots self;
    let? h := mret (transform_error convert_kernel_to_capability_error
                      (irq_number_to_irq_notification_handler (data_0 (data sv)))) in
    hv ← load slots (irq_slot h);
    if decide (type hv ≠ CT_NONE) then fail CE_ILLEGAL_OPERATION
    else map_error convert_kernel_to_capability_error (try_copy_capability_slot (irq_slot h) slot).

Section reclamation.
(** [try_remove_and_init] of Reclamation.v. *)
Context (remove_slot : slot_ref → M kernel_result).

Definition operation_unbind_notification_port (self : slot_ref) : M capability_result :=
  sv ← load slots self;
  let? h := mret (transform_error convert_kernel_to_capability_error
                    (irq_number_to_irq_notification_handler (data_0 (data sv)))) in
  hv ← load slots (irq_slot h);
  if decide (type hv = CT_NONE) then ok
  else map_error convert_kernel_to_capability_error (remove_slot (irq_slot h)).

Definition operation_ack (self : slot_ref) : M capability_result :=
  sv ← load slots self;
  let irq := data_0 (data sv) in
  let? _ := mret (transform_error convert_kernel_to_capability_error
                    (irq_number_to_irq_notification_handler irq)) in
  map_error convert_kernel_to_capability_error (enable_interrupt irq).

Definition operation_get_irq_number (owner : Z) (self : slot_ref) : M capability_result :=
  sv ← load slots self;
  map_error io_hal_error (configure_message_register owner INT_RESULT_IRQ_NUMBER (data_0 (data sv))).

Definition interrupt_port_execute (owner : Z) (self : slot_ref) : M capability_result :=
  operation ← message_or_0 owner INT_OPERATION_TYPE;
  match operation with
  | 1 => operation_bind_notification_port owner self
  | 2 => operation_unbind_notification_port self
  | 3 => operation_ack self
  | 4 => operation_get_irq_number owner self
  | _ => fail CE_ILLEGAL_OPERATION
  end.

Definition interrupt_port_revoke (self : slot_ref) : M capability_result :=
  sv ← load slots self;
  let irq := data_0 (data sv) in
  let? h := mret (transform_error convert_kernel_to_capability_error
                    (irq_number_to_irq_notification_handler irq)) in
  let? _ := map_error convert_kernel_to_capability_error (disable_interrupt irq) in
  let? _ := map_error convert_kernel_to_capability_error (remove_slot (irq_slot h)) in
  modify irq_notification_handlers h (λ v, v <| irq_used := false |>);; ok.

(** ** interrupt_region.cpp *)

Definition INT_REGION_IRQ_NUMBER : Z := 2.
Definition INT_REGION_TARGET_NODE : Z := 3.
Definition INT_REGION_TARGET_NODE_INDEX : Z := 4.

Definition get_empty_capability_slot_by_descriptor_and_index (owner descriptor index : Z)
    : M capability_lookup_result :=
  let? slot := traverse_root owner descriptor in
  sv ← load slots slot;
  if decide (type sv ≠ CT_NODE) then fail LE_TERMINAL
  else match component sv with
  | None => fail LE_UNEXPECTED
  | Some c =>
      let? target_slot := retrieve_slot c index in
      tv ← load slots target_slot;
      if decide (type tv ≠ CT_NONE) then fail LE_UNAVAILABLE else mret (Ok target_slot)
  end.

Definition operation_make_port (owner : Z) (self : slot_ref) : M capability_result :=
  sv ← load slots self;
  if Z.land (rights sv) RIGHTS_WRITE =? 0 then fail CE_PERMISSION_DENIED
  else
    let? node_descriptor := map_error io_hal_error
                              (get_message_register owner INT_REGION_TARGET_NODE) in
    let? index := map_error io_hal_error
                    (get_message_register owner INT_REGION_TARGET_NODE_INDEX) in
    let? irq := map_error io_hal_error (get_message_register owner INT_REGION_IRQ_NUMBER) in
    let? target_slot := map_error int_lookup_error
        (get_empty_capability_slot_by_descriptor_and_index owner node_descriptor index) in
    match irq_number_to_irq_notification_handler irq with
    | Err _ => fail CE_INVALID_ARGUMENT
    | Ok h =>
        hv ← load irq_notification_handlers h;
        if irq_used hv then fail CE_ILLEGAL_OPERATION
        else
          modify irq_notification_handlers h (λ v, v <| irq_used := true |>);;
          let? _ := map_error convert_kernel_to_capability_error
                      (try_configure_interrupt_port_slot target_slot (irq_number hv) 0) in
          insert_child self target_slot;;
          ok
    end.

Definition interrupt_region_execute (owner : Z) (self : slot_ref) : M capability_result :=
  operation ← message_or_0 owner INT_OPERATION_TYPE;
  match operation with
  | 1 => operation_make_port owner self
  | _ => fail CE_ILLEGAL_OPERATION
  end.

(** [for (auto &handler : irq_notification_handlers)], from handler [i]. *)
Fixpoint interrupt_region_revoke_loop (turns : nat) (i : Z) : M capability_result :=
  match turns with
  | O => ok
  | S turns' =>
      modify irq_notification_handlers i (λ v, v <| irq_used := false |>);;
      let? _ := map_error convert_kernel_to_capability_error (remove_slot (irq_slot i)) in
      interrupt_region_revoke_loop turns' (i + 1)
  end.
Definition interrupt_region_revoke : M capability_result :=
  interrupt_region_revoke_loop (Z.to_nat IRQ_NUMBER_MAX) 0.
End reclamation.

(** ** Virtual CPUs

    The operations by number; each of them is a stub. *)
Definition VCPU_CONFIGURE_ADDRESS_SPACE : Z := 1.
Definition VCPU_READ_STATE : Z := 3.
Definition VCPU_WRITE_STATE : Z := 4.
Definition VCPU_ENTER : Z := 5.
Definition VCPU_EXIT : Z := 6.
Definition VCPU_INJECT_IRQ : Z := 7.
Definition virtual_cpu_operation (type : Z) : M capability_result :=
  if (type =? VCPU_CONFIGURE_ADDRESS_SPACE) || (type =? VCPU_READ_STATE) || (type =? VCPU_WRITE_STATE)
     || (type =? VCPU_ENTER) then ok
  else if type =? VCPU_EXIT then fail CE_DEBUG_UNIMPLEMENTED
  else if type =? VCPU_INJECT_IRQ then ok
  else fail CE_ILLEGAL_OPERATION.
(** The number is not read from the message. *)
Definition virtual_cpu_execute (owner : Z) (self : slot_ref) : M capability_result := virtual_cpu_operation 0.

End devices.
