(* ===== verification/Reclamation.v ===== *)
(** Revocation and removal of capabilities: the mutual recursion between
    [capability_node::revoke_slot], [capability_node::remove_slot]
    (src/src/kernel/capability/capability_node_reclamation.cpp) and the virtual
    [revoke] of the component classes, and the virtual [execute]. *)

From S2P Require Import Prelude Word Types Dll Kernel Slot Scheduler Hal ProcessManager Node.
From S2P Require Import Memory Queues Notification IpcPort Generic Pcb AddressSpace Devices.

Section reclamation.
Context `{config}.

(** The virtual [capability_component::revoke]. *)
Definition component_revoke (remove_slot : slot_ref → M kernel_result) (c : component_ref)
    (self : slot_ref) : M capability_result :=
  match c with
  | C_NODE a => node_revoke remove_slot a self
  | C_GENERIC => generic_revoke self
  | C_ADDRESS_SPACE | C_PAGE_TABLE | C_FRAME | C_IO_PORT | C_VIRTUAL_CPU _ => ok
  | C_PROCESS_CONTROL_BLOCK a => pcb_revoke remove_slot a
  | C_IPC_PORT a => ipc_revoke a
  | C_NOTIFICATION_PORT a => notification_revoke remove_slot a self
  | C_INTERRUPT_REGION => interrupt_region_revoke remove_slot
  | C_INTERRUPT_PORT => interrupt_port_revoke remove_slot self
  end.

(** [remove_slot] nested at most [fuel] deep. *)
Fixpoint remove_slot_fuel (fuel : nat) (slot : slot_ref) : M kernel_result :=
  match fuel with
  | O => out_of_fuel
  | S fuel' =>
      remove_slot_body
        (revoke_slot_body (component_revoke (remove_slot_fuel fuel')) (remove_slot_fuel fuel'))
        slot
  end.

(** A nested removal goes on only in a slot that is not yet [reclaiming], and
    marks it: the nesting is at most as deep as there are slots, and one call
    further each end. *)
Definition reclamation_fuel : M nat := reads (λ k, S (size (slots k))).

Definition remove_slot (slot : slot_ref) : M kernel_result :=
  fuel ← reclamation_fuel; remove_slot_fuel fuel slot.
Definition revoke_slot (slot : slot_ref) : M kernel_result :=
  fuel ← reclamation_fuel;
  revoke_slot_body (component_revoke (remove_slot_fuel fuel)) (remove_slot_fuel fuel) slot.

(** [capability_slot::try_revoke] and [try_remove_and_init]. *)
Definition try_revoke (slot : slot_ref) : M kernel_result := revoke_slot slot.
Definition try_remove_and_init (slot : slot_ref) : M kernel_result := remove_slot slot.

(** The virtual [capability_component::execute]. *)
Definition component_execute (c : component_ref) (owner : Z) (self : slot_ref) : M capability_result :=
  match c with
  | C_NODE a => node_execute revoke_slot remove_slot owner a self
  | C_GENERIC => generic_execute try_remove_and_init owner self
  | C_ADDRESS_SPACE => as_execute owner self
  | C_PAGE_TABLE => fail CE_ILLEGAL_OPERATION
  | C_FRAME => fail CE_DEBUG_UNIMPLEMENTED
  | C_PROCESS_CONTROL_BLOCK a => pcb_execute try_remove_and_init a owner
  | C_IPC_PORT a => ipc_execute a owner self
  | C_NOTIFICATION_PORT a => notification_execute a owner self
  | C_INTERRUPT_REGION => interrupt_region_execute owner self
  | C_INTERRUPT_PORT => interrupt_port_execute try_remove_and_init owner self
  | C_IO_PORT => io_execute owner self
  | C_VIRTUAL_CPU _ => virtual_cpu_execute owner self
  end.

End reclamation.
