(* ===== verification/KernelCall.v ===== *)
(** The entries of the kernel: kernel calls
    (src/src/kernel/kernelcall/kernel_call.cpp), timer, device and
    inter-processor interrupts and faults
    (src/src/kernel/interrupt/interrupt_manager.cpp).

    Each runs from the acquisition of the giant lock to its release, so that a
    handler is one atomic step of the kernel state. *)

From S2P Require Import Prelude Word Types Dll Kernel Slot Scheduler Hal ProcessManager Node.
From S2P Require Import Memory Queues Notification IpcPort Generic Pcb AddressSpace Devices Reclamation.

(** [kernel_call_type], whose words are negative. *)
Inductive kernel_call_type := CAPABILITY_CALL | YIELD | DEBUG.
Definition kernel_call_type_of_sword (w : Z) : option kernel_call_type :=
  match w with
  | -1 => Some CAPABILITY_CALL | -2 => Some YIELD | -3 => Some DEBUG
  | _ => None
  end.

Section kernel_call.
Context `{config}.

(** ** kernel_call.cpp *)

(** The results of the writes are not looked at. *)
Definition configure_capability_error (current : Z) (e : capability_error) : M unit :=
  configure_message_register current 0 0;;
  configure_message_register current 1 (capability_error_word e);;
  mret tt.
Definition configure_capability_success (current : Z) : M unit :=
  configure_message_register current 0 1;; mret tt.

Definition handle_capability_error (current : Z) (e : capability_error) : M kernel_result :=
  configure_capability_error current e;;
  if decide (e = CE_FATAL) then fail KE_UNEXPECTED else fail KE_TRY_AGAIN.

Definition handle_capability_call (current : Z) : M kernel_result :=
  root ← load slots (process_slot_ref current ROOT_SLOT);
  match component root with
  | None => fail KE_INIT_FIRST
  | Some c =>
      raw_descriptor ← message_or_0 current 0;
      r ← traverse_slot c raw_descriptor (extract_depth raw_descriptor) BYTE_BITS;
      match r with
      | Err _ => configure_capability_error current CE_INVALID_DESCRIPTOR;; fail KE_TRY_AGAIN
      | Ok slot =>
          sv ← load slots slot;
          if decide (type sv = CT_NONE) then handle_capability_error current CE_INVALID_DESCRIPTOR
          else
            c ← defined (component sv);
            result ← component_execute c current slot;
            match result with
            | Ok _ => configure_capability_success current;; ok
            | Err e =>
                configure_capability_error current e;;
                if decide (e = CE_FATAL) then fail KE_UNEXPECTED else ok
            end
      end
  end.

Definition handle_yield : M kernel_result :=
  let? manager := current_process_manager in yield manager.

Definition handle_debug_call (current : Z) : M kernel_result :=
  raw ← get_message_register current 0;
  c ← defined (match raw with Ok v => Some v | Err _ => None end);
  emit (EV_PUT_CHAR (wrap8 c));;
  ok.

(** The result is dropped by the caller. *)
Definition handle_kernel_call (call : option kernel_call_type) : M kernel_result :=
  let? current := current_process_on_this_core in
  match call with
  | Some CAPABILITY_CALL => handle_capability_call current
  | Some YIELD => handle_yield
  | Some DEBUG => handle_debug_call current
  | None => fail KE_UNEXPECTED
  end.

(** ** interrupt_manager.cpp *)

(** [handle_timer]: the interrupt is completed whatever the timer did. *)
Definition handle_timer_interrupt : M unit :=
  (let? manager := current_process_manager in handle_timer manager);;
  ack_interrupt;;
  mret tt.

(** The delivery of a device interrupt to the Notification Port bound to it. *)
Definition deliver_interrupt (irq : Z) : M kernel_result :=
  let? manager := current_process_manager in
  let? h := mret (irq_number_to_irq_notification_handler irq) in
  hv ← load slots (irq_slot h);
  if decide (type hv = CT_NONE) then fail KE_TRY_AGAIN
  else if decide (type hv ≠ CT_NOTIFICATION_PORT) then fail KE_TRY_AGAIN
  else
    match component hv with
    | None => fail KE_TRY_AGAIN
    | Some (C_NOTIFICATION_PORT port) =>
        let? current := retrieve_current_process in
        map_error (λ _, KE_TRY_AGAIN) (notification_operation_notify port current (irq_slot h))
    | Some _ => undefined
    end.

Definition handle_interrupt (irq : Z) : M unit :=
  deliver_interrupt irq;;
  disable_interrupt irq;;
  ack_interrupt;;
  mret tt.

Definition handle_ipi_reschedule : M kernel_result :=
  let? manager := current_process_manager in
  let? current := retrieve_current_process in
  let? local := map_error convert_hal_to_kernel_error current_local_variable in
  lv ← load cpu_local_variables local;
  let target := pending_reschedule_target lv in
  modify cpu_local_variables local (λ v, v <| pending_reschedule_target := None |>);;
  cp ← load processes current;
  let? _ := (if bool_decide (status cp = PS_READY) || bool_decide (status cp = PS_IDLE)
             then mark_scheduled_on manager current else ok) in
  match target with
  | Some t =>
      tp ← load processes t;
      if (core_affinity tp =? core_number lv) && bool_decide (status tp = PS_READY)
         && is_in_ready_queue tp
      then try_remote_target_and_switch manager t local
      else try_schedule_and_switch manager
  | None => try_schedule_and_switch manager
  end.

(** The fault of the current process, reported to its resolver. *)
Definition report_fault (current : Z) (reason : fault_type) (code arch_code address : Z)
    : M capability_result :=
  modify processes current
    (λ p, p <| fault_reason := reason |> <| fault_address := address |> <| fault_code := code |>
            <| arch_fault_code := arch_code |>);;
  let slot := process_slot_ref current RESOLVER_PORT in
  sv ← load slots slot;
  match type sv, component sv with
  | CT_IPC_PORT, Some (C_IPC_PORT port) =>
      or_else (operation_fault_call port current slot)
        (λ e, modify processes current (λ p, p <| status := PS_BLOCKED_SUSPEND |>);; fail e)
  | CT_IPC_PORT, Some _ => undefined
  | _, _ =>
      modify processes current (λ p, p <| status := PS_BLOCKED_SUSPEND |>);;
      fail CE_INVALID_DESCRIPTOR
  end.

Definition handle_fault (reason : fault_type) (code arch_code address : Z) : M kernel_result :=
  local ← current_local_variable;
  idle ← match local with
         | Ok l => lv ← load cpu_local_variables l; mret (is_idle lv)
         | Err _ => mret false
         end;
  if (idle : bool) then ok
  else
    let? manager := current_process_manager in
    or_else
      (let? current := map_error convert_kernel_to_capability_error retrieve_current_process in
       report_fault current reason code arch_code address)
      (λ _, try_schedule_and_switch manager).

End kernel_call.
