(* ===== verification/ReclamationProofs.v ===== *)
(** Correctness of revocation (Reclamation.v): revoking a capability removes every
    capability derived from it and nothing else. *)

From S2P Require Import Prelude Word Types Dll Kernel Slot SlotProofs Scheduler Hal ProcessManager.
From S2P Require Import Node Memory Queues Notification IpcPort Generic Pcb AddressSpace Devices Reclamation.

(** ** What removal leaves *)

(** The slots of [R] are empty; the others kept everything but their links, and
    those outside the chain [l] kept their links too. *)
Record cleared (σ σ' : gmap slot_ref capability_slot) (l R : list slot_ref) : Prop := {
  cleared_removed x : x ∈ R → σ' !! x = Some initial_slot;
  cleared_core x : x ∉ R → slot_core <$> σ' !! x = slot_core <$> σ !! x;
  cleared_other x : x ∉ l → x ∉ R → σ' !! x = σ !! x;
}.

Lemma cleared_refl σ l : cleared σ σ l [].
Proof. split; [set_solver|done..]. Qed.

Lemma cleared_trans σ σ1 σ2 l l' R1 R2 :
  cleared σ σ1 l R1 → cleared σ1 σ2 l' R2 → l' ⊆ l → R2 ⊆ l' → (∀ x, x ∈ R1 → x ∉ l') →
  cleared σ σ2 l (R1 ++ R2).
Proof.
  intros [A1 A2 A3] [B1 B2 B3] Hl HR Hdis. split.
  - intros x [Hx|Hx]%elem_of_app; [|by apply B1]. rewrite B3; [by apply A1|by apply Hdis|].
    intros Hx'. by apply (Hdis x Hx), HR.
  - intros x Hx. rewrite B2, A2; [done|set_solver..].
  - intros x Hx Hx'. rewrite B3, A3; [done|set_solver..].
Qed.

(** Equality of what two lookups found, but for the links. *)
Lemma core_eq_inv (o : option capability_slot) v :
  slot_core <$> o = slot_core <$> Some v → ∃ v', o = Some v' ∧ slot_core v' = slot_core v.
Proof.
  destruct o as [v'|]; [|done]. intros He.
  change (Some (slot_core v') = Some (slot_core v)) in He. exists v'. split; [done|congruence].
Qed.

(** A slot that stays keeps its content. *)
Lemma cleared_lookup σ σ' l R x v :
  cleared σ σ' l R → x ∉ R → σ !! x = Some v → ∃ v', σ' !! x = Some v' ∧ slot_core v' = slot_core v.
Proof.
  intros Hc Hx Hv. apply core_eq_inv. rewrite <- Hv. by apply (cleared_core _ _ _ _ Hc).
Qed.

(** What the alias test reads of a slot. *)
Definition slot_key (v : capability_slot) := (component v, type v, data v, depth v).

Lemma slot_key_core v v' : slot_core v' = slot_core v → slot_key v' = slot_key v.
Proof. destruct v, v'. unfold slot_core, slot_key. ksimpl_goal. by intros [=-> -> -> -> -> ->]. Qed.

Lemma is_alias_key v v' w w' :
  slot_key v' = slot_key v → slot_key w' = slot_key w → is_alias v' w' = is_alias v w.
Proof.
  destruct v, v', w, w'. unfold slot_key, is_alias, is_same_object, component_is_same_object. cbn.
  by intros [=-> -> -> ->] [=-> -> -> ->].
Qed.

(** A prefix of a chain that is decided slot by slot. *)
Lemma descendants_core σ σ' d l :
  (∀ x, x ∈ l → slot_core <$> σ' !! x = slot_core <$> σ !! x) →
  descendants σ' d l = descendants σ d l.
Proof.
  induction l as [|x l IH]; intros Hx; [done|]. cbn.
  rewrite IH by (intros; apply Hx; set_solver). specialize (Hx x ltac:(set_solver)).
  destruct (σ !! x) as [v|].
  - apply core_eq_inv in Hx as (v' & -> & Hk%slot_key_core). injection Hk as _ _ _ ->. done.
  - by destruct (σ' !! x).
Qed.

Lemma descendants_spec σ d l :
  ∃ l', l = descendants σ d l ++ l' ∧
    (∀ x, x ∈ descendants σ d l → ∃ v, σ !! x = Some v ∧ d < depth v) ∧
    (∀ x v, head l' = Some x → σ !! x = Some v → depth v ≤ d).
Proof.
  induction l as [|x l (l' & Hl & Hd & Hh)]; [by exists []; set_solver|]. cbn.
  destruct (σ !! x) as [v|] eqn:Hx; [|exists (x :: l); split_and!; [done|set_solver|]; naive_solver].
  destruct (Z.ltb_spec d (depth v)).
  - exists l'. split_and!; [cbn; by rewrite <- Hl| |done]. set_solver.
  - exists (x :: l). split_and!; [done|set_solver|]. intros. naive_solver.
Qed.

Lemma descendants_app σ d l1 l2 :
  (∀ x, x ∈ l1 → ∃ v, σ !! x = Some v ∧ d < depth v) →
  descendants σ d (l1 ++ l2) = l1 ++ descendants σ d l2.
Proof.
  induction l1 as [|x l1 IH]; intros Hx; [done|]. cbn.
  destruct (Hx x) as (v & -> & Hd); [set_solver|]. rewrite (proj2 (Z.ltb_lt _ _)) by lia.
  f_equal. apply IH. set_solver.
Qed.

(** The descendants of a slot deeper than [d] are deeper than [d]. *)
Lemma descendants_mono σ d d' l x : d ≤ d' → x ∈ descendants σ d' l → x ∈ descendants σ d l.
Proof.
  intros Hd. induction l as [|y l IH]; [done|]. cbn. destruct (σ !! y) as [v|]; [|done].
  destruct (Z.ltb_spec d' (depth v)); [|set_solver].
  rewrite (proj2 (Z.ltb_lt d _)) by lia. set_solver.
Qed.

(** ** Capabilities without a finaliser of their own *)

(** Components whose [revoke] touches no object but the slot. *)
Definition simple_component (c : component_ref) : bool :=
  match c with
  | C_GENERIC | C_ADDRESS_SPACE | C_PAGE_TABLE | C_FRAME | C_IO_PORT | C_VIRTUAL_CPU _ => true
  | _ => false
  end.

Definition simple (v : capability_slot) : Prop :=
  reclaiming v = false ∧ type v ≠ CT_NONE ∧ ∃ c, component v = Some c ∧ simple_component c = true.

(** Generics cannot be copied: no slot of the chain is an alias of one. *)
Definition generics_unique (σ : gmap slot_ref capability_slot) (l : list slot_ref) : Prop :=
  ∀ x y v w, x ∈ l → y ∈ l → x ≠ y → σ !! x = Some v → σ !! y = Some w →
             component v = Some C_GENERIC → is_alias v w = false.

Lemma simple_core v v' : slot_core v' = slot_core v → simple v → simple v'.
Proof.
  destruct v, v'. unfold slot_core, simple. ksimpl_goal. by intros [=-> -> -> -> -> ->].
Qed.

(** The slots of [l] keep what the alias test reads. *)
Lemma generics_unique_key σ σ' l l' :
  l' ⊆ l → (∀ x v', x ∈ l' → σ' !! x = Some v' → ∃ v, σ !! x = Some v ∧ slot_key v' = slot_key v) →
  generics_unique σ l → generics_unique σ' l'.
Proof.
  intros Hl Hkey Hu x y v' w' Hx Hy Hne Hv' Hw' Hc.
  destruct (Hkey x v' Hx Hv') as (v & Hv & Hkv). destruct (Hkey y w' Hy Hw') as (w & Hw & Hkw).
  rewrite (is_alias_key v v' w w') by done.
  apply (Hu x y); try done; try (by apply Hl). unfold slot_key in Hkv. congruence.
Qed.

Lemma generics_unique_cleared σ σ' l l' R :
  cleared σ σ' l R → l' ⊆ l → (∀ x, x ∈ R → x ∉ l') → generics_unique σ l → generics_unique σ' l'.
Proof.
  intros Hc Hl Hdis. apply generics_unique_key; [done|]. intros x v' Hx Hv'.
  assert (x ∉ R) as HxR by (by intros ?%Hdis).
  pose proof (cleared_core _ _ _ _ Hc x HxR) as He. rewrite Hv' in He. symmetry in He.
  apply core_eq_inv in He as (v & Hv & Hk). exists v. split; [done|]. symmetry. by apply slot_key_core.
Qed.

(** The slot after its component was revoked. *)
Definition finalised (v : capability_slot) : capability_slot :=
  match component v with
  | Some C_GENERIC =>
      v <| data := dump_slot_data (reset_watermark (create_generic_info (data v))) |>
  | _ => v
  end.

(** ** Steps of removal *)

Section removal.
Context `{config} (k : kernel).
Implicit Types (σ : gmap slot_ref capability_slot) (l : list slot_ref).

Lemma unlink_and_clear_slot_spec σ l1 s l2 Q :
  chain σ (l1 ++ s :: l2) →
  (∀ σ', chain σ' (l1 ++ l2) → cleared σ σ' (l1 ++ s :: l2) [s] → Q (Ok tt) (with_slots σ' k)) →
  wp (unlink_and_clear_slot s) Q (with_slots σ k).
Proof.
  intros Hch HQ. unfold unlink_and_clear_slot. wp_step.
  eapply remove_from_dependency_node_spec; [done|]. intros σ1 Hch1 Hs Hf. wp_step.
  pose proof (chain_fresh _ _ _ _ Hch) as Hfresh.
  destruct (chain_at _ _ _ _ Hch) as (v & Hv & _).
  eapply wp_init; [by rewrite Hs, Hv|]. wp_steps. apply HQ.
  - eapply dlist_ext; [|done]. intros y Hy. unfold heap_links.
    by rewrite lookup_insert_ne by (intros ->; done).
  - split.
    + intros x ->%list_elem_of_singleton. apply lookup_insert_eq.
    + intros x Hx. rewrite lookup_insert_ne by set_solver.
      by rewrite <- !lookup_fmap, (frame_core _ _ _ Hf).
    + intros x Hx Hx'. rewrite lookup_insert_ne by set_solver. apply (frame_other _ _ _ Hf).
      intros [[? ->]%last_Some|[? ->]%head_Some]; set_solver.
Qed.

(** A slot without an alias next to it is its own alias group. *)
Lemma has_sibling_spec σ l1 s l2 v Q :
  chain σ (l1 ++ s :: l2) → σ !! s = Some v →
  (∀ b, (b = false → alias_prefix σ v l2 = []) → Q b (with_slots σ k)) →
  wp (has_sibling s) Q (with_slots σ k).
Proof.
  intros Hch Hv HQ. destruct (chain_at _ _ _ _ Hch) as (v' & ? & Hp & Hn). simplify_eq.
  pose proof (chain_neighbours _ _ _ _ Hch) as Hnb.
  assert (Hprev : ∀ o, o = last l1 → (alias_prefix σ v l2 = []) →
    wp (neighbour_is_alias v o) Q (with_slots σ k)).
  { intros o -> Hnil. unfold neighbour_is_alias. destruct (last l1) as [x|] eqn:Hl.
    - destruct (Hnb x) as (_ & (xv & Hx) & _); [by auto|]. slot_steps. by apply HQ.
    - slot_steps. by apply HQ. }
  unfold has_sibling. slot_steps. unfold neighbour_is_alias at 1. rewrite Hn.
  destruct l2 as [|x l2]; cbn [head]; [slot_steps; by apply Hprev|].
  destruct (Hnb x) as (_ & (xv & Hx) & _); [by auto|]. slot_steps.
  destruct (is_alias v xv) eqn:Ha; [slot_steps; by apply HQ|].
  apply Hprev; [done|]. cbn. by rewrite Hx, Ha.
Qed.

(** A slot with no alias and no deeper successor has no child. *)
Lemma has_child_none σ l1 s l2 v Q :
  chain σ (l1 ++ s :: l2) → σ !! s = Some v → alias_prefix σ v l2 = [] →
  (∀ x w, head l2 = Some x → σ !! x = Some w → depth w ≤ depth v) →
  Q false (with_slots σ k) → wp (has_child s) Q (with_slots σ k).
Proof.
  intros Hch Hv Hal Hh HQ. destruct (chain_at _ _ _ _ Hch) as (v' & ? & Hp & Hn). simplify_eq.
  unfold has_child. slot_steps. eapply last_alias_in_group_spec; [done..|]. rewrite Hal. cbn.
  slot_steps. rewrite Hn. destruct l2 as [|x l2]; cbn [head]; slot_steps; [done|].
  destruct (chain_neighbours _ _ _ _ Hch x) as (_ & (xv & Hx) & _); [by auto|]. slot_steps.
  rewrite (proj2 (Z.ltb_ge _ _)); [done|]. by eapply Hh.
Qed.

(** The finaliser of a simple component. *)
Lemma simple_revoke_spec rm σ l1 s l2 v c Q :
  chain σ (l1 ++ s :: l2) → σ !! s = Some v → component v = Some c → simple_component c = true →
  (c = C_GENERIC → alias_prefix σ v l2 = [] ∧
     ∀ x w, head l2 = Some x → σ !! x = Some w → depth w ≤ depth v) →
  Q (Ok tt) (with_slots (<[s := finalised v]> σ) k) →
  wp (component_revoke rm c s) Q (with_slots σ k).
Proof.
  intros Hch Hv Hc Hs Hgen HQ. unfold finalised in HQ. rewrite Hc in HQ.
  destruct c; try done; cbn [component_revoke]; try (wp_step; by rewrite insert_id in HQ).
  destruct (Hgen eq_refl) as [Hal Hh]. unfold generic_revoke. wp_step.
  eapply has_child_none; [done..|]. slot_steps. done.
Qed.

(** What the removal of the slot [n] (by [rm]) has to achieve: it takes [n] and
    perhaps the first of its descendants, of which there are fewer than
    [bound]. *)
Definition removes (rm : slot_ref → M kernel_result) (bound : nat) : Prop :=
  ∀ σ l1 n l2 v Q,
    chain σ (l1 ++ n :: l2) → σ !! n = Some v → simple v →
    (∀ x, x ∈ descendants σ (depth v) l2 → ∃ w, σ !! x = Some w ∧ simple w) →
    generics_unique σ (l1 ++ n :: l2) → (length (descendants σ (depth v) l2) < bound)%nat →
    (∀ σ' R l2', l2 = R ++ l2' → R ⊆ descendants σ (depth v) l2 → chain σ' (l1 ++ l2') →
                 cleared σ σ' (l1 ++ n :: l2) (n :: R) → Q (Ok tt) (with_slots σ' k)) →
    wp (rm n) Q (with_slots σ k).

End removal.

Lemma descendants_length σ d d' l :
  d ≤ d' → (length (descendants σ d' l) ≤ length (descendants σ d l))%nat.
Proof.
  intros Hd. induction l as [|y l IH]; [done|]. cbn. destruct (σ !! y) as [v|]; [|done].
  destruct (Z.ltb_spec d' (depth v)); [|cbn; lia].
  rewrite (proj2 (Z.ltb_lt d _)) by lia. cbn. lia.
Qed.

Section revocation.
Context `{config} (k : kernel).
Implicit Types (σ : gmap slot_ref capability_slot) (l : list slot_ref).

(** A removed prefix and what stays of a chain have no slot in common. *)
Lemma chain_disjoint σ l1 R l2 x : chain σ (l1 ++ R ++ l2) → x ∈ R → x ∉ l1 ++ l2.
Proof.
  intros Hch%dlist_NoDup Hx. apply NoDup_app in Hch as (_ & H1 & (_ & H2 & _)%NoDup_app).
  intros [Hx1|Hx2]%elem_of_app; [apply (H1 x Hx1)|by apply (H2 x)]. set_solver.
Qed.

(** The loop of [revoke_slot] removes all descendants of [s]; [la] is the last
    slot of its alias group. *)
Lemma revoke_children_spec rm bound turns σ l1 la l2 s sv Q :
  removes k rm bound →
  chain σ (l1 ++ la :: l2) → s ∈ l1 ++ [la] → σ !! s = Some sv →
  (∀ x, x ∈ descendants σ (depth sv) l2 → ∃ w, σ !! x = Some w ∧ simple w) →
  generics_unique σ (l1 ++ la :: l2) →
  (length (descendants σ (depth sv) l2) ≤ turns)%nat →
  (length (descendants σ (depth sv) l2) ≤ bound)%nat →
  (∀ σ' l2', l2 = descendants σ (depth sv) l2 ++ l2' → chain σ' (l1 ++ la :: l2') →
     cleared σ σ' (l1 ++ la :: l2) (descendants σ (depth sv) l2) →
     (∀ x w, head l2' = Some x → σ' !! x = Some w → depth w ≤ depth sv) →
     Q (Ok tt) (with_slots σ' k)) →
  wp (revoke_children rm turns s la) Q (with_slots σ k).
Proof.
  intros Hrm. revert σ l2 sv Q.
  induction turns as [|turns IH]; intros σ l2 sv Q Hch Hs Hsv Hsimple Hu Ht Hb HQ.
  all: destruct (chain_at _ _ _ _ Hch) as (lav & Hla & _ & Hn); cbn [revoke_children]; slot_steps.
  all: rewrite Hn; destruct l2 as [|x l2]; cbn [head];
    [slot_steps; eapply HQ; [done|done|apply cleared_refl|done]|].
  all: destruct (chain_at σ (l1 ++ [la]) x l2) as (xv & Hx & _); [by rewrite <- app_assoc|]; slot_steps.
  all: cbn [descendants] in *; rewrite Hx in *; destruct (Z.ltb_spec (depth sv) (depth xv)) as [Hd|Hd];
    [cbn in Ht|slot_steps; eapply HQ; [done|done|apply cleared_refl|naive_solver]].
  { lia. }
  destruct (Hsimple x ltac:(set_solver)) as (xv' & Hx' & Hxs). rewrite Hx in Hx'. injection Hx' as <-.
  wp_step. apply (Hrm σ (l1 ++ [la]) x l2 xv); try done.
  - by rewrite <- app_assoc.
  - intros y Hy. apply Hsimple. right. eapply descendants_mono; [|done]. lia.
  - by rewrite <- app_assoc.
  - pose proof (descendants_length σ (depth sv) (depth xv) l2 ltac:(lia)). cbn in Hb. lia.
  - intros σ1 R l2' Heq HR Hch1 Hc1. subst l2. rewrite <- !app_assoc in Hch1, Hc1.
    cbn [app] in Hch1, Hc1.
    assert (HRd : ∀ y, y ∈ R → ∃ w, σ !! y = Some w ∧ depth sv < depth w).
    { intros y Hy. destruct (descendants_spec σ (depth xv) (R ++ l2')) as (? & _ & Hdd & _).
      destruct (Hdd y) as (w & ? & ?); [by apply HR|]. exists w. split; [done|lia]. }
    assert (Hdis : ∀ y, y ∈ x :: R → y ∉ l1 ++ la :: l2').
    { intros y Hy. replace (l1 ++ la :: l2') with ((l1 ++ [la]) ++ l2') by (by rewrite <- app_assoc).
      eapply (chain_disjoint σ _ (x :: R)); [|done]. by rewrite <- app_assoc. }
    destruct (cleared_lookup _ _ _ _ s sv Hc1) as (sv1 & Hsv1 & Hk%slot_key_core); [|done|].
    { intros Hin. apply (Hdis s Hin). set_solver. }
    assert (depth sv1 = depth sv) as Hdepth by (unfold slot_key in Hk; congruence).
    assert (Hdesc : descendants σ1 (depth sv1) l2' = descendants σ (depth sv) l2').
    { rewrite Hdepth. apply descendants_core. intros y Hy. apply (cleared_core _ _ _ _ Hc1).
      intros Hin. apply (Hdis y Hin). set_solver. }
    rewrite (descendants_app σ (depth sv) R l2' HRd) in *. cbn in Ht, Hb. rewrite length_app in Ht, Hb.
    apply (IH σ1 l2' sv1); rewrite ?Hdesc; try done; try lia.
    + intros y Hy. destruct (Hsimple y ltac:(set_solver)) as (w & Hw & Hws).
      destruct (cleared_lookup _ _ _ _ y w Hc1) as (w1 & ? & Hcore); [|done|].
      { intros Hin. apply (Hdis y Hin).
        destruct (descendants_spec σ (depth sv) l2') as (l3 & -> & _). set_solver. }
      exists w1. split; [done|]. by eapply simple_core.
    + eapply generics_unique_cleared; [exact Hc1| |done|done]. set_solver.
    + intros σ2 l3 Hl3 Hch2 Hc2 Hh. rewrite Hdepth in Hh. apply (HQ σ2 l3); try done.
      * cbn. f_equal. rewrite <- app_assoc. by f_equal.
      * apply (cleared_trans σ σ1 σ2 _ (l1 ++ la :: l2') (x :: R)); try done; [set_solver|].
        rewrite Hl3 at 2. set_solver.
Qed.

Lemma alias_prefix_key σ v v' l :
  slot_key v' = slot_key v → alias_prefix σ v' l = alias_prefix σ v l.
Proof.
  intros Hk. induction l as [|x l IH]; [done|]. cbn. destruct (σ !! x); [|done].
  by rewrite IH, (is_alias_key v v' c c).
Qed.

Lemma generic_no_alias σ l1 s l2 v :
  chain σ (l1 ++ s :: l2) → generics_unique σ (l1 ++ s :: l2) → σ !! s = Some v →
  component v = Some C_GENERIC → alias_prefix σ v l2 = [].
Proof.
  intros Hch Hu Hv Hc. pose proof (chain_fresh _ _ _ _ Hch) as Hs.
  destruct l2 as [|x l2]; [done|]. cbn.
  destruct (σ !! x) as [w|] eqn:Hx; [|done]. rewrite (Hu s x v w); try done; set_solver.
Qed.

(** [finalised] keeps the links and the marks of a slot. *)
Lemma finalised_links v :
  next_slot (finalised v) = next_slot v ∧ preview_slot (finalised v) = preview_slot v.
Proof. unfold finalised. destruct (component v) as [[]|]; done. Qed.

Lemma finalised_unmarked v w :
  slot_core w = slot_core (v <| reclaiming := true |>) → reclaiming v = false →
  slot_core ((finalised w) <| reclaiming := false |>) = slot_core (finalised v).
Proof.
  destruct v, w. unfold slot_core, finalised. ksimpl_goal. intros [=-> -> -> -> -> ->] ->.
  by destruct component as [[]|].
Qed.

(** Replacing a slot by one with the same links keeps the chain. *)
Lemma chain_replace_value σ l s v w :
  chain σ l → σ !! s = Some v → next_slot w = next_slot v → preview_slot w = preview_slot v →
  chain (<[s := w]> σ) l.
Proof.
  intros Hch Hv Hn Hp. eapply dlist_ext; [|done]. intros y Hy. unfold heap_links.
  destruct (decide (y = s)) as [->|]; [|by rewrite lookup_insert_ne].
  rewrite lookup_insert_eq, Hv. cbn. by rewrite Hn, Hp.
Qed.

(** The end of the alias group of [s] as a position in the chain. *)
Lemma group_end (l1 : list slot_ref) s al :
  ∃ l0, (∀ l, l1 ++ s :: al ++ l = l0 ++ default s (last al) :: l) ∧
        s ∈ l0 ++ [default s (last al)].
Proof.
  destruct al as [|x al _] using rev_ind; [exists l1; split; [done|set_solver]|].
  exists (l1 ++ s :: al). rewrite last_snoc. split; [|set_solver].
  intros l. by rewrite <- !app_assoc.
Qed.

(** Marking a slot does not change what the alias test reads. *)
Lemma generics_unique_mark σ l s v :
  σ !! s = Some v → generics_unique σ l → generics_unique (<[s := v <| reclaiming := true |>]> σ) l.
Proof.
  intros Hv. apply generics_unique_key; [reflexivity|]. intros x w' _ Hw'.
  apply lookup_insert_Some in Hw' as [[<- <-]|[_ Hw']]; [|by eauto]. by exists v.
Qed.

(** The end of a revocation: the component is finalised and the mark taken off. *)
Lemma cleared_finalised σ σ2 l D s v v2 :
  let σ1 := <[s := v <| reclaiming := true |>]> σ in
  cleared σ1 σ2 l D → s ∈ l → s ∉ D → σ2 !! s = Some v2 → reclaiming v = false →
  cleared (<[s := finalised v]> σ) (<[s := (finalised v2) <| reclaiming := false |>]> σ2) l D.
Proof.
  intros σ1 Hc Hs HsD Hv2 Hrec.
  pose proof (cleared_core _ _ _ _ Hc s HsD) as He. unfold σ1 in He. rewrite Hv2, lookup_insert_eq in He.
  apply core_eq_inv in He as (w & [= <-] & Hcore). split.
  - intros x Hx. rewrite lookup_insert_ne by (intros <-; done). by apply (cleared_removed _ _ _ _ Hc).
  - intros x Hx. destruct (decide (x = s)) as [->|Hne].
    + rewrite !lookup_insert_eq. cbn [fmap option_fmap option_map]. f_equal. by apply finalised_unmarked.
    + rewrite !lookup_insert_ne by done. rewrite (cleared_core _ _ _ _ Hc) by done.
      unfold σ1. by rewrite lookup_insert_ne.
  - intros x Hx Hx'. assert (x ≠ s) by (intros ->; done).
    rewrite !lookup_insert_ne by done. rewrite (cleared_other _ _ _ _ Hc) by done.
    unfold σ1. by rewrite lookup_insert_ne.
Qed.

Lemma revoke_slot_body_spec rm bound σ l1 s l2 v Q :
  let al := alias_prefix σ v l2 in
  let rest := alias_rest σ v l2 in
  let D := descendants σ (depth v) rest in
  removes k rm bound →
  chain σ (l1 ++ s :: l2) → σ !! s = Some v → simple v →
  (∀ x, x ∈ D → ∃ w, σ !! x = Some w ∧ simple w) → generics_unique σ (l1 ++ s :: l2) →
  (length D ≤ bound)%nat →
  (∀ σ' l2', rest = D ++ l2' → chain σ' (l1 ++ s :: al ++ l2') →
     cleared (<[s := finalised v]> σ) σ' (l1 ++ s :: l2) D → Q (Ok tt) (with_slots σ' k)) →
  wp (revoke_slot_body (component_revoke rm) rm s) Q (with_slots σ k).
Proof.
  intros al rest D Hrm Hch Hv (Hrec & Htype & c & Hc & Hsc) HD Hu Hb HQ.
  pose proof (alias_split σ v l2) as Hsplit. fold al rest in Hsplit.
  pose proof (chain_fresh _ _ _ _ Hch) as Hs.
  destruct (group_end l1 s al) as (l0 & Hl0 & Hin). set (la := default s (last al)) in *.
  unfold revoke_slot_body. slot_steps. rewrite bool_decide_eq_false_2 by done.
  rewrite Hc, bool_decide_eq_true_2, Hrec by done. cbn [orb negb]. slot_steps.
  set (v1 := v <| reclaiming := true |>). set (σ1 := <[s := v1]> σ).
  assert (Hext : ∀ x, x ∈ l2 → σ1 !! x = σ !! x).
  { intros x Hx. apply lookup_insert_ne. intros <-. set_solver. }
  assert (Hch1 : chain σ1 (l1 ++ s :: l2)) by (by eapply chain_replace_value).
  eapply last_alias_in_group_spec; [done|apply lookup_insert_eq|].
  rewrite (alias_prefix_key _ v v1), (alias_prefix_ext σ) by done. fold al la. wp_steps.
  assert (HD1 : descendants σ1 (depth v1) rest = D).
  { apply descendants_ext. intros x Hx. apply Hext. rewrite Hsplit. set_solver. }
  assert (HDl2 : D ⊆ l2).
  { destruct (descendants_spec σ (depth v) rest) as (l3 & Hl3 & _). fold D in Hl3.
    rewrite Hsplit, Hl3. set_solver. }
  rewrite Hsplit, Hl0 in Hch1.
  eapply (revoke_children_spec rm bound _ σ1 l0 la rest s v1); rewrite ?HD1; try done.
  - apply lookup_insert_eq.
  - intros x Hx. destruct (HD x Hx) as (w & Hw & Hws). exists w. by rewrite Hext by set_solver.
  - rewrite <- Hl0, <- Hsplit. by apply generics_unique_mark.
  - ksimpl_goal. transitivity (length (l0 ++ la :: rest)).
    + destruct (descendants_spec σ (depth v) rest) as (l3 & Hl3 & _). fold D in Hl3.
      rewrite Hl3, length_app. cbn. rewrite length_app. lia.
    + by apply (dlist_heap_length preview_slot next_slot).
  - intros σ2 l2' Hrest Hch2 Hc2 Hh. rewrite <- Hl0 in Hch2.
    rewrite <- (Hl0 rest), <- Hsplit in Hc2.
    assert (s ∉ D) as HsD by set_solver.
    destruct (cleared_lookup _ _ _ _ s v1 Hc2 HsD) as (v2 & Hv2 & Hcore2); [apply lookup_insert_eq|].
    pose proof (slot_key_core _ _ Hcore2) as Hkey2.
    assert (component v2 = Some c) as Hcv2 by (unfold slot_key in Hkey2; cbn in Hkey2; congruence).
    slot_steps. rewrite Hcv2. eapply wp_defined; [done|]. wp_step.
    eapply (simple_revoke_spec k rm σ2 l1 s (al ++ l2')); try done.
    + intros ->. assert (al = []) as Hal by (by eapply generic_no_alias). rewrite Hal in *.
      split; [|].
      * eapply generic_no_alias; [done| |done|done].
        eapply generics_unique_cleared; [exact Hc2| | |].
        -- rewrite Hsplit, Hrest. set_solver.
        -- intros x Hx. pose proof (chain_disjoint σ (l1 ++ [s]) D l2' x) as Hdis.
           rewrite <- app_assoc in Hdis. cbn [app] in *. rewrite <- !app_assoc in Hdis.
           rewrite Hsplit, Hrest in Hch. by apply Hdis.
        -- by apply generics_unique_mark.
      * cbn [app]. intros x w Hx Hw. rewrite (Hh x w Hx Hw).
        unfold slot_key in Hkey2. injection Hkey2 as _ _ _ ->. done.
    + cbn [is_ok]. slot_steps. rewrite insert_insert_eq. destruct (finalised_links v2) as [Hfn Hfp]. apply (HQ _ l2'); [done| |].
      * by eapply chain_replace_value.
      * apply (cleared_finalised σ σ2); try done. set_solver.
Qed.

Lemma remove_slot_fuel_spec fuel : removes k (remove_slot_fuel fuel) fuel.
Proof.
  induction fuel as [|fuel IH]; intros σ l1 n l2 v Q Hch Hv Hs HD Hu Hlen HQ; [lia|].
  pose proof Hs as (Hrec & Htype & c & Hc & _).
  cbn [remove_slot_fuel]. unfold remove_slot_body. slot_steps. rewrite Hrec, decide_False by done.
  wp_step. eapply has_sibling_spec; [done..|]. intros [] Hal.
  { eapply unlink_and_clear_slot_spec; [done|]. intros σ' Hch' Hc'. apply (HQ σ' [] l2); try done.
    set_solver. }
  specialize (Hal eq_refl). rewrite Hc. wp_step.
  eapply (revoke_slot_body_spec (remove_slot_fuel fuel) fuel); try done; unfold alias_rest;
    rewrite Hal; cbn [length app]; rewrite ?drop_0; [done|lia|].
  intros σ1 l2' Hl2 Hch1 Hc1. cbn [is_ok]. eapply unlink_and_clear_slot_spec; [done|].
  intros σ2 Hch2 Hc2. apply (HQ σ2 (descendants σ (depth v) l2) l2'); try done.
  assert (Hdis : ∀ x, x ∈ descendants σ (depth v) l2 → x ∉ l1 ++ n :: l2').
  { intros x Hx. pose proof (chain_disjoint σ (l1 ++ [n]) (descendants σ (depth v) l2) l2' x) as Hdis.
    rewrite <- !app_assoc in Hdis. cbn [app] in Hdis. rewrite <- Hl2 in Hdis. by apply Hdis. }
  assert (Hcl : cleared (<[n := finalised v]> σ) σ2 (l1 ++ n :: l2)
                 (descendants σ (depth v) l2 ++ [n])).
  { eapply cleared_trans; [done|done| |set_solver|done]. rewrite Hl2. set_solver. }
  split.
  - intros x Hx. apply (cleared_removed _ _ _ _ Hcl). set_solver.
  - intros x Hx. rewrite (cleared_core _ _ _ _ Hcl) by set_solver.
    by rewrite lookup_insert_ne by set_solver.
  - intros x Hx Hx'. rewrite (cleared_other _ _ _ _ Hcl) by set_solver.
    by rewrite lookup_insert_ne by set_solver.
Qed.

End revocation.

(** ** Properties *)

(** C1: revoking a capability removes everything derived from it, and nothing
    else.  In a dependency chain whose capabilities are memory and I/O
    capabilities (Generics, Frames, Page Tables, Address Spaces, I/O Ports,
    Virtual CPUs), none of them being revoked already and no Generic having an
    alias, [revoke_slot] ends with success for every nesting of the derivation
    tree: all deeper capabilities behind the alias group of the slot are emptied
    and unlinked, the chain is what stands before and after them, a Generic gets
    its whole region back, and every other slot keeps its content. *)
Theorem revoke_removes_descendants `{config} k l1 s l2 v :
  let σ := slots k in
  let al := alias_prefix σ v l2 in
  let rest := alias_rest σ v l2 in
  let D := descendants σ (depth v) rest in
  chain σ (l1 ++ s :: l2) → σ !! s = Some v → simple v →
  (∀ x, x ∈ D → ∃ w, σ !! x = Some w ∧ simple w) → generics_unique σ (l1 ++ s :: l2) →
  wp (revoke_slot s)
     (λ r k', r = Ok tt ∧ slots_after k (λ σ', ∃ rest',
        rest = D ++ rest' ∧ chain σ' (l1 ++ s :: al ++ rest') ∧
        cleared (<[s := finalised v]> σ) σ' (l1 ++ s :: l2) D) k') k.
Proof.
  intros σ al rest D Hch Hv Hs HD Hu. rewrite (with_slots_id k). unfold revoke_slot, reclamation_fuel.
  wp_steps. ksimpl_goal.
  eapply (revoke_slot_body_spec k _ (S (size (slots k)))); try done; [apply remove_slot_fuel_spec| |].
  - ksimpl_goal. pose proof (dlist_heap_length preview_slot next_slot _ _ Hch) as Hlen.
    rewrite (alias_split σ v l2) in Hlen. fold rest in Hlen.
    destruct (descendants_spec σ (depth v) rest) as (l3 & Hl3 & _). fold D in Hl3.
    rewrite Hl3 in Hlen. rewrite !length_app in Hlen. cbn in Hlen. rewrite !length_app in Hlen.
    fold σ rest D. lia.
  - intros σ' l2' Hrest Hch' Hc'. split; [done|]. exists σ'. split; [by destruct k|]. by exists l2'.
Qed.

(** A Generic, a Generic made from it, a Frame of that one and a copy of the
    Frame, and an I/O Port behind them. *)
Definition example_tree : gmap slot_ref capability_slot :=
  {[ array_slot 1 0 := MkSlot (Some C_GENERIC) CT_GENERIC 3 false (SlotData 0x100000 20 0x110000)
                         (Some (array_slot 1 1)) None 0;
     array_slot 1 1 := MkSlot (Some C_GENERIC) CT_GENERIC 3 false (SlotData 0x100000 16 0x101000)
                         (Some (array_slot 1 2)) (Some (array_slot 1 0)) 1;
     array_slot 1 2 := MkSlot (Some C_FRAME) CT_FRAME 15 false (SlotData 0x100000 0 12)
                         (Some (array_slot 1 3)) (Some (array_slot 1 1)) 2;
     array_slot 1 3 := MkSlot (Some C_FRAME) CT_FRAME 15 false (SlotData 0x100000 0 12)
                         (Some (array_slot 1 4)) (Some (array_slot 1 2)) 2;
     array_slot 1 4 := MkSlot (Some C_IO_PORT) CT_IO_PORT 15 false (SlotData 0 0xffff 0)
                         None (Some (array_slot 1 3)) 0 ]}.
Definition example_root_generic : capability_slot :=
  MkSlot (Some C_GENERIC) CT_GENERIC 3 false (SlotData 0x100000 20 0x110000)
    (Some (array_slot 1 1)) None 0.

Lemma revoke_removes_descendants_witness :
  wp (revoke_slot (H := example_config) (array_slot 1 0))
     (λ r k', r = Ok tt ∧ slots_after (with_slots example_tree initial_kernel) (λ σ', ∃ rest',
        [array_slot 1 1; array_slot 1 2; array_slot 1 3; array_slot 1 4]
          = [array_slot 1 1; array_slot 1 2; array_slot 1 3] ++ rest' ∧
        chain σ' ([] ++ array_slot 1 0 :: [] ++ rest') ∧
        cleared (<[array_slot 1 0 := finalised example_root_generic]> example_tree) σ'
          [array_slot 1 0; array_slot 1 1; array_slot 1 2; array_slot 1 3; array_slot 1 4]
          [array_slot 1 1; array_slot 1 2; array_slot 1 3]) k')
     (with_slots example_tree initial_kernel).
Proof.
  apply (revoke_removes_descendants (H := example_config) (with_slots example_tree initial_kernel)
           [] (array_slot 1 0) [array_slot 1 1; array_slot 1 2; array_slot 1 3; array_slot 1 4]
           example_root_generic).
  - by repeat split.
  - reflexivity.
  - split_and!; [done|done|]. by exists C_GENERIC.
  - intros x Hx. change (x ∈ [array_slot 1 1; array_slot 1 2; array_slot 1 3]) in Hx.
    assert (x = array_slot 1 1 ∨ x = array_slot 1 2 ∨ x = array_slot 1 3) as [->|[->| ->]]
      by set_solver; eexists; (split; [reflexivity|]); split_and!; try done; by eexists.
  - intros x y v w Hx Hy Hne Hv Hw Hc.
    change (slots (with_slots example_tree initial_kernel)) with example_tree in Hv, Hw.
    unfold example_tree in Hv, Hw.
    repeat (apply lookup_insert_Some in Hv as [[<- <-]|[_ Hv]]; [|]);
      try (by apply lookup_singleton_Some in Hv as [<- <-]); try done;
    repeat (apply lookup_insert_Some in Hw as [[<- <-]|[_ Hw]]; [done|]);
      by apply lookup_singleton_Some in Hw as [<- <-].
Defined.
