(* ===== verification/GenericProofs.v ===== *)
(** Correctness of the allocator (Generic.v): the blocks a Generic hands out are
    aligned, inside its region and disjoint, as long as no address computation
    wraps; what one allocation does when one wraps; the flags and the slot data give a
    [generic_info] back; a Node fits in the memory computed for it.  Two runs of CONVERT
    show where the confinement ends. *)

From S2P Require Import Prelude Word Types Dll Kernel Slot SlotProofs Hal Node Memory Scheduler.
From S2P Require Import ProcessManager Queues Notification IpcPort Generic Pcb AddressSpace Devices Reclamation.

(** ** Allocation *)

(** One past the last address of the region. *)
Definition region_end (g : generic_info) : Z := base_address g + 2 ^ size_bits g.

(** The watermark is in the region, which lies in the address space. *)
Record region_ok (g : generic_info) : Prop := {
  region_base : 0 ≤ base_address g;
  region_bits : 0 ≤ size_bits g < 64;
  region_fits : region_end g < 2 ^ 64;
  region_watermark : base_address g ≤ watermark g ≤ region_end g;
}.

(** A request that no address computation wraps for. *)
Definition request_ok (g : generic_info) (bits : Z) : Prop :=
  0 ≤ bits ∧ region_end g + 2 * 2 ^ bits ≤ 2 ^ 64.

Lemma request_bits g bits : region_ok g → request_ok g bits → bits < 64.
Proof.
  intros Hg [Hb Hr]. destruct (Z.lt_ge_cases bits 64); [done|].
  assert (2 ^ 64 ≤ 2 ^ bits) by (apply Z.pow_le_mono_r; lia).
  pose proof (region_base g Hg). unfold region_end in Hr.
  pose proof (Z.pow_nonneg 2 (size_bits g)). lia.
Qed.

Lemma region_size_spec g :
  region_ok g → region_size g = Some (2 ^ size_bits g) ∧
                wadd (base_address g) (2 ^ size_bits g) = region_end g.
Proof.
  intros Hg. pose proof (region_bits g Hg). pose proof (region_base g Hg).
  pose proof (region_fits g Hg) as Hf. unfold region_end in *.
  pose proof (Z.pow_nonneg 2 (size_bits g)). split; [by apply shl_1|apply wadd_id; lia].
Qed.

(** The block a request is given, if it fits. *)
Definition next_block (g : generic_info) (bits : Z) : Z := align_value (watermark g) (2 ^ bits).

Lemma next_block_spec g bits :
  region_ok g → request_ok g bits →
  watermark g ≤ next_block g bits < watermark g + 2 ^ bits ∧ (2 ^ bits | next_block g bits) ∧
  wadd (next_block g bits) (2 ^ bits) = next_block g bits + 2 ^ bits.
Proof.
  intros Hg [Hb Hr]. pose proof (region_watermark g Hg). pose proof (region_base g Hg).
  assert (0 < 2 ^ bits) by (by apply Z.pow_pos_nonneg).
  destruct (align_value_bounds (watermark g) (2 ^ bits)) as [? ?]; [lia..|].
  unfold next_block. split; [done|]. split; [done|]. apply wadd_id. lia.
Qed.

Lemma try_apply_allocate_spec g bits :
  region_ok g → request_ok g bits →
  try_apply_allocate g bits =
  Some (if next_block g bits + 2 ^ bits <=? region_end g
        then (Ok (next_block g bits), g <| watermark := next_block g bits + 2 ^ bits |>)
        else (Err ME_OUT_OF_MEMORY, g)).
Proof.
  intros Hg Hr. pose proof (request_bits g bits Hg Hr). destruct (region_size_spec g Hg) as [Hs He].
  destruct (next_block_spec g bits Hg Hr) as (_ & _ & Hw). destruct Hr as [Hb Hr].
  unfold try_apply_allocate, apply_allocate. rewrite shl_1 by lia. cbn [mbind option_bind].
  rewrite Hs. cbn [mbind option_bind]. rewrite He. fold (next_block g bits). rewrite Hw.
  rewrite Z.leb_antisym. by destruct (_ <? _).
Qed.

Lemma allocated_ok g bits :
  region_ok g → request_ok g bits → next_block g bits + 2 ^ bits ≤ region_end g →
  region_ok (g <| watermark := next_block g bits + 2 ^ bits |>).
Proof.
  intros Hg Hr Hle. destruct (next_block_spec g bits Hg Hr) as (Hw & _ & _).
  pose proof (region_watermark g Hg). split; cbn; try apply Hg. unfold region_end in *. cbn.
  pose proof (Z.pow_nonneg 2 bits). lia.
Qed.

(** One past the block a request asks for, if addresses did not wrap. *)
Definition block_end (g : generic_info) (bits : Z) : Z := aligned_up (watermark g) (2 ^ bits) + 2 ^ bits.

Lemma block_end_bounds g bits :
  region_ok g → 0 ≤ bits < 64 → block_end g bits ≤ 2 ^ 64 + 2 ^ bits ∧ (2 ^ bits | block_end g bits) ∧
  (2 ^ 64 ≤ block_end g bits → block_end g bits = 2 ^ 64 ∨ block_end g bits = 2 ^ 64 + 2 ^ bits).
Proof.
  intros Hg Hb. assert (0 < 2 ^ bits) as Hpos by (apply Z.pow_pos_nonneg; lia).
  destruct (aligned_up_bounds (watermark g) (2 ^ bits) Hpos) as [Ha [q Hq]].
  assert (2 ^ 64 = 2 ^ (64 - bits) * 2 ^ bits) as H64 by (rewrite <- Z.pow_add_r by lia; f_equal; lia).
  pose proof (region_watermark g Hg). pose proof (region_fits g Hg). unfold block_end. rewrite Hq in *.
  assert (q ≤ 2 ^ (64 - bits)) by nia. split_and!; [nia|by exists (q + 1); lia|]. intros Hle.
  assert (q + 1 = 2 ^ (64 - bits) ∨ q = 2 ^ (64 - bits)) as [Hc|Hc] by nia; [left|right]; rewrite H64, <- Hc; lia.
Qed.

Lemma try_apply_allocate_any g bits :
  region_ok g → 0 ≤ bits < 64 →
  try_apply_allocate g bits =
  Some (if block_end g bits <? 2 ^ 64
        then if block_end g bits <=? region_end g
             then (Ok (block_end g bits - 2 ^ bits), g <| watermark := block_end g bits |>)
             else (Err ME_OUT_OF_MEMORY, g)
        else (Ok ((block_end g bits - 2 ^ bits) mod 2 ^ 64), g <| watermark := block_end g bits - 2 ^ 64 |>)).
Proof.
  intros Hg Hb. destruct (region_size_spec g Hg) as [Hs He]. destruct (block_end_bounds g bits Hg Hb) as (Hle & _ & Hcase).
  pose proof (region_watermark g Hg). pose proof (region_base g Hg). pose proof (region_fits g Hg).
  assert (0 < 2 ^ bits) as Hpos by (apply Z.pow_pos_nonneg; lia).
  assert (2 ^ bits ≤ 2 ^ 63) by (apply Z.pow_le_mono_r; lia).
  destruct (aligned_up_bounds (watermark g) (2 ^ bits) Hpos) as [Ha _].
  unfold try_apply_allocate, apply_allocate. rewrite shl_1 by lia. cbn [mbind option_bind].
  rewrite Hs. cbn [mbind option_bind]. rewrite He, align_value_wraps by lia.
  replace (aligned_up (watermark g) (2 ^ bits)) with (block_end g bits - 2 ^ bits) in * by (unfold block_end; lia).
  unfold wadd, wrap. rewrite Zplus_mod_idemp_l. replace (block_end g bits - 2 ^ bits + 2 ^ bits) with (block_end g bits) by lia.
  destruct (Z.ltb_spec (block_end g bits) (2 ^ 64)) as [Hlt|Hge].
  - rewrite !Z.mod_small, Z.leb_antisym by lia. by destruct (_ <? _).
  - assert (block_end g bits mod 2 ^ 64 = block_end g bits - 2 ^ 64) as ->.
    { rewrite <- (Z.mod_add _ (-1)) by lia. apply Z.mod_small. destruct (Hcase Hge); lia. }
    rewrite (proj2 (Z.ltb_ge _ _)); [done|]. destruct (Hcase Hge) as [Hc|Hc]; rewrite Hc in *; lia.
Qed.

(** C40: what one allocation does, for every request below 2^64 bytes.  The block
    asked for begins at the first multiple of its size at or above the watermark.
    If it ends below 2^64, it is given exactly when it ends inside the region, and
    otherwise the answer is OUT_OF_MEMORY and nothing changes.  If it ends at 2^64
    or beyond, the computations wrap and the request is granted, although no such
    block is in the region: a block that was given is inside the region if and
    only if its end does not wrap. *)
Theorem allocation_bounds g bits :
  region_ok g → 0 ≤ bits < 64 →
  ∃ a b, (2 ^ bits | a) ∧ watermark g ≤ a < watermark g + 2 ^ bits ∧ b = a + 2 ^ bits ∧
    (b < 2 ^ 64 →
       try_apply_allocate g bits =
       Some (if b <=? region_end g then (Ok a, g <| watermark := b |>) else (Err ME_OUT_OF_MEMORY, g))) ∧
    (2 ^ 64 ≤ b →
       try_apply_allocate g bits = Some (Ok (a mod 2 ^ 64), g <| watermark := b - 2 ^ 64 |>)) ∧
    ∀ a' g', try_apply_allocate g bits = Some (Ok a', g') →
      (base_address g ≤ a' ∧ a' + 2 ^ bits ≤ region_end g ↔ b < 2 ^ 64).
Proof.
  intros Hg Hb. assert (0 < 2 ^ bits) as Hpos by (apply Z.pow_pos_nonneg; lia).
  destruct (aligned_up_bounds (watermark g) (2 ^ bits) Hpos) as [Ha Hd].
  pose proof (try_apply_allocate_any g bits Hg Hb) as Hany.
  destruct (block_end_bounds g bits Hg Hb) as (_ & _ & Hcase).
  pose proof (region_watermark g Hg). pose proof (region_base g Hg). pose proof (region_fits g Hg).
  exists (aligned_up (watermark g) (2 ^ bits)), (block_end g bits).
  replace (block_end g bits - 2 ^ bits) with (aligned_up (watermark g) (2 ^ bits)) in Hany by (unfold block_end; lia).
  assert (block_end g bits = aligned_up (watermark g) (2 ^ bits) + 2 ^ bits) as He by done.
  split; [done|]. split; [done|]. split; [done|].
  destruct (Z.ltb_spec (block_end g bits) (2 ^ 64)) as [Hlt|Hge].
  - split; [done|]. split; [lia|]. intros a' g' Hrun. rewrite Hany in Hrun.
    destruct (Z.leb_spec (block_end g bits) (region_end g)); [|done]. injection Hrun as <- _. lia.
  - split; [lia|]. split; [done|]. intros a' g' Hrun. rewrite Hany in Hrun. injection Hrun as <- _.
    destruct (Hcase Hge) as [Hc|Hc].
    + rewrite Z.mod_small by lia. lia.
    + replace (aligned_up (watermark g) (2 ^ bits)) with (2 ^ 64) by lia. rewrite Z_mod_same_full.
      assert (2 ^ bits ≤ 2 ^ 63) by (apply Z.pow_le_mono_r; lia). split; [|lia]. intros [Hbase _].
      pose proof (region_bits g Hg). assert (2 ^ size_bits g ≤ 2 ^ 63) by (apply Z.pow_le_mono_r; lia).
      unfold region_end in *. lia.
Qed.

(** 512 KiB of a Generic of 1 MiB, 2 MiB of it, and 2^63 bytes of it. *)
Lemma allocation_bounds_witness :
  let g := MkGenericInfo 0x100000 20 0x100000 false in
  try_apply_allocate g 19 = Some (Ok 0x100000, g <| watermark := 0x180000 |>) ∧
  try_apply_allocate g 21 = Some (Err ME_OUT_OF_MEMORY, g) ∧
  try_apply_allocate g 63 = Some (Ok (2 ^ 63), g <| watermark := 0 |>) ∧
  ∃ a b, (2 ^ 63 | a) ∧ watermark g ≤ a < watermark g + 2 ^ 63 ∧ b = a + 2 ^ 63 ∧
    (b < 2 ^ 64 →
       try_apply_allocate g 63 =
       Some (if b <=? region_end g then (Ok a, g <| watermark := b |>) else (Err ME_OUT_OF_MEMORY, g))) ∧
    (2 ^ 64 ≤ b →
       try_apply_allocate g 63 = Some (Ok (a mod 2 ^ 64), g <| watermark := b - 2 ^ 64 |>)) ∧
    ∀ a' g', try_apply_allocate g 63 = Some (Ok a', g') →
      (base_address g ≤ a' ∧ a' + 2 ^ 63 ≤ region_end g ↔ b < 2 ^ 64).
Proof.
  cbv zeta. do 3 (split; [by vm_compute|]).
  apply (allocation_bounds (MkGenericInfo 0x100000 20 0x100000 false) 63); [by split; vm_compute|lia].
Defined.

(** The blocks a sequence of requests is given, as pairs of address and size, and
    the state they leave; a refused request changes nothing. *)
Fixpoint allocate_all (g : generic_info) (requests : list Z)
    : option (list (Z * Z) * generic_info) :=
  match requests with
  | [] => Some ([], g)
  | bits :: rest =>
      rg ← try_apply_allocate g bits;
      match rg with
      | (Ok a, g') => bg ← allocate_all g' rest; Some ((a, bits) :: fst bg, snd bg)
      | (Err _, g') => allocate_all g' rest
      end
  end.

(** A block in the region, at or above [low], on a multiple of its size. *)
Definition block_ok (g : generic_info) (low : Z) (b : Z * Z) : Prop :=
  low ≤ fst b ∧ fst b + 2 ^ snd b ≤ region_end g ∧ (2 ^ snd b | fst b).

(** Every block ends before the later ones begin. *)
Definition in_order (blocks : list (Z * Z)) : Prop :=
  ∀ i j b c, blocks !! i = Some b → blocks !! j = Some c → (i < j)%nat → fst b + 2 ^ snd b ≤ fst c.

Lemma in_order_cons b blocks :
  (∀ c, c ∈ blocks → fst b + 2 ^ snd b ≤ fst c) → in_order blocks → in_order (b :: blocks).
Proof.
  intros Hb Ho [|i] [|j] c d Hi Hj Hij; cbn in *; simplify_eq; try lia.
  - apply Hb. by eapply list_elem_of_lookup_2.
  - eapply Ho; eauto. lia.
Qed.

Lemma allocate_all_spec g requests :
  region_ok g → Forall (request_ok g) requests →
  ∃ blocks g', allocate_all g requests = Some (blocks, g') ∧ region_ok g' ∧
    base_address g' = base_address g ∧ size_bits g' = size_bits g ∧ watermark g ≤ watermark g' ∧
    (∀ b, b ∈ blocks → block_ok g (watermark g) b ∧ fst b + 2 ^ snd b ≤ watermark g') ∧
    in_order blocks.
Proof.
  revert g. induction requests as [|bits rest IH]; intros g Hg Hall.
  { exists [], g. split_and!; try done. intros b Hb. by apply not_elem_of_nil in Hb. }
  apply Forall_cons in Hall as [Hr Hall]. cbn [allocate_all].
  rewrite (try_apply_allocate_spec g bits Hg Hr). cbn [mbind option_bind].
  destruct (Z.leb_spec (next_block g bits + 2 ^ bits) (region_end g)) as [Hle|Hgt]; [|by apply IH].
  destruct (next_block_spec g bits Hg Hr) as (Hw & Hd & _).
  destruct (IH _ (allocated_ok g bits Hg Hr Hle)) as (bs & g' & Heq & Hg' & Hb & Hs & Hw' & Hbs & Ho);
    [by eapply Forall_impl|]. rewrite Heq. cbn [mbind option_bind fst snd].
  pose proof (Z.pow_nonneg 2 bits). cbn in Hb, Hs, Hw'.
  exists ((next_block g bits, bits) :: bs), g'. split_and!; try done; [lia| |].
  - intros b [->|Hin]%elem_of_cons; cbn.
    + split; [|lia]. split_and!; cbn; [lia..|done].
    + destruct (Hbs b Hin) as [(Hlow & Hend & Hdiv) Hbw]. cbn in Hlow. split; [|done].
      split_and!; [lia|done|done].
  - apply in_order_cons; [|done]. intros c Hin. by destruct (Hbs c Hin) as [(Hlow & _) _].
Qed.

(** C14: a Generic never hands out memory twice or memory it does not own.  For
    every sequence of requests whose sizes leave room below 2^64, allocation
    never leaves a defined run; every block given lies inside the region at or
    above the watermark, on a multiple of its own size, below the watermark that
    is left, and ends before every later block begins. *)
Theorem allocations_disjoint g requests :
  region_ok g → Forall (request_ok g) requests →
  ∃ blocks g', allocate_all g requests = Some (blocks, g') ∧ region_ok g' ∧
    base_address g' = base_address g ∧ size_bits g' = size_bits g ∧ watermark g ≤ watermark g' ∧
    (∀ b, b ∈ blocks → block_ok g (watermark g) b ∧ fst b + 2 ^ snd b ≤ watermark g') ∧
    in_order blocks.
Proof. apply allocate_all_spec. Qed.

Lemma allocations_disjoint_witness :
  let g := MkGenericInfo 0x100000 20 0x100800 false in
  allocate_all g [12; 7; 12; 30; 10]
    = Some ([(0x101000, 12); (0x102000, 7); (0x103000, 12); (0x104000, 10)],
            g <| watermark := 0x104400 |>) ∧
  ∃ blocks g', allocate_all g [12; 7; 12; 30; 10] = Some (blocks, g') ∧ region_ok g' ∧
    base_address g' = base_address g ∧ size_bits g' = size_bits g ∧ watermark g ≤ watermark g' ∧
    (∀ b, b ∈ blocks → block_ok g (watermark g) b ∧ fst b + 2 ^ snd b ≤ watermark g') ∧
    in_order blocks.
Proof.
  cbv zeta. split; [reflexivity|]. apply (allocations_disjoint _ [12; 7; 12; 30; 10]).
  - by split; vm_compute.
  - by repeat constructor.
Defined.

(** ** The slot data *)

(** The data word layout of a Generic is faithful: a [generic_info] whose size
    has at most 7 bits, written to a slot and read back, is the same. *)
Theorem generic_slot_data_roundtrip g :
  0 ≤ size_bits g < 128 → create_generic_info (dump_slot_data g) = g.
Proof.
  intros Hs. destruct g as [b s w d]. cbn in Hs.
  unfold create_generic_info, dump_slot_data, serialize_generic_flags, generic_flags_size_bits,
    generic_flags_is_device. cbn [base_address size_bits watermark device data_0 data_1 data_2].
  change (Z.shiftl 1 7 - 1) with (Z.ones 7). change 0x7f with (Z.ones 7).
  f_equal.
  - rewrite Z.land_lor_distr_l, <- Z.land_assoc, Z.land_diag, !Z.land_ones by lia.
    rewrite Z.shiftl_mul_pow2, Z_mod_mult by lia. rewrite Z.lor_0_l. by apply Z.mod_small.
  - rewrite Z.lor_spec, Z.land_spec, Z.shiftl_spec by lia.
    rewrite (Z.ones_spec_high 7 7), andb_false_r, orb_false_r by lia. by destruct d.
Qed.

Lemma generic_slot_data_roundtrip_witness :
  create_generic_info (dump_slot_data (MkGenericInfo 0x100000 20 0x101000 true))
  = MkGenericInfo 0x100000 20 0x101000 true.
Proof. apply (generic_slot_data_roundtrip (MkGenericInfo 0x100000 20 0x101000 true)). cbn. lia. Defined.

(** ** The memory of a Node *)

Lemma make_slots_lookup array n σ i :
  0 ≤ i < Z.of_nat n → make_slots array n σ !! array_slot array i = Some initial_slot.
Proof.
  intros Hi. unfold make_slots.
  assert (Hin : Z.to_nat i ∈ seq 0 n) by (apply elem_of_seq; lia).
  revert Hin. induction (seq 0 n) as [|j l IH]; intros Hin; [set_solver|]. cbn.
  destruct (decide (i = Z.of_nat j)) as [->|Hne]; [apply lookup_insert_eq|].
  rewrite lookup_insert_ne by congruence. apply IH.
  apply elem_of_cons in Hin as [Heq|]; [lia|done].
Qed.

(** The size of a Node of radix up to 56; at 57 the computation is undefined. *)
Lemma node_memory_size_bits_spec radix bits :
  0 ≤ radix → node_memory_size_bits radix = Some (Some bits) →
  0 < radix < 57 ∧ bits = Z.log2_up (64 + 64 * 2 ^ radix) ∧ 64 + 64 * 2 ^ radix ≤ 2 ^ bits.
Proof.
  intros Hr Hb. unfold node_memory_size_bits in Hb.
  change (calculate_radix_ceil sizeof_capability_slot) with (Some 6) in Hb.
  change (calculate_radix_ceil sizeof_capability_node) with (Some 5) in Hb.
  cbn [mbind option_bind] in Hb. case_match eqn:Hg; [done|].
  unfold is_geometry_valid, WORD_BITS in Hg. bool_to_prop.
  destruct (decide (radix = 57)) as [->|]; [by vm_compute in Hb|].
  assert (0 < radix < 57) as Hr' by lia. split; [done|].
  change (shl 1 5) with (Some 32) in Hb. change (shl 1 6) with (Some 64) in Hb.
  rewrite (shl_1 radix) in Hb by lia. cbn [mbind option_bind] in Hb.
  change (align_value (align_value sizeof_capability_node 32) 64) with 64 in Hb.
  assert (2 ^ radix ≤ 2 ^ 56) by (apply Z.pow_le_mono_r; lia).
  assert (0 < 2 ^ radix) by (apply Z.pow_pos_nonneg; lia).
  unfold sizeof_capability_slot in Hb. rewrite wmul_id, wadd_id in Hb by lia.
  rewrite calculate_radix_ceil_log2_up in Hb by lia. cbn in Hb. simplify_eq. split; [done|].
  apply Z.log2_up_spec. lia.
Qed.

(** A Node and its slot array fit in the block computed for them: for a block
    of [bits] at an aligned address, [try_make_capability_node] puts the Node at
    its start and 2^radix slots of 64 bytes at an address of the block such that
    the last one ends inside it. *)
Theorem node_fits_block radix bits base k :
  node_memory_size_bits radix = Some (Some bits) →
  0 < base → (2 ^ bits | base) → base + 2 ^ bits < 2 ^ 64 → 0 ≤ radix →
  let array := base + 64 in
  wp (try_make_capability_node base radix)
     (λ r k', r = Ok base ∧ nodes k' !! base = Some (MkNode 0 radix (Some array)) ∧
        (∀ i, 0 ≤ i < 2 ^ radix → slots k' !! array_slot array i = Some initial_slot) ∧
        array + sizeof_capability_slot * 2 ^ radix ≤ base + 2 ^ bits) k.
Proof.
  intros Hb Hpos Hdiv Hfit Hr array.
  destruct (node_memory_size_bits_spec _ _ Hr Hb) as (Hr' & _ & Htotal).
  assert (0 < 2 ^ radix) by (apply Z.pow_pos_nonneg; lia).
  assert (6 < bits).
  { apply (Z.pow_lt_mono_r_iff 2); [lia| |lia]. destruct (Z.le_gt_cases 0 bits); [done|].
    rewrite (Z.pow_neg_r 2 bits) in Htotal by lia. lia. }
  assert (64 | base) as [q Hq].
  { eapply Z.divide_trans; [|done]. exists (2 ^ (bits - 6)).
    change 64 with (2 ^ 6). rewrite <- Z.pow_add_r by lia. f_equal. lia. }
  unfold try_make_capability_node. rewrite (proj2 (Z.eqb_neq base 0)) by lia.
  assert (is_geometry_valid 0 radix = true) as ->.
  { unfold is_geometry_valid, WORD_BITS. bool_to_prop. lia. }
  cbn [orb negb].
  change (calculate_radix_ceil sizeof_capability_node) with (Some 5).
  change (calculate_radix_ceil sizeof_capability_slot) with (Some 6).
  wp_step. eapply wp_defined; [reflexivity|]. wp_step. eapply wp_defined; [reflexivity|].
  change (wrap (Z.shiftl 1 5)) with 32. rewrite (proj2 (Z.eqb_eq _ 0)); cycle 1.
  { rewrite Hq. replace (q * 64) with (q * 2 * 32) by lia. apply Z_mod_mult. }
  cbn [negb]. wp_step. eapply wp_defined; [reflexivity|]. wp_step. eapply wp_defined; [reflexivity|].
  change (wrap (Z.shiftl 1 6)) with 64. unfold WORD_BITS.
  rewrite (proj2 (Z.leb_gt _ _)) by lia. rewrite wadd_id by lia.
  assert (align_value (base + 32) 64 = array) as ->.
  { destruct (align_value_bounds (base + 32) 64) as [Ha [m Hm]]; [lia..|].
    rewrite Hm in *. subst array. lia. }
  wp_step. eapply wp_defined; [apply shl_1; lia|]. wp_steps. ksimpl_goal. split_and!; [done|..].
  - rewrite lookup_insert_eq. unfold make_node.
    assert (is_geometry_valid 0 radix = true) as ->; [|done].
    unfold is_geometry_valid, WORD_BITS. bool_to_prop. lia.
  - intros i Hi. apply make_slots_lookup. lia.
  - unfold sizeof_capability_slot. subst array. lia.
Qed.

Lemma node_fits_block_witness :
  node_memory_size_bits 4 = Some (Some 11) ∧
  wp (try_make_capability_node 0x100000 4)
     (λ r k', r = Ok 0x100000 ∧
        nodes k' !! 0x100000 = Some (MkNode 0 4 (Some (0x100000 + 64))) ∧
        (∀ i, 0 ≤ i < 2 ^ 4 → slots k' !! array_slot (0x100000 + 64) i = Some initial_slot) ∧
        0x100000 + 64 + sizeof_capability_slot * 2 ^ 4 ≤ 0x100000 + 2 ^ 11) initial_kernel.
Proof.
  split; [reflexivity|].
  apply (node_fits_block 4 11 0x100000 initial_kernel); [reflexivity|lia|by exists 512|lia|lia].
Defined.

(** ** Runs of CONVERT *)

Section runs.
#[local] Existing Instance example_config.

(** A process 7 whose root Node has four slots: a Generic of 1 MiB at 0x100000, a
    capability to the Node itself, and two empty slots. *)
Definition generic_cspace : kernel :=
  initial_kernel
    <| processes := {[7 := initial_process]} |>
    <| nodes := {[100 := MkNode 0 2 (Some 1)]} |>
    <| slots := {[
         process_slot_ref 7 ROOT_SLOT :=
           MkSlot (Some (C_NODE 100)) CT_NODE RIGHTS_ALL false (SlotData 0 0 0) None None 0;
         array_slot 1 0 :=
           initial_slot <| component := Some C_GENERIC |> <| type := CT_GENERIC |>
             <| rights := RIGHTS_READ_WRITE |>
             <| data := dump_slot_data (MkGenericInfo 0x100000 20 0x100000 false) |>;
         array_slot 1 1 :=
           MkSlot (Some (C_NODE 100)) CT_NODE RIGHTS_ALL false (SlotData 0 0 0) None None 0;
         array_slot 1 2 := initial_slot;
         array_slot 1 3 := initial_slot]} |>.

(** The message of a CONVERT call, as the registers that carry it. *)
Definition convert_call (type_word specific_bits index : Z) : list Z :=
  set_register register_index.RDX type_word (set_register register_index.R8 specific_bits
    (set_register register_index.R9 1
      (set_register register_index.R10 (Z.lor (Z.shiftl 2 56) (Z.shiftl 1 54))
        (set_register register_index.R12 index (replicate 23 0))))).

(** Successful CONVERT calls on slot 0, one after another. *)
Definition convert_calls (calls : list (list Z)) (k : kernel) : option kernel :=
  foldl (λ o regs,
    k ← o;
    match convert try_remove_and_init 7 (array_slot 1 0)
            (k <| processes := {[7 := initial_process <| registers := regs |>]} |>) with
    | Ret (Ok _) k' => Some k'
    | _ => None
    end) (Some k) calls.

(** Type and data of a slot. *)
Definition content (k : kernel) (s : slot_ref) : option (capability_type * capability_slot_data) :=
  (λ v, (type v, data v)) <$> slots k !! s.

(** CONVERT does not check that the size of a request keeps the computations of
    [try_apply_allocate] from wrapping.  Converting a Generic of 1 MiB at 0x100000 into a Generic
    of 2^63 bytes succeeds: the end address wraps to 0, passes the bounds checks
    of [is_allocatable] and [try_apply_allocate], and becomes the watermark; the
    next Frame made from the Generic is physical page 0, outside its region.
    Size exponents from 64 on, and a Node of radix 57, run into an undefined
    shift. *)
Theorem convert_escapes_region :
  (k ← convert_calls [convert_call 3 63 2; convert_call 6 12 3] generic_cspace;
   Some (content k (array_slot 1 2), content k (array_slot 1 3)))
  = Some (Some (CT_GENERIC, SlotData (2 ^ 63) 63 (2 ^ 63)), Some (CT_FRAME, SlotData 0 0 12)) ∧
  is_allocatable (MkGenericInfo 0x100000 20 0x100000 false) 64 1 = None ∧
  node_memory_size_bits 57 = None.
Proof. split_and!; by vm_compute. Qed.

(** Revoking slot 0 in between. *)
Definition revoke_generic (k : kernel) : option kernel :=
  match revoke_slot (array_slot 1 0) k with Ret (Ok _) k' => Some k' | _ => None end.

(** Converting a Generic into a Generic loses the capabilities made from it
    before.  [try_configure_generic_slot(self, info)] initialises the slot of the
    parent and with it its place in the dependency chain; a Frame made earlier is
    no longer among its descendants, so that revoking the Generic succeeds,
    leaves the Frame alone and resets the watermark.  The next Frame is the same
    memory again, while the first one is still there. *)
Theorem convert_generic_orphans_children :
  (k1 ← convert_calls [convert_call 6 12 2; convert_call 3 14 3] generic_cspace;
   k2 ← revoke_generic k1;
   k3 ← convert_calls [convert_call 6 12 3] k2;
   Some (content k1 (array_slot 1 2), content k1 (array_slot 1 3),
         content k2 (array_slot 1 2), content k2 (array_slot 1 3),
         content k3 (array_slot 1 2), content k3 (array_slot 1 3)))
  = Some (Some (CT_FRAME, SlotData 0x100000 0 12), Some (CT_GENERIC, SlotData 0x104000 14 0x104000),
          Some (CT_FRAME, SlotData 0x100000 0 12), Some (CT_NONE, SlotData 0 0 0),
          Some (CT_FRAME, SlotData 0x100000 0 12), Some (CT_FRAME, SlotData 0x100000 0 12)).
Proof. by vm_compute. Qed.

End runs.
