(* ===== verification/DeviceProofs.v ===== *)
(** Correctness of the I/O-port and interrupt capabilities (Devices.v): which
    ports a capability reaches, what a minted one covers, and the order in which
    an interrupt is delivered, masked and completed. *)

From S2P Require Import Prelude Word Types Dll Kernel Slot SlotProofs Hal Node NodeProofs.
From S2P Require Import Devices Notification KernelCall.

(** ** Ports *)

Definition valid_width (w : Z) : bool := (w =? 1) || (w =? 2) || (w =? 4).

Lemma write_io_port_spec k port w x Q :
  Q (if valid_width w then Ok tt else Err HE_ILLEGAL_ARGUMENT)
    (if valid_width w
     then k <| events ::= λ l, l ++ [EV_PORT_WRITE (wrap16 port) w (x mod 2 ^ (8 * w))] |> else k) →
  wp (write_io_port port w x) Q k.
Proof.
  intros HQ. destruct (valid_width w) eqn:Hw; unfold valid_width in Hw.
  - assert (w = 1 ∨ w = 2 ∨ w = 4) as [->|[->| ->]] by lia;
      unfold write_io_port, emit; wp_steps; exact HQ.
  - replace (write_io_port port w x) with (fail HE_ILLEGAL_ARGUMENT : M hal_result); [by apply wp_ret|].
    unfold write_io_port. repeat case_match; try done; subst; discriminate Hw.
Qed.

(** An I/O-port capability writes only the ports it covers.  With the port,
    the width and the data readable, WRITE is refused, and nothing changes, when
    the capability lacks the WRITE right, when the port is outside its range or
    when the width is not 1, 2 or 4; otherwise the one effect is the output of
    the data, cut to the width, on that port. *)
Theorem io_write_confined `{config} k owner self sv port w x :
  slots k !! self = Some sv → readable k owner IO_PORT_NUMBER port →
  readable k owner IO_WIDTH w → readable k owner IO_WRITE_DATA x →
  let range := convert_slot_data_to_address_range (data sv) in
  wp (io_operation_write owner self)
     (λ r k',
        if negb (has_rights (rights sv) RIGHTS_WRITE) || negb (is_address_is_in_range range port)
        then r = Err CE_PERMISSION_DENIED ∧ k' = k
        else if negb (valid_width w) then r = Err CE_FATAL ∧ k' = k
        else r = Ok tt ∧
          k' = k <| events ::= λ l, l ++ [EV_PORT_WRITE (wrap16 port) w (x mod 2 ^ (8 * w))] |>) k.
Proof.
  intros Hs Hp Hw Hx range. unfold io_operation_write. wp_steps.
  change RIGHTS_WRITE with (2 ^ 1). rewrite has_right_bit by done.
  destruct (has_rights _ _); cbn [negb orb]; [|by wp_steps].
  wp_head. wp_head. eapply wp_answers; [exact Hp|cbn beta iota]. cbn [transform_error]. fold range.
  destruct (is_address_is_in_range range port); cbn [negb]; [|by wp_steps].
  wp_head. wp_head. eapply wp_answers; [exact Hx|cbn beta iota]. wp_head. eapply wp_answers; [exact Hw|cbn beta iota].
  apply write_io_port_spec. by destruct (valid_width w).
Qed.

(** ** Minting a sub-range *)

Section mint.
Context `{config} (k : kernel) (owner : Z) (l1 : list slot_ref) (self : slot_ref) (l2 : list slot_ref).
Context (sv : capability_slot) (d : slot_ref) (dv : capability_slot) (new_min new_max : Z).
Hypothesis (Hch : chain (slots k) (l1 ++ self :: l2)) (Hsv : slots k !! self = Some sv).
Hypothesis (Hd : d ∉ l1 ++ self :: l2) (Hdv : slots k !! d = Some dv).

(** The capability for the new range, before it has a place in the chain. *)
Definition io_port_for : capability_slot :=
  initial_slot <| component := Some C_IO_PORT |> <| type := CT_IO_PORT |> <| rights := rights sv |>
    <| data := convert_address_range_to_slot_data (MkRange new_min new_max) |>.

(** It is a copy when it covers the same range, a child otherwise. *)
Definition io_mint_depth : Z :=
  if is_same_object sv io_port_for then depth sv else wadd (depth sv) 1.
Definition io_mint_chain : list slot_ref :=
  if is_same_object sv io_port_for then l1 ++ self :: d :: l2
  else l1 ++ self :: alias_prefix (slots k) sv l2 ++ d :: alias_rest (slots k) sv l2.

Lemma io_mint_insert Q :
  (∀ σ', chain σ' io_mint_chain →
     slot_core <$> σ' = <[d := io_port_for <| depth := io_mint_depth |>]> (slot_core <$> slots k) →
     Q tt (with_slots σ' k)) →
  wp (if is_same_object sv io_port_for then insert_sibling self d else insert_child self d) Q
     (with_slots (<[d := io_port_for]> (slots k)) k).
Proof.
  intros HQ. assert (self ≠ d) by set_solver.
  assert (Hext : ∀ w x, x ∈ l1 ++ self :: l2 → <[d := w]> (slots k) !! x = slots k !! x).
  { intros w x Hx. apply lookup_insert_ne. by intros ->. }
  assert (Hch' : ∀ w, chain (<[d := w]> (slots k)) (l1 ++ self :: l2)).
  { intros w. eapply dlist_ext; [|exact Hch]. intros y Hy. unfold heap_links. by rewrite Hext. }
  unfold io_mint_chain, io_mint_depth in *. destruct (is_same_object sv io_port_for).
  - unfold insert_sibling. slot_steps. rewrite insert_insert_eq.
    eapply insert_spec; [apply Hch'|done|apply lookup_insert_eq|].
    intros σ' Hc [Hf _]. apply HQ; [done|]. by rewrite Hf, fmap_insert.
  - eapply insert_child_spec; [apply Hch'|by rewrite Hext by set_solver|done|apply lookup_insert_eq|].
    rewrite insert_insert_eq. intros σ' Hc [Hf _]. apply HQ; [|by rewrite Hf, fmap_insert].
    assert (alias_prefix (<[d := io_port_for]> (slots k)) sv l2 = alias_prefix (slots k) sv l2) as Ha.
    { apply alias_prefix_ext. intros. apply Hext. set_solver. }
    unfold alias_rest in *. by rewrite Ha in Hc.
Qed.
End mint.

(** Minting an I/O-port capability narrows it.  The request is refused, with
    nothing changed, without the COPY right, for an empty range and for a range
    that is not inside the capability's own; otherwise the empty destination slot
    receives a capability with the same rights for exactly the requested range,
    placed in the dependency chain as a copy when the range is the same and as a
    child when it is smaller, and no other slot changes. *)
Theorem io_mint_narrows `{config} k owner l1 self l2 sv d dv new_min new_max :
  chain (slots k) (l1 ++ self :: l2) → slots k !! self = Some sv →
  d ∉ l1 ++ self :: l2 → slots k !! d = Some dv → type dv = CT_NONE →
  answers (message_or_0 owner IO_NEW_ADDRESS_MIN) k new_min →
  answers (message_or_0 owner IO_NEW_ADDRESS_MAX) k new_max →
  answers (try_get_slot_from_node_and_index_in_message owner IO_DESTINATION_NODE
             IO_DESTINATION_NODE_INDEX) k (Ok d) →
  let own := convert_slot_data_to_address_range (data sv) in
  wp (io_operation_mint owner self)
     (λ r k',
        if negb (has_rights (rights sv) RIGHTS_COPY) then r = Err CE_PERMISSION_DENIED ∧ k' = k
        else if new_max <? new_min then r = Err CE_INVALID_ARGUMENT ∧ k' = k
        else if (range_min own <=? new_min) && (new_max <=? range_max own) then
          r = Ok tt ∧ slots_after k (λ σ',
            chain σ' (io_mint_chain k l1 self l2 sv d new_min new_max) ∧
            slot_core <$> σ' = <[d := (io_port_for sv new_min new_max)
                                      <| depth := io_mint_depth sv new_min new_max |>]>
                                 (slot_core <$> slots k)) k'
        else r = Err CE_PERMISSION_DENIED ∧ k' = k) k.
Proof.
  intros Hch Hsv Hd Hdv Ht Hmin Hmax Hdst own. assert (self ≠ d) by set_solver.
  unfold io_operation_mint. wp_steps.
  change RIGHTS_COPY with (2 ^ 2). rewrite has_right_bit by done.
  destruct (has_rights _ _); cbn [negb]; [|by wp_steps].
  wp_head. eapply wp_answers; [exact Hmin|cbn beta iota]. wp_head. eapply wp_answers; [exact Hmax|cbn beta iota].
  wp_head. unfold judge_range_is_subset. ksimpl_goal. cbn [range_min range_max].
  destruct (new_max <? new_min); [by wp_steps|]. fold own.
  rewrite (Z.ltb_antisym (range_min own)), (Z.ltb_antisym new_max), <- negb_andb.
  destruct (_ && _); cbn [negb]; [|by wp_steps].
  wp_step. wp_head. wp_head. eapply wp_answers; [exact Hdst|cbn beta iota]. cbn [transform_error].
  rewrite (with_slots_id k) at 1. slot_steps. rewrite decide_False by naive_solver.
  unfold try_configure_io_port_slot. slot_steps. cbn [transform_error]. slot_steps.
  rewrite !insert_insert_eq.
  eapply (io_mint_insert k l1 self l2 sv d dv new_min new_max Hch Hsv Hd); [done|].
  intros σ' Hc Hf. wp_steps. split; [done|]. exists σ'. done.
Qed.

(** ** Interrupts *)

(** A device interrupt is masked and then completed, in this order, after the
    delivery to the Notification Port bound to it and whatever that delivery
    answered: the interrupt controller can not raise it again before a user
    acknowledges it, and it is never left uncompleted. *)
Theorem handle_interrupt_masks_then_completes `{config} k irq r k1 :
  0 ≤ irq < IRQ_NUMBER_MAX → deliver_interrupt irq k = Ret r k1 →
  wp (handle_interrupt irq)
     (λ _ k', k' = k1 <| events ::= λ l, l ++ [EV_DISABLE_IRQ irq; EV_EOI (current_core k1)] |>) k.
Proof.
  intros Hirq Hd. unfold handle_interrupt. wp_head. apply wp_run. exists r, k1. split; [done|].
  unfold disable_interrupt, ack_interrupt, emit, IRQ_NUMBER_MAX in *.
  rewrite (proj2 (Z.leb_gt 256 irq)) by lia. wp_steps. cbv [upd]. ksimpl_goal.
  by rewrite <- app_assoc.
Qed.

Section example.
#[local] Existing Instance example_config.

(** A process 7 whose root Node (at 100) holds itself, a capability for the ports
    0x3F8 to 0x3FF and an empty slot; its message registers are [l]. *)
Definition example_io_port : capability_slot :=
  MkSlot (Some C_IO_PORT) CT_IO_PORT RIGHTS_ALL false (SlotData 0x3F8 0x3FF 0) None None 0.
Definition example_io (l : list Z) : kernel :=
  initial_kernel
    <| processes := {[7 := initial_process <| registers :=
         foldr (λ im regs, match message_register_index (fst im) with
                           | Some r => set_register r (snd im) regs | None => regs end)
           (replicate 23 0) (zip [0; 1; 2; 3; 4; 5] l) |>]} |>
    <| nodes := {[100 := MkNode 0 2 (Some 1)]} |>
    <| slots := {[process_slot_ref 7 ROOT_SLOT := example_root; array_slot 1 0 := example_root;
                  array_slot 1 1 := example_io_port; array_slot 1 2 := initial_slot;
                  irq_slot 4 := initial_slot]} |>.

Lemma io_write_confined_witness :
  wp (io_operation_write 7 (array_slot 1 1))
     (λ r k', r = Ok tt ∧ events k' = [EV_PORT_WRITE 0x3F8 1 0x41]) (example_io [0; 2; 0x3F8; 1; 0x141]) ∧
  wp (io_operation_write 7 (array_slot 1 1))
     (λ r k', r = Err CE_PERMISSION_DENIED ∧ k' = example_io [0; 2; 0x400; 1; 0x41])
     (example_io [0; 2; 0x400; 1; 0x41]).
Proof.
  split.
  - eapply wp_mono; [|apply (io_write_confined (example_io [0; 2; 0x3F8; 1; 0x141]) 7 (array_slot 1 1)
      example_io_port 0x3F8 1 0x141); vm_compute; reflexivity].
    intros r k' [-> ->]. done.
  - apply (io_write_confined (example_io [0; 2; 0x400; 1; 0x41]) 7 (array_slot 1 1)
      example_io_port 0x400 1 0x41); vm_compute; reflexivity.
Defined.

Lemma io_mint_narrows_witness :
  let k := example_io [0; 3; 0x3F8; 0x3F9; example_descriptor 0; 2] in
  wp (io_operation_mint 7 (array_slot 1 1))
     (λ r k', r = Ok tt ∧ slots_after k (λ σ', chain σ' [array_slot 1 1; array_slot 1 2] ∧
        slot_core <$> σ' = <[array_slot 1 2 :=
           initial_slot <| component := Some C_IO_PORT |> <| type := CT_IO_PORT |>
             <| rights := RIGHTS_ALL |> <| data := SlotData 0x3F8 0x3F9 0 |> <| depth := 1 |>]>
          (slot_core <$> slots k)) k') k.
Proof.
  intros k. eapply wp_mono.
  2:{ apply (io_mint_narrows k 7 [] (array_slot 1 1) [] example_io_port (array_slot 1 2)
    initial_slot 0x3F8 0x3F9); try (vm_compute; reflexivity); [by repeat split|set_solver]. }
  intros r k' Hk. exact Hk.
Defined.

Lemma handle_interrupt_masks_then_completes_witness :
  ∃ k1, deliver_interrupt 4 (example_io []) = Ret (Err KE_TRY_AGAIN) k1 ∧
    wp (handle_interrupt 4)
       (λ _ k', k' = k1 <| events ::= λ l, l ++ [EV_DISABLE_IRQ 4; EV_EOI 0] |>) (example_io []).
Proof.
  eexists. split; [vm_compute; reflexivity|].
  apply (handle_interrupt_masks_then_completes (example_io []) 4 (Err KE_TRY_AGAIN));
    [by vm_compute|vm_compute; reflexivity].
Defined.

(** READ does not look at the range of the capability: with the capability for
    the ports 0x3F8 to 0x3FF a process reads the keyboard controller at 0x60 (the
    device answers its port number), which the same capability can not write. *)
Theorem io_read_unconfined :
  (∃ k', io_operation_read 7 (array_slot 1 1) (example_io [0; 1; 0x60; 1; 0]) = Ret (Ok tt) k' ∧
         readable k' 7 IO_READ_DATA 0x60) ∧
  io_operation_write 7 (array_slot 1 1) (example_io [0; 2; 0x60; 1; 0])
  = Ret (Err CE_PERMISSION_DENIED) (example_io [0; 2; 0x60; 1; 0]).
Proof.
  split; [|vm_compute; reflexivity]. eexists. split; [vm_compute; reflexivity|].
  vm_compute. reflexivity.
Qed.
End example.
