(* ===== verification/Lock.v ===== *)
(** The giant lock of a multiprocessor and the hand-over of the kernel state to
    a core that waits for it: [spin_lock] and its contended path
    (src/src/kernel/include/kernel/process/lock.hpp,
    src/src/kernel/process/lock.cpp), the atomic operations they use
    (src/src/hal/x86_64/include/hal/x86_64/process/lock.cpp) and the stop
    requests of src/src/kernel/process/reclamation.cpp, as a step relation whose
    steps are the atomic accesses of the cores to shared memory. *)

From S2P Require Import Prelude Word Types Dll Kernel.

(** ** Atomic operations: what they return and the word they leave *)

Definition atomic_compare_exchange (value expected desired : Z) : Z * Z :=
  (value, if value =? expected then desired else value).
Definition atomic_store (new_value : Z) : Z := new_value.

(** [spin_lock::try_lock], on the value of [locked]. *)
Definition try_lock (locked : Z) : kernel_result * Z :=
  let r := atomic_compare_exchange locked 0 1 in
  (if negb (fst r =? 0) then Err KE_TRY_AGAIN else Ok tt, snd r).

(** [spin_lock::unlock]. *)
Definition unlock (locked : Z) : Z := atomic_store 0.

(** [null_lock], the giant lock of a uniprocessor. *)
Definition null_lock_lock : kernel_result := Ok tt.
Definition null_lock_unlock : kernel_result := Ok tt.

(** [lock_region]: the lock word before, the function, what is returned and the
    lock word after. *)
Definition lock_region (locked : Z) (function : kernel_result) : kernel_result * Z :=
  match function with
  | Ok _ => (Ok tt, unlock locked)
  | Err e => (Err e, locked)
  end.

(** ** The cores

    Where a core stands with respect to the lock:
    outside the kernel; before a [try_lock]; in the body of the loop of
    [lock_contended]; in the part of [service_pending_stop_request] that
    retires its process; in the critical section; in
    [wait_for_stop_completion] for core [t]; after it, before the request is
    reset. *)
Inductive lock_pc :=
| OUTSIDE | TRYING | CONTENDED | SERVING | HOLDING | WAITING (t : Z) | RESETTING (t : Z).

Record lock_state := MkLockState {
  locked : Z;
  pcs : Z → lock_pc;
  requests : Z → stop_state;
}.

Definition set_at {A} (c : Z) (v : A) (f : Z → A) : Z → A := λ x, if decide (x = c) then v else f x.

Definition goes (c : Z) (pc : lock_pc) (s : lock_state) : lock_state :=
  MkLockState (locked s) (set_at c pc (pcs s)) (requests s).

Definition initial_lock : lock_state := MkLockState 0 (λ _, OUTSIDE) (λ _, STOP_IDLE).

(** One atomic action of core [c]. *)
Inductive lock_step (c : Z) (s : lock_state) : lock_state → Prop :=
| step_enter :
    pcs s c = OUTSIDE → lock_step c s (goes c TRYING s)
| step_try_lock r l :
    pcs s c = TRYING → try_lock (locked s) = (r, l) →
    lock_step c s (MkLockState l (set_at c (if is_ok r then HOLDING else CONTENDED) (pcs s)) (requests s))
| step_no_request :
    pcs s c = CONTENDED → requests s c ≠ STOP_PENDING → lock_step c s (goes c TRYING s)
| step_service :
    pcs s c = CONTENDED → requests s c = STOP_PENDING → lock_step c s (goes c SERVING s)
| step_complete completion_state :
    pcs s c = SERVING → completion_state = STOP_STOPPED ∨ completion_state = STOP_FAILED →
    lock_step c s (MkLockState (locked s) (set_at c TRYING (pcs s))
                     (set_at c completion_state (requests s)))
| step_publish t :
    pcs s c = HOLDING → t ≠ c →
    lock_step c s (MkLockState (locked s) (set_at c (WAITING t) (pcs s))
                     (set_at t STOP_PENDING (requests s)))
| step_observe t :
    pcs s c = WAITING t → requests s t ≠ STOP_PENDING → lock_step c s (goes c (RESETTING t) s)
| step_reset t :
    pcs s c = RESETTING t →
    lock_step c s (MkLockState (locked s) (set_at c HOLDING (pcs s)) (set_at t STOP_IDLE (requests s)))
| step_unlock :
    pcs s c = HOLDING →
    lock_step c s (MkLockState (unlock (locked s)) (set_at c OUTSIDE (pcs s)) (requests s)).

(** Any interleaving of the cores. *)
Inductive lock_steps : lock_state → lock_state → Prop :=
| lock_steps_refl s : lock_steps s s
| lock_steps_step s1 s2 s3 c : lock_steps s1 s2 → lock_step c s2 s3 → lock_steps s1 s3.

Abbreviation lock_reachable := (lock_steps initial_lock).

(** A core that reads or writes the state of the kernel: the holder of the lock,
    unless it waits for another core, and a core that services a request. *)
Definition accesses_kernel (pc : lock_pc) : bool :=
  match pc with SERVING | HOLDING | RESETTING _ => true | _ => false end.

(** A core that has taken the lock and not released it. *)
Definition owns_lock (pc : lock_pc) : bool :=
  match pc with HOLDING | WAITING _ | RESETTING _ => true | _ => false end.
