(* ===== verification/LockProofs.v ===== *)
(** Properties of the giant lock: exclusive access to the state of the kernel in
    every interleaving, and that no interleaving can lock a core out for good. *)

From S2P Require Import Prelude Word Types Dll Kernel Lock.

(** ** The invariant

    [lock_inv o s]: the lock word tells whether a core owns the lock and [o]
    which one; a pending request is one the owner waits for; a core services a
    request only while it is pending. *)

Record lock_inv (o : option Z) (s : lock_state) : Prop := {
  inv_word : locked s = match o with Some _ => 1 | None => 0 end;
  inv_owner : ∀ c, owns_lock (pcs s c) = true ↔ o = Some c;
  inv_pending : ∀ t, requests s t = STOP_PENDING → ∃ h, o = Some h ∧ pcs s h = WAITING t;
  inv_serving : ∀ t, pcs s t = SERVING → requests s t = STOP_PENDING;
  inv_waiting : ∀ h t, pcs s h = WAITING t → requests s t ≠ STOP_IDLE ∧ t ≠ h;
}.

Lemma set_at_eq {A} c (v : A) f : set_at c v f c = v.
Proof. unfold set_at. by rewrite decide_True. Qed.
Lemma set_at_ne {A} c d (v : A) f : d ≠ c → set_at c v f d = f d.
Proof. intros. unfold set_at. by rewrite decide_False. Qed.

Lemma lock_inv_initial : lock_inv None initial_lock.
Proof. by constructor. Qed.

(** Only the free lock is taken, and the word says so afterwards. *)
Lemma try_lock_spec o s r l :
  try_lock (locked s) = (r, l) → lock_inv o s →
  l = 1 ∧ r = match o with None => Ok tt | Some _ => Err KE_TRY_AGAIN end.
Proof.
  intros H Hs. rewrite (inv_word _ _ Hs) in H. by destruct o; injection H as <- <-.
Qed.

(** Changing the place of a core that does not own the lock, to one where it
    does not either, concerns no other core. *)
Lemma lock_inv_goes o s c pc :
  lock_inv o s → owns_lock (pcs s c) = false → owns_lock pc = false →
  (pc = SERVING → requests s c = STOP_PENDING) → lock_inv o (goes c pc s).
Proof.
  intros [Hw Ho Hp Hv Hx] Hc Hpc Hserve. constructor; cbn [goes locked pcs requests]; [done|..].
  - intros d. unfold set_at. case_decide; [subst|apply Ho]. rewrite Hpc, <- Ho. by rewrite Hc.
  - intros t Ht. destruct (Hp t Ht) as (h & Hh & Hw'). exists h. split; [done|].
    unfold set_at. case_decide; [|done]. subst. by rewrite Hw' in Hc.
  - intros t Ht. unfold set_at in Ht. case_decide; [subst; auto|auto].
  - intros h t Ht. unfold set_at in Ht. case_decide; [subst; done|by apply Hx].
Qed.

(** The owner of the lock moves on with it: the requests change as its new place
    says, and a core that services one keeps it. *)
Lemma lock_inv_owner s c pc f :
  lock_inv (Some c) s → owns_lock pc = true →
  (∀ t, f t = STOP_PENDING → pc = WAITING t) →
  (∀ t, pcs s t = SERVING → f t = STOP_PENDING) →
  (∀ t, pc = WAITING t → f t ≠ STOP_IDLE ∧ t ≠ c) →
  lock_inv (Some c) (MkLockState (locked s) (set_at c pc (pcs s)) f).
Proof.
  intros [Hw Ho Hp Hv Hx] Hpc Hf Hserve Hwait. constructor; cbn [locked pcs requests]; [done|..].
  - intros d. unfold set_at. case_decide; [by subst|apply Ho].
  - intros t Ht. exists c. by rewrite set_at_eq, (Hf t Ht).
  - intros t Ht. unfold set_at in Ht. case_decide; [by subst pc|auto].
  - intros h t Ht. unfold set_at in Ht. case_decide; [subst; auto|].
    assert (Hh : owns_lock (pcs s h) = true) by by rewrite Ht. apply Ho in Hh. naive_solver.
Qed.

(** Nobody services a request while the owner of the lock is not waiting. *)
Lemma no_service s c t :
  lock_inv (Some c) s → (∀ u, pcs s c ≠ WAITING u) → pcs s t ≠ SERVING.
Proof.
  intros Hs Hc Ht. destruct (inv_pending _ _ Hs t) as (h & Hh & Hw); [by apply (inv_serving _ _ Hs)|].
  simplify_eq. by apply Hc in Hw.
Qed.

Lemma lock_owner s o c : lock_inv o s → owns_lock (pcs s c) = true → o = Some c.
Proof. intros Hs. apply (inv_owner _ _ Hs). Qed.

Lemma lock_step_inv c s s' o : lock_step c s s' → lock_inv o s → ∃ o', lock_inv o' s'.
Proof.
  intros Hstep Hs.
  destruct Hstep as [Hpc|r l Hpc Ht|Hpc Hr|Hpc Hr|st Hpc Hst|t Hpc Ht|t Hpc Hr|t Hpc|Hpc].
  - exists o. apply lock_inv_goes; [done|by rewrite Hpc|done|done].
  - destruct (try_lock_spec _ _ _ _ Ht Hs) as [-> ->]. destruct o as [h|]; cbn [is_ok].
    + exists (Some h). pose proof (inv_word _ _ Hs) as Hw. cbn in Hw. rewrite <- Hw.
      apply (lock_inv_goes (Some h) s c CONTENDED); [done|by rewrite Hpc|done|done].
    + exists (Some c). destruct Hs as [Hw Ho Hp Hv Hx]. constructor; cbn [locked pcs requests]; [done|..].
      * intros d. unfold set_at. case_decide; [by subst|]. rewrite Ho. naive_solver.
      * intros t Ht'. by destruct (Hp t Ht') as (h & Hh & _).
      * intros t Ht'. unfold set_at in Ht'. case_decide; [done|auto].
      * intros h t Ht'. unfold set_at in Ht'. case_decide; [done|auto].
  - exists o. apply lock_inv_goes; [done|by rewrite Hpc|done|done].
  - exists o. apply lock_inv_goes; [done|by rewrite Hpc|done|done].
  - exists o. apply (lock_inv_goes _ _ c TRYING) in Hs as Hs'; [|by rewrite Hpc|done|done].
    destruct Hs' as [Hw Ho Hp Hv Hx]. constructor; cbn [locked pcs requests]; try done.
    + intros t Ht. unfold set_at at 1 in Ht. case_decide; [naive_solver|by apply Hp].
    + intros t Ht. pose proof (Hv t Ht) as Hpend. unfold set_at at 1. case_decide; [|done]. subst.
      by rewrite set_at_eq in Ht.
    + intros h t Ht. unfold set_at at 1. case_decide; [|by apply (Hx h t)].
      split; [naive_solver|by apply (Hx h t)].
  - assert (o = Some c) as -> by (apply (lock_owner s); [done|by rewrite Hpc]).
    exists (Some c). apply lock_inv_owner; [done|done|..].
    + intros u. unfold set_at. case_decide; [by subst|]. intros Hu.
      destruct (inv_pending _ _ Hs u Hu) as (h & Hh & Hw). simplify_eq. by rewrite Hpc in Hw.
    + intros u Hu. exfalso. apply (no_service s c u Hs); [|done]. by rewrite Hpc.
    + intros u Hu. simplify_eq. by rewrite set_at_eq.
  - assert (o = Some c) as -> by (apply (lock_owner s); [done|by rewrite Hpc]).
    exists (Some c). apply lock_inv_owner; [done|done|..].
    + intros u Hu. destruct (inv_pending _ _ Hs u Hu) as (h & Hh & Hw). simplify_eq.
      rewrite Hpc in Hw. by simplify_eq.
    + intros u Hu. by apply (inv_serving _ _ Hs).
    + done.
  - assert (o = Some c) as -> by (apply (lock_owner s); [done|by rewrite Hpc]).
    exists (Some c). apply lock_inv_owner; [done|done|..].
    + intros u. unfold set_at. case_decide; [done|]. intros Hu.
      destruct (inv_pending _ _ Hs u Hu) as (h & Hh & Hw). simplify_eq. by rewrite Hpc in Hw.
    + intros u Hu. exfalso. apply (no_service s c u Hs); [|done]. by rewrite Hpc.
    + done.
  - assert (o = Some c) as -> by (apply (lock_owner s); [done|by rewrite Hpc]).
    exists None. destruct Hs as [Hw Ho Hp Hv Hx]. constructor; cbn [locked pcs requests]; [done|..].
    + intros d. unfold set_at. case_decide; [done|]. rewrite Ho. naive_solver.
    + intros t Ht. destruct (Hp t Ht) as (h & Hh & Hw'). simplify_eq. by rewrite Hpc in Hw'.
    + intros t Ht. unfold set_at in Ht. case_decide; [done|auto].
    + intros h t Ht. unfold set_at in Ht. case_decide; [done|auto].
Qed.

Lemma lock_reachable_inv s : lock_reachable s → ∃ o, lock_inv o s.
Proof.
  remember initial_lock as s0 eqn:E. induction 1 as [|s1 s2 s3 c _ IH Hstep]; subst.
  - exists None. apply lock_inv_initial.
  - destruct (IH eq_refl) as [o Ho]. by eapply lock_step_inv.
Qed.

(** C7: the state of the kernel is never accessed by two cores at a time.  In every
    interleaving of any number of cores that take and release the giant lock,
    publish stop requests, wait for them and service them without the lock, at
    most one core is in a place where it reads or writes the state of the kernel,
    and a core that services a request does so while the owner of the lock waits
    for exactly this request.  The lock word is 1 exactly when some core owns the lock and
    0 otherwise. *)
Theorem kernel_access_exclusive s :
  lock_reachable s →
  (∀ c d, accesses_kernel (pcs s c) = true → accesses_kernel (pcs s d) = true → c = d) ∧
  (∀ t, pcs s t = SERVING → ∃ h, owns_lock (pcs s h) = true ∧ pcs s h = WAITING t) ∧
  (locked s = 0 ∨ locked s = 1) ∧ (locked s = 1 ↔ ∃ c, owns_lock (pcs s c) = true).
Proof.
  intros [o Ho]%lock_reachable_inv.
  assert (Hserve : ∀ t, pcs s t = SERVING → ∃ h, o = Some h ∧ pcs s h = WAITING t).
  { intros t Ht. by apply (inv_pending _ _ Ho), (inv_serving _ _ Ho). }
  assert (Hown : ∀ c, owns_lock (pcs s c) = true → o = Some c) by (intros c; apply (lock_owner s o c Ho)).
  split; [|split; [intros t Ht; destruct (Hserve t Ht) as (h & Hh & Hw); exists h; by rewrite Hw|]].
  2:{ rewrite (inv_word _ _ Ho). split; [destruct o; auto|]. setoid_rewrite (inv_owner _ _ Ho).
      destruct o; split; try done; [eauto|by intros []]. }
  assert (Hcase : ∀ c, accesses_kernel (pcs s c) = true →
            pcs s c = SERVING ∨ o = Some c ∧ ∀ t, pcs s c ≠ WAITING t).
  { intros c Hc. destruct (pcs s c) eqn:E; try done; [by left|right; split; [apply Hown; by rewrite E|done]..]. }
  intros c d Hc Hd.
  destruct (Hcase c Hc) as [Sc|[Oc Wc]], (Hcase d Hd) as [Sd|[Od Wd]].
  - destruct (Hserve c Sc) as (h & Hh & Hw), (Hserve d Sd) as (h' & Hh' & Hw'). congruence.
  - destruct (Hserve c Sc) as (h & Hh & Hw). simplify_eq. by apply Wd in Hw.
  - destruct (Hserve d Sd) as (h & Hh & Hw). simplify_eq. by apply Wc in Hw.
  - congruence.
Qed.

(** ** Progress *)

Lemma lock_steps_trans s1 s2 s3 : lock_steps s1 s2 → lock_steps s2 s3 → lock_steps s1 s3.
Proof. intros H. induction 1; [done|]. econstructor; [by apply IHlock_steps|done]. Qed.

Lemma lock_steps_then c s1 s2 s3 : lock_step c s1 s2 → lock_steps s2 s3 → lock_steps s1 s3.
Proof. intros H. apply lock_steps_trans. econstructor; [constructor|done]. Qed.

(** What can be reached after a step can be reached before it. *)
Lemma reach_after c s s1 (P : lock_state → Prop) :
  lock_step c s s1 → (∃ s', lock_steps s1 s' ∧ P s') → ∃ s', lock_steps s s' ∧ P s'.
Proof. intros H (s' & ? & ?). exists s'. split; [by eapply lock_steps_then|done]. Qed.

Lemma lock_steps_inv s s' o : lock_steps s s' → lock_inv o s → ∃ o', lock_inv o' s'.
Proof.
  induction 1 as [|s1 s2 s3 c _ IH Hstep]; intros Hs; [by exists o|].
  destruct (IH Hs) as [o' Ho]. by eapply lock_step_inv.
Qed.

(** A core that does not own the lock while it is taken gets to service its
    pending request, and nothing else changes. *)
Lemma reaches_service s t h :
  lock_inv (Some h) s → t ≠ h → requests s t = STOP_PENDING →
  ∃ s', lock_steps s s' ∧ pcs s' t = SERVING ∧ pcs s' h = pcs s h ∧ requests s' t = STOP_PENDING.
Proof.
  intros Hs Hne Hr.
  assert (Hc : ∀ s, locked s = 1 → pcs s t = CONTENDED → requests s t = STOP_PENDING →
            ∃ s', lock_steps s s' ∧ pcs s' t = SERVING ∧ pcs s' h = pcs s h ∧ requests s' t = STOP_PENDING).
  { intros u _ Hu Hru. eexists. split; [eapply lock_steps_then; [by apply step_service|constructor]|].
    cbn. by rewrite set_at_eq, set_at_ne by done. }
  assert (Ht : ∀ s, locked s = 1 → pcs s t = TRYING → requests s t = STOP_PENDING →
            ∃ s', lock_steps s s' ∧ pcs s' t = SERVING ∧ pcs s' h = pcs s h ∧ requests s' t = STOP_PENDING).
  { intros u Hl Hu Hru. destruct (Hc (MkLockState 1 (set_at t CONTENDED (pcs u)) (requests u))) as (s' & ? & ? & E & ?);
      [done|by cbn; rewrite set_at_eq|done|].
    exists s'. split; [|by cbn in E; rewrite set_at_ne in E by done].
    eapply lock_steps_then; [|done]. apply (step_try_lock t u (Err KE_TRY_AGAIN) 1); [done|].
    unfold try_lock. by rewrite Hl. }
  assert (Hl : locked s = 1) by apply (inv_word _ _ Hs).
  destruct (pcs s t) eqn:E.
  - destruct (Ht (goes t TRYING s)) as (s' & ? & ? & E' & ?); [done|by cbn; rewrite set_at_eq|done|].
    exists s'. split; [|by cbn in E'; rewrite set_at_ne in E' by done].
    eapply lock_steps_then; [by apply step_enter|done].
  - by apply Ht.
  - by apply Hc.
  - exists s. split; [constructor|done].
  - assert (Some h = Some t) by (apply (lock_owner s); [done|by rewrite E]). congruence.
  - assert (Some h = Some t) by (apply (lock_owner s); [done|by rewrite E]). congruence.
  - assert (Some h = Some t) by (apply (lock_owner s); [done|by rewrite E]). congruence.
Qed.

(** The owner of the lock can always release it. *)
Lemma holding_releases s h : pcs s h = HOLDING → ∃ s', lock_steps s s' ∧ locked s' = 0.
Proof. intros H. eapply reach_after; [by apply (step_unlock h)|]. eexists. by split; [constructor|]. Qed.
Lemma resetting_releases s h t : pcs s h = RESETTING t → ∃ s', lock_steps s s' ∧ locked s' = 0.
Proof.
  intros H. eapply reach_after; [by apply (step_reset h s t)|]. apply (holding_releases _ h).
  cbn. apply set_at_eq.
Qed.
Lemma waiting_releases s h t :
  pcs s h = WAITING t → requests s t ≠ STOP_PENDING → ∃ s', lock_steps s s' ∧ locked s' = 0.
Proof.
  intros H Hr. eapply reach_after; [by apply (step_observe h s t)|].
  apply (resetting_releases _ h t). cbn. apply set_at_eq.
Qed.

Lemma owner_releases s h : lock_inv (Some h) s → ∃ s', lock_steps s s' ∧ locked s' = 0.
Proof.
  intros Hs. pose proof (proj2 (inv_owner _ _ Hs h) eq_refl) as Hh.
  destruct (pcs s h) as [| | | | |t|t] eqn:E; try done;
    [by eapply holding_releases| |by eapply resetting_releases].
  destruct (inv_waiting _ _ Hs h t E) as [_ Hne].
  destruct (requests s t) eqn:Er; try (by eapply waiting_releases; [done|rewrite Er]).
  destruct (reaches_service s t h Hs Hne Er) as (s1 & Hs1 & Hserve & Hh1 & Hr1).
  edestruct (reach_after t s1) as (s2 & ? & ?).
  - apply (step_complete t s1 STOP_STOPPED Hserve (or_introl eq_refl)).
  - apply (waiting_releases _ h t); cbn; [rewrite set_at_ne by done; congruence|by rewrite set_at_eq].
  - exists s2. split; [by eapply lock_steps_trans|done].
Qed.

(** A free lock is taken by any core that wants it. *)
Lemma free_lock_taken s c : lock_inv None s → ∃ s', lock_steps s s' ∧ pcs s' c = HOLDING.
Proof.
  intros Hs. assert (Hl : locked s = 0) by apply (inv_word _ _ Hs).
  assert (Ht : ∀ s, locked s = 0 → pcs s c = TRYING → ∃ s', lock_steps s s' ∧ pcs s' c = HOLDING).
  { intros u Hlu Hu. eexists. split.
    - eapply lock_steps_then; [|constructor]. apply (step_try_lock c u (Ok tt) 1); [done|].
      unfold try_lock. by rewrite Hlu.
    - cbn. by rewrite set_at_eq. }
  assert (Hno : ∀ t, requests s t ≠ STOP_PENDING).
  { intros t Hp. by destruct (inv_pending _ _ Hs t Hp) as (h & ? & _). }
  assert (Hown : owns_lock (pcs s c) = false).
  { apply not_true_is_false. by intros H%(lock_owner s None c Hs). }
  destruct (pcs s c) eqn:E; try done.
  - eapply reach_after; [by apply (step_enter c)|]. apply Ht; [done|cbn; apply set_at_eq].
  - by apply Ht.
  - eapply reach_after; [by apply (step_no_request c)|]. apply Ht; [done|cbn; apply set_at_eq].
  - exfalso. apply (Hno c). by apply (inv_serving _ _ Hs).
Qed.

(** C33: the giant lock can not be lost.  From every state the cores can reach, and
    for every core, the run can go on so that the core gets the lock: neither the
    wait for a stop request, which holds the lock while the target contends for
    it, nor a failed request, nor a release leaves the lock taken for good. *)
Theorem giant_lock_obtainable s c :
  lock_reachable s → ∃ s', lock_steps s s' ∧ pcs s' c = HOLDING.
Proof.
  intros [[h|] Ho]%lock_reachable_inv; [|by apply free_lock_taken].
  destruct (owner_releases s h Ho) as (s1 & Hs1 & Hl).
  destruct (lock_steps_inv _ _ _ Hs1 Ho) as [o1 Ho1].
  assert (o1 = None) as -> by (pose proof (inv_word _ _ Ho1) as Hw; by destruct o1; rewrite Hl in Hw).
  destruct (free_lock_taken s1 c Ho1) as (s2 & ? & ?). exists s2. split; [by eapply lock_steps_trans|done].
Qed.

(** ** Witnesses *)

(** Core 0 holds the lock and waits for core 1, which services its request; core
    2 spins. *)
Definition example_lock : lock_state :=
  MkLockState 1 (set_at 1 SERVING (set_at 2 CONTENDED (set_at 1 CONTENDED
    (set_at 0 (WAITING 1) (set_at 0 HOLDING (set_at 2 TRYING (set_at 1 TRYING (set_at 0 TRYING (λ _, OUTSIDE)))))))))
    (set_at 1 STOP_PENDING (λ _, STOP_IDLE)).

Lemma example_lock_reachable : lock_reachable example_lock.
Proof.
  eapply lock_steps_then; [by apply (step_enter 0)|].
  eapply lock_steps_then; [by apply (step_enter 1)|].
  eapply lock_steps_then; [by apply (step_enter 2)|].
  eapply lock_steps_then; [by apply (step_try_lock 0 _ (Ok tt) 1)|].
  eapply lock_steps_then; [by apply (step_publish 0 _ 1)|].
  eapply lock_steps_then; [by apply (step_try_lock 1 _ (Err KE_TRY_AGAIN) 1)|].
  eapply lock_steps_then; [by apply (step_try_lock 2 _ (Err KE_TRY_AGAIN) 1)|].
  eapply lock_steps_then; [by apply (step_service 1)|].
  constructor.
Qed.

Lemma kernel_access_exclusive_witness :
  lock_reachable example_lock ∧ accesses_kernel (pcs example_lock 1) = true ∧
  accesses_kernel (pcs example_lock 0) = false ∧
  (∀ c, accesses_kernel (pcs example_lock c) = true → c = 1).
Proof.
  split; [apply example_lock_reachable|]. do 2 (split; [reflexivity|]). intros c Hc.
  apply (proj1 (kernel_access_exclusive example_lock example_lock_reachable)); [exact Hc|reflexivity].
Defined.

Lemma giant_lock_obtainable_witness :
  lock_reachable example_lock ∧ ∃ s', lock_steps example_lock s' ∧ pcs s' 2 = HOLDING.
Proof.
  split; [apply example_lock_reachable|]. apply giant_lock_obtainable, example_lock_reachable.
Defined.

(** [lock_region] releases the lock only when the function it runs succeeds: its
    caller, which sees the error of the function, is left with the lock taken. *)
Lemma lock_region_keeps_lock e : lock_region 1 (Err e) = (Err e, 1) ∧ lock_region 1 (Ok tt) = (Ok tt, 0).
Proof. done. Qed.
