(* ===== verification/CString.v ===== *)
(** The byte and string functions of the freestanding C library:
    src/src/liba9n/src/libc/string/string.cpp (the branch without builtins,
    which the build selects).

    Memory is a finite map from addresses to bytes (0 to 255); reading or writing
    an address that is not mapped is undefined, [None].  A pointer that walks
    over a string moves up by one in every turn, so the number of mapped bytes
    bounds the turns of a loop without a counter. *)

From S2P Require Import Prelude Word.

Abbreviation byte_memory := (gmap Z Z).

Definition write_byte (m : byte_memory) (p v : Z) : option byte_memory :=
  _ ← m !! p; Some (<[p := wrap8 v]> m).

(** [char] of x86-64 is signed. *)
Definition to_char (v : Z) : Z := (v + 128) mod 256 - 128.

Fixpoint memset_loop (m : byte_memory) (buffer_pointer value : Z) (count : nat) : option byte_memory :=
  match count with
  | O => Some m
  | S count' => m' ← write_byte m buffer_pointer value; memset_loop m' (buffer_pointer + 1) value count'
  end.
Definition memset (m : byte_memory) (buffer value buffer_size : Z) : option byte_memory :=
  memset_loop m buffer value (Z.to_nat buffer_size).

Fixpoint memcpy_loop (m : byte_memory) (buffer_pointer source_pointer : Z) (count : nat)
    : option byte_memory :=
  match count with
  | O => Some m
  | S count' =>
      v ← m !! source_pointer;
      m' ← write_byte m buffer_pointer v;
      memcpy_loop m' (buffer_pointer + 1) (source_pointer + 1) count'
  end.
Definition memcpy (m : byte_memory) (buffer source size : Z) : option byte_memory :=
  memcpy_loop m buffer source (Z.to_nat size).

Fixpoint memcmp_loop (m : byte_memory) (pointer_1 pointer_2 : Z) (size : nat) : option Z :=
  match size with
  | O => Some 0
  | S size' =>
      a ← m !! pointer_1; b ← m !! pointer_2;
      if a =? b then memcmp_loop m (pointer_1 + 1) (pointer_2 + 1) size' else Some (a - b)
  end.
Definition memcmp (m : byte_memory) (source_1 source_2 size : Z) : option Z :=
  memcmp_loop m source_1 source_2 (Z.to_nat size).

Fixpoint strcpy_loop (fuel : nat) (m : byte_memory) (buffer_pointer source : Z) : option byte_memory :=
  match fuel with
  | O => None
  | S fuel' =>
      v ← m !! source;
      m' ← write_byte m buffer_pointer v;
      if v =? 0 then Some m' else strcpy_loop fuel' m' (buffer_pointer + 1) (source + 1)
  end.
Definition strcpy (m : byte_memory) (buffer source : Z) : option byte_memory :=
  strcpy_loop (size m) m buffer source.

Fixpoint strcmp_loop (fuel : nat) (m : byte_memory) (source_1 source_2 : Z) : option Z :=
  match fuel with
  | O => None
  | S fuel' =>
      a ← m !! source_1; b ← m !! source_2;
      if negb (a =? 0) && negb (b =? 0) && (a =? b)
      then strcmp_loop fuel' m (source_1 + 1) (source_2 + 1)
      else Some (a - b)
  end.
Definition strcmp (m : byte_memory) (source_1 source_2 : Z) : option Z :=
  strcmp_loop (size m) m source_1 source_2.

(** [result] is a [char]: the difference is cut to its width. *)
Fixpoint strncmp_loop (m : byte_memory) (source_1 source_2 : Z) (size : nat) : option Z :=
  match size with
  | O => Some 0
  | S size' =>
      a ← m !! source_1; b ← m !! source_2;
      let result := to_char (to_char a - to_char b) in
      if negb (result =? 0) || (a =? 0) then Some result
      else strncmp_loop m (source_1 + 1) (source_2 + 1) size'
  end.
Definition strncmp (m : byte_memory) (source_1 source_2 size : Z) : option Z :=
  strncmp_loop m source_1 source_2 (Z.to_nat size).

(** ** Specification *)

(** The bytes [l] stand at [p]. *)
Fixpoint bytes_at (m : byte_memory) (p : Z) (l : list Z) : Prop :=
  match l with
  | [] => True
  | v :: l' => m !! p = Some v ∧ 0 ≤ v < 256 ∧ bytes_at m (p + 1) l'
  end.

(** The bytes of a string, and the terminator behind them. *)
Definition cstring (m : byte_memory) (p : Z) (l : list Z) : Prop :=
  bytes_at m p (l ++ [0]) ∧ Forall (λ v, v ≠ 0) l.

Fixpoint lex_compare (l1 l2 : list Z) : comparison :=
  match l1, l2 with
  | [], [] => Eq
  | [], _ :: _ => Lt
  | _ :: _, [] => Gt
  | a :: l1', b :: l2' => match a ?= b with Eq => lex_compare l1' l2' | c => c end
  end.

(** * Properties

    The C library: copies copy, and comparisons decide equality and
    the lexicographic order. *)

Lemma bytes_at_lookup m p l i v :
  bytes_at m p l → l !! i = Some v → m !! (p + Z.of_nat i) = Some v ∧ 0 ≤ v < 256.
Proof.
  revert p i. induction l as [|w l IH]; intros p i Hb Hi; [done|]. destruct Hb as (Hp & Hw & Hb).
  destruct i as [|i]; cbn in Hi.
  - simplify_eq. by rewrite Z.add_0_r.
  - destruct (IH (p + 1) i Hb Hi) as [H1 H2]. split; [|done]. rewrite <- H1. f_equal. lia.
Qed.

Lemma bytes_at_intro m p l :
  (∀ i v, l !! i = Some v → m !! (p + Z.of_nat i) = Some v ∧ 0 ≤ v < 256) → bytes_at m p l.
Proof.
  revert p. induction l as [|w l IH]; intros p H; [done|]. cbn.
  destruct (H 0%nat w eq_refl) as [H0 H1]. rewrite Z.add_0_r in H0. split; [done|]. split; [lia|].
  apply IH. intros i v Hi. destruct (H (S i) v Hi) as [H2 H3]. split; [|done].
  rewrite <- H2. f_equal. lia.
Qed.

Lemma bytes_at_app m p l1 l2 : bytes_at m p (l1 ++ l2) → bytes_at m p l1.
Proof.
  intros H. apply bytes_at_intro. intros i v Hi. eapply bytes_at_lookup; [done|].
  by apply lookup_app_l_Some.
Qed.

(** Bytes at other addresses are not changed by a write. *)
Lemma bytes_at_insert m p l q v :
  bytes_at m p l → q < p ∨ p + Z.of_nat (length l) ≤ q → bytes_at (<[q := v]> m) p l.
Proof.
  intros H Hq. apply bytes_at_intro. intros i w Hi. pose proof (lookup_lt_Some _ _ _ Hi).
  destruct (bytes_at_lookup m p l i w H Hi). split; [|done]. by rewrite lookup_insert_ne by lia.
Qed.

Lemma write_byte_spec m p v : is_Some (m !! p) → 0 ≤ v < 256 → write_byte m p v = Some (<[p := v]> m).
Proof. intros [w Hw] Hv. unfold write_byte. rewrite Hw. cbn. by rewrite wrap8_id. Qed.

(** [m'] is [m] with the bytes [l] at [p]. *)
Definition bytes_written (m : byte_memory) (p : Z) (l : list Z) (m' : byte_memory) : Prop :=
  bytes_at m' p l ∧ ∀ q, q < p ∨ p + Z.of_nat (length l) ≤ q → m' !! q = m !! q.

Lemma bytes_written_cons m p v l m' :
  0 ≤ v < 256 → bytes_written (<[p := v]> m) (p + 1) l m' → bytes_written m p (v :: l) m'.
Proof.
  intros Hv [Hb Ho]. split.
  - cbn. split; [rewrite Ho by lia; apply lookup_insert_eq|]. split; [lia|done].
  - intros q Hq. cbn in Hq. rewrite Ho by lia. apply lookup_insert_ne. lia.
Qed.

Lemma memcpy_loop_spec m d s l :
  bytes_at m s l → d ≤ s ∨ s + Z.of_nat (length l) ≤ d →
  (∀ i, 0 ≤ i < Z.of_nat (length l) → is_Some (m !! (d + i))) →
  ∃ m', memcpy_loop m d s (length l) = Some m' ∧ bytes_written m d l m'.
Proof.
  revert m d s. induction l as [|v l IH]; intros m d s Hb Hd Hm; cbn [length memcpy_loop].
  { exists m. split; [done|]. by split. }
  destruct Hb as (Hs & Hv & Hb). cbn in Hd, Hm. rewrite Hs. cbn [mbind option_bind].
  rewrite write_byte_spec by (done || (rewrite <- (Z.add_0_r d); apply Hm; lia)). cbn [mbind option_bind].
  destruct (IH (<[d := v]> m) (d + 1) (s + 1)) as (m' & E & Hw).
  - apply bytes_at_insert; [done|lia].
  - lia.
  - intros i Hi. rewrite lookup_insert_ne by lia. replace (d + 1 + i) with (d + (i + 1)) by lia.
    apply Hm. lia.
  - exists m'. split; [done|]. by apply bytes_written_cons.
Qed.

(** [memcpy] copies every byte and changes no other, also into a buffer that
    overlaps the source from below. *)
Theorem memcpy_copies m d s l :
  bytes_at m s l → d ≤ s ∨ s + Z.of_nat (length l) ≤ d →
  (∀ i, 0 ≤ i < Z.of_nat (length l) → is_Some (m !! (d + i))) →
  ∃ m', memcpy m d s (Z.of_nat (length l)) = Some m' ∧ bytes_written m d l m'.
Proof. intros. unfold memcpy. rewrite Nat2Z.id. by apply memcpy_loop_spec. Qed.

Lemma memset_loop_spec m p v n :
  0 ≤ v < 256 → (∀ i, 0 ≤ i < Z.of_nat n → is_Some (m !! (p + i))) →
  ∃ m', memset_loop m p v n = Some m' ∧ bytes_written m p (replicate n v) m'.
Proof.
  intros Hv. revert m p. induction n as [|n IH]; intros m p Hm; cbn [memset_loop replicate].
  { exists m. split; [done|]. by split. }
  rewrite write_byte_spec by (done || (rewrite <- (Z.add_0_r p); apply Hm; lia)). cbn [mbind option_bind].
  destruct (IH (<[p := v]> m) (p + 1)) as (m' & E & Hw).
  - intros i Hi. rewrite lookup_insert_ne by lia. replace (p + 1 + i) with (p + (i + 1)) by lia.
    apply Hm. lia.
  - exists m'. split; [done|]. by apply bytes_written_cons.
Qed.

(** ** Comparisons *)

(** A list of bytes is no longer than the memory that holds it is big. *)
Lemma bytes_at_size m p l : bytes_at m p l → (length l ≤ size m)%nat.
Proof.
  intros H.
  pose proof (NoDup_keys_length m (seqZ p (Z.of_nat (length l))) (NoDup_seqZ _ _)) as Hl.
  rewrite length_seqZ, Nat2Z.id in Hl. apply Hl. intros x Hx%elem_of_seqZ.
  destruct (lookup_lt_is_Some_2 l (Z.to_nat (x - p))) as [v Hv]; [lia|].
  destruct (bytes_at_lookup _ _ _ _ _ H Hv) as [E _]. exists v. rewrite <- E. f_equal. lia.
Qed.

Lemma cstring_cons m p v l : cstring m p (v :: l) → m !! p = Some v ∧ 0 < v < 256 ∧ cstring m (p + 1) l.
Proof.
  intros [(H1 & H2 & H3) [H4 H5]%Forall_cons]. split; [done|]. split; [lia|]. by split.
Qed.
Lemma cstring_nil m p : cstring m p [] → m !! p = Some 0.
Proof. by intros [(H & _) _]. Qed.

Lemma strcmp_loop_spec fuel m p1 p2 l1 l2 :
  cstring m p1 l1 → cstring m p2 l2 → (length l1 < fuel)%nat →
  ∃ r, strcmp_loop fuel m p1 p2 = Some r ∧ (r ?= 0) = lex_compare l1 l2.
Proof.
  revert p1 p2 l1 l2. induction fuel as [|fuel IH]; intros p1 p2 l1 l2 H1 H2 Hf; [lia|].
  cbn [strcmp_loop]. destruct l1 as [|a l1], l2 as [|b l2].
  - rewrite (cstring_nil _ _ H1), (cstring_nil _ _ H2). by exists 0.
  - apply cstring_cons in H2 as (H2 & ? & _). rewrite (cstring_nil _ _ H1), H2. exists (0 - b).
    split; [done|]. cbn. apply Z.compare_lt_iff. lia.
  - apply cstring_cons in H1 as (H1 & ? & _). rewrite (cstring_nil _ _ H2), H1. cbn [mbind option_bind].
    rewrite (proj2 (Z.eqb_neq a 0)) by lia. exists (a - 0). split; [done|]. cbn.
    apply Z.compare_gt_iff. lia.
  - apply cstring_cons in H1 as (H1 & ? & H1'), H2 as (H2 & ? & H2'). rewrite H1, H2. cbn [mbind option_bind].
    rewrite (proj2 (Z.eqb_neq a 0)), (proj2 (Z.eqb_neq b 0)) by lia. cbn [negb andb lex_compare].
    destruct (Z.eqb_spec a b) as [->|Hne].
    + rewrite Z.compare_refl. apply IH; [done..|]. cbn in Hf. lia.
    + exists (a - b). split; [done|].
      destruct (Z.compare_spec a b); [done|apply Z.compare_lt_iff; lia|apply Z.compare_gt_iff; lia].
Qed.

(** C36: [strcmp] is the lexicographic order of the bytes: on two strings it ends with
    a negative, zero or positive number as the first is smaller than, equal to or
    greater than the second. *)
Theorem strcmp_orders m p1 p2 l1 l2 :
  cstring m p1 l1 → cstring m p2 l2 →
  ∃ r, strcmp m p1 p2 = Some r ∧ (r ?= 0) = lex_compare l1 l2.
Proof.
  intros H1 H2. apply strcmp_loop_spec; [done..|]. pose proof (bytes_at_size _ _ _ (proj1 H1)) as Hl.
  rewrite length_app in Hl. cbn in Hl. lia.
Qed.

(** The difference of two bytes, cut to a [char], vanishes only for equal ones. *)
Lemma to_char_diff a b : 0 ≤ a < 256 → 0 ≤ b < 256 → to_char (to_char a - to_char b) = 0 ↔ a = b.
Proof. unfold to_char. intros. Z.to_euclidean_division_equations. lia. Qed.

(** [strncmp] answers 0 exactly when the first [n] bytes of two strings agree. *)
Theorem strncmp_decides m p1 p2 l1 l2 n :
  cstring m p1 l1 → cstring m p2 l2 →
  ∃ r, strncmp m p1 p2 (Z.of_nat n) = Some r ∧ (r = 0 ↔ take n l1 = take n l2).
Proof.
  unfold strncmp. rewrite Nat2Z.id. revert p1 p2 l1 l2.
  induction n as [|n IH]; intros p1 p2 l1 l2 H1 H2; [by exists 0|]. cbn [strncmp_loop].
  destruct l1 as [|a l1], l2 as [|b l2].
  - rewrite (cstring_nil _ _ H1), (cstring_nil _ _ H2). by exists 0.
  - apply cstring_cons in H2 as (H2 & ? & _). rewrite (cstring_nil _ _ H1), H2. cbn [mbind option_bind].
    rewrite orb_true_r. eexists. split; [done|]. rewrite to_char_diff by lia. split; [intros; lia|discriminate].
  - apply cstring_cons in H1 as (H1 & ? & _). rewrite (cstring_nil _ _ H2), H1. cbn [mbind option_bind].
    rewrite (proj2 (Z.eqb_neq (to_char _) 0)) by (rewrite to_char_diff by lia; lia). cbn [negb orb].
    eexists. split; [done|]. rewrite to_char_diff by lia. split; [intros; lia|discriminate].
  - apply cstring_cons in H1 as (H1 & ? & H1'), H2 as (H2 & ? & H2'). rewrite H1, H2. cbn [mbind option_bind].
    destruct (decide (a = b)) as [->|Hne].
    + rewrite (proj2 (Z.eqb_eq (to_char _) 0)) by (by rewrite to_char_diff by lia).
      rewrite (proj2 (Z.eqb_neq b 0)) by lia. cbn [negb orb].
      destruct (IH _ _ _ _ H1' H2') as (r & E & Hr). exists r. split; [done|]. cbn. rewrite Hr.
      split; [by intros ->|by injection 1].
    + rewrite (proj2 (Z.eqb_neq (to_char _) 0)) by (by rewrite to_char_diff by lia). cbn [negb orb].
      eexists. split; [done|]. rewrite to_char_diff by lia. split; [done|by injection 1].
Qed.

(** ** Witnesses *)

(** "ab" at 10, "ac" at 20 and four bytes at 30. *)
Definition example_bytes : byte_memory :=
  list_to_map [(10, 97); (11, 98); (12, 0); (20, 97); (21, 99); (22, 0); (30, 0); (31, 0); (32, 0); (33, 0)].

Lemma memcpy_copies_witness :
  ∃ m', memcpy example_bytes 10 11 2 = Some m' ∧ bytes_written example_bytes 10 [98; 0] m'.
Proof.
  apply (memcpy_copies example_bytes 10 11 [98; 0]).
  - cbn. repeat (split; [reflexivity || lia|]). done.
  - left. lia.
  - intros i Hi. assert (i = 0 ∨ i = 1) as [-> | ->] by (cbn in Hi; lia); eexists; reflexivity.
Defined.

Lemma strcmp_orders_witness : ∃ r, strcmp example_bytes 10 20 = Some r ∧ (r ?= 0) = Lt.
Proof.
  apply (strcmp_orders example_bytes 10 20 [97; 98] [97; 99]).
  - split; [cbn; repeat (split; [reflexivity || lia|]); done|]. by repeat constructor.
  - split; [cbn; repeat (split; [reflexivity || lia|]); done|]. by repeat constructor.
Defined.

Lemma strncmp_decides_witness : ∃ r, strncmp example_bytes 10 20 1 = Some r ∧ (r = 0 ↔ [97] = [97]).
Proof.
  apply (strncmp_decides example_bytes 10 20 [97; 98] [97; 99] 1).
  - split; [cbn; repeat (split; [reflexivity || lia|]); done|]. by repeat constructor.
  - split; [cbn; repeat (split; [reflexivity || lia|]); done|]. by repeat constructor.
Defined.

(** The sign of [strncmp] is not that of the order: 0x7F is smaller than 0x80, and
    the difference of the signed characters overflows a [char] as well. *)
Lemma strncmp_sign :
  let m : byte_memory := list_to_map [(1, 0x7F); (2, 0); (3, 0x80); (4, 0)] in
  strncmp m 3 1 1 = Some 1 ∧ strncmp m 1 3 1 = Some (-1) ∧ strcmp m 1 3 = Some (-1) ∧
  let m : byte_memory := list_to_map [(1, 0x40); (2, 0); (3, 0xC1); (4, 0)] in
  strncmp m 1 3 1 = Some 127 ∧ strcmp m 1 3 = Some (-129).
Proof. vm_compute. done. Qed.
