(* ===== verification/Print.v ===== *)
(** The formatted output of the kernel log: src/src/kernel/utility/print.cpp.

    A string is the list of its characters without the terminator.  Output is
    appended to what is written so far; the destinations of the kernel are never
    null.  The digits of a number are stored downwards in a local array: a digit
    that finds no room is an access outside of it, [None], like the other
    behaviours C++ leaves undefined: [-count] of the least integer, a [width] that
    overflows, an argument of another type than the conversion reads. *)

From S2P Require Import Prelude Word.

Abbreviation text := (list Z).

(** ASCII *)
Module ascii.
Definition ZERO : Z := 48.
Definition NINE : Z := 57.
Definition SPACE : Z := 32.
Definition MINUS : Z := 45.
Definition PERCENT : Z := 37.
Definition LOWER_A : Z := 97.
Definition UPPER_A : Z := 65.
Definition LOWER_C : Z := 99.
Definition LOWER_D : Z := 100.
Definition LOWER_L : Z := 108.
Definition LOWER_P : Z := 112.
Definition LOWER_S : Z := 115.
Definition LOWER_U : Z := 117.
Definition LOWER_X : Z := 120.
Definition UPPER_X : Z := 88.
End ascii.

(** The arguments behind the format, with the type they are passed with. *)
Inductive argument :=
| ARG_INT (v : Z) | ARG_UINT (v : Z) | ARG_LONG (v : Z) | ARG_ULONG (v : Z)
| ARG_LL (v : Z) | ARG_ULL (v : Z) | ARG_STRING (s : text) | ARG_POINTER (v : Z).

(** Conversion to [int] and [unsigned int]. *)
Definition to_int (v : Z) : Z := (v + 2 ^ 31) mod 2 ^ 32 - 2 ^ 31.
Definition to_uint (v : Z) : Z := v mod 2 ^ 32.

Definition write_char (destination : text) (target_char : Z) : text := destination ++ [target_char].

(** [while (width-- > 0) write_char(destination, c)]. *)
Definition write_padding (destination : text) (width : Z) (c : Z) : text :=
  destination ++ replicate (Z.to_nat width) c.

Definition write_string (destination target_string : text) (width : Z) : text :=
  write_padding destination (width - Z.of_nat (length target_string)) ascii.SPACE ++ target_string.

(** The character of a digit. *)
Definition digit_char (uppercase : bool) (digit : Z) : Z :=
  if digit <? 10 then ascii.ZERO + digit
  else (if uppercase then ascii.UPPER_A else ascii.LOWER_A) + digit - 10.

(** [do { *--pointer = ...; count /= base; --width; } while (count > 0)] with
    [room] places left below [digits]: the digits and the width that is left. *)
Fixpoint write_digits (base : Z) (uppercase : bool) (room : nat) (count width : Z) (digits : text)
    : option (text * Z) :=
  match room with
  | O => None
  | S room' =>
      let digits' := digit_char uppercase (count mod base) :: digits in
      if 0 <? count / base
      then write_digits base uppercase room' (count / base) (width - 1) digits'
      else Some (digits', width - 1)
  end.

(** The part [write_int] and its siblings share, with [size] the size of the
    local array. *)
Definition write_number (base : Z) (size : nat) (destination : text) (count width : Z)
    (zero_pad uppercase : bool) : option text :=
  dw ← write_digits base uppercase size count width [];
  Some (write_padding destination (snd dw) (if zero_pad then ascii.ZERO else ascii.SPACE) ++ fst dw).

Definition write_int (destination : text) (count width : Z) (zero_pad : bool) : option text :=
  if count <? 0 then
    if count =? - 2 ^ 31 then None
    else write_number 10 10 (write_char destination ascii.MINUS) (- count) (width - 1) zero_pad false
  else write_number 10 10 destination count width zero_pad false.
Definition write_int_ll (destination : text) (count width : Z) (zero_pad : bool) : option text :=
  if count <? 0 then
    if count =? - 2 ^ 63 then None
    else write_number 10 20 (write_char destination ascii.MINUS) (- count) (width - 1) zero_pad false
  else write_number 10 20 destination count width zero_pad false.
Definition write_uint (destination : text) (count width : Z) (zero_pad : bool) : option text :=
  write_number 10 10 destination count width zero_pad false.
Definition write_uint_ll (destination : text) (count width : Z) (zero_pad : bool) : option text :=
  write_number 10 20 destination count width zero_pad false.
Definition write_hex (destination : text) (count width : Z) (zero_pad uppercase : bool) : option text :=
  write_number 16 8 destination count width zero_pad uppercase.
Definition write_hex_ll (destination : text) (count width : Z) (zero_pad uppercase : bool) : option text :=
  write_number 16 16 destination count width zero_pad uppercase.

(** [for (int i = 60; i >= 0; i -= 4)], [n] being the nibbles left. *)
Fixpoint write_nibbles (value : Z) (n : nat) : text :=
  match n with
  | O => []
  | S n' => digit_char false (Z.land (Z.shiftr value (4 * Z.of_nat n')) 0xf) :: write_nibbles value n'
  end.
Definition write_pointer (destination : text) (value : Z) : text :=
  write_char (write_char destination ascii.ZERO) ascii.LOWER_X ++ write_nibbles value 16.

(** ** [process_format] *)

Record modifiers := MkModifiers {
  width : Z; zero_pad : bool; long_modifier : bool; long_long_modifier : bool;
}.
#[global] Instance eta_modifiers : Eta modifiers := λ x,
  MkModifiers (width x) (zero_pad x) (long_modifier x) (long_long_modifier x).
Definition no_modifiers : modifiers := MkModifiers 0 false false false.

(** An [int] that would overflow. *)
Definition int_in_range (v : Z) : option Z := if v <? 2 ^ 31 then Some v else None.

(** The [while (true)] over the modifiers: what they say and the rest of the
    format. *)
Fixpoint parse_modifiers (format : text) (ms : modifiers) : option (modifiers * text) :=
  match format with
  | [] => Some (ms, [])
  | c :: rest =>
      if (c =? ascii.ZERO) && (width ms =? 0) then parse_modifiers rest (ms <| zero_pad := true |>)
      else if (ascii.ZERO + 1 <=? c) && (c <=? ascii.NINE) then
        w ← int_in_range (width ms * 10 + (c - ascii.ZERO));
        parse_modifiers rest (ms <| width := w |>)
      else if c =? ascii.ZERO then
        w ← int_in_range (width ms * 10);
        parse_modifiers rest (ms <| width := w |>)
      else if c =? ascii.LOWER_L then
        match rest with
        | d :: rest' =>
            if d =? ascii.LOWER_L then parse_modifiers rest' (ms <| long_long_modifier := true |>)
            else parse_modifiers rest (ms <| long_modifier := true |>)
        | [] => Some (ms <| long_modifier := true |>, [])
        end
      else Some (ms, format)
  end.

(** [__builtin_va_arg]: the next argument, when it has the type asked for. *)
Definition va_int (args : list argument) : option (Z * list argument) :=
  match args with ARG_INT v :: rest => Some (v, rest) | _ => None end.
Definition va_uint (args : list argument) : option (Z * list argument) :=
  match args with ARG_UINT v :: rest => Some (v, rest) | _ => None end.
Definition va_long (args : list argument) : option (Z * list argument) :=
  match args with ARG_LONG v :: rest => Some (v, rest) | _ => None end.
Definition va_ulong (args : list argument) : option (Z * list argument) :=
  match args with ARG_ULONG v :: rest => Some (v, rest) | _ => None end.
Definition va_ll (args : list argument) : option (Z * list argument) :=
  match args with ARG_LL v :: rest => Some (v, rest) | _ => None end.
Definition va_ull (args : list argument) : option (Z * list argument) :=
  match args with ARG_ULL v :: rest => Some (v, rest) | _ => None end.
Definition va_string (args : list argument) : option (text * list argument) :=
  match args with ARG_STRING s :: rest => Some (s, rest) | _ => None end.
Definition va_pointer (args : list argument) : option (Z * list argument) :=
  match args with ARG_POINTER v :: rest => Some (v, rest) | _ => None end.

(** An argument and what is written for it. *)
Definition write_argument {A} (va : list argument → option (A * list argument)) (f : A → option text)
    (args : list argument) : option (text * list argument) :=
  va_rest ← va args; d ← f (fst va_rest); Some (d, snd va_rest).

(** The [switch] over the conversion [c]. *)
Definition convert_argument (c : Z) (ms : modifiers) (destination : text) (args : list argument)
    : option (text * list argument) :=
  let w := width ms in
  let z := zero_pad ms in
  if c =? ascii.LOWER_D then
    if long_modifier ms then write_argument va_long (λ v, write_int destination (to_int v) w z) args
    else if long_long_modifier ms then write_argument va_ll (λ v, write_int_ll destination v w z) args
    else write_argument va_int (λ v, write_int destination v w z) args
  else if c =? ascii.LOWER_X then
    if long_long_modifier ms then write_argument va_ull (λ v, write_hex_ll destination v w z false) args
    else if long_modifier ms then write_argument va_ulong (λ v, write_hex destination (to_uint v) w z false) args
    else write_argument va_uint (λ v, write_hex destination v w z false) args
  else if c =? ascii.UPPER_X then
    if long_modifier ms then write_argument va_ulong (λ v, write_hex destination (to_uint v) w z true) args
    else if long_long_modifier ms then write_argument va_ull (λ v, write_hex_ll destination v w z true) args
    else write_argument va_uint (λ v, write_hex destination v w z true) args
  else if c =? ascii.LOWER_S then
    write_argument va_string (λ s, Some (write_string destination s w)) args
  else if c =? ascii.LOWER_P then
    write_argument va_pointer (λ v, Some (write_pointer destination v)) args
  else if c =? ascii.LOWER_U then
    if long_modifier ms then write_argument va_ulong (λ v, write_uint destination (to_uint v) w z) args
    else if long_long_modifier ms then write_argument va_ull (λ v, write_uint_ll destination v w z) args
    else write_argument va_uint (λ v, write_uint destination v w z) args
  else if c =? ascii.LOWER_C then
    write_argument va_int (λ v, Some (write_char destination (wrap8 v))) args
  else Some (write_char (write_char destination ascii.PERCENT) c, args).

(** What [process_format] writes, the arguments left and the format behind the
    conversion character.  At the end of the format the terminator is written as
    a character and the loop of [vsprintf] steps over it: undefined. *)
Definition process_format (destination format : text) (args : list argument)
    : option (text * text * list argument) :=
  mr ← parse_modifiers format no_modifiers;
  match snd mr with
  | [] => None
  | c :: rest => da ← convert_argument c (fst mr) destination args; Some (fst da, rest, snd da)
  end.

(** The loop of [vsprintf]: every turn takes at least one character of the
    format. *)
Fixpoint vsprintf_loop (fuel : nat) (destination format : text) (args : list argument) : option text :=
  match fuel with
  | O => None
  | S fuel' =>
      match format with
      | [] => Some destination
      | c :: rest =>
          if c =? ascii.PERCENT then
            dra ← process_format destination rest args;
            vsprintf_loop fuel' (fst (fst dra)) (snd (fst dra)) (snd dra)
          else vsprintf_loop fuel' (write_char destination c) rest args
      end
  end.

(** The text written before the terminator. *)
Definition vsprintf (format : text) (args : list argument) : option text :=
  vsprintf_loop (S (length format)) [] format args.

(** [print_buffer] has 1024 characters; writing behind it is undefined. *)
Definition PRINT_BUFFER_SIZE : Z := 1024.
Definition printf (format : text) (args : list argument) : option text :=
  s ← vsprintf format args; if Z.of_nat (length s) + 1 <=? PRINT_BUFFER_SIZE then Some s else None.

(** What a [char *] to a written text denotes: it ends at the first terminator. *)
Fixpoint until_terminator (s : text) : text :=
  match s with
  | [] => []
  | c :: rest => if c =? 0 then [] else c :: until_terminator rest
  end.

(** [vprintf] formats into the buffer and prints the buffer with ["%s"], which
    copies it onto itself. *)
Definition vprintf (format : text) (args : list argument) : option text :=
  s ← printf format args;
  printf [ascii.PERCENT; ascii.LOWER_S] [ARG_STRING (until_terminator s)].
