(* ===== verification/PrintProofs.v ===== *)
(** Properties of the formatted output: a printed number reads back, the local
    digit arrays are large enough, and a format is rendered piece by piece. *)

From Stdlib Require Import Ascii.
From S2P Require Import Prelude Word Print.

(** ** Reading numbers *)

Definition char_value (c : Z) : Z :=
  if c <=? ascii.NINE then c - ascii.ZERO
  else if ascii.LOWER_A <=? c then c - ascii.LOWER_A + 10 else c - ascii.UPPER_A + 10.

Definition read_from (base start : Z) (s : text) : Z := foldl (λ v c, v * base + char_value c) start s.
Definition read_number (base : Z) (s : text) : Z := read_from base 0 s.

(** The digits, independent of how they are computed. *)
Definition digits_of (up : bool) : text :=
  [48; 49; 50; 51; 52; 53; 54; 55; 56; 57] ++ if up then [65; 66; 67; 68; 69; 70] else [97; 98; 99; 100; 101; 102].
Definition is_digit (base : Z) (up : bool) (c : Z) : Prop :=
  ∃ d, 0 ≤ d < base ∧ digits_of up !! Z.to_nat d = Some c.

Lemma digits_of_char up d : 0 ≤ d < 16 → digits_of up !! Z.to_nat d = Some (digit_char up d).
Proof.
  intros Hd. assert (Hall : Forall (λ i, digits_of up !! i = Some (digit_char up (Z.of_nat i))) (seq 0 16))
    by (by destruct up; repeat constructor).
  rewrite Forall_forall in Hall. rewrite <- (Z2Nat.id d) at 2 by lia. apply Hall, elem_of_seq. lia.
Qed.
Lemma is_digit_char base up d : base ≤ 16 → 0 ≤ d < base → is_digit base up (digit_char up d).
Proof. intros. exists d. split; [done|]. apply digits_of_char. lia. Qed.
Lemma is_digit_inv base up c : base ≤ 16 → is_digit base up c → ∃ d, 0 ≤ d < base ∧ c = digit_char up d.
Proof. intros Hb (d & Hd & Hc). exists d. split; [done|]. rewrite digits_of_char in Hc by lia. by simplify_eq. Qed.

Lemma digit_char_value up d : 0 ≤ d < 16 → char_value (digit_char up d) = d.
Proof.
  unfold char_value, digit_char, ascii.NINE, ascii.ZERO, ascii.LOWER_A, ascii.UPPER_A. intros Hd.
  destruct (Z.ltb_spec d 10); [rewrite (proj2 (Z.leb_le _ _)) by lia; lia|].
  rewrite (proj2 (Z.leb_gt _ 57)) by (destruct up; lia).
  destruct up; [rewrite (proj2 (Z.leb_gt _ _)) by lia|rewrite (proj2 (Z.leb_le _ _)) by lia]; lia.
Qed.

(** The digits of a number in a base: no leading zero, every character a digit. *)
Record numeral (base : Z) (up : bool) (count : Z) (ds : text) : Prop := {
  numeral_value : read_number base ds = count;
  numeral_digits : Forall (is_digit base up) ds;
  numeral_head : ∀ c rest, ds = c :: rest → rest ≠ [] → 0 < char_value c;
  numeral_nonempty : ds ≠ [];
}.

Lemma read_number_app base ds c : read_number base (ds ++ [c]) = read_number base ds * base + char_value c.
Proof. unfold read_number, read_from. by rewrite foldl_app. Qed.

Lemma numeral_digit base up d : 2 ≤ base ≤ 16 → 0 ≤ d < base → numeral base up d [digit_char up d].
Proof.
  intros Hb Hd. constructor; [|repeat constructor; apply is_digit_char; lia|by intros; simplify_eq|done].
  unfold read_number, read_from. cbn. rewrite digit_char_value; lia.
Qed.

Lemma numeral_snoc base up n d ds :
  2 ≤ base ≤ 16 → 0 < n → 0 ≤ d < base → numeral base up n ds →
  numeral base up (n * base + d) (ds ++ [digit_char up d]).
Proof.
  intros Hb Hn Hd [Hv Hf Hh He]. constructor.
  - rewrite read_number_app, Hv, digit_char_value by lia. done.
  - apply Forall_app. split; [done|]. repeat constructor. apply is_digit_char; lia.
  - intros c rest Heq _. destruct ds as [|e [|f ds]]; [done|..]; cbn in Heq; injection Heq as -> _.
    + unfold read_number, read_from in Hv. cbn in Hv. lia.
    + by eapply Hh.
  - by destruct ds.
Qed.

(** The digit loop finds room for every number below [base ^ room]. *)
Lemma write_digits_spec base up room count w acc :
  2 ≤ base ≤ 16 → (0 < room)%nat → 0 ≤ count < base ^ Z.of_nat room →
  ∃ ds, write_digits base up room count w acc = Some (ds ++ acc, w - Z.of_nat (length ds)) ∧
        numeral base up count ds ∧ (length ds ≤ room)%nat.
Proof.
  intros Hb. revert count w acc. induction room as [|room IH]; intros count w acc Hr Hc; [lia|].
  cbn [write_digits]. rewrite Nat2Z.inj_succ, Z.pow_succ_r in Hc by lia.
  pose proof (Z.div_mod count base ltac:(lia)) as Hdm.
  pose proof (Z.mod_pos_bound count base ltac:(lia)) as Hm.
  destruct (Z.ltb_spec 0 (count / base)) as [Hq|Hq].
  - destruct (IH (count / base) (w - 1) (digit_char up (count mod base) :: acc)) as (ds & E & Hn & Hl).
    { destruct room; [|lia]. cbn in Hc. rewrite Z.div_small in Hq by lia. lia. }
    { split; [lia|]. apply Z.div_lt_upper_bound; lia. }
    exists (ds ++ [digit_char up (count mod base)]). rewrite E, length_app, <- app_assoc. cbn.
    split; [do 2 f_equal; lia|]. split; [|lia].
    replace count with (count / base * base + count mod base) at 1 by lia. by apply numeral_snoc.
  - assert (count / base = 0) as Hz by (pose proof (Z.div_pos count base); lia).
    exists [digit_char up (count mod base)]. split; [done|]. split; [|cbn; lia].
    replace count with (count mod base) at 1 by lia. by apply numeral_digit.
Qed.

(** What [write_number] appends: padding up to the width, and the numeral. *)
Definition rendered (base count w : Z) (zp up : bool) (s : text) : Prop :=
  ∃ ds, numeral base up count ds ∧
    s = replicate (Z.to_nat (w - Z.of_nat (length ds))) (if zp then ascii.ZERO else ascii.SPACE) ++ ds.

Lemma write_number_spec base size dest count w zp up :
  2 ≤ base ≤ 16 → (0 < size)%nat → 0 ≤ count < base ^ Z.of_nat size →
  ∃ s, write_number base size dest count w zp up = Some (dest ++ s) ∧ rendered base count w zp up s.
Proof.
  intros Hb Hs Hc. destruct (write_digits_spec base up size count w [] Hb Hs Hc) as (ds & E & Hn & _).
  unfold write_number. rewrite E. cbn [mbind option_bind fst snd]. rewrite app_nil_r.
  eexists. split; [|by exists ds]. unfold write_padding. by rewrite app_assoc.
Qed.

(** Zeros in front of a numeral do not change what is read. *)
Lemma read_number_zeros base n ds : read_number base (replicate n ascii.ZERO ++ ds) = read_number base ds.
Proof.
  unfold read_number, read_from. rewrite foldl_app. f_equal.
  induction n as [|n IH]; [done|]. cbn. exact IH.
Qed.

(** A printed number reads back.  Every conversion finds room for the digits in
    its local array and appends the numeral of the number, without leading zeros,
    padded on the left to the width: 32-bit numbers in decimal and hexadecimal,
    64-bit numbers in both, and signed ones other than the least with the sign in
    front; and a zero-padded number reads as the same number. *)
Theorem printed_number_reads_back dest w zp up :
  (∀ n, 0 ≤ n < 2 ^ 32 →
     (∃ s, write_uint dest n w zp = Some (dest ++ s) ∧ rendered 10 n w zp false s) ∧
     (∃ s, write_hex dest n w zp up = Some (dest ++ s) ∧ rendered 16 n w zp up s)) ∧
  (∀ n, 0 ≤ n < 2 ^ 64 →
     (∃ s, write_uint_ll dest n w zp = Some (dest ++ s) ∧ rendered 10 n w zp false s) ∧
     (∃ s, write_hex_ll dest n w zp up = Some (dest ++ s) ∧ rendered 16 n w zp up s)) ∧
  (∀ n, 0 < n < 2 ^ 63 →
     (∃ s, write_int_ll dest n w zp = Some (dest ++ s) ∧ rendered 10 n w zp false s) ∧
     (∃ s, write_int_ll dest (- n) w zp = Some (dest ++ ascii.MINUS :: s) ∧
           rendered 10 n (w - 1) zp false s)) ∧
  (∀ base n s, rendered base n w true up s → read_number base s = n).
Proof.
  split_and!.
  - intros n Hn. split; apply write_number_spec; lia.
  - intros n Hn. split; apply write_number_spec; lia.
  - intros n Hn. unfold write_int_ll. rewrite (proj2 (Z.ltb_ge n 0)), (proj2 (Z.ltb_lt (- n) 0)) by lia.
    rewrite (proj2 (Z.eqb_neq (- n) (- 2 ^ 63))) by lia. rewrite Z.opp_involutive.
    split; [apply write_number_spec; lia|].
    destruct (write_number_spec 10 20 (write_char dest ascii.MINUS) n (w - 1) zp false) as (s & E & Hs); [lia..|].
    exists s. split; [|done]. rewrite E. unfold write_char. by rewrite <- app_assoc.
  - intros base n s (ds & Hn & ->). rewrite read_number_zeros. apply Hn.
Qed.

(** ** Formats *)

(** A piece of a format: a character that is copied, or a conversion with its
    zero flag, width (0 for none), length modifier and arguments. *)
Inductive length_modifier := LEN_NONE | LEN_LONG | LEN_LONG_LONG.
Inductive piece :=
| PIECE_CHAR (c : Z)
| PIECE_CONVERSION (zero : bool) (w : Z) (len : length_modifier) (c : Z) (args : list argument).

(** A width is written in decimal. *)
Fixpoint decimal (fuel : nat) (n : Z) : text :=
  match fuel with
  | O => []
  | S fuel' => if n <? 10 then [48 + n] else decimal fuel' (n / 10) ++ [48 + n mod 10]
  end.
Definition numeral_of (w : Z) : text := decimal 10 w.

Definition piece_modifiers (zero : bool) (w : Z) (len : length_modifier) : modifiers :=
  MkModifiers w zero (match len with LEN_LONG => true | _ => false end)
    (match len with LEN_LONG_LONG => true | _ => false end).

Definition length_text (len : length_modifier) : text :=
  match len with LEN_NONE => [] | LEN_LONG => [108] | LEN_LONG_LONG => [108; 108] end.

(** The text of a piece in the format. *)
Definition piece_format (p : piece) : text :=
  match p with
  | PIECE_CHAR c => [c]
  | PIECE_CONVERSION zero w len c _ =>
      37 :: (if zero then [48] else []) ++ (if w =? 0 then [] else numeral_of w) ++ length_text len ++ [c]
  end.
Definition piece_arguments (p : piece) : list argument :=
  match p with PIECE_CHAR _ => [] | PIECE_CONVERSION _ _ _ _ args => args end.

(** What a conversion stands for.  The table is that of the C library for the
    conversions the formatter knows, restricted to the values it writes: the least int is
    negated, and what is passed as a long has to fit 32 bits. *)
Inductive meaning :=
| NUMBER (base : Z) (up : bool) (v : Z)
| STRING (s : text)
| CHARACTER (v : Z)
| ADDRESS (v : Z)
| VERBATIM.

Definition chr (c : Ascii.ascii) : Z := Z.of_nat (Ascii.nat_of_ascii c).
Arguments chr c%_char_scope.
Definition when (lo hi v : Z) (m : meaning) : option meaning := if (lo <=? v) && (v <? hi) then Some m else None.

Definition signed_meaning (len : length_modifier) (args : list argument) : option meaning :=
  match len, args with
  | LEN_NONE, [ARG_INT v] | LEN_LONG, [ARG_LONG v] => when (1 - 2 ^ 31) (2 ^ 31) v (NUMBER 10 false v)
  | LEN_LONG_LONG, [ARG_LL v] => when (1 - 2 ^ 63) (2 ^ 63) v (NUMBER 10 false v)
  | _, _ => None
  end.
Definition unsigned_meaning (base : Z) (up : bool) (len : length_modifier) (args : list argument) : option meaning :=
  match len, args with
  | LEN_NONE, [ARG_UINT v] | LEN_LONG, [ARG_ULONG v] => when 0 (2 ^ 32) v (NUMBER base up v)
  | LEN_LONG_LONG, [ARG_ULL v] => when 0 (2 ^ 64) v (NUMBER base up v)
  | _, _ => None
  end.
Definition meaning_of (len : length_modifier) (c : Z) (args : list argument) : option meaning :=
  if c =? chr "d" then signed_meaning len args
  else if c =? chr "u" then unsigned_meaning 10 false len args
  else if c =? chr "x" then unsigned_meaning 16 false len args
  else if c =? chr "X" then unsigned_meaning 16 true len args
  else if c =? chr "s" then match args with [ARG_STRING s] => Some (STRING s) | _ => None end
  else if c =? chr "p" then match args with [ARG_POINTER v] => when 0 (2 ^ 64) v (ADDRESS v) | _ => None end
  else if c =? chr "c" then match args with [ARG_INT v] => when 0 (2 ^ 8) v (CHARACTER v) | _ => None end
  else match args with [] => Some VERBATIM | _ => None end.

(** How it looks: the numeral of a number behind its sign and behind zeros or spaces up to
    the width (the sign stands in front of either); a string behind spaces; an
    address with all its digits; an unknown conversion as in the format. *)
Definition shown (zero : bool) (w c : Z) (m : meaning) (s : text) : Prop :=
  match m with
  | NUMBER base up v =>
      let sign := if v <? 0 then [chr "-"] else [] in
      ∃ ds, numeral base up (Z.abs v) ds ∧
        s = sign ++ replicate (Z.to_nat (w - Z.of_nat (length (sign ++ ds)))) (if zero then chr "0" else chr " ") ++ ds
  | STRING t => s = replicate (Z.to_nat (w - Z.of_nat (length t))) (chr " ") ++ t
  | CHARACTER v => s = [v]
  | ADDRESS v => ∃ ds, s = chr "0" :: chr "x" :: ds ∧ length ds = 16%nat ∧ Forall (is_digit 16 false) ds ∧ read_number 16 ds = v
  | VERBATIM => s = [chr "%"; c]
  end.

(** A well-formed piece, and what it stands for in the output. *)
Definition piece_ok (p : piece) : Prop :=
  match p with
  | PIECE_CHAR c => c ≠ chr "%"
  | PIECE_CONVERSION zero w len c args =>
      0 ≤ w < 2 ^ 31 ∧ (c < chr "0" ∨ chr "9" < c) ∧ c ≠ chr "l" ∧ is_Some (meaning_of len c args)
  end.
Definition renders (p : piece) (s : text) : Prop :=
  match p with
  | PIECE_CHAR c => s = [c]
  | PIECE_CONVERSION zero w len c args => ∃ m, meaning_of len c args = Some m ∧ shown zero w c m s
  end.

(** The same in terms of the code, on the way to it. *)
Definition converts (p : piece) (s : text) : Prop :=
  match p with
  | PIECE_CHAR c => c ≠ ascii.PERCENT ∧ s = [c]
  | PIECE_CONVERSION zero w len c args =>
      0 ≤ w < 2 ^ 31 ∧ (c < ascii.ZERO ∨ ascii.NINE < c) ∧ c ≠ ascii.LOWER_L ∧
      convert_argument c (piece_modifiers zero w len) [] args = Some (s, [])
  end.

(** *** Conversions *)

Lemma number_shown base size (zero : bool) w c (up : bool) v :
  2 ≤ base ≤ 16 → (0 < size)%nat → 0 ≤ v < base ^ Z.of_nat size →
  ∃ s, write_number base size [] v w zero up = Some s ∧ shown zero w c (NUMBER base up v) s.
Proof.
  intros Hb Hs Hv. destruct (write_number_spec base size [] v w zero up Hb Hs Hv) as (s & E & ds & Hn & ->).
  eexists. split; [exact E|]. cbn [shown]. rewrite (proj2 (Z.ltb_ge v 0)), Z.abs_eq by lia. exists ds. by split.
Qed.
Lemma negative_shown size (zero : bool) w c v :
  (0 < size)%nat → 0 < v < 10 ^ Z.of_nat size →
  ∃ s, write_number 10 size (write_char [] ascii.MINUS) v (w - 1) zero false = Some s ∧
       shown zero w c (NUMBER 10 false (- v)) s.
Proof.
  intros Hs Hv. destruct (write_number_spec 10 size (write_char [] ascii.MINUS) v (w - 1) zero false) as (s & E & ds & Hn & ->);
    [lia..|].
  eexists. split; [exact E|]. cbn [shown]. rewrite (proj2 (Z.ltb_lt (- v) 0)), Z.abs_opp, Z.abs_eq by lia. exists ds.
  split; [done|]. cbn [app length]. do 3 f_equal. f_equal. lia.
Qed.

Lemma write_int_shown (zero : bool) w c v : - 2 ^ 31 < v < 2 ^ 31 →
  ∃ s, write_int [] v w zero = Some s ∧ shown zero w c (NUMBER 10 false v) s.
Proof.
  intros Hv. unfold write_int. destruct (Z.ltb_spec v 0); [|apply number_shown; lia].
  rewrite (proj2 (Z.eqb_neq _ _)) by lia. destruct (negative_shown 10 zero w c (- v)) as (s & E & Hs); [lia..|].
  rewrite Z.opp_involutive in Hs. by exists s.
Qed.
Lemma write_int_ll_shown (zero : bool) w c v : - 2 ^ 63 < v < 2 ^ 63 →
  ∃ s, write_int_ll [] v w zero = Some s ∧ shown zero w c (NUMBER 10 false v) s.
Proof.
  intros Hv. unfold write_int_ll. destruct (Z.ltb_spec v 0); [|apply number_shown; lia].
  rewrite (proj2 (Z.eqb_neq _ _)) by lia. destruct (negative_shown 20 zero w c (- v)) as (s & E & Hs); [lia..|].
  rewrite Z.opp_involutive in Hs. by exists s.
Qed.

Lemma write_nibbles_spec v n :
  length (write_nibbles v n) = n ∧ Forall (is_digit 16 false) (write_nibbles v n) ∧
  ∀ start, read_from 16 start (write_nibbles v n) = start * 16 ^ Z.of_nat n + v mod 16 ^ Z.of_nat n.
Proof.
  induction n as [|n (Hl & Hd & Hr)]; cbn [write_nibbles].
  { split_and!; [done|constructor|]. intros start. cbn. rewrite Z.mod_1_r. lia. }
  rewrite (Z.land_ones _ 4 ltac:(lia) : Z.land _ 0xf = _), Z.shiftr_div_pow2 by lia.
  rewrite Z.pow_mul_r by lia. change (2 ^ 4) with 16.
  pose proof (Z.mod_pos_bound (v / 16 ^ Z.of_nat n) 16 ltac:(lia)) as Hb.
  split_and!; [by cbn; rewrite Hl|constructor; [apply is_digit_char; lia|done]|]. intros start.
  change (read_from 16 start (?c :: ?s)) with (read_from 16 (start * 16 + char_value c) s).
  rewrite Hr, digit_char_value, Nat2Z.inj_succ, Z.pow_succ_r, (Z.mul_comm 16) by lia.
  rewrite (Z.rem_mul_r v) by (try lia; apply Z.pow_pos_nonneg; lia). lia.
Qed.

Lemma when_inv lo hi v m m' : when lo hi v m = Some m' → lo ≤ v < hi ∧ m' = m.
Proof. unfold when. destruct (_ && _) eqn:E; [|done]. bool_to_prop. by intros [= ->]. Qed.
Lemma write_argument_first {A} (va : list argument → option (A * list argument)) f args a s :
  va args = Some (a, []) → f a = Some s → write_argument va f args = Some (s, []).
Proof. intros Hv Hf. unfold write_argument. rewrite Hv. cbn. by rewrite Hf. Qed.

Lemma to_int_id v : - 2 ^ 31 ≤ v < 2 ^ 31 → to_int v = v.
Proof. intros. unfold to_int. rewrite Z.mod_small by lia. lia. Qed.
Lemma to_uint_id v : 0 ≤ v < 2 ^ 32 → to_uint v = v.
Proof. intros. unfold to_uint. by apply Z.mod_small. Qed.

Lemma signed_shown (zero : bool) w len args m :
  signed_meaning len args = Some m →
  ∃ s, convert_argument (chr "d") (piece_modifiers zero w len) [] args = Some (s, []) ∧ shown zero w (chr "d") m s.
Proof.
  unfold convert_argument. change (chr "d" =? ascii.LOWER_D) with true. cbn [piece_modifiers width zero_pad long_modifier long_long_modifier].
  destruct len, args as [|[v|v|v|v|v|v|v|v] [|]]; try done; intros [Hv ->]%when_inv.
  1,2: destruct (write_int_shown zero w (chr "d") v ltac:(lia)) as (s & E & Hs).
  3: destruct (write_int_ll_shown zero w (chr "d") v ltac:(lia)) as (s & E & Hs).
  all: exists s; split; [|done]; eapply write_argument_first; [reflexivity|]; cbn beta; rewrite ?to_int_id by lia; done.
Qed.
Lemma unsigned_shown base (up : bool) (zero : bool) w len args m c :
  (base = 10 ∧ up = false ∧ c = chr "u") ∨ (base = 16 ∧ c = if up then chr "X" else chr "x") →
  unsigned_meaning base up len args = Some m →
  ∃ s, convert_argument c (piece_modifiers zero w len) [] args = Some (s, []) ∧ shown zero w c m s.
Proof.
  intros Hcase Hm.
  assert (Hshown : ∀ size v, (0 < size)%nat → 0 ≤ v < base ^ Z.of_nat size →
    ∃ s, write_number base size [] v w zero up = Some s ∧ shown zero w c (NUMBER base up v) s).
  { intros. apply number_shown; [lia|done|done]. }
  destruct Hcase as [(-> & -> & ->)|(-> & ->)]; [|destruct up].
  all: destruct len, args as [|[v|v|v|v|v|v|v|v] [|]]; try done; apply when_inv in Hm as [Hv ->].
  all: match type of Hv with
       | context [2 ^ 32] => first [destruct (Hshown 8%nat v) as (s & E & Hs); [lia..|] | destruct (Hshown 10%nat v) as (s & E & Hs); [lia..|]]
       | _ => first [destruct (Hshown 16%nat v) as (s & E & Hs); [lia..|] | destruct (Hshown 20%nat v) as (s & E & Hs); [lia..|]]
       end;
    exists s; (split; [|exact Hs]); eapply write_argument_first; [reflexivity|]; cbn beta;
    rewrite ?to_uint_id by lia; exact E.
Qed.

Lemma meaning_shown (zero : bool) w len c args m :
  meaning_of len c args = Some m →
  ∃ s, convert_argument c (piece_modifiers zero w len) [] args = Some (s, []) ∧ shown zero w c m s.
Proof.
  unfold meaning_of. destruct (Z.eqb_spec c (chr "d")) as [->|Hd]; [apply signed_shown|].
  destruct (Z.eqb_spec c (chr "u")) as [->|Hu]; [apply unsigned_shown; auto|].
  destruct (Z.eqb_spec c (chr "x")) as [->|Hx]; [apply unsigned_shown; auto|].
  destruct (Z.eqb_spec c (chr "X")) as [->|HX]; [apply unsigned_shown; auto|].
  destruct (Z.eqb_spec c (chr "s")) as [->|Hs].
  { destruct args as [|[v|v|v|v|v|v|v|v] [|]]; try done. intros [= <-]. by eexists. }
  destruct (Z.eqb_spec c (chr "p")) as [->|Hp].
  { destruct args as [|[v|v|v|v|v|v|v|v] [|]]; try done. intros [Hv ->]%when_inv.
    destruct (write_nibbles_spec v 16) as (Hl & Hds & Hr). eexists. split; [reflexivity|]. exists (write_nibbles v 16).
    split_and!; [done|exact Hl|exact Hds|]. unfold read_number. rewrite Hr, Z.mod_small; [lia|exact Hv]. }
  destruct (Z.eqb_spec c (chr "c")) as [->|Hc].
  { destruct args as [|[v|v|v|v|v|v|v|v] [|]]; try done. intros [Hv ->]%when_inv. eexists. split; [reflexivity|].
    cbn [shown fst write_char app]. unfold wrap8. by rewrite Z.mod_small. }
  destruct args; [|done]. intros [= <-]. eexists. split; [|reflexivity]. unfold convert_argument.
  do 7 (rewrite (proj2 (Z.eqb_neq c _)) by assumption). reflexivity.
Qed.

Lemma piece_converts p : piece_ok p → ∃ s, converts p s ∧ renders p s.
Proof.
  destruct p as [c|zero w len c args]; [intros Hc; by exists [c]|]. intros (Hw & Hc & Hl & m & Hm).
  destruct (meaning_shown zero w len c args m Hm) as (s & E & Hs). exists s. split; [exact (conj Hw (conj Hc (conj Hl E)))|by exists m].
Qed.

(** *** Modifiers *)

Lemma read_from_ge start s : 0 ≤ start → Forall (λ c, 0 ≤ char_value c) s → start ≤ read_from 10 start s.
Proof.
  revert start. induction s as [|c s IH]; intros start H0 Hs; [cbn; lia|].
  apply Forall_cons in Hs as [Hc Hs]. change (start ≤ read_from 10 (start * 10 + char_value c) s).
  pose proof (IH (start * 10 + char_value c) ltac:(lia) Hs). lia.
Qed.

Lemma decimal_digit c d :
  0 ≤ d < 10 → c = digit_char false d → c = ascii.ZERO + d ∧ char_value c = d.
Proof.
  intros Hd ->. rewrite digit_char_value by lia. unfold digit_char. by rewrite (proj2 (Z.ltb_lt _ _)) by lia.
Qed.

(** Digits behind a width that is not 0 continue it. *)
Lemma parse_width ds rest ms :
  Forall (is_digit 10 false) ds →
  0 < width ms → read_from 10 (width ms) ds < 2 ^ 31 →
  parse_modifiers (ds ++ rest) ms = parse_modifiers rest (ms <| width := read_from 10 (width ms) ds |>).
Proof.
  revert ms. induction ds as [|c ds IH]; intros ms Hds Hw Hr; [by destruct ms|].
  apply Forall_cons in Hds as [(d & Hd & Hc)%is_digit_inv Hds]; [|lia]. destruct (decimal_digit c d Hd Hc) as [Ec Ev].
  change (read_from 10 (width ms * 10 + char_value c) ds < 2 ^ 31) in Hr.
  assert (Hge : width ms * 10 + d ≤ read_from 10 (width ms * 10 + char_value c) ds).
  { rewrite <- Ev. apply read_from_ge; [lia|]. eapply Forall_impl; [exact Hds|].
    intros e (f & Hf & He)%is_digit_inv; [|lia]. destruct (decimal_digit e f Hf He). lia. }
  assert (Hstep : parse_modifiers ((c :: ds) ++ rest) ms
                  = parse_modifiers (ds ++ rest) (ms <| width := width ms * 10 + char_value c |>)).
  { cbn [app parse_modifiers]. rewrite (proj2 (Z.eqb_neq (width ms) 0)), andb_false_r by lia.
    unfold ascii.ZERO, ascii.NINE, int_in_range in *. rewrite (proj2 (Z.leb_le c 57)), andb_true_r by lia.
    destruct (Z.leb_spec (48 + 1) c).
    - replace (width ms * 10 + (c - 48)) with (width ms * 10 + char_value c) by lia.
      by rewrite (proj2 (Z.ltb_lt _ _)) by lia.
    - rewrite (proj2 (Z.eqb_eq c 48)) by lia.
      rewrite (proj2 (Z.ltb_lt (width ms * 10) _)) by lia.
      by rewrite (ltac:(lia) : char_value c = 0), Z.add_0_r. }
  rewrite Hstep, IH; [by destruct ms|done|cbn; lia|done].
Qed.

Lemma decimal_spec fuel n :
  (0 < fuel)%nat → 0 ≤ n < 10 ^ Z.of_nat fuel → numeral 10 false n (decimal fuel n).
Proof.
  revert n. induction fuel as [|fuel IH]; intros n Hf Hn; [lia|]. cbn [decimal].
  rewrite Nat2Z.inj_succ, Z.pow_succ_r in Hn by lia.
  assert (Hdigit : ∀ d, 0 ≤ d < 10 → digit_char false d = 48 + d).
  { intros d Hd. unfold digit_char. by rewrite (proj2 (Z.ltb_lt d 10)) by lia. }
  destruct (Z.ltb_spec n 10) as [Hs|Hs].
  - rewrite <- Hdigit by lia. apply numeral_digit; lia.
  - pose proof (Z.mod_pos_bound n 10 eq_refl) as Hm. pose proof (Z.div_mod n 10) as Hdm.
    rewrite <- Hdigit by lia. replace n with (n / 10 * 10 + n mod 10) at 1 by lia.
    assert (0 < n / 10) by (apply Z.div_str_pos; lia). apply numeral_snoc; [lia|lia|done|].
    apply IH; [destruct fuel; [cbn in Hn; lia|lia]|]. split; [lia|]. apply Z.div_lt_upper_bound; lia.
Qed.
Lemma numeral_of_spec w : 0 ≤ w < 2 ^ 31 → numeral 10 false w (numeral_of w).
Proof. intros Hw. apply decimal_spec; lia. Qed.

(** A width that is not 0 is read from the start of the modifiers. *)
Lemma parse_numeral w rest ms :
  0 < w < 2 ^ 31 → width ms = 0 →
  parse_modifiers (numeral_of w ++ rest) ms = parse_modifiers rest (ms <| width := w |>).
Proof.
  intros Hw Hms. destruct (numeral_of_spec w ltac:(lia)) as [Hv Hd Hh He].
  destruct (numeral_of w) as [|c ds]; [done|]. apply Forall_cons in Hd as [(d & Hd & Hc)%is_digit_inv Hds]; [|lia].
  destruct (decimal_digit c d Hd Hc) as [Ec Ev]. unfold read_number in Hv.
  change (read_from 10 (char_value c) ds = w) in Hv. rewrite Ev in Hv.
  assert (0 < d).
  { destruct ds; [cbn in Hv; lia|]. rewrite <- Ev. by eapply Hh. }
  assert (Hstep : parse_modifiers ((c :: ds) ++ rest) ms = parse_modifiers (ds ++ rest) (ms <| width := d |>)).
  { cbn [app parse_modifiers]. unfold ascii.ZERO, ascii.NINE, int_in_range in *.
    rewrite (proj2 (Z.eqb_neq c 48)), (proj2 (Z.leb_le c 57)), (proj2 (Z.leb_le _ c)) by lia. cbn [andb].
    replace (width ms * 10 + (c - 48)) with d by lia.
    by rewrite (proj2 (Z.ltb_lt _ _)) by lia. }
  rewrite Hstep, parse_width; [by destruct ms; cbn in *; rewrite Hv|done|cbn; lia|cbn; lia].
Qed.

(** The modifiers of a piece are parsed as they were written. *)
Lemma parse_piece (zero : bool) (w : Z) (len : length_modifier) (c : Z) (rest : text) :
  0 ≤ w < 2 ^ 31 → (c < ascii.ZERO ∨ ascii.NINE < c) → c ≠ ascii.LOWER_L →
  parse_modifiers
    ((if zero then [ascii.ZERO] else []) ++ (if w =? 0 then [] else numeral_of w)
       ++ length_text len
       ++ c :: rest) no_modifiers
  = Some (piece_modifiers zero w len, c :: rest).
Proof.
  intros Hw Hc Hl.
  assert (Hend : ∀ ms : modifiers, parse_modifiers (c :: rest) ms = Some (ms, c :: rest)).
  { intros ms. cbn [parse_modifiers]. unfold ascii.ZERO, ascii.NINE in *.
    rewrite (proj2 (Z.eqb_neq c 48)), (proj2 (Z.eqb_neq c ascii.LOWER_L)) by lia. cbn [andb].
    by replace ((48 + 1 <=? c) && (c <=? 57)) with false by lia. }
  assert (Hlen : ∀ ms : modifiers, parse_modifiers (length_text len ++ c :: rest) ms
     = Some (match len with LEN_NONE => ms | LEN_LONG => ms <| long_modifier := true |>
                       | LEN_LONG_LONG => ms <| long_long_modifier := true |> end, c :: rest)).
  { intros ms. destruct len; cbn [length_text app]; [apply Hend| |].
    - transitivity (if c =? ascii.LOWER_L then parse_modifiers rest (ms <| long_long_modifier := true |>)
                    else parse_modifiers (c :: rest) (ms <| long_modifier := true |>)); [reflexivity|].
      replace (c =? ascii.LOWER_L) with false by lia. apply Hend.
    - apply (Hend (ms <| long_long_modifier := true |>)). }
  assert (Hnum : ∀ ms : modifiers, width ms = 0 → ∀ s, parse_modifiers ((if w =? 0 then [] else numeral_of w) ++ s) ms
                       = parse_modifiers s (ms <| width := w |>)).
  { intros ms Hms s. destruct (Z.eqb_spec w 0) as [->|]; [destruct ms; cbn in *; by subst|].
    apply parse_numeral; [lia|done]. }
  destruct zero; cbn [app].
  - change (parse_modifiers (ascii.ZERO :: ?s) no_modifiers) with (parse_modifiers s (no_modifiers <| zero_pad := true |>)).
    rewrite Hnum, Hlen by done. by destruct len.
  - rewrite Hnum, Hlen by done. by destruct len.
Qed.

(** *** Conversions do not depend on what is written before *)

Lemma write_number_prefix base size dest dest' count w zp up :
  write_number base size (dest ++ dest') count w zp up
  = (λ s, dest ++ s) <$> write_number base size dest' count w zp up.
Proof.
  unfold write_number. destruct (write_digits _ _ _ _ _ _) as [[ds v]|]; [|done]. cbn.
  unfold write_padding. by rewrite <- !app_assoc.
Qed.

Lemma write_int_prefix dest count w zp :
  write_int dest count w zp = (λ s, dest ++ s) <$> write_int [] count w zp.
Proof.
  unfold write_int, write_char. repeat case_match; [done|apply write_number_prefix|].
  rewrite <- (app_nil_r dest) at 1. apply write_number_prefix.
Qed.
Lemma write_int_ll_prefix dest count w zp :
  write_int_ll dest count w zp = (λ s, dest ++ s) <$> write_int_ll [] count w zp.
Proof.
  unfold write_int_ll, write_char. repeat case_match; [done|apply write_number_prefix|].
  rewrite <- (app_nil_r dest) at 1. apply write_number_prefix.
Qed.
Lemma write_number_from base size dest count w zp up :
  write_number base size dest count w zp up = (λ s, dest ++ s) <$> write_number base size [] count w zp up.
Proof. rewrite <- (app_nil_r dest) at 1. apply write_number_prefix. Qed.

(** Taking an argument leaves the later ones alone. *)
Definition takes_first {A} (va : list argument → option (A * list argument)) : Prop :=
  ∀ args a rest more, va args = Some (a, rest) → va (args ++ more) = Some (a, rest ++ more).
Lemma takes_first_all :
  takes_first va_int ∧ takes_first va_uint ∧ takes_first va_long ∧ takes_first va_ulong ∧
  takes_first va_ll ∧ takes_first va_ull ∧ takes_first va_string ∧ takes_first va_pointer.
Proof. split_and!; intros [|[]] a rest more; cbn; naive_solver. Qed.

Lemma write_argument_prefix {A} va (f g : A → option text) dest args s more :
  takes_first va → (∀ a, g a = (λ s, dest ++ s) <$> f a) →
  write_argument va f args = Some (s, []) → write_argument va g (args ++ more) = Some (dest ++ s, more).
Proof.
  intros Hva Hg. unfold write_argument. destruct (va args) as [[a rest]|] eqn:E; [|done].
  rewrite (Hva _ _ _ more E). cbn. rewrite Hg. destruct (f a); cbn; [|done]. by intros [= -> ->].
Qed.

Lemma convert_argument_prefix c ms dest args s more :
  convert_argument c ms [] args = Some (s, []) →
  convert_argument c ms dest (args ++ more) = Some (dest ++ s, more).
Proof.
  destruct takes_first_all as (T1 & T2 & T3 & T4 & T5 & T6 & T7 & T8).
  unfold convert_argument. intros H. repeat case_match;
    try (eapply write_argument_prefix; [done| |done]; intros a;
         first [ apply write_int_prefix | apply write_int_ll_prefix | apply write_number_from
               | by unfold write_string, write_padding; cbn; rewrite <- ?app_assoc
               | by unfold write_pointer, write_char; cbn; rewrite <- ?app_assoc ]).
  simplify_eq. unfold write_char. cbn. by rewrite <- app_assoc.
Qed.

Lemma process_format_piece zero w len c args dest rest more s :
  converts (PIECE_CONVERSION zero w len c args) s →
  process_format dest (tail (piece_format (PIECE_CONVERSION zero w len c args)) ++ rest) (args ++ more)
  = Some (dest ++ s, rest, more).
Proof.
  intros (Hw & Hc & Hl & Hs). cbn [piece_format tail].
  unfold process_format. rewrite <- !app_assoc. cbn [app]. rewrite parse_piece by done. cbn [mbind option_bind snd fst].
  by rewrite (convert_argument_prefix _ _ dest _ _ more Hs).
Qed.

Lemma vsprintf_loop_converts ps ss dest fuel :
  Forall2 converts ps ss → (length (concat (piece_format <$> ps)) < fuel)%nat →
  vsprintf_loop fuel dest (concat (piece_format <$> ps)) (concat (piece_arguments <$> ps))
  = Some (dest ++ concat ss).
Proof.
  intros H. revert dest fuel. induction H as [|p s ps ss Hp _ IH]; intros dest fuel Hf.
  { destruct fuel; [lia|]. cbn. by rewrite app_nil_r. }
  destruct fuel as [|fuel]; [lia|]. cbn [fmap list_fmap concat] in *.
  destruct p as [c|zero w len c args].
  - destruct Hp as [Hc ->]. cbn in Hf |- *. rewrite (proj2 (Z.eqb_neq c _)) by done.
    rewrite IH by lia. unfold write_char. by rewrite <- app_assoc.
  - pose proof (process_format_piece zero w len c args dest (concat (piece_format <$> ps))
                  (concat (piece_arguments <$> ps)) s Hp) as Hstep.
    cbn [piece_format tail piece_arguments] in *. cbn [app] in *. cbn [vsprintf_loop].
    rewrite Z.eqb_refl, Hstep. cbn [mbind option_bind fst snd].
    rewrite IH; [by rewrite <- app_assoc|]. cbn [length] in Hf. rewrite !length_app in Hf. cbn in Hf. lia.
Qed.

(** C34: [vsprintf] renders a format piece by piece.  Take any sequence of characters
    other than the percent sign and of conversions, each with its zero flag, its
    width below 2^31, its length modifier and the arguments it reads, which are
    within the range the formatter writes (an int or a long long that is not the least, and
    for the conversions of a long a value that fits 32 bits: larger ones are cut,
    [long_arguments_cut]).  The output is the concatenation of what the pieces stand for,
    each conversion taking its own arguments: numerals in the base of the conversion
    without leading zeros, with the sign in front and then zeros or spaces up to the
    width; strings behind spaces; addresses with their 16 digits. *)
Theorem vsprintf_renders ps :
  Forall piece_ok ps →
  ∃ ss, Forall2 renders ps ss ∧
    vsprintf (concat (piece_format <$> ps)) (concat (piece_arguments <$> ps)) = Some (concat ss).
Proof.
  intros Hok. assert (Hss : ∃ ss, Forall2 converts ps ss ∧ Forall2 renders ps ss).
  { induction Hok as [|p ps Hp _ (ss & Hc & Hr)]; [by exists []|].
    destruct (piece_converts p Hp) as (s & ? & ?). exists (s :: ss). by split; constructor. }
  destruct Hss as (ss & Hc & Hr). exists ss. split; [done|].
  unfold vsprintf. rewrite (vsprintf_loop_converts ps ss []) by (done || lia). done.
Qed.

(** ** Witnesses *)

(** "n=%08llx %d" with 0xBEEF and -7. *)
Definition example_pieces : list piece :=
  [PIECE_CHAR (chr "n"); PIECE_CHAR (chr "="); PIECE_CONVERSION true 8 LEN_LONG_LONG (chr "x") [ARG_ULL 0xBEEF];
   PIECE_CHAR (chr " "); PIECE_CONVERSION false 0 LEN_NONE (chr "d") [ARG_INT (-7)]].

Lemma vsprintf_renders_witness :
  ∃ ss, Forall2 renders example_pieces ss ∧
    vsprintf [110; 61; 37; 48; 56; 108; 108; 120; 32; 37; 100] [ARG_ULL 0xBEEF; ARG_INT (-7)] = Some (concat ss) ∧
    concat ss = [110; 61; 48; 48; 48; 48; 98; 101; 101; 102; 32; 45; 55].
Proof.
  destruct (vsprintf_renders example_pieces) as (ss & Hr & Hs).
  - repeat constructor; try done; try (by eexists); by right.
  - exists ss. split; [exact Hr|]. split; [exact Hs|]. apply (inj Some). rewrite <- Hs. by vm_compute.
Defined.

Lemma printed_number_reads_back_witness : read_number 16 [48; 48; 98; 101; 101; 102] = 0xBEEF.
Proof.
  apply (proj2 (proj2 (proj2 (printed_number_reads_back [] 6 true false))) 16 0xBEEF).
  exists [98; 101; 101; 102]. split; [|reflexivity].
  constructor; [reflexivity| |intros; simplify_eq; vm_compute; reflexivity|done].
  repeat constructor; [exists 11|exists 14|exists 14|exists 15]; (split; [lia|reflexivity]).
Defined.

(** The arguments of [%ld] and [%lx] are cut to 32 bits, and the least [int] is
    negated, which overflows. *)
Lemma long_arguments_cut :
  vsprintf [37; 108; 120] [ARG_ULONG 0x123456789] = Some [50; 51; 52; 53; 54; 55; 56; 57] ∧
  vsprintf [37; 100] [ARG_INT (- 2 ^ 31)] = None.
Proof. by vm_compute. Qed.
