(* ===== verification/Logger.v ===== *)
(** The kernel's log: src/src/kernel/utility/logger.cpp on the formatted output of
    Print.v.

    A call of the logger takes its lock, prints a few pieces (number, sender, core,
    message) one after the other and releases the lock.  A piece is a function of the
    line counter [log_id]: what it writes and the counter afterwards, or undefined.
    Cores that log at the same time are a step relation, in which a core writes one
    character per step. *)

From Stdlib Require Import String Ascii.
From S2P Require Import Prelude Word Types Kernel Lock LockProofs Print.
Local Open Scope Z_scope.

Definition text_of (s : string) : text := (λ c, Z.of_nat (nat_of_ascii c)) <$> list_ascii_of_string s.
Definition NEWLINE : Z := 10.
Definition ESCAPE : Z := 27.

(** [terminal_color] *)
Definition escape (s : string) : text := ESCAPE :: text_of s.
Module terminal_color.
Definition RESET : text := escape "[0m".
Definition RED : text := escape "[31m".
Definition GREEN : text := escape "[32m".
Definition YELLOW : text := escape "[33m".
Definition CYAN : text := escape "[36m".
End terminal_color.
Import terminal_color.

(** The options of the build, [A9N_CONFIG_ENABLE_LOG_ID] and
    [A9N_CONFIG_ENABLE_LOG_CORE_ID]. *)
Class log_config := {
  ENABLE_LOG_ID : bool;
  ENABLE_LOG_CORE_ID : bool;
}.

Definition piece : Type := Z → option (text * Z).
Definition printf_piece (format : text) (args : list argument) : piece := λ log_id,
  s ← printf format args; Some (s, log_id).
Definition vprintf_piece (format : text) (args : list argument) : piece := λ log_id,
  s ← vprintf format args; Some (s, log_id).

(** ** The calls *)

(** The public operations that take the lock, with their arguments. *)
Inductive log_call :=
| LOG (sender message : text)
| DEBUG (message : text) (args : list argument)
| ERROR (message : text)
| PRINTK (format : text) (args : list argument)
| PRINTH (format : text) (args : list argument)
| PRINTU (format : text) (args : list argument)
| PRINTN (format : text) (args : list argument).

(** A call made on a core, which [current_core_number] answers for. *)
Abbreviation logged := (result Z hal_error * log_call)%type.

Section logger.
Context `{log_config}.

(** [log_id] is 32 bits wide and unsigned; ["%d"] reads it as an int. *)
Definition print_log_id (color_id : text) : piece := λ log_id,
  if ENABLE_LOG_ID then
    s ← printf (text_of "[ %s%s%010d%s ]") [ARG_STRING RESET; ARG_STRING color_id; ARG_INT (to_int log_id); ARG_STRING RESET];
    Some (s, wrap32 (log_id + 1))
  else Some ([], log_id).

Definition print_sender (sender color_id : text) : piece :=
  printf_piece (text_of "[%s%s%8s%s]") [ARG_STRING RESET; ARG_STRING color_id; ARG_STRING sender; ARG_STRING RESET].

(** The core number is a word; ["%x"] reads its lower half. *)
Definition print_core (core_number : result Z hal_error) : piece := λ log_id,
  if ENABLE_LOG_CORE_ID then
    match core_number with
    | Ok n => printf_piece (text_of "[%02x]") [ARG_UINT (to_uint n)] log_id
    | Err _ => printf_piece (text_of "[%02s]") [ARG_STRING (text_of "-")] log_id
    end
  else Some ([], log_id).

Definition print_splitter : piece := printf_piece (text_of " ") [].

Definition message_line : text := text_of "%s" ++ [NEWLINE].

(** What a call prints on a core, in order. *)
Definition call_pieces (core : result Z hal_error) (c : log_call) : list piece :=
  match c with
  | LOG sender message =>
      [print_log_id GREEN; print_sender sender RESET; print_core core; print_splitter;
       printf_piece message_line [ARG_STRING message]]
  | DEBUG message args =>
      [print_log_id CYAN; print_sender (text_of "DEBUG") CYAN; print_core core; print_splitter;
       vprintf_piece message args; printf_piece [NEWLINE] []]
  | ERROR message =>
      [print_log_id GREEN; print_sender (text_of "ERROR") RED; print_core core; print_splitter;
       printf_piece message_line [ARG_STRING message]]
  | PRINTK format args =>
      [print_log_id GREEN; print_sender (text_of "KERNEL") GREEN; print_core core; print_splitter;
       vprintf_piece format args]
  | PRINTH format args =>
      [print_log_id YELLOW; print_sender (text_of "HAL") YELLOW; print_core core; print_splitter;
       vprintf_piece format args]
  | PRINTU format args =>
      [print_log_id YELLOW; print_sender (text_of "USER") RESET; print_splitter; vprintf_piece format args]
  | PRINTN format args => [vprintf_piece format args]
  end.

(** The operations without the lock, and the constructor. *)
Definition put_char (target : Z) : text := [wrap8 target].
Definition split : option text := printf [NEWLINE] [].
Definition logger_init : option text := printf (escape "[0m") [].

(** [a9nout]: the logo line by line and four facts. *)
Definition a9nout (logo : list text) (version description project author : text) : list log_call :=
  ((λ line, PRINTK (escape "[32m%s" ++ escape "[0m" ++ [NEWLINE]) [ARG_STRING line]) <$> logo) ++
  [PRINTK (text_of "A9N Microkernel v%s" ++ [NEWLINE]) [ARG_STRING version];
   PRINTK (text_of "  Description: %s" ++ [NEWLINE]) [ARG_STRING description];
   PRINTK (text_of "  Project: %s" ++ [NEWLINE]) [ARG_STRING project];
   PRINTK (text_of "  Author: %s" ++ [NEWLINE]) [ARG_STRING author];
   PRINTK [NEWLINE] []].

(** ** One call after the other *)

Fixpoint run_pieces (ps : list piece) (log_id : Z) : option (text * Z) :=
  match ps with
  | [] => Some ([], log_id)
  | p :: ps' => si ← p log_id; si' ← run_pieces ps' (snd si); Some (fst si ++ fst si', snd si')
  end.

Fixpoint run_calls (cs : list logged) (log_id : Z) : option (text * Z) :=
  match cs with
  | [] => Some ([], log_id)
  | c :: cs' =>
      si ← run_pieces (call_pieces (fst c) (snd c)) log_id;
      si' ← run_calls cs' (snd si); Some (fst si ++ fst si', snd si')
  end.

(** ** The cores

    Where a core stands: outside of the logger; in [lock] with a call; in a call, with the
    characters of a piece and the pieces that are left. *)
Inductive log_pc :=
| LOG_OUTSIDE
| LOG_TRYING (core : result Z hal_error) (c : log_call)
| LOG_WRITING (rest : text) (ps : list piece).

Record log_state := MkLogState {
  log_lock : Z;
  line_counter : Z;
  output : text;
  log_pcs : Z → log_pc;
}.
Definition initial_log : log_state := MkLogState 0 0 [] (λ _, LOG_OUTSIDE).

Definition log_writes (pc : log_pc) : bool := match pc with LOG_WRITING _ _ => true | _ => false end.

(** A step of core [n], with the call that takes the lock in it and the character that is
    written without the lock, by [put_char].  ([split] is left out: it formats into the
    buffer of the core that holds the lock.) *)
Inductive log_step (n : Z) (s : log_state) : list logged → text → log_state → Prop :=
| log_enter core c :
    log_pcs s n = LOG_OUTSIDE →
    log_step n s [] [] (MkLogState (log_lock s) (line_counter s) (output s) (set_at n (LOG_TRYING core c) (log_pcs s)))
| log_taken core c l :
    log_pcs s n = LOG_TRYING core c → try_lock (log_lock s) = (Ok tt, l) →
    log_step n s [(core, c)] []
      (MkLogState l (line_counter s) (output s) (set_at n (LOG_WRITING [] (call_pieces core c)) (log_pcs s)))
| log_contended core c e l :
    log_pcs s n = LOG_TRYING core c → try_lock (log_lock s) = (Err e, l) →
    log_step n s [] [] (MkLogState l (line_counter s) (output s) (log_pcs s))
| log_piece p ps t id :
    log_pcs s n = LOG_WRITING [] (p :: ps) → p (line_counter s) = Some (t, id) →
    log_step n s [] [] (MkLogState (log_lock s) id (output s) (set_at n (LOG_WRITING t ps) (log_pcs s)))
| log_character x rest ps :
    log_pcs s n = LOG_WRITING (x :: rest) ps →
    log_step n s [] []
      (MkLogState (log_lock s) (line_counter s) (output s ++ [x]) (set_at n (LOG_WRITING rest ps) (log_pcs s)))
| log_leave :
    log_pcs s n = LOG_WRITING [] [] →
    log_step n s [] []
      (MkLogState (unlock (log_lock s)) (line_counter s) (output s) (set_at n LOG_OUTSIDE (log_pcs s)))
| log_put_char x :
    log_pcs s n = LOG_OUTSIDE →
    log_step n s [] (put_char x) (MkLogState (log_lock s) (line_counter s) (output s ++ put_char x) (log_pcs s)).

(** The states the cores reach from the start, with the calls in the order in which they
    took the lock and what was written without it. *)
Inductive log_run : list logged → text → log_state → Prop :=
| log_run_start : log_run [] [] initial_log
| log_run_step calls loose s n taken more s' :
    log_run calls loose s → log_step n s taken more s' → log_run (calls ++ taken) (loose ++ more) s'.

(** ** Lines stay whole *)

Lemma run_pieces_app ps ps' id t id' t' id'' :
  run_pieces ps id = Some (t, id') → run_pieces ps' id' = Some (t', id'') →
  run_pieces (ps ++ ps') id = Some (t ++ t', id'').
Proof.
  revert id t. induction ps as [|p ps IH]; intros id t Hps Hps'; simpl in *; [by simplify_eq|].
  destruct (p id) as [[t1 id1]|]; [|done]. simpl in *.
  destruct (run_pieces ps id1) as [[t2 id2]|] eqn:E; [|done]. simpl in *. simplify_eq.
  rewrite (IH _ _ E Hps'). simpl. by rewrite (assoc_L (++)).
Qed.

Lemma run_calls_snoc cs core c id t id' t' id'' :
  run_calls cs id = Some (t, id') → run_pieces (call_pieces core c) id' = Some (t', id'') →
  run_calls (cs ++ [(core, c)]) id = Some (t ++ t', id'').
Proof.
  revert id t. induction cs as [|c1 cs IH]; intros id t Hcs Hc; cbn [run_calls app] in *.
  - simplify_eq. cbn [fst snd]. rewrite Hc. simpl. by rewrite app_nil_r.
  - destruct (run_pieces _ id) as [[t1 id1]|]; [|done]. simpl in *.
    destruct (run_calls cs id1) as [[t2 id2]|] eqn:E; [|done]. simpl in *. simplify_eq.
    rewrite (IH _ _ E Hc). simpl. by rewrite (assoc_L (++)).
Qed.

(** [c] is [a] and [b], each in its order. *)
Inductive merged : text → text → text → Prop :=
| merged_nil : merged [] [] []
| merged_left x a b c : merged a b c → merged (a ++ [x]) b (c ++ [x])
| merged_right x a b c : merged a b c → merged a (b ++ [x]) (c ++ [x]).

Lemma merged_alone a b c : merged a b c → b = [] → c = a.
Proof. induction 1 as [|x a b c _ IH|x a b c _ _]; intros Hb; [done|by rewrite IH|by destruct b]. Qed.

(** What the calls have written is [own].  Nobody holds the lock and it is the text of the
    calls; or core [n] is in the last of them, and it is that of the calls before and of what
    this core has printed. *)
Definition log_idle (calls : list logged) (own : text) (s : log_state) : Prop :=
  log_lock s = 0 ∧ run_calls calls 0 = Some (own, line_counter s) ∧
  ∀ n, log_writes (log_pcs s n) = false.
Definition log_busy (calls : list logged) (own : text) (s : log_state) : Prop :=
  ∃ n before core c printed rest ps text id t,
    log_lock s = 1 ∧ calls = before ++ [(core, c)] ∧
    run_calls before 0 = Some (text, id) ∧
    log_pcs s n = LOG_WRITING rest ps ∧
    call_pieces core c = printed ++ ps ∧
    run_pieces printed id = Some (t, line_counter s) ∧
    own ++ rest = text ++ t ∧
    ∀ m, m ≠ n → log_writes (log_pcs s m) = false.
Definition log_whole (calls : list logged) (loose : text) (s : log_state) : Prop :=
  ∃ own, merged own loose (output s) ∧ (log_idle calls own s ∨ log_busy calls own s).

(** The core that writes is the one that is in the last call. *)
Lemma log_busy_writer n (s : log_state) rest ps m :
  (∀ m, m ≠ n → log_writes (log_pcs s m) = false) → log_pcs s m = LOG_WRITING rest ps → m = n.
Proof. intros Hall Hm. destruct (decide (m = n)) as [|Hne]; [done|]. specialize (Hall m Hne). by rewrite Hm in Hall. Qed.

Lemma log_step_idle calls own loose n taken more s s' :
  log_idle calls own s → merged own loose (output s) → log_step n s taken more s' →
  log_whole (calls ++ taken) (loose ++ more) s'.
Proof.
  intros (Hl & Hc & Hw) Hm Hs. pose proof (Hw n) as Hn.
  assert (Hquiet : ∀ v m, log_writes v = false → log_writes (set_at n v (log_pcs s) m) = false).
  { intros v m Hv. unfold set_at. case_decide; [done|apply Hw]. }
  destruct Hs as [core c Hp|core c l Hp Ht|core c e l Hp Ht|p ps t id Hp|x rest ps Hp|Hp|x Hp];
    try (by rewrite Hp in Hn); rewrite ?app_nil_r; exists own.
  - split; [done|]. left. split_and!; cbn; auto.
  - split; [done|]. right. rewrite Hl in Ht. vm_compute in Ht. simplify_eq.
    exists n, calls, core, c, [], [], (call_pieces core c), own, (line_counter s), [].
    split_and!; cbn; try done; [apply set_at_eq|].
    intros m Hne. by rewrite set_at_ne.
  - rewrite Hl in Ht. vm_compute in Ht. done.
  - split; [by apply merged_right|]. left. by split_and!.
Qed.

Lemma log_step_busy calls own loose n taken more s s' :
  log_busy calls own s → merged own loose (output s) → log_step n s taken more s' →
  log_whole (calls ++ taken) (loose ++ more) s'.
Proof.
  intros (h & before & core & c & printed & rest & ps & text & id & t & Hl & -> & Hb & Hp & Hpc & Hr & Ho & Hw) Hm Hs.
  destruct Hs as [core' c' Hn|core' c' l Hn Ht|core' c' e l Hn Ht|p ps' t' id' Hn Hpi|x rest' ps' Hn|Hn|x Hn];
    rewrite ?app_nil_r.
  - exists own. split; [done|]. right. assert (n ≠ h) by (intros ->; congruence).
    exists h, before, core, c, printed, rest, ps, text, id, t. split_and!; cbn; try done.
    + by rewrite set_at_ne.
    + intros m Hne. unfold set_at. case_decide; [done|by apply Hw].
  - rewrite Hl in Ht. vm_compute in Ht. done.
  - exists own. split; [done|]. right. rewrite Hl in Ht. vm_compute in Ht. simplify_eq.
    exists h, before, core, c, printed, rest, ps, text, id, t. by split_and!.
  - exists own. split; [done|]. right. pose proof (log_busy_writer _ _ _ _ _ Hw Hn) as ->. rewrite Hp in Hn. simplify_eq.
    exists h, before, core, c, (printed ++ [p]), t', ps', text, id, (t ++ t'). split_and!; cbn; try done.
    + apply set_at_eq.
    + by rewrite <- (assoc_L (++)).
    + eapply run_pieces_app; [done|]. simpl. rewrite Hpi. simpl. by rewrite app_nil_r.
    + rewrite app_nil_r in Ho. by rewrite (assoc_L (++)), Ho.
    + intros m Hne. rewrite set_at_ne by done. by apply Hw.
  - exists (own ++ [x]). split; [by apply merged_left|]. right.
    pose proof (log_busy_writer _ _ _ _ _ Hw Hn) as ->. rewrite Hp in Hn. simplify_eq.
    exists h, before, core, c, printed, rest', ps', text, id, t. split_and!; cbn; try done.
    + apply set_at_eq.
    + by rewrite <- (assoc_L (++)).
    + intros m Hne. rewrite set_at_ne by done. by apply Hw.
  - exists own. split; [done|]. left. pose proof (log_busy_writer _ _ _ _ _ Hw Hn) as ->. rewrite Hp in Hn. simplify_eq.
    rewrite app_nil_r in Ho, Hpc. split_and!; cbn; [done| |].
    + rewrite Ho. eapply run_calls_snoc; [done|]. by rewrite Hpc.
    + intros m. unfold set_at. case_decide; [done|by apply Hw].
  - exists own. split; [by apply merged_right|]. right.
    by exists h, before, core, c, printed, rest, ps, text, id, t.
Qed.

(** C29: Whatever the cores do, the output of the log consists of what the calls that take the
    lock have written and of the characters of [put_char], each in its order.  What the
    calls have written is the text of the calls one after the other, in the order in which
    they took the lock and with consecutive line numbers: of all of them when the lock is
    free, and while a core is in the last one of all the others and of a part of the last.
    No call writes inside the text of another; only characters of [put_char] can stand
    there, and when there are none the output is exactly this text. *)
Theorem log_lines_whole calls loose s :
  log_run calls loose s →
  ∃ own, merged own loose (output s) ∧ (loose = [] → output s = own) ∧
    (log_idle calls own s ∨ log_busy calls own s).
Proof.
  intros Hrun. assert (Hwhole : log_whole calls loose s).
  { induction Hrun as [|calls loose s n taken more s' _ (own & Hm & [Hi|Hb]) Hs].
    - exists []. split; [constructor|]. left. by split_and!.
    - by eapply log_step_idle.
    - by eapply log_step_busy. }
  destruct Hwhole as (own & Hm & Hs). exists own. split_and!; [done|by eapply merged_alone|done].
Qed.
End logger.

(** ** On concrete calls *)

#[local] Instance log_everything : log_config := {| ENABLE_LOG_ID := true; ENABLE_LOG_CORE_ID := true |}.

Definition log_ab : logged := (Ok 0, PRINTN (text_of "ab") []).

(** Core 0 takes the lock while core 1 waits for it, and writes one of its characters. *)
Definition log_first : log_state :=
  MkLogState 0 0 [] (set_at 0 (LOG_TRYING (Ok 0) (PRINTN (text_of "ab") [])) (λ _, LOG_OUTSIDE)).
Definition log_second : log_state :=
  MkLogState 0 0 [] (set_at 1 (LOG_TRYING (Ok 1) (ERROR (text_of "c"))) (log_pcs log_first)).
Definition log_held : log_state :=
  MkLogState 1 0 [] (set_at 0 (LOG_WRITING [] (call_pieces (Ok 0) (PRINTN (text_of "ab") []))) (log_pcs log_second)).
Definition log_formatted : log_state :=
  MkLogState 1 0 [] (set_at 0 (LOG_WRITING (text_of "ab") []) (log_pcs log_held)).
Definition log_halfway : log_state :=
  MkLogState 1 0 (text_of "a") (set_at 0 (LOG_WRITING (text_of "b") []) (log_pcs log_formatted)).

Lemma log_run_halfway : log_run [log_ab] [] log_halfway.
Proof.
  assert (H1 : log_run [] [] log_first).
  { refine (log_run_step [] [] _ 0 [] [] _ log_run_start _). by apply (log_enter 0 initial_log). }
  assert (H2 : log_run [] [] log_second).
  { refine (log_run_step [] [] _ 1 [] [] _ H1 _). by apply (log_enter 1 log_first). }
  assert (H3 : log_run [log_ab] [] log_held).
  { refine (log_run_step [] [] _ 0 [log_ab] [] _ H2 _). by apply (log_taken 0 log_second). }
  assert (H4 : log_run [log_ab] [] log_formatted).
  { refine (log_run_step [log_ab] [] _ 0 [] [] _ H3 _).
    by apply (log_piece 0 log_held (vprintf_piece (text_of "ab") []) []). }
  refine (log_run_step [log_ab] [] _ 0 [] [] _ H4 _). by apply (log_character 0 log_formatted 97 (text_of "b") []).
Qed.

(** [put_char] takes no lock: a character of core 2 lands inside the line of core 0. *)
Definition log_disturbed : log_state :=
  MkLogState 1 0 (output log_halfway ++ put_char 120) (log_pcs log_halfway).

Lemma log_run_disturbed : log_run [log_ab] [120] log_disturbed.
Proof. refine (log_run_step [log_ab] [] _ 2 [] [120] _ log_run_halfway _). by apply (log_put_char 2 log_halfway 120). Qed.

Lemma log_lines_whole_witness :
  log_run [log_ab] [120] log_disturbed ∧
  ∃ own, merged own [120] (text_of "ax") ∧ ([120] = [] → text_of "ax" = own) ∧
    (log_idle [log_ab] own log_disturbed ∨ log_busy [log_ab] own log_disturbed).
Proof. split; [apply log_run_disturbed|]. exact (log_lines_whole [log_ab] [120] log_disturbed log_run_disturbed). Defined.

Lemma put_char_splits_line :
  ∃ s, log_run [log_ab] [120] s ∧ output s = text_of "axb" ∧ run_calls [log_ab] 0 = Some (text_of "ab", 0).
Proof.
  exists (MkLogState 1 0 (output log_disturbed ++ [98]) (set_at 0 (LOG_WRITING [] []) (log_pcs log_disturbed))).
  split; [|by split; reflexivity].
  refine (log_run_step [log_ab] [120] _ 0 [] [] _ log_run_disturbed _).
  by apply (log_character 0 log_disturbed 98 [] []).
Qed.

(** A line with its number and its core. *)
Example log_line_text :
  run_calls [(Ok 11, LOG (text_of "kernel") (text_of "up"))] 7 =
  Some (text_of "[ " ++ RESET ++ GREEN ++ text_of "0000000007" ++ RESET ++ text_of " ][" ++ RESET ++ RESET ++
        text_of "  kernel" ++ RESET ++ text_of "][0b] up" ++ [NEWLINE], 8).
Proof. reflexivity. Qed.
