(* ===== verification/Version.v ===== *)
(** The version string of the kernel: [semantic_version] of
    src/src/liba9n/include/liba9n/common/version.hpp, which the init information
    is filled from.

    A pointer into a string is a zipper: the characters passed, last first, and
    those ahead; the terminator is read when none is ahead. *)

From S2P Require Import Prelude Word Print.

Record cursor := Cursor { passed : text; ahead : text }.

Definition deref (p : cursor) : Z := match ahead p with c :: _ => c | [] => 0 end.
(** [p++]; past the terminator the pointer points nowhere, and is not read. *)
Definition advance (p : cursor) : cursor :=
  match ahead p with
  | c :: rest => Cursor (c :: passed p) rest
  | [] => Cursor (0 :: passed p) []
  end.
(** [p > q && *(p - 1) == c], for pointers into one string. *)
Definition moved_behind (p q : cursor) (c : Z) : bool :=
  (length (passed q) <? length (passed p))%nat
  && match passed p with d :: _ => d =? c | [] => false end.

(** [string_to_value<Separators...>]. *)
Definition is_separator (separators : list Z) (c : Z) : bool := existsb (Z.eqb c) separators.

Definition UINTMAX_MAX : Z := 2 ^ 64 - 1.

Fixpoint string_to_value_loop (separators : list Z) (fuel : nat) (value : Z) (has_digits : bool)
    (string : cursor) : option (Z * cursor) :=
  match fuel with
  | O => None
  | S fuel' =>
      let c := deref string in
      if (c =? 0) || is_separator separators c then
        if negb has_digits then None
        else Some (value, if is_separator separators c then advance string else string)
      else if (ascii.ZERO <=? c) && (c <=? ascii.NINE) then
        let digit := c - ascii.ZERO in
        if (UINTMAX_MAX - digit) / 10 <? value then None
        else string_to_value_loop separators fuel' (wadd (wmul value 10) digit) true (advance string)
      else None
  end.
Definition string_to_value (separators : list Z) (string : cursor) : option (Z * cursor) :=
  string_to_value_loop separators (S (length (ahead string))) 0 false string.

(** ** The parser *)

Inductive version_state :=
| UNINITIALIZED | MAJOR | MINOR | PATCH | PRE_RELEASE | BUILD_META_DATA | FINISHED.

Definition IDENTIFIER_BUFFER_SIZE : Z := 32.

Record semantic_version := MkVersion {
  version_state_of : version_state;
  major : Z; minor : Z; patch : Z;
  pre_release : text;
  build_meta_data : text;
}.
#[global] Instance eta_version : Eta semantic_version := λ x,
  MkVersion (version_state_of x) (major x) (minor x) (patch x) (pre_release x) (build_meta_data x).

(** The member initialisers. *)
Definition fresh_version : semantic_version :=
  MkVersion UNINITIALIZED 0 0 0 (replicate (Z.to_nat IDENTIFIER_BUFFER_SIZE) 0)
    (replicate (Z.to_nat IDENTIFIER_BUFFER_SIZE) 0).

Definition is_identifier_character (c : Z) : bool :=
  ((48 <=? c) && (c <=? 57)) || ((65 <=? c) && (c <=? 90)) || ((97 <=? c) && (c <=? 122))
  || (c =? 45) || (c =? 46).

(** The buffer that is left and, on success, the pointer behind the separator. *)
Fixpoint copy_until_separator_loop (fuel : nat) (destination : text) (index : nat) (source : cursor)
    (separator : Z) : text * option cursor :=
  match fuel with
  | O => (destination, None)
  | S fuel' =>
      let c := deref source in
      if (c =? 0) || (c =? separator) then
        if (index =? 0)%nat then (destination, None)
        else (<[index := 0]> destination, Some (if c =? separator then advance source else source))
      else if negb (is_identifier_character c) then (destination, None)
      else if (length destination <=? index + 1)%nat then (destination, None)
      else copy_until_separator_loop fuel' (<[index := c]> destination) (S index) (advance source) separator
  end.
Definition copy_until_separator (destination : text) (source : cursor) (separator : Z)
    : text * option cursor :=
  if (length destination =? 0)%nat then (destination, None)
  else copy_until_separator_loop (S (length (ahead source))) destination 0 source separator.

Definition DOT : Z := 46.
Definition HYPHEN : Z := 45.
Definition PLUS : Z := 43.

(** The loop of [parse_base]: the states MAJOR, MINOR and PATCH each take one
    turn, so that three are enough. *)
Fixpoint parse_base_loop (fuel : nat) (v : semantic_version) (base_version : cursor)
    : semantic_version * option cursor :=
  match fuel with
  | O => (v, None)
  | S fuel' =>
      if deref base_version =? 0 then (v, None)
      else
        match version_state_of v with
        | MAJOR =>
            match string_to_value [DOT] base_version with
            | Some (n, next) =>
                parse_base_loop fuel' (v <| major := n |> <| version_state_of := MINOR |>) next
            | None => (v, None)
            end
        | MINOR =>
            match string_to_value [DOT] base_version with
            | Some (n, next) =>
                parse_base_loop fuel' (v <| minor := n |> <| version_state_of := PATCH |>) next
            | None => (v, None)
            end
        | PATCH =>
            match string_to_value [HYPHEN; PLUS] base_version with
            | Some (n, next) =>
                let v := v <| patch := n |> in
                if moved_behind next base_version HYPHEN
                then (v <| version_state_of := PRE_RELEASE |>, Some next)
                else if moved_behind next base_version PLUS
                then (v <| version_state_of := BUILD_META_DATA |>, Some next)
                else if deref next =? 0 then (v <| version_state_of := FINISHED |>, None)
                else (v, None)
            | None => (v, None)
            end
        | _ => (v, None)
        end
  end.
Definition parse_base (v : semantic_version) (base_version : cursor) : semantic_version * option cursor :=
  match version_state_of v with
  | UNINITIALIZED => parse_base_loop 3 (v <| version_state_of := MAJOR |>) base_version
  | _ => (v, None)
  end.

Definition parse_pre_release (v : semantic_version) (target : cursor) : semantic_version * option cursor :=
  match version_state_of v with
  | PRE_RELEASE =>
      let '(buffer, result) := copy_until_separator (pre_release v) target PLUS in
      let v := v <| pre_release := buffer |> in
      match result with
      | Some current =>
          if moved_behind current target PLUS
          then (v <| version_state_of := BUILD_META_DATA |>, Some current)
          else (v <| version_state_of := FINISHED |>, None)
      | None => (v, None)
      end
  | _ => (v, None)
  end.

Definition parse_build_meta_data (v : semantic_version) (target : cursor)
    : semantic_version * option cursor :=
  match version_state_of v with
  | BUILD_META_DATA =>
      let '(buffer, result) := copy_until_separator (build_meta_data v) target 0 in
      let v := v <| build_meta_data := buffer |> in
      match result with
      | Some current => (v <| version_state_of := FINISHED |>, Some current)
      | None => (v, None)
      end
  | _ => (v, None)
  end.

(** The constructor of [semantic_version] from a string: the chain of [and_then]. *)
Definition parse_version (version : text) : semantic_version :=
  let '(v, p) := parse_base fresh_version (Cursor [] version) in
  match p with
  | None => v
  | Some p =>
      let '(v, p) := parse_pre_release v p in
      match p with
      | None => v
      | Some p => fst (parse_build_meta_data v p)
      end
  end.

(** [semantic_version(major, minor, patch, pre_release, build_meta_data)]. *)
Definition make_version (target_major target_minor target_patch : Z)
    (target_pre_release target_build_meta_data : text) : semantic_version :=
  let copy (buffer s : text) :=
    match s with [] => buffer | _ => fst (copy_until_separator buffer (Cursor [] s) 0) end in
  MkVersion FINISHED target_major target_minor target_patch
    (copy (pre_release fresh_version) target_pre_release)
    (copy (build_meta_data fresh_version) target_build_meta_data).

(** * Properties

    The version parser: a version string in its canonical form
    reads back as its fields. *)

From S2P Require Import PrintProofs.
Definition decimal_digits (ds : text) : Prop := Forall (λ c, 48 ≤ c ≤ 57) ds.

Lemma numeral_decimal up n ds : numeral 10 up n ds → decimal_digits ds.
Proof.
  intros [_ Hf _ _]. eapply Forall_impl; [exact Hf|]. cbn. intros c (d & Hd & ->)%is_digit_inv; [|done].
  unfold digit_char, ascii.ZERO. rewrite (proj2 (Z.ltb_lt d 10)) by lia. lia.
Qed.

Lemma version_read_from_ge ds v : decimal_digits ds → 0 ≤ v → v ≤ read_from 10 v ds.
Proof.
  revert v. unfold read_from. induction ds as [|c ds IH]; intros v Hd Hv; cbn [foldl]; [lia|].
  apply Forall_cons in Hd as [Hc Hd].
  assert (char_value c = c - 48) as E
    by (unfold char_value, ascii.NINE; by rewrite (proj2 (Z.leb_le c 57)) by lia).
  specialize (IH (v * 10 + char_value c) Hd ltac:(lia)). lia.
Qed.

(** Where a number ends: at the terminator, or at one of the separators, which is
    passed. *)
Definition behind_number (separators : list Z) (seen rest : text) : option cursor :=
  match rest with
  | [] => Some (Cursor seen [])
  | c :: rest' => if is_separator separators c then Some (Cursor (c :: seen) rest') else None
  end.

Lemma string_to_value_loop_spec separators rest next ds :
  decimal_digits ds → Forall (λ c, is_separator separators c = false) ds → (ds ++ rest) ≠ [] →
  Forall (λ c, c ≠ 0) rest → is_separator separators 0 = false →
  ∀ v b seen fuel, behind_number separators (rev ds ++ seen) rest = Some next →
  0 ≤ v → read_from 10 v ds < 2 ^ 64 → (b = true ∨ ds ≠ []) → (length ds < fuel)%nat →
  string_to_value_loop separators fuel v b (Cursor seen (ds ++ rest)) = Some (read_from 10 v ds, next).
Proof.
  intros Hd Hs _ Hr H0. revert Hd Hs. induction ds as [|c ds IH]; intros Hd Hs v b seen fuel Hnext Hv Hlt Hb Hf;
    (destruct fuel as [|fuel]; [cbn in Hf; lia|]).
  - destruct Hb as [->|]; [|done]. cbn in Hnext |- *. destruct rest as [|c rest].
    + unfold deref. cbn. rewrite H0. by injection Hnext as <-.
    + unfold deref, advance. cbn. cbn in Hnext. destruct (is_separator separators c); [|done].
      rewrite orb_true_r. cbn. by injection Hnext as <-.
  - apply Forall_cons in Hd as [Hc Hd]. apply Forall_cons in Hs as [Hsc Hs].
    cbn [string_to_value_loop app]. unfold deref. cbn [ahead].
    rewrite Hsc, (proj2 (Z.eqb_neq c 0)) by lia. cbn [orb].
    unfold ascii.ZERO, ascii.NINE. rewrite (proj2 (Z.leb_le 48 c)), (proj2 (Z.leb_le c 57)) by lia. cbn [andb].
    assert (char_value c = c - 48) as Ec
      by (unfold char_value, ascii.NINE; by rewrite (proj2 (Z.leb_le c 57)) by lia).
    change (read_from 10 v (c :: ds)) with (read_from 10 (v * 10 + char_value c) ds) in Hlt |- *.
    rewrite Ec in Hlt |- *. pose proof (version_read_from_ge ds (v * 10 + (c - 48)) Hd ltac:(lia)).
    rewrite (proj2 (Z.ltb_ge _ _)) by (unfold UINTMAX_MAX; apply Z.div_le_lower_bound; lia).
    replace (wadd (wmul v 10) (c - 48)) with (v * 10 + (c - 48))
      by (unfold wadd, wmul, wrap; cbn -[Z.pow Z.modulo]; rewrite Z.add_mod_idemp_l, Z.mod_small by lia; lia).
    unfold advance. cbn [ahead passed]. apply IH; try done; [|lia|by left|cbn in Hf; lia].
    cbn [rev] in Hnext. by rewrite <- app_assoc in Hnext.
Qed.

Lemma is_separator_digit separators c :
  Forall (λ s, s < 48) separators → 48 ≤ c → is_separator separators c = false.
Proof.
  unfold is_separator. induction 1 as [|s l Hs _ IH]; intros Hc; [done|]. cbn.
  rewrite (proj2 (Z.eqb_neq c s)) by lia. cbn. by apply IH.
Qed.

Lemma string_to_value_numeral separators n ds seen rest next :
  Forall (λ s, 0 < s < 48) separators → numeral 10 false n ds → n < 2 ^ 64 →
  Forall (λ c, c ≠ 0) rest → behind_number separators (rev ds ++ seen) rest = Some next →
  string_to_value separators (Cursor seen (ds ++ rest)) = Some (n, next).
Proof.
  intros Hs Hn Hlt Hr Hnext. pose proof (numeral_decimal _ _ _ Hn) as Hd. destruct Hn as [Hv _ _ He].
  unfold string_to_value. cbn [ahead]. rewrite <- Hv. apply string_to_value_loop_spec; try done.
  - eapply Forall_impl; [exact Hd|]. intros c Hc. cbn in Hc. apply is_separator_digit; [|lia].
    eapply Forall_impl; [exact Hs|]. cbn. intros; lia.
  - by destruct ds.
  - unfold is_separator. clear -Hs. induction Hs as [|s l H _ IH]; [done|]. cbn [existsb].
    rewrite (proj2 (Z.eqb_neq 0 s)) by lia. exact IH.
  - unfold read_number in Hv. by rewrite Hv.
  - by right.
  - rewrite length_app. lia.
Qed.

(** ** Identifiers *)

Record identifier (s : text) : Prop := {
  identifier_chars : Forall (λ c, is_identifier_character c = true) s;
  identifier_length : (0 < length s < Z.to_nat IDENTIFIER_BUFFER_SIZE)%nat;
}.

(** A buffer that holds a string: the characters, then the terminator. *)
Definition in_buffer (s : text) : text :=
  s ++ replicate (Z.to_nat IDENTIFIER_BUFFER_SIZE - length s) 0.

Lemma identifier_char_bounds c : is_identifier_character c = true → 45 ≤ c.
Proof. unfold is_identifier_character. lia. Qed.

(** What is written so far, then zeros. *)
Lemma in_buffer_extend s c :
  (length s < Z.to_nat IDENTIFIER_BUFFER_SIZE)%nat → <[length s := c]> (in_buffer s) = in_buffer (s ++ [c]).
Proof.
  intros Hl. unfold in_buffer. rewrite insert_app_r_alt, Nat.sub_diag, length_app by lia.
  destruct (Z.to_nat IDENTIFIER_BUFFER_SIZE - length s)%nat as [|n] eqn:E; [lia|]. cbn.
  replace (Z.to_nat IDENTIFIER_BUFFER_SIZE - (length s + 1))%nat with n by lia. by rewrite <- app_assoc.
Qed.

Lemma in_buffer_terminated s :
  (length s < Z.to_nat IDENTIFIER_BUFFER_SIZE)%nat → <[length s := 0]> (in_buffer s) = in_buffer s.
Proof.
  intros Hl. apply list_insert_id. unfold in_buffer. rewrite lookup_app_r, Nat.sub_diag by lia.
  apply lookup_replicate. split; [done|lia].
Qed.

Lemma in_buffer_length s :
  (length s ≤ Z.to_nat IDENTIFIER_BUFFER_SIZE)%nat → length (in_buffer s) = Z.to_nat IDENTIFIER_BUFFER_SIZE.
Proof. intros. unfold in_buffer. rewrite length_app, length_replicate. lia. Qed.

Definition behind_identifier (separator : Z) (seen rest : text) : option cursor :=
  match rest with
  | [] => Some (if 0 =? separator then Cursor (0 :: seen) [] else Cursor seen [])
  | c :: rest' => if (c =? separator) && negb (c =? 0) then Some (Cursor (c :: seen) rest') else None
  end.

Lemma copy_until_separator_loop_spec separator rest next s :
  Forall (λ c, is_identifier_character c = true) s → separator < 45 →
  ∀ dn seen fuel, behind_identifier separator (rev s ++ seen) rest = Some next →
  (0 < length dn + length s < Z.to_nat IDENTIFIER_BUFFER_SIZE)%nat → (length s < fuel)%nat →
  copy_until_separator_loop fuel (in_buffer dn) (length dn) (Cursor seen (s ++ rest)) separator
  = (in_buffer (dn ++ s), Some next).
Proof.
  intros Hs Hsep. induction Hs as [|c s Hc Hs IH]; intros dn seen fuel Hnext Hl Hf;
    (destruct fuel as [|fuel]; [cbn in Hf; lia|]); cbn [copy_until_separator_loop].
  - cbn in Hl. rewrite app_nil_r. cbn in Hnext. unfold deref, advance. cbn [app ahead passed].
    destruct (Nat.eqb_spec (length dn) 0) as [|_]; [lia|]. rewrite in_buffer_terminated by lia.
    destruct rest as [|c rest]; cbn in Hnext |- *.
    + destruct (0 =? separator); by injection Hnext as <-.
    + destruct ((c =? separator) && negb (c =? 0)) eqn:E; [|done]. apply andb_true_iff in E as [-> _].
      rewrite orb_true_r. by injection Hnext as <-.
  - pose proof (identifier_char_bounds c Hc). unfold deref, advance. cbn [app ahead passed].
    rewrite (proj2 (Z.eqb_neq c 0)), (proj2 (Z.eqb_neq c separator)), Hc by lia. cbn [orb negb].
    cbn [length] in Hl, Hf. rewrite in_buffer_length by lia.
    destruct (Nat.leb_spec (Z.to_nat IDENTIFIER_BUFFER_SIZE) (length dn + 1)); [lia|].
    rewrite in_buffer_extend by lia.
    replace (S (length dn)) with (length (dn ++ [c])) by (rewrite length_app; cbn; lia).
    replace (dn ++ c :: s) with ((dn ++ [c]) ++ s) by (by rewrite <- app_assoc).
    apply IH; [|rewrite length_app; cbn; lia|lia]. cbn [rev] in Hnext. by rewrite <- app_assoc in Hnext.
Qed.

Lemma copy_until_separator_spec separator seen s rest next :
  identifier s → separator < 45 → behind_identifier separator (rev s ++ seen) rest = Some next →
  copy_until_separator (in_buffer []) (Cursor seen (s ++ rest)) separator = (in_buffer s, Some next).
Proof.
  intros [Hs Hl] Hsep Hnext. unfold copy_until_separator. rewrite in_buffer_length by (cbn; lia).
  cbn [Nat.eqb]. apply (copy_until_separator_loop_spec separator rest next s Hs Hsep []);
    [done|cbn [length]; lia|cbn [ahead]; rewrite length_app; lia].
Qed.

(** ** Versions *)

(** Read the fields of a version through its updates. *)
Ltac vsimpl := cbn [version_state_of major minor patch pre_release build_meta_data upd].

(** What may follow the patch number. *)
Inductive version_suffix :=
| NO_SUFFIX
| ONLY_PRE (pre : text)
| PRE_AND_BUILD (pre build : text).

Definition suffix_text (s : version_suffix) : text :=
  match s with
  | NO_SUFFIX => []
  | ONLY_PRE pre => HYPHEN :: pre
  | PRE_AND_BUILD pre build => HYPHEN :: pre ++ PLUS :: build
  end.
Definition suffix_pre (s : version_suffix) : text :=
  match s with NO_SUFFIX => [] | ONLY_PRE pre | PRE_AND_BUILD pre _ => pre end.
Definition suffix_build (s : version_suffix) : text :=
  match s with PRE_AND_BUILD _ build => build | _ => [] end.
Definition suffix_ok (s : version_suffix) : Prop :=
  match s with
  | NO_SUFFIX => True
  | ONLY_PRE pre => identifier pre
  | PRE_AND_BUILD pre build => identifier pre ∧ identifier build
  end.

Lemma identifier_nonzero s : identifier s → Forall (λ c, c ≠ 0) s.
Proof.
  intros [H _]. eapply Forall_impl; [exact H|]. intros c Hc%identifier_char_bounds. lia.
Qed.

Lemma suffix_nonzero s : suffix_ok s → Forall (λ c, c ≠ 0) (suffix_text s).
Proof.
  destruct s as [|pre|pre build]; cbn; [by constructor|intros H|intros [H H']].
  - constructor; [done|by apply identifier_nonzero].
  - constructor; [done|]. apply Forall_app. split; [by apply identifier_nonzero|].
    constructor; [done|by apply identifier_nonzero].
Qed.

Lemma decimal_nonzero ds : decimal_digits ds → Forall (λ c, c ≠ 0) ds.
Proof. intros H. eapply Forall_impl; [exact H|]. cbn. intros; lia. Qed.

Lemma rev_head {A} (Q : A → Prop) s : Forall Q s → (0 < length s)%nat → ∃ c l, rev s = c :: l ∧ Q c.
Proof.
  intros Hs Hl. apply List.Forall_rev in Hs. rewrite <- length_rev in Hl.
  destruct (rev s) as [|c l]; cbn in Hl; [lia|]. apply Forall_cons in Hs as [Hc _]. by exists c, l.
Qed.

Lemma last_digit n ds : numeral 10 false n ds → ∃ c l, rev ds = c :: l ∧ 48 ≤ c.
Proof.
  intros Hn. pose proof (numeral_decimal _ _ _ Hn) as Hd. destruct Hn as [_ _ _ He].
  destruct (rev_head _ ds Hd) as (c & l & E & Hc); [by destruct ds; cbn; [|lia]|].
  exists c, l. cbn in Hc. split; [done|lia].
Qed.

Lemma identifier_last s :
  Forall (λ c, is_identifier_character c = true) s → (0 < length s)%nat → ∃ c l, rev s = c :: l ∧ 45 ≤ c.
Proof.
  intros Hd Hl. destruct (rev_head _ s Hd Hl) as (c & l & E & Hc%identifier_char_bounds). by exists c, l.
Qed.

(** A pointer behind another character than the separator, and one behind it. *)
Lemma moved_behind_other d next from c : d ≠ c → head (passed next) = Some d → moved_behind next from c = false.
Proof.
  intros Hd He. unfold moved_behind. destruct (passed next) as [|e l]; [done|]. injection He as ->.
  rewrite (proj2 (Z.eqb_neq d c)) by done. apply andb_false_r.
Qed.
Lemma moved_behind_separator c l l' from :
  (length (passed from) < S (length l))%nat → moved_behind (Cursor (c :: l) l') from c = true.
Proof. intros Hl. unfold moved_behind. cbn [passed length]. by rewrite Z.eqb_refl, (proj2 (Nat.ltb_lt _ _) Hl). Qed.

(** The state of the parser behind the three numbers. *)
Definition base_state (s : version_suffix) : version_state :=
  match s with NO_SUFFIX => FINISHED | _ => PRE_RELEASE end.

Lemma parse_base_spec M m p dM dm dp s :
  numeral 10 false M dM → numeral 10 false m dm → numeral 10 false p dp →
  M < 2 ^ 64 → m < 2 ^ 64 → p < 2 ^ 64 → suffix_ok s →
  parse_base fresh_version (Cursor [] (dM ++ DOT :: dm ++ DOT :: dp ++ suffix_text s)) =
  (MkVersion (base_state s) M m p (in_buffer []) (in_buffer []),
   match s with
   | NO_SUFFIX => None
   | _ => Some (Cursor (HYPHEN :: rev dp ++ DOT :: rev dm ++ DOT :: rev dM) (tail (suffix_text s)))
   end).
Proof.
  intros HM Hm Hp bM bm bp Hs.
  pose proof (decimal_nonzero _ (numeral_decimal _ _ _ Hm)) as Nm.
  pose proof (decimal_nonzero _ (numeral_decimal _ _ _ Hp)) as Np.
  pose proof (suffix_nonzero s Hs) as Ns.
  assert (∀ n ds rest seen, numeral 10 false n ds → (deref (Cursor seen (ds ++ rest)) =? 0) = false) as Hne.
  { intros n ds rest seen Hn. pose proof (numeral_decimal _ _ _ Hn) as Hd. destruct Hn as [_ _ _ He].
    destruct ds as [|c ds]; [done|]. apply Forall_cons in Hd as [Hc _]. unfold deref. cbn. lia. }
  assert (∀ ds, Forall (λ c, c ≠ 0) ds → Forall (λ c, c ≠ 0) (DOT :: ds)) as Hdot
    by (intros; by constructor).
  unfold parse_base. cbn [version_state_of fresh_version parse_base_loop]. vsimpl.
  rewrite (Hne M dM) by done.
  rewrite (string_to_value_numeral [DOT] M dM [] _ (Cursor (DOT :: rev dM ++ []) (dm ++ DOT :: dp ++ suffix_text s)));
    [|repeat constructor|done..|apply Hdot; repeat (apply Forall_app; split; [done|]); apply Hdot, Forall_app; done|done].
  cbn [parse_base_loop]. vsimpl. rewrite (Hne m dm) by done.
  rewrite (string_to_value_numeral [DOT] m dm _ _
    (Cursor (DOT :: rev dm ++ DOT :: rev dM ++ []) (dp ++ suffix_text s)));
    [|repeat constructor|done..|apply Hdot, Forall_app; done|done].
  cbn [parse_base_loop]. vsimpl. rewrite (Hne p dp) by done. rewrite !app_nil_r.
  assert (Forall (λ c, 0 < c < 48) [HYPHEN; PLUS]) as Hsep by (unfold HYPHEN, PLUS; repeat constructor; lia).
  destruct (suffix_text s) as [|c rest] eqn:Es.
  - assert (s = NO_SUFFIX) as -> by (by destruct s).
    destruct (last_digit p dp Hp) as (c & l & Er & Hc).
    rewrite (string_to_value_numeral [HYPHEN; PLUS] p dp _ _ (Cursor (rev dp ++ DOT :: rev dm ++ DOT :: rev dM) []))
      by done.
    rewrite !(moved_behind_other c) by (first [unfold HYPHEN, PLUS; lia|cbn [passed]; by rewrite Er]).
    done.
  - assert (c = HYPHEN ∧ base_state s = PRE_RELEASE) as [-> ->] by (destruct s; cbn in Es; [done|..]; by injection Es as <- _).
    rewrite (string_to_value_numeral [HYPHEN; PLUS] p dp _ _
      (Cursor (HYPHEN :: rev dp ++ DOT :: rev dm ++ DOT :: rev dM) rest)) by done.
    rewrite moved_behind_separator by (rewrite !length_app; cbn; rewrite !length_app; lia). vsimpl.
    by destruct s.
Qed.

Lemma parse_build_meta_data_spec M m p pre seen build :
  identifier build →
  fst (parse_build_meta_data (MkVersion BUILD_META_DATA M m p pre (in_buffer [])) (Cursor seen build)) =
  MkVersion FINISHED M m p pre (in_buffer build).
Proof.
  intros Hb. unfold parse_build_meta_data. vsimpl.
  rewrite <- (app_nil_r build) at 1.
  by erewrite copy_until_separator_spec.
Qed.

(** A version string reads back.  Whatever the three numbers are, as long as
    they fit 64 bits, and whatever identifiers of at most 31 characters follow
    them, a pre-release and, behind one, build metadata, the parser finishes with
    the numbers, and with the identifiers terminated in their buffers. *)
Theorem version_reads_back M m p dM dm dp s :
  numeral 10 false M dM → numeral 10 false m dm → numeral 10 false p dp →
  M < 2 ^ 64 → m < 2 ^ 64 → p < 2 ^ 64 → suffix_ok s →
  parse_version (dM ++ DOT :: dm ++ DOT :: dp ++ suffix_text s) =
  MkVersion FINISHED M m p (in_buffer (suffix_pre s)) (in_buffer (suffix_build s)).
Proof.
  intros HM Hm Hp bM bm bp Hs. unfold parse_version. rewrite (parse_base_spec M m p) by done.
  destruct s as [|pre|pre build]; [done|..]; unfold parse_pre_release; cbn [base_state]; vsimpl; cbn [suffix_text tail].
  - rewrite <- (app_nil_r pre) at 1.
    destruct Hs as [Hc Hl]. destruct (identifier_last pre Hc) as (c & l & Er & Hb); [lia|].
    erewrite copy_until_separator_spec; [|by constructor|done|done]. cbn [behind_identifier]. 
    rewrite (moved_behind_other c); [done|unfold PLUS; lia|cbn; by rewrite Er].
  - destruct Hs as [Hpre Hb]. erewrite copy_until_separator_spec; [|done..].
    rewrite moved_behind_separator by (rewrite !length_app; cbn; lia). vsimpl.
    by apply parse_build_meta_data_spec.
Qed.

Lemma version_reads_back_witness :
  parse_version [49; 46; 50; 53; 46; 48; 45; 114; 99; 43; 57] =
  MkVersion FINISHED 1 25 0 (in_buffer [114; 99]) (in_buffer [57]).
Proof.
  apply (version_reads_back 1 25 0 [49] [50; 53] [48] (PRE_AND_BUILD [114; 99] [57])); try lia.
  - apply (numeral_digit 10 false 1); lia.
  - apply (numeral_snoc 10 false 2 5 [50]); [lia..|]. apply (numeral_digit 10 false 2); lia.
  - apply (numeral_digit 10 false 0); lia.
  - split; (split; [repeat (apply Forall_cons_2; [done|]); apply Forall_nil_2|unfold IDENTIFIER_BUFFER_SIZE; cbn [length]; lia]).
Defined.

(** Build metadata without a pre-release is dropped: the chain runs the
    pre-release parser first, which refuses the state BUILD_META_DATA. *)
Lemma build_without_pre_release_lost :
  let v := parse_version [49; 46; 48; 46; 48; 43; 98] in
  version_state_of v = BUILD_META_DATA ∧ build_meta_data v = in_buffer [].
Proof. vm_compute. by split. Qed.
