(* ===== verification/Boot.v ===== *)
(** The boot of the init process: src/src/kernel/boot/init.cpp,
    src/src/kernel/include/kernel/boot/{init,boot_info}.hpp and the linear
    allocator of src/src/liba9n/include/liba9n/common/allocator.hpp.

    The init process is built from three sources: the information of the boot
    loader ([boot_info]), a static pool of memory the allocator cuts objects from,
    and the page of the init image that receives [init_info].  The pool is at the
    kernel virtual address [pool]; the allocator's [current] and the content of the
    page are the state of this phase, next to the kernel's. *)

From S2P Require Import Prelude Word Types Dll Kernel Slot Hal Node Memory Scheduler.
From S2P Require Import ProcessManager Queues Generic Devices Print Version Reclamation.

(** ** The linear allocator *)

Inductive allocator_error := AE_OUT_OF_MEMORY | AE_UNEXPECTED.

Definition align_to (value base : Z) : Z := wmul (wsub (wadd value base) 1 / base) base.

Definition POOL_SIZE : Z := PAGE_SIZE * 1024.

(** [allocate<T>(count)] up to the construction: the offset of the objects and
    the new [current].  A count whose total size wraps passes the test and the
    loop leaves the pool, which is undefined: [None]. *)
Definition allocate (current size count : Z) : option (result (Z * Z) allocator_error) :=
  let aligned_current := align_to current size in
  let total_size := wmul size count in
  if (POOL_SIZE <? aligned_current) || (POOL_SIZE - aligned_current <? total_size)
  then Some (Err AE_OUT_OF_MEMORY)
  else if 2 ^ 64 <=? size * count then None
  else Some (Ok (aligned_current, wadd aligned_current total_size)).

(** ** Boot information *)

Inductive memory_map_type := MMT_FREE | MMT_DEVICE | MMT_RESERVED.
#[global] Instance memory_map_type_eq_dec : EqDecision memory_map_type.
Proof. solve_decision. Defined.

Record memory_map_entry := MkEntry {
  start_physical_address : Z;
  page_count : Z;
  entry_type : memory_map_type;
}.

(** [memory_map] points to an array the boot loader wrote. *)
Record memory_info := MkMemoryInfo {
  memory_map_count : Z;
  memory_map : list memory_map_entry;
}.

Record init_image_info := MkImage {
  loaded_address : Z;
  init_image_size : Z;
  entry_point_address : Z;
  init_info_address : Z;
  init_ipc_buffer_address : Z;
}.

Record boot_info := MkBootInfo {
  boot_memory_info : memory_info;
  boot_init_image_info : init_image_info;
  arch_info : list Z;
}.

(** ** Init information *)

Definition INITIAL_PROCESS_ROOT_NODE_COUNT : Z := 256.
Definition INITIAL_FRAME_COUNT_MAX : Z := 4096 * 8.
Definition INITIAL_PAGE_TABLE_COUNT_MAX : Z := 128.
Definition INITIAL_GENERIC_COUNT_MAX : Z := 128.
Definition INITIAL_FRAME_SIZE_BITS : Z := 12.
Definition GENERIC_RECURSIVE_SPLITTING_MAX : Z := 7.
Definition INIT_NAME_SIZE : nat := 32.

Record generic_descriptor := MkDescriptor {
  descriptor_address : Z;
  size_radix : Z;
  is_device : bool;
}.

(** [init_slot_offset] *)
Definition OFFSET_PROCESS_CONTROL_BLOCK : Z := 1.
Definition OFFSET_PROCESS_ADDRESS_SPACE : Z := 2.
Definition OFFSET_PROCESS_ROOT_NODE : Z := 3.
Definition OFFSET_PROCESS_PAGE_TABLE_NODE : Z := 4.
Definition OFFSET_PROCESS_FRAME_NODE : Z := 5.
Definition OFFSET_PROCESS_IPC_BUFFER_FRAME : Z := 6.
Definition OFFSET_GENERIC_NODE : Z := 7.
Definition OFFSET_INTERRUPT_REGION : Z := 8.
Definition OFFSET_IO_PORT : Z := 9.

Record init_info := MkInitInfo {
  kernel_major_version : Z;
  kernel_minor_version : Z;
  kernel_patch_version : Z;
  kernel_pre_release : text;
  kernel_build_meta_data : text;
  architecture_name : text;
  platform_name : text;
  init_core_count : Z;
  init_arch_info : list Z;
  init_ipc_buffer : Z;
  generic_list : list generic_descriptor;
  generic_list_count : Z;
}.
#[global] Instance eta_init_info : Eta init_info := λ x,
  MkInitInfo (kernel_major_version x) (kernel_minor_version x) (kernel_patch_version x)
    (kernel_pre_release x) (kernel_build_meta_data x) (architecture_name x) (platform_name x)
    (init_core_count x) (init_arch_info x) (init_ipc_buffer x) (generic_list x) (generic_list_count x).

(** [copy_init_name]: cut to the array, and zeros behind it. *)
Definition copy_init_name (size : nat) (source : text) : text :=
  let name := take (size - 1) source in
  name ++ replicate (size - length name) 0.

(** ** Splitting the memory map *)

Definition is_device_entry (entry : memory_map_entry) : bool :=
  match entry_type entry with MMT_DEVICE => true | _ => false end.

(** The largest power of two from the start of an entry, and what remains of it;
    [None] is a shift that is too wide. *)
Definition try_configure_generic_descriptor_from_memory_map (entry : memory_map_entry)
    : option (result (generic_descriptor * memory_map_entry) kernel_error) :=
  let start := start_physical_address entry in
  if negb (start mod PAGE_SIZE =? 0) then Some (Err KE_ILLEGAL_ARGUMENT)
  else
    let memory_size := wmul PAGE_SIZE (page_count entry) in
    memory_size_aligned_radix ← calculate_radix_floor memory_size;
    aligned_size ← shl 1 memory_size_aligned_radix;
    let descriptor := MkDescriptor start (wrap8 memory_size_aligned_radix) (is_device_entry entry) in
    let remain_address_start_raw := align_value (wadd start aligned_size) PAGE_SIZE in
    let remain_address_end_raw := wadd start (wmul PAGE_SIZE (page_count entry)) in
    let ceiled_remain_address_start := align_value remain_address_start_raw PAGE_SIZE in
    let floored_remain_address_end := align_value_floor remain_address_end_raw PAGE_SIZE in
    let remain_size :=
      align_value (wsub floored_remain_address_end ceiled_remain_address_start) PAGE_SIZE in
    Some (Ok (descriptor,
      if (ceiled_remain_address_start <? wadd start aligned_size)
         || (wadd start (wmul (page_count entry) PAGE_SIZE) <? floored_remain_address_end)
      then MkEntry 0 0 (entry_type entry)
      else MkEntry ceiled_remain_address_start (remain_size / PAGE_SIZE) (entry_type entry))).

(** [init.generic_list[slot_index] = ...]: an index outside of the list is
    undefined. *)
Definition write_descriptor (init : init_info) (slot_index : nat) (d : generic_descriptor)
    : option init_info :=
  if (slot_index <? length (generic_list init))%nat
  then Some (init <| generic_list ::= <[slot_index := d]> |>) else None.

(** The loop that splits the rest of an entry, with [turns] turns left. *)
Fixpoint split_remain (turns : nat) (remain : memory_map_entry) (slot_index : nat) (init : init_info)
    : option (result (nat * init_info) kernel_error) :=
  match turns with
  | O => Some (Ok (slot_index, init))
  | S turns' =>
      if page_count remain =? 0 then Some (Ok (slot_index, init))
      else
        r ← try_configure_generic_descriptor_from_memory_map remain;
        match r with
        | Err e => Some (Err e)
        | Ok (d, remain') =>
            init' ← write_descriptor init slot_index d;
            split_remain turns' remain' (S slot_index) init'
        end
  end.

(** The loop over the map, with [count] turns left: an entry outside of the array
    is undefined. *)
Fixpoint split_entries (count : nat) (entries : list memory_map_entry) (slot_index : nat) (init : init_info)
    : option (result init_info kernel_error) :=
  match count, entries with
  | O, _ => Some (Ok init)
  | S _, [] => None
  | S count', entry :: rest =>
      if decide (entry_type entry = MMT_RESERVED) then split_entries count' rest slot_index init
      else
        r ← try_configure_generic_descriptor_from_memory_map entry;
        match r with
        | Err e => Some (Err e)
        | Ok (d, remain) =>
            init1 ← write_descriptor init slot_index d;
            let init2 := init1 <| generic_list_count := Z.of_nat (S slot_index) |> in
            r ← split_remain (Z.to_nat GENERIC_RECURSIVE_SPLITTING_MAX) remain (S slot_index) init2;
            match r with
            | Err e => Some (Err e)
            | Ok (slot_index', init3) => split_entries count' rest slot_index' init3
            end
        end
  end.

(** An error leaves the descriptors written so far, which nobody reads: create_init
    fails. *)
Definition try_configure_init_generic_descriptors (memory : memory_info) (init : init_info)
    : option (result init_info kernel_error) :=
  if INITIAL_GENERIC_COUNT_MAX <? memory_map_count memory then Some (Err KE_ILLEGAL_ARGUMENT)
  else split_entries (Z.to_nat (memory_map_count memory)) (memory_map memory) 0 init.

(** ** The state of the boot *)

Record boot_state := MkBootState {
  allocator_current : Z;
  init_page : init_info;
}.
#[global] Instance eta_boot_state : Eta boot_state := λ x,
  MkBootState (allocator_current x) (init_page x).

Definition B (A : Type) : Type := boot_state → M (A * boot_state).
#[global] Instance B_ret : MRet B := λ A a b, mret (a, b).
#[global] Instance B_bind : MBind B := λ A C f m b, ab ← m b; f (fst ab) (snd ab).
Definition lift {A} (m : M A) : B A := λ b, a ← m; mret (a, b).

(** [TRY] and [and_then] in this phase. *)
Definition band_then {A C E} (m : B (result A E)) (f : A → B (result C E)) : B (result C E) :=
  r ← m; match r with Ok a => f a | Err e => mret (Err e) end.
Notation "'try' x := m 'in' n" := (band_then m (λ x, n))
  (at level 10, x pattern, m at level 200, n at level 200) : a9n_scope.
Definition bfail {A E} (e : E) : B (result A E) := mret (Err e).

Section boot.
Context `{config}.
(** The address of the static pool, and the names the build fixes. *)
Context (pool : Z) (KERNEL_VERSION A9N_ARCHITECTURE_NAME A9N_PLATFORM_NAME : text).

(** [init_allocator.allocate<T>(count, args...)]: [construct] runs the
    constructors of the objects at their address. *)
Definition init_allocate (size count : Z) (construct : Z → M unit) : B (result Z allocator_error) :=
  λ b,
    r ← defined (allocate (allocator_current b) size count);
    match r with
    | Err e => mret (Err e, b)
    | Ok (start, current) =>
        construct (pool + start);;
        mret (Ok (pool + start), b <| allocator_current := current |>)
    end.
Definition ballocate_or {E} (e : E) (m : B (result Z allocator_error)) : B (result Z E) :=
  r ← m; mret (transform_error (λ _, e) r).

(** [capability_slot()] for each element of an array at [a]. *)
Definition construct_slots (count a : Z) : M unit :=
  updates (λ k, k <| slots ::= make_slots a (Z.to_nat count) |>).
(** [page_size_memory()]: a page of zeros. *)
Fixpoint zero_words (count : nat) (a : Z) (m : gmap Z Z) : gmap Z Z :=
  match count with
  | O => m
  | S count' => <[a := 0]> (zero_words count' (a + 8) m)
  end.
Definition construct_page (a : Z) : M unit :=
  updates (λ k, k <| memory_words ::=
                      zero_words (Z.to_nat (PAGE_SIZE / 8)) (virtual_to_physical_address a) |>).

(** ** Creation *)

(** The page that [init_info] is written to must have an address. *)
Definition try_create_init_info (info : boot_info) : kernel_result :=
  let image := boot_init_image_info info in
  if wadd (loaded_address image) (init_info_address image) =? 0 then Err KE_NO_SUCH_ADDRESS else Ok tt.

Definition try_create_process_control_block_slot : B (result slot_ref kernel_error) :=
  try a := ballocate_or KE_UNEXPECTED (init_allocate sizeof_capability_slot 1 (construct_slots 1)) in
  mret (Ok (array_slot a 0)).

Definition try_create_process_control_block (slot : slot_ref) : B (result Z kernel_error) :=
  try pcb := ballocate_or KE_UNEXPECTED
               (init_allocate sizeof_process_control_block 1 make_process_control_block) in
  try _ := lift (try_configure_process_control_block_slot slot pcb) in
  mret (Ok pcb).

(** The slot that receives the Node, and the Node: [capability_instance]. *)
Definition try_make_node (slot : slot_ref) (radix : Z) : B (result (slot_ref * Z) kernel_error) :=
  slots_count ← lift (defined (shl 1 radix));
  try slots := ballocate_or KE_UNEXPECTED
                 (init_allocate sizeof_capability_slot slots_count (construct_slots slots_count)) in
  try node := ballocate_or KE_UNEXPECTED
                (init_allocate sizeof_capability_node 1
                   (λ a, updates (λ k, k <| nodes ::= <[a := make_node 0 radix (Some slots)]> |>))) in
  try _ := lift (try_configure_capability_node_slot slot node) in
  mret (Ok (slot, node)).

(** [slot.component->retrieve_slot(index)] with the error as KE_NO_SUCH_ADDRESS. *)
Definition retrieve_from (slot : slot_ref) (index : Z) (e : kernel_error) : M (result slot_ref kernel_error) :=
  sv ← load slots slot;
  c ← defined (component sv);
  map_error (λ _, e) (retrieve_slot c index).

Definition try_make_init_node (root_node : slot_ref * Z) (index radix : Z)
    : B (result (slot_ref * Z) kernel_error) :=
  try target_slot := lift (retrieve_from (fst root_node) index KE_NO_SUCH_ADDRESS) in
  try_make_node target_slot radix.

Definition try_create_init_process_nodes (pcb_slot : slot_ref) (pcb : Z) : B kernel_result :=
  let root_slot := process_slot_ref pcb ROOT_SLOT in
  let radix n := lift (defined (calculate_radix_floor n)) in
  root_radix ← radix INITIAL_PROCESS_ROOT_NODE_COUNT;
  try root_node := try_make_node root_slot root_radix in
  let in_root index :=
    lift (map_error (λ _, KE_NO_SUCH_ADDRESS) (node_retrieve_slot (snd root_node) index)) in
  try s := in_root OFFSET_PROCESS_CONTROL_BLOCK in
  try _ := lift (try_copy_capability_slot s pcb_slot) in
  try s := in_root OFFSET_PROCESS_ROOT_NODE in
  try _ := lift (try_copy_capability_slot s root_slot) in
  page_radix ← radix INITIAL_PAGE_TABLE_COUNT_MAX;
  try _ := try_make_init_node root_node OFFSET_PROCESS_PAGE_TABLE_NODE page_radix in
  frame_radix ← radix INITIAL_FRAME_COUNT_MAX;
  try _ := try_make_init_node root_node OFFSET_PROCESS_FRAME_NODE frame_radix in
  generic_radix ← radix INITIAL_GENERIC_COUNT_MAX;
  try _ := try_make_init_node root_node OFFSET_GENERIC_NODE generic_radix in
  mret (Ok tt).

Definition try_create_init_process_control_block : B (result (slot_ref * Z) kernel_error) :=
  try slot := try_create_process_control_block_slot in
  try pcb := try_create_process_control_block slot in
  try _ := try_create_init_process_nodes slot pcb in
  mret (Ok (slot, pcb)).

(** ** Configuration *)

Definition try_configure_init_info (boot : boot_info) : B kernel_result := λ b,
  let version := parse_version KERNEL_VERSION in
  let info := (init_page b)
    <| kernel_major_version := major version |> <| kernel_minor_version := minor version |>
    <| kernel_patch_version := patch version |> <| kernel_pre_release := pre_release version |>
    <| kernel_build_meta_data := build_meta_data version |>
    <| architecture_name := copy_init_name INIT_NAME_SIZE A9N_ARCHITECTURE_NAME |>
    <| platform_name := copy_init_name INIT_NAME_SIZE A9N_PLATFORM_NAME |>
    <| init_core_count := core_count |> <| init_arch_info := arch_info boot |>
    <| init_ipc_buffer := init_ipc_buffer_address (boot_init_image_info boot) |> in
  r ← defined (try_configure_init_generic_descriptors (boot_memory_info boot) info);
  match r with
  | Err e => mret (Err e, b <| init_page := info |>)
  | Ok info' => mret (Ok tt, b <| init_page := info' |>)
  end.

Definition try_configure_init_io_ports (pcb : Z) : M kernel_result :=
  let? slot := retrieve_from (process_slot_ref pcb ROOT_SLOT) OFFSET_IO_PORT KE_NO_SUCH_ADDRESS in
  try_configure_io_port_slot slot (MkRange 0 (2 ^ 64 - 1)).

Definition try_configure_init_root_address_space (pcb : Z) : B kernel_result :=
  try root_table_memory := ballocate_or KE_NO_SUCH_ADDRESS (init_allocate PAGE_SIZE 1 construct_page) in
  try table := lift (map_error convert_hal_to_kernel_error
                 (make_address_space (virtual_to_physical_address root_table_memory))) in
  let target_slot := process_slot_ref pcb ROOT_ADDRESS_SPACE in
  lift (let? target_init_slot := retrieve_from (process_slot_ref pcb ROOT_SLOT)
                                   OFFSET_PROCESS_ADDRESS_SPACE KE_NO_SUCH_ADDRESS in
        let? _ := try_configure_address_space_slot target_slot table in
        let? _ := try_remove_and_init target_init_slot in
        try_copy_capability_slot target_init_slot target_slot).

(** The slot of the root node that holds another Node, for the three loops. *)
Definition init_node_slot (pcb offset : Z) : M (result slot_ref kernel_error) :=
  rv ← load slots (process_slot_ref pcb ROOT_SLOT);
  if negb (bool_decide (is_Some (component rv))) || negb (bool_decide (type rv = CT_NODE))
  then fail KE_INIT_FIRST
  else
    let? slot := retrieve_from (process_slot_ref pcb ROOT_SLOT) offset KE_NO_SUCH_ADDRESS in
    sv ← load slots slot;
    if negb (bool_decide (is_Some (component sv))) || negb (bool_decide (type sv = CT_NODE))
    then fail KE_INIT_FIRST
    else mret (Ok slot).

Definition FRAME_SIZE : Z := 2 ^ INITIAL_FRAME_SIZE_BITS.

Definition root_table_of (pcb : Z) : M page_table :=
  av ← load slots (process_slot_ref pcb ROOT_ADDRESS_SPACE);
  mret (convert_slot_data_to_page_table (data av)).

Definition allocate_and_map_page_table (root_table : page_table) (page_node_slot : slot_ref)
    (page_table_slot_index depth map_address : Z) : B kernel_result :=
  try memory := ballocate_or KE_UNEXPECTED (init_allocate PAGE_SIZE 1 construct_page) in
  let table := make_page_table (virtual_to_physical_address memory) depth in
  lift (let? _ := map_error (λ _, KE_NO_SUCH_ADDRESS)
                    (map_page_table root_table table map_address MEMORY_ALL) in
        let? slot := retrieve_from page_node_slot page_table_slot_index KE_NO_SUCH_ADDRESS in
        try_configure_page_table_slot slot table).

(** [for (map_address = 0; map_address <= last_mapped_virtual_address;)] *)
Fixpoint init_page_tables_loop (fuel : nat) (root_table : page_table) (page_node_slot : slot_ref)
    (last page_table_slot_index map_address : Z) : B kernel_result :=
  if last <? map_address then mret (Ok tt)
  else
    match fuel with
    | O => lift out_of_fuel
    | S fuel' =>
        try unset_depth := lift (map_error (λ _, KE_NO_SUCH_ADDRESS)
              (search_unset_page_table_depth root_table map_address INITIAL_FRAME_SIZE_BITS)) in
        if unset_depth =? 0
        then init_page_tables_loop fuel' root_table page_node_slot last page_table_slot_index
               (wadd map_address FRAME_SIZE)
        else
          try _ := allocate_and_map_page_table root_table page_node_slot page_table_slot_index
                     unset_depth map_address in
          init_page_tables_loop fuel' root_table page_node_slot last
            (wadd page_table_slot_index 1) map_address
    end.

(** A turn goes on to the next address or takes a page of the pool. *)
Definition try_configure_init_page_tables (pcb : Z) (info : init_image_info) : B kernel_result :=
  try page_node_slot := lift (init_node_slot pcb OFFSET_PROCESS_PAGE_TABLE_NODE) in
  root_table ← lift (root_table_of pcb);
  let last := wmul (init_image_size info) FRAME_SIZE in
  init_page_tables_loop (Z.to_nat (init_image_size info + 2 + POOL_SIZE / PAGE_SIZE)) root_table
    page_node_slot last 0 0.

(** The frame that holds the IPC buffer is shared with two more slots. *)
Definition configure_ipc_buffer_frame (pcb : Z) (target_slot : slot_ref) (target_frame : frame)
    : M kernel_result :=
  modify processes pcb
    (λ p, p <| buffer := Some (physical_to_virtual_address (frame_address target_frame)) |>);;
  let? buffer_slot := retrieve_from (process_slot_ref pcb ROOT_SLOT) OFFSET_PROCESS_IPC_BUFFER_FRAME
                        KE_UNEXPECTED in
  let? _ := try_configure_frame_slot buffer_slot target_frame in
  let? _ := try_configure_frame_slot (process_slot_ref pcb BUFFER_FRAME) target_frame in
  insert_sibling target_slot buffer_slot;;
  insert_sibling target_slot (process_slot_ref pcb BUFFER_FRAME);;
  ok.

Definition configure_init_frame (pcb : Z) (info : init_image_info) (root_table : page_table)
    (frame_node_slot : slot_ref) (i : Z) : M kernel_result :=
  let base_address := wadd (loaded_address info) (wmul FRAME_SIZE i) in
  let map_address := wmul FRAME_SIZE i in
  let target_frame := MkFrame base_address INITIAL_FRAME_SIZE_BITS 0 in
  let? _ := map_error (λ _, KE_UNEXPECTED) (map_frame root_table target_frame map_address MEMORY_ALL) in
  let? target_slot := retrieve_from frame_node_slot i KE_NO_SUCH_ADDRESS in
  let? _ := try_configure_frame_slot target_slot target_frame in
  if negb (base_address =? wadd (loaded_address info) (init_ipc_buffer_address info)) then ok
  else configure_ipc_buffer_frame pcb target_slot target_frame.

(** [for (auto i = 0; i < info.init_image_size; i++)], with [turns] turns left. *)
Fixpoint init_frames_loop (turns : nat) (pcb : Z) (info : init_image_info) (root_table : page_table)
    (frame_node_slot : slot_ref) (i : Z) : M kernel_result :=
  match turns with
  | O => ok
  | S turns' =>
      let? _ := configure_init_frame pcb info root_table frame_node_slot i in
      i' ← defined (increment_int i);
      init_frames_loop turns' pcb info root_table frame_node_slot i'
  end.
Definition try_configure_init_frames (pcb : Z) (info : init_image_info) : M kernel_result :=
  let? frame_node_slot := init_node_slot pcb OFFSET_PROCESS_FRAME_NODE in
  root_table ← root_table_of pcb;
  init_frames_loop (Z.to_nat (init_image_size info)) pcb info root_table frame_node_slot 0.

(** The answer of [retrieve_slot] is unwrapped unchecked. *)
Fixpoint init_generics_loop (turns : nat) (info : init_info) (generic_node_slot : slot_ref) (i : Z)
    : M kernel_result :=
  match turns with
  | O => ok
  | S turns' =>
      d ← defined (generic_list info !! Z.to_nat i);
      r ← retrieve_from generic_node_slot i KE_NO_SUCH_ADDRESS;
      match r with
      | Err _ => undefined
      | Ok generic_slot =>
          let? _ := try_configure_generic_slot generic_slot
                      (MkGenericInfo (descriptor_address d) (size_radix d) (descriptor_address d)
                         (is_device d)) in
          init_generics_loop turns' info generic_node_slot (i + 1)
      end
  end.
Definition try_configure_init_generics (pcb : Z) (info : init_info) : M kernel_result :=
  let? generic_node_slot := init_node_slot pcb OFFSET_GENERIC_NODE in
  init_generics_loop (Z.to_nat (generic_list_count info)) info generic_node_slot 0.

Definition try_configure_interrupt_region_slot (slot : slot_ref) : M kernel_result :=
  modify slots slot
    (λ _, initial_slot <| component := Some C_INTERRUPT_REGION |> <| type := CT_INTERRUPT_REGION |>
            <| rights := RIGHTS_ALL |>);;
  ok.
Definition try_configure_init_interrupt_region (pcb : Z) : M kernel_result :=
  let? slot := retrieve_from (process_slot_ref pcb ROOT_SLOT) OFFSET_INTERRUPT_REGION
                 KE_NO_SUCH_ADDRESS in
  try_configure_interrupt_region_slot slot.

Definition try_configure_init_address_space (pcb : Z) (boot : boot_info) : B kernel_result :=
  try _ := try_configure_init_root_address_space pcb in
  try _ := try_configure_init_page_tables pcb (boot_init_image_info boot) in
  try _ := lift (try_configure_init_frames pcb (boot_init_image_info boot)) in
  try _ := (λ b, lift (try_configure_init_generics pcb (init_page b)) b) in
  lift (try_configure_init_interrupt_region pcb).

(** The name of the process is not modelled. *)
Definition try_configure_init_process_control_block (pcb : Z) (boot : boot_info) : B kernel_result :=
  lift (modify processes pcb (λ p, p <| registers := fst (init_hardware_context CM_USER) |>);;
        configure_floating_context pcb;;
        configure_general_register pcb RT_INSTRUCTION_POINTER
          (entry_point_address (boot_init_image_info boot));;
        modify processes pcb (λ p, p <| priority := PRIORITY_MAX - 1 |>));;
  try _ := lift (try_configure_init_io_ports pcb) in
  try _ := try_configure_init_address_space pcb boot in
  lift (mark_scheduled_on BSP_ID pcb).

Definition create_init (boot : boot_info) : B kernel_result :=
  try _ := lift (mret (try_create_init_info boot)) in
  try slot_pcb := try_create_init_process_control_block in
  try _ := try_configure_init_info boot in
  try_configure_init_process_control_block (snd slot_pcb) boot.

End boot.
