(* ===== verification/BootProofs.v ===== *)
(** Properties of the boot: how the memory map is split into Generics. *)

From S2P Require Import Prelude Word Types Dll Kernel Slot Hal Node Memory Scheduler.
From S2P Require Import ProcessManager Queues Generic Devices Print Version Reclamation Boot.

(** ** One entry *)

(** An entry the boot loader may pass: aligned, not empty, and below 2^64. *)
Record entry_ok (e : memory_map_entry) : Prop := {
  entry_aligned : start_physical_address e mod PAGE_SIZE = 0;
  entry_start : 0 ≤ start_physical_address e;
  entry_pages : 0 < page_count e;
  entry_end : start_physical_address e + PAGE_SIZE * page_count e < 2 ^ 64 - PAGE_SIZE;
}.

(** The largest power of two of pages, and the pages behind it. *)
Definition largest (e : memory_map_entry) : Z := 2 ^ Z.log2 (page_count e).
Definition remaining (e : memory_map_entry) : memory_map_entry :=
  MkEntry (start_physical_address e + PAGE_SIZE * largest e) (page_count e - largest e) (entry_type e).

Lemma largest_bounds e : 0 < page_count e → 1 ≤ largest e ≤ page_count e ∧ page_count e < 2 * largest e.
Proof.
  intros Hp. unfold largest. pose proof (Z.log2_spec _ Hp) as Hs. pose proof (Z.log2_nonneg (page_count e)).
  rewrite Z.pow_succ_r in Hs by lia. pose proof (Z.pow_pos_nonneg 2 (Z.log2 (page_count e))). lia.
Qed.

Lemma calculate_radix_floor_log2 value : 0 < value < 2 ^ 64 → calculate_radix_floor value = Some (Z.log2 value).
Proof.
  intros Hv. pose proof (log2_word value Hv) as Hl.
  unfold calculate_radix_floor, round_down_power_of_2. rewrite (proj2 (Z.eqb_neq value 0)) by lia.
  replace (WORD_BITS - 1 - clz value) with (Z.log2 value).
  2: { unfold clz, WORD_BITS. destruct (Z.eqb_spec value 0); lia. }
  rewrite shl_1 by done. cbn [fmap option_fmap option_map].
  rewrite calculate_radix_log2, Z.log2_pow2; [done|lia|].
  split; [apply Z.pow_pos_nonneg; lia|apply Z.pow_lt_mono_r; lia].
Qed.

Lemma align_page x : x mod PAGE_SIZE = 0 → 0 ≤ x < 2 ^ 64 - PAGE_SIZE → align_value x PAGE_SIZE = x.
Proof.
  unfold PAGE_SIZE. intros Hm Hx. apply Z.mod_divide in Hm as [q ->]; [|done]. unfold align_value.
  rewrite (proj2 (Z.eqb_neq 4096 0)) by lia. rewrite wadd_id, wsub_id by lia.
  replace (q * 4096 + 4096 - 1) with (4095 + q * 4096) by lia.
  rewrite Z.div_add, Z.div_small by lia. rewrite wmul_id by lia. lia.
Qed.
Lemma align_floor_page x : x mod PAGE_SIZE = 0 → 0 ≤ x < 2 ^ 64 → align_value_floor x PAGE_SIZE = x.
Proof.
  unfold PAGE_SIZE. intros Hm Hx. apply Z.mod_divide in Hm as [q ->]; [|done]. unfold align_value_floor.
  rewrite (proj2 (Z.eqb_neq 4096 0)), Z.div_mul, wmul_id by lia. lia.
Qed.

Lemma page_multiple x n : x mod PAGE_SIZE = 0 → (x + PAGE_SIZE * n) mod PAGE_SIZE = 0.
Proof. intros Hx. unfold PAGE_SIZE in *. by rewrite (Z.mul_comm 4096), Z.mod_add by lia. Qed.

(** The descriptor of an entry, and its remainder, without wrap-around. *)
Lemma configure_descriptor_spec e :
  entry_ok e →
  try_configure_generic_descriptor_from_memory_map e =
  Some (Ok (MkDescriptor (start_physical_address e) (12 + Z.log2 (page_count e)) (is_device_entry e),
            remaining e)).
Proof.
  intros [Ha Hs Hp He]. pose proof (largest_bounds e Hp) as Hl. pose proof (Z.log2_nonneg (page_count e)) as Hn.
  unfold try_configure_generic_descriptor_from_memory_map. rewrite Ha. cbn [Z.eqb negb].
  assert (PAGE_SIZE = 2 ^ 12) as Eps by done.
  assert (PAGE_SIZE = 4096) as Ep by done.
  assert (0 < PAGE_SIZE * largest e ≤ PAGE_SIZE * page_count e ∧
          PAGE_SIZE * (page_count e - largest e) = PAGE_SIZE * page_count e - PAGE_SIZE * largest e)
    as [Hb Hd] by (unfold PAGE_SIZE; lia).
  rewrite !wmul_id by lia.
  rewrite calculate_radix_floor_log2 by lia.
  assert (Z.log2 (PAGE_SIZE * page_count e) = 12 + Z.log2 (page_count e)) as Elog.
  { rewrite Eps, Z.mul_comm. rewrite Z.log2_mul_pow2 by lia. lia. }
  assert (12 + Z.log2 (page_count e) < 64) as Hlt.
  { rewrite <- Elog. apply log2_word. lia. }
  cbn [mbind option_bind]. rewrite Elog, shl_1 by lia.
  replace (2 ^ (12 + Z.log2 (page_count e))) with (PAGE_SIZE * largest e)
    by (unfold largest; by rewrite Z.pow_add_r by lia).
  cbn [mbind option_bind].
  rewrite !wadd_id by lia.
  rewrite !(align_page (start_physical_address e + PAGE_SIZE * largest e)) by (by apply page_multiple || lia).
  rewrite align_floor_page by (by apply page_multiple || lia).
  rewrite wsub_id by lia.
  replace (start_physical_address e + PAGE_SIZE * page_count e - (start_physical_address e + PAGE_SIZE * largest e))
    with (0 + PAGE_SIZE * (page_count e - largest e)) by lia.
  rewrite align_page by (by apply page_multiple || lia).
  rewrite Z.add_0_l, (Z.mul_comm PAGE_SIZE (page_count e - largest e)), Z.div_mul, wrap8_id by lia.
  replace (_ || _) with false; [done|]. symmetry. apply orb_false_iff.
  split; apply Z.ltb_ge; lia.
Qed.

(** ** The pieces of an entry *)

(** What a run of [turns] splits cuts from an entry. *)
Fixpoint pieces (turns : nat) (e : memory_map_entry) : list generic_descriptor :=
  match turns with
  | O => []
  | S turns' =>
      if page_count e =? 0 then []
      else MkDescriptor (start_physical_address e) (12 + Z.log2 (page_count e)) (is_device_entry e)
             :: pieces turns' (remaining e)
  end.

Definition entry_turns : nat := S (Z.to_nat GENERIC_RECURSIVE_SPLITTING_MAX).

(** [n] descriptors written from [i] on. *)
Definition put (i : nat) (ds old : list generic_descriptor) : list generic_descriptor :=
  take i old ++ ds ++ drop (i + length ds) old.

Lemma put_nil i old : (i ≤ length old)%nat → put i [] old = old.
Proof. intros. unfold put. cbn. rewrite Nat.add_0_r. apply take_drop. Qed.
Lemma put_length i ds old : (i + length ds ≤ length old)%nat → length (put i ds old) = length old.
Proof. intros. unfold put. rewrite !length_app, length_take, length_drop. lia. Qed.
Lemma put_cons i d ds old :
  (i + S (length ds) ≤ length old)%nat → put (S i) ds (<[i := d]> old) = put i (d :: ds) old.
Proof.
  intros Hl. unfold put. cbn [length].
  rewrite (take_S_r _ i d) by (apply list_lookup_insert_eq; lia).
  rewrite take_insert_ge by lia. rewrite drop_insert_lt by lia.
  rewrite <- app_assoc. cbn. do 3 f_equal. by replace (S (i + length ds)) with (i + S (length ds))%nat by lia.
Qed.
Lemma put_app i ds ds' old :
  (i + length ds + length ds' ≤ length old)%nat →
  put (i + length ds) ds' (put i ds old) = put i (ds ++ ds') old.
Proof.
  revert i old. induction ds as [|d ds IH]; intros i old Hl; cbn [length app] in *.
  - rewrite put_nil, Nat.add_0_r by lia. done.
  - rewrite <- !put_cons by (rewrite ?length_app; lia).
    rewrite <- IH by (rewrite length_insert; lia). f_equal. lia.
Qed.

(** An entry, or the empty remainder of one. *)
Definition entry_part (e : memory_map_entry) : Prop := page_count e = 0 ∨ entry_ok e.

Lemma remaining_part e : entry_ok e → entry_part (remaining e).
Proof.
  intros [Ha Hs Hp He]. pose proof (largest_bounds e Hp) as Hl.
  destruct (decide (page_count (remaining e) = 0)) as [|Hn]; [by left|right].
  cbn in Hn. split; cbn; [by apply page_multiple|unfold PAGE_SIZE in *; lia..].
Qed.

Lemma pieces_ok turns e : entry_ok e → pieces (S turns) e =
  MkDescriptor (start_physical_address e) (12 + Z.log2 (page_count e)) (is_device_entry e)
    :: pieces turns (remaining e).
Proof. intros [_ _ Hp _]. cbn [pieces]. by rewrite (proj2 (Z.eqb_neq _ 0)) by lia. Qed.

Lemma put_nothing init i :
  (i ≤ length (generic_list init))%nat → init <| generic_list ::= put i [] |> = init.
Proof.
  intros Hl. transitivity (init <| generic_list := generic_list init |>); [|by destruct init].
  unfold upd. by rewrite put_nil.
Qed.
Lemma put_one_more init i d ds :
  (i + S (length ds) ≤ length (generic_list init))%nat →
  init <| generic_list ::= <[i := d]> |> <| generic_list ::= put (S i) ds |> =
  init <| generic_list ::= put i (d :: ds) |>.
Proof. intros Hl. unfold upd. cbn [generic_list]. by rewrite put_cons. Qed.

Lemma split_remain_spec turns e i init :
  entry_part e → (i + length (pieces turns e) ≤ length (generic_list init))%nat →
  split_remain turns e i init =
  Some (Ok ((i + length (pieces turns e))%nat, init <| generic_list ::= put i (pieces turns e) |>)).
Proof.
  revert e i init. induction turns as [|turns IH]; intros e i init He Hl.
  - cbn [split_remain pieces length] in *. rewrite Nat.add_0_r in *. by rewrite put_nothing.
  - destruct He as [He|He].
    + cbn [split_remain pieces] in *. rewrite He in *. cbn [Z.eqb length] in *. rewrite Nat.add_0_r in *.
      by rewrite put_nothing.
    + rewrite pieces_ok in Hl |- * by done. cbn [split_remain length] in *.
      rewrite (proj2 (Z.eqb_neq _ 0)) by (destruct He; lia).
      rewrite configure_descriptor_spec by done. cbn [mbind option_bind].
      unfold write_descriptor. rewrite (proj2 (Nat.ltb_lt _ _)) by lia. cbn [mbind option_bind].
      rewrite IH; [|by apply remaining_part|cbn [upd generic_list]; rewrite length_insert; lia].
      rewrite put_one_more by lia. do 3 f_equal. lia.
Qed.

(** ** The map *)

Definition usable (e : memory_map_entry) : bool :=
  match entry_type e with MMT_RESERVED => false | _ => true end.

(** The descriptors of a map, in order. *)
Fixpoint descriptors (entries : list memory_map_entry) : list generic_descriptor :=
  match entries with
  | [] => []
  | e :: rest => if usable e then pieces entry_turns e ++ descriptors rest else descriptors rest
  end.

(** How many of them the init process is told of: up to the first piece of the
    last entry. *)
Fixpoint exposed (entries : list memory_map_entry) (i : nat) (n : Z) : Z :=
  match entries with
  | [] => n
  | e :: rest =>
      if usable e then exposed rest (i + length (pieces entry_turns e)) (Z.of_nat (S i))
      else exposed rest i n
  end.

Lemma exposed_unusable entries i n :
  Forall (λ e, usable e = false) entries → exposed entries i n = n.
Proof. induction 1 as [|e entries He _ IH]; [done|]. cbn [exposed]. by rewrite He. Qed.

(** All the pieces before the last usable entry, and the first of its own. *)
Lemma exposed_last before e after i n :
  usable e = true → Forall (λ e, usable e = false) after →
  exposed (before ++ e :: after) i n = Z.of_nat (i + length (descriptors before) + 1).
Proof.
  intros He Ha. revert i n. induction before as [|b before IH]; intros i n; cbn [app exposed descriptors].
  - rewrite He, exposed_unusable by done. cbn [length]. lia.
  - destruct (usable b); [|apply IH]. rewrite IH, length_app. f_equal. lia.
Qed.

Lemma split_entries_spec entries : ∀ i init,
  Forall (λ e, usable e = true → entry_ok e) entries →
  (i + length (descriptors entries) ≤ length (generic_list init))%nat →
  ∀ rest, split_entries (length entries) (entries ++ rest) i init =
  Some (Ok (init <| generic_list ::= put i (descriptors entries) |>
                 <| generic_list_count ::= exposed entries i |>)).
Proof.
  induction entries as [|e entries IH]; intros i init Hok Hl rest.
  - cbn [length split_entries exposed descriptors] in *. rewrite put_nothing by lia. by destruct init.
  - apply Forall_cons in Hok as [He Hok]. cbn [length split_entries app exposed descriptors] in *.
    destruct (usable e) eqn:Hu.
    + rewrite decide_False by (unfold usable in Hu; by destruct (entry_type e)).
      specialize (He eq_refl). rewrite length_app in Hl. unfold entry_turns in *.
      rewrite (pieces_ok _ e He) in Hl |- *. cbn [length] in Hl |- *.
      rewrite configure_descriptor_spec by done. cbn [mbind option_bind].
      unfold write_descriptor. rewrite (proj2 (Nat.ltb_lt _ _)) by lia. cbn [mbind option_bind].
      rewrite split_remain_spec; [|by apply remaining_part|cbn [upd generic_list]; rewrite length_insert; lia].
      cbn [mbind option_bind].
      rewrite IH; [|done|cbn [upd generic_list]; rewrite put_length, length_insert; rewrite ?length_insert; lia].
      unfold upd. cbn [generic_list generic_list_count kernel_major_version kernel_minor_version
        kernel_patch_version kernel_pre_release kernel_build_meta_data architecture_name platform_name
        init_core_count init_arch_info init_ipc_buffer]. do 3 f_equal.
      * rewrite put_app by (rewrite length_insert; lia). by rewrite put_cons by (rewrite length_app; lia).
      * f_equal. lia.
    + rewrite decide_True by (unfold usable in Hu; by destruct (entry_type e)).
      by rewrite IH.
Qed.

(** ** What the descriptors cover *)

Definition descriptor_end (d : generic_descriptor) : Z := descriptor_address d + 2 ^ size_radix d.
Definition entry_end_address (e : memory_map_entry) : Z :=
  start_physical_address e + PAGE_SIZE * page_count e.

(** A descriptor of memory of the entry, of its kind. *)
Record piece_of (e : memory_map_entry) (d : generic_descriptor) : Prop := {
  piece_low : start_physical_address e ≤ descriptor_address d;
  piece_high : descriptor_end d ≤ entry_end_address e;
  piece_aligned : descriptor_address d mod PAGE_SIZE = 0;
  piece_radix : 12 ≤ size_radix d < 64;
  piece_device : is_device d = is_device_entry e;
}.

(** The descriptors lie end to end from [a] on, and the last one ends at the
    result. *)
Inductive end_to_end : Z → list generic_descriptor → Z → Prop :=
| end_to_end_nil a : end_to_end a [] a
| end_to_end_cons d ds b :
    end_to_end (descriptor_end d) ds b → end_to_end (descriptor_address d) (d :: ds) b.

(** The pages that are left after some splits. *)
Fixpoint lost (turns : nat) (e : memory_map_entry) : Z :=
  match turns with
  | O => page_count e
  | S turns' => if page_count e =? 0 then 0 else lost turns' (remaining e)
  end.

Lemma first_end e dev : 
  0 < page_count e →
  descriptor_end (MkDescriptor (start_physical_address e) (12 + Z.log2 (page_count e)) dev)
  = start_physical_address (remaining e).
Proof.
  intros Hp. unfold descriptor_end. cbn. rewrite Z.pow_add_r by (try apply Z.log2_nonneg; lia).
  unfold largest. change PAGE_SIZE with (2 ^ 12). lia.
Qed.

Lemma remaining_end e : entry_end_address (remaining e) = entry_end_address e.
Proof. unfold entry_end_address. cbn. lia. Qed.

Lemma lost_nonneg turns e : entry_part e → 0 ≤ lost turns e.
Proof.
  revert e. induction turns as [|turns IH]; intros e He; cbn [lost].
  - destruct He as [->|[]]; lia.
  - destruct (Z.eqb_spec (page_count e) 0); [lia|]. destruct He as [?|He]; [lia|]. by apply IH, remaining_part.
Qed.

Lemma pieces_end_to_end turns e :
  entry_part e →
  end_to_end (start_physical_address e) (pieces turns e) (entry_end_address e - PAGE_SIZE * lost turns e).
Proof.
  revert e. induction turns as [|turns IH]; intros e He; cbn [lost].
  - cbn. replace (_ - _) with (start_physical_address e) by (unfold entry_end_address; lia). constructor.
  - destruct He as [He|He].
    + cbn [pieces]. rewrite He. cbn [Z.eqb]. unfold entry_end_address. rewrite He.
      replace (_ - _) with (start_physical_address e) by lia. constructor.
    + rewrite pieces_ok by done. rewrite (proj2 (Z.eqb_neq _ 0)) by (destruct He; lia).
      refine (end_to_end_cons (MkDescriptor (start_physical_address e) (12 + Z.log2 (page_count e))
        (is_device_entry e)) _ _ _). rewrite first_end by apply He.
      rewrite <- remaining_end. by apply IH, remaining_part.
Qed.

(** Each split at least halves what is left. *)
Lemma lost_bound turns e : entry_ok e → lost turns e * 2 ^ Z.of_nat turns < 2 * largest e.
Proof.
  revert e. induction turns as [|turns IH]; intros e He; pose proof (largest_bounds e (entry_pages e He)) as Hl.
  - cbn. lia.
  - cbn [lost]. rewrite (proj2 (Z.eqb_neq _ 0)) by (destruct He; lia).
    destruct (remaining_part e He) as [Hr|Hr].
    + assert (lost turns (remaining e) = 0) as ->; [|lia].
      destruct turns; cbn [lost]; [done|]. by rewrite Hr.
    + specialize (IH _ Hr). rewrite Nat2Z.inj_succ, Z.pow_succ_r by lia.
      enough (2 * largest (remaining e) ≤ largest e) by lia.
      unfold largest at 1. rewrite <- Z.pow_succ_r by apply Z.log2_nonneg. apply Z.pow_le_mono_r; [lia|].
      apply Z.le_succ_l. apply Z.log2_lt_pow2; [apply Hr|]. cbn. unfold largest in *. lia.
Qed.

Lemma pieces_of turns e e' :
  entry_part e' → start_physical_address e ≤ start_physical_address e' →
  entry_end_address e' ≤ entry_end_address e → entry_type e' = entry_type e →
  Forall (piece_of e) (pieces turns e').
Proof.
  revert e'. induction turns as [|turns IH]; intros e' He Hs Hend Ht; [by constructor|].
  destruct He as [He|He]; [cbn; rewrite He; by constructor|]. rewrite pieces_ok by done.
  pose proof He as [Ha Hz Hp Hlt]. pose proof (largest_bounds e' Hp) as Hl.
  pose proof (remaining_part e' He) as Hr.
  constructor.
  - split; cbn [descriptor_address size_radix is_device]; try done.
    + rewrite first_end by done. unfold entry_end_address in *. cbn. unfold PAGE_SIZE in *. lia.
    + pose proof (Z.log2_nonneg (page_count e')). split; [lia|].
      enough (Z.log2 (page_count e') < 52) by lia. apply Z.log2_lt_pow2; [done|]. unfold PAGE_SIZE in *. lia.
    + unfold is_device_entry. by rewrite Ht.
  - apply IH; try done; [|by rewrite remaining_end]. cbn. unfold PAGE_SIZE. lia.
Qed.

(** ** Disjointness *)

Fixpoint pairwise {A} (R : A → A → Prop) (l : list A) : Prop :=
  match l with [] => True | x :: l' => Forall (R x) l' ∧ pairwise R l' end.

Lemma pairwise_app {A} (R : A → A → Prop) l l' :
  pairwise R l → pairwise R l' → Forall (λ x, Forall (R x) l') l → pairwise R (l ++ l').
Proof.
  induction l as [|x l IH]; [done|]. cbn. intros [Hx Hl] Hl' [Hxl' Hll']%Forall_cons.
  split; [by apply Forall_app|by apply IH].
Qed.

Definition apart (d d' : generic_descriptor) : Prop :=
  descriptor_end d ≤ descriptor_address d' ∨ descriptor_end d' ≤ descriptor_address d.
Definition entries_apart (e e' : memory_map_entry) : Prop :=
  entry_end_address e ≤ start_physical_address e' ∨ entry_end_address e' ≤ start_physical_address e.

Lemma end_to_end_after a ds b : end_to_end a ds b → Forall (λ d, a ≤ descriptor_address d) ds.
Proof.
  induction 1 as [|d ds b _ IH]; [by constructor|]. constructor; [lia|].
  eapply Forall_impl; [exact IH|]. cbn. intros d' Hd'. unfold descriptor_end in Hd'.
  pose proof (Z.pow_nonneg 2 (size_radix d)). lia.
Qed.
Lemma end_to_end_apart a ds b : end_to_end a ds b → pairwise apart ds.
Proof.
  induction 1 as [|d ds b H IH]; [done|]. split; [|done].
  eapply Forall_impl; [exact (end_to_end_after _ _ _ H)|]. intros d' Hd'. by left.
Qed.

Lemma descriptors_of entries :
  Forall (λ e, usable e = true → entry_ok e) entries →
  Forall (λ d, ∃ e, e ∈ entries ∧ usable e = true ∧ piece_of e d) (descriptors entries).
Proof.
  induction 1 as [|e entries He _ IH]; [by constructor|]. cbn [descriptors].
  assert (Forall (λ d, ∃ e', e' ∈ e :: entries ∧ usable e' = true ∧ piece_of e' d) (descriptors entries)) as IH'.
  { eapply Forall_impl; [exact IH|]. cbn. intros d (e' & ? & ? & ?). exists e'. split; [by right|done]. }
  destruct (usable e) eqn:Hu; [|done]. apply Forall_app. split; [|done].
  eapply Forall_impl; [apply (pieces_of entry_turns e e); [right; by apply He|lia|lia|done]|].
  intros d Hd. exists e. split; [by left|done].
Qed.

Lemma pieces_apart e e' d d' : entries_apart e e' → piece_of e d → piece_of e' d' → apart d d'.
Proof. intros [H|H] [] []; [left|right]; lia. Qed.

Lemma descriptors_apart entries :
  Forall (λ e, usable e = true → entry_ok e) entries → pairwise entries_apart entries →
  pairwise apart (descriptors entries).
Proof.
  induction 1 as [|e entries He Hes IH]; [done|]. intros [Hx Hp]. cbn [descriptors].
  destruct (usable e) eqn:Hu; [|by apply IH]. specialize (He eq_refl). apply pairwise_app.
  - by eapply end_to_end_apart, pieces_end_to_end; right.
  - by apply IH.
  - eapply Forall_impl; [apply (pieces_of entry_turns e e); [by right|lia|lia|done]|]. intros d Hd.
    eapply Forall_impl; [by apply descriptors_of|]. cbn. intros d' (e' & Hin & _ & Hd').
    eapply pieces_apart; [|done..]. rewrite Forall_forall in Hx. by apply Hx.
Qed.

Definition entries_of (memory : memory_info) : list memory_map_entry :=
  take (Z.to_nat (memory_map_count memory)) (memory_map memory).

Lemma configure_descriptors_spec memory init :
  memory_map_count memory ≤ INITIAL_GENERIC_COUNT_MAX →
  (Z.to_nat (memory_map_count memory) ≤ length (memory_map memory))%nat →
  Forall (λ e, usable e = true → entry_ok e) (entries_of memory) →
  (length (descriptors (entries_of memory)) ≤ length (generic_list init))%nat →
  try_configure_init_generic_descriptors memory init =
  Some (Ok (init <| generic_list ::= put 0 (descriptors (entries_of memory)) |>
                 <| generic_list_count ::= exposed (entries_of memory) 0 |>)).
Proof.
  intros Hmax Hlen Hok Hfit. unfold try_configure_init_generic_descriptors.
  rewrite (proj2 (Z.ltb_ge _ _)) by lia.
  pose proof (split_entries_spec (entries_of memory) 0 init Hok Hfit
                (drop (Z.to_nat (memory_map_count memory)) (memory_map memory))) as Hs.
  unfold entries_of in Hs at 1 2. by rewrite take_drop, length_take, Nat.min_l in Hs by done.
Qed.

(** C10: the memory map becomes Generics.  For a map of at most 128 entries whose usable
    entries are page-aligned, not empty and end below the top of the address space, that
    do not overlap, and whose pieces fit the list of the init page (the code checks only
    the number of entries), the configuration writes the pieces of the usable entries in
    order and nothing behind them; every piece is page-aligned memory of one usable
    entry, of its kind, and no two pieces overlap; the pieces of an entry lie end to end
    from its start, and what the eight splits leave of it is less than a 128th.  The count
    the init process is told covers the pieces of all usable entries but the last, and of
    the last only the first piece. *)
Theorem init_generics_tile_memory memory init :
  memory_map_count memory ≤ INITIAL_GENERIC_COUNT_MAX →
  (Z.to_nat (memory_map_count memory) ≤ length (memory_map memory))%nat →
  Forall (λ e, usable e = true → entry_ok e) (entries_of memory) →
  pairwise entries_apart (entries_of memory) →
  (length (descriptors (entries_of memory)) ≤ length (generic_list init))%nat →
  ∃ init', try_configure_init_generic_descriptors memory init = Some (Ok init') ∧
    generic_list init' =
      descriptors (entries_of memory) ++ drop (length (descriptors (entries_of memory))) (generic_list init) ∧
    generic_list_count init' = exposed (entries_of memory) 0 (generic_list_count init) ∧
    Forall (λ d, ∃ e, e ∈ entries_of memory ∧ usable e = true ∧ piece_of e d)
      (descriptors (entries_of memory)) ∧
    pairwise apart (descriptors (entries_of memory)) ∧
    (∀ e, e ∈ entries_of memory → usable e = true → ∃ b,
      end_to_end (start_physical_address e) (pieces entry_turns e) b ∧
      b ≤ entry_end_address e ∧ (entry_end_address e - b) * 128 < PAGE_SIZE * page_count e) ∧
    ∀ before e after, entries_of memory = before ++ e :: after → usable e = true →
      Forall (λ e, usable e = false) after →
      generic_list_count init' = Z.of_nat (length (descriptors before)) + 1.
Proof.
  intros Hmax Hlen Hok Hap Hfit. rewrite configure_descriptors_spec by done.
  eexists. split; [done|]. split_and!; [done|done|by apply descriptors_of|by apply descriptors_apart| |].
  2:{ intros before e after He Hu Ha. unfold upd. cbn [generic_list_count]. rewrite He, exposed_last by done. lia. }
  intros e Hin Hu. assert (entry_ok e) as He by (rewrite Forall_forall in Hok; by apply Hok).
  eexists. split; [apply pieces_end_to_end; by right|].
  pose proof (lost_bound entry_turns e He) as Hb. pose proof (lost_nonneg entry_turns e (or_intror He)).
  change (2 ^ Z.of_nat entry_turns) with 256 in Hb. pose proof (largest_bounds e (entry_pages e He)).
  unfold PAGE_SIZE. split; lia.
Qed.

Definition empty_init_info : init_info :=
  MkInitInfo 0 0 0 [] [] [] [] 0 [] 0
    (replicate (Z.to_nat INITIAL_GENERIC_COUNT_MAX) (MkDescriptor 0 0 false)) 0.

Lemma init_generics_tile_memory_witness :
  let memory := MkMemoryInfo 3 [MkEntry 0x100000 11 MMT_FREE; MkEntry 0x800000 5 MMT_RESERVED;
                                MkEntry 0xF0000000 6 MMT_DEVICE] in
  ∃ init', try_configure_init_generic_descriptors memory empty_init_info = Some (Ok init') ∧
    take 5 (generic_list init') =
      [MkDescriptor 0x100000 15 false; MkDescriptor 0x108000 13 false; MkDescriptor 0x10a000 12 false;
       MkDescriptor 0xF0000000 14 true; MkDescriptor 0xF0004000 13 true] ∧
    pairwise apart (descriptors (entries_of memory)).
Proof.
  intros memory. destruct (init_generics_tile_memory memory empty_init_info) as (init' & E & Hl & _ & _ & Hp & _).
  - done.
  - cbn. lia.
  - repeat (apply Forall_cons_2; [intros Hu; first [discriminate Hu|split; vm_compute; done]|]).
    apply Forall_nil_2.
  - change (entries_of memory) with (memory_map memory). subst memory. cbn [pairwise memory_map].
    split_and!; try done; repeat (apply Forall_cons_2; [vm_compute; by left|]); apply Forall_nil_2.
  - vm_compute. lia.
  - exists init'. split; [exact E|]. split; [rewrite Hl; vm_compute; reflexivity|exact Hp].
Defined.

(** The pieces behind the first one of the last entry are written but not
    counted, so the init process gets no Generic for them. *)
Lemma init_generics_hidden :
  let memory := MkMemoryInfo 1 [MkEntry 0x100000 11 MMT_FREE] in
  match try_configure_init_generic_descriptors memory empty_init_info with
  | Some (Ok init') => generic_list_count init' = 1 ∧
      take 3 (generic_list init') =
        [MkDescriptor 0x100000 15 false; MkDescriptor 0x108000 13 false; MkDescriptor 0x10a000 12 false]
  | _ => False
  end.
Proof. vm_compute. done. Qed.

(** Only the number of entries is checked against the list of 128 descriptors: 65
    entries of three pages run over its end. *)
Lemma init_generics_overflow :
  let memory := MkMemoryInfo 65 ((λ i, MkEntry (0x100000 + 0x10000 * Z.of_nat i) 3 MMT_FREE) <$> seq 0 65) in
  memory_map_count memory ≤ INITIAL_GENERIC_COUNT_MAX ∧
  try_configure_init_generic_descriptors memory empty_init_info = None.
Proof. split; vm_compute; done. Qed.

(** An entry of no pages gets a descriptor, and a remainder of almost 2^52 pages. *)
Lemma empty_entry_remainder :
  try_configure_generic_descriptor_from_memory_map (MkEntry 0x100000 0 MMT_FREE) =
  Some (Ok (MkDescriptor 0x100000 0 false, MkEntry 0x101000 (2 ^ 52 - 1) MMT_FREE)).
Proof. vm_compute. done. Qed.
