(* ===== verification/ResultLib.v ===== *)
(** [liba9n::result] and [liba9n::option], the sum types every operation of the
    kernel answers with: src/src/liba9n/include/liba9n/result/__result/result_impl.hpp,
    result_void_impl.hpp and src/src/liba9n/include/liba9n/option/__option/option_impl.hpp.

    The C++ objects are a union next to a flag; the members of the union are
    created by placement new and destroyed by hand.  The model keeps what lives in
    the storage.  Reading or destroying a member that does not live there is
    undefined, [None]; putting an object over one whose destructor has work to do
    loses that object, which is counted.  The four overloads of a member function
    for the value categories of [*this] differ in copying or moving from it and
    are one definition.

    Then the containers, libcxx/__array/array_impl.hpp, common/array.hpp and
    common/stack.hpp. *)

From S2P Require Import Prelude Word Types.

(** ** Lifetimes *)

(** The properties of a type the library tests, and the value that a move leaves
    in its source. *)
Record traits (T : Type) := MkTraits {
  is_trivially_destructible : bool;
  is_trivially_copy_constructible : bool;
  is_trivially_move_constructible : bool;
  is_trivially_copy_assignable : bool;
  is_trivially_move_assignable : bool;
  moved_from : T → T;
}.
Global Arguments is_trivially_destructible {T} _.
Global Arguments is_trivially_copy_constructible {T} _.
Global Arguments is_trivially_move_constructible {T} _.
Global Arguments is_trivially_copy_assignable {T} _.
Global Arguments is_trivially_move_assignable {T} _.
Global Arguments moved_from {T} _ _.

(** A computation on storage: undefined, or its value and the number of objects
    that were lost. *)
Definition L (A : Type) : Type := option (A * nat).
#[global] Instance L_ret : MRet L := λ A a, Some (a, O).
#[global] Instance L_bind : MBind L := λ A C f m,
  match m with
  | None => None
  | Some (a, n) => match f a with None => None | Some (c, n') => Some (c, (n + n')%nat) end
  end.
Definition illegal {A} : L A := None.
Definition losing {A} (lost : bool) (a : A) : L A := Some (a, if lost then 1%nat else O).

(** ** result<T, E> *)
Module result_impl.
Section result.
Context {T E : Type} (tT : traits T) (tE : traits E).

(** What lives in the union ([dummy] has no lifetime of interest). *)
Inductive result_storage := NOTHING | OK_VALUE (v : T) | ERROR_VALUE (e : E).
Record result_object := MkResult { content : result_storage; is_ok_flag : bool }.

(** Whether an object is lost when the result_storage is used for another one. *)
Definition result_overwritten (s : result_storage) : bool :=
  match s with
  | NOTHING => false
  | OK_VALUE _ => negb (is_trivially_destructible tT)
  | ERROR_VALUE _ => negb (is_trivially_destructible tE)
  end.

(** [new (&ok_value) T(...)], [new (&error_value) E(...)]. *)
Definition result_construct_ok (v : T) (r : result_object) : L result_object :=
  losing (result_overwritten (content r)) (MkResult (OK_VALUE v) (is_ok_flag r)).
Definition result_construct_error (e : E) (r : result_object) : L result_object :=
  losing (result_overwritten (content r)) (MkResult (ERROR_VALUE e) (is_ok_flag r)).
(** [ok_value.~T()], [error_value.~E()]. *)
Definition result_destroy_ok (r : result_object) : L result_object :=
  match content r with OK_VALUE _ => mret (MkResult NOTHING (is_ok_flag r)) | _ => illegal end.
Definition result_destroy_error (r : result_object) : L result_object :=
  match content r with ERROR_VALUE _ => mret (MkResult NOTHING (is_ok_flag r)) | _ => illegal end.
Definition result_set_flag (b : bool) (r : result_object) : result_object := MkResult (content r) b.

Definition result_is_ok (r : result_object) : bool := is_ok_flag r.
Definition result_is_error (r : result_object) : bool := negb (is_ok_flag r).
(** [unwrap], [operator*], [unwrap_error]: no check is made. *)
Definition result_unwrap (r : result_object) : L T :=
  match content r with OK_VALUE v => mret v | _ => illegal end.
Definition result_unwrap_error (r : result_object) : L E :=
  match content r with ERROR_VALUE e => mret e | _ => illegal end.

Definition result_init_ok_value (r : result_object) : L result_object :=
  if result_is_error r then mret r
  else if is_trivially_destructible tT then mret r else result_destroy_ok r.
Definition result_update_ok_value (v : T) (r : result_object) : L result_object :=
  r ← result_init_ok_value r; result_construct_ok v r.
Definition result_init_error_value (r : result_object) : L result_object :=
  if result_is_ok r then mret r
  else if is_trivially_destructible tE then mret r else result_destroy_error r.
Definition result_update_error_value (e : E) (r : result_object) : L result_object :=
  r ← result_init_error_value r; result_construct_error e r.

(** *** Constructors *)

Definition result_fresh (flag : bool) : result_object := MkResult NOTHING flag.
Definition result_ok (v : T) : L result_object := result_construct_ok v (result_fresh true).
Definition result_error (e : E) : L result_object := result_construct_error e (result_fresh false).
(** The member is initialised from the argument, and then constructed again from
    what the first construction left of it. *)
Definition result_in_place_ok (v : T) : L result_object :=
  r ← result_construct_ok v (result_fresh true); result_construct_ok (moved_from tT v) r.
Definition result_in_place_error (e : E) : L result_object :=
  r ← result_construct_error e (result_fresh false); result_construct_error (moved_from tE e) r.

Definition result_copy_construct (other : result_object) : L result_object :=
  if is_trivially_copy_constructible tT && is_trivially_copy_constructible tE then mret other
  else if result_is_ok other then v ← result_unwrap other; result_construct_ok v (result_fresh true)
  else e ← result_unwrap_error other; result_construct_error e (result_fresh false).

(** What a move leaves of the member that lives in the source. *)
Definition result_move_from (r : result_object) : result_object :=
  match content r with
  | OK_VALUE v => MkResult (OK_VALUE (moved_from tT v)) (is_ok_flag r)
  | ERROR_VALUE e => MkResult (ERROR_VALUE (moved_from tE e)) (is_ok_flag r)
  | NOTHING => r
  end.
(** The new object, and what is left of the other one. *)
Definition result_move_construct (other : result_object) : L (result_object * result_object) :=
  if is_trivially_move_constructible tT && is_trivially_move_constructible tE
  then mret (other, other)
  else
    this ← (if result_is_ok other then v ← result_unwrap other; result_construct_ok v (result_fresh true)
            else e ← result_unwrap_error other; result_construct_error e (result_fresh false));
    mret (this, result_set_flag false (result_move_from other)).

Definition result_destroy (r : result_object) : L result_object :=
  if is_trivially_destructible tT && is_trivially_destructible tE then mret r
  else if result_is_ok r then if is_trivially_destructible tT then mret r else result_destroy_ok r
  else if is_trivially_destructible tE then mret r else result_destroy_error r.

(** *** Assignments *)

Definition result_assign_ok (v : T) (r : result_object) : L result_object :=
  r ← (if result_is_error r then result_init_error_value r else mret r);
  r ← result_update_ok_value v r;
  mret (result_set_flag true r).
Definition result_assign_error (e : E) (r : result_object) : L result_object :=
  r ← (if result_is_ok r then result_init_ok_value r else mret r);
  r ← result_update_error_value e r;
  mret (result_set_flag false r).

(** The part the copy and move assignments share; [other] is another object.  The
    defaulted assignments of trivially assignable types copy the bytes. *)
Definition result_assign_from (other r : result_object) : L result_object :=
  r ← (if result_is_error r && result_is_ok other then result_init_error_value r else mret r);
  r ← (if result_is_ok r && result_is_error other then result_init_ok_value r else mret r);
  r ← (if result_is_ok other then v ← result_unwrap other; result_update_ok_value v r
       else e ← result_unwrap_error other; result_update_error_value e r);
  mret (result_set_flag (result_is_ok other) r).
Definition result_copy_assign (other r : result_object) : L result_object :=
  if is_trivially_copy_assignable tT && is_trivially_copy_assignable tE
  then losing (result_overwritten (content r)) other
  else result_assign_from other r.
(** The object assigned to, and what is left of the other one. *)
Definition result_move_assign (other r : result_object) : L (result_object * result_object) :=
  if is_trivially_move_assignable tT && is_trivially_move_assignable tE
  then losing (result_overwritten (content r)) (other, other)
  else r ← result_assign_from other r; mret (r, result_move_from other).

(** *** Access *)

Definition result_unwrap_or (instead_ok_value : T) (r : result_object) : L T :=
  if result_is_error r then mret instead_ok_value else result_unwrap r.
Definition result_unwrap_error_or (instead_error_value : E) (r : result_object) : L E :=
  if result_is_ok r then mret instead_error_value else result_unwrap_error r.

(** *** Equality *)

Definition result_equal (eqT : T → T → bool) (eqE : E → E → bool) (lhs rhs : result_object) : L bool :=
  if negb (Bool.eqb (result_is_ok lhs) (result_is_ok rhs)) then mret false
  else if result_is_ok lhs then v ← result_unwrap lhs; w ← result_unwrap rhs; mret (eqT v w)
  else e ← result_unwrap_error lhs; f ← result_unwrap_error rhs; mret (eqE e f).
Definition result_equal_ok (eqT : T → T → bool) (lhs : result_object) (rhs : T) : L bool :=
  if result_is_ok lhs then v ← result_unwrap lhs; mret (eqT v rhs) else mret false.
Definition result_equal_error (eqE : E → E → bool) (lhs : result_object) (rhs : E) : L bool :=
  if result_is_error lhs then e ← result_unwrap_error lhs; mret (eqE e rhs) else mret false.
End result.
Global Arguments result_storage T E : clear implicits.
Global Arguments result_object T E : clear implicits.

(** *** Chaining

    [A] is what calling the function yields, such as a run of the kernel that ends
    in a result; [answer] makes one of a result at hand. *)
Section chains.
Context {T E : Type} (tT : traits T) (tE : traits E).

Definition result_and_then {U A} (tU : traits U) (answer : result_object U E → A) (function : T → A)
    (r : result_object T E) : L A :=
  if result_is_error r then e ← result_unwrap_error r; u ← result_error tU tE e; mret (answer u)
  else v ← result_unwrap r; mret (function v).
Definition result_or_else {F A} (tF : traits F) (answer : result_object T F → A) (function : E → A)
    (r : result_object T E) : L A :=
  if result_is_ok r then v ← result_unwrap r; u ← result_ok tT tF v; mret (answer u)
  else e ← result_unwrap_error r; mret (function e).
Definition result_transform {U} (tU : traits U) (function : T → U) (r : result_object T E)
    : L (result_object U E) :=
  if result_is_error r then e ← result_unwrap_error r; result_error tU tE e
  else v ← result_unwrap r; result_in_place_ok tU tE (function v).
Definition result_transform_error {F} (tF : traits F) (function : E → F) (r : result_object T E)
    : L (result_object T F) :=
  if result_is_ok r then v ← result_unwrap r; result_in_place_ok tT tF v
  else e ← result_unwrap_error r; result_error tT tF (function e).
End chains.
End result_impl.

(** ** result<void, E> *)
Module result_void_impl.
Section result_void.
Context {E : Type} (tE : traits E).

Inductive void_storage := NOTHING | ERROR_VALUE (e : E).
Record void_result_object := MkResult { content : void_storage; is_ok_flag : bool }.

Definition void_overwritten (s : void_storage) : bool :=
  match s with NOTHING => false | ERROR_VALUE _ => negb (is_trivially_destructible tE) end.
Definition void_construct_error (e : E) (r : void_result_object) : L void_result_object :=
  losing (void_overwritten (content r)) (MkResult (ERROR_VALUE e) (is_ok_flag r)).
Definition void_destroy_error (r : void_result_object) : L void_result_object :=
  match content r with ERROR_VALUE _ => mret (MkResult NOTHING (is_ok_flag r)) | _ => illegal end.
Definition void_set_flag (b : bool) (r : void_result_object) : void_result_object := MkResult (content r) b.

Definition void_is_ok (r : void_result_object) : bool := is_ok_flag r.
Definition void_is_error (r : void_result_object) : bool := negb (is_ok_flag r).
Definition void_unwrap_error (r : void_result_object) : L E :=
  match content r with ERROR_VALUE e => mret e | _ => illegal end.

Definition void_init_error_value (r : void_result_object) : L void_result_object :=
  if void_is_ok r then mret r
  else if is_trivially_destructible tE then mret r else void_destroy_error r.
Definition void_update_error_value (e : E) (r : void_result_object) : L void_result_object :=
  r ← void_init_error_value r; void_construct_error e r.

Definition void_result_ok : void_result_object := MkResult NOTHING true.
Definition void_result_error (e : E) : L void_result_object := void_construct_error e (MkResult NOTHING false).

Definition void_copy_construct (other : void_result_object) : L void_result_object :=
  if is_trivially_copy_constructible tE then mret other
  else if void_is_ok other then mret void_result_ok
  else e ← void_unwrap_error other; void_result_error e.
Definition void_move_from (r : void_result_object) : void_result_object :=
  match content r with
  | ERROR_VALUE e => MkResult (ERROR_VALUE (moved_from tE e)) (is_ok_flag r)
  | NOTHING => r
  end.
Definition void_move_construct (other : void_result_object) : L (void_result_object * void_result_object) :=
  if is_trivially_move_constructible tE then mret (other, other)
  else if void_is_error other then e ← void_unwrap_error other; this ← void_result_error e; mret (this, void_move_from other)
  else mret (void_result_ok, other).
Definition void_destroy (r : void_result_object) : L void_result_object :=
  if is_trivially_destructible tE then mret r
  else if void_is_ok r then mret r else void_destroy_error r.

Definition void_assign_error (e : E) (r : void_result_object) : L void_result_object :=
  r ← void_update_error_value e r; mret (void_set_flag false r).
(** The flag changes before the old value is looked at. *)
Definition void_assign_from (other r : void_result_object) : L void_result_object :=
  let r := void_set_flag (void_is_ok other) r in
  if void_is_error other then e ← void_unwrap_error other; void_update_error_value e r else mret r.
Definition void_copy_assign (other r : void_result_object) : L void_result_object :=
  if is_trivially_copy_assignable tE then losing (void_overwritten (content r)) other
  else void_assign_from other r.
Definition void_move_assign (other r : void_result_object) : L (void_result_object * void_result_object) :=
  if is_trivially_move_assignable tE then losing (void_overwritten (content r)) (other, other)
  else r ← void_assign_from other r; mret (r, void_move_from other).

Definition void_unwrap_error_or (instead_error_value : E) (r : void_result_object) : L E :=
  if void_is_ok r then mret instead_error_value else void_unwrap_error r.

Definition void_equal (eqE : E → E → bool) (lhs rhs : void_result_object) : L bool :=
  if negb (Bool.eqb (void_is_ok lhs) (void_is_ok rhs)) then mret false
  else if void_is_ok lhs then mret true
  else e ← void_unwrap_error lhs; f ← void_unwrap_error rhs; mret (eqE e f).
Definition void_equal_error (eqE : E → E → bool) (lhs : void_result_object) (rhs : E) : L bool :=
  if void_is_error lhs then e ← void_unwrap_error lhs; mret (eqE e rhs) else mret false.

(** Chaining: [answer] makes the answer of an error, [default] is [F {}]. *)
Definition void_and_then {A} (answer : E → L A) (function : A) (r : void_result_object) : L A :=
  if void_is_error r then e ← void_unwrap_error r; answer e else mret function.
Definition void_or_else {A} (default : A) (function : E → A) (r : void_result_object) : L A :=
  if void_is_ok r then mret default else e ← void_unwrap_error r; mret (function e).
End result_void.
Global Arguments void_result_object E : clear implicits.

Definition void_transform {U E} (tU : traits U) (tE : traits E) (function : U) (r : void_result_object E)
    : L (result_impl.result_object U E) :=
  if void_is_error r then e ← void_unwrap_error r; result_impl.result_error tU tE e
  else result_impl.result_in_place_ok tU tE function.
Definition void_transform_error {E F} (tF : traits F) (function : E → F) (r : void_result_object E)
    : L (void_result_object F) :=
  if void_is_ok r then mret void_result_ok else e ← void_unwrap_error r; void_result_error tF (function e).
End result_void_impl.

(** ** option<T>

    The assignments from another option are left out: their [return;] for an empty
    one does not compile once they are used, and they are declared [= default] for
    the trivially copyable types of the kernel. *)
Module option_impl.
Section option.
Context {T : Type} (tT : traits T).

Inductive option_storage := NOTHING | SOME_VALUE (v : T).
Record option_object := MkOption { content : option_storage; is_some_flag : bool }.

Definition option_overwritten (s : option_storage) : bool :=
  match s with NOTHING => false | SOME_VALUE _ => negb (is_trivially_destructible tT) end.
Definition option_construct_some (v : T) (o : option_object) : L option_object :=
  losing (option_overwritten (content o)) (MkOption (SOME_VALUE v) (is_some_flag o)).
Definition option_destroy_some (o : option_object) : L option_object :=
  match content o with SOME_VALUE _ => mret (MkOption NOTHING (is_some_flag o)) | _ => illegal end.
Definition option_set_flag (b : bool) (o : option_object) : option_object := MkOption (content o) b.

Definition option_is_some (o : option_object) : bool := is_some_flag o.
Definition option_is_none (o : option_object) : bool := negb (is_some_flag o).
Definition option_unwrap (o : option_object) : L T :=
  match content o with SOME_VALUE v => mret v | _ => illegal end.

Definition option_init_some_value (o : option_object) : L option_object :=
  if option_is_none o then mret o
  else if is_trivially_destructible tT then mret o else option_destroy_some o.
Definition option_update_some_value (v : T) (o : option_object) : L option_object :=
  o ← option_init_some_value o; option_construct_some v o.

Definition option_none : option_object := MkOption NOTHING false.
Definition option_some (v : T) : L option_object := option_construct_some v (MkOption NOTHING true).

Definition option_copy_construct (other : option_object) : L option_object :=
  if is_trivially_copy_constructible tT then mret other
  else if option_is_none other then mret option_none
  else v ← option_unwrap other; option_some v.
Definition option_move_from (o : option_object) : option_object :=
  match content o with
  | SOME_VALUE v => MkOption (SOME_VALUE (moved_from tT v)) (is_some_flag o)
  | NOTHING => o
  end.
Definition option_move_construct (other : option_object) : L (option_object * option_object) :=
  if is_trivially_move_constructible tT then mret (other, other)
  else if option_is_none other then mret (option_none, other)
  else v ← option_unwrap other; this ← option_some v; mret (this, option_set_flag false (option_move_from other)).
Definition option_destroy (o : option_object) : L option_object :=
  if is_trivially_destructible tT then mret o
  else if option_is_none o then mret o else option_destroy_some o.

Definition option_assign_some (v : T) (o : option_object) : L option_object :=
  o ← option_update_some_value v o; mret (option_set_flag true o).

Definition option_unwrap_or (instead_some_value : T) (o : option_object) : L T :=
  if option_is_some o then option_unwrap o else mret instead_some_value.

(** Two empty options are not option_equal. *)
Definition option_equal (eqT : T → T → bool) (lhs rhs : option_object) : L bool :=
  if negb (Bool.eqb (option_is_some lhs) (option_is_some rhs)) then mret false
  else if option_is_none lhs then mret false
  else v ← option_unwrap lhs; w ← option_unwrap rhs; mret (eqT v w).
Definition option_equal_some (eqT : T → T → bool) (lhs : option_object) (rhs : T) : L bool :=
  if option_is_some lhs then v ← option_unwrap lhs; mret (eqT v rhs) else mret false.
Definition option_equal_none (lhs : option_object) : bool := option_is_none lhs.

Definition option_and_then {A} (default : A) (function : T → A) (o : option_object) : L A :=
  if option_is_none o then mret default else v ← option_unwrap o; mret (function v).
Definition option_or_else (function : L option_object) (o : option_object) : L option_object :=
  if option_is_some o then option_copy_construct o else function.
End option.
Global Arguments option_object T : clear implicits.

Definition option_transform {T U} (tU : traits U) (function : T → U) (o : option_object T) : L (option_object U) :=
  if option_is_none o then mret option_none else v ← option_unwrap o; option_some tU (function v).
End option_impl.

(** ** Containers

    [liba9n::std::array], [liba9n::common::bounded_array] and [safe_array], [liba9n::stack]
    and [liba9n::queue].  The storage is a list of [Size] elements; a pointer into it is an
    index.  An access outside of the storage is undefined, [None]. *)
Module containers.
Section containers.
Context {T : Type}.

Definition element (elements : list T) (i : Z) : option T :=
  if 0 <=? i then elements !! Z.to_nat i else None.
Definition store (elements : list T) (i : Z) (v : T) : option (list T) :=
  if (0 <=? i) && (i <? Z.of_nat (length elements)) then Some (<[Z.to_nat i := v]> elements) else None.
Definition Size (elements : list T) : Z := Z.of_nat (length elements).

(** [for (i = ...; i < Size; i++) elements[i] = value], with [turns] left. *)
Fixpoint fill_from (turns : nat) (i : Z) (value : T) (elements : list T) : option (list T) :=
  match turns with
  | O => Some elements
  | S turns' => elements' ← store elements i value; fill_from turns' (i + 1) value elements'
  end.

(** *** array *)
Definition get_elements_first (a : list T) : Z := 0.
Definition get_elements_end (a : list T) : Z := Size a.
Definition array_front (a : list T) : option T := element a (get_elements_first a).
Definition array_back (a : list T) : option T := element a (get_elements_end a - 1).
Definition array_index (a : list T) (index : Z) : option T := element a index.
Definition array_empty (a : list T) : bool := Size a =? 0.
Definition array_fill (value : T) (a : list T) : option (list T) := fill_from (length a) 0 value a.
Definition array_begin (a : list T) : Z := get_elements_first a.
Definition array_end (a : list T) : Z := get_elements_end a.

(** [while (this_begin != this_end)]: the arrays have the same size, the iterators go
    together. *)
Fixpoint swap_from (turns : nat) (this_begin this_end : Z) (this other : list T) : option (list T * list T) :=
  if this_begin =? this_end then Some (this, other)
  else
    match turns with
    | O => None
    | S turns' =>
        temp ← element this this_begin;
        w ← element other this_begin;
        this' ← store this this_begin w;
        other' ← store other this_begin temp;
        swap_from turns' (this_begin + 1) this_end this' other'
    end.
Definition array_swap (this other : list T) : option (list T * list T) :=
  swap_from (length this) (array_begin this) (array_end this) this other.

(** [lhs == rhs] is [!(lhs == rhs)]: calls nested at most [fuel] deep. *)
Fixpoint array_equal (fuel : nat) (lhs rhs : list T) : option bool :=
  match fuel with
  | O => None
  | S fuel' => r ← array_equal fuel' lhs rhs; Some (negb r)
  end.

(** *** bounded_array; [zero] is [T(0)] *)
Definition get_element (zero : T) (a : list T) (index : Z) : option T :=
  if Size a <=? index then Some zero else element a index.
Definition set_element (a : list T) (index : Z) (v : T) : option (list T) :=
  if Size a <=? index then Some a else store a index v.

(** *** safe_array: the bound is checked when the template is instantiated *)
Definition safe_get (a : list T) (index : Z) : option T :=
  if (0 <=? index) && (index <? Size a) then element a index else None.
Definition safe_set (a : list T) (index : Z) (v : T) : option (list T) :=
  if (0 <=? index) && (index <? Size a) then store a index v else None.
Definition safe_begin (a : list T) : Z := 0.
Definition safe_end (a : list T) : Z := Size a - 1.

(** [for (x : a)]: what the loop visits. *)
Fixpoint visit (turns : nat) (i last : Z) (a : list T) : option (list T) :=
  if i =? last then Some []
  else
    match turns with
    | O => None
    | S turns' => v ← element a i; vs ← visit turns' (i + 1) last a; Some (v :: vs)
    end.

(** *** stack: [current] counts down *)
Record stack := MkStack { stack_elements : list T; current : Z }.
Definition push (v : T) (s : stack) : option stack :=
  let current' := wsub (current s) 1 in
  elements ← store (stack_elements s) current' v; Some (MkStack elements current').
Definition pop (s : stack) : option (T * stack) :=
  v ← element (stack_elements s) (current s);
  Some (v, MkStack (stack_elements s) (wadd (current s) 1)).

(** *** queue: two counters that only go up *)
Record queue := MkQueue { queue_elements : list T; read_index : Z; write_index : Z }.
Definition current_size (q : queue) : Z := wsub (write_index q) (read_index q).
Definition enqueue (v : T) (q : queue) : option queue :=
  if current_size q =? Size (queue_elements q) then Some q
  else
    elements ← store (queue_elements q) (Z.land (write_index q) (wsub (Size (queue_elements q)) 1)) v;
    Some (MkQueue elements (read_index q) (wadd (write_index q) 1)).
(** [%] by zero is undefined. *)
Definition dequeue (q : queue) : option (option T * queue) :=
  if write_index q =? read_index q then Some (None, q)
  else
    let mask := wsub (Size (queue_elements q)) 1 in
    if mask =? 0 then None
    else
      v ← element (queue_elements q) (read_index q mod mask);
      Some (Some v, MkQueue (queue_elements q) (wadd (read_index q) 1) (write_index q)).
End containers.
Global Arguments stack T : clear implicits.
Global Arguments queue T : clear implicits.
End containers.
