(* ===== verification/ResultProofs.v ===== *)
(** [liba9n::result] and [liba9n::option] implement sum types. *)

From S2P Require Import Prelude Word Types Dll Kernel ResultLib.
Import result_impl result_void_impl option_impl.

(** A type whose special members are all trivial, as the types of the kernel's
    results are: a move leaves its source as it is. *)
Record trivial {T} (t : traits T) : Prop := {
  trivial_destructible : is_trivially_destructible t = true;
  trivial_copy : is_trivially_copy_constructible t = true;
  trivial_move : is_trivially_move_constructible t = true;
  trivial_copy_assign : is_trivially_copy_assignable t = true;
  trivial_move_assign : is_trivially_move_assignable t = true;
  trivial_moved : ∀ v, moved_from t v = v;
}.

(** Only a type whose destructor has nothing to do is assigned bytewise. *)
Definition consistent {T} (t : traits T) : Prop :=
  is_trivially_copy_assignable t || is_trivially_move_assignable t = true →
  is_trivially_destructible t = true.

Definition trivial_traits (T : Type) : traits T := MkTraits T true true true true true (λ v, v).
(** A type with destructors that matter, such as an owning pointer; [empty] is
    what a move leaves. *)
Definition owning_traits {T} (empty : T) : traits T :=
  MkTraits T false false false false false (λ _, empty).

Lemma trivial_traits_ok T : trivial (trivial_traits T).
Proof. done. Qed.
Lemma trivial_consistent {T} (t : traits T) : trivial t → consistent t.
Proof. by intros [] _. Qed.

(** The object of a sum. *)
Definition object_of {T E} (s : result T E) : result_impl.result_object T E :=
  match s with
  | Ok v => result_impl.MkResult (OK_VALUE v) true
  | Err e => result_impl.MkResult (result_impl.ERROR_VALUE e) false
  end.
Definition void_object_of {E} (s : result unit E) : void_result_object E :=
  match s with
  | Ok _ => MkResult result_void_impl.NOTHING true
  | Err e => MkResult (ERROR_VALUE e) false
  end.
Definition option_object_of {T} (s : option T) : option_object T :=
  match s with
  | Some v => MkOption (SOME_VALUE v) true
  | None => MkOption NOTHING false
  end.

(** ** Assignments *)

Inductive assignment (T E : Type) :=
| ASSIGN_OK (v : T) | ASSIGN_ERROR (e : E) | ASSIGN_COPY (s : result T E) | ASSIGN_MOVE (s : result T E).
Global Arguments ASSIGN_OK {T E}.
Global Arguments ASSIGN_ERROR {T E}.
Global Arguments ASSIGN_COPY {T E}.
Global Arguments ASSIGN_MOVE {T E}.

Definition assigned {T E} (a : assignment T E) : result T E :=
  match a with
  | ASSIGN_OK v => Ok v
  | ASSIGN_ERROR e => Err e
  | ASSIGN_COPY s | ASSIGN_MOVE s => s
  end.

Section assignments.
Context {T E : Type} (tT : traits T) (tE : traits E).

Definition assign (r : result_impl.result_object T E) (a : assignment T E) :=
  match a with
  | ASSIGN_OK v => result_assign_ok tT tE v r
  | ASSIGN_ERROR e => result_assign_error tT tE e r
  | ASSIGN_COPY s => result_copy_assign tT tE (object_of s) r
  | ASSIGN_MOVE s => rr ← result_move_assign tT tE (object_of s) r; mret (fst rr)
  end.
Fixpoint assign_all (r : result_impl.result_object T E) (l : list (assignment T E)) :=
  match l with
  | [] => mret r
  | a :: l' => r ← assign r a; assign_all r l'
  end.

End assignments.

(** The number of objects that are lost is 0 for types that are destroyed trivially when
    they are assigned trivially. *)
Lemma assign_spec {T E} (tT : traits T) (tE : traits E) s a :
  ∃ lost, assign tT tE (object_of s) a = Some (object_of (assigned a), lost) ∧
    (consistent tT → consistent tE → lost = 0%nat).
Proof.
  unfold consistent. destruct tT as [dT ccT mcT caT maT mT], tE as [dE ccE mcE caE maE mE]. cbn.
  destruct dT, dE, caT, maT, caE, maE, s, a as [| |[]|[]]; eexists;
    (split; [reflexivity|]); intros HT HE;
    first [reflexivity|discriminate (HT eq_refl)|discriminate (HE eq_refl)].
Qed.

(** C31: assignments keep a result well-formed.  Whatever the types, a result that
    holds a value or an error and goes through any sequence of assignments, of
    values, errors and other results, copied or moved, ends up holding the last one, and
    no member is read or destroyed that does not live in the union; a copy
    and the target of a move hold what their source held, and the destructor ends the
    value or error that is there.  No object that needs destruction is lost if types that
    are trivially assignable are also trivially destructible; C++ does not
    guarantee this, and other types do lose objects ([trivial_assignment_loses]). *)
Theorem result_assignments_safe {T E} (tT : traits T) (tE : traits E) s l :
  (∃ lost, assign_all tT tE (object_of s) l = Some (object_of (foldl (λ _, assigned) s l), lost) ∧
     (consistent tT → consistent tE → lost = 0%nat)) ∧
  result_copy_construct tT tE (object_of s) = mret (object_of s) ∧
  (∃ other, result_move_construct tT tE (object_of s) = mret (object_of s, other)) ∧
  (∃ r, result_destroy tT tE (object_of s) = mret r ∧ result_overwritten tT tE (result_impl.content r) = false).
Proof.
  split_and!.
  - revert s. induction l as [|a l IH]; intros s; [by eexists|]. cbn [assign_all].
    destruct (assign_spec tT tE s a) as (n & -> & Hn). destruct (IH (assigned a)) as (n' & E' & Hn').
    exists (n + n')%nat. cbn [mbind L_bind]. rewrite E'. split; [done|]. intros HT HE. rewrite Hn, Hn' by done. done.
  - unfold result_copy_construct. destruct (_ && _); [done|]. by destruct s.
  - unfold result_move_construct. destruct (_ && _); [by eexists|]. destruct s; cbn; by eexists.
  - unfold result_destroy. destruct tT as [dT ?????], tE as [dE ?????]. cbn.
    destruct dT, dE, s; cbn; by eexists.
Qed.

(** A type with trivial assignments and a destructor that matters: an error assigned over
    a value loses the value. *)
Lemma trivial_assignment_loses :
  assign (MkTraits Z false true true true true (λ v, v)) (MkTraits Z false true true true true (λ v, v))
    (object_of (Ok 1)) (ASSIGN_COPY (Err 2)) = Some (object_of (Err 2), 1%nat).
Proof. reflexivity. Qed.

Lemma result_assignments_safe_witness :
  assign_all (owning_traits 0) (trivial_traits bool) (object_of (Ok 1))
    [ASSIGN_ERROR true; ASSIGN_MOVE (Ok 7); ASSIGN_COPY (Ok 8); ASSIGN_OK 9] = Some (object_of (Ok 9), 0%nat).
Proof.
  destruct (proj1 (result_assignments_safe (owning_traits 0) (trivial_traits bool) (Ok 1)
    [ASSIGN_ERROR true; ASSIGN_MOVE (Ok 7); ASSIGN_COPY (Ok 8); ASSIGN_OK 9])) as (lost & Hrun & Hlost).
  rewrite Hrun, Hlost; done.
Defined.

(** ** Chains *)

(** A result at hand as the answer of a run of the kernel. *)
Definition answer_of {T E} (r : result_impl.result_object T E) : M (result T E) :=
  match result_impl.content r with
  | OK_VALUE v => mret (Ok v)
  | result_impl.ERROR_VALUE e => mret (Err e)
  | result_impl.NOTHING => undefined
  end.

(** The results of the kernel are sums.  For types with trivial special
    members, the operations of [result] on the object of a sum read only the
    member that lives there, lose nothing, and compute what the sum's operations
    of the development do: chaining runs of the kernel with [and_then] and
    [or_else], mapping an error, defaults and equality. *)
Theorem result_refines_sum {T E U F} (tT : traits T) (tE : traits E) (tU : traits U) (tF : traits F)
    (eqT : T → T → bool) (eqE : E → E → bool) (s s' : result T E) :
  trivial tT → trivial tE → trivial tU → trivial tF →
  (∀ v w, eqT v w = true ↔ v = w) → (∀ e f, eqE e f = true ↔ e = f) →
  result_is_ok (object_of s) = is_ok s ∧
  (∀ d, result_unwrap_or d (object_of s) = mret (unwrap_or s d)) ∧
  (∀ f : T → M (result U E),
     result_and_then tE tU answer_of f (object_of s) = mret (and_then (mret s) f)) ∧
  (∀ f : E → M (result T F),
     result_or_else tT tF answer_of f (object_of s) = mret (or_else (mret s) f)) ∧
  (∀ f : T → U, result_transform tE tU f (object_of s) =
     mret (object_of (match s with Ok v => Ok (f v) | Err e => Err e end))) ∧
  (∀ f : E → F, result_transform_error tT tF f (object_of s) = mret (object_of (transform_error f s))) ∧
  ∃ b, result_equal eqT eqE (object_of s) (object_of s') = mret b ∧ (b = true ↔ s = s').
Proof.
  intros [] [] [] [] HeqT HeqE. split_and!.
  - by destruct s.
  - by destruct s.
  - by destruct s.
  - by destruct s.
  - intros f. destruct s as [v|e]; [|done]. cbn. unfold result_in_place_ok, result_construct_ok, losing. cbn.
    rewrite trivial_destructible2, trivial_moved2. done.
  - intros f. destruct s as [v|e]; [|done]. cbn. unfold result_in_place_ok, result_construct_ok, losing. cbn.
    rewrite trivial_destructible0, trivial_moved0. done.
  - destruct s as [v|e], s' as [w|f]; cbn; eexists; (split; [reflexivity|]);
      rewrite ?HeqT, ?HeqE; naive_solver.
Qed.

Lemma result_refines_sum_witness :
  result_and_then (trivial_traits bool) (trivial_traits bool) answer_of
    (λ v : Z, mret (Ok (v =? 5))) (object_of (Ok 5)) = mret (and_then (E := bool) (mret (Ok 5)) (λ v, mret (Ok (v =? 5)))).
Proof.
  apply (result_refines_sum (trivial_traits Z) (trivial_traits bool) (trivial_traits bool) (trivial_traits bool)
    Z.eqb Bool.eqb (Ok 5) (Ok 5)); try apply trivial_traits_ok; [apply Z.eqb_eq|apply Bool.eqb_true_iff].
Defined.

(** Results without a value, and options.  For types with trivial special
    members, [result<void, E>] is the sum of one value and the errors, and
    [option] an optional value, under assignment, chaining, mapping and defaults;
    equality of options is equality of the values, and two empty ones differ. *)
Theorem void_and_option_refine {T E U F} (tT : traits T) (tE : traits E) (tU : traits U) (tF : traits F)
    (eqT : T → T → bool) (s s' : result unit E) (o o' : option T) :
  trivial tT → trivial tE → trivial tU → trivial tF → (∀ v w, eqT v w = true ↔ v = w) →
  (* result<void, E> *)
  void_copy_assign tE (void_object_of s') (void_object_of s) = mret (void_object_of s') ∧
  (∀ e, void_assign_error tE e (void_object_of s) = mret (void_object_of (Err e))) ∧
  (∀ f : M (result unit E),
     void_and_then (λ e, mret (mret (Err e))) f (void_object_of s) = mret (and_then (mret s) (λ _, f))) ∧
  (∀ f : E → M (result unit F),
     void_or_else (mret (Ok tt)) f (void_object_of s) = mret (or_else (mret s) f)) ∧
  (∀ u, void_transform tU tE u (void_object_of s) =
     mret (object_of (match s with Ok _ => Ok u | Err e => Err e end))) ∧
  (∀ f : E → F, void_transform_error tF f (void_object_of s) = mret (void_object_of (transform_error f s))) ∧
  (* option<T> *)
  (∀ v, option_assign_some tT v (option_object_of o) = mret (option_object_of (Some v))) ∧
  option_copy_construct tT (option_object_of o) = mret (option_object_of o) ∧
  (∀ d, option_unwrap_or d (option_object_of o) = mret (default d o)) ∧
  (∀ f : T → option U, option_and_then (option_object_of None) (option_object_of ∘ f) (option_object_of o) =
     mret (option_object_of (o ≫= f))) ∧
  (∀ f : T → U, option_transform tU f (option_object_of o) = mret (option_object_of (f <$> o))) ∧
  (∃ b, option_equal eqT (option_object_of o) (option_object_of o') = mret b ∧
        (b = true ↔ o = o' ∧ is_Some o)).
Proof.
  intros [] [] [] [] HeqT. split_and!.
  - unfold void_copy_assign, losing. rewrite trivial_copy_assign1. destruct s; cbn; by rewrite ?trivial_destructible1.
  - intros e. unfold void_assign_error, void_update_error_value, void_init_error_value.
    rewrite trivial_destructible1. destruct s; cbn; [done|]. unfold void_construct_error, losing. cbn.
    by rewrite trivial_destructible1.
  - by destruct s.
  - by destruct s as [[]|].
  - intros u. destruct s; [|done]. cbn. unfold result_in_place_ok, result_construct_ok, losing. cbn.
    by rewrite trivial_destructible2, trivial_moved2.
  - by destruct s.
  - intros v. unfold option_assign_some, option_update_some_value, option_init_some_value.
    rewrite trivial_destructible0. destruct o; cbn; [|done]. unfold option_construct_some, losing. cbn.
    by rewrite trivial_destructible0.
  - unfold option_copy_construct. by rewrite trivial_copy0.
  - by destruct o.
  - by destruct o.
  - by destruct o.
  - destruct o as [v|], o' as [w|]; cbn; eexists; (split; [reflexivity|]); rewrite ?HeqT; naive_solver.
Qed.

Lemma void_and_option_refine_witness :
  option_equal Z.eqb (option_object_of (Some 5)) (option_object_of (Some 5)) = mret true.
Proof.
  destruct (void_and_option_refine (trivial_traits Z) (trivial_traits bool) (trivial_traits bool)
    (trivial_traits bool) Z.eqb (Ok tt) (Ok tt) (Some 5) (Some 5) (trivial_traits_ok Z) (trivial_traits_ok bool)
    (trivial_traits_ok bool) (trivial_traits_ok bool) Z.eqb_eq)
    as (_ & _ & _ & _ & _ & _ & _ & _ & _ & _ & _ & b & E & Hb).
  rewrite E. by rewrite (proj2 Hb).
Defined.

(** ** Types with destructors

    None of the kernel's results holds one; these are the operations that would
    break them. *)

(** The move constructor clears the flag of its source while the value lives on:
    destroying the source destroys an error that is not there. *)
Lemma move_constructor_corrupts_source :
  ∃ this other, result_move_construct (owning_traits 0) (owning_traits 0) (object_of (Ok 5)) = mret (this, other) ∧
    result_destroy (owning_traits 0) (owning_traits 0) other = illegal.
Proof. eexists _, _. by split. Qed.

(** Construction in place, and with it [transform], loses an object and holds what
    the first construction left of the argument. *)
Lemma in_place_constructs_twice :
  result_in_place_ok (owning_traits 0) (trivial_traits bool) 5 = losing true (object_of (Ok 0)).
Proof. done. Qed.

(** The assignment of a [result<void, E>] looks at the new flag for the old value. *)
Lemma void_assignment_breaks :
  void_copy_assign (owning_traits 0) (void_object_of (Err 5)) (void_object_of (Ok tt)) = illegal ∧
  ∃ r, void_copy_assign (owning_traits 0) (void_object_of (Ok tt)) (void_object_of (Err 5)) = mret r ∧
    void_destroy (owning_traits 0) r = mret r ∧
    void_overwritten (owning_traits 0) (result_void_impl.content r) = true.
Proof. split; [done|]. eexists. by split_and!. Qed.

(** The source of a move of an option keeps its value and forgets it. *)
Lemma option_move_loses_source :
  ∃ this other, option_move_construct (owning_traits 0) (option_object_of (Some 5)) = mret (this, other) ∧
    option_destroy (owning_traits 0) other = mret other ∧
    option_overwritten (owning_traits 0) (option_impl.content other) = true.
Proof. eexists _, _. by split_and!. Qed.

(** ** Containers *)
Module containers_proofs.
Import containers.
Section containers.
Context {T : Type}.
Implicit Types (a b l r : list T) (v : T).

Lemma element_lookup a i : 0 ≤ i → element a i = a !! Z.to_nat i.
Proof. intros. unfold element. by rewrite (proj2 (Z.leb_le 0 i)). Qed.
Lemma store_insert a i v : 0 ≤ i < Size a → store a i v = Some (<[Z.to_nat i := v]> a).
Proof.
  unfold Size, store. intros. by rewrite (proj2 (Z.leb_le 0 i)), (proj2 (Z.ltb_lt i _)) by lia.
Qed.
Lemma store_outside a i v : Size a ≤ i → store a i v = None.
Proof. unfold Size, store. intros. by rewrite (proj2 (Z.ltb_ge i _)), andb_false_r by lia. Qed.

(** [fill] from index [length l] on keeps what is before it. *)
Lemma fill_from_spec turns v l r :
  length r = turns → fill_from turns (Z.of_nat (length l)) v (l ++ r) = Some (l ++ replicate turns v).
Proof.
  revert l r. induction turns as [|turns IH]; intros l [|x r] Hr; simplify_eq/=; [done|].
  rewrite store_insert by (unfold Size; rewrite length_app; cbn [length]; lia).
  cbn [mbind option_bind]. rewrite Nat2Z.id, insert_app_r_alt, Nat.sub_diag by lia. cbn [insert list_insert].
  specialize (IH (l ++ [v]) r eq_refl). rewrite length_app, Nat2Z.inj_add, <- !(assoc_L (++)) in IH. exact IH.
Qed.
Lemma array_fill_spec v a : array_fill v a = Some (replicate (length a) v).
Proof. exact (fill_from_spec _ v [] a eq_refl). Qed.

Lemma swap_from_spec l l' r r' :
  length l = length l' → length r = length r' →
  swap_from (length r) (Z.of_nat (length l)) (Z.of_nat (length l + length r)) (l ++ r) (l' ++ r') =
  Some (l ++ r', l' ++ r).
Proof.
  revert l l' r'. induction r as [|x r IH]; intros l l' [|y r'] Hl Hr; simplify_eq/=.
  { by rewrite Nat.add_0_r, Z.eqb_refl. }
  rewrite (proj2 (Z.eqb_neq _ _)) by lia.
  rewrite !element_lookup, Nat2Z.id, list_lookup_middle, Hl, list_lookup_middle by (done || lia). cbn [mbind option_bind].
  rewrite !store_insert by (unfold Size; rewrite length_app; cbn [length]; lia). cbn [mbind option_bind].
  rewrite !Nat2Z.id, !insert_app_r_alt, Hl, !Nat.sub_diag by lia. cbn [insert list_insert].
  specialize (IH (l ++ [y]) (l' ++ [x]) r'). rewrite !length_app, <- !(assoc_L (++)) in IH. cbn [length app] in IH.
  rewrite <- IH by lia. by repeat (f_equal; try lia).
Qed.
Lemma array_swap_spec a b : length a = length b → array_swap a b = Some (b, a).
Proof. intros. by apply (swap_from_spec [] [] a b). Qed.

(** A comparison of two arrays never returns. *)
Lemma array_equal_diverges fuel a b : array_equal fuel a b = None.
Proof. induction fuel as [|fuel IH]; [done|]. simpl. by rewrite IH. Qed.

(** A loop over an array visits all of it, a loop over a [safe_array] all but the last. *)
Lemma visit_spec l r r' :
  visit (length r) (Z.of_nat (length l)) (Z.of_nat (length l + length r)) (l ++ r ++ r') = Some r.
Proof.
  revert l. induction r as [|x r IH]; intros l; cbn [length visit].
  { by rewrite Nat.add_0_r, Z.eqb_refl. }
  rewrite (proj2 (Z.eqb_neq _ _)) by lia.
  rewrite element_lookup, Nat2Z.id by lia. cbn [app]. rewrite list_lookup_middle by done. cbn [mbind option_bind].
  specialize (IH (l ++ [x])). rewrite length_app, <- (assoc_L (++)) in IH. cbn [length app] in IH.
  replace (Z.of_nat (length l) + 1) with (Z.of_nat (length l + 1)) by lia.
  replace (length l + S (length r))%nat with (length l + 1 + length r)%nat by lia. by rewrite IH.
Qed.
Lemma array_visits_all a : visit (length a) (array_begin a) (array_end a) a = Some a.
Proof. pose proof (visit_spec [] a []) as Hv. by rewrite app_nil_r in Hv. Qed.
Lemma safe_array_misses_last a v : visit (length a) (safe_begin (a ++ [v])) (safe_end (a ++ [v])) (a ++ [v]) = Some a.
Proof.
  pose proof (visit_spec [] a [v]) as Hv. unfold safe_begin, safe_end, Size. rewrite length_app. cbn [length app] in *.
  by replace (Z.of_nat (length a + 1) - 1) with (Z.of_nat (0 + length a)) by lia.
Qed.

Lemma get_set_element zero a i j v a' :
  0 ≤ i → 0 ≤ j → set_element a i v = Some a' →
  get_element zero a' j = if (i =? j) && (j <? Size a) then Some v else get_element zero a j.
Proof.
  intros Hi Hj. unfold set_element, get_element. destruct (Z.leb_spec (Size a) i) as [Ho|Ho].
  { intros ?. simplify_eq. destruct (Z.eqb_spec i j) as [->|]; [|done]. by rewrite (proj2 (Z.ltb_ge _ _)). }
  rewrite store_insert by lia. intros ?. simplify_eq. unfold Size in *. rewrite length_insert, !element_lookup by done.
  destruct (Z.leb_spec (Z.of_nat (length a)) j) as [Ho'|Ho'].
  { by rewrite (proj2 (Z.ltb_ge _ _)), andb_false_r by lia. }
  rewrite (proj2 (Z.ltb_lt _ _)), andb_true_r by lia. destruct (Z.eqb_spec i j) as [->|Hne].
  - by rewrite list_lookup_insert_eq by lia.
  - by rewrite list_lookup_insert_ne by lia.
Qed.

(** *** The stack refines a list *)
Definition stack_list (s : stack T) : list T := drop (Z.to_nat (current s)) (stack_elements s).
Definition stack_wf (s : stack T) : Prop :=
  0 ≤ current s ≤ Size (stack_elements s) ∧ Size (stack_elements s) < 2 ^ 64.

(** A push puts its value in front unless the storage is full, and then writes outside of
    it; a pop takes the front, and reads outside of the storage when there is none. *)
Lemma push_spec v s : stack_wf s →
  if current s =? 0 then push v s = None
  else ∃ s', push v s = Some s' ∧ stack_wf s' ∧ stack_list s' = v :: stack_list s.
Proof.
  intros Hw. unfold stack_wf in Hw. unfold push. destruct (Z.eqb_spec (current s) 0) as [->|Hne].
  - rewrite store_outside; [done|]. change (wsub 0 1) with (2 ^ 64 - 1). lia.
  - rewrite wsub_id, store_insert by lia. eexists. split; [done|]. unfold stack_wf, stack_list, Size in *. cbn.
    rewrite length_insert. split; [lia|].
    replace (Z.to_nat (current s)) with (S (Z.to_nat (current s - 1))) by lia.
    rewrite drop_insert_ge, Nat.sub_diag by lia.
    destruct (lookup_lt_is_Some_2 (stack_elements s) (Z.to_nat (current s - 1))) as [x Hx]; [lia|].
    by rewrite (drop_S _ _ _ Hx).
Qed.
Lemma pop_spec s : stack_wf s →
  match stack_list s with
  | [] => pop s = None
  | v :: l => ∃ s', pop s = Some (v, s') ∧ stack_wf s' ∧ stack_list s' = l
  end.
Proof.
  intros Hw. unfold stack_wf in Hw. unfold pop, stack_list. rewrite element_lookup by lia.
  destruct (stack_elements s !! Z.to_nat (current s)) as [v|] eqn:Hv.
  - rewrite (drop_S _ _ _ Hv). pose proof (lookup_lt_Some _ _ _ Hv). unfold Size in *.
    eexists. split; [done|]. unfold stack_wf, Size. cbn. rewrite wadd_id by lia. split; [lia|]. f_equal. lia.
  - apply lookup_ge_None in Hv. by rewrite drop_ge.
Qed.

(** *** The queue

    The elements at the counters from [read_index] to [write_index], modulo the size.  The
    counters have not wrapped around. *)
Definition queue_list (q : queue T) : list (option T) :=
  (λ i, queue_elements q !! Z.to_nat (i mod Size (queue_elements q))) <$>
    seqZ (read_index q) (write_index q - read_index q).
Definition queue_wf (q : queue T) : Prop :=
  (∃ n, 0 ≤ n < 64 ∧ Size (queue_elements q) = 2 ^ n) ∧
  0 ≤ read_index q ≤ write_index q ∧ write_index q < 2 ^ 64 - 1 ∧
  write_index q - read_index q ≤ Size (queue_elements q).

Lemma queue_wf_size q : queue_wf q → 0 < Size (queue_elements q) < 2 ^ 64.
Proof. intros [(n & Hn & ->) _]. split; [lia|]. apply Z.pow_lt_mono_r; lia. Qed.
Lemma queue_mask q i : queue_wf q → 0 ≤ i →
  Z.land i (wsub (Size (queue_elements q)) 1) = i mod Size (queue_elements q).
Proof.
  intros Hw Hi. pose proof (queue_wf_size q Hw). rewrite wsub_id by lia. destruct Hw as [(n & Hn & ->) _].
  rewrite <- Z.land_ones by lia. by rewrite Z.ones_equiv, Z.sub_1_r.
Qed.

(** What is put in a queue that is not full is its last element. *)
Lemma enqueue_appends v q : queue_wf q → current_size q < Size (queue_elements q) →
  ∃ q', enqueue v q = Some q' ∧ queue_list q' = queue_list q ++ [Some v].
Proof.
  intros Hw Hlt. pose proof (queue_wf_size q Hw) as Hs. pose proof Hw as (_ & Hr & Hm & Hd).
  unfold enqueue. rewrite (proj2 (Z.eqb_neq _ _)), queue_mask by (done || lia).
  unfold current_size in Hlt. rewrite wsub_id in Hlt by lia.
  pose proof (Z.mod_pos_bound (write_index q) (Size (queue_elements q))) as Hb.
  rewrite store_insert by lia. eexists. split; [done|].
  unfold queue_list, Size in *. cbn. rewrite length_insert, wadd_id by lia.
  replace (write_index q + 1 - read_index q) with (write_index q - read_index q + 1) by lia.
  rewrite seqZ_app, fmap_app by lia. f_equal.
  - apply list_fmap_ext. intros k i Hk. apply lookup_seqZ in Hk as [-> Hk].
    apply list_lookup_insert_ne. intros He. apply Z2Nat.inj in He; [|apply Z.mod_pos_bound; lia..].
    assert ((write_index q - (read_index q + Z.of_nat k)) mod Z.of_nat (length (queue_elements q)) = 0) as Hz.
    { rewrite Zminus_mod, He, Z.sub_diag. by apply Z.mod_0_l; lia. }
    rewrite Z.mod_small in Hz by lia. lia.
  - replace (read_index q + (write_index q - read_index q)) with (write_index q) by lia.
    change (seqZ (write_index q) 1) with [0 + write_index q]. rewrite Z.add_0_l. cbn [fmap list_fmap].
    by rewrite list_lookup_insert_eq by lia.
Qed.

(** What is taken is the first element as long as [read_index] is below the size less one. *)
Lemma dequeue_first (o : option T) (os : list (option T)) q : queue_wf q → queue_list q = o :: os → read_index q < Size (queue_elements q) - 1 →
  ∃ w q', dequeue q = Some (Some w, q') ∧ o = Some w ∧ queue_list q' = os.
Proof.
  intros Hw Hq Hlt. pose proof (queue_wf_size q Hw) as Hs. pose proof Hw as (_ & Hr & Hm & Hd).
  unfold queue_list in Hq. destruct (Z.eq_dec (write_index q) (read_index q)) as [He|Hne].
  { by rewrite He, Z.sub_diag in Hq. }
  rewrite seqZ_cons in Hq by lia. cbn in Hq. simplify_eq.
  unfold dequeue. rewrite (proj2 (Z.eqb_neq _ _)), wsub_id by (done || lia).
  rewrite (proj2 (Z.eqb_neq _ _)), !Z.mod_small, element_lookup by lia.
  destruct (lookup_lt_is_Some_2 (queue_elements q) (Z.to_nat (read_index q))) as [w Hw']; [unfold Size in *; lia|].
  rewrite Hw'. do 2 eexists. split_and!; [done|done|]. unfold queue_list. cbn. rewrite wadd_id by lia.
  do 2 f_equal; lia.
Qed.
End containers.

(** After that the order is lost: the fourth element of a queue of four is the first again. *)
Lemma dequeue_repeats :
  (q ← enqueue 1 (MkQueue [0; 0; 0; 0] 0 0); q ← enqueue 2 q; q ← enqueue 3 q; q ← enqueue 4 q;
   a ← dequeue q; b ← dequeue (snd a); c ← dequeue (snd b); d ← dequeue (snd c);
   Some [fst a; fst b; fst c; fst d]) = Some [Some 1; Some 2; Some 3; Some 1].
Proof. reflexivity. Qed.
End containers_proofs.
