(* ===== verification/FairnessProofs.v ===== *)
(** Fairness of the processor: on top of the timer's round robin, every process of
    the highest ready priority runs within a bounded number of ticks. *)

From S2P Require Import Prelude Word Types Dll Kernel Scheduler SchedulerProofs Hal ProcessManager.
From S2P Require Import ProcessManagerProofs.

Section fairness.
Context `{config}.

(** The timer interrupts in a row, each handled to its end. *)
Fixpoint ticks (c : Z) (n : nat) : M kernel_result :=
  match n with
  | O => ok
  | S n' => let? _ := handle_timer c in ticks c n'
  end.

(** A process of the rotation: runnable, ready, of priority [i] and with a quantum
    that is not used up. *)
Definition rotating (k : kernel) (i q : Z) : Prop :=
  ∃ v root fs gs, runnable k q v root fs gs ∧ status v = PS_READY ∧ priority v = i ∧
    1 ≤ quantum v ≤ QUANTUM_MAX.

(** Core [c] runs [p], with [u] units left, and the others of its priority [i]
    wait in the order [l]; nothing of a higher priority is ready. *)
Record rotation (c i : Z) (k : kernel) (p : Z) (u : Z) (l : list Z) : Prop := {
  rot_cpu : ∃ cpu hc, on_cpu c k cpu hc p ∧ Forall (λ q, q ≠ idle_process (process_manager_core cpu)) (p :: l);
  rot_queues : ∃ qs, sched_inv c k qs ∧ qs i = l ∧ ∀ j, i < j → qs j = [];
  rot_range : 0 ≤ i < PRIORITY_MAX;
  rot_members : Forall (rotating k i) (p :: l);
  rot_running : ∃ v, processes k !! p = Some v ∧ is_in_ready_queue v = false ∧ next v = None ∧
                  preview v = None ∧ quantum v = u;
}.

(** ** One tick *)

Lemma abs_schedule_top (qs : ready_queues) (i q : Z) (l : list Z) :
  0 ≤ i < PRIORITY_MAX → qs i = q :: l → (∀ j, i < j → qs j = []) → abs_schedule qs = Some (i, q, l).
Proof using Type.
  intros Hi Hq Hh. unfold abs_schedule, PRIORITY_MAX in *.
  rewrite (highest_ready_skip qs _ (S (Z.to_nat i))); [|lia|intros j Hj; apply Hh; lia].
  cbn [highest_ready]. by rewrite Z2Nat.id, Hq by lia.
Qed.

Lemma rotating_update k i p v w q :
  processes k !! p = Some v → registers w = registers v → status w = PS_READY → priority w = i →
  1 ≤ quantum w ≤ QUANTUM_MAX → rotating k i q → rotating (k <| processes ::= <[p := w]> |>) i q.
Proof using Type.
  intros Hp Hr Hs Hi Hq (v' & root & fs & gs & [H1 H2 H3 H4 H5] & Hst & Hpr & Hqu).
  destruct (decide (q = p)) as [->|Hne].
  - assert (v' = v) as -> by congruence. exists w, root, fs, gs. split_and!; try (done || lia).
    split; [apply lookup_insert_eq|by rewrite Hr..|done|done].
  - exists v', root, fs, gs. split_and!; try (done || lia). split; try done. ksimpl_goal. by lookup_solve.
Qed.

(** The fields scheduling leaves alone. *)
Lemma rotating_dispatched c p root fs gs idle qs' k k' i q :
  dispatched c p root fs gs idle qs' k k' → rotating k i q → rotating k' i q.
Proof using Type.
  intros [H1 _ H3 _ _ _] (v & r & f & g & [R1 R2 R3 R4 R5] & Hst & Hpr & Hqu).
  assert (∃ v', processes k' !! q = Some v' ∧ context_core v' = context_core v) as (v' & Hv' & Hc).
  { apply (f_equal (.!! q)) in H3. rewrite !lookup_fmap, R1 in H3.
    destruct (processes k' !! q) as [v'|]; [|done]. exists v'. split; [done|].
    change (Some (context_core v') = Some (context_core v)) in H3. congruence. }
  pose proof (f_equal registers Hc) as E1. pose proof (f_equal status Hc) as E2.
  pose proof (f_equal priority Hc) as E3. pose proof (f_equal quantum Hc) as E4.
  cbn in E1, E2, E3, E4. exists v', r, f, g. rewrite E2, E3, E4. split_and!; try (done || lia).
  split; [done|by rewrite E1..| |done]. rewrite H1. exact R4.
Qed.

Lemma rotation_timer c i k p u l q l' :
  one_core → rotation c i k p u l → l ++ [p] = q :: l' →
  wp (handle_timer c)
     (λ r k', r = Ok tt ∧
        if 1 <? u then rotation c i k' p (u - 1) l
        else ∃ u', 1 ≤ u' ≤ QUANTUM_MAX ∧ rotation c i k' q u' l') k.
Proof.
  intros Hone [(cpu & hc & Hon & Hidle) (qs & Hinv & Hl & Hhigh) Hi Hmem (v & Hv & Hflag & Hnx & Hpv & Hu)] Hq.
  pose proof Hmem as Hmem'. apply Forall_cons in Hmem as [(v0 & r0 & f0 & g0 & Hrun0 & Hst & Hpr & Hqu) Hmem].
  assert (v0 = v) as -> by (destruct Hrun0; congruence). clear Hrun0.
  pose proof Hidle as Hidle'. apply Forall_cons in Hidle as [Hip Hil].
  assert (Hin : q ∈ p :: l) by (assert (q ∈ l ++ [p]) by (rewrite Hq; by left); set_solver).
  destruct (proj1 (Forall_forall _ _) Hmem' q Hin) as (nv & root & fs & gs & Hrun & Hnst & Hnpr & Hnqu).
  assert (Hnext : next_to_run 0 (ready_queues_with qs p v) =
                  (q, false, update_queue i l' (update_queue i (q :: l') qs))).
  { unfold next_to_run, ready_queues_with. rewrite Hflag, Hpr, Hl, Hq.
    rewrite (abs_schedule_top _ i q l'); [done|done|apply update_queue_eq|].
    intros j Hj. rewrite update_queue_ne by lia. by apply Hhigh. }
  eapply wp_mono; [|eapply (handle_timer_spec c k qs cpu hc p v q nv root fs gs); try done; try lia].
  - intros r k' [-> Hk']. split; [done|]. rewrite Hu in Hk'.
    destruct (Z.ltb_spec 1 u) as [Hlt|Hge].
    + subst k'. split; try done.
      * exists cpu, hc. split; [by destruct Hon|done].
      * exists qs. split; [|done]. eapply sched_inv_insert; [done..|by left].
      * eapply Forall_impl; [exact Hmem'|]. intros q' Hq'. eapply rotating_update; [done..| |done].
        ksimpl_goal. lia.
      * eexists. split; [apply lookup_insert_eq|]. ksimpl_goal. split_and!; try done. lia.
    + destruct Hk' as [_ Hd].
      assert (Hmem2 : Forall (rotating k' i) (q :: l')).
      { rewrite <- Hq. apply Forall_forall. intros q' Hq'. eapply rotating_dispatched; [exact Hd|].
        eapply rotating_update; [done..| |]; [unfold readied, QUANTUM_MAX; ksimpl_goal; lia|].
        rewrite Forall_forall in Hmem'. apply Hmem'. set_solver. }
      pose proof Hmem2 as Hmem2'. apply Forall_cons in Hmem2' as [(v' & ? & ? & ? & [Hv' _ _ _ _] & _ & _ & Hqu') _].
      exists (quantum v'). split; [done|].
      destruct Hd as [_ (cpu' & hc' & Hon' & _) _ Hinv' Hun Hid]. split; try done.
      * exists cpu', hc'. split; [done|]. rewrite <- Hq. apply Forall_forall. intros q' Hq'.
        assert (idle_process (process_manager_core cpu') = idle_process (process_manager_core cpu)) as ->.
        { unfold idle_of in Hid. rewrite (cpu_local _ _ _ _ _ Hon') in Hid.
          change (cpu_local_variables (k <| processes ::= _ |>)) with (cpu_local_variables k) in Hid.
          rewrite (cpu_local _ _ _ _ _ Hon) in Hid. by injection Hid. }
        rewrite Forall_forall in Hidle'. apply Hidle'. set_solver.
      * eexists. split; [exact Hinv'|]. split; [apply update_queue_eq|].
        intros j Hj. rewrite !update_queue_ne by lia. by apply Hhigh.
      * destruct (Hun eq_refl) as (w & Hw & ? & ? & ?). exists v'. assert (w = v') as -> by congruence. done.
  - unfold sched_consistent. by rewrite Hflag.
Qed.

(** ** Many ticks *)

Lemma ticks_S c n Q k P :
  wp (handle_timer c) (λ r k', r = Ok tt ∧ P k') k →
  (∀ k', P k' → wp (ticks c n) Q k') → wp (ticks c (S n)) Q k.
Proof using Type.
  intros Ht Hn. cbn [ticks]. apply wp_and_then. eapply wp_mono; [|exact Ht]. intros r k' [-> Hk']. by apply Hn.
Qed.

(** The state a tick that ends leads to. *)
Lemma tick_state c k P : wp (handle_timer c) (λ r k', r = Ok tt ∧ P k') k →
  ∃ k', P k' ∧ wp (handle_timer c) (λ r k'', r = Ok tt ∧ k'' = k') k.
Proof using Type.
  intros (r & k' & E & -> & Hk')%wp_run. exists k'. split; [done|]. apply wp_run. eauto.
Qed.

(** A process that runs uses its quantum up, and the first of the others follows. *)
Lemma quantum_ends c i p l q l' : one_core → l ++ [p] = q :: l' →
  ∀ n k u, Z.to_nat u = n → 1 ≤ u → rotation c i k p u l →
  ∃ k' u', 1 ≤ u' ≤ QUANTUM_MAX ∧ rotation c i k' q u' l' ∧
    wp (ticks c n) (λ r k'', r = Ok tt ∧ k'' = k') k.
Proof.
  intros Hone Hq. induction n as [|n IH]; intros k u Hn Hu Hrot; [lia|].
  pose proof (rotation_timer c i k p u l q l' Hone Hrot Hq) as (k1 & Hk1 & Ht)%tick_state.
  destruct (Z.ltb_spec 1 u).
  - destruct (IH k1 (u - 1)) as (k' & u' & Hu' & Hr' & Hw); [lia|lia|done|].
    exists k', u'. split_and!; try done; try lia. eapply ticks_S; [exact Ht|]. by intros ? ->.
  - assert (n = 0%nat) as -> by lia. destruct Hk1 as (u' & Hu' & Hr').
    exists k1, u'. split_and!; try done; try lia. eapply ticks_S; [exact Ht|]. intros ? ->. by wp_steps.
Qed.

Lemma ticks_app c a b k k1 Q :
  wp (ticks c a) (λ r k', r = Ok tt ∧ k' = k1) k → wp (ticks c b) Q k1 → wp (ticks c (a + b)) Q k.
Proof using Type.
  revert k. induction a as [|a IH]; intros k Ha Hb.
  - apply wp_run in Ha as (r & k' & E & _ & ->). by injection E as _ ->.
  - cbn [Nat.add]. apply wp_run in Ha as (r & k' & E & -> & ->). cbn [ticks] in E.
    unfold and_then at 1 in E. unfold mbind, M_bind in E.
    destruct (handle_timer c k) as [[[]|] k'| |] eqn:Et; try done.
    eapply (ticks_S _ _ _ _ (λ k'', k'' = k')); [apply wp_run; eauto|].
    intros ? ->. apply IH; [|done]. apply wp_run. eauto.
Qed.

Lemma rotation_reaches c i q l2 : one_core → ∀ l1 k p u, 1 ≤ u → rotation c i k p u (l1 ++ q :: l2) →
  ∃ n, Z.of_nat n ≤ u + QUANTUM_MAX * Z.of_nat (length l1) ∧
    wp (ticks c n) (λ r k', r = Ok tt ∧ ∃ u' l', rotation c i k' q u' l') k.
Proof.
  intros Hone. intros l1. revert l2. induction l1 as [|h l1 IH]; intros l2 k p u Hu Hrot.
  - destruct (quantum_ends c i p (q :: l2) q (l2 ++ [p]) Hone eq_refl _ k u eq_refl Hu Hrot)
      as (k' & u' & _ & Hr & Hw).
    exists (Z.to_nat u). split; [cbn [length]; lia|]. eapply wp_mono; [|exact Hw]. intros r ? [-> ->]. eauto.
  - destruct (quantum_ends c i p (h :: l1 ++ q :: l2) h (l1 ++ q :: l2 ++ [p]) Hone) with (2 := eq_refl (Z.to_nat u)) (k := k)
      as (k' & u' & Hu' & Hr & Hw); [cbn; by rewrite <- app_assoc|done|done|].
    destruct (IH (l2 ++ [p]) k' h u') as (n & Hn & Hwn); [lia|done|].
    exists (Z.to_nat u + n)%nat. split; [cbn [length]; lia|]. by eapply ticks_app.
Qed.
End fairness.

(** C9: no ready process of the highest priority starves.  While the core runs
    processes of the highest ready priority and no other event happens, a process
    that waits behind [length l1] others has the processor after at most the
    quantum that is left of the running one and a full quantum for each process
    before it; every timer interrupt on the way succeeds, and the rotation goes
    on in the same way from there. *)
Theorem ready_process_runs `{config} c i k p u l1 q l2 :
  one_core → 1 ≤ u → rotation c i k p u (l1 ++ q :: l2) →
  ∃ n, Z.of_nat n ≤ u + QUANTUM_MAX * Z.of_nat (length l1) ∧
    wp (ticks c n) (λ r k', r = Ok tt ∧ ∃ u' l', rotation c i k' q u' l') k.
Proof. intros Hone Hu. by apply rotation_reaches. Qed.

Section example.
#[local] Existing Instance example_config.

(** Process 3 runs with 4 units left; 1 and 2 wait. *)
Definition rotating_machine : kernel :=
  (example_machine 4)
    <| processes := {[0 := initial_process;
                      1 := (ready_process 5 None (Some 2) true) <| quantum := 10 |>;
                      2 := (ready_process 5 (Some 1) None true) <| quantum := 10 |>;
                      3 := (ready_process 5 None None false) <| quantum := 4 |>]} |>.

Lemma rotating_machine_rotation : rotation 0 5 rotating_machine 3 4 [1; 2].
Proof.
  split.
  - exists (example_cpu 3), example_core. split; [done|].
    repeat (apply Forall_cons_2; [done|]). apply Forall_nil_2.
  - exists example_queues. split_and!; [|done|].
    + eexists. split; [reflexivity|].
      apply (sched_repr_update initial_scheduler (processes rotating_machine) (λ _, [])); try done.
      * apply sched_repr_initial.
      * intros p Hp. assert (p = 1 ∨ p = 2) as [->| ->] by set_solver; by eexists.
      * intros j. unfold update_queue. case_decide; [subst; intros; cbn; unfold PRIORITY_MAX; lia|done].
    + intros j Hj. unfold example_queues. rewrite update_queue_ne by lia. done.
  - done.
  - repeat (apply Forall_cons_2; [by eexists _, _, _, _|]). apply Forall_nil_2.
  - by eexists.
Qed.

Lemma ready_process_runs_witness :
  ∃ n, Z.of_nat n ≤ 14 ∧
    wp (ticks 0 n) (λ r k', r = Ok tt ∧ ∃ u' l', rotation 0 5 k' 2 u' l') rotating_machine.
Proof. apply (ready_process_runs 0 5 rotating_machine 3 4 [1] 2 []); [done|lia|apply rotating_machine_rotation]. Defined.
End example.
