(* ===== verification/ReadyQueueInvariant.v ===== *)
(** The ready queues in every reachable state: whatever sequence of scheduler
    operations and of changes to processes outside the queues leads there, the
    queues are well formed and no operation is undefined. *)

From S2P Require Import Prelude Word Types Dll Kernel Scheduler SchedulerProofs.

(** A process with no place in a queue. *)
Definition unlinked (v : process) : Prop :=
  is_in_ready_queue v = false ∧ next v = None ∧ preview v = None.

(** One step of the system as far as the scheduler of core [c] sees it: an
    operation of the scheduler that ended, whatever it answered, or a change by
    another component of a process that is in no queue, which may be its creation
    or any change of its status, priority or context. *)
Inductive ready_step (c : Z) : kernel → kernel → Prop :=
| step_schedule k r k' : schedule c k = Ret r k' → ready_step c k k'
| step_add k p r k' :
    is_Some (processes k !! p) → add_process c (Some p) k = Ret r k' → ready_step c k k'
| step_remove k p r k' : remove_process c (Some p) k = Ret r k' → ready_step c k k'
| step_direct k p r k' :
    is_Some (processes k !! p) → try_direct_schedule c (Some p) k = Ret r k' → ready_step c k k'
| step_process k p w :
    (∀ v, processes k !! p = Some v → unlinked v) → unlinked w →
    ready_step c k (k <| processes ::= <[p := w]> |>).

(** The queues represent lists, and a process is linked exactly when it is in one. *)
Definition queues_ok (c : Z) (k : kernel) (qs : ready_queues) : Prop :=
  sched_inv c k qs ∧ ∀ p v, processes k !! p = Some v → ¬ in_queues qs p → unlinked v.

Definition empty_queues : ready_queues := λ _, [].

Lemma in_queues_update i l qs p : in_queues (update_queue i l qs) p ↔ p ∈ l ∨ ∃ j, j ≠ i ∧ p ∈ qs j.
Proof.
  unfold in_queues. split.
  - intros [j Hj]. destruct (decide (j = i)) as [->|Hne].
    + rewrite update_queue_eq in Hj. by left.
    + rewrite update_queue_ne in Hj by done. right. by exists j.
  - intros [Hl|(j & Hne & Hj)]; [exists i; by rewrite update_queue_eq|].
    exists j. by rewrite update_queue_ne.
Qed.

Lemma in_queues_dec s ps qs p : sched_repr s ps qs → in_queues qs p ∨ ¬ in_queues qs p.
Proof.
  intros Hr. destruct (decide (Exists (λ i, p ∈ qs i) (seqZ 0 PRIORITY_MAX))) as [He|Hn].
  - left. apply Exists_exists in He as (i & _ & Hi). by exists i.
  - right. intros [i Hi]. apply Hn, Exists_exists. exists i. split; [|done].
    apply elem_of_seqZ. pose proof (repr_range _ _ _ Hr i) as Hrange.
    assert (qs i ≠ []) as H by (by intros E; rewrite E in Hi; apply not_elem_of_nil in Hi). specialize (Hrange H). lia.
Qed.

(** An operation of the scheduler keeps the invariant when every process that it
    touched and that is in no queue afterwards was unlinked by it. *)
Lemma queues_ok_after c k qs qs' T P k' :
  is_Some (cpu_local_variables k !! c) → queues_ok c k qs →
  sched_after c k (processes k) qs' T P k' →
  (∀ ps q, P ps → ¬ in_queues qs' q → dequeued q ps ∨ (¬ T q ∨ ps = processes k) ∧ ¬ in_queues qs q) →
  queues_ok c k' qs'.
Proof.
  intros Hc [Hinv Hun] Hafter Hq. pose proof Hafter as (s & ps & -> & Hr & Hf & HP).
  split; [by eapply sched_after_inv|]. intros q w Hw Hnin. ksimpl.
  change (processes (with_sched c s ps k)) with ps in Hw.
  destruct (Hq ps q HP Hnin) as [(v & Hv & ?)|[Hor Hold]].
  - unfold unlinked. assert (v = w) as -> by congruence. done.
  - apply (Hun q w); [|done]. rewrite <- Hw. destruct Hor as [HT| ->]; [|done].
    symmetry. by apply (frame_other _ _ _ Hf).
Qed.

Section step.
Context (c : Z) (k : kernel) (qs : ready_queues) (Hok : queues_ok c k qs).

Local Lemma step_cpu : is_Some (cpu_local_variables k !! c).
Proof. destruct Hok as [(cpu & ? & _) _]. by eexists. Qed.

Lemma schedule_ok : wp (schedule c) (λ _ k', ∃ qs', queues_ok c k' qs') k.
Proof.
  pose proof Hok as [Hinv _]. eapply wp_mono; [|by apply schedule_spec]. intros r k'.
  destruct (abs_schedule qs) as [[[i p] l]|] eqn:Ha; [|intros [_ ->]; by exists qs].
  intros [_ Hk']. eexists. eapply queues_ok_after; [apply step_cpu|done|exact Hk'|].
  apply highest_ready_Some in Ha as (_ & Hqs & _).
  intros ps q Hd Hnin. rewrite in_queues_update in Hnin.
  destruct (decide (q = p)) as [->|Hne]; [by left|right].
  assert (¬ in_queues qs q); [|by split; [left|]].
  intros [j Hj]. apply Hnin. destruct (decide (j = i)) as [->|]; [|right; by exists j].
  rewrite Hqs in Hj. apply elem_of_cons in Hj as [->|]; [done|by left].
Qed.

Lemma add_process_ok p :
  is_Some (processes k !! p) → wp (add_process c (Some p)) (λ _ k', ∃ qs', queues_ok c k' qs') k.
Proof.
  intros [v Hv]. pose proof Hok as [Hinv _]. eapply wp_mono; [|by apply add_process_spec]. intros r k'.
  destruct (add_process_error v); [intros [_ ->]; by exists qs|].
  intros [_ Hk']. eexists. eapply queues_ok_after; [apply step_cpu|done|exact Hk'|].
  intros ps q _ Hnin. rewrite in_queues_update in Hnin. right.
  assert (¬ in_queues qs q ∧ q ≠ p) as [Hn Hne].
  { split; [|intros ->; apply Hnin; left; set_solver].
    intros [j Hj]. apply Hnin. destruct (decide (j = priority v)) as [->|]; [left; set_solver|right; by exists j]. }
  split; [|done]. left. by intros [|].
Qed.

Lemma remove_process_ok p : wp (remove_process c (Some p)) (λ _ k', ∃ qs', queues_ok c k' qs') k.
Proof.
  pose proof Hok as [Hinv _]. eapply wp_mono; [|by apply remove_process_spec].
  intros r k' [(i & _ & l1 & l2 & Hqs & Hk')|(_ & _ & ->)]; [|by exists qs].
  eexists. eapply queues_ok_after; [apply step_cpu|done|exact Hk'|].
  intros ps q Hd Hnin. rewrite in_queues_update in Hnin.
  destruct (decide (q = p)) as [->|Hne]; [by left|right].
  assert (¬ in_queues qs q); [|by split; [left|]].
  intros [j Hj]. apply Hnin. destruct (decide (j = i)) as [->|]; [|right; by exists j].
  left. rewrite Hqs in Hj. set_solver.
Qed.

Lemma try_direct_schedule_ok p :
  is_Some (processes k !! p) → wp (try_direct_schedule c (Some p)) (λ _ k', ∃ qs', queues_ok c k' qs') k.
Proof.
  intros [v Hv]. pose proof Hok as [Hinv Hun]. eapply wp_mono; [|by apply try_direct_schedule_spec].
  intros r k' [_ Hk']. eexists. eapply queues_ok_after; [apply step_cpu|done|exact Hk'|].
  clear Hk' r. intros ps q [[Heq ->]|(y & Hy & Hd)] Hnin.
  { right. rewrite Heq in Hnin. by split; [right|]. }
  destruct (decide (q = y)) as [->|Hne]; [by left|right].
  enough (¬ in_queues qs q ∧ q ≠ p) as [Hn Hp] by (split; [left; by intros [|]|done]).
  unfold abs_direct in *. destruct (_ || _); [done|].
  destruct (abs_schedule qs) as [[[i x] l]|] eqn:Ha.
  - destruct (Z.ltb_spec (priority v) i) as [Hlt|_].
    + destruct (add_process_error v) as [e|]; cbn [fst snd] in *; [done|]. injection Hy as ->.
      apply highest_ready_Some in Ha as (_ & Hqs & _). rewrite in_queues_update in Hnin. split.
      * intros [j Hj]. apply Hnin. destruct (decide (j = i)) as [->|Hji].
        { rewrite Hqs in Hj. left. set_solver. }
        right. exists j. split; [done|]. destruct (decide (j = priority v)) as [->|].
        -- rewrite update_queue_eq. set_solver.
        -- by rewrite update_queue_ne.
      * intros ->. apply Hnin. right. exists (priority v). split; [lia|]. rewrite update_queue_eq. set_solver.
    + destruct (is_in_ready_queue v); cbn [fst snd] in *; [done|]. by injection Hy as ->.
  - destruct (is_in_ready_queue v); cbn [fst snd] in *; [done|]. by injection Hy as ->.
Qed.

Lemma process_change_ok p w :
  (∀ v, processes k !! p = Some v → unlinked v) → unlinked w →
  queues_ok c (k <| processes ::= <[p := w]> |>) qs.
Proof.
  intros Hp Hw. destruct Hok as [(cpu & Hc & Hr) Hun].
  assert (Hout : ¬ in_queues qs p).
  { intros [i Hi]. destruct (repr_members _ _ _ Hr i p Hi) as (v & Hv & _ & Hf & _).
    destruct (Hp v Hv) as [? _]. congruence. }
  split.
  - exists cpu. split; [done|]. ksimpl_goal. destruct Hr as [H1 H2 H3 H4 H5 H6].
    assert (Hsame : ∀ i q, q ∈ qs i → <[p := w]> (processes k) !! q = processes k !! q).
    { intros i q Hq. apply lookup_insert_ne. intros ->. apply Hout. by exists i. }
    split; try done.
    + intros i. eapply dlist_ext; [|apply H2]. intros y Hy. unfold heap_links. by erewrite Hsame.
    + intros i q Hq. erewrite Hsame by done. by apply H3.
  - intros q v. ksimpl_goal. destruct (decide (q = p)) as [->|Hne].
    + rewrite lookup_insert_eq. by intros [= <-] _.
    + rewrite lookup_insert_ne by done. apply Hun.
Qed.
End step.

Lemma ready_step_ok c k k' qs : queues_ok c k qs → ready_step c k k' → ∃ qs', queues_ok c k' qs'.
Proof.
  intros Hok Hs. revert Hok. destruct Hs as [? r ? E|? p r ? Hp E|? p r ? E|? p r ? Hp E|? p w Hp Hw]; intros Hok.
  - pose proof (schedule_ok c _ qs Hok) as (? & ? & E' & H)%wp_run. rewrite E in E'. by simplify_eq.
  - pose proof (add_process_ok c _ qs Hok p Hp) as (? & ? & E' & H)%wp_run. rewrite E in E'. by simplify_eq.
  - pose proof (remove_process_ok c _ qs Hok p) as (? & ? & E' & H)%wp_run. rewrite E in E'. by simplify_eq.
  - pose proof (try_direct_schedule_ok c _ qs Hok p Hp) as (? & ? & E' & H)%wp_run. rewrite E in E'. by simplify_eq.
  - exists qs. by apply process_change_ok.
Qed.

(** C8: the ready queues stay well formed.  From a core with an initialised
    scheduler and no process queued, whatever operations of the scheduler and
    changes of processes outside its queues follow: the pointers represent one
    FIFO list per priority, a process is in at most one of them and then READY,
    with its priority and marked, every other process is unlinked, and each of
    the four operations ends without undefined behaviour. *)
Theorem ready_queues_invariant c k0 k :
  sched_inv c k0 empty_queues → map_Forall (λ _, unlinked) (processes k0) → rtc (ready_step c) k0 k →
  (∃ qs, sched_inv c k qs ∧
     (∀ i j p, p ∈ qs i → p ∈ qs j → i = j) ∧
     (∀ p v, processes k !! p = Some v → if is_in_ready_queue v then in_queues qs p else unlinked v)) ∧
  (∃ r k', schedule c k = Ret r k') ∧
  ∀ p, is_Some (processes k !! p) →
    (∃ r k', add_process c (Some p) k = Ret r k') ∧
    (∃ r k', remove_process c (Some p) k = Ret r k') ∧
    (∃ r k', try_direct_schedule c (Some p) k = Ret r k').
Proof.
  intros Hinv Hun Hsteps.
  assert (∃ qs, queues_ok c k qs) as [qs Hok].
  { assert (∃ qs, queues_ok c k0 qs) as Hk0.
    { exists empty_queues. split; [done|]. intros p v Hv _. exact (map_Forall_lookup_1 _ _ _ _ Hun Hv). }
    clear Hinv Hun. induction Hsteps as [|k1 k2 k3 Hs _ IH]; [done|].
    apply IH. destruct Hk0 as [qs Hqs]. by eapply ready_step_ok. }
  split; [|split].
  - exists qs. pose proof Hok as [Hi Hu]. split; [done|]. destruct Hi as (cpu & _ & Hr). split.
    + intros i j p. by apply (queued_unique _ _ _ _ _ _ Hr).
    + intros p v Hv. destruct (is_in_ready_queue v) eqn:Hf.
      * destruct (in_queues_dec _ _ _ p Hr) as [|Hn]; [done|]. destruct (Hu p v Hv Hn). congruence.
      * apply (Hu p v Hv). intros [i Hin]. pose proof (queued_flag _ _ _ _ _ _ Hr Hin Hv). congruence.
  - destruct (proj1 (wp_run _ _ _) (schedule_ok c k qs Hok)) as (r & k' & E & _). eauto.
  - intros p Hp. split_and!.
    + destruct (proj1 (wp_run _ _ _) (add_process_ok c k qs Hok p Hp)) as (r & k' & E & _). eauto.
    + destruct (proj1 (wp_run _ _ _) (remove_process_ok c k qs Hok p)) as (r & k' & E & _). eauto.
    + destruct (proj1 (wp_run _ _ _) (try_direct_schedule_ok c k qs Hok p Hp)) as (r & k' & E & _). eauto.
Qed.

Lemma ready_queues_invariant_witness :
  let k0 := initial_kernel <| processes := {[7 := initial_process <| status := PS_READY |>]} |> in
  ∃ k r, add_process 0 (Some 7) k0 = Ret r k ∧ ∃ r' k', schedule 0 k = Ret r' k'.
Proof.
  intros k0.
  destruct (ready_queues_invariant 0 k0 k0) as (_ & _ & Hops).
  - eexists. split; [reflexivity|]. apply sched_repr_initial.
  - apply map_Forall_singleton. repeat split.
  - apply rtc_refl.
  - destruct (Hops 7 ltac:(by eexists)) as ((r & k & E) & _). exists k, r. split; [done|].
    apply (ready_queues_invariant 0 k0 k).
    + eexists. split; [reflexivity|]. apply sched_repr_initial.
    + apply map_Forall_singleton. repeat split.
    + apply rtc_once, (step_add 0 k0 7 r k); [by eexists|exact E].
Defined.
