(* ===== verification/BootTermination.v ===== *)
(** The loop that maps the page tables of the init process ends: a turn goes on to
    the next address of the image, or takes a page of the finite pool. *)

From S2P Require Import Prelude Word Types Dll Kernel Slot Hal Node Memory Scheduler.
From S2P Require Import ProcessManager Queues Generic Devices Print Version Reclamation Boot.

(** ** Computations that need no fuel *)

Definition ends {A} (m : M A) : Prop := ∀ k, m k ≠ OutOfFuel.

Lemma ends_ret {A} (a : A) : ends (mret a).
Proof. done. Qed.
Lemma ends_bind {A C} (m : M A) (f : A → M C) : ends m → (∀ a, ends (f a)) → ends (m ≫= f).
Proof.
  intros Hm Hf k. specialize (Hm k). unfold mbind, M_bind. destruct (m k); [apply Hf|done|done].
Qed.
Lemma ends_and_then {A C E} (m : M (result A E)) (f : A → M (result C E)) :
  ends m → (∀ a, ends (f a)) → ends (and_then m f).
Proof. intros Hm Hf. apply ends_bind; [done|]. intros [a|e]; [apply Hf|done]. Qed.
Lemma ends_map_error {A E F} (g : E → F) (m : M (result A E)) : ends m → ends (map_error g m).
Proof. intros Hm. by apply ends_bind. Qed.
Lemma ends_load {K V} `{Countable K} (heap : kernel → gmap K V) p : ends (load heap p).
Proof. intros k. unfold load. by destruct (heap k !! p). Qed.
Lemma ends_modify {K V} `{Countable K} (heap : kernel → gmap K V) `{!Upd heap} p f : ends (modify heap p f).
Proof. intros k. unfold modify. by destruct (heap k !! p). Qed.
Lemma ends_defined {A} (o : option A) : ends (defined o).
Proof. by destruct o. Qed.
Lemma ends_reads {A} (f : kernel → A) : ends (reads f).
Proof. done. Qed.
Lemma ends_updates f : ends (updates f).
Proof. done. Qed.
Lemma ends_undefined {A} : ends (@undefined A).
Proof. done. Qed.

Create HintDb ends.
#[export] Hint Resolve ends_ret ends_load ends_modify ends_defined ends_reads ends_updates ends_undefined : ends.

(** Walk through a computation. *)
Ltac ends_step :=
  first
    [ solve [eauto with ends]
    | apply ends_and_then; [|intros ?]
    | apply ends_map_error
    | apply ends_bind; [|intros ?]
    | progress case_match ].
Ltac ends_solve := repeat ends_step.

Section ends.
Context `{config}.

Lemma traverse_tables_ends turns table a i : ends (traverse_tables turns table a i).
Proof. revert table i. induction turns; intros; cbn [traverse_tables]; ends_solve. Qed.
Lemma search_unset_loop_ends turns table a i : ends (search_unset_loop turns table a i).
Proof. revert table i. induction turns; intros; cbn [search_unset_loop]; ends_solve. Qed.
Lemma clear_words_ends count a : ends (clear_words count a).
Proof. revert a. induction count; intros; cbn [clear_words]; ends_solve. Qed.
Hint Resolve traverse_tables_ends search_unset_loop_ends clear_words_ends : ends.

Lemma invalidate_local_tlb_ends b t a : ends (invalidate_local_tlb b t a).
Proof. unfold invalidate_local_tlb, this_core, emit. ends_solve. Qed.
Hint Resolve invalidate_local_tlb_ends : ends.

Lemma map_page_table_ends root table a r : ends (map_page_table root table a r).
Proof. unfold map_page_table, traverse_page_table_entry, fail, ok. ends_solve. Qed.
Lemma search_unset_page_table_depth_ends root a bits : ends (search_unset_page_table_depth root a bits).
Proof. unfold search_unset_page_table_depth. ends_solve. Qed.
Lemma retrieve_from_ends s i e : ends (retrieve_from s i e).
Proof. unfold retrieve_from, retrieve_slot, node_retrieve_slot, fail. ends_solve. Qed.
Lemma try_configure_page_table_slot_ends s t : ends (try_configure_page_table_slot s t).
Proof. unfold try_configure_page_table_slot, fail, ok. ends_solve. Qed.
Hint Resolve map_page_table_ends search_unset_page_table_depth_ends retrieve_from_ends
  try_configure_page_table_slot_ends : ends.

Lemma init_node_slot_ends pcb o : ends (init_node_slot pcb o).
Proof. unfold init_node_slot, fail. ends_solve. Qed.
Lemma root_table_of_ends pcb : ends (root_table_of pcb).
Proof. unfold root_table_of. ends_solve. Qed.
Hint Resolve init_node_slot_ends root_table_of_ends : ends.

(** ** The loop *)

Context (pool : Z).

(** In this phase: a computation that ends, with what holds of the state it leaves
    when it succeeds. *)
Definition boot_ends {A E} (m : B (result A E)) (b : boot_state) (P : A → boot_state → Prop) : Prop :=
  ∀ k, match m b k with
       | Ret (Ok a, b') _ => P a b'
       | Ret (Err _, _) _ | Undefined => True
       | OutOfFuel => False
       end.

Lemma boot_ends_lift {A E} (m : M (result A E)) b (P : A → boot_state → Prop) :
  ends m → (∀ a, P a b) → boot_ends (lift m) b P.
Proof using Type.
  intros Hm HP k. specialize (Hm k). unfold lift, mbind, M_bind.
  destruct (m k) as [[a|e] ?| |]; [apply HP|done..].
Qed.
Lemma boot_ends_then {A C E} (m : B (result A E)) (f : A → B (result C E)) b P Q :
  boot_ends m b P → (∀ a b', P a b' → boot_ends (f a) b' Q) → boot_ends (band_then m f) b Q.
Proof using Type.
  intros Hm Hf k. specialize (Hm k). unfold band_then, mbind at 1, B_bind, mbind at 1, M_bind.
  destruct (m b k) as [[[a|e] b'] k'| |]; try done. by apply Hf.
Qed.
Lemma boot_ends_mono {A E} (m : B (result A E)) b (P Q : A → boot_state → Prop) :
  boot_ends m b P → (∀ a b', P a b' → Q a b') → boot_ends m b Q.
Proof using Type.
  intros Hm HPQ k. specialize (Hm k). destruct (m b k) as [[[a|e] b'] k'| |]; auto.
Qed.

(** A page from the pool. *)
Lemma allocate_page_spec current start current' :
  0 ≤ current ≤ POOL_SIZE → allocate current PAGE_SIZE 1 = Some (Ok (start, current')) →
  current + PAGE_SIZE ≤ current' ≤ POOL_SIZE.
Proof using Type.
  intros Hc. unfold allocate, align_to. change PAGE_SIZE with 4096. change POOL_SIZE with 4194304 in *.
  rewrite wadd_id, wsub_id by lia. rewrite !wmul_id by (pose proof (Z.div_mod (current + 4096 - 1) 4096);
    pose proof (Z.mod_pos_bound (current + 4096 - 1) 4096); lia).
  pose proof (Z.div_mod (current + 4096 - 1) 4096). pose proof (Z.mod_pos_bound (current + 4096 - 1) 4096).
  destruct (_ || _) eqn:Hfit; [done|]. apply orb_false_iff in Hfit as [?%Z.ltb_ge ?%Z.ltb_ge].
  destruct (2 ^ 64 <=? 4096 * 1); [done|]. intros [= _ <-]. rewrite wadd_id by lia. lia.
Qed.

Lemma allocate_page_ends e b :
  0 ≤ allocator_current b ≤ POOL_SIZE →
  boot_ends (E := kernel_error) (ballocate_or e (init_allocate pool PAGE_SIZE 1 construct_page)) b
    (λ _ b', allocator_current b + PAGE_SIZE ≤ allocator_current b' ≤ POOL_SIZE).
Proof using Type.
  intros Hc k. unfold ballocate_or, init_allocate, mbind, B_bind, mbind, M_bind.
  destruct (allocate _ _ _) as [[[start current']|]|] eqn:Ha; cbn; try done.
  exact (allocate_page_spec _ _ _ Hc Ha).
Qed.

Lemma allocate_and_map_ends root node index depth a b :
  0 ≤ allocator_current b ≤ POOL_SIZE →
  boot_ends (allocate_and_map_page_table pool root node index depth a) b
    (λ _ b', allocator_current b + PAGE_SIZE ≤ allocator_current b' ≤ POOL_SIZE).
Proof using Type.
  intros Hc. eapply boot_ends_then; [by apply allocate_page_ends|]. intros memory b' Hb'.
  apply boot_ends_lift; [|done]. ends_solve.
Qed.

Lemma init_page_tables_loop_ends last root node fuel : last + 2 * FRAME_SIZE < 2 ^ 64 → ∀ index a b,
  0 ≤ a ≤ last + FRAME_SIZE → 0 ≤ allocator_current b ≤ POOL_SIZE →
  (last - a + FRAME_SIZE) / FRAME_SIZE + (POOL_SIZE - allocator_current b) / PAGE_SIZE ≤ Z.of_nat fuel →
  boot_ends (init_page_tables_loop pool fuel root node last index a) b (λ _ _, True).
Proof using Type.
  change FRAME_SIZE with 4096. intros Hlast.
  induction fuel as [|fuel IH]; intros index a b Ha Hb Hf; cbn [init_page_tables_loop].
  all: destruct (Z.ltb_spec last a) as [|Hle]; [by intros k|].
  { pose proof (Z.div_le_mono (1 * 4096) (last - a + 4096) 4096 ltac:(lia) ltac:(lia)) as Hd.
    rewrite Z.div_mul in Hd by lia. unfold PAGE_SIZE in *.
    pose proof (Z.div_pos (POOL_SIZE - allocator_current b) 4096). lia. }
  eapply boot_ends_then; [apply (boot_ends_lift _ b (λ _ b', b' = b)); [ends_solve|done]|].
  intros depth ? ->. destruct (depth =? 0).
  - change FRAME_SIZE with 4096. rewrite wadd_id by lia. apply IH; [lia|done|].
    replace (last - a + 4096) with (last - (a + 4096) + 4096 + 1 * 4096) in Hf by lia.
    rewrite Z.div_add in Hf by lia. lia.
  - eapply boot_ends_then; [by apply allocate_and_map_ends|]. intros [] b' Hb'. cbn beta in Hb'. unfold PAGE_SIZE in *.
    apply IH; [done|lia|].
    pose proof (Z.div_le_mono (POOL_SIZE - allocator_current b' + 1 * 4096) (POOL_SIZE - allocator_current b) 4096
      ltac:(lia) ltac:(lia)) as Hd. rewrite Z.div_add in Hd by lia. lia.
Qed.
End ends.

(** C32: the page tables of the init process are finished.  Whatever the state of the
    memory and the tables found in it, for an image that ends two pages below 2^64
    the loop over its addresses ends, with success or an error, within the turns
    the image and the pool have pages for. *)
Theorem init_page_tables_terminate `{config} pool pcb info b k :
  0 ≤ init_image_size info → FRAME_SIZE * init_image_size info + 2 * FRAME_SIZE < 2 ^ 64 →
  0 ≤ allocator_current b ≤ POOL_SIZE →
  try_configure_init_page_tables pool pcb info b k ≠ OutOfFuel.
Proof.
  intros Hn Hlast Hb.
  assert (boot_ends (try_configure_init_page_tables pool pcb info) b (λ _ _, True)) as He.
  { eapply boot_ends_then; [apply (boot_ends_lift _ b (λ _ b', b' = b)); [apply init_node_slot_ends|done]|].
    intros slot ? ->. intros k'. pose proof (root_table_of_ends pcb k') as Hr.
    unfold mbind at 1, B_bind, lift at 1, mbind at 1 2, M_bind.
    destruct (root_table_of pcb k') as [root k''| |]; try done. cbn [fst snd mret M_ret].
    change FRAME_SIZE with 4096 in *. rewrite wmul_id by lia.
    apply init_page_tables_loop_ends; change FRAME_SIZE with 4096; [lia..|].
    replace (init_image_size info * 4096 - 0 + 4096) with ((init_image_size info + 1) * 4096) by lia.
    rewrite Z.div_mul by lia. pose proof (Z.div_le_mono (POOL_SIZE - allocator_current b) POOL_SIZE PAGE_SIZE).
    change (POOL_SIZE / PAGE_SIZE) with 1024 in *. unfold PAGE_SIZE in *. lia. }
  specialize (He k). by destruct (try_configure_init_page_tables pool pcb info b k) as [[[|]]| |].
Qed.

Section example.
#[local] Existing Instance example_config.
Lemma init_page_tables_terminate_witness :
  try_configure_init_page_tables 0xFFFF800000A00000 7 (MkImage 0x400000 3 0 0x1000 0x2000)
    (MkBootState 0 (MkInitInfo 0 0 0 [] [] [] [] 0 [] 0 [] 0)) initial_kernel ≠ OutOfFuel.
Proof. apply init_page_tables_terminate; vm_compute; intuition discriminate. Defined.
End example.
