(* ===== verification/MemoryMap.v ===== *)
(** The physical memory map of an AArch64 machine: the ranges and the memory map of
    src/src/hal/aarch64/boot/boot_protocol.cpp.

    An array with its count is the list of the places in use; the test against
    the capacity is the code's.  Sorting and merging work in place, on indices. *)

From stdpp Require Import sorting.
From S2P Require Import Prelude Word Types Kernel Boot.

Definition DIRECT_MAP_END : Z := 16 * 1024 * 1024 * 1024.
Definition RANGE_CAPACITY : nat := 32.
Definition MEMORY_MAP_CAPACITY : nat := 64.

Record physical_range := MkRange { range_start : Z; range_end : Z }.

Definition align_down (value : Z) : Z := Z.ldiff value (PAGE_SIZE - 1).
Definition align_up (value : Z) : Z := Z.ldiff (wsub (wadd value PAGE_SIZE) 1) (PAGE_SIZE - 1).

Definition add_range (ranges : list physical_range) (start end_ : Z) : list physical_range :=
  let start := align_down start in
  let end_ := align_up end_ in
  if (end_ <=? start) || (RANGE_CAPACITY <=? length ranges)%nat then ranges
  else ranges ++ [MkRange start end_].

(** ** Sorting and merging *)

Definition exchange (ranges : list physical_range) (outer inner : nat) : list physical_range :=
  match ranges !! outer, ranges !! inner with
  | Some o, Some i => if range_start i <? range_start o then <[inner := o]> (<[outer := i]> ranges) else ranges
  | _, _ => ranges
  end.
Definition sort_inner (ranges : list physical_range) (outer : nat) : list physical_range :=
  foldl (λ r inner, exchange r outer inner) ranges (seq (S outer) (length ranges - S outer)).
Definition sort_ranges (ranges : list physical_range) : list physical_range :=
  foldl sort_inner ranges (seq 0 (length ranges)).

(** One turn of the second loop, on the array and [merged]. *)
Definition merge_step (s : list physical_range * nat) (index : nat) : list physical_range * nat :=
  let '(ranges, merged) := s in
  match ranges !! index with
  | None => s
  | Some r =>
      match merged with
      | O => (<[merged := r]> ranges, S merged)
      | S last =>
          match ranges !! last with
          | None => s
          | Some l =>
              if range_end l <? range_start r then (<[merged := r]> ranges, S merged)
              else if range_end l <? range_end r
              then (<[last := MkRange (range_start l) (range_end r)]> ranges, merged)
              else s
          end
      end
  end.
Definition merge_ranges (ranges : list physical_range) : list physical_range :=
  let '(ranges', merged) := foldl merge_step (ranges, O) (seq 0 (length ranges)) in
  take merged ranges'.

Definition sort_and_merge_ranges (ranges : list physical_range) : list physical_range :=
  merge_ranges (sort_ranges ranges).

(** ** The memory map *)

Definition entry_limit (e : memory_map_entry) : Z :=
  wadd (start_physical_address e) (wmul (page_count e) PAGE_SIZE).

Definition add_memory_map_entry (map : list memory_map_entry) (start end_ : Z) (type : memory_map_type)
    : list memory_map_entry :=
  let start := align_up start in
  let end_ := align_down end_ in
  let pages := wsub end_ start / PAGE_SIZE in
  let append := map ++ [MkEntry start pages type] in
  if (end_ <=? start) || (MEMORY_MAP_CAPACITY <=? length map)%nat then map
  else
    match last map with
    | None => append
    | Some previous =>
        if bool_decide (entry_type previous = type) && (entry_limit previous =? start)
        then <[pred (length map) := MkEntry (start_physical_address previous)
                                      (wadd (page_count previous) pages) (entry_type previous)]> map
        else append
    end.

(** The body of the loop over the reserved ranges, on the map and [cursor]. *)
Definition carve_reserved (ram : physical_range) (s : list memory_map_entry * Z)
    (reserved : physical_range) : list memory_map_entry * Z :=
  let '(map, cursor) := s in
  if (range_end reserved <=? range_start ram) || (range_end ram <=? range_start reserved) then s
  else
    let start := if range_start reserved <? range_start ram then range_start ram else range_start reserved in
    let end_ := if range_end ram <? range_end reserved then range_end ram else range_end reserved in
    let map := if cursor <? start then add_memory_map_entry map cursor start MMT_FREE else map in
    if cursor <? end_
    then (add_memory_map_entry map (if start <? cursor then cursor else start) end_ MMT_RESERVED, end_)
    else (map, cursor).

(** The body of the loop over the RAM ranges, on the map and [previous_ram_end]. *)
Definition map_ram (reserved : list physical_range) (s : list memory_map_entry * Z) (ram : physical_range)
    : list memory_map_entry * Z :=
  let '(map, previous_ram_end) := s in
  let map := if previous_ram_end <? range_start ram
             then add_memory_map_entry map previous_ram_end (range_start ram) MMT_DEVICE else map in
  let '(map, cursor) := foldl (carve_reserved ram) (map, range_start ram) reserved in
  let map := if cursor <? range_end ram then add_memory_map_entry map cursor (range_end ram) MMT_FREE
             else map in
  (map, range_end ram).

(** RAM of 1 GiB at 1 GiB, when the device tree names none. *)
Definition default_ram (ram : list physical_range) : list physical_range :=
  match ram with [] => add_range [] 0x40000000 0x80000000 | _ => ram end.

(** [construct_memory_map]: the memory map (empty before) and [memory_size]. *)
Definition construct_memory_map (ram reserved : list physical_range) : list memory_map_entry * Z :=
  let ram := sort_and_merge_ranges (default_ram ram) in
  let reserved := sort_and_merge_ranges reserved in
  (fst (foldl (map_ram reserved) ([], 0) ram),
   foldl (λ memory_size r, wadd memory_size (wsub (range_end r) (range_start r))) 0 ram).

(** * Properties

    The memory map: merging ranges keeps the addresses
    they cover, and the map gives every address its kind. *)


(** ** Ranges *)

Record range_ok (r : physical_range) : Prop := {
  range_positive : 0 ≤ range_start r < range_end r;
  range_word : range_end r ≤ DIRECT_MAP_END;
  range_start_aligned : range_start r mod PAGE_SIZE = 0;
  range_end_aligned : range_end r mod PAGE_SIZE = 0;
}.

Definition in_range (a : Z) (r : physical_range) : Prop := range_start r ≤ a < range_end r.
(** [a] is in one of the ranges. *)
Definition covered (ranges : list physical_range) (a : Z) : Prop := ∃ r, r ∈ ranges ∧ in_range a r.

Definition start_le (x y : physical_range) : Prop := range_start x ≤ range_start y.
(** Not even adjacent. *)
Definition ranges_apart (x y : physical_range) : Prop := range_end x < range_start y.

Lemma covered_app l1 l2 a : covered (l1 ++ l2) a ↔ covered l1 a ∨ covered l2 a.
Proof. unfold covered. set_solver. Qed.
Lemma covered_singleton r a : covered [r] a ↔ in_range a r.
Proof. unfold covered. set_solver. Qed.
Lemma covered_cons r l a : covered (r :: l) a ↔ in_range a r ∨ covered l a.
Proof. unfold covered. set_solver. Qed.
Lemma covered_perm l1 l2 a : l1 ≡ₚ l2 → covered l1 a ↔ covered l2 a.
Proof. intros Hp. unfold covered. by setoid_rewrite Hp. Qed.

(** ** Sorting *)

Lemma exchange_at l1 x l2 y l3 :
  exchange (l1 ++ x :: l2 ++ y :: l3) (length l1) (S (length l1 + length l2)) =
  if range_start y <? range_start x then l1 ++ y :: l2 ++ x :: l3 else l1 ++ x :: l2 ++ y :: l3.
Proof.
  unfold exchange. rewrite list_lookup_middle by done.
  replace (S (length l1 + length l2)) with (length l1 + S (length l2))%nat by lia.
  rewrite lookup_app_r by lia.
  replace (length l1 + S (length l2) - length l1)%nat with (S (length l2)) by lia.
  change ((x :: ?l) !! S ?n) with (l !! n). rewrite list_lookup_middle by done. case_match; [|done].
  rewrite insert_app_r_alt by lia. rewrite Nat.sub_diag. change (<[O := ?z]> (x :: ?l)) with (z :: l).
  rewrite insert_app_r_alt by lia.
  replace (length l1 + S (length l2) - length l1)%nat with (S (length l2)) by lia.
  change (<[S ?n := ?z]> (y :: ?l)) with (y :: <[n := z]> l).
  by rewrite insert_app_r_alt, Nat.sub_diag by lia.
Qed.

(** The inner loop brings a least element of the rest to the place [outer]. *)
Lemma sort_inner_loop l1 q : ∀ x p,
  Forall (start_le x) p →
  ∃ x' p', foldl (λ r inner, exchange r (length l1) inner) (l1 ++ x :: p ++ q)
             (seq (S (length l1 + length p)) (length q)) = l1 ++ x' :: p' ∧
    x' :: p' ≡ₚ x :: p ++ q ∧ Forall (start_le x') p'.
Proof.
  induction q as [|y q IH]; intros x p Hx; cbn [length seq foldl].
  { exists x, p. by rewrite app_nil_r. }
  rewrite exchange_at. destruct (Z.ltb_spec (range_start y) (range_start x)) as [Hlt|Hge].
  - destruct (IH y (p ++ [x])) as (x' & p' & Heq & Hp & Hf).
    { apply Forall_app. split; [|apply Forall_singleton; unfold start_le; lia].
      eapply Forall_impl; [exact Hx|]. unfold start_le. lia. }
    exists x', p'. split_and!; [|rewrite Hp; solve_Permutation|done].
    rewrite <- Heq. rewrite length_app, <- (app_assoc p). cbn [length app]. do 2 f_equal; lia.
  - destruct (IH x (p ++ [y])) as (x' & p' & Heq & Hp & Hf).
    { apply Forall_app. split; [done|apply Forall_singleton; done]. }
    exists x', p'. split_and!; [|rewrite Hp; solve_Permutation|done].
    rewrite <- Heq. rewrite length_app, <- (app_assoc p). cbn [length app]. do 2 f_equal; lia.
Qed.

Lemma sort_inner_spec l1 x l2 :
  ∃ x' p', sort_inner (l1 ++ x :: l2) (length l1) = l1 ++ x' :: p' ∧ x' :: p' ≡ₚ x :: l2 ∧
    Forall (start_le x') p'.
Proof.
  destruct (sort_inner_loop l1 l2 x []) as (x' & p' & Heq & H'); [done|].
  exists x', p'. split; [|exact H']. rewrite <- Heq. unfold sort_inner. cbn [length app].
  rewrite length_app. cbn [length]. rewrite Nat.add_0_r. f_equal. f_equal. lia.
Qed.

Lemma sort_outer_loop n : ∀ l1 l2,
  length l2 = n → StronglySorted start_le l1 → (∀ x y, x ∈ l1 → y ∈ l2 → start_le x y) →
  ∃ l, foldl sort_inner (l1 ++ l2) (seq (length l1) n) = l ∧ l ≡ₚ l1 ++ l2 ∧ StronglySorted start_le l.
Proof.
  induction n as [|n IH]; intros l1 l2 Hn Hs Hle; cbn [seq foldl].
  { exists (l1 ++ l2). split_and!; [done..|]. destruct l2; [|done]. by rewrite app_nil_r. }
  destruct l2 as [|x l2]; [done|]. cbn in Hn.
  destruct (sort_inner_spec l1 x l2) as (x' & p' & -> & Hp & Hf).
  assert (length p' = n) as Hl by (apply Permutation_length in Hp; cbn in Hp; lia).
  destruct (IH (l1 ++ [x']) p' Hl) as (l & Heq & Hpl & Hsl).
  - apply StronglySorted_app_2; [|done|by apply SSorted_cons; [constructor|]].
    intros y z Hy ->%list_elem_of_singleton. apply Hle; [done|]. rewrite <- Hp. set_solver.
  - intros y z [Hy| ->%list_elem_of_singleton]%elem_of_app Hz.
    + apply Hle; [done|]. rewrite <- Hp. set_solver.
    + rewrite Forall_forall in Hf. by apply Hf.
  - exists l. split_and!; [|rewrite Hpl, <- app_assoc; cbn; by rewrite Hp|done].
    rewrite <- Heq, <- app_assoc, length_app. cbn. by rewrite Nat.add_comm.
Qed.

Lemma sort_ranges_spec ranges : sort_ranges ranges ≡ₚ ranges ∧ StronglySorted start_le (sort_ranges ranges).
Proof.
  destruct (sort_outer_loop (length ranges) [] ranges) as (l & Heq & H'); [done|constructor|set_solver|].
  cbn in *. unfold sort_ranges. by rewrite Heq.
Qed.

(** ** Merging *)

(** The array during the second loop: the merged ranges, places no longer used,
    and the ranges still to come. *)
Record merging (done_ acc rest : list physical_range) : Prop := {
  merging_apart : StronglySorted ranges_apart acc;
  merging_ok : Forall range_ok acc;
  merging_covers a : covered acc a ↔ covered done_ a;
  merging_rest : ∀ x y, x ∈ acc → y ∈ rest → start_le x y;
}.

Lemma merge_append (acc : list physical_range) x (mid rest : list physical_range) r :
  ∃ mid' : list physical_range, <[length acc := r]> (acc ++ (mid ++ [x]) ++ rest) = (acc ++ [r]) ++ mid' ++ rest ∧
    length mid' = length mid.
Proof.
  rewrite insert_app_r_alt, Nat.sub_diag by lia. destruct mid as [|y mid]; cbn.
  - exists []. by rewrite <- app_assoc.
  - exists (mid ++ [x]). rewrite <- !app_assoc. split; [done|]. rewrite length_app. cbn. lia.
Qed.

Lemma sorted_snoc {A} (R : relation A) l x :
  StronglySorted R l → (∀ y, y ∈ l → R y x) → StronglySorted R (l ++ [x]).
Proof.
  intros Hl Hx. apply StronglySorted_app_2; [|done|by apply SSorted_cons; [constructor|]].
  intros y z Hy ->%list_elem_of_singleton. by apply Hx.
Qed.

Section merging.
Context (done_ acc rest : list physical_range) (r : physical_range).
Hypothesis (Hr : range_ok r) (Hmin : ∀ y, y ∈ rest → start_le r y).

(** A range behind all merged ones becomes the last of them. *)
Lemma merging_append :
  merging done_ acc (r :: rest) → (∀ y, y ∈ acc → ranges_apart y r) → merging (done_ ++ [r]) (acc ++ [r]) rest.
Proof.
  intros [Ha Hok Hc Hrest] Hl. constructor.
  - by apply sorted_snoc.
  - by rewrite Forall_app, Forall_singleton.
  - intros a. by rewrite !covered_app, Hc.
  - intros y z [Hy| ->%list_elem_of_singleton]%elem_of_app Hz; [apply Hrest; set_solver|by apply Hmin].
Qed.

(** A range that touches the last merged one is taken into it. *)
Lemma merging_extend l l' :
  merging done_ (acc ++ [l]) (r :: rest) → range_start r ≤ range_end l → range_ok l' →
  range_start l' = range_start l → range_end l' = range_end l `max` range_end r →
  merging (done_ ++ [r]) (acc ++ [l']) rest.
Proof.
  intros [Ha Hok Hc Hrest] Hge Hok' Hs' He'.
  apply Forall_app in Hok as [Hok Hl]. rewrite Forall_singleton in Hl.
  apply StronglySorted_app in Ha as (Hal & Ha & _).
  assert (start_le l r) as Hlr by (apply Hrest; set_solver). unfold start_le in Hlr. constructor.
  - apply sorted_snoc; [done|]. intros y Hy. assert (ranges_apart y l) by (apply Hal; set_solver).
    unfold ranges_apart in *. lia.
  - by rewrite Forall_app, Forall_singleton.
  - intros a. specialize (Hc a). rewrite covered_app, covered_singleton in Hc |- *.
    rewrite covered_app, covered_singleton, <- Hc. unfold in_range. rewrite Hs', He'.
    pose proof (range_positive _ Hr). pose proof (range_positive _ Hl). intuition lia.
  - intros y z [Hy| ->%list_elem_of_singleton]%elem_of_app Hz; [apply Hrest; set_solver|].
    unfold start_le. rewrite Hs'. transitivity (range_start r); [done|by apply Hmin].
Qed.
End merging.

(** The last merged range is the one nearest to those to come. *)
Lemma apart_snoc acc l r :
  StronglySorted ranges_apart (acc ++ [l]) → range_ok l → ranges_apart l r → ∀ y, y ∈ acc ++ [l] → ranges_apart y r.
Proof.
  intros (Hal & _)%StronglySorted_app Hl Hlr y [Hy| ->%list_elem_of_singleton]%elem_of_app; [|done].
  assert (ranges_apart y l) by (apply Hal; set_solver). pose proof (range_positive _ Hl). unfold ranges_apart in *. lia.
Qed.

Lemma merge_step_spec done_ acc mid r rest :
  range_ok r → merging done_ acc (r :: rest) → (∀ y, y ∈ rest → start_le r y) →
  ∃ acc' mid', merge_step (acc ++ mid ++ r :: rest, length acc) (length acc + length mid) =
      (acc' ++ mid' ++ rest, length acc') ∧
    (length acc' + length mid' = S (length acc + length mid))%nat ∧ merging (done_ ++ [r]) acc' rest.
Proof.
  intros Hr Hm Hmin. unfold merge_step.
  assert ((acc ++ mid ++ r :: rest) !! (length acc + length mid)%nat = Some r) as ->.
  { rewrite app_assoc. apply list_lookup_middle. by rewrite length_app. }
  change (mid ++ r :: rest) with (mid ++ [r] ++ rest). rewrite (app_assoc mid).
  destruct (merge_append acc r mid rest r) as (mid' & Heq & Hlen).
  destruct acc as [|l acc _] using rev_ind.
  { exists ([] ++ [r]), mid'. cbn [length] in *. rewrite Heq.
    split_and!; [done|cbn; lia|]. apply merging_append; set_solver. }
  rewrite length_app, Nat.add_comm in *. cbn [length Nat.add] in *.
  assert (((acc ++ [l]) ++ (mid ++ [r]) ++ rest) !! length acc = Some l) as ->.
  { rewrite <- app_assoc. by apply list_lookup_middle. }
  pose proof (merging_ok _ _ _ Hm) as Hok. apply Forall_app in Hok as [_ Hl]. rewrite Forall_singleton in Hl.
  destruct (Z.ltb_spec (range_end l) (range_start r)) as [Hlt|Hge].
  - exists ((acc ++ [l]) ++ [r]), mid'. rewrite Heq.
    split_and!; [by rewrite !length_app, !(Nat.add_comm _ (length [_]))|rewrite !length_app; cbn; lia|].
    apply merging_append; [done..|]. by eapply apart_snoc; [apply (merging_apart _ _ _ Hm)|..].
  - destruct (Z.ltb_spec (range_end l) (range_end r)) as [Hlt'|Hge'].
    + exists (acc ++ [MkRange (range_start l) (range_end r)]), (mid ++ [r]). split_and!.
      * rewrite <- !(app_assoc acc). by rewrite insert_app_r_alt, Nat.sub_diag, length_app, Nat.add_comm by lia.
      * rewrite !length_app. cbn. lia.
      * eapply merging_extend; [done..| |cbn; lia|cbn; lia]. destruct Hr, Hl. constructor; cbn; (done || lia).
    + exists (acc ++ [l]), (mid ++ [r]).
      split_and!; [by rewrite length_app, Nat.add_comm|rewrite !length_app; cbn; lia|].
      eapply merging_extend; [done..|lia].
Qed.

Lemma merge_loop rest : ∀ done_ acc mid,
  Forall range_ok rest → merging done_ acc rest → StronglySorted start_le rest →
  ∃ acc' mid', foldl merge_step (acc ++ mid ++ rest, length acc) (seq (length acc + length mid) (length rest))
      = (acc' ++ mid', length acc') ∧ merging (done_ ++ rest) acc' [].
Proof.
  induction rest as [|r rest IH]; intros done_ acc mid Hok Hm Hs; cbn [length seq foldl].
  { exists acc, mid. by rewrite !app_nil_r. }
  apply Forall_cons in Hok as [Hr Hok].
  apply StronglySorted_cons in Hs as [Hmin Hs]. rewrite Forall_forall in Hmin.
  destruct (merge_step_spec done_ acc mid r rest Hr Hm Hmin) as (acc' & mid' & -> & Hlen & Hm').
  destruct (IH _ acc' mid' Hok Hm' Hs) as (acc2 & mid2 & Heq & Hm2).
  exists acc2, mid2. rewrite <- Hlen, Heq. split; [done|]. by rewrite <- app_assoc in Hm2.
Qed.

Lemma sort_and_merge_spec ranges :
  Forall range_ok ranges →
  StronglySorted ranges_apart (sort_and_merge_ranges ranges) ∧ Forall range_ok (sort_and_merge_ranges ranges) ∧
  ∀ a, covered (sort_and_merge_ranges ranges) a ↔ covered ranges a.
Proof.
  intros Hok. destruct (sort_ranges_spec ranges) as [Hp Hs].
  destruct (merge_loop (sort_ranges ranges) [] [] []) as (acc & mid & Heq & [Ha Hk Hc _]).
  { by rewrite Hp. } { constructor; [constructor|constructor|done|set_solver]. } { done. }
  cbn in Heq, Hc. unfold sort_and_merge_ranges, merge_ranges. rewrite Heq, take_app_length.
  split_and!; [done..|]. intros a. rewrite Hc. by apply covered_perm.
Qed.

(** ** The memory map *)

Lemma page_floor v : align_down v = v / PAGE_SIZE * PAGE_SIZE.
Proof.
  unfold align_down. change (PAGE_SIZE - 1) with (Z.ones 12). rewrite Z.ldiff_ones_r by lia.
  by rewrite Z.shiftr_div_pow2, Z.shiftl_mul_pow2 by lia.
Qed.
Lemma page_ceiling v : 0 ≤ v → v ≤ 2 ^ 64 - PAGE_SIZE → align_up v = (v + (PAGE_SIZE - 1)) / PAGE_SIZE * PAGE_SIZE.
Proof.
  intros H0 Hv. rewrite <- page_floor. unfold align_up, align_down, PAGE_SIZE in *. f_equal.
  unfold wsub, wadd, wrap. rewrite Zminus_mod_idemp_l, Z.mod_small; lia.
Qed.

Lemma align_down_aligned v : v mod PAGE_SIZE = 0 → align_down v = v.
Proof. rewrite page_floor. unfold PAGE_SIZE. intros. pose proof (Z.div_mod v 4096). lia. Qed.
Lemma align_up_aligned v : 0 ≤ v < 2 ^ 64 → v mod PAGE_SIZE = 0 → align_up v = v.
Proof.
  intros Hv Hm. unfold PAGE_SIZE in Hm. pose proof (Z.div_mod v 4096 ltac:(lia)).
  rewrite page_ceiling by (unfold PAGE_SIZE; lia). unfold PAGE_SIZE.
  rewrite <- (Z.div_unique (v + (4096 - 1)) 4096 (v / 4096) 4095); lia.
Qed.

Definition entry_stop (e : memory_map_entry) : Z := start_physical_address e + page_count e * PAGE_SIZE.

(** [a] is in an entry of type [t]. *)
Definition classified (map : list memory_map_entry) (a : Z) (t : memory_map_type) : Prop :=
  ∃ e, e ∈ map ∧ entry_type e = t ∧ start_physical_address e ≤ a < entry_stop e.

Definition entry_before (x y : memory_map_entry) : Prop := entry_stop x ≤ start_physical_address y.

(** [map] gives each address below [b] the kinds of [spec] and no others (all of
    them when [full]); its entries are in order and do not overlap. *)
Record describes (spec : Z → memory_map_type → Prop) (map : list memory_map_entry) (b : Z) (full : Prop)
    : Prop := {
  describes_sorted : StronglySorted entry_before map;
  describes_entry e : e ∈ map →
    0 ≤ start_physical_address e < entry_stop e ∧ entry_stop e ≤ b ∧ start_physical_address e mod PAGE_SIZE = 0;
  describes_sound a t : classified map a t → spec a t;
  describes_complete a t : full → a < b → spec a t → classified map a t;
}.

(** The map still has room, so that no entry was dropped. *)
Definition has_room (map : list memory_map_entry) : Prop := (length map < MEMORY_MAP_CAPACITY)%nat.

Lemma classified_app m1 m2 a t : classified (m1 ++ m2) a t ↔ classified m1 a t ∨ classified m2 a t.
Proof. unfold classified. set_solver. Qed.
Lemma classified_singleton e a t :
  classified [e] a t ↔ entry_type e = t ∧ start_physical_address e ≤ a < entry_stop e.
Proof. unfold classified. set_solver. Qed.

Section describe.
Context (spec : Z → memory_map_type → Prop).

Lemma describes_append map s e t pages full :
  describes spec map s full → 0 ≤ s < e → s mod PAGE_SIZE = 0 → pages * PAGE_SIZE = e - s →
  (∀ a u, s ≤ a < e → spec a u ↔ u = t) → describes spec (map ++ [MkEntry s pages t]) e full.
Proof.
  intros [Hsort Hin Hsound Hcomp] Hse Hsa Hpages Hspec.
  assert (entry_stop (MkEntry s pages t) = e) as Hstop by (unfold entry_stop; cbn; lia). constructor.
  - apply sorted_snoc; [done|]. intros y Hy. specialize (Hin y Hy). unfold entry_before. cbn. lia.
  - intros x [Hx| ->%list_elem_of_singleton]%elem_of_app; [specialize (Hin x Hx); lia|].
    rewrite Hstop. cbn. split_and!; (done || lia).
  - intros a u [Ha|Ha]%classified_app; [by apply Hsound|].
    apply classified_singleton in Ha as [<- Ha]. rewrite Hstop in Ha. by apply Hspec.
  - intros a u Hfull Hae Ha. apply classified_app. destruct (Z.lt_ge_cases a s); [left; by apply Hcomp|].
    right. apply classified_singleton. rewrite Hstop. cbn. by apply Hspec in Ha as ->.
Qed.

(** Two adjacent entries of a type are as good as one. *)
Lemma describes_coalesce map p q b full :
  describes spec (map ++ [p] ++ [q]) b full → entry_type p = entry_type q →
  entry_stop p = start_physical_address q →
  describes spec (map ++ [MkEntry (start_physical_address p) (page_count p + page_count q) (entry_type p)])
    b full.
Proof.
  intros [Hsort Hin Hsound Hcomp] Ht Hpq. set (m := MkEntry _ _ _).
  assert (start_physical_address m = start_physical_address p ∧ entry_stop m = entry_stop q) as [Hs He].
  { unfold entry_stop in *. cbn. lia. }
  assert (∀ a t, classified (map ++ [m]) a t ↔ classified (map ++ [p] ++ [q]) a t) as Hc.
  { intros a t. rewrite !classified_app, !classified_singleton, Hs, He, <- Ht. cbn [entry_type m].
    pose proof (Hin p ltac:(set_solver)). pose proof (Hin q ltac:(set_solver)).
    assert (start_physical_address p ≤ a < entry_stop q ↔
            start_physical_address p ≤ a < entry_stop p ∨ start_physical_address q ≤ a < entry_stop q) by lia.
    tauto. }
  constructor.
  - apply StronglySorted_app in Hsort as (Hm & Hsort & _). apply sorted_snoc; [done|].
    intros y Hy. unfold entry_before. rewrite Hs. apply Hm; set_solver.
  - intros x [Hx| ->%list_elem_of_singleton]%elem_of_app; [apply Hin; set_solver|]. rewrite Hs, He.
    pose proof (Hin p ltac:(set_solver)) as (? & ? & ?). pose proof (Hin q ltac:(set_solver)).
    split_and!; (done || lia).
  - intros a t Ha. by apply Hsound, Hc.
  - intros a t Hf Hb Ha. by apply Hc, Hcomp.
Qed.

Lemma describes_weaken map b full full' : describes spec map b full → (full' → full) → describes spec map b full'.
Proof. intros [] Hf. constructor; eauto. Qed.

Lemma add_memory_map_entry_describes map s e t :
  describes spec map s (has_room map) → 0 ≤ s < e → e < 2 ^ 64 →
  s mod PAGE_SIZE = 0 → e mod PAGE_SIZE = 0 → (∀ a u, s ≤ a < e → spec a u ↔ u = t) →
  let map' := add_memory_map_entry map s e t in describes spec map' e (has_room map').
Proof.
  intros Hd Hse He Hsa Hea Hspec. unfold add_memory_map_entry, has_room in *.
  rewrite align_up_aligned, align_down_aligned by (done || lia).
  rewrite (proj2 (Z.leb_gt e s)) by lia. cbn [orb].
  assert (wsub e s / PAGE_SIZE * PAGE_SIZE = e - s) as Hpages.
  { unfold wsub, wrap. rewrite Z.mod_small by lia. unfold PAGE_SIZE in *.
    pose proof (Z.div_mod e 4096 ltac:(lia)). pose proof (Z.div_mod s 4096 ltac:(lia)).
    replace (e - s) with ((e / 4096 - s / 4096) * 4096) by lia. by rewrite Z.div_mul by lia. }
  set (pages := wsub e s / PAGE_SIZE) in *.
  destruct (Nat.leb_spec MEMORY_MAP_CAPACITY (length map)).
  { destruct Hd as [? Hin ? _]. constructor; [done| |done|lia]. intros x Hx. specialize (Hin x Hx). lia. }
  pose proof (describes_append map s e t pages _ Hd Hse Hsa Hpages Hspec) as Happ.
  destruct (last map) as [p|] eqn:Hlast; [|by eapply describes_weaken; [exact Happ|rewrite length_app; lia]].
  destruct (bool_decide _ && _) eqn:Hb; [|by eapply describes_weaken; [exact Happ|rewrite length_app; lia]].
  apply andb_true_iff in Hb as [Ht%bool_decide_eq_true Hl%Z.eqb_eq].
  apply last_Some in Hlast as [map' ->].
  pose proof (describes_entry _ _ _ _ Hd p ltac:(set_solver)) as (Hp & Hps & _). unfold entry_stop, PAGE_SIZE in *.
  unfold entry_limit, wadd, wmul, wrap, PAGE_SIZE in Hl |- *.
  rewrite (Z.mod_small (page_count p * 4096)), (Z.mod_small (_ + _ * _)) in Hl by lia.
  rewrite (Z.mod_small (_ + pages)) by lia.
  replace (pred (length (map' ++ [p]))) with (length map') by (rewrite length_app; cbn; lia).
  rewrite insert_app_r_alt, Nat.sub_diag by lia. cbn [insert list_insert]. rewrite <- app_assoc in Happ.
  eapply describes_weaken; [exact (describes_coalesce map' p _ _ _ Happ Ht Hl)|].
  rewrite !length_app. cbn. lia.
Qed.
End describe.

(** The kind of an address: RAM is FREE unless reserved, what lies between or below
    the RAM is DEVICE, and nothing is known above it. *)
Definition kind_of_address (ram reserved : list physical_range) (a : Z) (t : memory_map_type) : Prop :=
  match t with
  | MMT_FREE => covered ram a ∧ ¬ covered reserved a
  | MMT_RESERVED => covered ram a ∧ covered reserved a
  | MMT_DEVICE => 0 ≤ a ∧ ¬ covered ram a ∧ ∃ b, a < b ∧ covered ram b
  end.

Lemma kind_free ram reserved a u :
  covered ram a → ¬ covered reserved a → kind_of_address ram reserved a u ↔ u = MMT_FREE.
Proof. destruct u; cbn; naive_solver. Qed.
Lemma kind_reserved ram reserved a u :
  covered ram a → covered reserved a → kind_of_address ram reserved a u ↔ u = MMT_RESERVED.
Proof. destruct u; cbn; naive_solver. Qed.
Lemma kind_device ram reserved a u b :
  0 ≤ a → ¬ covered ram a → a < b → covered ram b →
  kind_of_address ram reserved a u ↔ u = MMT_DEVICE.
Proof. destruct u; cbn; naive_solver. Qed.

Lemma if_max a b : (if a <? b then b else a) = a `max` b.
Proof. destruct (Z.ltb_spec a b); lia. Qed.
Lemma if_min a b : (if a <? b then a else b) = a `min` b.
Proof. destruct (Z.ltb_spec a b); lia. Qed.
Lemma max_aligned a b : a mod PAGE_SIZE = 0 → b mod PAGE_SIZE = 0 → (a `max` b) mod PAGE_SIZE = 0.
Proof. by destruct (Z.max_spec a b) as [[_ ->]|[_ ->]]. Qed.
Lemma min_aligned a b : a mod PAGE_SIZE = 0 → b mod PAGE_SIZE = 0 → (a `min` b) mod PAGE_SIZE = 0.
Proof. by destruct (Z.min_spec a b) as [[_ ->]|[_ ->]]. Qed.

Lemma kind_of_address_ext ram ram' reserved reserved' :
  (∀ a, covered ram a ↔ covered ram' a) → (∀ a, covered reserved a ↔ covered reserved' a) →
  ∀ a t, kind_of_address ram reserved a t ↔ kind_of_address ram' reserved' a t.
Proof. intros Hc Hr a [| |]; cbn; setoid_rewrite Hc; by try setoid_rewrite Hr. Qed.
Lemma kind_nonneg ram reserved a t : Forall range_ok ram → kind_of_address ram reserved a t → 0 ≤ a.
Proof.
  rewrite Forall_forall. intros Hok.
  assert (covered ram a → 0 ≤ a) by (intros (r & [? _ _ _]%Hok & Ha); unfold in_range in Ha; lia).
  destruct t; cbn; naive_solver.
Qed.
Lemma kind_bound ram reserved a t : Forall range_ok ram → kind_of_address ram reserved a t → a < DIRECT_MAP_END.
Proof.
  rewrite Forall_forall. intros Hok.
  assert (∀ b, covered ram b → b < DIRECT_MAP_END) as Hb
    by (intros b (r & [_ ? _ _]%Hok & Ha); unfold in_range in Ha; lia).
  destruct t; cbn; [naive_solver| |naive_solver]. intros (_ & _ & b & Hab & Hc%Hb). lia.
Qed.
Lemma default_ram_ok ram : Forall range_ok ram → Forall range_ok (default_ram ram).
Proof. destruct ram; [|done]. intros _. apply Forall_singleton. by vm_compute. Qed.

Section carve.
Context (all_ram reserved : list physical_range) (ram : physical_range).
Hypothesis (Hram : range_ok ram) (Hin : ram ∈ all_ram).
Hypothesis (Hreserved : Forall range_ok reserved) (Hapart : StronglySorted ranges_apart reserved).

Abbreviation spec := (kind_of_address all_ram reserved).

(** The state of the loop behind the reserved ranges [done_]. *)
Record carving (done_ : list physical_range) (map : list memory_map_entry) (cursor : Z) : Prop := {
  carving_map : describes spec map cursor (has_room map);
  carving_bounds : range_start ram ≤ cursor ≤ range_end ram;
  carving_aligned : cursor mod PAGE_SIZE = 0;
  carving_done a : cursor ≤ a < range_end ram → ¬ covered done_ a;
}.

Lemma carve_reserved_spec done_ r rest map cursor :
  reserved = done_ ++ r :: rest → carving done_ map cursor →
  let s := carve_reserved ram (map, cursor) r in carving (done_ ++ [r]) (fst s) (snd s).
Proof using Hram Hin Hreserved Hapart.
  intros Hres [Hmap Hb Hal Hdone].
  assert (range_ok r) as Hr by (rewrite Forall_forall in Hreserved; apply Hreserved; set_solver).
  assert (∀ x, x ∈ rest → ranges_apart r x) as Hrest.
  { rewrite Hres in Hapart. apply StronglySorted_app in Hapart as (_ & _ & [Hf _]%StronglySorted_cons).
    by rewrite Forall_forall in Hf. }
  destruct Hr as [Hrp Hrw Hrs Hre], Hram as [Hp Hw Hs He]. unfold DIRECT_MAP_END in *. unfold carve_reserved.
  assert (∀ a, cursor ≤ a < range_end ram → (in_range a r → False) → ¬ covered (done_ ++ [r]) a) as Hnew.
  { intros a Ha Hnr [?|?%covered_singleton]%covered_app; [by eapply Hdone|done]. }
  destruct ((range_end r <=? range_start ram) || (range_end ram <=? range_start r)) eqn:Hskip.
  { constructor; try done. intros a Ha. apply Hnew; [done|]. unfold in_range.
    apply orb_true_iff in Hskip. rewrite !Z.leb_le in Hskip. cbn [snd] in Ha. lia. }
  apply orb_false_iff in Hskip as [H1%Z.leb_gt H2%Z.leb_gt].
  rewrite (if_max (range_start r)), (if_min (range_end ram)).
  pose proof (max_aligned _ _ Hrs Hs) as Hsm. pose proof (min_aligned _ _ He Hre) as Hem.
  set (start := range_start r `max` range_start ram) in *. set (end_ := range_end ram `min` range_end r) in *.
  assert (start = range_start ram `max` range_start r ∧ end_ = range_end ram `min` range_end r) as [Hstart Hend].
  { subst start end_. lia. }
  clearbody start end_.
  set (map1 := if cursor <? start then _ else map).
  assert (describes spec map1 (cursor `max` start) (has_room map1)) as Hmap1.
  { subst map1. destruct (Z.ltb_spec cursor start).
    - rewrite Z.max_r by lia. apply add_memory_map_entry_describes; try done; try lia.
      intros a u Ha. apply kind_free; [exists ram; split; [done|unfold in_range; lia]|].
      rewrite Hres. change (r :: rest) with ([r] ++ rest). rewrite app_assoc.
      intros [Hc|(x & Hx & Hc)]%covered_app.
      + revert Hc. apply Hnew; [lia|]. unfold in_range. lia.
      + specialize (Hrest x Hx). unfold ranges_apart, in_range in *. lia.
    - by rewrite Z.max_l by lia. }
  clearbody map1. destruct (Z.ltb_spec cursor end_).
  - cbn [fst snd]. constructor; [|lia|done|intros a Ha; apply Hnew; unfold in_range; lia].
    rewrite if_max, Z.max_comm.
    apply add_memory_map_entry_describes; try done; try lia; [by apply max_aligned|].
    intros a u Ha. apply kind_reserved; [exists ram|exists r]; unfold in_range; (split; [|lia]); [done|].
    rewrite Hres. set_solver.
  - cbn [fst snd]. rewrite Z.max_l in Hmap1 by lia. constructor; try done.
    intros a Ha. apply Hnew; [done|]. unfold in_range. lia.
Qed.

Lemma carve_loop rest : ∀ done_ map cursor,
  reserved = done_ ++ rest → carving done_ map cursor →
  let s := foldl (carve_reserved ram) (map, cursor) rest in carving reserved (fst s) (snd s).
Proof using Hram Hin Hreserved Hapart.
  induction rest as [|r rest IH]; intros done_ map cursor Hres Hc; cbn [foldl].
  { by rewrite Hres, app_nil_r. }
  pose proof (carve_reserved_spec done_ r rest map cursor Hres Hc) as Hc'. cbn zeta in Hc'.
  destruct (carve_reserved ram (map, cursor) r) as [map' cursor']. cbn [fst snd] in Hc'.
  apply (IH (done_ ++ [r])); [|done]. by rewrite <- app_assoc.
Qed.

Lemma map_ram_spec map previous :
  describes spec map previous (has_room map) → 0 ≤ previous ≤ range_start ram →
  previous mod PAGE_SIZE = 0 → (∀ a, previous ≤ a < range_start ram → ¬ covered all_ram a) →
  let s := map_ram reserved (map, previous) ram in
  describes spec (fst s) (snd s) (has_room (fst s)) ∧ snd s = range_end ram.
Proof using Hram Hin Hreserved Hapart.
  intros Hmap Hp Hpm Hgap. pose proof Hram as [Hr Hw Hs He]. unfold DIRECT_MAP_END in *. unfold map_ram.
  set (map1 := if previous <? range_start ram then _ else map).
  assert (describes spec map1 (range_start ram) (has_room map1)) as Hmap1.
  { subst map1. destruct (Z.ltb_spec previous (range_start ram)).
    - apply add_memory_map_entry_describes; try done; try lia.
      intros a u Ha. eapply (kind_device _ _ _ _ (range_start ram)); [lia|by apply Hgap|lia|].
      exists ram. split; [done|]. unfold in_range. lia.
    - by replace (range_start ram) with previous by lia. }
  clearbody map1. pose proof (carve_loop reserved [] map1 (range_start ram) eq_refl) as Hc.
  cbn zeta in Hc. destruct (foldl (carve_reserved ram) (map1, range_start ram) reserved) as [map2 cursor].
  cbn [fst snd] in *. destruct Hc as [Hmap2 Hb Hal Hdone].
  { constructor; [done|lia|done|]. intros a _. unfold covered. set_solver. }
  split; [|done]. destruct (Z.ltb_spec cursor (range_end ram)).
  - apply add_memory_map_entry_describes; try done; try lia.
    intros a u Ha. apply kind_free; [exists ram; split; [done|unfold in_range; lia]|by apply Hdone].
  - by replace (range_end ram) with cursor by lia.
Qed.
End carve.

Lemma map_loop all_ram reserved rest : ∀ done_ map previous,
  all_ram = done_ ++ rest → Forall range_ok all_ram → StronglySorted ranges_apart all_ram →
  Forall range_ok reserved → StronglySorted ranges_apart reserved →
  describes (kind_of_address all_ram reserved) map previous (has_room map) →
  0 ≤ previous → previous mod PAGE_SIZE = 0 → (∀ r, r ∈ done_ → range_end r ≤ previous) →
  (∀ r, r ∈ rest → previous ≤ range_start r) → previous ≤ DIRECT_MAP_END →
  let s := foldl (map_ram reserved) (map, previous) rest in
  describes (kind_of_address all_ram reserved) (fst s) (snd s) (has_room (fst s)) ∧
  (∀ r, r ∈ all_ram → range_end r ≤ snd s) ∧ snd s ≤ DIRECT_MAP_END.
Proof.
  induction rest as [|ram rest IH]; intros done_ map previous Hall Hok Hsort Hrok Hrsort Hmap Hp Hpm Hd Hr Hle;
    cbn [foldl].
  { rewrite app_nil_r in Hall. subst. done. }
  assert (ram ∈ all_ram) as Hin by set_solver.
  assert (range_ok ram) as Hram by (rewrite Forall_forall in Hok; by apply Hok).
  assert (∀ x, x ∈ rest → ranges_apart ram x) as Hrest.
  { rewrite Hall in Hsort. apply StronglySorted_app in Hsort as (_ & _ & [Hf _]%StronglySorted_cons).
    by rewrite Forall_forall in Hf. }
  destruct (map_ram_spec all_ram reserved ram Hram Hin Hrok Hrsort map previous Hmap) as [Hmap' He];
    [split; [done|apply Hr; set_solver]|done| |].
  { intros a Ha (x & Hx & Hxa). rewrite Hall in Hx. unfold in_range in Hxa.
    apply elem_of_app in Hx as [Hx|Hx]; [specialize (Hd x Hx); lia|].
    apply elem_of_cons in Hx as [->|Hx]; [lia|]. specialize (Hrest x Hx).
    pose proof (range_positive _ Hram). unfold ranges_apart in Hrest. lia. }
  destruct (map_ram reserved (map, previous) ram) as [map' previous']. cbn [fst snd] in Hmap', He. subst previous'.
  apply (IH (done_ ++ [ram])); try done.
  - by rewrite <- app_assoc.
  - pose proof (range_positive _ Hram). lia.
  - by apply range_end_aligned.
  - intros x [Hx| ->%list_elem_of_singleton]%elem_of_app; [|done]. specialize (Hd x Hx).
    pose proof (range_positive _ Hram). specialize (Hr ram ltac:(set_solver)). lia.
  - intros x Hx. specialize (Hrest x Hx). unfold ranges_apart in Hrest. lia.
  - by apply range_word.
Qed.

(** ** Adding ranges *)

(** The range that [add_range] stores: the pages [start] to [end_] lie in. *)
Lemma add_range_spec ranges start end_ :
  Forall range_ok ranges → 0 ≤ start → 0 ≤ end_ ≤ DIRECT_MAP_END →
  Forall range_ok (add_range ranges start end_) ∧ ranges `prefix_of` add_range ranges start end_ ∧
  ((length ranges < RANGE_CAPACITY)%nat → ∀ a, start ≤ a < end_ → covered (add_range ranges start end_) a).
Proof.
  intros Hok Hs He. unfold DIRECT_MAP_END in He. unfold add_range.
  rewrite page_floor, page_ceiling by (unfold PAGE_SIZE in *; lia). unfold PAGE_SIZE in *. pose proof (Z.div_mod start 4096 ltac:(lia)). pose proof (Z.mod_pos_bound start 4096).
  pose proof (Z.div_mod (end_ + (4096 - 1)) 4096 ltac:(lia)).
  pose proof (Z.mod_pos_bound (end_ + (4096 - 1)) 4096).
  destruct (_ || _) eqn:Hb.
  - split_and!; [done..|]. intros Hlen a Ha.
    apply orb_true_iff in Hb as [?%Z.leb_le|?%Nat.leb_le]; lia.
  - apply orb_false_iff in Hb as [?%Z.leb_gt ?%Nat.leb_gt].
    split_and!; [|by eexists|].
    + rewrite Forall_app, Forall_singleton. split; [done|].
      constructor; cbn; [lia|unfold DIRECT_MAP_END; lia|by rewrite Z.mod_mul..].
    + intros Hlen a Ha. apply covered_app. right. apply covered_singleton. unfold in_range. cbn. lia.
Qed.

(** The entries of the map, and the bound of its pages. *)
Lemma construct_memory_map_spec ram reserved :
  Forall range_ok ram → Forall range_ok reserved →
  let map := fst (construct_memory_map ram reserved) in
  describes (kind_of_address (default_ram ram) reserved) map DIRECT_MAP_END (has_room map).
Proof.
  intros Hram Hres. apply default_ram_ok in Hram. unfold construct_memory_map. cbn [fst].
  destruct (sort_and_merge_spec _ Hram) as (Hs & Hok & Hc).
  destruct (sort_and_merge_spec _ Hres) as (Hrs & Hrok & Hrc).
  destruct (map_loop _ _ (sort_and_merge_ranges (default_ram ram)) [] [] 0 eq_refl Hok Hs Hrok Hrs)
    as ([Hd1 Hd2 Hd3 Hd4] & Hlast & Hmax); try done.
  { constructor; [constructor|set_solver|intros a t (e & He & _); set_solver|].
    intros a t _ Ha Hk. exfalso. apply (kind_nonneg _ _ _ _ Hok) in Hk. lia. }
  { set_solver. } { intros r Hr. rewrite Forall_forall in Hok. apply Hok in Hr as [? _ _ _]. lia. }
  constructor; [done| | |].
  - intros e He. specialize (Hd2 e He). lia.
  - intros a t Ha. apply (kind_of_address_ext _ _ _ _ Hc Hrc). by apply Hd3.
  - intros a t Hroom _ Hk. apply (kind_of_address_ext _ _ _ _ Hc Hrc) in Hk. apply Hd4; [done| |done].
    assert (∃ b, a ≤ b ∧ covered (sort_and_merge_ranges (default_ram ram)) b) as (b & Hab & r & Hr & Hb).
    { destruct t; [exists a; split; [done|apply Hk]|destruct Hk as (_ & _ & b & Hb & ?); exists b; split; [lia|done]
        |exists a; split; [done|apply Hk]]. }
    specialize (Hlast r Hr). unfold in_range in Hb. lia.
Qed.

(** The memory map gives every address its kind.  For all RAM and reserved
    ranges, in whatever order and overlap the device tree has them, the entries are
    in order and disjoint, a FREE entry holds only RAM that is not reserved, a
    RESERVED one only reserved RAM, a DEVICE one only addresses below or between
    the RAM; and while the map has room, every address is in the entry of its
    kind. *)
Theorem memory_map_classifies ram reserved :
  Forall range_ok ram → Forall range_ok reserved →
  let map := fst (construct_memory_map ram reserved) in
  StronglySorted entry_before map ∧
  (∀ a t, classified map a t → kind_of_address (default_ram ram) reserved a t) ∧
  (has_room map → ∀ a t, kind_of_address (default_ram ram) reserved a t → classified map a t).
Proof.
  intros Hram Hres. destruct (construct_memory_map_spec ram reserved Hram Hres) as [Hs _ Hd Hc].
  split_and!; [done..|]. intros Hroom a t Hk. apply Hc; [done| |done].
  apply default_ram_ok in Hram. apply (kind_bound _ _ _ _ Hram Hk).
Qed.

(** A board with 256 MiB of RAM whose image takes one page: the page is RESERVED,
    the RAM behind it FREE, and the addresses below the RAM are a DEVICE. *)
Lemma memory_map_classifies_witness :
  let ram := [MkRange 0x40000000 0x50000000] in
  let reserved := [MkRange 0x44000000 0x44001000] in
  let map := fst (construct_memory_map ram reserved) in
  has_room map ∧ classified map 0x44000010 MMT_RESERVED ∧ classified map 0x44001000 MMT_FREE ∧
  (∀ a, classified map a MMT_FREE → ¬ covered reserved a).
Proof.
  intros ram reserved map.
  destruct (memory_map_classifies ram reserved) as (_ & Hd & Hc).
  { repeat constructor; vm_compute; congruence. }
  { repeat constructor; vm_compute; congruence. }
  assert (has_room map) as Hroom by (vm_compute; lia).
  split; [exact Hroom|]. split.
  - apply Hc; [exact Hroom|]. split; eexists; (split; [left|]); unfold in_range; cbn; lia.
  - split.
    + apply Hc; [exact Hroom|]. split; [eexists; split; [left|]; unfold in_range; cbn; lia|].
      intros (r & ->%list_elem_of_singleton & Hr). unfold in_range in Hr. cbn in Hr. lia.
    + intros a Ha. apply (Hd a MMT_FREE Ha).
Defined.
