(* ===== verification/DeviceTree.v ===== *)
(** Flattened device trees: the parsers of
    src/src/hal/aarch64/boot/boot_protocol.cpp (memory, reserved memory, initrd)
    and src/src/hal/aarch64/boot/cpu_topology.cpp (processors).

    The blob is bytes of physical memory; the code reaches it through the direct
    map, which the model leaves out.  A pointer is an address, and reading an
    address that is not mapped is undefined, [None].  Both files have the same
    loop over the tokens of the structure block; here it is one definition,
    [fdt_walk], whose handlers are the code's actions on a node and a property. *)

From Stdlib Require Import Ascii String.
From S2P Require Import Prelude Word Types Kernel Boot CString MemoryMap.
Local Open Scope Z_scope.

(** The characters of a literal, without the terminator. *)
Fixpoint chars (s : string) : list Z :=
  match s with
  | EmptyString => []
  | String c s' => Z.of_N (N_of_ascii c) :: chars s'
  end.

Definition FDT_MAGIC : Z := 0xd00dfeed.
Definition FDT_BEGIN_NODE : Z := 1.
Definition FDT_END_NODE : Z := 2.
Definition FDT_PROPERTY : Z := 3.
Definition FDT_NOP : Z := 4.
Definition FDT_END : Z := 9.

(** ** Numbers *)

Definition read_big_u32 (m : byte_memory) (source : Z) : option Z :=
  b0 ← m !! source; b1 ← m !! (source + 1); b2 ← m !! (source + 2); b3 ← m !! (source + 3);
  Some (Z.lor (Z.lor (Z.lor (Z.shiftl b0 24) (Z.shiftl b1 16)) (Z.shiftl b2 8)) b3).

Definition read_big_u64 (m : byte_memory) (source : Z) : option Z :=
  high ← read_big_u32 m source; low ← read_big_u32 m (source + 4);
  Some (Z.lor (Z.shiftl high 32) low).

Fixpoint read_cells_loop (m : byte_memory) (data value : Z) (cells : nat) : option Z :=
  match cells with
  | O => Some value
  | S cells' =>
      cell ← read_big_u32 m data;
      read_cells_loop m (data + 4) (Z.lor (wrap (Z.shiftl value 32)) cell) cells'
  end.
Definition read_cells (m : byte_memory) (data cell_count : Z) : option Z :=
  if (cell_count =? 0) || (2 <? cell_count) then Some 0
  else read_cells_loop m data 0 (Z.to_nat cell_count).

Definition valid_span (offset size total : Z) : bool := (offset <=? total) && (size <=? total - offset).

(** ** Strings *)

Fixpoint node_name_is (m : byte_memory) (node : Z) (name : list Z) : option bool :=
  c ← m !! node;
  match name with
  | [] => Some ((c =? 0) || (c =? 64))
  | n :: name' => if c =? n then node_name_is m (node + 1) name' else Some false
  end.

(** The loop from [index], with the rest of the name. *)
Fixpoint bounded_string_loop (m : byte_memory) (table table_size index : Z) (name : list Z) : option bool :=
  if table_size <=? index then Some false
  else
    c ← m !! (table + index);
    match name with
    | [] => Some (c =? 0)
    | n :: name' => if c =? n then bounded_string_loop m table table_size (index + 1) name' else Some false
    end.
Definition bounded_string_equals (m : byte_memory) (table table_size offset : Z) (name : list Z) : option bool :=
  if table_size <=? offset then Some false else bounded_string_loop m table table_size offset name.

Fixpoint property_string_loop (m : byte_memory) (data length index : Z) (name : list Z) : option bool :=
  match name with
  | [] => if index =? length then Some true else c ← m !! (data + index); Some (c =? 0)
  | n :: name' =>
      if length <=? index then Some false
      else
        c ← m !! (data + index);
        if c =? n then property_string_loop m data length (index + 1) name' else Some false
  end.
Definition property_string_equals (m : byte_memory) (data length : Z) (name : list Z) : option bool :=
  property_string_loop m data length 0 name.

(** ** Tokens *)

(** [(cursor + 3) & ~3] *)
Definition align_4 (cursor : Z) : Z := Z.ldiff (cursor + 3) 3.

(** [while (cursor < structure_end && *cursor) ++cursor], with the distance to
    [structure_end]: the place of the terminator, if there is one. *)
Fixpoint skip_name (m : byte_memory) (distance : nat) (cursor : Z) : option (option Z) :=
  match distance with
  | O => Some None
  | S distance' =>
      c ← m !! cursor;
      if c =? 0 then Some (Some cursor) else skip_name m distance' (cursor + 1)
  end.

Inductive fdt_token :=
  | TOKEN_ERROR
  | TOKEN_END
  | TOKEN_NOP (next : Z)
  | TOKEN_BEGIN_NODE (name next : Z)
  | TOKEN_END_NODE (next : Z)
  | TOKEN_PROPERTY (length name_offset data next : Z).

(** The token at [cursor], and where the next one starts. *)
Definition next_token (m : byte_memory) (structure_end strings_size cursor : Z) : option fdt_token :=
  token ← read_big_u32 m cursor;
  let cursor := cursor + 4 in
  if token =? FDT_BEGIN_NODE then
    terminator ← skip_name m (Z.to_nat (structure_end - cursor)) cursor;
    match terminator with
    | None => Some TOKEN_ERROR
    | Some t => Some (TOKEN_BEGIN_NODE cursor (align_4 (t + 1)))
    end
  else if token =? FDT_END_NODE then Some (TOKEN_END_NODE cursor)
  else if token =? FDT_NOP then Some (TOKEN_NOP cursor)
  else if token =? FDT_END then Some TOKEN_END
  else if negb (token =? FDT_PROPERTY) || (structure_end <? cursor + 8) then Some TOKEN_ERROR
  else
    length ← read_big_u32 m cursor;
    name_offset ← read_big_u32 m (cursor + 4);
    let cursor := cursor + 8 in
    if (structure_end - cursor <? length) || (strings_size <=? name_offset) then Some TOKEN_ERROR
    else Some (TOKEN_PROPERTY length name_offset cursor (align_4 (cursor + length))).

(** The loop over the tokens.  [on_begin] gets the depth of the node it enters,
    [on_end] and [on_property] that of the node they are in.  A turn moves the
    cursor by four bytes at least, so [fuel] beyond the bytes of the block is
    enough.  The answer is [false] where the code returns early. *)
Section walk.
Context {S : Type} (m : byte_memory) (structure_end strings_size : Z).
Context (on_begin : Z → Z → S → option S) (on_end : Z → S → S).
Context (on_property : Z → Z → Z → Z → S → option S).

Fixpoint fdt_walk (fuel : nat) (cursor depth : Z) (st : S) : option (bool * S) :=
  if structure_end <? cursor + 4 then Some (true, st)
  else
    match fuel with
    | O => None
    | Datatypes.S fuel' =>
        token ← next_token m structure_end strings_size cursor;
        match token with
        | TOKEN_ERROR => Some (false, st)
        | TOKEN_END => Some (true, st)
        | TOKEN_NOP next => fdt_walk fuel' next depth st
        | TOKEN_BEGIN_NODE name next =>
            st' ← on_begin (depth + 1) name st;
            fdt_walk fuel' next (depth + 1) st'
        | TOKEN_END_NODE next => fdt_walk fuel' next (depth - 1) (on_end depth st)
        | TOKEN_PROPERTY length name_offset data next =>
            st' ← on_property depth length name_offset data st;
            fdt_walk fuel' next depth st'
        end
    end.
End walk.

(** ** The header

    The offset of the reserve map is read by boot_protocol.cpp only. *)

Record fdt_header := MkHeader {
  total_size : Z;
  structure_offset : Z;
  strings_offset : Z;
  reserve_map_offset : Z;
  strings_size : Z;
  structure_size : Z;
}.

Definition read_header (m : byte_memory) (fdt : Z) : option fdt_header :=
  total_size ← read_big_u32 m (fdt + 4);
  structure_offset ← read_big_u32 m (fdt + 8);
  strings_offset ← read_big_u32 m (fdt + 12);
  reserve_map_offset ← read_big_u32 m (fdt + 16);
  strings_size ← read_big_u32 m (fdt + 32);
  structure_size ← read_big_u32 m (fdt + 36);
  Some (MkHeader total_size structure_offset strings_offset reserve_map_offset strings_size structure_size).

(** The tests both files make. *)
Definition header_valid (dtb_address : Z) (h : fdt_header) : bool :=
  (40 <=? total_size h) && (dtb_address <=? DIRECT_MAP_END - total_size h)
  && valid_span (structure_offset h) (structure_size h) (total_size h)
  && valid_span (strings_offset h) (strings_size h) (total_size h).

(** ** Memory: boot_protocol.cpp *)

Definition usable_size (start size : Z) : bool :=
  (start <? DIRECT_MAP_END) && negb (size =? 0) && (size <=? DIRECT_MAP_END - start).

(** The loop of [parse_reg_property]; [offset] is 32 bits wide. *)
Fixpoint reg_loop (fuel : nat) (m : byte_memory) (data length address_cells size_cells offset : Z)
    (ranges : list physical_range) : option (list physical_range) :=
  let tuple_size := (address_cells + size_cells) * 4 in
  if length <? wrap32 (offset + tuple_size) then Some ranges
  else
    match fuel with
    | O => None
    | S fuel' =>
        start ← read_cells m (data + offset) address_cells;
        size ← read_cells m (data + offset + address_cells * 4) size_cells;
        reg_loop fuel' m data length address_cells size_cells (wrap32 (offset + tuple_size))
          (if usable_size start size then add_range ranges start (start + size) else ranges)
    end.
Definition parse_reg_property (m : byte_memory) (data length address_cells size_cells : Z)
    (ranges : list physical_range) : option (list physical_range) :=
  let tuple_cells := wrap32 (address_cells + size_cells) in
  if (tuple_cells =? 0) || (2 <? address_cells) || (2 <? size_cells) then Some ranges
  else reg_loop (S (Z.to_nat length)) m data length address_cells size_cells 0 ranges.

Inductive root_node_kind := ROOT_NONE | ROOT_MEMORY | ROOT_CHOSEN | ROOT_RESERVED_MEMORY.
#[global] Instance root_node_kind_eq_dec : EqDecision root_node_kind.
Proof. solve_decision. Defined.

(** What the parser of the memory changes: globals, references and locals. *)
Record fdt_state := MkFdtState {
  g_ram_ranges : list physical_range;
  g_reserved_ranges : list physical_range;
  initrd_start : Z;
  initrd_end : Z;
  dtb_size : Z;
  root_address_cells : Z;
  root_size_cells : Z;
  root_kind : root_node_kind;
}.
#[global] Instance eta_fdt_state : Eta fdt_state := λ x,
  MkFdtState (g_ram_ranges x) (g_reserved_ranges x) (initrd_start x) (initrd_end x) (dtb_size x)
    (root_address_cells x) (root_size_cells x) (root_kind x).

Fixpoint reserve_map_loop (fuel : nat) (m : byte_memory) (fdt total_size offset : Z)
    (ranges : list physical_range) : option (list physical_range) :=
  if negb (valid_span offset 16 total_size) then Some ranges
  else
    match fuel with
    | O => None
    | S fuel' =>
        start ← read_big_u64 m (fdt + offset);
        size ← read_big_u64 m (fdt + offset + 8);
        if (start =? 0) && (size =? 0) then Some ranges
        else
          reserve_map_loop fuel' m fdt total_size (wrap32 (offset + 16))
            (if usable_size start size then add_range ranges start (start + size) else ranges)
    end.

Definition memory_begin (m : byte_memory) (depth name : Z) (st : fdt_state) : option fdt_state :=
  if depth =? 1 then
    is_memory ← node_name_is m name (chars "memory");
    if is_memory : bool then Some (st <| root_kind := ROOT_MEMORY |>)
    else
      is_chosen ← node_name_is m name (chars "chosen");
      if is_chosen : bool then Some (st <| root_kind := ROOT_CHOSEN |>)
      else
        is_reserved ← node_name_is m name (chars "reserved-memory");
        Some (st <| root_kind := if is_reserved : bool then ROOT_RESERVED_MEMORY else ROOT_NONE |>)
  else Some st.

Definition memory_end (depth : Z) (st : fdt_state) : fdt_state :=
  if depth =? 1 then st <| root_kind := ROOT_NONE |> else st.

(** [if (guard && bounded_string_equals(...)) action else otherwise]. *)
Definition property_case {S : Type} (m : byte_memory) (strings strings_size name_offset : Z) (guard : bool)
    (name : list Z) (action otherwise : option S) : option S :=
  if guard then
    is_name ← bounded_string_equals m strings strings_size name_offset name;
    if is_name : bool then action else otherwise
  else otherwise.

Definition memory_property (m : byte_memory) (strings strings_size : Z) (depth length name_offset data : Z)
    (st : fdt_state) : option fdt_state :=
  let case := property_case m strings strings_size name_offset in
  let in_root kind := bool_decide (root_kind st = kind) in
  case ((depth =? 0) && (length =? 4)) (chars "#address-cells")
    (cells ← read_big_u32 m data; Some (st <| root_address_cells := cells |>)) $
  case ((depth =? 0) && (length =? 4)) (chars "#size-cells")
    (cells ← read_big_u32 m data; Some (st <| root_size_cells := cells |>)) $
  case ((depth =? 1) && in_root ROOT_MEMORY) (chars "reg")
    (ranges ← parse_reg_property m data length (root_address_cells st) (root_size_cells st) (g_ram_ranges st);
     Some (st <| g_ram_ranges := ranges |>)) $
  case ((depth =? 2) && in_root ROOT_RESERVED_MEMORY) (chars "reg")
    (ranges ← parse_reg_property m data length (root_address_cells st) (root_size_cells st)
                (g_reserved_ranges st);
     Some (st <| g_reserved_ranges := ranges |>)) $
  case ((depth =? 1) && in_root ROOT_CHOSEN) (chars "linux,initrd-start")
    (start ← read_cells m data (length / 4); Some (st <| initrd_start := start |>)) $
  case ((depth =? 1) && in_root ROOT_CHOSEN) (chars "linux,initrd-end")
    (end_ ← read_cells m data (length / 4); Some (st <| initrd_end := end_ |>)) $
  Some st.

(** [parse_fdt]: the answer and what it leaves in the globals and references, also
    when it fails half-way. *)
Definition parse_fdt (m : byte_memory) (dtb_address : Z) (st : fdt_state) : option (bool * fdt_state) :=
  if (dtb_address =? 0) || (DIRECT_MAP_END <=? dtb_address) then Some (false, st)
  else
    magic ← read_big_u32 m dtb_address;
    if negb (magic =? FDT_MAGIC) then Some (false, st)
    else
      h ← read_header m dtb_address;
      if negb (header_valid dtb_address h) || (total_size h <=? reserve_map_offset h) then Some (false, st)
      else
        reserved ← reserve_map_loop (S (Z.to_nat (total_size h))) m dtb_address (total_size h)
                     (reserve_map_offset h) (g_reserved_ranges st);
        let structure := dtb_address + structure_offset h in
        let strings := dtb_address + strings_offset h in
        fdt_walk m (structure + structure_size h) (strings_size h) (memory_begin m) memory_end
          (memory_property m strings (strings_size h)) (S (Z.to_nat (structure_size h))) structure (-1)
          (st <| g_reserved_ranges := reserved |> <| dtb_size := total_size h |>
             <| root_address_cells := 2 |> <| root_size_cells := 1 |> <| root_kind := ROOT_NONE |>).
