(* ===== verification/CpuTopology.v ===== *)
(** The processors of an AArch64 machine: src/src/hal/aarch64/boot/cpu_topology.cpp
    and the data of src/src/hal/aarch64/include/hal/aarch64/arch/cpu.hpp.

    The device tree is read by the loop of DeviceTree.v; [mpidr_el1] is what the
    processor answers about itself. *)

From Stdlib Require Import String.
From S2P Require Import Prelude Word Types Kernel Boot CString MemoryMap DeviceTree.
Local Open Scope Z_scope.

Inductive cpu_enable_method := ENABLE_NONE | ENABLE_PSCI | ENABLE_SPIN_TABLE.
Inductive psci_conduit := CONDUIT_NONE | CONDUIT_HVC | CONDUIT_SMC.

Record cpu_description := MkCpu {
  mpidr : Z;
  release_address : Z;
  enable_method : cpu_enable_method;
}.
#[global] Instance eta_cpu_description : Eta cpu_description := λ x,
  MkCpu (mpidr x) (release_address x) (enable_method x).

Record pending_cpu := MkPending {
  description : cpu_description;
  is_cpu : bool;
  has_mpidr : bool;
  enabled : bool;
}.
#[global] Instance eta_pending_cpu : Eta pending_cpu := λ x,
  MkPending (description x) (is_cpu x) (has_mpidr x) (enabled x).
Definition initial_pending_cpu : pending_cpu := MkPending (MkCpu 0 0 ENABLE_NONE) false false true.

Definition MPIDR_AFFINITY_MASK : Z := 0xff00ffffff.
Definition TOPOLOGY_CPU_MAX : nat := 64.

(** The globals of cpu.hpp, the array up to [count], and the locals of the walk. *)
Record topology_state := MkTopology {
  cpu_descriptions : list cpu_description;
  topology_core_count : Z;
  discovered_psci_conduit : psci_conduit;
  in_cpus : bool;
  in_psci : bool;
  cpu_address_cells : Z;
  current_cpu : pending_cpu;
}.
#[global] Instance eta_topology_state : Eta topology_state := λ x,
  MkTopology (cpu_descriptions x) (topology_core_count x) (discovered_psci_conduit x) (in_cpus x)
    (in_psci x) (cpu_address_cells x) (current_cpu x).
(** The assignments at the start of [discover_cpu_topology]. *)
Definition initial_topology : topology_state :=
  MkTopology [] 1 CONDUIT_NONE false false 1 initial_pending_cpu.

Definition append_cpu (cpu : pending_cpu) (cpus : list cpu_description) : list cpu_description :=
  if negb (is_cpu cpu) || negb (has_mpidr cpu) || negb (enabled cpu) || (TOPOLOGY_CPU_MAX <=? length cpus)%nat
  then cpus else cpus ++ [description cpu].

(** The loop of [move_boot_cpu_first] from [index]. *)
Fixpoint find_boot_cpu (boot_affinity : Z) (cpus : list cpu_description) (index : nat) : option nat :=
  match cpus with
  | [] => None
  | cpu :: rest =>
      if Z.land (mpidr cpu) MPIDR_AFFINITY_MASK =? boot_affinity then Some index
      else find_boot_cpu boot_affinity rest (S index)
  end.
Definition move_boot_cpu_first (mpidr_el1 : Z) (cpus : list cpu_description) : option (list cpu_description) :=
  let boot_affinity := Z.land mpidr_el1 MPIDR_AFFINITY_MASK in
  index ← find_boot_cpu boot_affinity cpus 0;
  first ← cpus !! O;
  boot ← cpus !! index;
  Some (<[index := first]> (<[O := boot]> cpus)).

Definition topology_begin (m : byte_memory) (depth name : Z) (st : topology_state) : option topology_state :=
  if depth =? 1 then
    cpus ← node_name_is m name (chars "cpus");
    psci ← node_name_is m name (chars "psci");
    Some (st <| in_cpus := cpus |> <| in_psci := psci |>)
  else if (depth =? 2) && in_cpus st then
    cpu ← node_name_is m name (chars "cpu");
    Some (st <| current_cpu := initial_pending_cpu <| is_cpu := cpu |> |>)
  else Some st.

Definition topology_end (depth : Z) (st : topology_state) : topology_state :=
  if (depth =? 2) && in_cpus st
  then st <| cpu_descriptions ::= append_cpu (current_cpu st) |> <| current_cpu := initial_pending_cpu |>
  else if depth =? 1 then st <| in_cpus := false |> <| in_psci := false |>
  else st.

(** The comparison with each string in turn; the first that is equal decides. *)
Fixpoint string_choice {A : Type} (m : byte_memory) (data length : Z) (choices : list (list Z * A))
    : option (option A) :=
  match choices with
  | [] => Some None
  | (name, a) :: choices' =>
      equal ← property_string_equals m data length name;
      if equal : bool then Some (Some a) else string_choice m data length choices'
  end.

Definition topology_property (m : byte_memory) (strings strings_size : Z) (depth length name_offset data : Z)
    (st : topology_state) : option topology_state :=
  let case := property_case m strings strings_size name_offset in
  let cpu := current_cpu st in
  let set_cpu c := Some (st <| current_cpu := c |>) in
  let in_cpu := (depth =? 2) && in_cpus st in
  case ((depth =? 1) && in_cpus st && (length =? 4)) (chars "#address-cells")
    (cells ← read_big_u32 m data; Some (st <| cpu_address_cells := cells |>)) $
  case ((depth =? 1) && in_psci st) (chars "method")
    (choice ← string_choice m data length [(chars "hvc", CONDUIT_HVC); (chars "smc", CONDUIT_SMC)];
     Some (match choice with
           | Some conduit => st <| discovered_psci_conduit := conduit |>
           | None => st
           end)) $
  case in_cpu (chars "device_type")
    (equal ← property_string_equals m data length (chars "cpu"); set_cpu (cpu <| is_cpu := equal |>)) $
  case in_cpu (chars "status")
    (choice ← string_choice m data length [(chars "okay", true); (chars "ok", true)];
     set_cpu (cpu <| enabled := bool_decide (choice = Some true) |>)) $
  case in_cpu (chars "reg")
    (if (1 <=? cpu_address_cells st) && (cpu_address_cells st <=? 2)
        && (cpu_address_cells st * 4 <=? length)
     then
       affinity ← read_cells m data (cpu_address_cells st);
       set_cpu (cpu <| description ::= λ d, d <| mpidr := affinity |> |> <| has_mpidr := true |>)
     else Some st) $
  case in_cpu (chars "enable-method")
    (choice ← string_choice m data length
                [(chars "psci", ENABLE_PSCI); (chars "spin-table", ENABLE_SPIN_TABLE)];
     match choice with
     | Some method => set_cpu (cpu <| description ::= λ d, d <| enable_method := method |> |>)
     | None => Some st
     end) $
  case in_cpu (chars "cpu-release-addr")
    (let cells := length / 4 in
     if (1 <=? cells) && (cells <=? 2) then
       address ← read_cells m data cells;
       set_cpu (cpu <| description ::= λ d, d <| release_address := address |> |>)
     else Some st) $
  Some st.

(** The end of [discover_cpu_topology]: the processor that runs becomes the first. *)
Definition finish_topology (mpidr_el1 : Z) (st : topology_state) : hal_result * topology_state :=
  match cpu_descriptions st with
  | [] => (Err HE_NO_SUCH_DEVICE, st)
  | cpus =>
      match move_boot_cpu_first mpidr_el1 cpus with
      | None => (Err HE_NO_SUCH_DEVICE, st)
      | Some cpus' =>
          (Ok tt, st <| cpu_descriptions := cpus' |> <| topology_core_count := Z.of_nat (length cpus) |>)
      end
  end.

(** [discover_cpu_topology], started from any content of the array. *)
Definition discover_cpu_topology (m : byte_memory) (mpidr_el1 dtb_address : Z)
    : option (hal_result * topology_state) :=
  let st := initial_topology in
  if (dtb_address =? 0) || (DIRECT_MAP_END <=? dtb_address) then Some (Err HE_NO_SUCH_ADDRESS, st)
  else
    magic ← read_big_u32 m dtb_address;
    if negb (magic =? FDT_MAGIC) then Some (Err HE_ILLEGAL_ARGUMENT, st)
    else
      h ← read_header m dtb_address;
      if negb (header_valid dtb_address h) then Some (Err HE_ILLEGAL_ARGUMENT, st)
      else
        let structure := dtb_address + structure_offset h in
        let strings := dtb_address + strings_offset h in
        walked ← fdt_walk m (structure + structure_size h) (strings_size h) (topology_begin m) topology_end
                   (topology_property m strings (strings_size h)) (S (Z.to_nat (structure_size h)))
                   structure (-1) st;
        let '(complete, st) := walked in
        if negb complete then Some (Err HE_ILLEGAL_ARGUMENT, st)
        else Some (finish_topology mpidr_el1 st).
