(* ===== verification/DeviceTreeProofs.v ===== *)
(** Safety of the device-tree parser (DeviceTree.v): it ends and reads nothing outside
    the blob, whatever its bytes are. *)

From Stdlib Require Import String.
From stdpp Require Import sorting.
From S2P Require Import Prelude Word Types Kernel Boot CString MemoryMap DeviceTree.
Local Open Scope Z_scope.

(** ** Mapped bytes *)

Definition mapped (m : byte_memory) (first last : Z) : Prop :=
  ∀ a, first ≤ a < last → ∃ v, m !! a = Some v ∧ 0 ≤ v < 256.

Lemma mapped_sub m f l f' l' : mapped m f l → f ≤ f' → l' ≤ l → mapped m f' l'.
Proof. intros Hm Hf Hl a Ha. apply Hm. lia. Qed.

Lemma lor_shiftl_add a b n : 0 ≤ n → 0 ≤ a < 2 ^ n → Z.lor (Z.shiftl b n) a = b * 2 ^ n + a.
Proof.
  intros Hn Ha. rewrite Z.shiftl_mul_pow2 by lia. symmetry. apply Z.add_nocarry_lor.
  rewrite <- (Z.mod_small a (2 ^ n)), <- Z.land_ones, (Z.land_comm a), Z.land_assoc, Z.land_ones, Z.mod_mul
    by lia. apply Z.land_0_l.
Qed.

Definition big_u32 (b0 b1 b2 b3 : Z) : Z := b0 * 2 ^ 24 + (b1 * 2 ^ 16 + (b2 * 2 ^ 8 + b3)).

Lemma read_big_u32_bytes m p b0 b1 b2 b3 :
  bytes_at m p [b0; b1; b2; b3] → read_big_u32 m p = Some (big_u32 b0 b1 b2 b3).
Proof.
  intros (E0 & ? & E1 & ? & E2 & ? & E3 & ? & _). unfold read_big_u32.
  replace (p + 2) with (p + 1 + 1) by lia. replace (p + 3) with (p + 1 + 1 + 1) by lia.
  rewrite E0, E1, E2, E3. cbn [mbind option_bind]. rewrite <- !Z.lor_assoc.
  rewrite (lor_shiftl_add b3), (lor_shiftl_add _ b1), lor_shiftl_add by lia. done.
Qed.

Lemma read_big_u32_mapped m p first last :
  mapped m first last → first ≤ p → p + 4 ≤ last → ∃ v, read_big_u32 m p = Some v ∧ 0 ≤ v < 2 ^ 32.
Proof.
  intros Hm Hf Hl. destruct (Hm p) as (b0 & E0 & ?), (Hm (p + 1)) as (b1 & E1 & ?),
    (Hm (p + 1 + 1)) as (b2 & E2 & ?), (Hm (p + 1 + 1 + 1)) as (b3 & E3 & ?); try lia.
  exists (big_u32 b0 b1 b2 b3). split; [by apply read_big_u32_bytes|]. unfold big_u32. lia.
Qed.

Lemma read_big_u64_mapped m p first last :
  mapped m first last → first ≤ p → p + 8 ≤ last → ∃ v, read_big_u64 m p = Some v ∧ 0 ≤ v < 2 ^ 64.
Proof.
  intros Hm Hf Hl. unfold read_big_u64.
  destruct (read_big_u32_mapped m p first last) as (h & -> & ?); try (done || lia).
  destruct (read_big_u32_mapped m (p + 4) first last) as (l & -> & ?); try (done || lia).
  cbn. eexists. split; [done|]. rewrite lor_shiftl_add; lia.
Qed.

Lemma read_cells_mapped m p first last cells :
  mapped m first last → first ≤ p → 0 ≤ cells → p + 4 * cells ≤ last →
  ∃ v, read_cells m p cells = Some v ∧ 0 ≤ v < 2 ^ 64.
Proof.
  intros Hm Hf Hc Hl. unfold read_cells. destruct ((cells =? 0) || (2 <? cells)) eqn:Hb; [by exists 0|].
  apply orb_false_iff in Hb as [?%Z.eqb_neq ?%Z.ltb_ge].
  destruct (read_big_u32_mapped m p first last) as (h & Hh & ?); try (done || lia).
  assert (cells = 1 ∨ cells = 2) as [->| ->] by lia.
  - change (Z.to_nat 1) with 1%nat. cbn [read_cells_loop]. rewrite Hh. exists h. split; [done|lia].
  - destruct (read_big_u32_mapped m (p + 4) first last) as (l & Hl' & ?); try (done || lia).
    change (Z.to_nat 2) with 2%nat. cbn [read_cells_loop]. rewrite Hh. cbn [mbind option_bind].
    rewrite Hl'. cbn [mbind option_bind]. eexists. split; [done|].
    change (Z.lor (wrap (Z.shiftl 0 32)) h) with h. unfold wrap.
    rewrite Z.mod_small by (rewrite Z.shiftl_mul_pow2; lia). rewrite lor_shiftl_add; lia.
Qed.

(** ** Strings *)

(** The string at [p] ends before [last]. *)
Definition terminated (m : byte_memory) (p last : Z) : Prop :=
  ∃ t, p ≤ t < last ∧ m !! t = Some 0 ∧ ∀ a, p ≤ a ≤ t → is_Some (m !! a).

Lemma skip_name_mapped m n p first last :
  mapped m first last → first ≤ p → p + Z.of_nat n ≤ last →
  skip_name m n p = Some None ∨
  ∃ t, skip_name m n p = Some (Some t) ∧ p ≤ t ∧ t < p + Z.of_nat n ∧ m !! t = Some 0.
Proof.
  revert p. induction n as [|n IH]; intros p Hm Hf Hl; cbn [skip_name]; [by left|].
  destruct (Hm p) as (v & Hv & _); [lia|]. rewrite Hv. cbn [mbind option_bind].
  destruct (Z.eqb_spec v 0) as [->|]; [right; exists p; split_and!; (done || lia)|].
  destruct (IH (p + 1)) as [->|(t & -> & ? & ? & ?)]; try (done || lia); [by left|].
  right. exists t. split_and!; (done || lia).
Qed.

Lemma node_name_is_total m name : ∀ node last,
  terminated m node last → Forall (λ c, c ≠ 0) name → is_Some (node_name_is m node name).
Proof.
  induction name as [|n name IH]; intros node last (t & Ht & H0 & Hm) Hn; cbn [node_name_is];
    destruct (Hm node) as [c Hc]; try lia; rewrite Hc; cbn [mbind option_bind]; [done|].
  apply Forall_cons in Hn as [Hn Hname]. destruct (Z.eqb_spec c n) as [->|]; [|done].
  apply (IH _ last); [|done]. assert (node ≠ t) by congruence. exists t. split_and!; [lia..|done|].
  intros a Ha. apply Hm. lia.
Qed.

Lemma bounded_string_total m table size offset name first last :
  mapped m first last → first ≤ table → table + size ≤ last → 0 ≤ offset →
  is_Some (bounded_string_equals m table size offset name).
Proof.
  intros Hm Hf Hl Ho. unfold bounded_string_equals. destruct (size <=? offset); [done|].
  revert offset Ho. induction name as [|n name IH]; intros offset Ho; cbn [bounded_string_loop];
    (destruct (Z.leb_spec size offset); [done|]);
    (destruct (Hm (table + offset)) as (c & Hc & _); [lia|]); rewrite Hc; cbn [mbind option_bind]; [done|].
  destruct (c =? n); [apply IH; lia|done].
Qed.

Lemma property_string_total m data length name first last :
  mapped m first last → first ≤ data → data + length ≤ last → 0 ≤ length →
  is_Some (property_string_equals m data length name).
Proof.
  intros Hm Hf Hl H0. unfold property_string_equals.
  cut (∀ i, 0 ≤ i ≤ length → is_Some (property_string_loop m data length i name)); [intros Hc; apply Hc; lia|].
  induction name as [|n name IH]; intros i Hi; cbn [property_string_loop].
  - destruct (Z.eqb_spec i length); [done|]. destruct (Hm (data + i)) as (c & -> & _); [lia|done].
  - destruct (Z.leb_spec length i); [done|]. destruct (Hm (data + i)) as (c & -> & _); [lia|].
    cbn [mbind option_bind]. destruct (c =? n); [apply IH; lia|done].
Qed.

(** ** The walk *)

Lemma align_4_spec c : c ≤ align_4 c < c + 4 ∧ align_4 c mod 4 = 0.
Proof.
  assert (align_4 c = (c + 3) / 4 * 4) as ->.
  { unfold align_4. change 3 with (Z.ones 2) at 2. rewrite Z.ldiff_ones_r by lia.
    by rewrite Z.shiftr_div_pow2, Z.shiftl_mul_pow2 by lia. }
  pose proof (Z.div_mod (c + 3) 4 ltac:(lia)). pose proof (Z.mod_pos_bound (c + 3) 4 ltac:(lia)).
  split; [lia|by rewrite Z.mod_mul].
Qed.

(** What a handler may rely on. *)
Definition token_ok (m : byte_memory) (structure_end strings_size cursor : Z) (token : fdt_token) : Prop :=
  match token with
  | TOKEN_ERROR | TOKEN_END => True
  | TOKEN_NOP next | TOKEN_END_NODE next => next = cursor + 4
  | TOKEN_BEGIN_NODE name next => name = cursor + 4 ∧ name < next ∧ terminated m name structure_end
  | TOKEN_PROPERTY length name_offset data next =>
      data = cursor + 12 ∧ 0 ≤ length ∧ data + length ≤ structure_end ∧
      0 ≤ name_offset < strings_size ∧ data + length ≤ next
  end.

Lemma next_token_total m first structure_end strings_size cursor :
  mapped m first structure_end → first ≤ cursor → cursor + 4 ≤ structure_end →
  ∃ token, next_token m structure_end strings_size cursor = Some token ∧
    token_ok m structure_end strings_size cursor token.
Proof.
  intros Hm Hf He. unfold next_token.
  destruct (read_big_u32_mapped m cursor first structure_end) as (token & -> & _); try (done || lia).
  cbn [mbind option_bind]. destruct (token =? FDT_BEGIN_NODE).
  { destruct (skip_name_mapped m (Z.to_nat (structure_end - (cursor + 4))) (cursor + 4) first structure_end)
      as [->|(t & -> & ? & ? & ?)]; try (done || lia); cbn [mbind option_bind].
    - by exists TOKEN_ERROR.
    - eexists. split; [done|]. pose proof (align_4_spec (t + 1)). cbn. split_and!; [done|lia|].
      exists t. split_and!; try (done || lia). intros a Ha. destruct (Hm a) as (v & -> & _); [lia|done]. }
  destruct (token =? FDT_END_NODE); [by eexists|]. destruct (token =? FDT_NOP); [by eexists|].
  destruct (token =? FDT_END); [by eexists|].
  destruct (negb _ || _) eqn:Hb; [by exists TOKEN_ERROR|].
  apply orb_false_iff in Hb as [_ Hb%Z.ltb_ge].
  destruct (read_big_u32_mapped m (cursor + 4) first structure_end) as (length & -> & ?); try (done || lia).
  destruct (read_big_u32_mapped m (cursor + 4 + 4) first structure_end) as (offset & -> & ?); try (done || lia).
  cbn [mbind option_bind]. destruct (_ || _) eqn:Hb'; [by exists TOKEN_ERROR|].
  apply orb_false_iff in Hb' as [?%Z.ltb_ge ?%Z.leb_gt].
  eexists. split; [done|]. pose proof (align_4_spec (cursor + 4 + 8 + length)). cbn. lia.
Qed.

Section walk_total.
Context {S : Type} (I : S → Prop) (m : byte_memory) (first structure_end strings_size : Z).
Context (on_begin : Z → Z → S → option S) (on_end : Z → S → S).
Context (on_property : Z → Z → Z → Z → S → option S).
Hypothesis (Hm : mapped m first structure_end).
Hypothesis (Hbegin : ∀ depth name st,
  I st → terminated m name structure_end → ∃ st', on_begin depth name st = Some st' ∧ I st').
Hypothesis (Hend : ∀ depth st, I st → I (on_end depth st)).
Hypothesis (Hproperty : ∀ depth length name_offset data st,
  I st → first ≤ data → 0 ≤ length → data + length ≤ structure_end → 0 ≤ name_offset < strings_size →
  ∃ st', on_property depth length name_offset data st = Some st' ∧ I st').

(** The walk ends and keeps what its handlers keep. *)
Lemma fdt_walk_total fuel : ∀ cursor depth st,
  I st → first ≤ cursor → structure_end - cursor < Z.of_nat fuel →
  ∃ b st', fdt_walk m structure_end strings_size on_begin on_end on_property fuel cursor depth st
           = Some (b, st') ∧ I st'.
Proof using Hm Hbegin Hend Hproperty.
  induction fuel as [|fuel IH]; intros cursor depth st HI Hc Hf; cbn [fdt_walk];
    (destruct (Z.ltb_spec structure_end (cursor + 4)); [by do 2 eexists|]); [lia|].
  destruct (next_token_total m first structure_end strings_size cursor) as (token & -> & Ht); try done.
  cbn [mbind option_bind]. destruct token as [| |next|name next|next|length offset data next]; cbn in Ht.
  - by do 2 eexists.
  - by do 2 eexists.
  - apply IH; (done || lia).
  - destruct Ht as (-> & Hn & Hterm). destruct (Hbegin (depth + 1) _ st HI Hterm) as (st' & -> & HI').
    apply IH; (done || lia).
  - apply IH; [by apply Hend|lia..].
  - destruct Ht as (-> & Hl & Hle & Ho & Hn).
    destruct (Hproperty depth length offset (cursor + 12) st) as (st' & -> & HI'); try (done || lia).
    apply IH; (done || lia).
Qed.
End walk_total.

Lemma property_case_total {S} (Q : S → Prop) m first last strings strings_size name_offset guard name
    (action otherwise : option S) :
  mapped m first last → first ≤ strings → strings + strings_size ≤ last → 0 ≤ name_offset →
  (guard = true → ∃ s, action = Some s ∧ Q s) → (∃ s, otherwise = Some s ∧ Q s) →
  ∃ s, property_case m strings strings_size name_offset guard name action otherwise = Some s ∧ Q s.
Proof.
  intros Hm Hf Hl Ho Ha Hother. unfold property_case. destruct guard; [|done].
  destruct (bounded_string_total m strings strings_size name_offset name first last) as [b ->]; try done.
  destruct b; cbn; auto.
Qed.

(** ** Memory *)

Definition is_cells (c : Z) : Prop := 0 ≤ c < 2 ^ 32.

(** What the parser of the memory keeps. *)
Record fdt_ok (total : Z) (st : fdt_state) : Prop := {
  fdt_ram_ok : Forall range_ok (g_ram_ranges st);
  fdt_reserved_ok : Forall range_ok (g_reserved_ranges st);
  fdt_address_cells : is_cells (root_address_cells st);
  fdt_size_cells : is_cells (root_size_cells st);
  fdt_initrd_start : is_word (initrd_start st);
  fdt_initrd_end : is_word (initrd_end st);
  fdt_total : dtb_size st = total;
}.

Lemma add_usable_ok ranges start size :
  Forall range_ok ranges → 0 ≤ start → 0 ≤ size →
  Forall range_ok (if usable_size start size then add_range ranges start (start + size) else ranges).
Proof.
  intros Hok Hs Hz. unfold usable_size. destruct (_ && _) eqn:Hb; [|done].
  rewrite !andb_true_iff, Z.ltb_lt, Z.leb_le in Hb. apply add_range_spec; (done || lia).
Qed.

Section reg.
Context (m : byte_memory) (first last data length address_cells size_cells : Z).
Hypothesis (Hm : mapped m first last) (Hf : first ≤ data) (Hl : data + length ≤ last).
Hypothesis (Hlen : 0 ≤ length < 2 ^ 32 - 16).

Lemma reg_loop_total fuel : ∀ offset ranges,
  0 ≤ address_cells ≤ 2 → 0 ≤ size_cells ≤ 2 → 1 ≤ address_cells + size_cells →
  0 ≤ offset ≤ length → length - offset < Z.of_nat fuel → Forall range_ok ranges →
  ∃ ranges', reg_loop fuel m data length address_cells size_cells offset ranges = Some ranges' ∧
    Forall range_ok ranges'.
Proof using Hm Hf Hl Hlen.
  induction fuel as [|fuel IH]; intros offset ranges Ha Hs Ht Ho Hfuel Hok; [lia|]. cbn [reg_loop].
  unfold wrap32. rewrite Z.mod_small by lia.
  destruct (Z.ltb_spec length (offset + (address_cells + size_cells) * 4)); [by eexists|].
  destruct (read_cells_mapped m (data + offset) first last address_cells) as (start & -> & ?); try (done || lia).
  destruct (read_cells_mapped m (data + offset + address_cells * 4) first last size_cells)
    as (size & -> & ?); try (done || lia).
  cbn [mbind option_bind]. apply IH; try (done || lia). apply add_usable_ok; (done || lia).
Qed.

Lemma parse_reg_property_total ranges :
  is_cells address_cells → is_cells size_cells → Forall range_ok ranges →
  ∃ ranges', parse_reg_property m data length address_cells size_cells ranges = Some ranges' ∧
    Forall range_ok ranges'.
Proof using Hm Hf Hl Hlen.
  unfold is_cells. intros Ha Hs Hok. unfold parse_reg_property. destruct (_ || _) eqn:Hb; [by eexists|].
  rewrite !orb_false_iff, Z.eqb_neq, !Z.ltb_ge in Hb. destruct Hb as [[Hz ?] ?].
  unfold wrap32 in Hz. rewrite Z.mod_small in Hz by lia. apply reg_loop_total; (done || lia).
Qed.
End reg.

Lemma reserve_map_total m fdt total fuel : ∀ offset ranges,
  mapped m fdt (fdt + total) → total < 2 ^ 32 → 0 ≤ offset → total - offset < Z.of_nat fuel →
  Forall range_ok ranges →
  ∃ ranges', reserve_map_loop fuel m fdt total offset ranges = Some ranges' ∧ Forall range_ok ranges'.
Proof.
  induction fuel as [|fuel IH]; intros offset ranges Hm Ht Ho Hfuel Hok; cbn [reserve_map_loop]; unfold valid_span;
    (destruct ((offset <=? total) && (16 <=? total - offset)) eqn:Hb; [|by eexists]);
    rewrite andb_true_iff, !Z.leb_le in Hb; [lia|]. cbn [negb].
  destruct (read_big_u64_mapped m (fdt + offset) fdt (fdt + total)) as (start & -> & ?); try (done || lia).
  destruct (read_big_u64_mapped m (fdt + offset + 8) fdt (fdt + total)) as (size & -> & ?); try (done || lia).
  cbn [mbind option_bind]. destruct (_ && _); [by eexists|].
  unfold wrap32. rewrite Z.mod_small by lia. apply IH; try (done || lia). apply add_usable_ok; (done || lia).
Qed.

Lemma chars_nonzero name : forallb (λ c, negb (c =? 0)) (chars name) = true → Forall (λ c, c ≠ 0) (chars name).
Proof.
  intros Hn. apply Forall_forall. intros c Hc. rewrite forallb_forall in Hn.
  apply list_elem_of_In, Hn in Hc. bool_to_prop. done.
Qed.

Ltac name_case H :=
  match goal with
  | |- ∃ _, (node_name_is ?m ?p (chars ?n) ≫= _) = _ ∧ _ =>
      destruct (node_name_is_total m (chars n) p _ H (chars_nonzero n eq_refl)) as [? ->];
      cbn [mbind option_bind]
  end.

(** The answer is there and its fields are as good as before. *)
Ltac kept := eexists; split; [reflexivity|]; constructor; by cbn.

Lemma memory_begin_total m structure_end total depth name st :
  fdt_ok total st → terminated m name structure_end →
  ∃ st', memory_begin m depth name st = Some st' ∧ fdt_ok total st'.
Proof.
  intros [] Ht. unfold memory_begin. destruct (depth =? 1); [|kept].
  do 2 (name_case Ht; case_match; [kept|]). name_case Ht. kept.
Qed.

Lemma memory_end_ok total depth st : fdt_ok total st → fdt_ok total (memory_end depth st).
Proof. intros []. unfold memory_end. case_match; constructor; by cbn. Qed.

Section memory_property.
Context (m : byte_memory) (fdt total structure_end strings strings_size : Z).
Hypothesis (Hm : mapped m fdt (fdt + total)) (Ht : total < 2 ^ 32 - 16).
Hypothesis (Hstructure : structure_end ≤ fdt + total).
Hypothesis (Hstrings : fdt ≤ strings) (Hsize : strings + strings_size ≤ fdt + total).

Lemma memory_property_total dtb_total depth length name_offset data st :
  fdt_ok dtb_total st → fdt ≤ data → 0 ≤ length → data + length ≤ structure_end → 0 ≤ name_offset < strings_size →
  ∃ st', memory_property m strings strings_size depth length name_offset data st = Some st' ∧
    fdt_ok dtb_total st'.
Proof using Hm Ht Hstructure Hstrings Hsize.
  intros [] Hd Hl He Ho. unfold memory_property.
  assert (length / 4 * 4 ≤ length ∧ 0 ≤ length / 4) as [H4 H4'].
  { pose proof (Z.div_mod length 4 ltac:(lia)). pose proof (Z.mod_pos_bound length 4 ltac:(lia)). lia. }
  repeat (eapply property_case_total; [exact Hm|lia|lia|lia|intros Hguard|]); [..|kept].
  - apply andb_true_iff in Hguard as [_ ->%Z.eqb_eq].
    destruct (read_big_u32_mapped m data fdt (fdt + total)) as (v & -> & ?); try (done || lia). kept.
  - apply andb_true_iff in Hguard as [_ ->%Z.eqb_eq].
    destruct (read_big_u32_mapped m data fdt (fdt + total)) as (v & -> & ?); try (done || lia). kept.
  - edestruct (parse_reg_property_total m fdt (fdt + total) data length) as (ranges & -> & ?);
      [done|lia..|exact fdt_address_cells0|exact fdt_size_cells0|done|]. kept.
  - edestruct (parse_reg_property_total m fdt (fdt + total) data length) as (ranges & -> & ?);
      [done|lia..|exact fdt_address_cells0|exact fdt_size_cells0|done|]. kept.
  - destruct (read_cells_mapped m data fdt (fdt + total) (length / 4)) as (v & -> & ?); try (done || lia). kept.
  - destruct (read_cells_mapped m data fdt (fdt + total) (length / 4)) as (v & -> & ?); try (done || lia). kept.
Qed.
End memory_property.

Lemma read_header_total m fdt :
  mapped m fdt (fdt + 40) → ∃ h, read_header m fdt = Some h ∧ read_big_u32 m (fdt + 4) = Some (total_size h) ∧
    Forall is_cells [total_size h; structure_offset h; strings_offset h; reserve_map_offset h;
                     strings_size h; structure_size h].
Proof.
  intros Hm. unfold read_header.
  destruct (read_big_u32_mapped m (fdt + 4) fdt (fdt + 40)) as (? & -> & ?); try (done || lia).
  destruct (read_big_u32_mapped m (fdt + 8) fdt (fdt + 40)) as (? & -> & ?); try (done || lia).
  destruct (read_big_u32_mapped m (fdt + 12) fdt (fdt + 40)) as (? & -> & ?); try (done || lia).
  destruct (read_big_u32_mapped m (fdt + 16) fdt (fdt + 40)) as (? & -> & ?); try (done || lia).
  destruct (read_big_u32_mapped m (fdt + 32) fdt (fdt + 40)) as (? & -> & ?); try (done || lia).
  destruct (read_big_u32_mapped m (fdt + 36) fdt (fdt + 40)) as (? & -> & ?); try (done || lia).
  cbn [mbind option_bind]. eexists. split_and!; [done..|]. by repeat (apply Forall_cons; split).
Qed.

(** The blob at [fdt]: the header, and as many bytes as it says. *)
Record blob (m : byte_memory) (fdt : Z) : Prop := {
  blob_header : mapped m fdt (fdt + 40);
  blob_bytes total : read_big_u32 m (fdt + 4) = Some total → mapped m fdt (fdt + total);
  blob_size total : read_big_u32 m (fdt + 4) = Some total → total < 2 ^ 32 - 16;
}.

Lemma header_valid_spec fdt h :
  header_valid fdt h = true →
  structure_offset h + structure_size h ≤ total_size h ∧ strings_offset h + strings_size h ≤ total_size h ∧
  fdt + total_size h ≤ DIRECT_MAP_END.
Proof. unfold header_valid, valid_span. rewrite !andb_true_iff, !Z.leb_le. lia. Qed.

Lemma parse_fdt_total m fdt st :
  blob m fdt → fdt_ok (dtb_size st) st →
  ∃ b total st', parse_fdt m fdt st = Some (b, st') ∧ fdt_ok total st' ∧
    (b = true → 0 ≤ total ∧ fdt + total ≤ DIRECT_MAP_END).
Proof.
  intros [Hh Hb Hs] Hok. unfold parse_fdt. destruct (_ || _); [by exists false, (dtb_size st), st|].
  destruct (read_big_u32_mapped m fdt fdt (fdt + 40)) as (magic & -> & _); try (done || lia).
  cbn [mbind option_bind]. destruct (negb _); [by exists false, (dtb_size st), st|].
  destruct (read_header_total m fdt Hh) as (h & -> & Htotal & Hc). specialize (Hb _ Htotal). specialize (Hs _ Htotal).
  cbn [mbind option_bind]. destruct (negb _ || _) eqn:Hv; [by exists false, (dtb_size st), st|].
  apply orb_false_iff in Hv as [(? & ? & ?)%negb_false_iff%header_valid_spec _].
  rewrite !Forall_cons in Hc. unfold is_cells in Hc. destruct Hc as (? & ? & ? & ? & ? & ? & _).
  pose proof Hok as [].
  destruct (reserve_map_total m fdt (total_size h) (S (Z.to_nat (total_size h))) (reserve_map_offset h)
    (g_reserved_ranges st)) as (reserved & -> & Hres); try (done || lia).
  cbn [mbind option_bind].
  edestruct (fdt_walk_total (fdt_ok (total_size h)) m fdt) as (b & st' & Hwalk & Hok');
    [..|exists b, (total_size h), st'; split; [exact Hwalk|split; [done|lia]]].
  - eapply mapped_sub; [done|lia..].
  - intros. by eapply memory_begin_total.
  - apply memory_end_ok.
  - intros. eapply memory_property_total; try done; lia.
  - constructor; (by cbn) || (cbn; unfold is_cells; lia).
  - lia.
  - lia.
Qed.
