(* ===== verification/DeviceTreeSpec.v ===== *)
(** Device trees as trees, their flattened form, and the memory a tree describes:
    the specification of the parser in DeviceTree.v, after the Devicetree
    Specification's flattened format. *)

From Stdlib Require Import String.
From S2P Require Import Prelude Word Types Kernel Boot CString MemoryMap DeviceTree.
Local Open Scope Z_scope.

(** ** Trees *)

(** A node with its name, its properties (name and value) and its children. *)
Inductive dt_node := DtNode (name : list Z) (properties : list (list Z * list Z)) (children : list dt_node).

Section induction.
Context (P : dt_node → Prop).
Hypothesis (Hnode : ∀ name properties children, Forall P children → P (DtNode name properties children)).
Fixpoint dt_node_nested_ind (t : dt_node) : P t :=
  match t with
  | DtNode name properties children =>
      Hnode name properties children
        ((fix go (l : list dt_node) : Forall P l :=
            match l with
            | [] => Forall_nil_2 P
            | c :: l' => Forall_cons_2 P c l' (dt_node_nested_ind c) (go l')
            end) children)
  end.
End induction.

(** ** The flattened form *)

Definition be32 (v : Z) : list Z := [v / 2 ^ 24; v / 2 ^ 16 mod 256; v / 2 ^ 8 mod 256; v mod 256].
Definition be64 (v : Z) : list Z := be32 (v / 2 ^ 32) ++ be32 (v mod 2 ^ 32).
Definition pad4 (l : list Z) : list Z := l ++ replicate (Z.to_nat (- Z.of_nat (length l) mod 4)) 0.

Section encode.
(** Where the strings block has a property name. *)
Context (offset : list Z → Z).

Definition encode_property (p : list Z * list Z) : list Z :=
  be32 FDT_PROPERTY ++ be32 (Z.of_nat (length (snd p))) ++ be32 (offset (fst p)) ++ pad4 (snd p).

Fixpoint encode_node (t : dt_node) : list Z :=
  match t with
  | DtNode name properties children =>
      be32 FDT_BEGIN_NODE ++ pad4 (name ++ [0]) ++ concat (map encode_property properties)
      ++ concat (map encode_node children) ++ be32 FDT_END_NODE
  end.
End encode.

(** The reserve map and its last entry. *)
Definition encode_reserve_map (entries : list (Z * Z)) : list Z :=
  concat (map (λ e, be64 (fst e) ++ be64 (snd e)) entries) ++ be64 0 ++ be64 0.

Fixpoint node_tokens (t : dt_node) : nat :=
  match t with
  | DtNode _ properties children => S (S (length properties + sum_list (map node_tokens children)))
  end.

(** A property name the strings block has, and a value of bytes whose length fits in
    32 bits. *)
Definition property_ok (name_ok : list Z → Prop) (p : list Z * list Z) : Prop :=
  name_ok (fst p) ∧ Z.of_nat (length (snd p)) < 2 ^ 32 - 16 ∧ Forall (λ b, 0 ≤ b < 256) (snd p).

(** Names of nodes have no terminator inside. *)
Inductive dt_ok (name_ok : list Z → Prop) : dt_node → Prop :=
  | DtOk name properties children :
      Forall (λ c, c ≠ 0) name → Forall (property_ok name_ok) properties →
      Forall (dt_ok name_ok) children → dt_ok name_ok (DtNode name properties children).

Definition name_at (m : byte_memory) (strings strings_size : Z) (offset : list Z → Z) (name : list Z) : Prop :=
  cstring m (strings + offset name) name ∧ 0 ≤ offset name < 2 ^ 32 ∧
  offset name + Z.of_nat (length name) < strings_size.

(** ** The memory of a tree *)

Definition big_endian (l : list Z) : Z := foldl (λ v b, v * 256 + b) 0 l.

(** A number of [n] cells at the start of a value. *)
Definition cells_value (l : list Z) (n : Z) : Z :=
  if (n =? 0) || (2 <? n) then 0 else big_endian (take (Z.to_nat (4 * n)) l).

(** The pairs of address and size of a [reg] property. *)
Fixpoint reg_entries (fuel : nat) (address_cells size_cells : Z) (l : list Z) : list (Z * Z) :=
  match fuel with
  | O => []
  | S fuel' =>
      if Z.of_nat (length l) <? (address_cells + size_cells) * 4 then []
      else
        (cells_value l address_cells, cells_value (drop (Z.to_nat (address_cells * 4)) l) size_cells)
        :: reg_entries fuel' address_cells size_cells (drop (Z.to_nat ((address_cells + size_cells) * 4)) l)
  end.
Definition reg_pairs (address_cells size_cells : Z) (l : list Z) : list (Z * Z) :=
  if (address_cells + size_cells =? 0) || (2 <? address_cells) || (2 <? size_cells) then []
  else reg_entries (length l) address_cells size_cells l.

Definition add_usable (ranges : list physical_range) (e : Z * Z) : list physical_range :=
  if usable_size (fst e) (snd e) then add_range ranges (fst e) (fst e + snd e) else ranges.
Definition add_reg (address_cells size_cells : Z) (ranges : list physical_range) (p : list Z * list Z)
    : list physical_range :=
  if bool_decide (fst p = chars "reg") then foldl add_usable ranges (reg_pairs address_cells size_cells (snd p))
  else ranges.

(** The name itself, or with a unit address. *)
Definition name_is (literal name : list Z) : bool :=
  bool_decide (name = literal) || bool_decide ((literal ++ [64]) `prefix_of` name).

Definition one_cell (key : list Z) (cells : Z) (p : list Z * list Z) : Z :=
  if bool_decide (fst p = key) && (Z.of_nat (length (snd p)) =? 4) then big_endian (snd p) else cells.
Definition initrd_value (key : list Z) (v : Z) (p : list Z * list Z) : Z :=
  if bool_decide (fst p = key) then cells_value (snd p) (Z.of_nat (length (snd p)) / 4) else v.

(** What a child of the root adds: RAM, the initrd, or reserved ranges from its own
    children. *)
Definition memory_of_child (address_cells size_cells : Z) (st : fdt_state) (child : dt_node) : fdt_state :=
  let '(DtNode name properties children) := child in
  if name_is (chars "memory") name then
    st <| g_ram_ranges ::= λ r, foldl (add_reg address_cells size_cells) r properties |>
  else if name_is (chars "chosen") name then
    st <| initrd_start ::= λ v, foldl (initrd_value (chars "linux,initrd-start")) v properties |>
       <| initrd_end ::= λ v, foldl (initrd_value (chars "linux,initrd-end")) v properties |>
  else if name_is (chars "reserved-memory") name then
    st <| g_reserved_ranges ::= λ r,
            foldl (λ r '(DtNode _ properties _), foldl (add_reg address_cells size_cells) r properties)
              r children |>
  else st.

Definition memory_of_tree (root : dt_node) (st : fdt_state) : fdt_state :=
  let '(DtNode _ properties children) := root in
  let address_cells := foldl (one_cell (chars "#address-cells")) 2 properties in
  let size_cells := foldl (one_cell (chars "#size-cells")) 1 properties in
  foldl (memory_of_child address_cells size_cells)
    (st <| root_address_cells := address_cells |> <| root_size_cells := size_cells |>
        <| root_kind := ROOT_NONE |>) children.
