(* ===== verification/DeviceTreeRoundtrip.v ===== *)
(** The parser of the memory (DeviceTree.v) reads a flattened device tree back: it
    finds the memory the tree describes (DeviceTreeSpec.v). *)

From Stdlib Require Import String.
From S2P Require Import Prelude Word Types Kernel Boot CString MemoryMap.
From S2P Require Import DeviceTree DeviceTreeProofs DeviceTreeSpec.
Local Open Scope Z_scope.
#[local] Arguments chars : simpl never.

(** ** Bytes *)

Lemma bytes_at_app_iff m p l1 l2 :
  bytes_at m p (l1 ++ l2) ↔ bytes_at m p l1 ∧ bytes_at m (p + Z.of_nat (length l1)) l2.
Proof.
  revert p. induction l1 as [|v l1 IH]; intros p; cbn [app bytes_at length].
  { rewrite Z.add_0_r. tauto. }
  rewrite IH. replace (p + 1 + Z.of_nat (length l1)) with (p + Z.of_nat (S (length l1))) by lia. tauto.
Qed.

Lemma read_be32 m p v : 0 ≤ v < 2 ^ 32 → bytes_at m p (be32 v) → read_big_u32 m p = Some v.
Proof.
  intros Hv Hb. rewrite (read_big_u32_bytes _ _ _ _ _ _ Hb). f_equal. unfold big_u32.
  change (2 ^ 24) with (256 * 256 * 256). change (2 ^ 16) with (256 * 256). change (2 ^ 8) with 256.
  Z.to_euclidean_division_equations. lia.
Qed.

Lemma read_be64 m p v : 0 ≤ v < 2 ^ 64 → bytes_at m p (be64 v) → read_big_u64 m p = Some v.
Proof.
  intros Hv [Hh Hl]%bytes_at_app_iff. unfold read_big_u64. pose proof (Z.div_mod v (2 ^ 32) ltac:(lia)).
  pose proof (Z.mod_pos_bound v (2 ^ 32) ltac:(lia)). cbn [be32 length] in Hl.
  assert (0 ≤ v / 2 ^ 32 < 2 ^ 32) by (split; [apply Z.div_pos; lia|apply Z.div_lt_upper_bound; lia]).
  rewrite (read_be32 m p (v / 2 ^ 32)) by done. rewrite (read_be32 _ _ (v mod 2 ^ 32)) by (done || lia). cbn [mbind option_bind].
  rewrite lor_shiftl_add by lia. f_equal. lia.
Qed.

Lemma length_pad4 l : Z.of_nat (length (pad4 l)) mod 4 = 0 ∧ (length l ≤ length (pad4 l))%nat.
Proof.
  unfold pad4. rewrite length_app, length_replicate.
  pose proof (Z.mod_pos_bound (- Z.of_nat (length l)) 4 ltac:(lia)). split; [|lia].
  rewrite Nat2Z.inj_add, Z2Nat.id by lia. rewrite Zplus_mod_idemp_r. by rewrite Z.add_opp_diag_r.
Qed.

Lemma align_4_pad p l : p mod 4 = 0 → align_4 (p + Z.of_nat (length l)) = p + Z.of_nat (length (pad4 l)).
Proof.
  intros Hp. destruct (align_4_spec (p + Z.of_nat (length l))) as [Hb Hm].
  unfold pad4. rewrite length_app, length_replicate, Nat2Z.inj_add, Z2Nat.id by (apply Z.mod_pos_bound; lia).
  generalize (align_4 (p + Z.of_nat (length l))) Hb Hm. clear Hb Hm. intros a Hb Hm.
  Z.to_euclidean_division_equations. lia.
Qed.

Lemma skip_name_string m name : ∀ n p,
  cstring m p name → (length name < n)%nat → skip_name m n p = Some (Some (p + Z.of_nat (length name))).
Proof.
  induction name as [|c name IH]; intros [|n] p Hs Hn; cbn [length] in *; try lia; cbn [skip_name].
  - rewrite (cstring_nil _ _ Hs). cbn. by rewrite Z.add_0_r.
  - apply cstring_cons in Hs as (-> & ? & Hs). cbn [mbind option_bind]. rewrite (proj2 (Z.eqb_neq c 0)) by lia.
    rewrite IH by (done || lia). do 2 f_equal. lia.
Qed.

(** ** Tokens *)

Section tokens.
Context (m : byte_memory) (structure_end strings_size cursor : Z).
Abbreviation token := (next_token m structure_end strings_size cursor).

Lemma next_token_begin name :
  Forall (λ c, c ≠ 0) name → cursor mod 4 = 0 → bytes_at m cursor (be32 FDT_BEGIN_NODE ++ pad4 (name ++ [0])) →
  cursor + 4 + Z.of_nat (length (pad4 (name ++ [0]))) ≤ structure_end →
  cstring m (cursor + 4) name ∧
  token = Some (TOKEN_BEGIN_NODE (cursor + 4) (cursor + 4 + Z.of_nat (length (pad4 (name ++ [0]))))).
Proof.
  intros Hn Ha [Hb Hp]%bytes_at_app_iff He. cbn [be32 length] in Hp.
  change (Z.of_nat 4) with 4 in Hp. pose proof (length_pad4 (name ++ [0])) as [_ Hl].
  assert (cstring m (cursor + 4) name) as Hs.
  { split; [|done]. unfold pad4 in Hp. by apply bytes_at_app_iff in Hp as [? _]. }
  split; [done|]. unfold next_token. rewrite (read_be32 _ _ FDT_BEGIN_NODE ltac:(by vm_compute) Hb). cbn [mbind option_bind].
  change (FDT_BEGIN_NODE =? FDT_BEGIN_NODE) with true. cbn iota.
  rewrite length_app in Hl. cbn [length] in Hl.
  rewrite (skip_name_string m name) by (done || lia). cbn [mbind option_bind].
  rewrite <- align_4_pad by (rewrite Zplus_mod, Ha; done). rewrite length_app. cbn [length].
  do 3 f_equal. lia.
Qed.

Lemma next_token_end : bytes_at m cursor (be32 FDT_END_NODE) → token = Some (TOKEN_END_NODE (cursor + 4)).
Proof. intros Hb. unfold next_token. by rewrite (read_be32 _ _ FDT_END_NODE ltac:(by vm_compute) Hb). Qed.

Lemma next_token_stop : bytes_at m cursor (be32 FDT_END) → token = Some TOKEN_END.
Proof. intros Hb. unfold next_token. by rewrite (read_be32 _ _ FDT_END ltac:(by vm_compute) Hb). Qed.

Lemma next_token_property offset p :
  cursor mod 4 = 0 → bytes_at m cursor (encode_property offset p) →
  0 ≤ offset (fst p) < strings_size → offset (fst p) < 2 ^ 32 → Z.of_nat (length (snd p)) < 2 ^ 32 →
  cursor + 12 + Z.of_nat (length (pad4 (snd p))) ≤ structure_end →
  bytes_at m (cursor + 12) (snd p) ∧
  token = Some (TOKEN_PROPERTY (Z.of_nat (length (snd p))) (offset (fst p)) (cursor + 12)
                  (cursor + 12 + Z.of_nat (length (pad4 (snd p))))).
Proof.
  intros Ha Hb Ho Ho' Hl He. unfold encode_property in Hb.
  rewrite !bytes_at_app_iff in Hb. destruct Hb as (Ht & Hlen & Hoff & Hp).
  cbn [be32 length] in Hlen, Hoff, Hp. rewrite <- !Z.add_assoc in Hoff, Hp.
  change (Z.of_nat 4) with 4 in *. change (4 + 4) with 8 in *. change (4 + 8) with 12 in *.
  replace (cursor + 4 + 8) with (cursor + 12) in Hp by lia. pose proof (length_pad4 (snd p)) as [_ Hpad].
  split; [unfold pad4 in Hp; by apply bytes_at_app_iff in Hp as [? _]|].
  unfold next_token. rewrite (read_be32 _ _ FDT_PROPERTY ltac:(by vm_compute) Ht). cbn [mbind option_bind].
  change (FDT_PROPERTY =? FDT_BEGIN_NODE) with false. change (FDT_PROPERTY =? FDT_END_NODE) with false.
  change (FDT_PROPERTY =? FDT_NOP) with false. change (FDT_PROPERTY =? FDT_END) with false.
  change (FDT_PROPERTY =? FDT_PROPERTY) with true. cbn [negb orb].
  rewrite (proj2 (Z.ltb_ge _ _)) by lia. rewrite (read_be32 _ (cursor + 4) (Z.of_nat (length (snd p)))) by (done || lia).
  rewrite <- !Z.add_assoc. change (4 + 4) with 8. change (4 + 8) with 12.
  rewrite (read_be32 _ (cursor + 8) (offset (fst p))) by (done || lia). cbn [mbind option_bind].
  rewrite (proj2 (Z.ltb_ge _ _)), (proj2 (Z.leb_gt _ _)) by lia. cbn [orb].
  replace (cursor + (4 + (8 + Z.of_nat (length (snd p))))) with (cursor + 12 + Z.of_nat (length (snd p))) by lia.
  rewrite align_4_pad by (rewrite Zplus_mod, Ha; done). do 2 f_equal. lia.
Qed.
End tokens.

(** ** The walk over a tree *)

Lemma length_encode_property offset p : Z.of_nat (length (encode_property offset p)) mod 4 = 0.
Proof.
  unfold encode_property. rewrite !length_app. destruct (length_pad4 (snd p)) as [Hp _].
  cbn [be32 length]. revert Hp. generalize (length (pad4 (snd p))). intros n Hn.
  Z.to_euclidean_division_equations. lia.
Qed.

Section walk_tree.
Context {St : Type} (I : St → Prop) (m : byte_memory) (structure_end strings_size : Z).
Context (offset : list Z → Z) (name_ok : list Z → Prop).
Context (on_begin : Z → Z → St → option St) (on_end : Z → St → St).
Context (on_property : Z → Z → Z → Z → St → option St).
(** What the handlers do with the strings they find. *)
Context (begin_ : Z → list Z → St → St) (property : Z → list Z * list Z → St → St).
Hypothesis (Hname : ∀ n, name_ok n → 0 ≤ offset n < strings_size ∧ offset n < 2 ^ 32).
Hypothesis (Hbegin : ∀ depth name p st,
  I st → cstring m p name → on_begin depth p st = Some (begin_ depth name st)).
Hypothesis (Henter : ∀ depth name st, I st → I (begin_ depth name st)).
Hypothesis (Hend : ∀ depth st, I st → I (on_end depth st)).
Hypothesis (Hproperty : ∀ depth p data st,
  I st → property_ok name_ok p → bytes_at m data (snd p) →
  on_property depth (Z.of_nat (length (snd p))) (offset (fst p)) data st = Some (property depth p st)).
Hypothesis (Hkeep : ∀ depth p st, I st → property_ok name_ok p → I (property depth p st)).

Abbreviation walk := (fdt_walk m structure_end strings_size on_begin on_end on_property).

Definition run_properties (depth : Z) (properties : list (list Z * list Z)) (st : St) : St :=
  foldl (λ st p, property depth p st) st properties.
Fixpoint run_node (depth : Z) (t : dt_node) (st : St) : St :=
  match t with
  | DtNode name properties children =>
      on_end depth (foldl (λ st c, run_node (depth + 1) c st)
                      (run_properties depth properties (begin_ depth name st)) children)
  end.
Definition run_children (depth : Z) (children : list dt_node) (st : St) : St :=
  foldl (λ st c, run_node depth c st) st children.

(** The tokens of [bytes], [n] of them, turn the state into [st']. *)
Definition consumes (bytes : list Z) (n : nat) (depth : Z) (st st' : St) : Prop :=
  ∀ cursor fuel, cursor mod 4 = 0 → bytes_at m cursor bytes →
    cursor + Z.of_nat (length bytes) ≤ structure_end →
    walk (n + fuel) cursor depth st = walk fuel (cursor + Z.of_nat (length bytes)) depth st'.

Lemma consumes_nil depth st : consumes [] 0 depth st st.
Proof. intros cursor fuel _ _ _. cbn [length Nat.add]. by rewrite Z.add_0_r. Qed.

Lemma consumes_app b1 b2 n1 n2 depth st st1 st2 :
  Z.of_nat (length b1) mod 4 = 0 → consumes b1 n1 depth st st1 → consumes b2 n2 depth st1 st2 →
  consumes (b1 ++ b2) (n1 + n2) depth st st2.
Proof.
  intros H4 H1 H2 cursor fuel Ha Hb He. apply bytes_at_app_iff in Hb as [Hb1 Hb2].
  rewrite length_app in *. rewrite <- Nat.add_assoc, H1 by (done || lia).
  rewrite H2; [f_equal; lia| |done|lia]. rewrite Zplus_mod, Ha, H4. done.
Qed.

Lemma consumes_property depth p st :
  I st → property_ok name_ok p → consumes (encode_property offset p) 1 depth st (property depth p st).
Proof using Hname Hproperty.
  intros HI Hok cursor fuel Ha Hb He. pose proof Hok as (Hn & Hl & _). destruct (Hname _ Hn) as [Ho Ho'].
  assert (Z.of_nat (length (encode_property offset p)) = 12 + Z.of_nat (length (pad4 (snd p)))) as Hlen.
  { unfold encode_property. rewrite !length_app. cbn [be32 length]. lia. }
  rewrite Hlen in *. cbn [Nat.add fdt_walk]. rewrite (proj2 (Z.ltb_ge _ _)) by lia.
  destruct (next_token_property m structure_end strings_size cursor offset p) as [Hd ->]; try (done || lia).
  cbn [mbind option_bind]. rewrite (Hproperty depth p _ st HI Hok Hd).
  cbn [mbind option_bind]. by rewrite Z.add_assoc.
Qed.

Lemma consumes_properties depth properties : ∀ st,
  I st → Forall (property_ok name_ok) properties →
  consumes (concat (map (encode_property offset) properties)) (length properties) depth st
    (run_properties depth properties st) ∧
  I (run_properties depth properties st) ∧
  Z.of_nat (length (concat (map (encode_property offset) properties))) mod 4 = 0.
Proof using Hname Hproperty Hkeep.
  induction properties as [|p properties IH]; intros st HI Hok; cbn [map concat length].
  { split_and!; [apply consumes_nil|done..]. }
  apply Forall_cons in Hok as [Hp Hok].
  destruct (IH (property depth p st)) as (Hc & HI' & H4); [by apply Hkeep|done|].
  split_and!; [|done|rewrite length_app, Nat2Z.inj_add, Zplus_mod, length_encode_property, H4; done].
  apply (consumes_app _ _ 1 (length properties) depth st (property depth p st)); [apply length_encode_property|..|done].
  by apply consumes_property.
Qed.

(** A node around [body]. *)
Lemma enter_and_leave name body n depth st st' :
  I st → Forall (λ c, c ≠ 0) name → Z.of_nat (length body) mod 4 = 0 →
  consumes body n (depth + 1) (begin_ (depth + 1) name st) st' →
  consumes (((be32 FDT_BEGIN_NODE ++ pad4 (name ++ [0])) ++ body) ++ be32 FDT_END_NODE) (S (S n)) depth st
    (on_end (depth + 1) st').
Proof using Hbegin.
  intros HI Hn H4 Hbody cursor fuel Ha Hb He. rewrite !bytes_at_app_iff in Hb.
  destruct Hb as [[Hb Hbb] Hbe]. rewrite !length_app in *. cbn [be32 length] in *.
  pose proof (length_pad4 (name ++ [0])) as [H4n _].
  change (S (S n) + fuel)%nat with (S (S n + fuel)).
  cbn [fdt_walk]. rewrite (proj2 (Z.ltb_ge _ _)) by lia.
  destruct (next_token_begin m structure_end strings_size cursor name) as [Hs ->]; try (done || lia).
  { by apply bytes_at_app_iff. }
  cbn [mbind option_bind]. rewrite (Hbegin _ _ _ _ HI Hs). cbn [mbind option_bind].
  replace (S n + fuel)%nat with (n + S fuel)%nat by lia.
  rewrite Hbody; [|rewrite Zplus_mod, (Zplus_mod cursor), Ha, H4n; done| |lia].
  2: { revert Hbb. by replace (cursor + Z.of_nat (4 + length (pad4 (name ++ [0]))))
         with (cursor + 4 + Z.of_nat (length (pad4 (name ++ [0])))) by lia. }
  cbn [fdt_walk]. rewrite (proj2 (Z.ltb_ge _ _)) by lia. rewrite next_token_end.
  - cbn [mbind option_bind]. f_equal; lia.
  - revert Hbe. match goal with |- bytes_at _ ?x _ → bytes_at _ ?y _ => by replace y with x by lia end.
Qed.

Lemma consumes_node t : ∀ depth st,
  I st → dt_ok name_ok t →
  consumes (encode_node offset t) (node_tokens t) depth st (run_node (depth + 1) t st) ∧
  I (run_node (depth + 1) t st) ∧ Z.of_nat (length (encode_node offset t)) mod 4 = 0.
Proof using Hname Hbegin Henter Hend Hproperty Hkeep.
  induction t as [name properties children IH] using dt_node_nested_ind. intros depth st HI Hok.
  inversion Hok as [? ? ? Hn Hps Hcs]; subst. cbn [encode_node node_tokens run_node].
  destruct (consumes_properties (depth + 1) properties (begin_ (depth + 1) name st)) as (Hcp & HIp & H4p);
    [by apply Henter|done|].
  set (st1 := run_properties (depth + 1) properties (begin_ (depth + 1) name st)) in *.
  assert (∀ st, I st →
    consumes (concat (map (encode_node offset) children)) (sum_list (map node_tokens children)) (depth + 1)
      st (run_children (depth + 1 + 1) children st) ∧ I (run_children (depth + 1 + 1) children st) ∧
    Z.of_nat (length (concat (map (encode_node offset) children))) mod 4 = 0) as Hchildren.
  { clear -IH Hcs. induction children as [|c children IHc]; intros st0 HI0; cbn [map concat sum_list].
    { split_and!; [apply consumes_nil|done..]. }
    apply Forall_cons in IH as [IH1 IH], Hcs as [Hc Hcs].
    destruct (IH1 (depth + 1) st0 HI0 Hc) as (Hc1 & HI1 & H41).
    destruct (IHc IH Hcs _ HI1) as (Hc2 & HI2 & H42).
    split_and!; [by eapply consumes_app|done|].
    rewrite length_app, Nat2Z.inj_add, Zplus_mod, H41, H42. done. }
  destruct (Hchildren st1 HIp) as (Hcc & HIc & H4c). fold (run_children (depth + 1 + 1) children st1).
  pose proof (length_pad4 (name ++ [0])) as [H4n _].
  assert (consumes (concat (map (encode_property offset) properties) ++ concat (map (encode_node offset) children))
    (length properties + sum_list (map node_tokens children)) (depth + 1) (begin_ (depth + 1) name st)
    (run_children (depth + 1 + 1) children st1)) as Hbody by by eapply consumes_app.
  assert (Z.of_nat (length (be32 FDT_BEGIN_NODE ++ pad4 (name ++ [0]))) mod 4 = 0) as H4b.
  { rewrite length_app, Nat2Z.inj_add, Zplus_mod, H4n. done. }
  split_and!; [|by apply Hend|].
  - set (P := concat (map (encode_property offset) properties)) in *.
    set (C := concat (map (encode_node offset) children)) in *.
    replace (be32 FDT_BEGIN_NODE ++ pad4 (name ++ [0]) ++ P ++ C ++ be32 FDT_END_NODE)
      with (((be32 FDT_BEGIN_NODE ++ pad4 (name ++ [0])) ++ (P ++ C)) ++ be32 FDT_END_NODE)
      by (by rewrite <- !app_assoc).
    apply enter_and_leave; try done. rewrite length_app, Nat2Z.inj_add, Zplus_mod, H4p, H4c. done.
  - rewrite !length_app, !Nat2Z.inj_add. rewrite length_app, Nat2Z.inj_add in H4b. cbn [be32 length] in *.
    Z.to_euclidean_division_equations. lia.
Qed.
End walk_tree.

(** ** What the handlers find *)

Lemma node_name_is_string m literal : ∀ name p,
  cstring m p name → Forall (λ c, c ≠ 0) literal → node_name_is m p literal = Some (name_is literal name).
Proof.
  unfold name_is. induction literal as [|l literal IH]; intros [|c name] p Hs Hl; cbn [node_name_is app].
  - by rewrite (cstring_nil _ _ Hs).
  - apply cstring_cons in Hs as (-> & Hc & _). cbn [mbind option_bind].
    rewrite (proj2 (Z.eqb_neq c 0)), bool_decide_false by (done || lia). cbn [orb]. f_equal.
    destruct (Z.eqb_spec c 64) as [->|]; symmetry; [apply bool_decide_true|apply bool_decide_false].
    + apply prefix_cons, prefix_nil.
    + intros ?%prefix_cons_inv_1. done.
  - apply Forall_cons in Hl as [Hl _]. rewrite (cstring_nil _ _ Hs). cbn [mbind option_bind].
    rewrite (proj2 (Z.eqb_neq 0 l)), !bool_decide_false by (done || apply prefix_nil_not). done.
  - apply Forall_cons in Hl as [_ Hl]. apply cstring_cons in Hs as (-> & _ & Hs). cbn [mbind option_bind].
    destruct (Z.eqb_spec c l) as [->|Hne].
    + rewrite (IH name) by done. do 2 f_equal; apply bool_decide_ext; [naive_solver|].
      split; [apply prefix_cons|apply prefix_cons_inv_2].
    + rewrite !bool_decide_false; [done|intros ?%prefix_cons_inv_1; congruence|congruence].
Qed.

Lemma bounded_string_loop_string m table size literal : ∀ name index,
  cstring m (table + index) name → index + Z.of_nat (length name) < size → Forall (λ c, c ≠ 0) literal →
  bounded_string_loop m table size index literal = Some (bool_decide (name = literal)).
Proof.
  induction literal as [|l literal IH]; intros [|c name] index Hs Hl Hlit; cbn [bounded_string_loop length] in *;
    rewrite (proj2 (Z.leb_gt size index)) by lia.
  - by rewrite (cstring_nil _ _ Hs).
  - apply cstring_cons in Hs as (-> & Hc & _). cbn [mbind option_bind].
    rewrite (proj2 (Z.eqb_neq c 0)), bool_decide_false by (done || lia). done.
  - apply Forall_cons in Hlit as [Hne _]. rewrite (cstring_nil _ _ Hs). cbn [mbind option_bind].
    rewrite (proj2 (Z.eqb_neq 0 l)), bool_decide_false by done. done.
  - apply Forall_cons in Hlit as [_ Hlit]. apply cstring_cons in Hs as (-> & _ & Hs). cbn [mbind option_bind].
    destruct (Z.eqb_spec c l) as [->|Hne].
    + rewrite (IH name); [|by rewrite Z.add_assoc|lia|done]. f_equal. apply bool_decide_ext. naive_solver.
    + rewrite bool_decide_false; [done|congruence].
Qed.

Lemma property_case_string {St} m strings size offset name guard literal (action otherwise : option St) :
  name_at m strings size offset name → Forall (λ c, c ≠ 0) (chars literal) →
  property_case m strings size (offset name) guard (chars literal) action otherwise =
  if guard && bool_decide (name = chars literal) then action else otherwise.
Proof.
  intros (Hs & Ho & Hl) Hlit. unfold property_case. destruct guard; [|done]. unfold bounded_string_equals.
  rewrite (proj2 (Z.leb_gt _ _)) by lia. rewrite (bounded_string_loop_string m strings size _ name) by done.
  cbn [mbind option_bind andb]. by destruct (bool_decide _).
Qed.

Lemma read_big_u32_value m p l :
  bytes_at m p l → length l = 4%nat → read_big_u32 m p = Some (big_endian l) ∧ is_cells (big_endian l).
Proof.
  intros Hb Hl. do 4 (destruct l as [|? l]; [done|]). destruct l; [|done].
  rewrite (read_big_u32_bytes _ _ _ _ _ _ Hb). destruct Hb as (_ & ? & _ & ? & _ & ? & _ & ? & _).
  unfold big_u32, big_endian, is_cells. cbn [foldl]. split; [f_equal|]; lia.
Qed.

Lemma big_endian_app l1 l2 : big_endian (l1 ++ l2) = big_endian l1 * 256 ^ Z.of_nat (length l2) + big_endian l2.
Proof.
  unfold big_endian. rewrite foldl_app. generalize (foldl (λ v b, v * 256 + b) 0 l1). intros v.
  induction l2 as [|b l2 IH] using rev_ind; [cbn; lia|]. rewrite !foldl_app, length_app, IH. cbn [foldl length].
  rewrite Nat2Z.inj_add, Z.pow_add_r by lia. lia.
Qed.

Lemma read_cells_value m p l n :
  bytes_at m p l → 0 ≤ n → 4 * n ≤ Z.of_nat (length l) →
  read_cells m p n = Some (cells_value l n) ∧ is_word (cells_value l n).
Proof.
  intros Hb Hn Hl. unfold read_cells, cells_value.
  destruct ((n =? 0) || (2 <? n)) eqn:Hg; [by split|].
  apply orb_false_iff in Hg as [?%Z.eqb_neq ?%Z.ltb_ge].
  rewrite <- (take_drop (Z.to_nat (4 * n)) l), bytes_at_app_iff in Hb. destruct Hb as [Hb _].
  assert (length (take (Z.to_nat (4 * n)) l) = Z.to_nat (4 * n)) as Hlen by (rewrite length_take; lia).
  revert Hb Hlen. generalize (take (Z.to_nat (4 * n)) l). clear l Hl. intros l Hb Hlen. unfold is_word.
  assert (n = 1 ∨ n = 2) as [->| ->] by lia.
  - destruct (read_big_u32_value m p l Hb Hlen) as [Hr Hc]. change (Z.to_nat 1) with 1%nat. cbn [read_cells_loop].
    rewrite Hr. unfold is_cells in Hc. cbn [mbind option_bind]. split; [done|lia].
  - change (Z.to_nat (4 * 2)) with 8%nat in Hlen. change (Z.to_nat 2) with 2%nat. cbn [read_cells_loop].
    rewrite <- (take_drop 4 l) in Hb |- *. apply bytes_at_app_iff in Hb as [H1 H2].
    rewrite length_take_le in H2 by lia.
    destruct (read_big_u32_value m p (take 4 l) H1) as [Hr1 Hc1]; [rewrite length_take; lia|].
    destruct (read_big_u32_value m (p + 4) (drop 4 l) H2) as [Hr2 Hc2]; [rewrite length_drop; lia|].
    rewrite big_endian_app, length_drop, Hlen. unfold is_cells in *.
    rewrite Hr1. cbn [mbind option_bind]. rewrite Hr2. cbn [mbind option_bind].
    change (Z.lor (wrap (Z.shiftl 0 32)) (big_endian (take 4 l))) with (big_endian (take 4 l)).
    unfold wrap. rewrite Z.mod_small by (rewrite Z.shiftl_mul_pow2; lia). rewrite lor_shiftl_add by lia.
    change (256 ^ Z.of_nat (8 - 4)) with (2 ^ 32). split; [done|lia].
Qed.

Lemma reg_loop_value m data l ac sc fuel : ∀ offset ranges,
  bytes_at m data l → Z.of_nat (length l) < 2 ^ 32 - 16 → 0 ≤ ac ≤ 2 → 0 ≤ sc ≤ 2 → 1 ≤ ac + sc →
  (offset ≤ length l)%nat → (length l - offset ≤ fuel)%nat →
  reg_loop (S fuel) m data (Z.of_nat (length l)) ac sc (Z.of_nat offset) ranges =
  Some (foldl add_usable ranges (reg_entries fuel ac sc (drop offset l))).
Proof.
  induction fuel as [|fuel IH]; intros offset ranges Hb Hl Ha Hs Ht Ho Hf; cbn [reg_entries].
  { cbn [reg_loop]. unfold wrap32. rewrite Z.mod_small by lia. by rewrite (proj2 (Z.ltb_lt _ _)) by lia. }
  remember (S fuel) as fuel1. cbn [reg_loop]. unfold wrap32. rewrite Z.mod_small by lia.
  rewrite length_drop. destruct (Z.ltb_spec (Z.of_nat (length l - offset)) ((ac + sc) * 4)).
  { by rewrite (proj2 (Z.ltb_lt _ _)) by lia. }
  rewrite (proj2 (Z.ltb_ge _ _)) by lia.
  pose proof Hb as Hb'. rewrite <- (take_drop offset l), bytes_at_app_iff, length_take_le in Hb' by lia.
  destruct Hb' as [_ Hb1].
  pose proof Hb1 as Hb2. rewrite <- (take_drop (Z.to_nat (ac * 4)) (drop offset l)), bytes_at_app_iff,
    length_take_le, Z2Nat.id in Hb2 by (try rewrite length_drop; lia).
  destruct Hb2 as [_ Hb2].
  destruct (read_cells_value m _ _ ac Hb1) as [-> _]; [lia|rewrite length_drop; lia|].
  destruct (read_cells_value m _ _ sc Hb2) as [-> _]; [lia|rewrite !length_drop; lia|].
  cbn [mbind option_bind foldl]. subst fuel1.
  replace (Z.of_nat offset + (ac + sc) * 4) with (Z.of_nat (offset + Z.to_nat ((ac + sc) * 4))) by lia.
  rewrite (IH (offset + Z.to_nat ((ac + sc) * 4))%nat) by (done || lia). by rewrite !drop_drop.
Qed.

Lemma parse_reg_value m data l ac sc ranges :
  bytes_at m data l → Z.of_nat (length l) < 2 ^ 32 - 16 → is_cells ac → is_cells sc →
  parse_reg_property m data (Z.of_nat (length l)) ac sc ranges =
  Some (foldl add_usable ranges (reg_pairs ac sc l)).
Proof.
  unfold is_cells. intros Hb Hl Ha Hs. unfold parse_reg_property, reg_pairs.
  destruct ((ac + sc =? 0) || (2 <? ac) || (2 <? sc)) eqn:Hg.
  - apply orb_true_iff in Hg as [[?%Z.eqb_eq|?%Z.ltb_lt]%orb_true_iff|?%Z.ltb_lt];
      [|rewrite (proj2 (Z.ltb_lt 2 ac)) by lia; by rewrite orb_true_r
       |rewrite (proj2 (Z.ltb_lt 2 sc)) by lia; by rewrite orb_true_r].
    by replace (ac + sc) with 0 by lia.
  - rewrite !orb_false_iff, Z.eqb_neq, !Z.ltb_ge in Hg. unfold wrap32. rewrite Z.mod_small by lia.
    rewrite (proj2 (Z.eqb_neq _ _)), !(proj2 (Z.ltb_ge 2 _)) by lia. cbn [orb]. rewrite Nat2Z.id.
    rewrite (reg_loop_value m data l ac sc (length l) 0) by (done || lia). by rewrite drop_0.
Qed.

(** ** The memory of a tree *)

Definition kind_of_name (name : list Z) : root_node_kind :=
  if name_is (chars "memory") name then ROOT_MEMORY
  else if name_is (chars "chosen") name then ROOT_CHOSEN
  else if name_is (chars "reserved-memory") name then ROOT_RESERVED_MEMORY
  else ROOT_NONE.

Definition enter_node (depth : Z) (name : list Z) (st : fdt_state) : fdt_state :=
  if depth =? 1 then st <| root_kind := kind_of_name name |> else st.

Definition apply_property (depth : Z) (p : list Z * list Z) (st : fdt_state) : fdt_state :=
  let named (key : string) := bool_decide (fst p = chars key) in
  let in_root kind := bool_decide (root_kind st = kind) in
  let length := Z.of_nat (length (snd p)) in
  let reg := foldl add_usable in
  let pairs := reg_pairs (root_address_cells st) (root_size_cells st) (snd p) in
  if (depth =? 0) && (length =? 4) && named "#address-cells"%string
  then st <| root_address_cells := big_endian (snd p) |>
  else if (depth =? 0) && (length =? 4) && named "#size-cells"%string
  then st <| root_size_cells := big_endian (snd p) |>
  else if (depth =? 1) && in_root ROOT_MEMORY && named "reg"%string
  then st <| g_ram_ranges := reg (g_ram_ranges st) pairs |>
  else if (depth =? 2) && in_root ROOT_RESERVED_MEMORY && named "reg"%string
  then st <| g_reserved_ranges := reg (g_reserved_ranges st) pairs |>
  else if (depth =? 1) && in_root ROOT_CHOSEN && named "linux,initrd-start"%string
  then st <| initrd_start := cells_value (snd p) (length / 4) |>
  else if (depth =? 1) && in_root ROOT_CHOSEN && named "linux,initrd-end"%string
  then st <| initrd_end := cells_value (snd p) (length / 4) |>
  else st.

Definition cells_ok (st : fdt_state) : Prop := is_cells (root_address_cells st) ∧ is_cells (root_size_cells st).

Lemma memory_begin_enters m depth name p st :
  cstring m p name → memory_begin m depth p st = Some (enter_node depth name st).
Proof.
  intros Hs. unfold memory_begin, enter_node, kind_of_name. destruct (depth =? 1); [|done].
  rewrite !(node_name_is_string m _ name) by (done || by apply chars_nonzero). cbn [mbind option_bind].
  repeat case_match; done.
Qed.

Lemma memory_property_applies m strings size offset depth p data st :
  cells_ok st → property_ok (name_at m strings size offset) p → bytes_at m data (snd p) →
  memory_property m strings size depth (Z.of_nat (length (snd p))) (offset (fst p)) data st =
  Some (apply_property depth p st).
Proof.
  intros [Ha Hs] (Hn & Hl & Hb) Hd. unfold memory_property, apply_property.
  rewrite !(property_case_string m strings size offset (fst p)) by (done || by apply chars_nonzero).
  assert (0 ≤ Z.of_nat (length (snd p)) / 4 ∧ 4 * (Z.of_nat (length (snd p)) / 4) ≤ Z.of_nat (length (snd p))) as [H0 H4].
  { Z.to_euclidean_division_equations. lia. }
  rewrite !(parse_reg_value m data (snd p)) by done.
  destruct (read_cells_value m data (snd p) _ Hd H0 H4) as [-> _]. cbn [mbind option_bind].
  do 2 (match goal with |- (if ?b then _ else _) = Some (if ?b then _ else _) => destruct b eqn:Hg end;
    [rewrite !andb_true_iff, Z.eqb_eq in Hg; destruct (read_big_u32_value m data (snd p) Hd) as [-> _]; [lia|done]
    |clear Hg]).
  repeat (match goal with |- (if ?b then _ else _) = Some (if ?b then _ else _) => destruct b; [done|] end).
  done.
Qed.

Lemma big_endian_cells l : Forall (λ b, 0 ≤ b < 256) l → length l = 4%nat → is_cells (big_endian l).
Proof.
  intros Hb Hl. do 4 (destruct l as [|? l]; [done|]). destruct l; [|done].
  rewrite !Forall_cons in Hb. unfold big_endian, is_cells. cbn [foldl]. lia.
Qed.

Lemma apply_property_cells depth name_ok p st :
  cells_ok st → property_ok name_ok p → cells_ok (apply_property depth p st).
Proof.
  intros [Ha Hs] (_ & _ & Hb). unfold apply_property, cells_ok.
  do 2 (match goal with |- context [if ?b then _ else _] => destruct b eqn:Hg end;
    [rewrite !andb_true_iff, Z.eqb_eq in Hg; cbn; split; try done; apply big_endian_cells; (done || lia)|clear Hg]).
  repeat case_match; by cbn.
Qed.

Abbreviation run := (run_node memory_end enter_node apply_property).
Abbreviation run_props := (run_properties apply_property).

(** Nodes that say nothing about memory. *)
Lemma run_inert t : ∀ depth st,
  3 ≤ depth ∨ depth = 2 ∧ root_kind st ≠ ROOT_RESERVED_MEMORY → run depth t st = st.
Proof.
  induction t as [name properties children IH] using dt_node_nested_ind. intros depth st Hd. cbn [run_node].
  assert (enter_node depth name st = st) as ->.
  { unfold enter_node. by rewrite (proj2 (Z.eqb_neq depth 1)) by lia. }
  assert (run_props depth properties st = st) as ->.
  { clear IH. induction properties as [|p properties IH]; [done|]. unfold run_properties in *. cbn [foldl].
    assert (apply_property depth p st = st) as ->; [|done]. unfold apply_property.
    rewrite (proj2 (Z.eqb_neq depth 0)), (proj2 (Z.eqb_neq depth 1)) by lia. cbn [andb].
    destruct Hd as [Hd|[-> Hk]]; [by rewrite (proj2 (Z.eqb_neq depth 2)) by lia|].
    by rewrite (bool_decide_false _ Hk). }
  assert (foldl (λ st c, run (depth + 1) c st) st children = st) as ->.
  { induction IH as [|c children Hc _ IHc]; [done|]. cbn [foldl]. rewrite Hc by lia. done. }
  unfold memory_end. by rewrite (proj2 (Z.eqb_neq depth 1)) by lia.
Qed.

(** The loop over the properties of a node, when each of them changes one part of
    the state. *)
Lemma run_props_update {A} (get : fdt_state → A) (set : A → fdt_state → fdt_state)
    (step : A → list Z * list Z → A) depth (Q : fdt_state → Prop) properties : ∀ st,
  (∀ st p, Q st → apply_property depth p st = set (step (get st) p) st) →
  (∀ st a, Q st → Q (set a st) ∧ get (set a st) = a) → (∀ st a b, set a (set b st) = set a st) →
  (∀ st, set (get st) st = st) → Q st → run_props depth properties st = set (foldl step (get st) properties) st.
Proof.
  intros st Hp Hq Hs Hg. revert st. induction properties as [|p properties IH]; intros st HQ;
    unfold run_properties in *; cbn [foldl]; [by rewrite Hg|].
  rewrite Hp by done.
  destruct (Hq st (step (get st) p) HQ) as [HQ' Hget]. rewrite IH, Hget, Hs by done. done.
Qed.

Lemma foldl_pair {A B C} (f : A → C → A) (g : B → C → B) (l : list C) : ∀ a b,
  foldl (λ c x, (f (fst c) x, g (snd c) x)) (a, b) l = (foldl f a l, foldl g b l).
Proof. induction l as [|x l IH]; intros a b; [done|]. cbn [foldl fst snd]. by rewrite IH. Qed.

Lemma run_root_props properties st :
  run_props 0 properties st =
  st <| root_address_cells ::= λ c, foldl (one_cell (chars "#address-cells")) c properties |>
     <| root_size_cells ::= λ c, foldl (one_cell (chars "#size-cells")) c properties |>.
Proof.
  rewrite (run_props_update (λ st, (root_address_cells st, root_size_cells st))
    (λ c st, st <| root_address_cells := fst c |> <| root_size_cells := snd c |>)
    (λ c p, (one_cell (chars "#address-cells") (fst c) p, one_cell (chars "#size-cells") (snd c) p))
    0 (λ _, True)); try done.
  - rewrite foldl_pair. by destruct st.
  - intros [] p _. unfold apply_property, one_cell. cbn [Z.eqb andb fst snd].
    rewrite (andb_comm (_ =? 4)), (andb_comm (_ =? 4)). cbn.
    destruct (Z.of_nat (length (snd p)) =? 4); [|by rewrite !andb_false_r].
    rewrite !andb_true_r. destruct (bool_decide_reflect (fst p = chars "#address-cells")) as [->|]; [done|].
    by destruct (bool_decide _).
  - by intros st0 [].
  - by intros [].
Qed.

(** The [reg] properties of a node of the RAM, or of a reserved range. *)
Lemma run_reg_props depth (get : fdt_state → list physical_range) set kind properties st :
  (depth, kind) = (1, ROOT_MEMORY) ∧ get = g_ram_ranges ∧ set = (λ r st, st <| g_ram_ranges := r |>) ∨
  (depth, kind) = (2, ROOT_RESERVED_MEMORY) ∧ get = g_reserved_ranges ∧
    set = (λ r st, st <| g_reserved_ranges := r |>) →
  root_kind st = kind →
  run_props depth properties st =
  set (foldl (add_reg (root_address_cells st) (root_size_cells st)) (get st) properties) st.
Proof.
  intros Hcase Hk.
  apply (run_props_update get set _ depth (λ st', root_kind st' = kind ∧
    root_address_cells st' = root_address_cells st ∧ root_size_cells st' = root_size_cells st));
    destruct Hcase as [([= -> ->] & -> & ->)|([= -> ->] & -> & ->)]; try done; try by intros [].
  1-2: intros st' p (Hk' & Ha & Hs); unfold apply_property, add_reg; cbn [Z.eqb andb Pos.eqb];
    rewrite Hk', Ha, Hs; destruct (bool_decide (fst p = _)); by destruct st'.
Qed.

Lemma run_initrd_props properties st :
  root_kind st = ROOT_CHOSEN →
  run_props 1 properties st =
  st <| initrd_start ::= λ v, foldl (initrd_value (chars "linux,initrd-start")) v properties |>
     <| initrd_end ::= λ v, foldl (initrd_value (chars "linux,initrd-end")) v properties |>.
Proof.
  intros Hk.
  rewrite (run_props_update (λ st, (initrd_start st, initrd_end st))
    (λ c st, st <| initrd_start := fst c |> <| initrd_end := snd c |>)
    (λ c p, (initrd_value (chars "linux,initrd-start") (fst c) p, initrd_value (chars "linux,initrd-end") (snd c) p))
    1 (λ st, root_kind st = ROOT_CHOSEN)); try done.
  - rewrite foldl_pair. by destruct st.
  - intros st' p Hk'. unfold apply_property, initrd_value. cbn [Z.eqb Pos.eqb andb fst snd]. rewrite Hk'.
    destruct (bool_decide_reflect (fst p = chars "linux,initrd-start")) as [->|]; [by destruct st'|].
    destruct (bool_decide (fst p = chars "linux,initrd-end")); by destruct st'.
  - by intros st0 [].
  - by intros [].
Qed.

Lemma run_other_props properties st :
  root_kind st = ROOT_RESERVED_MEMORY ∨ root_kind st = ROOT_NONE → run_props 1 properties st = st.
Proof.
  intros Hk. induction properties as [|p properties IH]; [done|]. unfold run_properties in *. cbn [foldl].
  assert (apply_property 1 p st = st) as ->; [|done]. unfold apply_property. cbn [Z.eqb Pos.eqb andb].
  by destruct Hk as [-> | ->].
Qed.

Lemma run_deeper depth children st :
  3 ≤ depth ∨ depth = 2 ∧ root_kind st ≠ ROOT_RESERVED_MEMORY → foldl (λ s c, run depth c s) st children = st.
Proof.
  intros Hd. induction children as [|c children IH]; [done|]. cbn [foldl]. by rewrite run_inert.
Qed.

Lemma run_reserved_children children : ∀ st,
  root_kind st = ROOT_RESERVED_MEMORY →
  foldl (λ s c, run 2 c s) st children =
  st <| g_reserved_ranges ::= λ r,
    foldl (λ r '(DtNode _ properties _),
             foldl (add_reg (root_address_cells st) (root_size_cells st)) r properties) r children |>.
Proof.
  induction children as [|[name properties children'] children IH]; intros st Hk; [by destruct st|].
  cbn [foldl run_node]. unfold enter_node, memory_end. cbn [Z.eqb Pos.eqb Z.add Pos.add Pos.succ].
  rewrite (run_reg_props 2 _ _ ROOT_RESERVED_MEMORY _ _ (or_intror (conj eq_refl (conj eq_refl eq_refl))) Hk).
  rewrite (run_deeper 3) by (left; lia). rewrite IH by done. by destruct st.
Qed.

(** A child of the root. *)
Lemma run_child child st :
  root_kind st = ROOT_NONE →
  run 1 child st = memory_of_child (root_address_cells st) (root_size_cells st) st child.
Proof.
  intros Hk. destruct child as [name properties children]. cbn [run_node]. unfold enter_node, memory_of_child.
  cbn [Z.eqb Pos.eqb Z.add Pos.add Pos.succ]. unfold kind_of_name, memory_end. cbn [Z.eqb Pos.eqb].
  destruct (name_is (chars "memory") name); [|destruct (name_is (chars "chosen") name);
    [|destruct (name_is (chars "reserved-memory") name)]].
  - rewrite (run_reg_props 1 _ _ ROOT_MEMORY _ _ (or_introl (conj eq_refl (conj eq_refl eq_refl)))) by done.
    rewrite run_deeper by (by right). destruct st; cbn in *. by subst.
  - rewrite run_initrd_props, run_deeper by (done || by right). destruct st; cbn in *. by subst.
  - rewrite run_other_props, run_reserved_children by (by left || done). destruct st; cbn in *. by subst.
  - rewrite run_other_props, run_deeper by (by right). destruct st; cbn in *. by subst.
Qed.

Lemma memory_of_child_keeps ac sc st child :
  root_kind (memory_of_child ac sc st child) = root_kind st ∧
  root_address_cells (memory_of_child ac sc st child) = root_address_cells st ∧
  root_size_cells (memory_of_child ac sc st child) = root_size_cells st.
Proof. destruct child. unfold memory_of_child. by repeat case_match. Qed.

Lemma run_children_of_root children : ∀ st,
  root_kind st = ROOT_NONE →
  foldl (λ s c, run 1 c s) st children =
  foldl (memory_of_child (root_address_cells st) (root_size_cells st)) st children ∧
  root_kind (foldl (λ s c, run 1 c s) st children) = ROOT_NONE.
Proof.
  induction children as [|c children IH]; intros st Hk; [done|]. cbn [foldl]. rewrite run_child by done.
  destruct (memory_of_child_keeps (root_address_cells st) (root_size_cells st) st c) as (Hk' & Ha & Hs).
  destruct (IH (memory_of_child (root_address_cells st) (root_size_cells st) st c)) as [IH1 IH2]; [congruence|].
  by rewrite Ha, Hs in IH1.
Qed.

Lemma run_root root st :
  root_kind st = ROOT_NONE → root_address_cells st = 2 → root_size_cells st = 1 →
  run (-1 + 1) root st = memory_of_tree root st.
Proof.
  intros Hk Ha Hs. destruct root as [name properties children]. cbn [run_node].
  change (-1 + 1) with 0. change (0 + 1) with 1. change (memory_end 0 ?x) with x.
  change (enter_node 0 name st) with st. rewrite run_root_props.
  destruct (run_children_of_root children
    (st <| root_address_cells ::= λ c, foldl (one_cell (chars "#address-cells")) c properties |>
        <| root_size_cells ::= λ c, foldl (one_cell (chars "#size-cells")) c properties |>)) as [Hrun _]; [done|].
  rewrite Hrun.
  unfold memory_of_tree. destruct st; cbn in *. by subst.
Qed.

(** ** The whole blob *)

Definition reserve_entry_ok (e : Z * Z) : Prop :=
  is_word (fst e) ∧ is_word (snd e) ∧ negb ((fst e =? 0) && (snd e =? 0)) = true.

Lemma reserve_map_value m fdt total entries : ∀ fuel offset ranges,
  bytes_at m (fdt + offset) (encode_reserve_map entries) → Forall reserve_entry_ok entries →
  0 ≤ offset → offset + Z.of_nat (length (encode_reserve_map entries)) ≤ total → total < 2 ^ 32 →
  (length entries < fuel)%nat →
  reserve_map_loop fuel m fdt total offset ranges = Some (foldl add_usable ranges entries).
Proof.
  assert (∀ e, is_word (fst e) → is_word (snd e) → ∀ p, bytes_at m p (be64 (fst e) ++ be64 (snd e)) →
    read_big_u64 m p = Some (fst e) ∧ read_big_u64 m (p + 8) = Some (snd e)) as Hread.
  { intros e H1 H2 p [Hb1 Hb2]%bytes_at_app_iff. split; by apply read_be64. }
  induction entries as [|e entries IH]; intros [|fuel] offset ranges Hb Hok Ho Ht Htot Hf; try (cbn in Hf; lia);
    unfold encode_reserve_map in *; cbn [map concat app length] in *;
    cbn [reserve_map_loop]; unfold valid_span; rewrite ?length_app in Ht; cbn [be64 be32 app length] in Ht;
    rewrite !(proj2 (Z.leb_le _ _)) by lia; cbn [andb negb].
  - destruct (Hread (0, 0)) with (p := fdt + offset) as [-> ->]; [by vm_compute..|done|]. done.
  - apply Forall_cons in Hok as [(Hw1 & Hw2 & Hne) Hok]. rewrite <- !app_assoc in Hb.
    rewrite app_assoc, bytes_at_app_iff in Hb. destruct Hb as [He Hb].
    destruct (Hread e Hw1 Hw2 _ He) as [-> ->]. cbn [mbind option_bind].
    apply negb_true_iff in Hne. rewrite Hne. unfold wrap32. rewrite Z.mod_small by lia. cbn [foldl].
    rewrite (IH fuel (offset + 16)); [done| |done|lia| |done|lia].
    + rewrite length_app in Hb. cbn [be64 be32 app length] in Hb.
      by replace (fdt + (offset + 16)) with (fdt + offset + Z.of_nat (8 + 8)) by lia.
    + rewrite length_app. cbn [be64 be32 app length]. lia.
Qed.

Lemma reserve_map_length entries : (length entries < length (encode_reserve_map entries))%nat.
Proof.
  unfold encode_reserve_map. rewrite !length_app. change (length (be64 0)) with 8%nat.
  induction entries as [|e entries IH]; cbn [map concat length]; rewrite ?length_app; [lia|].
  change (length (be64 _)) with 8%nat. lia.
Qed.

(** A device tree in its flattened form at [fdt]. *)
Record flattened_at (m : byte_memory) (fdt : Z) (h : fdt_header) (entries : list (Z * Z)) (root : dt_node)
    (offset : list Z → Z) : Prop := {
  flat_address : 0 < fdt < DIRECT_MAP_END;
  flat_aligned : (fdt + structure_offset h) mod 4 = 0;
  flat_magic : read_big_u32 m fdt = Some FDT_MAGIC;
  flat_header : read_header m fdt = Some h;
  flat_valid : header_valid fdt h = true;
  flat_small : 0 ≤ reserve_map_offset h ∧ total_size h < 2 ^ 32;
  flat_reserve : bytes_at m (fdt + reserve_map_offset h) (encode_reserve_map entries);
  flat_reserve_end : reserve_map_offset h + Z.of_nat (length (encode_reserve_map entries)) ≤ total_size h;
  flat_entries : Forall reserve_entry_ok entries;
  flat_structure : bytes_at m (fdt + structure_offset h) (encode_node offset root ++ be32 FDT_END);
  flat_structure_end : Z.of_nat (length (encode_node offset root)) + 4 ≤ structure_size h;
  flat_names : dt_ok (name_at m (fdt + strings_offset h) (strings_size h) offset) root;
}.

Lemma node_tokens_bound offset t : (node_tokens t ≤ length (encode_node offset t))%nat.
Proof.
  induction t as [name properties children IH] using dt_node_nested_ind. cbn [node_tokens encode_node].
  rewrite !length_app. cbn [be32 length].
  assert (length properties ≤ length (concat (map (encode_property offset) properties)))%nat.
  { clear. induction properties as [|p ps IH]; [done|]. cbn [map concat length]. rewrite length_app.
    assert (1 ≤ length (encode_property offset p))%nat by (unfold encode_property; rewrite !length_app; cbn; lia).
    lia. }
  assert (sum_list (map node_tokens children) ≤ length (concat (map (encode_node offset) children)))%nat.
  { induction IH as [|c children Hc _ IHc]; [done|]. cbn [map concat sum_list_with]. unfold id at 1.
    rewrite length_app. lia. }
  lia.
Qed.

Lemma parse_fdt_tree m fdt h entries root offset st :
  flattened_at m fdt h entries root offset →
  parse_fdt m fdt st =
  Some (true, memory_of_tree root (st <| g_reserved_ranges ::= λ r, foldl add_usable r entries |>
                                      <| dtb_size := total_size h |>)).
Proof.
  intros [Hf Hal Hmagic Hh Hv [Hr0 Ht] Hres Hrese Hent Hst Hste Hn]. unfold parse_fdt.
  rewrite (proj2 (Z.eqb_neq fdt 0)), (proj2 (Z.leb_gt _ _)) by lia. rewrite Hmagic. cbn [orb mbind option_bind].
  change (FDT_MAGIC =? FDT_MAGIC) with true. rewrite Hh. cbn [negb mbind option_bind]. rewrite Hv. cbn [negb orb].
  pose proof (reserve_map_length entries) as Hlen.
  rewrite (proj2 (Z.leb_gt (total_size h) (reserve_map_offset h))) by lia.
  rewrite (reserve_map_value m fdt (total_size h) entries) by (done || lia). cbn [mbind option_bind].
  set (st0 := st <| g_reserved_ranges := _ |> <| dtb_size := _ |> <| root_address_cells := 2 |>
                 <| root_size_cells := 1 |> <| root_kind := ROOT_NONE |>).
  apply bytes_at_app_iff in Hst as [Hst Hend]. pose proof (node_tokens_bound offset root) as Htok.
  destruct (consumes_node cells_ok m (fdt + structure_offset h + structure_size h) (strings_size h) offset
    (name_at m (fdt + strings_offset h) (strings_size h) offset) (memory_begin m) memory_end
    (memory_property m (fdt + strings_offset h) (strings_size h)) enter_node apply_property) with
    (t := root) (depth := -1) (st := st0) as (Hwalk & _ & _); try done.
  - intros n (_ & Ho & Hl). lia.
  - intros depth name p st1 _. apply memory_begin_enters.
  - intros depth name st1. unfold enter_node. by case_match.
  - intros depth st1. unfold memory_end. by case_match.
  - intros depth p data st1. apply memory_property_applies.
  - intros depth p st1. apply apply_property_cells.
  - replace (S (Z.to_nat (structure_size h)))
      with (node_tokens root + S (Z.to_nat (structure_size h) - node_tokens root))%nat by lia.
    rewrite Hwalk by (done || lia). cbn [fdt_walk]. rewrite (proj2 (Z.ltb_ge _ _)) by lia.
    rewrite next_token_stop by done. cbn [mbind option_bind]. do 2 f_equal.
    rewrite run_root by done. by destruct root.
Qed.

(** C12: the parser finds the memory a device tree describes.  For every tree in its
    flattened form, with any nodes, properties and nesting, [parse_fdt] succeeds, and
    the RAM ranges, the reserved ranges and the place of the initrd it leaves are
    those of the tree: the [reg] pairs of the memory nodes, read with the cell sizes
    of the root, those of the children of reserved-memory after the reserve map, and
    the two properties of chosen. *)
Theorem parse_fdt_reads_tree m fdt h entries root offset st :
  flattened_at m fdt h entries root offset →
  parse_fdt m fdt st =
  Some (true, memory_of_tree root (st <| g_reserved_ranges ::= λ r, foldl add_usable r entries |>
                                      <| dtb_size := total_size h |>)).
Proof. apply parse_fdt_tree. Qed.

(** A blob in a part of the memory. *)
Lemma bytes_at_weaken m m' p l : m ⊆ m' → bytes_at m p l → bytes_at m' p l.
Proof.
  intros Hm. revert p. induction l as [|v l IH]; intros p; [done|]. intros (Hv & ? & Hl).
  split; [by eapply lookup_weaken|split; [done|by apply IH]].
Qed.
Lemma read_big_u32_weaken m m' p v : m ⊆ m' → read_big_u32 m p = Some v → read_big_u32 m' p = Some v.
Proof.
  intros Hm. unfold read_big_u32.
  destruct (m !! p) eqn:E0; [|done]. destruct (m !! (p + 1)) eqn:E1; [|done].
  destruct (m !! (p + 2)) eqn:E2; [|done]. destruct (m !! (p + 3)) eqn:E3; [|done].
  by rewrite (lookup_weaken _ _ _ _ E0 Hm), (lookup_weaken _ _ _ _ E1 Hm), (lookup_weaken _ _ _ _ E2 Hm),
    (lookup_weaken _ _ _ _ E3 Hm).
Qed.
Lemma read_header_weaken m m' fdt h : m ⊆ m' → read_header m fdt = Some h → read_header m' fdt = Some h.
Proof.
  intros Hm. unfold read_header.
  repeat match goal with
  | |- (read_big_u32 m ?p ≫= _) = _ → _ =>
      destruct (read_big_u32 m p) eqn:?; cbn [mbind option_bind]; [|discriminate]
  end.
  by repeat (erewrite (read_big_u32_weaken m m') by done; cbn [mbind option_bind]).
Qed.
Lemma dt_ok_impl (P Q : list Z → Prop) t : (∀ n, P n → Q n) → dt_ok P t → dt_ok Q t.
Proof.
  intros Hpq. induction t as [name properties children IH] using dt_node_nested_ind. intros Hok.
  inversion Hok as [? ? ? Hn Hps Hcs]; subst. constructor; [done| |].
  - eapply Forall_impl; [exact Hps|]. intros p (? & ?). split; [by apply Hpq|done].
  - clear -IH Hcs. induction children as [|c children IHc]; [done|].
    apply Forall_cons in IH as [Hc IH], Hcs as [Hc' Hcs]. apply Forall_cons. auto.
Qed.
Lemma flattened_at_weaken m m' fdt h entries root offset :
  m ⊆ m' → flattened_at m fdt h entries root offset → flattened_at m' fdt h entries root offset.
Proof.
  intros Hm []. split; try done; try by eapply bytes_at_weaken.
  - by eapply read_big_u32_weaken.
  - by eapply read_header_weaken.
  - eapply dt_ok_impl; [|done]. intros n ([? ?] & ?). split; [split; [by eapply bytes_at_weaken|done]|done].
Qed.

(** ** An example *)

Section example.

Fixpoint memory_of_bytes (p : Z) (l : list Z) : byte_memory :=
  match l with
  | [] => ∅
  | v :: l' => <[p := v]> (memory_of_bytes (p + 1) l')
  end.

Fixpoint bytes_check (m : byte_memory) (p : Z) (l : list Z) : bool :=
  match l with
  | [] => true
  | v :: l' => bool_decide (m !! p = Some v) && (0 <=? v) && (v <? 256) && bytes_check m (p + 1) l'
  end.
Lemma bytes_check_sound m p l : bytes_check m p l = true → bytes_at m p l.
Proof.
  revert p. induction l as [|v l IH]; intros p; cbn [bytes_check bytes_at]; [done|].
  rewrite !andb_true_iff, bool_decide_eq_true, Z.leb_le, Z.ltb_lt. intros [[[? ?] ?] ?]. auto.
Qed.

(** A machine with two processors and 256 MiB of RAM at 1 GiB, whose firmware keeps
    the first 2 MiB, and an initrd at 0x48000000. *)
Definition example_tree : dt_node :=
  DtNode [] [(chars "#address-cells", be32 2); (chars "#size-cells", be32 2)]
    [DtNode (chars "memory@40000000") [(chars "reg", be64 0x40000000 ++ be64 0x10000000)] [];
     DtNode (chars "reserved-memory") []
       [DtNode (chars "firmware@40000000") [(chars "reg", be64 0x40000000 ++ be64 0x200000)] []];
     DtNode (chars "psci") [(chars "method", chars "hvc" ++ [0])] [];
     DtNode (chars "cpus") [(chars "#address-cells", be32 1)]
       [DtNode (chars "cpu@0") [(chars "device_type", chars "cpu" ++ [0]); (chars "reg", be32 0)] [];
        DtNode (chars "cpu@1") [(chars "device_type", chars "cpu" ++ [0]); (chars "reg", be32 1);
                                (chars "enable-method", chars "psci" ++ [0])] []];
     DtNode (chars "chosen") [(chars "linux,initrd-start", be64 0x48000000);
                              (chars "linux,initrd-end", be64 0x48000158)] []].

Definition example_names : list (list Z) :=
  [chars "#address-cells"; chars "#size-cells"; chars "reg"; chars "linux,initrd-start"; chars "linux,initrd-end";
   chars "device_type"; chars "enable-method"; chars "method"].
Definition example_strings : list Z := concat (map (λ n, n ++ [0]) example_names).
(** The sum of the lengths of the names before. *)
Definition example_offset (name : list Z) : Z :=
  match list_find (λ n, n = name) example_names with
  | Some (i, _) => Z.of_nat (length (concat (map (λ n, n ++ [0]) (take i example_names))))
  | None => 0
  end.

Definition example_structure : list Z := encode_node example_offset example_tree ++ be32 FDT_END.
Definition example_reserve : list Z := encode_reserve_map [(0x4fff0000, 0x10000)].
Definition example_header : fdt_header :=
  let structure_size := Z.of_nat (length example_structure) in
  let strings_size := Z.of_nat (length example_strings) in
  MkHeader (72 + structure_size + strings_size) 72 (72 + structure_size) 40 strings_size structure_size.
Definition example_blob : list Z :=
  be32 FDT_MAGIC ++ be32 (total_size example_header) ++ be32 (structure_offset example_header)
  ++ be32 (strings_offset example_header) ++ be32 (reserve_map_offset example_header)
  ++ be32 17 ++ be32 16 ++ be32 0 ++ be32 (strings_size example_header) ++ be32 (structure_size example_header)
  ++ example_reserve ++ example_structure ++ example_strings.
Definition example_dtb : byte_memory := memory_of_bytes 0x44000000 example_blob.

Definition empty_fdt_state : fdt_state := MkFdtState [] [] 0 0 0 0 0 ROOT_NONE.

Lemma example_blob_at : bytes_at example_dtb 0x44000000 example_blob.
Proof. apply bytes_check_sound. by vm_compute. Qed.

Lemma example_name_at name :
  name ∈ example_names →
  name_at example_dtb (0x44000000 + strings_offset example_header) (strings_size example_header) example_offset name.
Proof.
  intros Hn. assert (Forall (λ n, Forall (λ c, c ≠ 0) n ∧
    bytes_check example_dtb (0x44000000 + strings_offset example_header + example_offset n) (n ++ [0]) = true ∧
    (0 ≤ example_offset n < 2 ^ 32) ∧
    example_offset n + Z.of_nat (length n) < strings_size example_header) example_names) as Hall.
  { repeat (apply Forall_cons_2; [split_and!; [by apply chars_nonzero|by vm_compute..]|]). apply Forall_nil_2. }
  rewrite Forall_forall in Hall. destruct (Hall name Hn) as (Hz & Hb & Ho & Hl).
  split; [split; [by apply bytes_check_sound|done]|done].
Qed.

Lemma example_property_ok p :
  bool_decide (fst p ∈ example_names) = true → bool_decide (length (snd p) < 100)%nat = true →
  forallb (λ b, (0 <=? b) && (b <? 256)) (snd p) = true →
  property_ok (name_at example_dtb (0x44000000 + strings_offset example_header) (strings_size example_header)
                 example_offset) p.
Proof.
  intros Hn%bool_decide_eq_true Hl%bool_decide_eq_true Hb. split_and!; [by apply example_name_at|lia|].
  apply Forall_forall. intros b Hin. rewrite forallb_forall in Hb. apply list_elem_of_In, Hb in Hin.
  rewrite andb_true_iff, Z.leb_le, Z.ltb_lt in Hin. done.
Qed.

Lemma example_tree_ok :
  dt_ok (name_at example_dtb (0x44000000 + strings_offset example_header) (strings_size example_header)
           example_offset) example_tree.
Proof.
  unfold example_tree.
  repeat first [ apply DtOk; [first [apply Forall_nil_2 | by apply chars_nonzero]|..]
               | apply Forall_cons_2 | apply Forall_nil_2
               | apply example_property_ok; by vm_compute ].
Qed.

Lemma example_flattened :
  flattened_at example_dtb 0x44000000 example_header [(0x4fff0000, 0x10000)] example_tree example_offset.
Proof.
  split; [by vm_compute..| | | | | | ].
  - apply bytes_check_sound. by vm_compute.
  - by vm_compute.
  - apply Forall_singleton. by vm_compute.
  - apply bytes_check_sound. by vm_compute.
  - by vm_compute.
  - apply example_tree_ok.
Qed.

Lemma parse_fdt_reads_tree_witness :
  flattened_at example_dtb 0x44000000 example_header [(0x4fff0000, 0x10000)] example_tree example_offset ∧
  parse_fdt example_dtb 0x44000000 empty_fdt_state =
  Some (true, MkFdtState [MkRange 0x40000000 0x50000000]
                [MkRange 0x4fff0000 0x50000000; MkRange 0x40000000 0x40200000] 0x48000000 0x48000158
                (total_size example_header) 2 2 ROOT_NONE).
Proof.
  pose proof example_flattened as Hflat.
  split; [exact Hflat|].
  rewrite (parse_fdt_reads_tree _ _ _ _ _ _ empty_fdt_state Hflat). by vm_compute.
Defined.

End example.
