(* ===== verification/CpuTopologyProofs.v ===== *)
(** Properties of the discovery of the processors (CpuTopology.v). *)

From Stdlib Require Import String.
From S2P Require Import Prelude Word Types Kernel Boot CString MemoryMap DeviceTree.
From S2P Require Import CpuTopology DeviceTreeProofs DeviceTreeSpec DeviceTreeRoundtrip.
Local Open Scope Z_scope.

Record topology_ok (st : topology_state) : Prop := {
  topology_cpus : (length (cpu_descriptions st) ≤ TOPOLOGY_CPU_MAX)%nat;
  topology_cells : is_cells (cpu_address_cells st);
  topology_count : topology_core_count st = 1;
}.

Lemma append_cpu_length cpu cpus :
  (length cpus ≤ TOPOLOGY_CPU_MAX)%nat → (length (append_cpu cpu cpus) ≤ TOPOLOGY_CPU_MAX)%nat.
Proof.
  intros Hl. unfold append_cpu. destruct (_ || _) eqn:Hb; [done|].
  apply orb_false_iff in Hb as [_ Hb%Nat.leb_gt]. rewrite length_app. cbn. lia.
Qed.

Lemma topology_begin_total m structure_end depth name st :
  topology_ok st → terminated m name structure_end →
  ∃ st', topology_begin m depth name st = Some st' ∧ topology_ok st'.
Proof.
  intros [] Ht. unfold topology_begin. destruct (depth =? 1); [do 2 name_case Ht; kept|].
  destruct (_ && _); [name_case Ht; kept|kept].
Qed.

Lemma topology_end_ok depth st : topology_ok st → topology_ok (topology_end depth st).
Proof.
  intros []. unfold topology_end. repeat case_match; constructor; cbn; try done. by apply append_cpu_length.
Qed.

Lemma string_choice_total {A} m data length (choices : list (list Z * A)) first last :
  mapped m first last → first ≤ data → data + length ≤ last → 0 ≤ length →
  is_Some (string_choice m data length choices).
Proof.
  intros Hm Hf Hl H0. induction choices as [|[name a] choices IH]; cbn [string_choice]; [done|].
  destruct (property_string_total m data length name first last) as [b ->]; try done.
  cbn [mbind option_bind]. by destruct b.
Qed.

Section topology_property.
Context (m : byte_memory) (fdt total structure_end strings strings_size : Z).
Hypothesis (Hm : mapped m fdt (fdt + total)).
Hypothesis (Hstructure : structure_end ≤ fdt + total).
Hypothesis (Hstrings : fdt ≤ strings) (Hsize : strings + strings_size ≤ fdt + total).

Lemma topology_property_total depth length name_offset data st :
  topology_ok st → fdt ≤ data → 0 ≤ length → data + length ≤ structure_end → 0 ≤ name_offset < strings_size →
  ∃ st', topology_property m strings strings_size depth length name_offset data st = Some st' ∧ topology_ok st'.
Proof using Hm Hstructure Hstrings Hsize.
  intros [] Hd Hl He Ho. unfold topology_property.
  assert (length / 4 * 4 ≤ length ∧ 0 ≤ length / 4) as [H4 H4'].
  { pose proof (Z.div_mod length 4 ltac:(lia)). pose proof (Z.mod_pos_bound length 4 ltac:(lia)). lia. }
  assert (∀ A (choices : list (list Z * A)), is_Some (string_choice m data length choices)) as Hchoice.
  { intros. eapply string_choice_total; [exact Hm|lia..]. }
  repeat (eapply property_case_total; [exact Hm|lia|lia|lia|intros Hguard|]); [..|kept].
  - apply andb_true_iff in Hguard as [_ ->%Z.eqb_eq].
    destruct (read_big_u32_mapped m data fdt (fdt + total)) as (v & -> & ?); try (done || lia). kept.
  - destruct (Hchoice _ [(chars "hvc", CONDUIT_HVC); (chars "smc", CONDUIT_SMC)]) as [[|] ->]; kept.
  - edestruct (property_string_total m data length (chars "cpu") fdt (fdt + total)) as [b ->];
      try (done || lia). kept.
  - destruct (Hchoice _ [(chars "okay", true); (chars "ok", true)]) as [? ->]. kept.
  - clear Hguard. destruct (_ && _ && _) eqn:Hb; [|kept]. rewrite !andb_true_iff, !Z.leb_le in Hb.
    destruct (read_cells_mapped m data fdt (fdt + total) (cpu_address_cells st)) as (v & -> & ?);
      try (done || lia). kept.
  - destruct (Hchoice _ [(chars "psci", ENABLE_PSCI); (chars "spin-table", ENABLE_SPIN_TABLE)]) as [[|] ->];
      kept.
  - clear Hguard. destruct ((1 <=? _) && _); [|kept].
    destruct (read_cells_mapped m data fdt (fdt + total) (length / 4)) as (v & -> & ?); try (done || lia). kept.
Qed.
End topology_property.

Lemma find_boot_cpu_spec affinity cpus : ∀ index i,
  find_boot_cpu affinity cpus index = Some i →
  ∃ n cpu, i = (index + n)%nat ∧ cpus !! n = Some cpu ∧ Z.land (mpidr cpu) MPIDR_AFFINITY_MASK = affinity.
Proof.
  induction cpus as [|cpu cpus IH]; intros index i; cbn [find_boot_cpu]; [done|].
  destruct (Z.eqb_spec (Z.land (mpidr cpu) MPIDR_AFFINITY_MASK) affinity).
  - intros [= <-]. exists O, cpu. rewrite Nat.add_0_r. done.
  - intros (j & cpu' & -> & Hj & Ha)%IH. exists (S j), cpu'. rewrite Nat.add_succ_r. done.
Qed.

Lemma move_boot_cpu_first_spec mpidr_el1 cpus cpus' :
  move_boot_cpu_first mpidr_el1 cpus = Some cpus' →
  cpus' ≡ₚ cpus ∧ ∃ boot rest, cpus' = boot :: rest ∧
    Z.land (mpidr boot) MPIDR_AFFINITY_MASK = Z.land mpidr_el1 MPIDR_AFFINITY_MASK.
Proof.
  unfold move_boot_cpu_first. destruct (find_boot_cpu _ _ _) as [index|] eqn:Hfind; [|done].
  apply find_boot_cpu_spec in Hfind as (n & boot & -> & Hn & Ha).
  cbn [mbind option_bind Nat.add]. rewrite Hn. destruct cpus as [|first cpus]; [done|].
  change ((first :: cpus) !! O) with (Some first). cbn [mbind option_bind].
  change (<[O := boot]> (first :: cpus)) with (boot :: cpus). intros [= <-]. destruct n as [|n].
  - injection Hn as ->. split; [done|]. by exists boot, cpus.
  - change (<[S n := first]> (boot :: cpus)) with (boot :: <[n := first]> cpus).
    split; [|by exists boot, (<[n := first]> cpus)].
    change (cpus !! n = Some boot) in Hn. apply list_elem_of_split_length in Hn as (l1 & l2 & -> & ->).
    rewrite insert_app_r_alt, Nat.sub_diag by lia. change (<[O := first]> (boot :: l2)) with (first :: l2).
    solve_Permutation.
Qed.

(** For every blob of bytes the discovery of the processors ends without a read
    outside the blob.  When it succeeds, the number of cores is that of the recorded
    processors, at most 64, and the processor that boots is the first of them; when
    it fails, one core is expected. *)
Theorem cpu_topology_sound m mpidr_el1 dtb_address :
  blob m dtb_address →
  ∃ r st, discover_cpu_topology m mpidr_el1 dtb_address = Some (r, st) ∧
    (length (cpu_descriptions st) ≤ TOPOLOGY_CPU_MAX)%nat ∧
    match r with
    | Ok _ => topology_core_count st = Z.of_nat (length (cpu_descriptions st)) ∧
        ∃ boot rest, cpu_descriptions st = boot :: rest ∧
          Z.land (mpidr boot) MPIDR_AFFINITY_MASK = Z.land mpidr_el1 MPIDR_AFFINITY_MASK
    | Err _ => topology_core_count st = 1
    end.
Proof.
  intros [Hh Hb Hs]. unfold discover_cpu_topology.
  assert (topology_ok initial_topology) as Hinit by by constructor; cbn; (done || lia).
  destruct (_ || _); [do 2 eexists; split_and!; [done|cbn; lia|done]|].
  destruct (read_big_u32_mapped m dtb_address dtb_address (dtb_address + 40)) as (magic & -> & _); try (done || lia).
  cbn [mbind option_bind]. destruct (negb _); [do 2 eexists; split_and!; [done|cbn; lia|done]|].
  destruct (read_header_total m dtb_address Hh) as (h & -> & Htotal & Hc). specialize (Hb _ Htotal).
  cbn [mbind option_bind].
  destruct (negb (header_valid dtb_address h)) eqn:Hv; [do 2 eexists; split_and!; [done|cbn; lia|done]|].
  apply negb_false_iff, header_valid_spec in Hv.
  rewrite !Forall_cons in Hc. unfold is_cells in Hc. destruct Hc as (? & ? & ? & ? & ? & ? & _).
  edestruct (fdt_walk_total topology_ok m dtb_address) as (complete & st & -> & [Hlen _ Hcount]);
    [..|cbn [mbind option_bind]].
  - eapply mapped_sub; [exact Hb|lia..].
  - intros. by eapply topology_begin_total.
  - apply topology_end_ok.
  - intros. eapply topology_property_total; try done; lia.
  - exact Hinit.
  - lia.
  - lia.
  - destruct complete; cbn [negb]; [|by do 2 eexists]. unfold finish_topology.
    destruct (cpu_descriptions st) as [|cpu cpus] eqn:Hcpus; [do 2 eexists; split_and!; [done|by rewrite Hcpus|done]|].
    destruct (move_boot_cpu_first mpidr_el1 (cpu :: cpus)) as [cpus'|] eqn:Hmove;
      [|do 2 eexists; split_and!; [done|by rewrite Hcpus|done]].
    apply move_boot_cpu_first_spec in Hmove as [Hp Hboot].
    do 2 eexists. split_and!; [done|cbn; by rewrite Hp|]. cbn. split; [by rewrite Hp|done].
Qed.

Lemma bytes_at_mapped m p l : bytes_at m p l → mapped m p (p + Z.of_nat (length l)).
Proof.
  revert p. induction l as [|v l IH]; intros p Hb a Ha; cbn [length] in Ha; [lia|].
  destruct Hb as (Hv & Hr & Hb). destruct (Z.eq_dec a p) as [->|]; [by exists v|]. apply (IH (p + 1)); [done|lia].
Qed.

Lemma cpu_topology_sound_witness :
  blob example_dtb 0x44000000 ∧
  ∃ r st, discover_cpu_topology example_dtb 0x80000001 0x44000000 = Some (r, st) ∧
    (length (cpu_descriptions st) ≤ TOPOLOGY_CPU_MAX)%nat ∧ r = Ok tt ∧ topology_core_count st = 2 ∧
    ∃ boot rest, cpu_descriptions st = boot :: rest ∧ mpidr boot = 1.
Proof.
  assert (blob example_dtb 0x44000000) as Hb.
  { assert (∀ total, read_big_u32 example_dtb (0x44000000 + 4) = Some total →
      total = Z.of_nat (length example_blob)) as Htotal.
    { assert (read_big_u32 example_dtb (0x44000000 + 4) = Some (Z.of_nat (length example_blob))) as ->
        by by vm_compute.
      by intros total [= <-]. }
    pose proof (bytes_at_mapped _ _ _ example_blob_at) as Hm.
    constructor; [eapply mapped_sub; [exact Hm|done|by vm_compute]|intros total ->%Htotal; exact Hm|
      intros total ->%Htotal; by vm_compute]. }
  split; [exact Hb|].
  destruct (cpu_topology_sound example_dtb 0x80000001 0x44000000 Hb) as (r & st & Hd & Hl & Hr).
  exists r, st. split; [exact Hd|]. split; [exact Hl|].
  assert (∃ st', discover_cpu_topology example_dtb 0x80000001 0x44000000 = Some (Ok tt, st') ∧
    topology_core_count st' = 2 ∧ ∃ boot rest, cpu_descriptions st' = boot :: rest ∧ mpidr boot = 1)
    as (st' & Hd' & Hst').
  { eexists. split; [vm_compute; reflexivity|]. split; [reflexivity|]. do 2 eexists. split; reflexivity. }
  rewrite Hd in Hd'. injection Hd' as -> ->. split; [reflexivity|exact Hst'].
Defined.
