(* ===== verification/ElfLoader.v ===== *)
(** The ELF loader of the AArch64 boot protocol:
    src/src/hal/aarch64/boot/boot_protocol.cpp.

    The initrd and [g_init_image] are bytes of physical memory; [init_image] is the
    physical address of the latter.  An access to an address that is not mapped is
    undefined, [None]. *)

From Stdlib Require Import String.
From S2P Require Import Prelude Word Types Kernel Boot CString MemoryMap DeviceTree.
Local Open Scope Z_scope.

Definition ELF_LOAD : Z := 1.
Definition ELF_SYMBOL_TABLE : Z := 2.
Definition ELF_MACHINE_AARCH64 : Z := 183.
Definition INIT_IMAGE_CAPACITY : Z := 64 * 1024 * 1024.

(** ** Numbers *)

Definition read_little_u16 (m : byte_memory) (source : Z) : option Z :=
  b0 ← m !! source; b1 ← m !! (source + 1);
  Some (Z.lor b0 (Z.shiftl b1 8)).

Definition read_little_u32 (m : byte_memory) (source : Z) : option Z :=
  b0 ← m !! source; b1 ← m !! (source + 1); b2 ← m !! (source + 2); b3 ← m !! (source + 3);
  Some (Z.lor (Z.lor (Z.lor b0 (Z.shiftl b1 8)) (Z.shiftl b2 16)) (Z.shiftl b3 24)).

Definition read_little_u64 (m : byte_memory) (source : Z) : option Z :=
  low ← read_little_u32 m source; high ← read_little_u32 m (source + 4);
  Some (Z.lor low (Z.shiftl high 32)).

(** ** Copying and clearing *)

Fixpoint copy_upwards (m : byte_memory) (destination source : Z) (size : nat) : option byte_memory :=
  match size with
  | O => Some m
  | S size' =>
      v ← m !! source;
      m' ← write_byte m destination v;
      copy_upwards m' (destination + 1) (source + 1) size'
  end.
(** [for (index = size; index != 0; --index)] *)
Fixpoint copy_downwards (m : byte_memory) (destination source : Z) (size : nat) : option byte_memory :=
  match size with
  | O => Some m
  | S size' =>
      v ← m !! (source + Z.of_nat size');
      m' ← write_byte m (destination + Z.of_nat size') v;
      copy_downwards m' destination source size'
  end.
Definition copy_bytes (m : byte_memory) (destination source size : Z) : option byte_memory :=
  if (destination <? source) || (source + size <=? destination)
  then copy_upwards m destination source (Z.to_nat size)
  else copy_downwards m destination source (Z.to_nat size).

Fixpoint clear_loop (m : byte_memory) (destination : Z) (size : nat) : option byte_memory :=
  match size with
  | O => Some m
  | S size' => m' ← write_byte m destination 0; clear_loop m' (destination + 1) size'
  end.
Definition clear_bytes (m : byte_memory) (destination size : Z) : option byte_memory :=
  clear_loop m destination (Z.to_nat size).

(** ** Symbols *)

(** The loop over the symbols of a table. *)
Fixpoint symbol_loop (fuel : nat) (m : byte_memory) (symbols symbol_size symbol_entry_size strings string_size : Z)
    (name : list Z) (offset : Z) : option (option Z) :=
  if symbol_size <? wadd offset symbol_entry_size then Some None
  else
    match fuel with
    | O => None
    | S fuel' =>
        let symbol := symbols + offset in
        name_offset ← read_little_u32 m symbol;
        found ← bounded_string_equals m strings string_size name_offset name;
        if found : bool then value ← read_little_u64 m (symbol + 8); Some (Some value)
        else
          symbol_loop fuel' m symbols symbol_size symbol_entry_size strings string_size name
            (wadd offset symbol_entry_size)
    end.

(** The body of the loop over the sections: [None] inside when the loop goes on. *)
Definition search_section (m : byte_memory) (elf elf_size section_offset section_entry_size section_count : Z)
    (name : list Z) (index : Z) : option (option Z) :=
  let section := elf + section_offset + index * section_entry_size in
  type ← read_little_u32 m (section + 4);
  if negb (type =? ELF_SYMBOL_TABLE) then Some None
  else
    symbol_offset ← read_little_u64 m (section + 24);
    symbol_size ← read_little_u64 m (section + 32);
    string_index ← read_little_u32 m (section + 40);
    symbol_entry_size ← read_little_u64 m (section + 56);
    if (section_count <=? string_index) || (symbol_entry_size <? 24)
       || negb (valid_span symbol_offset symbol_size elf_size)
    then Some None
    else
      let string_section := elf + section_offset + string_index * section_entry_size in
      string_offset ← read_little_u64 m (string_section + 24);
      string_size ← read_little_u64 m (string_section + 32);
      if negb (valid_span string_offset string_size elf_size) then Some None
      else
        symbol_loop (S (Z.to_nat symbol_size)) m (elf + symbol_offset) symbol_size symbol_entry_size
          (elf + string_offset) string_size name 0.

Fixpoint section_loop (sections : nat) (m : byte_memory)
    (elf elf_size section_offset section_entry_size section_count : Z) (name : list Z) (index : Z)
    : option (option Z) :=
  match sections with
  | O => Some None
  | S sections' =>
      found ← search_section m elf elf_size section_offset section_entry_size section_count name index;
      match found with
      | Some value => Some (Some value)
      | None =>
          section_loop sections' m elf elf_size section_offset section_entry_size section_count name (index + 1)
      end
  end.

Definition find_elf_symbol (m : byte_memory) (elf elf_size : Z) (symbol_name : list Z) : option (option Z) :=
  section_offset ← read_little_u64 m (elf + 40);
  section_entry_size ← read_little_u16 m (elf + 58);
  section_count ← read_little_u16 m (elf + 60);
  if (section_entry_size <? 64)
     || negb (valid_span section_offset (section_entry_size * section_count) elf_size)
  then Some None
  else
    section_loop (Z.to_nat section_count) m elf elf_size section_offset section_entry_size section_count
      symbol_name 0.

(** ** Segments *)

(** The fields of a program header the loader reads. *)
Definition program_type (m : byte_memory) (program : Z) : option Z := read_little_u32 m program.
Definition program_file_offset (m : byte_memory) (program : Z) : option Z := read_little_u64 m (program + 8).
Definition program_physical (m : byte_memory) (program : Z) : option Z := read_little_u64 m (program + 24).
Definition program_file_size (m : byte_memory) (program : Z) : option Z := read_little_u64 m (program + 32).
Definition program_memory_size (m : byte_memory) (program : Z) : option Z := read_little_u64 m (program + 40).

(** The first loop: the end of the image, or [None] when a segment does not fit. *)
Fixpoint measure_loop (programs : nat) (m : byte_memory) (program program_entry_size image_end : Z)
    : option (option Z) :=
  match programs with
  | O => Some (Some image_end)
  | S programs' =>
      type ← program_type m program;
      if negb (type =? ELF_LOAD)
      then measure_loop programs' m (program + program_entry_size) program_entry_size image_end
      else
        physical ← program_physical m program;
        memory ← program_memory_size m program;
        if (INIT_IMAGE_CAPACITY <? physical) || (INIT_IMAGE_CAPACITY - physical <? memory) then Some None
        else
          measure_loop programs' m (program + program_entry_size) program_entry_size
            (if image_end <? physical + memory then physical + memory else image_end)
  end.

(** The second loop: whether every segment was copied, and the memory then. *)
Fixpoint load_loop (programs : nat) (m : byte_memory) (init_image elf elf_size program program_entry_size : Z)
    : option (bool * byte_memory) :=
  match programs with
  | O => Some (true, m)
  | S programs' =>
      type ← program_type m program;
      if negb (type =? ELF_LOAD)
      then load_loop programs' m init_image elf elf_size (program + program_entry_size) program_entry_size
      else
        file_offset ← program_file_offset m program;
        physical ← program_physical m program;
        file_size ← program_file_size m program;
        memory_size ← program_memory_size m program;
        if (memory_size <? file_size) || negb (valid_span file_offset file_size elf_size) then Some (false, m)
        else
          m' ← copy_bytes m (init_image + physical) (elf + file_offset) file_size;
          load_loop programs' m' init_image elf elf_size (program + program_entry_size) program_entry_size
  end.

(** [elf[0..5]], and the machine *)
Definition elf_identified (m : byte_memory) (elf : Z) : option bool :=
  e0 ← m !! elf; e1 ← m !! (elf + 1); e2 ← m !! (elf + 2); e3 ← m !! (elf + 3);
  e4 ← m !! (elf + 4); e5 ← m !! (elf + 5);
  if (e0 =? 0x7f) && (e1 =? 69) && (e2 =? 76) && (e3 =? 70) && (e4 =? 2) && (e5 =? 1) then
    machine ← read_little_u16 m (elf + 18);
    Some (machine =? ELF_MACHINE_AARCH64)
  else Some false.

(** [load_init_elf]: the image information when it succeeds, and the memory. *)
Definition load_init_elf (m : byte_memory) (init_image initrd_start initrd_end : Z)
    : option (option init_image_info * byte_memory) :=
  if (initrd_start =? 0) || (initrd_end <=? initrd_start) || (DIRECT_MAP_END <? initrd_end) then Some (None, m)
  else
    let elf_size := initrd_end - initrd_start in
    let elf := initrd_start in
    if elf_size <? 64 then Some (None, m)
    else
      identified ← elf_identified m elf;
      if negb identified then Some (None, m)
      else
        program_offset ← read_little_u64 m (elf + 32);
        program_entry_size ← read_little_u16 m (elf + 54);
        program_count ← read_little_u16 m (elf + 56);
        if (program_entry_size <? 56)
           || negb (valid_span program_offset (program_entry_size * program_count) elf_size)
        then Some (None, m)
        else
          measured ← measure_loop (Z.to_nat program_count) m (elf + program_offset) program_entry_size 0;
          match measured with
          | None => Some (None, m)
          | Some image_end =>
              if image_end =? 0 then Some (None, m)
              else
                let image_pages := align_up image_end / PAGE_SIZE in
                m1 ← clear_bytes m init_image (image_pages * PAGE_SIZE);
                loaded ← load_loop (Z.to_nat program_count) m1 init_image elf elf_size (elf + program_offset)
                           program_entry_size;
                let '(complete, m2) := loaded in
                if negb complete then Some (None, m2)
                else
                  init_info ← find_elf_symbol m2 elf elf_size (chars "__init_info_start");
                  match init_info with
                  | None => Some (None, m2)
                  | Some init_info =>
                      ipc_buffer ← find_elf_symbol m2 elf elf_size (chars "__init_ipc_buffer_start");
                      match ipc_buffer with
                      | None => Some (None, m2)
                      | Some ipc_buffer =>
                          entry ← read_little_u64 m2 (elf + 24);
                          Some (Some (MkImage init_image image_pages entry init_info ipc_buffer), m2)
                      end
                  end
          end.
