(* ===== verification/ElfProofs.v ===== *)
(** Properties of the ELF loader (ElfLoader.v): for every initrd it ends, reads only
    the initrd and writes only the image, and a successful load puts each segment
    where its header says. *)

From Stdlib Require Import String.
From S2P Require Import Prelude Word Types Kernel Boot CString MemoryMap DeviceTree.
From S2P Require Import DeviceTreeProofs DeviceTreeRoundtrip ElfLoader.
Local Open Scope Z_scope.

(** ** Numbers *)

Section numbers.
Context (m : byte_memory) (first last p : Z).
Hypothesis (Hm : mapped m first last) (Hf : first ≤ p).

Lemma read_little_u16_mapped : p + 2 ≤ last → ∃ v, read_little_u16 m p = Some v ∧ 0 ≤ v < 2 ^ 16.
Proof using Hm Hf.
  intros Hl. destruct (Hm p) as (b0 & E0 & ?), (Hm (p + 1)) as (b1 & E1 & ?); try lia.
  unfold read_little_u16. rewrite E0, E1. cbn. eexists. split; [done|].
  rewrite Z.lor_comm, lor_shiftl_add; lia.
Qed.

Lemma read_little_u32_mapped : p + 4 ≤ last → ∃ v, read_little_u32 m p = Some v ∧ 0 ≤ v < 2 ^ 32.
Proof using Hm Hf.
  intros Hl. destruct (Hm p) as (b0 & E0 & ?), (Hm (p + 1)) as (b1 & E1 & ?),
    (Hm (p + 2)) as (b2 & E2 & ?), (Hm (p + 3)) as (b3 & E3 & ?); try lia.
  unfold read_little_u32. rewrite E0, E1, E2, E3. cbn. eexists. split; [done|].
  rewrite (Z.lor_comm b0), (Z.lor_comm _ (Z.shiftl b2 16)), (Z.lor_comm _ (Z.shiftl b3 24)).
  rewrite (lor_shiftl_add b0), (lor_shiftl_add _ b2), lor_shiftl_add; lia.
Qed.
End numbers.

Lemma read_little_u64_mapped m first last p :
  mapped m first last → first ≤ p → p + 8 ≤ last → ∃ v, read_little_u64 m p = Some v ∧ is_word v.
Proof.
  intros Hm Hf Hl. unfold read_little_u64, is_word.
  destruct (read_little_u32_mapped m first last p) as (l & -> & ?); try (done || lia).
  destruct (read_little_u32_mapped m first last (p + 4)) as (h & -> & ?); try (done || lia).
  cbn. eexists. split; [done|]. rewrite Z.lor_comm, lor_shiftl_add; lia.
Qed.

(** ** Agreement of memories *)

Definition agree (first last : Z) (m m' : byte_memory) : Prop := ∀ a, first ≤ a < last → m' !! a = m !! a.

Section agree.
Context (first last : Z) (m m' : byte_memory) (p : Z).
Hypothesis (Ha : agree first last m m') (Hf : first ≤ p).

Lemma agree_u16 : p + 2 ≤ last → read_little_u16 m' p = read_little_u16 m p.
Proof using Ha Hf. intros. unfold read_little_u16. by rewrite !Ha by lia. Qed.
Lemma agree_u32 : p + 4 ≤ last → read_little_u32 m' p = read_little_u32 m p.
Proof using Ha Hf. intros. unfold read_little_u32. by rewrite !Ha by lia. Qed.
Lemma agree_u64 : p + 8 ≤ last → read_little_u64 m' p = read_little_u64 m p.
Proof using Ha Hf. intros. unfold read_little_u64, read_little_u32. by rewrite !Ha by lia. Qed.
End agree.

(** ** Copying *)

(** [m'] is [m] with the [n] bytes that were at [s] also at [d]. *)
Record moved (m : byte_memory) (d s : Z) (n : nat) (m' : byte_memory) : Prop := {
  moved_bytes i : 0 ≤ i < Z.of_nat n → m' !! (d + i) = m !! (s + i);
  moved_others a : a < d ∨ d + Z.of_nat n ≤ a → m' !! a = m !! a;
}.

Lemma write_byte_mapped m first last p v :
  mapped m first last → first ≤ p < last → 0 ≤ v < 256 →
  write_byte m p v = Some (<[p := v]> m) ∧ mapped (<[p := v]> m) first last.
Proof.
  intros Hm Hp Hv. unfold write_byte. destruct (Hm p Hp) as (w & -> & _). cbn [mbind option_bind].
  unfold wrap8. rewrite Z.mod_small by lia. split; [done|]. intros a Ha.
  destruct (Z.eq_dec a p) as [->|]; [exists v; by rewrite lookup_insert_eq|].
  rewrite lookup_insert_ne by done. by apply Hm.
Qed.

(** The source is mapped, and the destination in a region that is. *)
Lemma copy_upwards_spec n : ∀ m d s first last,
  mapped m s (s + Z.of_nat n) → mapped m first last → first ≤ d → d + Z.of_nat n ≤ last →
  d < s ∨ s + Z.of_nat n ≤ d →
  ∃ m', copy_upwards m d s n = Some m' ∧ moved m d s n m' ∧ mapped m' first last.
Proof.
  induction n as [|n IH]; intros m d s first last Hs Hm Hf Hl Hds; cbn [copy_upwards].
  { exists m. split_and!; [done| |done]. constructor; [lia|done]. }
  destruct (Hs s) as (v & Ev & Hv); [lia|]. rewrite Ev. cbn [mbind option_bind].
  destruct (write_byte_mapped m first last d v) as [-> Hm']; [done|lia|done|]. cbn [mbind option_bind].
  destruct (IH (<[d := v]> m) (d + 1) (s + 1) first last) as (m' & -> & [Hb Ho] & Hm''); try (done || lia).
  { intros a Ha. rewrite lookup_insert_ne by lia. apply Hs. lia. }
  exists m'. split_and!; [done| |done]. constructor.
  - intros i Hi. destruct (Z.eq_dec i 0) as [->|].
    + rewrite Ho, !Z.add_0_r, lookup_insert_eq by lia. done.
    + replace (d + i) with (d + 1 + (i - 1)) by lia. rewrite Hb by lia.
      replace (s + 1 + (i - 1)) with (s + i) by lia. by rewrite lookup_insert_ne by lia.
  - intros a Ha. rewrite Ho by lia. by rewrite lookup_insert_ne by lia.
Qed.

Lemma copy_downwards_spec n : ∀ m d s first last,
  mapped m s (s + Z.of_nat n) → mapped m first last → first ≤ d → d + Z.of_nat n ≤ last → s ≤ d →
  ∃ m', copy_downwards m d s n = Some m' ∧ moved m d s n m' ∧ mapped m' first last.
Proof.
  induction n as [|n IH]; intros m d s first last Hs Hm Hf Hl Hds; cbn [copy_downwards].
  { exists m. split_and!; [done| |done]. constructor; [lia|done]. }
  destruct (Hs (s + Z.of_nat n)) as (v & Ev & Hv); [lia|]. rewrite Ev. cbn [mbind option_bind].
  destruct (write_byte_mapped m first last (d + Z.of_nat n) v) as [-> Hm']; [done|lia|done|].
  cbn [mbind option_bind].
  destruct (IH (<[d + Z.of_nat n := v]> m) d s first last) as (m' & -> & [Hb Ho] & Hm''); try (done || lia).
  { intros a Ha. rewrite lookup_insert_ne by lia. apply Hs. lia. }
  exists m'. split_and!; [done| |done]. constructor.
  - intros i Hi. destruct (Z.eq_dec i (Z.of_nat n)) as [->|].
    + rewrite Ho, lookup_insert_eq by lia. done.
    + rewrite Hb by lia. by rewrite lookup_insert_ne by lia.
  - intros a Ha. rewrite Ho by lia. by rewrite lookup_insert_ne by lia.
Qed.

(** [copy_bytes] moves bytes between regions that may overlap. *)
Lemma copy_bytes_spec m d s size first last :
  mapped m s (s + size) → mapped m first last → first ≤ d → d + size ≤ last → 0 ≤ size →
  ∃ m', copy_bytes m d s size = Some m' ∧ moved m d s (Z.to_nat size) m' ∧ mapped m' first last.
Proof.
  intros Hs Hm Hf Hl H0. unfold copy_bytes. destruct (_ || _) eqn:Hb.
  - apply copy_upwards_spec; rewrite ?Z2Nat.id by lia; try done.
    apply orb_true_iff in Hb as [?%Z.ltb_lt|?%Z.leb_le]; lia.
  - apply orb_false_iff in Hb as [?%Z.ltb_ge _]. apply copy_downwards_spec; rewrite ?Z2Nat.id by lia; done.
Qed.

Lemma clear_loop_spec n : ∀ m d first last,
  mapped m first last → first ≤ d → d + Z.of_nat n ≤ last →
  ∃ m', clear_loop m d n = Some m' ∧ mapped m' first last ∧
    (∀ a, d ≤ a < d + Z.of_nat n → m' !! a = Some 0) ∧ (∀ a, a < d ∨ d + Z.of_nat n ≤ a → m' !! a = m !! a).
Proof.
  induction n as [|n IH]; intros m d first last Hm Hf Hl; cbn [clear_loop].
  { exists m. split_and!; [done..|lia|done]. }
  destruct (write_byte_mapped m first last d 0) as [-> Hm']; [done|lia|done|]. cbn [mbind option_bind].
  destruct (IH (<[d := 0]> m) (d + 1) first last) as (m' & -> & Hm'' & Hb & Ho); try (done || lia).
  exists m'. split_and!; [done..| |].
  - intros a Ha. destruct (Z.eq_dec a d) as [->|]; [rewrite Ho by lia; by rewrite lookup_insert_eq|apply Hb; lia].
  - intros a Ha. rewrite Ho by lia. by rewrite lookup_insert_ne by lia.
Qed.

(** ** Symbols *)

Lemma valid_span_spec offset size total : valid_span offset size total = true → offset + size ≤ total.
Proof. unfold valid_span. rewrite andb_true_iff, !Z.leb_le. lia. Qed.

Section symbols.
Context (m : byte_memory) (elf elf_size : Z) (name : list Z).
Hypothesis (Hm : mapped m elf (elf + elf_size)) (Hsize : elf_size ≤ DIRECT_MAP_END).

Lemma symbol_loop_total symbols symbol_size entry_size strings string_size fuel : ∀ offset,
  elf ≤ symbols → symbols + symbol_size ≤ elf + elf_size → elf ≤ strings →
  strings + string_size ≤ elf + elf_size → 24 ≤ entry_size < 2 ^ 64 → 0 ≤ symbol_size ≤ elf_size →
  0 ≤ offset ≤ symbol_size → offset = 0 ∨ entry_size ≤ symbol_size → symbol_size - offset < Z.of_nat fuel →
  is_Some (symbol_loop fuel m symbols symbol_size entry_size strings string_size name offset).
Proof using Hm Hsize.
  unfold DIRECT_MAP_END in Hsize.
  induction fuel as [|fuel IH]; intros offset H1 H2 H3 H4 H5 H6 H7 H8 Hf; [lia|]. cbn [symbol_loop].
  assert (wadd offset entry_size = offset + entry_size) as -> by (unfold wadd, wrap; apply Z.mod_small; lia).
  destruct (Z.ltb_spec symbol_size (offset + entry_size)); [done|].
  destruct (read_little_u32_mapped m elf (elf + elf_size) (symbols + offset)) as (n & -> & ?); try (done || lia).
  cbn [mbind option_bind].
  destruct (bounded_string_total m strings string_size n name elf (elf + elf_size)) as [b ->]; try (done || lia).
  cbn [mbind option_bind]. destruct b; [|apply IH; lia].
  destruct (read_little_u64_mapped m elf (elf + elf_size) (symbols + offset + 8)) as (v & -> & ?); try (done || lia).
Qed.

Lemma search_section_total section_offset entry_size count index :
  0 ≤ section_offset → 64 ≤ entry_size → section_offset + entry_size * count ≤ elf_size → 0 ≤ index < count →
  is_Some (search_section m elf elf_size section_offset entry_size count name index).
Proof using Hm Hsize.
  intros H1 H2 H3 Hi. unfold search_section.
  assert (∀ i, 0 ≤ i < count → elf ≤ elf + section_offset + i * entry_size ∧
    elf + section_offset + i * entry_size + 64 ≤ elf + elf_size) as Hspan by (intros; nia).
  destruct (Hspan index Hi). set (section := elf + section_offset + index * entry_size) in *.
  destruct (read_little_u32_mapped m elf (elf + elf_size) (section + 4)) as (ty & -> & ?); try (done || lia).
  cbn [mbind option_bind]. destruct (negb _); [done|].
  destruct (read_little_u64_mapped m elf (elf + elf_size) (section + 24)) as (so & -> & Hso); try (done || lia).
  destruct (read_little_u64_mapped m elf (elf + elf_size) (section + 32)) as (ss & -> & Hss); try (done || lia).
  destruct (read_little_u32_mapped m elf (elf + elf_size) (section + 40)) as (si & -> & Hsi); try (done || lia).
  destruct (read_little_u64_mapped m elf (elf + elf_size) (section + 56)) as (se & -> & Hse); try (done || lia).
  cbn [mbind option_bind]. destruct (_ || _) eqn:Hb; [done|].
  rewrite !orb_false_iff, Z.leb_gt, Z.ltb_ge, negb_false_iff in Hb. destruct Hb as [[? ?] Hv%valid_span_spec].
  destruct (Hspan si) as [? ?]; [lia|]. set (string_section := elf + section_offset + si * entry_size) in *.
  destruct (read_little_u64_mapped m elf (elf + elf_size) (string_section + 24)) as (sto & -> & ?); try (done || lia).
  destruct (read_little_u64_mapped m elf (elf + elf_size) (string_section + 32)) as (sts & -> & ?); try (done || lia).
  cbn [mbind option_bind]. destruct (negb _) eqn:Hb'; [done|]. apply negb_false_iff, valid_span_spec in Hb'.
  unfold is_word in *. apply symbol_loop_total; lia.
Qed.

Lemma section_loop_total section_offset entry_size count n : ∀ index,
  0 ≤ section_offset → 64 ≤ entry_size → section_offset + entry_size * count ≤ elf_size →
  0 ≤ index → index + Z.of_nat n ≤ count →
  is_Some (section_loop n m elf elf_size section_offset entry_size count name index).
Proof using Hm Hsize.
  induction n as [|n IH]; intros index H1 H2 H3 H4 H5; cbn [section_loop]; [done|].
  destruct (search_section_total section_offset entry_size count index) as [r ->]; try lia.
  cbn [mbind option_bind]. destruct r; [done|apply IH; lia].
Qed.

Lemma find_elf_symbol_total : 64 ≤ elf_size → is_Some (find_elf_symbol m elf elf_size name).
Proof using Hm Hsize.
  intros H64. unfold find_elf_symbol.
  destruct (read_little_u64_mapped m elf (elf + elf_size) (elf + 40)) as (so & -> & [? ?]); try (done || lia).
  destruct (read_little_u16_mapped m elf (elf + elf_size) (elf + 58)) as (se & -> & ?); try (done || lia).
  destruct (read_little_u16_mapped m elf (elf + elf_size) (elf + 60)) as (sc & -> & ?); try (done || lia).
  cbn [mbind option_bind]. destruct (_ || _) eqn:Hb; [done|].
  rewrite orb_false_iff, Z.ltb_ge, negb_false_iff in Hb. destruct Hb as [? Hv%valid_span_spec].
  apply section_loop_total; lia.
Qed.
End symbols.

(** ** Segments *)

Record segment := MkSegment {
  segment_offset : Z;
  segment_physical : Z;
  segment_file_size : Z;
  segment_memory_size : Z;
}.

(** The LOAD segments of [n] program headers, in order. *)
Fixpoint segments (n : nat) (m : byte_memory) (program entry_size : Z) : option (list segment) :=
  match n with
  | O => Some []
  | S n' =>
      type ← program_type m program;
      rest ← segments n' m (program + entry_size) entry_size;
      if negb (type =? ELF_LOAD) then Some rest
      else
        offset ← program_file_offset m program; physical ← program_physical m program;
        file_size ← program_file_size m program; memory_size ← program_memory_size m program;
        Some (MkSegment offset physical file_size memory_size :: rest)
  end.

Definition segment_fits (s : segment) : Prop :=
  0 ≤ segment_physical s ∧ 0 ≤ segment_memory_size s ∧
  segment_physical s + segment_memory_size s ≤ INIT_IMAGE_CAPACITY.
Definition segment_words (s : segment) : Prop :=
  is_word (segment_offset s) ∧ is_word (segment_physical s) ∧ is_word (segment_file_size s) ∧
  is_word (segment_memory_size s).
Definition segment_stop (s : segment) : Z := segment_physical s + segment_memory_size s.

Lemma segments_mapped m first last entry_size n : ∀ program,
  mapped m first last → first ≤ program → 56 ≤ entry_size → program + Z.of_nat n * entry_size ≤ last →
  ∃ segs, segments n m program entry_size = Some segs ∧ Forall segment_words segs.
Proof.
  induction n as [|n IH]; intros program Hm Hf He Hl; cbn [segments]; [by exists []|].
  unfold program_type, program_file_offset, program_physical, program_file_size, program_memory_size.
  destruct (read_little_u32_mapped m first last program) as (ty & -> & ?); try (done || nia).
  destruct (IH (program + entry_size)) as (rest & -> & Hrest); try (done || lia). cbn [mbind option_bind].
  destruct (negb _); [by exists rest|].
  destruct (read_little_u64_mapped m first last (program + 8)) as (? & -> & ?); try (done || nia).
  destruct (read_little_u64_mapped m first last (program + 24)) as (? & -> & ?); try (done || nia).
  destruct (read_little_u64_mapped m first last (program + 32)) as (? & -> & ?); try (done || nia).
  destruct (read_little_u64_mapped m first last (program + 40)) as (? & -> & ?); try (done || nia).
  eexists. split; [done|]. by apply Forall_cons.
Qed.

Ltac destruct_segments H :=
  cbn [segments] in H;
  repeat match type of H with
  | (?x ≫= _) = Some _ =>
      let E := fresh "E" in destruct x eqn:E; cbn [mbind option_bind] in H; [|discriminate H]
  end.

Lemma measure_loop_spec m entry_size n : ∀ program segs image_end,
  segments n m program entry_size = Some segs → Forall segment_words segs →
  ∃ r, measure_loop n m program entry_size image_end = Some r ∧
    match r with
    | Some end_ => Forall segment_fits segs ∧ Forall (λ s, segment_stop s ≤ end_) segs ∧ image_end ≤ end_ ∧
        (image_end ≤ INIT_IMAGE_CAPACITY → end_ ≤ INIT_IMAGE_CAPACITY)
    | None => True
    end.
Proof.
  induction n as [|n IH]; intros program segs image_end Hs Hw; cbn [measure_loop].
  { injection Hs as <-. exists (Some image_end). split_and!; try done. }
  destruct_segments Hs. cbn [mbind option_bind]. destruct (negb (_ =? ELF_LOAD)).
  { injection Hs as <-. by apply IH. }
  destruct_segments Hs. injection Hs as <-. apply Forall_cons in Hw as [(_ & [? ?] & _ & [? ?]) Hw].
  cbn [mbind option_bind segment_physical segment_memory_size] in *. destruct (_ || _) eqn:Hb; [by exists None|].
  apply orb_false_iff in Hb as [?%Z.ltb_ge ?%Z.ltb_ge].
  match goal with |- context [measure_loop n m _ _ ?e] =>
    destruct (IH (program + entry_size) _ e E0 Hw) as (r & -> & Hr) end.
  exists r. split; [done|]. destruct r as [end_|]; [|done]. rewrite if_max in Hr.
  destruct Hr as (Hfit & Hstop & Hle & Hcap). split_and!.
  - apply Forall_cons. split; [unfold segment_fits; cbn; lia|done].
  - apply Forall_cons. split; [unfold segment_stop; cbn; lia|done].
  - lia.
  - intros. apply Hcap. lia.
Qed.

(** What a segment puts at the offset [o] of the image. *)
Definition load_step (m : byte_memory) (elf o : Z) (v : option Z) (s : segment) : option Z :=
  if (segment_physical s <=? o) && (o <? segment_physical s + segment_file_size s)
  then m !! (elf + segment_offset s + (o - segment_physical s)) else v.
(** The byte at the offset [o]: of the last segment that has one there, or 0. *)
Definition image_byte (m : byte_memory) (elf o : Z) (segs : list segment) : option Z :=
  foldl (load_step m elf o) (Some 0) segs.

Section load.
Context (m0 : byte_memory) (init_image elf elf_size entry_size : Z).
Hypothesis (Helf : mapped m0 elf (elf + elf_size)).
Hypothesis (Hapart : elf + elf_size ≤ init_image ∨ init_image + INIT_IMAGE_CAPACITY ≤ elf).

(** The ELF file is as before and the image is mapped. *)
Record loading (m : byte_memory) : Prop := {
  loading_elf : agree elf (elf + elf_size) m0 m;
  loading_image : mapped m init_image (init_image + INIT_IMAGE_CAPACITY);
}.

Definition outside_unchanged (m m' : byte_memory) : Prop :=
  ∀ a, a < init_image ∨ init_image + INIT_IMAGE_CAPACITY ≤ a → m' !! a = m !! a.

Lemma load_segment_spec m offset physical size :
  loading m → 0 ≤ offset → 0 ≤ physical → 0 ≤ size → physical + size ≤ INIT_IMAGE_CAPACITY →
  offset + size ≤ elf_size →
  ∃ m', copy_bytes m (init_image + physical) (elf + offset) size = Some m' ∧ loading m' ∧ outside_unchanged m m' ∧
    ∀ o, 0 ≤ o < INIT_IMAGE_CAPACITY → m' !! (init_image + o) =
      if (physical <=? o) && (o <? physical + size) then m0 !! (elf + offset + (o - physical))
      else m !! (init_image + o).
Proof using Helf Hapart.
  intros [Ha Hi] H1 H2 H3 H4 H5.
  destruct (copy_bytes_spec m (init_image + physical) (elf + offset) size init_image
    (init_image + INIT_IMAGE_CAPACITY)) as (m' & Hc & [Hb Ho] & Hm'); try (done || lia).
  { intros a Hx. rewrite Ha by lia. apply Helf. lia. }
  exists m'. rewrite Z2Nat.id in * by lia. split_and!; [done| | |].
  - constructor; [|done]. intros a Hx. rewrite Ho by lia. by apply Ha.
  - intros a Hx. apply Ho. lia.
  - intros o Hx. destruct ((physical <=? o) && (o <? physical + size)) eqn:Hin.
    + rewrite andb_true_iff, Z.leb_le, Z.ltb_lt in Hin.
      replace (init_image + o) with (init_image + physical + (o - physical)) by lia. rewrite Hb by lia.
      apply Ha. lia.
    + apply Ho. rewrite andb_false_iff, Z.leb_gt, Z.ltb_ge in Hin. lia.
Qed.

Lemma load_loop_spec n : ∀ program segs m,
  loading m → elf ≤ program → 56 ≤ entry_size → program + Z.of_nat n * entry_size ≤ elf + elf_size →
  segments n m0 program entry_size = Some segs → Forall segment_words segs → Forall segment_fits segs →
  ∃ b m', load_loop n m init_image elf elf_size program entry_size = Some (b, m') ∧ loading m' ∧
    outside_unchanged m m' ∧
    (b = true → ∀ o, 0 ≤ o < INIT_IMAGE_CAPACITY →
       m' !! (init_image + o) = foldl (load_step m0 elf o) (m !! (init_image + o)) segs).
Proof using Helf Hapart.
  induction n as [|n IH]; intros program segs m Hm Hp He Hl Hs Hw Hfit; cbn [load_loop].
  { injection Hs as <-. by exists true, m. }
  pose proof Hm as [Ha _]. destruct_segments Hs. unfold program_type, program_file_offset, program_physical,
    program_file_size, program_memory_size in *.
  rewrite (agree_u32 elf (elf + elf_size) m0 m) by (done || nia).
  rewrite !(agree_u64 elf (elf + elf_size) m0 m) by (done || nia). rewrite E. cbn [mbind option_bind].
  destruct (negb (_ =? ELF_LOAD)).
  { injection Hs as <-. apply IH; (done || lia). }
  destruct_segments Hs. injection Hs as <-. cbn [mbind option_bind].
  apply Forall_cons in Hw as [([? ?] & [? ?] & [? ?] & [? ?]) Hw]. apply Forall_cons in Hfit as [(_ & _ & ?) Hfit].
  cbn [segment_offset segment_physical segment_file_size segment_memory_size] in *.
  destruct (_ || _) eqn:Hb; [by exists false, m|].
  rewrite orb_false_iff, Z.ltb_ge, negb_false_iff in Hb. destruct Hb as [? Hv%valid_span_spec].
  edestruct load_segment_spec as (m1 & -> & Hm1 & Ho1 & Hb1); [exact Hm|..]; try lia. cbn [mbind option_bind].
  destruct (IH (program + entry_size) l m1) as (b & m' & -> & Hm' & Ho' & Hb'); try (done || lia).
  exists b, m'. split_and!; try done.
  - intros a Hx. by rewrite Ho', Ho1.
  - intros -> o Ho. rewrite Hb' by done. cbn [foldl]. by rewrite Hb1.
Qed.
End load.

(** ** The loader *)

(** The LOAD segments of an ELF file. *)
Definition elf_segments (m : byte_memory) (elf : Z) : option (list segment) :=
  program_offset ← read_little_u64 m (elf + 32);
  entry_size ← read_little_u16 m (elf + 54);
  count ← read_little_u16 m (elf + 56);
  segments (Z.to_nat count) m (elf + program_offset) entry_size.

Lemma elf_identified_total m elf last : mapped m elf last → elf + 64 ≤ last → is_Some (elf_identified m elf).
Proof.
  intros Hm Hl. unfold elf_identified.
  destruct (Hm elf) as (? & -> & _); [lia|]. destruct (Hm (elf + 1)) as (? & -> & _); [lia|].
  destruct (Hm (elf + 2)) as (? & -> & _); [lia|]. destruct (Hm (elf + 3)) as (? & -> & _); [lia|].
  destruct (Hm (elf + 4)) as (? & -> & _); [lia|]. destruct (Hm (elf + 5)) as (? & -> & _); [lia|].
  cbn [mbind option_bind]. destruct (_ && _); [|done].
  by destruct (read_little_u16_mapped m elf last (elf + 18)) as (? & -> & _); [done|lia|lia|].
Qed.

(** The image: its pages hold every segment, and every byte is the one the file has
    for it. *)
Record image_loaded (m m' : byte_memory) (init_image elf : Z) (info : init_image_info) : Prop := ImageLoaded {
  image_address : loaded_address info = init_image;
  image_size : 0 < init_image_size info * PAGE_SIZE ≤ INIT_IMAGE_CAPACITY;
  image_entry : read_little_u64 m (elf + 24) = Some (entry_point_address info);
  image_segments : ∃ segs, elf_segments m elf = Some segs ∧
    Forall (λ s, segment_stop s ≤ init_image_size info * PAGE_SIZE) segs ∧
    ∀ o, 0 ≤ o < init_image_size info * PAGE_SIZE → m' !! (init_image + o) = image_byte m elf o segs;
}.

Lemma image_pages_spec image_end :
  0 < image_end ≤ INIT_IMAGE_CAPACITY →
  image_end ≤ align_up image_end / PAGE_SIZE * PAGE_SIZE ≤ INIT_IMAGE_CAPACITY.
Proof.
  unfold INIT_IMAGE_CAPACITY. intros He. rewrite page_ceiling by (unfold PAGE_SIZE; lia).
  unfold PAGE_SIZE. rewrite Z.div_mul by lia. Z.to_euclidean_division_equations. lia.
Qed.

(** The pages of the image are cleared, then the segments copied. *)
Lemma clear_and_load m init_image elf elf_size entry_size offset count segs pages :
  mapped m elf (elf + elf_size) → mapped m init_image (init_image + INIT_IMAGE_CAPACITY) →
  elf + elf_size ≤ init_image ∨ init_image + INIT_IMAGE_CAPACITY ≤ elf →
  0 ≤ offset → 56 ≤ entry_size → 0 ≤ count → offset + entry_size * count ≤ elf_size →
  segments (Z.to_nat count) m (elf + offset) entry_size = Some segs → Forall segment_words segs →
  Forall segment_fits segs → 0 ≤ pages * PAGE_SIZE ≤ INIT_IMAGE_CAPACITY →
  ∃ m1 b m2, clear_bytes m init_image (pages * PAGE_SIZE) = Some m1 ∧
    load_loop (Z.to_nat count) m1 init_image elf elf_size (elf + offset) entry_size = Some (b, m2) ∧
    outside_unchanged init_image m m2 ∧ agree elf (elf + elf_size) m m2 ∧
    (b = true → ∀ o, 0 ≤ o < pages * PAGE_SIZE → m2 !! (init_image + o) = image_byte m elf o segs).
Proof.
  intros Helf Himg Hapart H1 H2 H3 H4 Hsegs Hwords Hfit Hp.
  destruct (clear_loop_spec (Z.to_nat (pages * PAGE_SIZE)) m init_image init_image
    (init_image + INIT_IMAGE_CAPACITY)) as (m1 & Hclear & Hm1 & Hzero & Hother); try (done || lia).
  assert (loading m init_image elf elf_size m1) as Hload1.
  { constructor; [|done]. intros a Ha. apply Hother. lia. }
  destruct (load_loop_spec m init_image elf elf_size entry_size Helf Hapart (Z.to_nat count) (elf + offset)
    segs m1) as (b & m2 & Hload & [Ha2 _] & Ho2 & Hb2); try (done || lia).
  exists m1, b, m2. split_and!; try done.
  - intros a Ha. rewrite Ho2 by done. apply Hother. lia.
  - intros Hb o Ho. rewrite Hb2 by (done || lia). unfold image_byte. by rewrite Hzero by lia.
Qed.

Lemma load_init_elf_spec m init_image initrd_start initrd_end :
  mapped m initrd_start initrd_end → mapped m init_image (init_image + INIT_IMAGE_CAPACITY) →
  initrd_end ≤ init_image ∨ init_image + INIT_IMAGE_CAPACITY ≤ initrd_start → 0 ≤ initrd_start →
  ∃ r m', load_init_elf m init_image initrd_start initrd_end = Some (r, m') ∧
    outside_unchanged init_image m m' ∧
    match r with
    | None => True
    | Some info => image_loaded m m' init_image initrd_start info
    end.
Proof.
  intros Helf Himg Hapart H0. unfold load_init_elf.
  assert (outside_unchanged init_image m m) as Hsame by done.
  destruct (_ || _) eqn:Hb; [by exists None, m|].
  rewrite !orb_false_iff, Z.eqb_neq, Z.leb_gt, Z.ltb_ge in Hb. destruct Hb as [[? ?] ?].
  set (elf_size := initrd_end - initrd_start).
  replace initrd_end with (initrd_start + elf_size) in Helf, Hapart by lia.
  destruct (Z.ltb_spec elf_size 64); [by exists None, m|].
  destruct (elf_identified_total m initrd_start _ Helf) as [identified ->]; [lia|]. cbn [mbind option_bind].
  destruct (negb identified); [by exists None, m|]. unfold elf_segments.
  destruct (read_little_u64_mapped m initrd_start (initrd_start + elf_size) (initrd_start + 32))
    as (po & Hpo & [? ?]); try (done || lia).
  destruct (read_little_u16_mapped m initrd_start (initrd_start + elf_size) (initrd_start + 54))
    as (pe & Hpe & ?); try (done || lia).
  destruct (read_little_u16_mapped m initrd_start (initrd_start + elf_size) (initrd_start + 56))
    as (pc & Hpc & ?); try (done || lia).
  rewrite Hpo, Hpe, Hpc. cbn [mbind option_bind]. destruct (_ || _) eqn:Hb; [by exists None, m|].
  rewrite orb_false_iff, Z.ltb_ge, negb_false_iff in Hb. destruct Hb as [? Hv%valid_span_spec].
  destruct (segments_mapped m initrd_start (initrd_start + elf_size) pe (Z.to_nat pc) (initrd_start + po))
    as (segs & Hsegs & Hwords); try (done || lia).
  destruct (measure_loop_spec m pe (Z.to_nat pc) (initrd_start + po) segs 0 Hsegs Hwords) as (r & -> & Hr).
  cbn [mbind option_bind]. destruct r as [image_end|]; [|by exists None, m].
  destruct Hr as (Hfit & Hstop & Hle & Hcap). destruct (Z.eqb_spec image_end 0); [by exists None, m|].
  destruct (image_pages_spec image_end) as [Hp1 Hp2]; [split; [lia|apply Hcap; done]|].
  set (pages := align_up image_end / PAGE_SIZE) in *.
  destruct (clear_and_load m init_image initrd_start elf_size pe po pc segs pages)
    as (m1 & b & m2 & -> & Hload & Hsame2 & Helf2 & Hb2); try (done || lia).
  cbn [mbind option_bind]. rewrite Hload. cbn [mbind option_bind].
  destruct b; cbn [negb]; [|by exists None, m2].
  assert (mapped m2 initrd_start (initrd_start + elf_size)) as Hmap2.
  { intros a Ha. rewrite Helf2 by done. by apply Helf. }
  destruct (find_elf_symbol_total m2 initrd_start elf_size (chars "__init_info_start") Hmap2) as [r1 ->];
    [unfold DIRECT_MAP_END in *; lia|done|]. cbn [mbind option_bind].
  destruct r1 as [info|]; [|by exists None, m2].
  destruct (find_elf_symbol_total m2 initrd_start elf_size (chars "__init_ipc_buffer_start") Hmap2) as [r2 ->];
    [unfold DIRECT_MAP_END in *; lia|done|]. cbn [mbind option_bind].
  destruct r2 as [buffer|]; [|by exists None, m2].
  rewrite (agree_u64 initrd_start (initrd_start + elf_size) m m2) by (done || lia).
  destruct (read_little_u64_mapped m initrd_start (initrd_start + elf_size) (initrd_start + 24))
    as (entry & Hentry & _); try (done || lia).
  rewrite Hentry. cbn [mbind option_bind]. eexists _, m2. split; [done|]. split; [done|].
  constructor; cbn; [done|lia|done|]. unfold elf_segments. rewrite Hpo, Hpe, Hpc. cbn [mbind option_bind].
  exists segs. split_and!; [done| |].
  - eapply Forall_impl; [exact Hstop|]. cbn. lia.
  - intros o Ho. by apply Hb2.
Qed.

(** C13: whatever the bytes of an initrd are, the loader ends, reads nothing outside
    the initrd and changes nothing outside the image.  When it succeeds, the image
    has room for every LOAD segment, each of its bytes is that of the last segment
    with file content there, or 0, and the entry point is the file's. *)
Theorem load_init_elf_loads m init_image initrd_start initrd_end :
  mapped m initrd_start initrd_end → mapped m init_image (init_image + INIT_IMAGE_CAPACITY) →
  initrd_end ≤ init_image ∨ init_image + INIT_IMAGE_CAPACITY ≤ initrd_start → 0 ≤ initrd_start →
  ∃ r m', load_init_elf m init_image initrd_start initrd_end = Some (r, m') ∧
    outside_unchanged init_image m m' ∧
    match r with
    | None => True
    | Some info => image_loaded m m' init_image initrd_start info
    end.
Proof. apply load_init_elf_spec. Qed.

(** ** An example *)

Section example.
Definition le (bytes : nat) (v : Z) : list Z := map (λ i, v / 256 ^ Z.of_nat i mod 256) (seq 0 bytes).
Definition zeros (n : nat) : list Z := replicate n 0.

(** An ELF file of one LOAD segment, "hello" at 16 of the image, and two symbols. *)
Definition example_strings_table : list Z :=
  [0] ++ chars "__init_info_start" ++ [0] ++ chars "__init_ipc_buffer_start" ++ [0].
Definition example_symbol (name value : Z) : list Z := le 4 name ++ zeros 4 ++ le 8 value ++ zeros 8.
Definition example_section (type offset size link entry : Z) : list Z :=
  le 4 0 ++ le 4 type ++ zeros 16 ++ le 8 offset ++ le 8 size ++ le 4 link ++ zeros 12 ++ le 8 entry.
Definition example_elf : list Z :=
  [0x7f; 69; 76; 70; 2; 1] ++ zeros 12 ++ le 2 183 ++ zeros 4 ++ le 8 0x1000 ++ le 8 64 ++ le 8 120
  ++ zeros 6 ++ le 2 56 ++ le 2 1 ++ le 2 64 ++ le 2 2 ++ zeros 2
  ++ (le 4 1 ++ zeros 4 ++ le 8 296 ++ le 8 0x1000 ++ le 8 16 ++ le 8 5 ++ le 8 32 ++ zeros 8)
  ++ example_section 2 248 48 1 24 ++ example_section 3 301 43 0 0
  ++ example_symbol 1 0x2000 ++ example_symbol 19 0x3000
  ++ chars "hello" ++ example_strings_table.

Definition example_init_image : Z := 0x10000000.
Definition example_initrd : Z := 0x48000000.
Definition example_initrd_end : Z := example_initrd + Z.of_nat (length example_elf).
Definition example_load_memory (size : Z) : byte_memory :=
  memory_of_bytes example_initrd example_elf ∪ memory_of_bytes example_init_image (replicate (Z.to_nat size) 0).

(** The file is loaded, also when only one page of the image is mapped. *)
Lemma load_init_elf_example :
  option_map (λ r, (fst r, map (λ o, snd r !! (example_init_image + o)) [15; 16; 17; 18; 19; 20; 21]))
    (load_init_elf (example_load_memory PAGE_SIZE) example_init_image example_initrd example_initrd_end) =
  Some (Some (MkImage example_init_image 1 0x1000 0x2000 0x3000), map Some ([0] ++ chars "hello" ++ [0])).
Proof. vm_compute. reflexivity. Qed.

Lemma example_elf_bytes : Forall (λ v, 0 ≤ v < 256) example_elf.
Proof.
  apply Forall_forall. intros v Hv.
  assert (forallb (λ b, (0 <=? b) && (b <? 256)) example_elf = true) as Hb by (by vm_compute).
  rewrite forallb_forall in Hb. apply list_elem_of_In, Hb in Hv. by rewrite andb_true_iff, Z.leb_le, Z.ltb_lt in Hv.
Qed.

Lemma memory_of_bytes_lookup l : ∀ p a,
  memory_of_bytes p l !! a = if (p <=? a) && (a <? p + Z.of_nat (length l)) then l !! Z.to_nat (a - p) else None.
Proof.
  induction l as [|v l IH]; intros p a; cbn [memory_of_bytes length].
  { rewrite lookup_empty. destruct (_ && _) eqn:Hb; [|done]. rewrite andb_true_iff, Z.leb_le, Z.ltb_lt in Hb. lia. }
  destruct (Z.eq_dec a p) as [->|Hne].
  { rewrite lookup_insert_eq, Z.leb_refl, (proj2 (Z.ltb_lt _ _)), Z.sub_diag by lia. done. }
  rewrite lookup_insert_ne, IH by done.
  destruct (Z.leb_spec p a), (Z.leb_spec (p + 1) a); try lia; [|done]. cbn [andb].
  replace (p + 1 + Z.of_nat (length l)) with (p + Z.of_nat (S (length l))) by lia. destruct (_ <? _); [|done].
  replace (Z.to_nat (a - p)) with (S (Z.to_nat (a - (p + 1)))) by lia. done.
Qed.

Lemma memory_of_bytes_mapped p l :
  Forall (λ v, 0 ≤ v < 256) l → mapped (memory_of_bytes p l) p (p + Z.of_nat (length l)).
Proof.
  intros Hl a Ha. rewrite memory_of_bytes_lookup, (proj2 (Z.leb_le _ _)), (proj2 (Z.ltb_lt _ _)) by lia. cbn [andb].
  destruct (lookup_lt_is_Some_2 l (Z.to_nat (a - p))) as [v Hv]; [lia|]. exists v. split; [done|].
  by eapply Forall_lookup_1 in Hl.
Qed.

Lemma mapped_union_l m1 m2 f l : mapped m1 f l → mapped (m1 ∪ m2) f l.
Proof. intros Hm a Ha. destruct (Hm a Ha) as (v & Hv & ?). exists v. split; [by apply lookup_union_Some_l|done]. Qed.
Lemma mapped_union_r m1 m2 f l : (∀ a, f ≤ a < l → m1 !! a = None) → mapped m2 f l → mapped (m1 ∪ m2) f l.
Proof. intros Hn Hm a Ha. destruct (Hm a Ha) as (v & Hv & ?). exists v. by rewrite lookup_union_r by auto. Qed.

Lemma example_mapped :
  mapped (example_load_memory INIT_IMAGE_CAPACITY) example_initrd example_initrd_end ∧
  mapped (example_load_memory INIT_IMAGE_CAPACITY) example_init_image (example_init_image + INIT_IMAGE_CAPACITY).
Proof.
  unfold example_load_memory. split.
  - apply mapped_union_l, memory_of_bytes_mapped, example_elf_bytes.
  - apply mapped_union_r.
    + intros a Ha. rewrite memory_of_bytes_lookup, (proj2 (Z.leb_gt _ _)); [done|].
      unfold example_initrd, example_init_image, INIT_IMAGE_CAPACITY in *. lia.
    + pose proof (memory_of_bytes_mapped example_init_image (replicate (Z.to_nat INIT_IMAGE_CAPACITY) 0)) as Hm.
      rewrite length_replicate, Z2Nat.id in Hm by (unfold INIT_IMAGE_CAPACITY; lia). apply Hm.
      by apply Forall_replicate.
Qed.

Lemma load_init_elf_loads_witness :
  ∃ r m', load_init_elf (example_load_memory INIT_IMAGE_CAPACITY) example_init_image example_initrd
      example_initrd_end = Some (r, m') ∧
    outside_unchanged example_init_image (example_load_memory INIT_IMAGE_CAPACITY) m' ∧
    match r with
    | None => True
    | Some info => image_loaded (example_load_memory INIT_IMAGE_CAPACITY) m' example_init_image example_initrd info
    end.
Proof.
  apply (load_init_elf_loads (example_load_memory INIT_IMAGE_CAPACITY) example_init_image example_initrd
    example_initrd_end).
  - apply (proj1 example_mapped).
  - apply (proj2 example_mapped).
  - right. vm_compute. discriminate.
  - vm_compute. discriminate.
Defined.
End example.
