(* ===== verification/BootProtocol.v ===== *)
(** The boot protocol of AArch64: [aarch64_prepare_boot_protocol] of
    src/src/hal/aarch64/boot/boot_protocol.cpp, which fills the boot information from
    the device tree and the initrd before the kernel starts. *)

From Stdlib Require Import String.
From S2P Require Import Prelude Word Types Kernel Boot CString MemoryMap DeviceTree ElfLoader.
Local Open Scope Z_scope.

(** The globals before: all zero. *)
Definition initial_fdt_state : fdt_state := MkFdtState [] [] 0 0 0 0 0 ROOT_NONE.
Definition no_image : init_image_info := MkImage 0 0 0 0 0.

(** What the linker places: the kernel image and [g_init_image]. *)
Record placement := MkPlacement {
  kernel_start : Z;
  kernel_end : Z;
  init_image : Z;
}.

(** [kernel_start], the device tree and the initrd are kept out of the free memory. *)
Definition reserve_boot_ranges (pl : placement) (dtb_address : Z) (valid_dtb : bool) (st : fdt_state)
    : list physical_range :=
  let reserved := add_range (g_reserved_ranges st) (kernel_start pl) (kernel_end pl) in
  let reserved := if valid_dtb then add_range reserved dtb_address (dtb_address + dtb_size st) else reserved in
  if negb (initrd_start st =? 0) && (initrd_start st <? initrd_end st)
  then add_range reserved (initrd_start st) (initrd_end st) else reserved.

(** The answer of [load_init_elf] is not looked at: a file that cannot be loaded
    leaves the image information empty. *)
Definition load_initrd (m : byte_memory) (pl : placement) (st : fdt_state)
    : option (init_image_info * byte_memory) :=
  if negb (initrd_start st =? 0) && (initrd_start st <? initrd_end st) then
    loaded ← load_init_elf m (init_image pl) (initrd_start st) (initrd_end st);
    Some (default no_image (fst loaded), snd loaded)
  else Some (no_image, m).

Record prepared := MkPrepared {
  prepared_info : boot_info;
  prepared_memory_size : Z;
  prepared_memory : byte_memory;
}.

Definition aarch64_prepare_boot_protocol (m : byte_memory) (pl : placement) (initial_dtb_address : Z)
    : option prepared :=
  parsed ← parse_fdt m initial_dtb_address initial_fdt_state;
  let '(valid_dtb, st) := parsed in
  let reserved := reserve_boot_ranges pl initial_dtb_address valid_dtb st in
  loaded ← load_initrd m pl st;
  let '(map, memory_size) := construct_memory_map (g_ram_ranges st) reserved in
  Some (MkPrepared (MkBootInfo (MkMemoryInfo (Z.of_nat (length map) mod 2 ^ 16) map) (fst loaded)
                      (initial_dtb_address :: replicate 127 0)) memory_size (snd loaded)).
