(* ===== verification/BootProtocolProofs.v ===== *)
(** The boot protocol protects the kernel: no Generic of usable memory that the init
    process receives covers the kernel image, the device tree or the initrd. *)

From Stdlib Require Import String.
From stdpp Require Import sorting.
From S2P Require Import Prelude Word Types Kernel Boot BootProofs CString MemoryMap DeviceTree.
From S2P Require Import DeviceTreeProofs DeviceTreeSpec DeviceTreeRoundtrip CpuTopology CpuTopologyProofs.
From S2P Require Import ElfLoader ElfProofs BootProtocol.
Local Open Scope Z_scope.

(** ** What is reserved *)

(** The bytes that must not become free memory. *)
Definition boot_owned (pl : placement) (dtb_address : Z) (valid_dtb : bool) (st : fdt_state) (a : Z) : Prop :=
  kernel_start pl ≤ a < kernel_end pl ∨
  valid_dtb = true ∧ dtb_address ≤ a < dtb_address + dtb_size st ∨
  initrd_start st ≠ 0 ∧ initrd_start st ≤ a < initrd_end st.

Lemma add_range_length ranges s e : (length (add_range ranges s e) ≤ S (length ranges))%nat.
Proof. unfold add_range. destruct (_ || _); [lia|]. rewrite length_app. cbn. lia. Qed.

Lemma covered_prefix l l' a : l `prefix_of` l' → covered l a → covered l' a.
Proof. intros [k ->]. rewrite covered_app. by left. Qed.

(** A range is added while there is room, and keeps what was covered. *)
Lemma add_range_covers ranges s e :
  Forall range_ok ranges → 0 ≤ s → 0 ≤ e ≤ DIRECT_MAP_END → (length ranges < RANGE_CAPACITY)%nat →
  Forall range_ok (add_range ranges s e) ∧
  ∀ a, covered ranges a ∨ s ≤ a < e → covered (add_range ranges s e) a.
Proof.
  intros Hok Hs He Hl. destruct (add_range_spec ranges s e Hok Hs He) as (Hok' & Hp & Hc). split; [done|].
  intros a [Ha|Ha]; [by eapply covered_prefix|by apply Hc].
Qed.

Lemma reserve_boot_ranges_spec pl dtb_address valid_dtb st :
  Forall range_ok (g_reserved_ranges st) → (length (g_reserved_ranges st) + 3 ≤ RANGE_CAPACITY)%nat →
  0 ≤ kernel_start pl → 0 ≤ kernel_end pl ≤ DIRECT_MAP_END → 0 ≤ dtb_address →
  (valid_dtb = true → 0 ≤ dtb_size st ∧ dtb_address + dtb_size st ≤ DIRECT_MAP_END) →
  0 ≤ initrd_start st → 0 ≤ initrd_end st ≤ DIRECT_MAP_END →
  Forall range_ok (reserve_boot_ranges pl dtb_address valid_dtb st) ∧
  ∀ a, boot_owned pl dtb_address valid_dtb st a → covered (reserve_boot_ranges pl dtb_address valid_dtb st) a.
Proof.
  intros Hok Hlen Hk Hk' Hd Hd' Hi Hi'. unfold reserve_boot_ranges, boot_owned.
  destruct (add_range_covers (g_reserved_ranges st) (kernel_start pl) (kernel_end pl)) as [Hok1 Hc1]; try (done || lia).
  pose proof (add_range_length (g_reserved_ranges st) (kernel_start pl) (kernel_end pl)) as Hl1.
  set (r1 := add_range (g_reserved_ranges st) _ _) in *.
  set (r2 := if valid_dtb then add_range r1 dtb_address (dtb_address + dtb_size st) else r1).
  assert (Forall range_ok r2 ∧ (length r2 ≤ S (length r1))%nat ∧
    ∀ a, covered r1 a ∨ valid_dtb = true ∧ dtb_address ≤ a < dtb_address + dtb_size st → covered r2 a) as (Hok2 & Hl2 & Hc2).
  { subst r2. destruct valid_dtb; [|split_and!; [done|lia|naive_solver]]. destruct (Hd' eq_refl).
    destruct (add_range_covers r1 dtb_address (dtb_address + dtb_size st)) as [? ?]; try (done || lia).
    split_and!; [done|apply add_range_length|naive_solver]. }
  clearbody r2. destruct (negb _ && _) eqn:Hb.
  - destruct (add_range_covers r2 (initrd_start st) (initrd_end st)) as [Hok3 Hc3]; try (done || lia).
    split; [done|]. naive_solver.
  - split; [done|]. rewrite andb_false_iff, negb_false_iff, Z.eqb_eq, Z.ltb_ge in Hb. intros a Ha.
    destruct Ha as [Ha|[Ha|[Hn Ha]]]; [naive_solver..|lia].
Qed.

(** ** From the memory map to Generics *)

Lemma sorted_pairwise l :
  StronglySorted entry_before l → pairwise entries_apart l.
Proof.
  induction 1 as [|e l _ IH He]; [done|]. split; [|done]. eapply Forall_impl; [exact He|].
  intros e' H. left. unfold entry_before, entry_stop, entry_end_address in *. lia.
Qed.

Lemma construct_memory_map_length ram reserved :
  (length (fst (construct_memory_map ram reserved)) ≤ MEMORY_MAP_CAPACITY)%nat.
Proof.
  assert (∀ map s e t, (length map ≤ MEMORY_MAP_CAPACITY)%nat →
    (length (add_memory_map_entry map s e t) ≤ MEMORY_MAP_CAPACITY)%nat) as Hadd.
  { intros map s e t Hl. unfold add_memory_map_entry. destruct (_ || _) eqn:Hb; [done|].
    apply orb_false_iff in Hb as [_ Hb%Nat.leb_gt]. repeat case_match; rewrite ?length_insert, ?length_app; cbn; lia. }
  unfold construct_memory_map. cbn [fst].
  assert (∀ l map p, (length map ≤ MEMORY_MAP_CAPACITY)%nat →
    (length (fst (foldl (map_ram (sort_and_merge_ranges reserved)) (map, p) l)) ≤ MEMORY_MAP_CAPACITY)%nat) as Hloop;
    [|apply Hloop; cbn; lia].
  assert (∀ ram' l map c, (length map ≤ MEMORY_MAP_CAPACITY)%nat →
    (length (fst (foldl (carve_reserved ram') (map, c) l)) ≤ MEMORY_MAP_CAPACITY)%nat) as Hcarve.
  { intros ram' l. induction l as [|r l IH]; intros map c Hl; [done|]. cbn [foldl]. unfold carve_reserved at 2.
    repeat case_match; apply IH; auto. }
  intros l. induction l as [|r l IH]; intros map p Hl; [done|]. cbn [foldl]. unfold map_ram at 2.
  set (map1 := if p <? range_start r then _ else map).
  assert (length map1 ≤ MEMORY_MAP_CAPACITY)%nat as Hl1 by (subst map1; case_match; auto).
  pose proof (Hcarve r (sort_and_merge_ranges reserved) map1 (range_start r) Hl1) as Hc.
  destruct (foldl _ (map1, _) _) as [map2 c]. cbn [fst] in Hc. apply IH. case_match; auto.
Qed.

Section prepare.
Context (m : byte_memory) (pl : placement) (dtb_address : Z).

(** The initrd is mapped and is not where the image goes. *)
Record initrd_ok (st : fdt_state) : Prop := {
  initrd_low : initrd_end st ≤ DIRECT_MAP_END;
  initrd_mapped : mapped m (initrd_start st) (initrd_end st);
  initrd_apart : initrd_end st ≤ init_image pl ∨ init_image pl + INIT_IMAGE_CAPACITY ≤ initrd_start st;
}.

(** What the boot loader and the linker guarantee, and a device tree that leaves room
    for the three ranges the code reserves itself. *)
Record bootable : Prop := {
  bootable_dtb : blob m dtb_address;
  bootable_address : 0 ≤ dtb_address;
  bootable_kernel : 0 ≤ kernel_start pl ∧ 0 ≤ kernel_end pl ≤ DIRECT_MAP_END;
  bootable_image : mapped m (init_image pl) (init_image pl + INIT_IMAGE_CAPACITY);
  bootable_initrd b st : parse_fdt m dtb_address initial_fdt_state = Some (b, st) →
    initrd_ok st ∧ (length (g_reserved_ranges st) + 3 ≤ RANGE_CAPACITY)%nat;
}.

Lemma load_initrd_total st : initrd_ok st → mapped m (init_image pl) (init_image pl + INIT_IMAGE_CAPACITY) →
  0 ≤ initrd_start st → is_Some (load_initrd m pl st).
Proof.
  intros [Hl Hm Ha] Hi H0. unfold load_initrd. destruct (_ && _); [|done].
  destruct (load_init_elf_spec m (init_image pl) (initrd_start st) (initrd_end st)) as (r & m' & -> & _); try done.
Qed.

Lemma prepare_spec :
  bootable →
  ∃ b st r, parse_fdt m dtb_address initial_fdt_state = Some (b, st) ∧
    aarch64_prepare_boot_protocol m pl dtb_address = Some r ∧
    let memory := boot_memory_info (prepared_info r) in
    entries_of memory = memory_map memory ∧ memory_map_count memory = Z.of_nat (length (memory_map memory)) ∧
    (length (memory_map memory) ≤ MEMORY_MAP_CAPACITY)%nat ∧
    ∃ reserved full, (∀ a, boot_owned pl dtb_address b st a → covered reserved a) ∧
      describes (kind_of_address (default_ram (g_ram_ranges st)) reserved) (memory_map memory) DIRECT_MAP_END full.
Proof.
  intros [Hblob Hd [Hk Hk'] Himg Hst].
  destruct (parse_fdt_total m dtb_address initial_fdt_state Hblob) as (b & total & st & Hparse & Hok & Hsize);
    [by constructor; cbn; (apply Forall_nil_2 || vm_compute)|].
  destruct (Hst b st Hparse) as [Hini Hroom]. destruct Hok as [Hram Hres _ _ Hs He Htot].
  unfold is_word in *. destruct (load_initrd_total st Hini Himg) as [loaded Hload]; [lia|].
  destruct (reserve_boot_ranges_spec pl dtb_address b st) as [Hrok Hcov]; try (done || lia).
  { by rewrite Htot. } { pose proof (initrd_low _ Hini). lia. }
  pose proof (construct_memory_map_spec (g_ram_ranges st) _ Hram Hrok) as Hdesc.
  pose proof (construct_memory_map_length (g_ram_ranges st) (reserve_boot_ranges pl dtb_address b st)) as Hlen.
  cbn zeta in Hdesc. unfold aarch64_prepare_boot_protocol. rewrite Hparse. cbn [mbind option_bind].
  rewrite Hload. cbn [mbind option_bind].
  destruct (construct_memory_map _ _) as [map size]. cbn [fst] in *.
  exists b, st. eexists. split; [done|]. split; [done|]. cbn.
  assert (Z.of_nat (length map) mod 2 ^ 16 = Z.of_nat (length map)) as Hmod.
  { apply Z.mod_small. unfold MEMORY_MAP_CAPACITY in Hlen. lia. }
  rewrite Hmod. unfold entries_of. cbn. rewrite Nat2Z.id, firstn_all.
  split_and!; [done..|]. eexists _, _. split; [exact Hcov|exact Hdesc].
Qed.

(** C11: from the bytes of the device tree to the Generics of the init process.  It is
    assumed that the boot loader passes a well-formed blob, that the kernel, the image
    buffer and the initrd of the tree lie in mapped memory below 16 GiB, the initrd apart
    from the buffer, and that the tree has at most 29 reserved ranges, which leaves room
    for the three the code adds ([bootable]).  Then the boot protocol ends, and if the
    descriptors fit the list of the init page, the page is filled with Generics of which
    none for usable memory covers a byte of the kernel image, of the device tree or of the
    initrd, and none for devices a byte of RAM.  The code does not check the assumptions. *)
Theorem boot_protects_kernel init :
  bootable →
  ∃ b st r, parse_fdt m dtb_address initial_fdt_state = Some (b, st) ∧
    aarch64_prepare_boot_protocol m pl dtb_address = Some r ∧
    let memory := boot_memory_info (prepared_info r) in
    ((length (descriptors (memory_map memory)) ≤ length (generic_list init))%nat →
     ∃ init', try_configure_init_generic_descriptors memory init = Some (Ok init') ∧
       generic_list init' = put 0 (descriptors (memory_map memory)) (generic_list init) ∧
       ∀ d a, d ∈ descriptors (memory_map memory) → descriptor_address d ≤ a < descriptor_end d →
         if is_device d then ¬ covered (default_ram (g_ram_ranges st)) a
         else ¬ boot_owned pl dtb_address b st a ∧ covered (default_ram (g_ram_ranges st)) a).
Proof.
  intros Hboot. destruct (prepare_spec Hboot) as (b & st & r & Hparse & Hprep & Hent & Hcount & Hlen & reserved & full & Hcov & Hd).
  exists b, st, r. split; [done|]. split; [done|]. cbn zeta. intros Hfit.
  destruct Hd as [Hsort Hin Hsound _]. set (memory := boot_memory_info (prepared_info r)) in *.
  assert (Forall (λ e, usable e = true → entry_ok e) (memory_map memory)) as Hok.
  { apply Forall_forall. intros e He _. destruct (Hin e He) as ([? ?] & ? & ?).
    unfold entry_stop, DIRECT_MAP_END, PAGE_SIZE in *. constructor; unfold PAGE_SIZE; (done || lia). }
  rewrite configure_descriptors_spec; [|unfold INITIAL_GENERIC_COUNT_MAX, MEMORY_MAP_CAPACITY in *; lia|lia|by rewrite Hent..].
  eexists. split; [done|]. rewrite Hent. split; [done|]. intros d a Hd Ha.
  pose proof (descriptors_of _ Hok) as Hdesc. rewrite Forall_forall in Hdesc.
  destruct (Hdesc d Hd) as (e & He & Hu & [Hlow Hhigh _ _ Hdev]).
  assert (classified (memory_map memory) a (entry_type e)) as Hc%Hsound.
  { exists e. split_and!; [done|done|lia|]. unfold entry_stop, entry_end_address in *. lia. }
  rewrite Hdev. unfold is_device_entry, usable in *. destruct (entry_type e); [|by destruct Hc as (_ & ? & _)|done].
  destruct Hc as [Hc Hn]. split; [|done]. intros Ho. by apply Hn, Hcov.
Qed.
End prepare.

(** ** An example *)

Section example.
(** The example tree, the example ELF file as its initrd, and a kernel at the top of
    the RAM whose image holds [g_init_image]. *)
Definition example_placement : placement := MkPlacement 0x49f00000 0x4e000000 0x4a000000.
Definition example_boot_memory : byte_memory :=
  example_dtb ∪ (memory_of_bytes 0x48000000 example_elf ∪
                 memory_of_bytes 0x4a000000 (replicate (Z.to_nat INIT_IMAGE_CAPACITY) 0)).

Definition example_parsed : fdt_state :=
  MkFdtState [MkRange 0x40000000 0x50000000]
    [MkRange 0x4fff0000 0x50000000; MkRange 0x40000000 0x40200000] 0x48000000 0x48000158
    (total_size example_header) 2 2 ROOT_NONE.

Lemma example_parses :
  parse_fdt example_boot_memory 0x44000000 initial_fdt_state = Some (true, example_parsed).
Proof.
  erewrite parse_fdt_tree; [|eapply flattened_at_weaken; [apply map_union_subseteq_l|apply example_flattened]].
  by vm_compute.
Qed.

Lemma bytes_outside p l first last :
  last ≤ p ∨ p + Z.of_nat (length l) ≤ first → ∀ a, first ≤ a < last → memory_of_bytes p l !! a = None.
Proof.
  intros Hp a Ha. rewrite memory_of_bytes_lookup. destruct (_ && _) eqn:Hb; [|done].
  rewrite andb_true_iff, Z.leb_le, Z.ltb_lt in Hb. lia.
Qed.

Lemma example_bootable : bootable example_boot_memory example_placement 0x44000000.
Proof.
  assert (Z.of_nat (length example_blob) < 0x1000) as Hblob by by vm_compute.
  assert (Z.of_nat (length example_elf) = 0x158) as Helf by by vm_compute.
  assert (mapped example_boot_memory 0x44000000 (0x44000000 + Z.of_nat (length example_blob))) as Hdtb.
  { apply mapped_union_l, bytes_at_mapped, example_blob_at. }
  assert (∀ total, read_big_u32 example_boot_memory (0x44000000 + 4) = Some total →
    total = Z.of_nat (length example_blob)) as Htotal.
  { intros total. erewrite read_big_u32_weaken; [|apply map_union_subseteq_l|by vm_compute].
    intros [= <-]. by vm_compute. }
  constructor.
  - constructor; [eapply mapped_sub; [exact Hdtb|done|by vm_compute]|intros total ->%Htotal; exact Hdtb|
      intros total ->%Htotal; lia].
  - lia.
  - by vm_compute.
  - apply mapped_union_r; [apply bytes_outside; right; cbn [init_image example_placement]; lia|].
    apply mapped_union_r; [apply bytes_outside; right; cbn [init_image example_placement]; lia|].
    pose proof (memory_of_bytes_mapped 0x4a000000 (replicate (Z.to_nat INIT_IMAGE_CAPACITY) 0)) as Hm.
    rewrite length_replicate, Z2Nat.id in Hm by (unfold INIT_IMAGE_CAPACITY; lia). apply Hm.
    by apply Forall_replicate.
  - intros b st. rewrite example_parses. intros [= <- <-]. split; [|by vm_compute; lia].
    constructor; [by vm_compute| |left; by vm_compute]. cbn [initrd_start initrd_end example_parsed].
    apply mapped_union_r; [apply bytes_outside; right; lia|]. apply mapped_union_l.
    replace 0x48000158 with (0x48000000 + Z.of_nat (length example_elf)) by lia. apply memory_of_bytes_mapped.
    apply example_elf_bytes.
Qed.

Lemma boot_protects_kernel_witness :
  ∃ r, aarch64_prepare_boot_protocol example_boot_memory example_placement 0x44000000 = Some r ∧
    let memory := boot_memory_info (prepared_info r) in
    ((length (descriptors (memory_map memory)) ≤ 128)%nat →
     ∃ init', try_configure_init_generic_descriptors memory empty_init_info = Some (Ok init') ∧
       ∀ d, d ∈ descriptors (memory_map memory) → is_device d = false →
         ¬ (descriptor_address d ≤ 0x49f00000 < descriptor_end d)).
Proof.
  destruct (boot_protects_kernel example_boot_memory example_placement 0x44000000 empty_init_info example_bootable)
    as (b & st & r & Hparse & Hr & Hd).
  exists r. split; [exact Hr|]. cbn zeta. intros Hl. destruct (Hd Hl) as (init' & Hi & _ & Hall).
  exists init'. split; [exact Hi|]. intros d Hin Hdev Ha. specialize (Hall d 0x49f00000 Hin Ha).
  rewrite Hdev in Hall. destruct Hall as [Hown _]. apply Hown. left.
  cbn [kernel_start kernel_end example_placement]. lia.
Defined.

(** A device tree whose reserve map has 32 entries fills the list of reserved ranges,
    and the range of the kernel image is dropped without a word: the memory map
    offers the kernel image, here at 0x40200000, as FREE. *)
Definition crowded_tree : dt_node :=
  DtNode [] [] [DtNode (chars "memory") [(chars "reg", be64 0x40000000 ++ be32 0x10000000)] []].
Definition crowded_entries : list (Z * Z) := map (λ i, (0x4e000000 + 0x10000 * Z.of_nat i, 0x1000)) (seq 0 32).
Definition crowded_structure : list Z := encode_node (λ _, 0) crowded_tree ++ be32 FDT_END.
Definition crowded_blob : list Z :=
  let reserve := encode_reserve_map crowded_entries in
  let strings := chars "reg" ++ [0] in
  let structure := 40 + Z.of_nat (length reserve) in
  let total := structure + Z.of_nat (length crowded_structure) + 4 in
  be32 FDT_MAGIC ++ be32 total ++ be32 structure ++ be32 (total - 4) ++ be32 40 ++ be32 17 ++ be32 16 ++ be32 0
  ++ be32 4 ++ be32 (Z.of_nat (length crowded_structure)) ++ reserve ++ crowded_structure ++ strings.

Lemma reserved_overflow_frees_kernel :
  option_map (λ r, take 2 (memory_map (boot_memory_info (prepared_info r))))
    (aarch64_prepare_boot_protocol (memory_of_bytes 0x44000000 crowded_blob)
       (MkPlacement 0x40200000 0x40800000 0x40300000) 0x44000000) =
  Some [MkEntry 0 0x40000 MMT_DEVICE; MkEntry 0x40000000 0xe000 MMT_FREE].
Proof. vm_compute. reflexivity. Qed.
End example.
