(* ===== verification/Bus.v ===== *)
(** The bus: what a device driver does.

    A driver reads and writes device registers, in memory or at I/O ports, and
    registers of the processor, and calls the firmware; the order matters.  A run extends
    the log of these accesses.  What a device answers to a read is a parameter,
    any function of what was done before ([device_read]), so that a register may
    change at every look.  The driver objects are the state of the run, which ends
    with an answer ([Done]), does what C++ leaves undefined ([Stuck]), or is still in
    a loop after its fuel ([Running]). *)

From S2P Require Import Prelude Word Types CString.

(** The system registers of AArch64 the drivers use. *)
Inductive system_register :=
| CNTP_CTL_EL0 | CNTP_TVAL_EL0 | CNTFRQ_EL0 | CNTPCT_EL0 | CPACR_EL1 | VBAR_EL1 | TTBR0_EL1 | DAIFSET | DAIFCLR.

(** The control, descriptor-table and segment registers of x86-64, the bases of FS and
    GS, MXCSR and the flags; and the instructions the drivers execute for their effect
    on the processor. *)
Inductive x86_register :=
| R_CR0 | R_CR3 | R_CR4 | R_XCR0 | R_GDTR | R_IDTR | R_TR | R_CS | R_DATA_SEGMENTS | R_FS_BASE | R_GS_BASE
| R_MXCSR | R_RFLAGS.
Inductive x86_instruction :=
| WBINVD | INVLPG | FINIT | XSAVEOPT | VMXON | VMCLEAR | VMPTRLD | VMLAUNCH.

(** A word in memory, an I/O port, a model-specific register, a system register, a
    call of the firmware through [hvc] or [smc] with four arguments; a register of
    x86-64, an instruction with its operand, a word of the answer of [cpuid], a field
    of the current VMCS. *)
Inductive bus_access :=
| MMIO (address : Z)
| PORT (port width : Z)
| MSR (index : Z)
| SYSREG (r : system_register)
| FIRMWARE (smc : bool) (x0 x1 x2 x3 : Z)
| REGISTER (r : x86_register)
| INSTRUCTION (i : x86_instruction)
| CPUID (leaf subleaf word : Z)
| VMCS (field : Z).

Inductive bus_event :=
| BUS_WRITE (a : bus_access) (value : Z)
| BUS_READ (a : bus_access).

#[global] Instance system_register_eq_dec : EqDecision system_register.
Proof. solve_decision. Defined.
#[global] Instance x86_register_eq_dec : EqDecision x86_register.
Proof. solve_decision. Defined.
#[global] Instance x86_instruction_eq_dec : EqDecision x86_instruction.
Proof. solve_decision. Defined.
#[global] Instance bus_access_eq_dec : EqDecision bus_access.
Proof. solve_decision. Defined.

Class bus_device := device_read : list bus_event → bus_access → Z.

Inductive run (S A : Type) :=
| Done (a : A) (s : S) (log : list bus_event)
| Stuck
| Running.
Global Arguments Done {S A} a s log.
Global Arguments Stuck {S A}.
Global Arguments Running {S A}.

(** [S] holds the driver objects, the globals of the HAL. *)
Definition D (S A : Type) : Type := S → list bus_event → run S A.

#[global] Instance D_ret S : MRet (D S) := λ A a s log, Done a s log.
#[global] Instance D_bind S : MBind (D S) := λ A B f m s log,
  match m s log with
  | Done a s' log' => f a s' log'
  | Stuck => Stuck
  | Running => Running
  end.

Definition still_running {S A} : D S A := λ _ _, Running.
Definition certainly {S A} (o : option A) : D S A :=
  λ s log, match o with Some a => Done a s log | None => Stuck end.
Definition objects {S A} (f : S → A) : D S A := λ s log, Done (f s) s log.
Definition set_objects {S} (f : S → S) : D S unit := λ s log, Done tt (f s) log.
Definition bus_write {S} (a : bus_access) (value : Z) : D S unit :=
  λ s log, Done tt s (log ++ [BUS_WRITE a value]).
Definition bus_read `{bus_device} {S} (a : bus_access) : D S Z :=
  λ s log, Done (device_read log a) s (log ++ [BUS_READ a]).

(** Chaining of results, as [let?] for the kernel. *)
Definition bus_and_then {S A B E} (m : D S (result A E)) (f : A → D S (result B E)) : D S (result B E) :=
  r ← m; match r with Ok a => f a | Err e => mret (Err e) end.
Notation "'let!' x := m 'in' n" := (bus_and_then m (λ x, n))
  (at level 10, x pattern, m at level 200, n at level 200) : a9n_scope.
Definition bus_ok {S E} : D S (result unit E) := mret (Ok tt).
Definition bus_fail {S A E} (e : E) : D S (result A E) := mret (Err e).

(** ** Tables in memory

    The fields of packed structures, little-endian. *)

Fixpoint load_bytes (m : byte_memory) (size : nat) (address : Z) : option Z :=
  match size with
  | O => Some 0
  | S size' =>
      low ← m !! address;
      high ← load_bytes m size' (address + 1);
      Some (low + 256 * high)
  end.
Definition load_u8 (m : byte_memory) : Z → option Z := load_bytes m 1.
Definition load_u16 (m : byte_memory) : Z → option Z := load_bytes m 2.
Definition load_u32 (m : byte_memory) : Z → option Z := load_bytes m 4.
Definition load_u64 (m : byte_memory) : Z → option Z := load_bytes m 8.

(** [memcmp(address, l, n) == 0], up to the first difference. *)
Fixpoint bytes_equal (m : byte_memory) (address : Z) (l : list Z) : option bool :=
  match l with
  | [] => Some true
  | c :: l' => b ← m !! address; if b =? c then bytes_equal m (address + 1) l' else Some false
  end.

(** ** Reasoning about runs *)

(** [dwp m Q s log]: [m] ends, without undefined behaviour, in an answer, objects
    and a log that satisfy [Q]. *)
Definition dwp {S A} (m : D S A) (Q : A → S → list bus_event → Prop) (s : S) (log : list bus_event) : Prop :=
  match m s log with Done a s' log' => Q a s' log' | _ => False end.

Section dwp.
Context {S : Type}.
Implicit Types (s : S) (log : list bus_event).

Lemma dwp_ret {A} (a : A) Q s log : Q a s log → dwp (mret a) Q s log.
Proof. done. Qed.
Lemma dwp_bind {A B} (m : D S A) (f : A → D S B) Q s log :
  dwp m (λ a s' log', dwp (f a) Q s' log') s log → dwp (mbind f m) Q s log.
Proof. unfold dwp, mbind, D_bind. by destruct (m s log). Qed.
Lemma dwp_mono {A} (m : D S A) (Q Q' : A → S → list bus_event → Prop) s log :
  (∀ a s' log', Q a s' log' → Q' a s' log') → dwp m Q s log → dwp m Q' s log.
Proof. unfold dwp. destruct (m s log); naive_solver. Qed.
Lemma dwp_certainly {A} (o : option A) a Q s log : o = Some a → Q a s log → dwp (certainly o) Q s log.
Proof. by intros ->. Qed.
Lemma dwp_objects {A} (f : S → A) Q s log : Q (f s) s log → dwp (objects f) Q s log.
Proof. done. Qed.
Lemma dwp_set_objects (f : S → S) Q s log : Q tt (f s) log → dwp (set_objects f) Q s log.
Proof. done. Qed.
Lemma dwp_write a v Q s log : Q tt s (log ++ [BUS_WRITE a v]) → dwp (bus_write a v) Q s log.
Proof. done. Qed.
Lemma dwp_read `{bus_device} a Q s log :
  Q (device_read log a) s (log ++ [BUS_READ a]) → dwp (bus_read a) Q s log.
Proof. done. Qed.
Lemma dwp_and_then {A B E} (m : D S (result A E)) (f : A → D S (result B E)) Q s log :
  dwp m (λ r s' log', match r with Ok a => dwp (f a) Q s' log' | Err e => Q (Err e) s' log' end) s log →
  dwp (bus_and_then m f) Q s log.
Proof. intros H. apply dwp_bind. eapply dwp_mono; [|exact H]. by intros []. Qed.
Lemma dwp_run {A} (m : D S A) Q s log :
  dwp m Q s log ↔ ∃ a s' log', m s log = Done a s' log' ∧ Q a s' log'.
Proof. unfold dwp. destruct (m s log); naive_solver. Qed.
Lemma dwp_det {A} (m : D S A) Q Q' s log :
  dwp m Q s log → dwp m Q' s log → dwp m (λ a s' log', Q a s' log' ∧ Q' a s' log') s log.
Proof. unfold dwp. by destruct (m s log). Qed.
End dwp.

Global Opaque dwp.

Ltac dwp_step :=
  lazymatch goal with
  | |- dwp (mbind _ _) _ _ _ => apply dwp_bind
  | |- dwp (bus_and_then _ _) _ _ _ => apply dwp_and_then
  | |- dwp (mret _) _ _ _ => apply dwp_ret
  | |- dwp bus_ok _ _ _ => apply dwp_ret
  | |- dwp (bus_fail _) _ _ _ => apply dwp_ret
  | |- dwp (bus_write _ _) _ _ _ => apply dwp_write
  | |- dwp (bus_read _) _ _ _ => apply dwp_read
  | |- dwp (objects _) _ _ _ => apply dwp_objects
  | |- dwp (set_objects _) _ _ _ => apply dwp_set_objects
  end; cbn beta iota.
Ltac dwp_steps := repeat dwp_step.

(** A field of a mapped range can be read, and has its width. *)
Definition byte_range (m : byte_memory) (start end_ : Z) : Prop :=
  ∀ a, start ≤ a < end_ → ∃ b, m !! a = Some b ∧ 0 ≤ b < 256.

Lemma load_bytes_mapped m size address start end_ :
  byte_range m start end_ → start ≤ address → address + Z.of_nat size ≤ end_ →
  ∃ v, load_bytes m size address = Some v ∧ 0 ≤ v < 256 ^ Z.of_nat size.
Proof.
  intros Hm. revert address. induction size as [|size IH]; intros address Hs He; cbn [load_bytes].
  { exists 0. split; [done|lia]. }
  destruct (Hm address) as (b & -> & Hb); [lia|]. destruct (IH (address + 1)) as (v & -> & Hv); [lia..|].
  eexists. split; [done|]. rewrite Nat2Z.inj_succ, Z.pow_succ_r by lia. lia.
Qed.

Lemma bytes_equal_mapped m address l start end_ :
  byte_range m start end_ → start ≤ address → address + Z.of_nat (length l) ≤ end_ →
  ∃ b, bytes_equal m address l = Some b.
Proof.
  intros Hm. revert address. induction l as [|c l IH]; intros address Hs He; [by exists true|].
  cbn [bytes_equal length] in *. destruct (Hm address) as (b & -> & _); [lia|]. cbn.
  destruct (b =? c); [|by exists false]. apply IH; lia.
Qed.
