(* ===== verification/Acpi.v ===== *)
(** ACPI tables: src/src/hal/x86_64/platform/acpi.cpp, acpi.hpp, and the loops over
    the MADT of src/src/hal/x86_64/interrupt/apic.cpp ([io_apic::configure_from_madt])
    and src/src/hal/x86_64/include/hal/x86_64/arch/smp.hpp ([create_smp_info]).

    The tables are bytes of memory, at their addresses in the kernel's direct map of
    physical memory.  A null pointer is 0.  Log output is left out. *)

From S2P Require Import Prelude Word Types Kernel MemoryTypes CString Bus.

(** ** acpi.hpp: packed structures as offsets of their fields *)

Definition SIZEOF_SDT_HEADER : Z := 36.
Definition SIZEOF_MADT : Z := 44.

Definition rsdp_rsdt_address (m : byte_memory) (rsdp : Z) : option Z := load_u32 m (rsdp + 16).
Definition rsdp_xsdt_address (m : byte_memory) (rsdp : Z) : option Z := load_u64 m (rsdp + 24).
Definition sdt_length (m : byte_memory) (sdt : Z) : option Z := load_u32 m (sdt + 4).
Definition sdt_revision (m : byte_memory) (sdt : Z) : option Z := load_u8 m (sdt + 8).

(** [acpi_magic::RSDP] and the signatures of the tables, in ASCII. *)
Definition RSDP_SIGNATURE : list Z := [82; 83; 68; 32; 80; 84; 82; 32].
Definition FACP_SIGNATURE : list Z := [70; 65; 67; 80].
Definition APIC_SIGNATURE : list Z := [65; 80; 73; 67].
Definition HPET_SIGNATURE : list Z := [72; 80; 69; 84].

Inductive madt_entry_type :=
| LOCAL_APIC | IO_APIC | INTERRUPT_SOURCE_OVERRIDE | PROCESSOR_LOCAL_X2APIC | MADT_OTHER.
Definition madt_entry_type_of (type : Z) : madt_entry_type :=
  match type with
  | 0x00 => LOCAL_APIC | 0x01 => IO_APIC | 0x02 => INTERRUPT_SOURCE_OVERRIDE
  | 0x09 => PROCESSOR_LOCAL_X2APIC
  | _ => MADT_OTHER
  end.

(** ** acpi.cpp *)

Record acpi_configurator := MkAcpi {
  acpi_rsdp : Z;
  acpi_rsdt : Z;
  acpi_xsdt : Z;
  acpi_fadt : Z;
  acpi_madt : Z;
  acpi_hpet : Z;
}.
#[global] Instance eta_acpi : Eta acpi_configurator := λ x,
  MkAcpi (acpi_rsdp x) (acpi_rsdt x) (acpi_xsdt x) (acpi_fadt x) (acpi_madt x) (acpi_hpet x).
Definition initial_acpi : acpi_configurator := MkAcpi 0 0 0 0 0 0.

Definition validate_sdt_signature (m : byte_memory) (sdt : Z) (signature : list Z) : option bool :=
  bytes_equal m sdt signature.

(** The subtraction is 64 bits wide, the answer 32. *)
Definition xsdt_count (m : byte_memory) (xsdt : Z) : option Z :=
  length ← sdt_length m xsdt; Some (wrap32 (wsub length SIZEOF_SDT_HEADER / 8)).

(** [xsdt] is in the direct map already; the conversion leaves it there. *)
Definition calculate_table_head (xsdt : Z) : Z := physical_to_virtual_address (xsdt + SIZEOF_SDT_HEADER).
Definition search_sdt_header (m : byte_memory) (xsdt i : Z) : option Z :=
  physical_to_virtual_address <$> load_u64 m (calculate_table_head xsdt + 8 * i).

(** The body of the loop over the tables. *)
Definition configure_table (m : byte_memory) (header : Z) (acpi : acpi_configurator)
    : option acpi_configurator :=
  is_fadt ← validate_sdt_signature m header FACP_SIGNATURE;
  if is_fadt : bool then Some (acpi <| acpi_fadt := header |>)
  else
    is_madt ← validate_sdt_signature m header APIC_SIGNATURE;
    if is_madt : bool then Some (acpi <| acpi_madt := header |>)
    else
      is_hpet ← validate_sdt_signature m header HPET_SIGNATURE;
      Some (if is_hpet : bool then acpi <| acpi_hpet := header |> else acpi).

(** [for (i = 0; i < xsdt->count(); i++)], with the turns that are left. *)
Fixpoint configure_tables (turns : nat) (m : byte_memory) (xsdt i : Z) (acpi : acpi_configurator)
    : option acpi_configurator :=
  match turns with
  | O => Some acpi
  | S turns' =>
      header ← search_sdt_header m xsdt i;
      acpi' ← configure_table m header acpi;
      configure_tables turns' m xsdt (i + 1) acpi'
  end.

Definition validate_rsdp (m : byte_memory) (rsdp : Z) : option bool := bytes_equal m rsdp RSDP_SIGNATURE.

Definition acpi_init (m : byte_memory) (rsdp : Z) (acpi : acpi_configurator) : option acpi_configurator :=
  valid ← validate_rsdp m rsdp;
  if negb valid then Some acpi
  else
    xsdt ← physical_to_virtual_address <$> rsdp_xsdt_address m rsdp;
    rsdt ← physical_to_virtual_address <$> rsdp_rsdt_address m rsdp;
    count ← xsdt_count m xsdt;
    configure_tables (Z.to_nat count) m xsdt 0 (acpi <| acpi_rsdt := rsdt |> <| acpi_xsdt := xsdt |>).

Definition current_table (address : Z) : result Z hal_error :=
  if address =? 0 then Err HE_NO_SUCH_ADDRESS else Ok address.
Definition current_fadt (acpi : acpi_configurator) : result Z hal_error := current_table (acpi_fadt acpi).
Definition current_madt (acpi : acpi_configurator) : result Z hal_error := current_table (acpi_madt acpi).
Definition current_hpet (acpi : acpi_configurator) : result Z hal_error := current_table (acpi_hpet acpi).
Definition current_rsdp (acpi : acpi_configurator) : result Z hal_error := current_table (acpi_rsdp acpi).
Definition current_rsdt (acpi : acpi_configurator) : result Z hal_error := current_table (acpi_rsdt acpi).
Definition current_xsdt (acpi : acpi_configurator) : result Z hal_error := current_table (acpi_xsdt acpi).

(** ** The loop over the entries of the MADT

    [while (madt_entry_pointer < end)]; the two files have the same loop with
    different actions.  An entry of length 0 is read again and again: the fuel is
    the number of turns after which the model gives up. *)
Section madt_walk.
Context {Obj A : Type} (m : byte_memory) (action : madt_entry_type → Z → A → option A).

Fixpoint madt_walk (fuel : nat) (pointer end_ : Z) (s : A) : D Obj A :=
  if end_ <=? pointer then mret s
  else
    match fuel with
    | O => still_running
    | S fuel' =>
        type ← certainly (load_u8 m pointer);
        s' ← certainly (action (madt_entry_type_of type) pointer s);
        length ← certainly (load_u8 m (pointer + 1));
        madt_walk fuel' (pointer + length) end_ s'
    end.
End madt_walk.

(** From the first entry to [header.length]. *)
Definition madt_entries {Obj A} (m : byte_memory) (madt : Z) (action : madt_entry_type → Z → A → option A)
    (s : A) : D Obj A :=
  length ← certainly (sdt_length m madt);
  madt_walk m action (Z.to_nat length) (madt + SIZEOF_MADT) (madt + length) s.

(** ** smp.hpp *)

Definition SMP_CPU_COUNT_MAX : nat := 64.

(** The identifiers of the enabled processors, the boot processor included. *)
Definition smp_action (m : byte_memory) (type : madt_entry_type) (entry : Z) (ids : list Z) : option (list Z) :=
  let append flags id :=
    if Z.odd flags && (length ids <? SMP_CPU_COUNT_MAX)%nat then ids ++ [id] else ids in
  match type with
  | LOCAL_APIC => flags ← load_u32 m (entry + 4); id ← load_u8 m (entry + 3); Some (append flags id)
  | PROCESSOR_LOCAL_X2APIC => flags ← load_u32 m (entry + 8); id ← load_u32 m (entry + 4); Some (append flags id)
  | _ => Some ids
  end.

Definition create_smp_info {Obj} (m : byte_memory) (acpi : acpi_configurator) : D Obj (result (list Z) hal_error) :=
  match current_madt acpi with
  | Err e => bus_fail e
  | Ok madt => ids ← madt_entries m madt (smp_action m) []; mret (Ok ids)
  end.
