(* ===== verification/Platform.v ===== *)
(** The devices of an x86-64 platform other than the I/O APIC: the local APIC
    (src/src/hal/x86_64/interrupt/apic.cpp, [local_apic]), the ACPI PM timer and the
    local APIC timer (src/src/hal/x86_64/time/acpi_pm_timer.cpp,
    local_apic_timer.cpp), the 8259 interrupt controllers and the 8254 timer
    (src/src/hal/x86_64/interrupt/pic.cpp, src/src/hal/x86_64/time/pit_timer.cpp); and
    the globals of the HAL these drivers keep. *)

From S2P Require Import Prelude Word Types Kernel MemoryTypes CString Bus Acpi.

(** ** The objects *)

(** apic.hpp *)
Record interrupt_source_override := MkOverride {
  override_valid : bool;
  override_irq_source : Z;
  override_global_system_interrupt : Z;
  override_flags : Z;
}.

Record io_apic := MkIoApic {
  io_apic_id : Z;
  base_address : Z;
  global_interrupt_base : Z;
  interrupt_source_overrides : list interrupt_source_override;
  register_select : Z;
  window : Z;
}.

(** acpi_pm_timer.hpp: [port] and [address] are the two names of a union. *)
Record acpi_pm_timer := MkPmTimer {
  is_mmio : bool;
  pm_register : Z;
  bits : Z;
}.

(** local_apic_timer.hpp *)
Record local_apic_timer := MkApicTimer {
  frequency : Z;
  desired_frequency : Z;
  divide_config : Z;
}.

(** The globals ([acpi_core], [io_apic_core], the [base] of [local_apic_core],
    ...), the memory the HAL reads tables from and copies the start-up code to,
    [local_apic_ids] and [enabled_ap_count] of [smp_info_core], and
    [arch_cpu_local_variables[i].local_apic_id]. *)
Record hal_globals := MkHalGlobals {
  hal_memory : byte_memory;
  acpi_core : acpi_configurator;
  io_apic_core : io_apic;
  local_apic_core : Z;
  acpi_pm_timer_core : acpi_pm_timer;
  local_apic_timer_core : local_apic_timer;
  pic_irq_mask : Z;
  smp_info_core : list Z;
  core_apic_ids : list Z;
  expected_cores : Z;
}.

#[global] Instance eta_override : Eta interrupt_source_override := λ x,
  MkOverride (override_valid x) (override_irq_source x) (override_global_system_interrupt x)
    (override_flags x).
#[global] Instance eta_io_apic : Eta io_apic := λ x,
  MkIoApic (io_apic_id x) (base_address x) (global_interrupt_base x) (interrupt_source_overrides x)
    (register_select x) (window x).
#[global] Instance eta_pm_timer : Eta acpi_pm_timer := λ x,
  MkPmTimer (is_mmio x) (pm_register x) (bits x).
#[global] Instance eta_apic_timer : Eta local_apic_timer := λ x,
  MkApicTimer (frequency x) (desired_frequency x) (divide_config x).
#[global] Instance eta_hal_globals : Eta hal_globals := λ x,
  MkHalGlobals (hal_memory x) (acpi_core x) (io_apic_core x) (local_apic_core x)
    (acpi_pm_timer_core x) (local_apic_timer_core x) (pic_irq_mask x) (smp_info_core x)
    (core_apic_ids x) (expected_cores x).

Definition initial_override : interrupt_source_override := MkOverride false 0 0 0.
Definition initial_io_apic : io_apic := MkIoApic 0 0 0 (replicate 16 initial_override) 0 0.
(** Before the architecture is initialised; [memory] is what the boot loader left. *)
Definition initial_globals (memory : byte_memory) : hal_globals :=
  MkHalGlobals memory initial_acpi initial_io_apic 0 (MkPmTimer false 0 24) (MkApicTimer 0 0 0)
    (Z.ldiff 0xFFFF (Z.shiftl 1 2)) [] (replicate (Z.to_nat CPU_COUNT_MAX) 0) 1.

(** A driver of this platform. *)
Abbreviation driver := (D hal_globals).

Module local_apic_offset.
Definition ID_REGISTER : Z := 0x020.
Definition TASK_PRIORITY : Z := 0x080.
Definition END_OF_INTERRUPT : Z := 0x0B0.
Definition LOGICAL_DESITINATION : Z := 0x0D0.
Definition DESTINATION_FORMAT : Z := 0x0E0.
Definition SPURIOUS_INTERRUPT : Z := 0x0F0.
Definition ICR_LOW : Z := 0x300.
Definition ICR_HIGH : Z := 0x310.
Definition LVT_TIMER : Z := 0x320.
Definition LVT_PERFORMANCE_COUNTER : Z := 0x340.
Definition LVT_LINT_0 : Z := 0x350.
Definition LVT_LINT_1 : Z := 0x360.
Definition LVT_ERROR : Z := 0x370.
Definition TIMER_INIT_COUNT : Z := 0x380.
Definition TIMER_CURRENT_COUNT : Z := 0x390.
Definition TIMER_DIVIDE : Z := 0x3E0.
End local_apic_offset.
Import local_apic_offset.

Definition MSR_APIC_BASE : Z := 0x1b.
Definition APIC_ENABLE : Z := Z.shiftl 1 11.
(** [reserved_irq::TIMER] *)
Definition TIMER_VECTOR : Z := 0x20.

(** ** Port I/O: port_io.hpp, port/port_io.cpp *)

Section platform.
Context `{bus_device}.

Definition port_read_8 (port : Z) : driver Z := v ← bus_read (PORT port 8); mret (wrap8 v).
Definition port_read_32 (port : Z) : driver Z := v ← bus_read (PORT port 32); mret (wrap32 v).
Definition port_write_8 (port data : Z) : driver unit := bus_write (PORT port 8) (wrap8 data).
Definition port_wait : driver unit := bus_write (PORT 0x80 8) 0.

(** ** The local APIC *)

(** [base[offset / 4]], of 32-bit words. *)
Definition local_apic_register (base offset : Z) : bus_access := MMIO (base + 4 * (offset / 4)).

Definition local_apic_read (offset : Z) : driver (result Z hal_error) :=
  base ← objects local_apic_core;
  if base =? 0 then bus_fail HE_NO_SUCH_ADDRESS
  else v ← bus_read (local_apic_register base offset); mret (Ok (wrap32 v)).

Definition local_apic_write (offset value : Z) : driver hal_result :=
  base ← objects local_apic_core;
  if base =? 0 then bus_fail HE_NO_SUCH_ADDRESS
  else bus_write (local_apic_register base offset) (wrap32 value);; bus_ok.

Definition read_msr (index : Z) : driver Z := v ← bus_read (MSR index); mret (wrap v).
Definition write_msr (index value : Z) : driver unit := bus_write (MSR index) value.

Definition local_apic_init : driver hal_result :=
  apic_base_msr ← read_msr MSR_APIC_BASE;
  let apic_base_address := Z.land apic_base_msr 0xFFFF1000 in
  let base := physical_to_virtual_address apic_base_address in
  set_objects (λ g, g <| local_apic_core := base |>);;
  if base =? 0 then bus_fail HE_NO_SUCH_ADDRESS
  else
    write_msr MSR_APIC_BASE (Z.lor apic_base_address APIC_ENABLE);;
    let! _ := local_apic_write SPURIOUS_INTERRUPT (Z.lor (Z.shiftl 1 8) (Z.shiftl 1 4 - 1)) in
    let! _ := local_apic_write TASK_PRIORITY 0 in
    let! _ := local_apic_write LOGICAL_DESITINATION 0x1000000 in
    let! _ := local_apic_write DESTINATION_FORMAT 0xFFFFFFFF in
    let! _ := local_apic_write LVT_TIMER (Z.shiftl 1 16) in
    let! _ := local_apic_write LVT_PERFORMANCE_COUNTER (Z.shiftl 1 16) in
    let! _ := local_apic_write LVT_LINT_0 0x8700 in
    let! _ := local_apic_write LVT_LINT_1 0x400 in
    let! _ := local_apic_write LVT_ERROR (Z.shiftl 1 16) in
    local_apic_write END_OF_INTERRUPT 0.

Definition local_apic_id : driver (result Z hal_error) :=
  let! id_register := local_apic_read ID_REGISTER in
  mret (Ok (Z.land (Z.shiftr id_register 24) 0xFF)).

Definition end_of_interrupt : driver hal_result := local_apic_write END_OF_INTERRUPT 0.

(** ** The ACPI PM timer *)

(** Offsets of the packed [fadt]. *)
Definition fadt_pm_timer_block (m : byte_memory) (fadt : Z) : option Z := load_u32 m (fadt + 76).
Definition fadt_pm_timer_length (m : byte_memory) (fadt : Z) : option Z := load_u8 m (fadt + 91).
Definition fadt_flags (m : byte_memory) (fadt : Z) : option Z := load_u32 m (fadt + 112).
Definition fadt_x_pm_timer_space (m : byte_memory) (fadt : Z) : option Z := load_u8 m (fadt + 208).
Definition fadt_x_pm_timer_address (m : byte_memory) (fadt : Z) : option Z := load_u64 m (fadt + 212).

Definition SYSTEM_MEMORY : Z := 0x00.
Definition SYSTEM_IO : Z := 0x01.

Definition update_pm_timer (f : acpi_pm_timer → acpi_pm_timer) : driver unit :=
  set_objects (λ g, g <| acpi_pm_timer_core ::= f |>).

Definition pm_timer_init (fadt : Z) : driver hal_result :=
  m ← objects hal_memory;
  if fadt =? 0 then bus_fail HE_ILLEGAL_ARGUMENT
  else
    length ← certainly (fadt_pm_timer_length m fadt);
    if negb (length =? 4) then bus_fail HE_ILLEGAL_DEVICE
    else
      flags ← certainly (fadt_flags m fadt);
      update_pm_timer (λ t, t <| bits := if Z.testbit flags 8 then 32 else 24 |>);;
      revision ← certainly (sdt_revision m fadt);
      if revision <=? 2 then
        block ← certainly (fadt_pm_timer_block m fadt);
        update_pm_timer (λ t, t <| is_mmio := false |> <| pm_register := block |>);;
        bus_ok
      else
        space ← certainly (fadt_x_pm_timer_space m fadt);
        address ← certainly (fadt_x_pm_timer_address m fadt);
        let! _ :=
          (if space =? SYSTEM_MEMORY then
             update_pm_timer (λ t, t <| is_mmio := true |>
                                     <| pm_register := physical_to_virtual_address address |>);;
             bus_ok
           else if space =? SYSTEM_IO then
             update_pm_timer (λ t, t <| is_mmio := false |> <| pm_register := address |>);;
             bus_ok
           else bus_fail HE_ILLEGAL_DEVICE) in
        t ← objects acpi_pm_timer_core;
        if negb (pm_register t =? 0) then bus_ok
        else
          block ← certainly (fadt_pm_timer_block m fadt);
          update_pm_timer (λ t, t <| pm_register := block |>);;
          bus_ok.

Definition pm_mask (t : acpi_pm_timer) : Z :=
  if bits t <? 32 then Z.shiftl 1 (bits t) - 1 else 0xFFFFFFFF.

Definition pm_timer_read : driver (result Z hal_error) :=
  t ← objects acpi_pm_timer_core;
  if pm_register t =? 0 then bus_fail HE_NO_SUCH_DEVICE
  else
    value ← (if is_mmio t then v ← bus_read (MMIO (pm_register t)); mret (wrap32 v)
             else port_read_32 (Z.land (pm_register t) 0xFFFF));
    mret (Ok (Z.land value (pm_mask t))).

(** [micro_seconds * (TIMER_FREQUENCY / 1e6)], in double precision, converted to
    [uint32_t].  The product is a multiple of 1/200000 up to a relative error of
    2^-52, so cutting it gives the quotient below; a value of 2^32 or more is
    undefined. *)
Definition TIMER_FREQUENCY : Z := 3579545.
Definition pm_ticks (micro_seconds : Z) : option Z :=
  let ticks := micro_seconds * TIMER_FREQUENCY / 1000000 in
  if ticks <? 2 ^ 32 then Some ticks else None.

Fixpoint pm_wait_loop (fuel : nat) (start_time end_ticks : Z) : driver hal_result :=
  match fuel with
  | O => still_running
  | S fuel' =>
      t ← objects acpi_pm_timer_core;
      let! current_time := pm_timer_read in
      let elapsed_time := Z.land (wrap32 (current_time - start_time)) (pm_mask t) in
      if end_ticks <=? elapsed_time then bus_ok else pm_wait_loop fuel' start_time end_ticks
  end.

(** [fuel] is the number of times the timer is read before the model gives up. *)
Definition pm_timer_wait (fuel : nat) (micro_seconds : Z) : driver hal_result :=
  t ← objects acpi_pm_timer_core;
  let! start_time := pm_timer_read in
  ticks ← certainly (pm_ticks micro_seconds);
  pm_wait_loop fuel start_time (Z.land ticks (pm_mask t)).

(** ** The local APIC timer *)

Definition update_apic_timer (f : local_apic_timer → local_apic_timer) : driver unit :=
  set_objects (λ g, g <| local_apic_timer_core ::= f |>).

Definition calibrate (fuel : nat) : driver hal_result :=
  let! _ := local_apic_write LVT_TIMER (Z.shiftl 1 16) in
  let! _ := local_apic_write TIMER_INIT_COUNT 0xFFFFFFFF in
  t ← objects local_apic_timer_core;
  let! _ := local_apic_write TIMER_DIVIDE (Z.land (divide_config t) 0x0F) in
  let! _ := local_apic_write TIMER_INIT_COUNT 0xFFFFFFFF in
  let! _ := pm_timer_wait fuel 10000 in
  let! start_clock := local_apic_read TIMER_CURRENT_COUNT in
  let elapsed_clock := wrap32 (0xFFFFFFFF - start_clock) in
  update_apic_timer (λ t, t <| frequency := wrap32 (elapsed_clock * 100) |>);;
  bus_ok.

Definition local_apic_timer_init (fuel : nat) : driver hal_result :=
  update_apic_timer (λ t, t <| divide_config := 0x03 |>);;
  calibrate fuel.

Definition enable_current_core : driver hal_result :=
  local_apic_write LVT_TIMER (Z.lor TIMER_VECTOR (Z.shiftl 1 17)).

Definition configure_cycle (hz : Z) : driver hal_result :=
  t ← objects local_apic_timer_core;
  if frequency t =? 0 then bus_fail HE_INIT_FIRST
  else if (hz =? 0) || (frequency t / hz =? 0) then bus_fail HE_ILLEGAL_ARGUMENT
  else
    let! _ := local_apic_write TIMER_DIVIDE (Z.land (divide_config t) 0x0F) in
    let! _ := enable_current_core in
    local_apic_write TIMER_INIT_COUNT (frequency t / hz).

Definition configure_system_clock_frequency (hz : Z) : driver hal_result :=
  let! _ := configure_cycle hz in
  update_apic_timer (λ t, t <| desired_frequency := hz |>);;
  bus_ok.

Definition init_current_core : driver hal_result :=
  t ← objects local_apic_timer_core;
  if desired_frequency t =? 0 then bus_fail HE_INIT_FIRST else configure_cycle (desired_frequency t).

(** ** The 8259 interrupt controllers *)

Definition PIC_MASTER_COMMAND : Z := 0x20.
Definition PIC_MASTER_DATA : Z := 0x21.
Definition PIC_SLAVE_COMMAND : Z := 0xa0.
Definition PIC_SLAVE_DATA : Z := 0xa1.
Definition PIC_EOI : Z := 0x20.
Definition IMCR : Z := 0x22.
Definition IMCR_DATA : Z := 0x23.

(** [icw1::INIT | icw1::ICW4] and [icw4::MODE_8086] *)
Definition ICW1 : Z := Z.lor (Z.shiftl 1 4) (Z.shiftl 1 0).
Definition ICW4 : Z := Z.shiftl 1 0.

Definition port_write_wait (port data : Z) : driver unit := port_write_8 port data;; port_wait.

(** The branch of CONFIG_PIC, which pic.cpp defines. *)
Definition init_pic : driver unit :=
  port_write_wait PIC_MASTER_COMMAND ICW1;;
  port_write_wait PIC_MASTER_DATA 0x20;;
  port_write_wait PIC_MASTER_DATA 0x04;;
  port_write_wait PIC_MASTER_DATA ICW4;;
  port_write_wait PIC_SLAVE_COMMAND ICW1;;
  port_write_wait PIC_SLAVE_DATA 0x28;;
  port_write_wait PIC_SLAVE_DATA 0x02;;
  port_write_wait PIC_SLAVE_DATA ICW4;;
  port_write_wait PIC_MASTER_DATA 0xFF;;
  port_write_wait PIC_SLAVE_DATA 0xFF.

Definition mask_pic (mask : Z) : driver unit :=
  set_objects (λ g, g <| pic_irq_mask := mask |>);;
  port_write_8 PIC_MASTER_DATA mask;;
  port_write_8 PIC_SLAVE_DATA (Z.shiftr mask 8).
Definition enable_pic (irq_number : Z) : driver unit :=
  mask ← objects pic_irq_mask;
  mask_pic (wrap16 (Z.ldiff mask (Z.shiftl 1 irq_number))).
Definition end_of_interrupt_pic (irq_number : Z) : driver unit :=
  (if 8 <=? irq_number then port_write_8 PIC_SLAVE_COMMAND PIC_EOI else mret tt);;
  port_write_8 PIC_MASTER_COMMAND PIC_EOI.
Definition configure_imcr_to_apic : driver unit :=
  port_write_wait IMCR 0x70;;
  port_write_wait IMCR_DATA 0x01.

(** The class [pic]; its [io_wait] does nothing. *)
Definition remap_pic (master_offset slave_offset : Z) : driver unit :=
  port_read_8 PIC_MASTER_DATA;;
  port_read_8 PIC_SLAVE_DATA;;
  port_write_8 PIC_MASTER_COMMAND 0x11;;
  port_write_8 PIC_SLAVE_COMMAND 0x11;;
  port_write_8 PIC_MASTER_DATA master_offset;;
  port_write_8 PIC_SLAVE_DATA slave_offset;;
  port_write_8 PIC_MASTER_DATA 0x04;;
  port_write_8 PIC_SLAVE_DATA 0x02;;
  port_write_8 PIC_MASTER_DATA 0x01;;
  port_write_8 PIC_SLAVE_DATA 0x01;;
  port_write_8 PIC_MASTER_DATA 0xff;;
  port_write_8 PIC_SLAVE_DATA 0xff;;
  port_write_8 PIC_MASTER_COMMAND 0x20.
Definition pic_init_pic : driver unit := remap_pic 32 40.
Definition pic_wait : driver unit := port_write_8 0x80 0.
Definition pic_mask (pic_flag : bool) (mask_flag : Z) : driver unit :=
  port_write_8 (if pic_flag then PIC_SLAVE_DATA else PIC_MASTER_DATA) mask_flag.
Definition pic_line (irq_number : Z) : Z * Z :=
  if 8 <? irq_number then (PIC_SLAVE_DATA, wrap8 (irq_number - 8)) else (PIC_MASTER_DATA, irq_number).
(** A shift by 32 or more is undefined. *)
Definition pic_bit (line : Z) : option Z := if line <? 32 then Some (Z.shiftl 1 line) else None.
Definition pic_mask_irq (irq_number : Z) : driver unit :=
  let '(port, line) := pic_line irq_number in
  value ← port_read_8 port;
  bit ← certainly (pic_bit line);
  port_write_8 port (Z.lor value bit).
Definition pic_unmask_irq (irq_number : Z) : driver unit :=
  let '(port, line) := pic_line irq_number in
  value ← port_read_8 port;
  bit ← certainly (pic_bit line);
  port_write_8 port (Z.ldiff value bit);;
  port_read_8 PIC_MASTER_DATA;;
  port_read_8 PIC_SLAVE_DATA;;
  mret tt.

(** ** The 8254 timer *)

Definition CLOCK_RATE : Z := 1193182.
Definition PIT_CHANNEL_0 : Z := 0x40.
Definition PIT_COMMAND_REGISTER : Z := 0x43.

(** A division by 0 is undefined. *)
Definition pit_configure_cycle (hz : Z) : driver hal_result :=
  divisor ← certainly (if hz =? 0 then None else Some (CLOCK_RATE / hz));
  port_write_8 PIT_COMMAND_REGISTER 0x36;;
  port_write_8 PIT_CHANNEL_0 (Z.land divisor 0xEF);;
  port_write_8 PIT_CHANNEL_0 (Z.shiftr divisor 8);;
  bus_ok.
Definition pit_init : driver hal_result :=
  pit_configure_cycle 100;;
  pic_unmask_irq 0;;
  pic_unmask_irq 4;;
  bus_ok.

End platform.

(** * Properties

    The PM timer: a wait ends, and not before its time. *)

(** The register of the timer, and what a read of it means after a log. *)
Definition timer_access (t : acpi_pm_timer) : bus_access :=
  if is_mmio t then MMIO (pm_register t) else PORT (Z.land (pm_register t) 0xFFFF) 32.

Record timer_ready (t : acpi_pm_timer) : Prop := {
  timer_present : pm_register t ≠ 0;
  timer_width : bits t = 24 ∨ bits t = 32;
}.

Section timer.
Context `{bus_device}.

Definition counter (t : acpi_pm_timer) (log : list bus_event) : Z :=
  device_read log (timer_access t) mod 2 ^ bits t.
(** The ticks between the reads that ended two logs, on the counter's circle. *)
Definition elapsed (t : acpi_pm_timer) (log log' : list bus_event) : Z :=
  (counter t log' - counter t log) mod 2 ^ bits t.
Definition timer_reads (t : acpi_pm_timer) (n : nat) : list bus_event := replicate n (BUS_READ (timer_access t)).

(** A running timer moves between two reads that follow each other, by at most
    [step] ticks. *)
Definition ticking (t : acpi_pm_timer) (step : Z) : Prop :=
  ∀ log, 1 ≤ elapsed t log (log ++ [BUS_READ (timer_access t)]) ≤ step.

Lemma land_pm_mask t x : timer_ready t → Z.land x (pm_mask t) = x mod 2 ^ bits t.
Proof.
  intros [_ [Hb | Hb]]; unfold pm_mask; rewrite Hb.
  - change (if 24 <? 32 then Z.shiftl 1 24 - 1 else 0xFFFFFFFF) with (Z.ones 24). by rewrite Z.land_ones.
  - change (if 32 <? 32 then Z.shiftl 1 32 - 1 else 0xFFFFFFFF) with (Z.ones 32). by rewrite Z.land_ones.
Qed.

Lemma wrap32_mod t x : timer_ready t → wrap32 x mod 2 ^ bits t = x mod 2 ^ bits t.
Proof.
  intros [_ [-> | ->]]; unfold wrap32; [|by rewrite Z.mod_mod].
  apply Z.mod_mod_divide. by exists (2 ^ 8).
Qed.

Lemma pm_timer_read_spec t Q g log :
  acpi_pm_timer_core g = t → timer_ready t →
  Q (Ok (counter t log)) g (log ++ [BUS_READ (timer_access t)]) → dwp pm_timer_read Q g log.
Proof.
  intros Ht Hr HQ. unfold pm_timer_read. dwp_steps. rewrite Ht.
  rewrite (proj2 (Z.eqb_neq _ 0)) by apply Hr. dwp_step.
  unfold counter, timer_access in *. destruct (is_mmio t); unfold port_read_32; dwp_steps;
    by rewrite land_pm_mask, wrap32_mod by done.
Qed.

Lemma timer_reads_snoc t n log : log ++ timer_reads t (S n) = (log ++ timer_reads t n) ++ [BUS_READ (timer_access t)].
Proof. unfold timer_reads. by rewrite replicate_S_end, app_assoc. Qed.

Lemma bits_pos t : timer_ready t → 0 < 2 ^ bits t.
Proof. intros [_ [-> | ->]]; lia. Qed.

Lemma elapsed_step t step log n ticks :
  timer_ready t → ticking t step → 0 ≤ ticks → ticks + step ≤ 2 ^ bits t →
  (elapsed t log (log ++ timer_reads t n) < ticks ∨ n = 0%nat) →
  Z.of_nat n ≤ elapsed t log (log ++ timer_reads t n) →
  Z.of_nat (S n) ≤ elapsed t log (log ++ timer_reads t (S n)).
Proof.
  intros Hr Ht H0 Hs Hlt Hn. specialize (Ht (log ++ timer_reads t n)). rewrite <- timer_reads_snoc in Ht.
  pose proof (bits_pos t Hr) as Hb. unfold elapsed in *.
  set (M := 2 ^ bits t) in *. set (c := counter t log) in *.
  set (c0 := counter t (log ++ timer_reads t n)) in *. set (c1 := counter t (log ++ timer_reads t (S n))) in *.
  assert (Hc : (c1 - c) mod M = ((c0 - c) mod M + (c1 - c0) mod M) mod M).
  { rewrite <- Z.add_mod by lia. f_equal. lia. }
  assert (Hz : n = 0%nat → c0 = c). { intros ->. unfold c0, timer_reads. cbn. by rewrite app_nil_r. }
  clearbody M c c0 c1. rewrite Hc, Z.mod_small; [lia|]. split; [lia|].
  destruct Hlt as [Hlt|Hn0]; [lia|]. specialize (Hz Hn0) as ->. rewrite Z.sub_diag, Z.mod_0_l by lia.
  pose proof (Z.mod_pos_bound (c1 - c) M Hb). lia.
Qed.

Lemma pm_wait_loop_spec t step ticks fuel n (Q : hal_result → hal_globals → list bus_event → Prop) g log :
  acpi_pm_timer_core g = t → timer_ready t → ticking t step → 0 ≤ ticks → ticks + step ≤ 2 ^ bits t →
  (elapsed t log (log ++ timer_reads t n) < ticks ∨ n = 0%nat) →
  Z.of_nat n ≤ elapsed t log (log ++ timer_reads t n) →
  Z.max 1 ticks - Z.of_nat n ≤ Z.of_nat fuel → (0 < fuel)%nat →
  (∀ n', ticks ≤ elapsed t log (log ++ timer_reads t n') → (n < n')%nat → Z.of_nat n' ≤ Z.max 1 ticks →
     Q (Ok tt) g (log ++ timer_reads t (S n'))) →
  dwp (pm_wait_loop fuel (counter t log) ticks) Q g (log ++ timer_reads t (S n)).
Proof.
  intros Hg Hr Ht H0 Hs. revert n. induction fuel as [|fuel IH]; intros n Hlt Hn Hf Hpos HQ; [lia|].
  cbn [pm_wait_loop]. dwp_steps. eapply pm_timer_read_spec; [done..|].
  rewrite Hg, land_pm_mask, wrap32_mod by done. cbn beta iota.
  rewrite <- timer_reads_snoc. fold (elapsed t log (log ++ timer_reads t (S n))).
  pose proof (elapsed_step t step log n ticks Hr Ht H0 Hs Hlt Hn) as Hn'.
  assert (Z.of_nat n < Z.max 1 ticks) by (destruct Hlt; lia).
  destruct (Z.leb_spec ticks (elapsed t log (log ++ timer_reads t (S n)))) as [Hle|Hgt].
  - apply dwp_ret. apply HQ; lia.
  - apply IH; [by left|done|lia|lia|]. intros n' ? ? ?. apply HQ; [done|lia|done].
Qed.

Lemma pm_ticks_bound t step us :
  0 ≤ us → 0 ≤ step → timer_ready t → us * TIMER_FREQUENCY / 1000000 + step ≤ 2 ^ bits t →
  0 ≤ us * TIMER_FREQUENCY / 1000000 ∧ (1 ≤ step →
    pm_ticks us = Some (us * TIMER_FREQUENCY / 1000000) ∧
    Z.land (us * TIMER_FREQUENCY / 1000000) (pm_mask t) = us * TIMER_FREQUENCY / 1000000).
Proof.
  intros Hus Hstep Hr Hs. assert (0 ≤ us * TIMER_FREQUENCY / 1000000).
  { apply Z.div_pos; [|lia]. unfold TIMER_FREQUENCY. lia. }
  split; [done|]. intros H1. unfold pm_ticks. rewrite land_pm_mask by done. split.
  - rewrite (proj2 (Z.ltb_lt _ _)); [done|]. destruct Hr as [_ [Hb|Hb]]; rewrite Hb in Hs; lia.
  - rewrite Z.mod_small; lia.
Qed.

Lemma pm_timer_wait_spec t step us fuel (Q : hal_result → hal_globals → list bus_event → Prop) g log :
  acpi_pm_timer_core g = t → timer_ready t → ticking t step → 0 ≤ us →
  us * TIMER_FREQUENCY / 1000000 + step ≤ 2 ^ bits t →
  Z.max 1 (us * TIMER_FREQUENCY / 1000000) ≤ Z.of_nat fuel →
  (∀ n, us * TIMER_FREQUENCY / 1000000 ≤ elapsed t log (log ++ timer_reads t n) →
     Z.of_nat n ≤ Z.max 1 (us * TIMER_FREQUENCY / 1000000) → Q (Ok tt) g (log ++ timer_reads t (S n))) →
  dwp (pm_timer_wait fuel us) Q g log.
Proof.
  intros Hg Hr Ht Hus Hs Hf HQ. pose proof (Ht log) as H1.
  destruct (pm_ticks_bound t step us Hus ltac:(lia) Hr Hs) as [H0 Hticks].
  destruct Hticks as [Hticks Hmask]; [lia|].
  unfold pm_timer_wait. dwp_steps. eapply pm_timer_read_spec; [done..|]. cbn beta iota.
  dwp_steps. eapply dwp_certainly; [exact Hticks|]. rewrite Hg, Hmask.
  change (log ++ [BUS_READ (timer_access t)]) with (log ++ timer_reads t 1).
  assert (Hz : elapsed t log (log ++ timer_reads t 0) = 0).
  { unfold elapsed, timer_reads. cbn [replicate]. rewrite app_nil_r, Z.sub_diag. apply Z.mod_0_l.
    pose proof (bits_pos t Hr). lia. }
  eapply (pm_wait_loop_spec t step); [done..|by right|lia|lia|lia|]. intros n' ? ? ?. by apply HQ.
Qed.

(** A wait on the PM timer ends, and not early.  If the timer is there and moves
    between two reads by at least one tick and at most [step], where [step] leaves
    room for the ticks of the wait on the 24- or 32-bit counter, then [wait] succeeds
    after at most as many reads as it waits ticks (one more read takes the start
    time), it does nothing but read the timer, and between the first read and the
    last one the timer has moved by the ticks of [micro_seconds] at 3.579545 MHz,
    also when the counter wrapped around in between. *)
Theorem pm_timer_wait_elapses t step us fuel g log :
  acpi_pm_timer_core g = t → timer_ready t → ticking t step → 0 ≤ us →
  us * TIMER_FREQUENCY / 1000000 + step ≤ 2 ^ bits t →
  Z.max 1 (us * TIMER_FREQUENCY / 1000000) ≤ Z.of_nat fuel →
  dwp (pm_timer_wait fuel us)
    (λ r g' log', r = Ok tt ∧ g' = g ∧
       ∃ n, log' = log ++ timer_reads t (S n) ∧ Z.of_nat n ≤ Z.max 1 (us * TIMER_FREQUENCY / 1000000) ∧
         us * TIMER_FREQUENCY / 1000000 ≤ elapsed t log (log ++ timer_reads t n)) g log.
Proof.
  intros Hg Hr Ht Hus Hs Hf. eapply pm_timer_wait_spec; [done..|].
  intros n He Hn. split; [done|]. split; [done|]. by exists n.
Qed.

End timer.

(** ** A timer that counts the accesses, close to its end *)

Definition example_device : bus_device := λ log a,
  match a with
  | PORT 0x608 32 => 0xFFFFF0 + Z.of_nat (length log)
  | _ => 0
  end.
Definition example_timer : acpi_pm_timer := MkPmTimer false 0x608 24.

Lemma example_timer_ready : timer_ready example_timer.
Proof. split; [done|by left]. Qed.
Lemma example_ticking : ticking (H := example_device) example_timer 1.
Proof.
  intros log. unfold elapsed, counter. cbn [timer_access example_timer is_mmio pm_register bits].
  change (Z.land 0x608 0xFFFF) with 0x608. unfold device_read, example_device.
  rewrite length_app. cbn [length]. rewrite <- Zminus_mod.
  replace (_ - _) with 1 by lia. by vm_compute.
Qed.

Lemma pm_timer_wait_elapses_witness :
  dwp (pm_timer_wait (H := example_device) 100 20)
    (λ r g' log', r = Ok tt ∧ g' = (initial_globals ∅) <| acpi_pm_timer_core := example_timer |> ∧
       ∃ n, log' = [] ++ timer_reads example_timer (S n) ∧ Z.of_nat n ≤ Z.max 1 (20 * TIMER_FREQUENCY / 1000000) ∧
         20 * TIMER_FREQUENCY / 1000000 ≤ elapsed (H := example_device) example_timer [] ([] ++ timer_reads example_timer n))
    ((initial_globals ∅) <| acpi_pm_timer_core := example_timer |>) [] ∧
  20 * TIMER_FREQUENCY / 1000000 = 71.
Proof.
  split; [|reflexivity].
  apply (pm_timer_wait_elapses (H := example_device) example_timer 1 20 100);
    [reflexivity|apply example_timer_ready|apply example_ticking|lia|by vm_compute|by vm_compute].
Defined.
