(* ===== verification/Apic.v ===== *)
(** Interrupt routing on x86-64: the I/O APIC (src/src/hal/x86_64/interrupt/apic.cpp,
    apic.hpp), the inter-processor interrupts and the interface of the HAL for
    masking and completing interrupts (src/src/hal/x86_64/interrupt/interrupt.cpp),
    and the start of the other processors ([init_sub_cores] of
    src/src/hal/x86_64/arch/arch_initializer.cpp). *)

From S2P Require Import Prelude Word Types Kernel MemoryTypes Devices CString Bus Acpi Platform.
Import local_apic_offset.

(** ** The I/O APIC *)

Module io_apic_register_index.
Definition VERSION : Z := 0x01.
Definition REDIRECTION_TABLE : Z := 0x10.
End io_apic_register_index.
Import io_apic_register_index.

Definition REGISTER_SELECT : Z := 0x00.
Definition REGISTER_WINDOW : Z := 0x10.

(** The enumerations of a redirection entry; the modes are the numbers of the
    source. *)
Module DELIVERY_MODE.
Definition FIXED : Z := 0.
Definition LOWEST_PRIORITY : Z := 1.
Definition SYSTEM_MANAGEMENT_INTERRUPT : Z := 2.
Definition NON_MASKABLE_INTERRUPT : Z := 4.
Definition INIT : Z := 5.
Definition EXTERNAL_INTERRUPT : Z := 7.
End DELIVERY_MODE.
Definition PHYSICAL : bool := false.
Definition IDLE : bool := false.
Definition ACTIVE_HIGH : bool := false.
Definition ACTIVE_LOW : bool := true.
Definition EDGE : bool := false.
Definition LEVEL : bool := true.
Definition UNMASKED : bool := false.
Definition MASKED : bool := true.

Definition make_redirect_entry (vector delivery_mode : Z)
    (destination_mode delivery_status pin_polarity trigger_mode mask : bool) (destination : Z) : Z :=
  Z.lor (Z.lor (Z.lor (Z.lor (Z.lor (Z.lor (Z.lor (Z.shiftl vector 0) (Z.shiftl delivery_mode 8))
    (Z.shiftl (Z.b2z destination_mode) 11))
    (Z.shiftl (Z.b2z delivery_status) 12))
    (Z.shiftl (Z.b2z pin_polarity) 13))
    (Z.shiftl (Z.b2z trigger_mode) 15)) (Z.shiftl (Z.b2z mask) 16))
    (Z.shiftl destination 56).

(** The body of the loop of [configure_from_madt]: [entry] is the address of an
    entry. *)
Definition io_apic_action (m : byte_memory) (type : madt_entry_type) (entry : Z) (a : io_apic)
    : option io_apic :=
  match type with
  | IO_APIC =>
      id ← load_u8 m (entry + 2);
      address ← load_u32 m (entry + 4);
      base ← load_u32 m (entry + 8);
      Some (a <| io_apic_id := id |> <| base_address := address |> <| global_interrupt_base := base |>)
  | INTERRUPT_SOURCE_OVERRIDE =>
      irq ← load_u8 m (entry + 3);
      if irq <? 16 then
        gsi ← load_u32 m (entry + 4);
        flags ← load_u16 m (entry + 8);
        Some (a <| interrupt_source_overrides ::= <[Z.to_nat irq := MkOverride true irq gsi flags]> |>)
      else Some a
  | _ => Some a
  end.

Definition update_io_apic (f : io_apic → io_apic) : D hal_globals unit :=
  set_objects (λ g, g <| io_apic_core ::= f |>).

Definition configure_from_madt (madt : Z) : driver hal_result :=
  if madt =? 0 then bus_fail HE_ILLEGAL_ARGUMENT
  else
    m ← objects hal_memory;
    a ← objects io_apic_core;
    a' ← madt_entries m madt (io_apic_action m) a;
    update_io_apic (λ _, a');;
    bus_ok.

Definition io_apic_configure_registers : driver hal_result :=
  a ← objects io_apic_core;
  let io_apic_base := physical_to_virtual_address (base_address a) in
  if io_apic_base =? 0 then bus_fail HE_NO_SUCH_ADDRESS
  else
    update_io_apic (λ a, a <| register_select := io_apic_base + REGISTER_SELECT |>
                           <| window := io_apic_base + REGISTER_WINDOW |>);;
    bus_ok.

Definition resolve_global_system_interrupt (a : io_apic) (irq_number : Z) : Z :=
  if irq_number <? 16 then
    match interrupt_source_overrides a !! Z.to_nat irq_number with
    | Some o => if override_valid o then override_global_system_interrupt o else irq_number
    | None => irq_number
    end
  else irq_number.

Definition resolve_interrupt_flags (a : io_apic) (irq_number : Z) : Z :=
  let default := if (16 <=? irq_number) && (irq_number <=? 23) then 0x0f else 0 in
  if irq_number <? 16 then
    match interrupt_source_overrides a !! Z.to_nat irq_number with
    | Some o => if override_valid o then override_flags o else default
    | None => default
    end
  else default.

(** [ipi_delivery_mode] of interrupt.hpp *)
Definition IPI_MODE_FIXED : Z := 0x00.
Definition IPI_MODE_INIT : Z := 0x05.
Definition IPI_MODE_STARTUP : Z := 0x06.

(** Symbols of the linker script and of the start-up code. *)
Record trampoline := MkTrampoline {
  boot_ap_trampoline_original_start : Z;
  boot_ap_trampoline_start : Z;
  boot_ap_trampoline_end : Z;
  boot_ap_trampoline_gdtr : Z;
  boot_ap_gdt_start : Z;
  boot_ap_gdt_end : Z;
}.

Section apic.
Context `{bus_device} `{config}.

Definition io_apic_read (io_apic_register : Z) : driver (result Z hal_error) :=
  a ← objects io_apic_core;
  if (register_select a =? 0) || (window a =? 0) then bus_fail HE_NO_SUCH_ADDRESS
  else
    bus_write (MMIO (register_select a)) io_apic_register;;
    v ← bus_read (MMIO (window a));
    mret (Ok (wrap32 v)).

Definition io_apic_write (io_apic_register value : Z) : driver hal_result :=
  a ← objects io_apic_core;
  if (register_select a =? 0) || (window a =? 0) then bus_fail HE_NO_SUCH_ADDRESS
  else
    bus_write (MMIO (register_select a)) io_apic_register;;
    bus_write (MMIO (window a)) value;;
    bus_ok.

Definition configure_entry (irq_number data : Z) : driver hal_result :=
  let io_apic_register := REDIRECTION_TABLE + irq_number * 2 in
  let! _ := io_apic_write io_apic_register (Z.land data 0xFFFFFFFF) in
  io_apic_write (io_apic_register + 1) (Z.land (Z.shiftr data 32) 0xFFFFFFFF).

(** The entry [configure_irq] writes for an IRQ. *)
Definition irq_redirect_entry (a : io_apic) (irq_number : Z) (mask : bool) : Z :=
  let flags := resolve_interrupt_flags a irq_number in
  let polarity_bits := Z.land flags 0x3 in
  let trigger_bits := Z.land (Z.shiftr flags 2) 0x3 in
  let pin_polarity := if polarity_bits =? 0x3 then ACTIVE_LOW else ACTIVE_HIGH in
  let trigger_mode := if trigger_bits =? 0x3 then LEVEL else EDGE in
  let vector := wrap8 (IO_BASE + irq_number) in
  make_redirect_entry vector DELIVERY_MODE.FIXED PHYSICAL IDLE pin_polarity trigger_mode mask 0.

Definition configure_irq (irq_number : Z) (mask : bool) : driver hal_result :=
  a ← objects io_apic_core;
  let global_system_interrupt := resolve_global_system_interrupt a irq_number in
  if global_system_interrupt <? global_interrupt_base a then bus_fail HE_ILLEGAL_ARGUMENT
  else
    let io_apic_pin := global_system_interrupt - global_interrupt_base a in
    configure_entry (wrap8 io_apic_pin) (irq_redirect_entry a irq_number mask).

Definition io_apic_disable_interrupt (irq_number : Z) : driver hal_result := configure_irq irq_number MASKED.
Definition io_apic_enable_interrupt (irq_number : Z) : driver hal_result :=
  if IPI_HALT <=? IO_BASE + irq_number then bus_fail HE_ILLEGAL_ARGUMENT
  else configure_irq irq_number UNMASKED.

(** [for (irq_number = 0; irq_number < max; irq_number++)], until the first error. *)
Fixpoint for_irqs (turns : nat) (irq_number : Z) (f : Z → driver hal_result) : driver hal_result :=
  match turns with
  | O => bus_ok
  | S turns' => let! _ := f irq_number in for_irqs turns' (irq_number + 1) f
  end.

(** The number of entries is cut to 8 bits. *)
Definition max_redirection_entries (version : Z) : Z := wrap8 (Z.land (Z.shiftr version 16) 0xFF + 1).
Definition io_apic_disable_interrupt_all : driver hal_result :=
  let! version := io_apic_read VERSION in
  for_irqs (Z.to_nat (max_redirection_entries version)) 0 io_apic_disable_interrupt.
Definition io_apic_enable_interrupt_all : driver hal_result :=
  let! version := io_apic_read VERSION in
  for_irqs (Z.to_nat (max_redirection_entries version)) 0 io_apic_enable_interrupt.

Definition io_apic_init (madt : Z) : driver hal_result :=
  let! _ := configure_from_madt madt in
  let! _ := io_apic_configure_registers in
  let! _ := io_apic_disable_interrupt_all in
  end_of_interrupt.

(** ** interrupt.cpp: the interface *)

Definition x86_64_enable_interrupt (irq_number : Z) : driver hal_result :=
  if 256 <=? irq_number then bus_fail HE_ILLEGAL_ARGUMENT else io_apic_enable_interrupt irq_number.
Definition x86_64_disable_interrupt (irq_number : Z) : driver hal_result :=
  if 256 <=? irq_number then bus_fail HE_ILLEGAL_ARGUMENT else io_apic_disable_interrupt irq_number.
Definition x86_64_enable_interrupt_all : driver hal_result := io_apic_enable_interrupt_all.
Definition x86_64_disable_interrupt_all : driver hal_result := io_apic_disable_interrupt_all.
Definition x86_64_ack_interrupt : driver hal_result := end_of_interrupt.

(** ** Inter-processor interrupts *)

Definition NO_SHORTHAND : Z := 0x00.
Definition TRIGGER_EDGE : Z := 0.
Definition TRIGGER_LEVEL : Z := 1.
Definition DEASSERT : Z := 0.
Definition ASSERT : Z := 1.

Definition make_icr_high (receiver_cpu : Z) : Z := wrap32 (Z.shiftl receiver_cpu 24).
Definition make_icr_low (vector mode shorthand trigger_mode level_state : Z) : Z :=
  Z.lor (Z.lor (Z.lor (Z.lor (Z.shiftl (Z.land shorthand 0x03) 18) (Z.shiftl (Z.land mode 0x07) 8))
    (Z.shiftl (Z.land level_state 0x01) 14)) (Z.shiftl (Z.land trigger_mode 0x01) 15))
    (Z.land vector 0xFF).

Section waiting.
(** The reads of the PM timer before a wait is given up. *)
Context (fuel : nat).

(** [turns] is [TIMEOUT_MSEC - elapsed_msec].  An error of the timer is dropped. *)
Fixpoint ipi_wait_loop (turns : nat) : driver hal_result :=
  match turns with
  | O => bus_fail HE_TIMEOUT
  | S turns' =>
      icr ← local_apic_read ICR_LOW;
      let icr_low := match icr with Ok v => v | Err _ => 0 end in
      if Z.land icr_low (Z.shiftl 1 12) =? 0 then bus_ok
      else pm_timer_wait fuel 1000;; ipi_wait_loop turns'
  end.
Definition ipi_wait : driver hal_result := ipi_wait_loop 100.

Definition ipi (vector mode shorthand receiver_cpu trigger_mode level_state : Z) : driver hal_result :=
  let! _ := local_apic_write ICR_HIGH (make_icr_high receiver_cpu) in
  let! _ := local_apic_write ICR_LOW (make_icr_low vector mode shorthand trigger_mode level_state) in
  ipi_wait.

Definition ipi_init (receiver_cpu : Z) : driver hal_result :=
  let! _ := ipi 0 IPI_MODE_INIT NO_SHORTHAND receiver_cpu TRIGGER_LEVEL ASSERT in
  let! _ := pm_timer_wait fuel 100 in
  ipi 0 IPI_MODE_INIT NO_SHORTHAND receiver_cpu TRIGGER_LEVEL DEASSERT.

Definition ipi_startup (trampoline_address receiver_cpu : Z) : driver hal_result :=
  if negb (trampoline_address mod PAGE_SIZE =? 0) then bus_fail HE_ILLEGAL_ARGUMENT
  else if 4096 * 255 <? trampoline_address then bus_fail HE_ILLEGAL_ARGUMENT
  else
    ipi (wrap8 (Z.shiftr trampoline_address 12)) IPI_MODE_STARTUP NO_SHORTHAND receiver_cpu
      TRIGGER_EDGE ASSERT.

Definition IPI_RESCHEDULE_VECTOR : Z := if SMP_ENABLED then 0xF1 else 0x49.
Definition IPI_INVALIDATE_TLB_VECTOR : Z := if SMP_ENABLED then 0xF2 else 0x4A.
Definition raw_ipi_type (type : ipi_type) : Z :=
  match type with IPI_RESCHEDULE => 0 | IPI_INVALIDATE_TLB => 1 end.

(** An array access out of range is undefined. *)
Definition x86_64_send_ipi (type : ipi_type) (core_number : Z) : driver hal_result :=
  g ← objects core_apic_ids;
  apic_id ← certainly (if 0 <=? core_number then g !! Z.to_nat core_number else None);
  ipi (wrap8 (IPI_RESCHEDULE_VECTOR + raw_ipi_type type)) IPI_MODE_FIXED NO_SHORTHAND
    (wrap8 apic_id) TRIGGER_EDGE ASSERT.

(** ** Starting the other processors *)

(** The bytes of an integer, the least significant first. *)
Fixpoint store_bytes (m : byte_memory) (size : nat) (address value : Z) : option byte_memory :=
  match size with
  | O => Some m
  | S size' => m' ← write_byte m address value; store_bytes m' size' (address + 1) (Z.shiftr value 8)
  end.

(** The start-up code and the descriptor of its segment table. *)
Definition copy_trampoline (t : trampoline) (m : byte_memory) : option byte_memory :=
  let size := wsub (boot_ap_trampoline_end t) (boot_ap_trampoline_start t) in
  let gdt_size := wsub (boot_ap_gdt_end t) (boot_ap_gdt_start t) in
  m1 ← memcpy m (physical_to_virtual_address (boot_ap_trampoline_start t))
         (physical_to_virtual_address (boot_ap_trampoline_original_start t)) size;
  m2 ← store_bytes m1 2 (physical_to_virtual_address (boot_ap_trampoline_gdtr t)) (wrap16 (gdt_size - 1));
  store_bytes m2 8 (physical_to_virtual_address (boot_ap_trampoline_gdtr t + 2)) (boot_ap_gdt_start t).

(** INIT, 10 ms, SIPI, 200 us, SIPI, 1 ms. *)
Definition start_core (trampoline_start apic_id : Z) : driver hal_result :=
  let! _ := ipi_init (wrap8 apic_id) in
  let! _ := pm_timer_wait fuel 10000 in
  let! _ := ipi_startup trampoline_start (wrap8 apic_id) in
  let! _ := pm_timer_wait fuel 200 in
  let! _ := ipi_startup trampoline_start (wrap8 apic_id) in
  pm_timer_wait fuel 1000.

(** The loop over the enabled processors; the answer is the number of cores
    that were started, the boot processor included. *)
Fixpoint start_cores (trampoline_start bsp_apic_id : Z) (ids : list Z) (activated_cpu_count : Z)
    : driver (result Z hal_error) :=
  match ids with
  | [] => mret (Ok activated_cpu_count)
  | id :: ids' =>
      if CPU_COUNT_MAX <=? activated_cpu_count then mret (Ok activated_cpu_count)
      else if id =? bsp_apic_id then start_cores trampoline_start bsp_apic_id ids' activated_cpu_count
      else if CPU_COUNT_MAX <=? id then bus_fail HE_UNSUPPORTED
      else
        let! _ := start_core trampoline_start id in
        start_cores trampoline_start bsp_apic_id ids' (activated_cpu_count + 1)
  end.

Definition init_sub_cores (t : trampoline) : driver hal_result :=
  m ← objects hal_memory;
  m' ← certainly (copy_trampoline t m);
  set_objects (λ g, g <| hal_memory := m' |>);;
  set_objects (λ g, g <| smp_info_core := [] |>);;
  acpi ← objects acpi_core;
  let! ids := create_smp_info m' acpi in
  set_objects (λ g, g <| smp_info_core := ids |>);;
  if (length ids <=? 1)%nat then bus_fail HE_UNSUPPORTED
  else
    let! bsp_apic_id := local_apic_id in
    let! activated := start_cores (boot_ap_trampoline_start t) bsp_apic_id ids 1 in
    set_objects (λ g, g <| expected_cores := activated |>);;
    bus_ok.

End waiting.
End apic.
