(* ===== verification/AcpiProofs.v ===== *)
(** The MADT is read as it was written: the loops over its entries see the entries
    of the table, in order, and end.  An entry of length 0, which no such table has,
    holds them forever. *)

From S2P Require Import Prelude Word Types Kernel MemoryTypes CString Bus Acpi Platform Apic.

(** ** Bytes in memory *)

Definition table_at (m : byte_memory) (address : Z) (l : list Z) : Prop :=
  ∀ i b, l !! i = Some b → m !! (address + Z.of_nat i) = Some b.

(** The bytes of an integer, the least significant first. *)
Fixpoint little_endian (size : nat) (v : Z) : list Z :=
  match size with
  | O => []
  | S size' => v mod 256 :: little_endian size' (v / 256)
  end.

Lemma length_little_endian size v : length (little_endian size v) = size.
Proof. revert v. induction size as [|size IH]; intros v; cbn; [done|by rewrite IH]. Qed.

Lemma table_at_nil m a : table_at m a [].
Proof. by intros i b. Qed.
Lemma table_at_cons m a b l : table_at m a (b :: l) ↔ m !! a = Some b ∧ table_at m (a + 1) l.
Proof.
  split.
  - intros Hm. split; [by rewrite <- (Hm 0%nat b eq_refl), Z.add_0_r|].
    intros i c Hi. rewrite <- (Hm (S i) c Hi). f_equal. lia.
  - intros [Hb Hm] [|i] c Hi; [injection Hi as <-; by rewrite Z.add_0_r|].
    rewrite <- (Hm i c Hi). f_equal. lia.
Qed.
Lemma table_at_app m a l1 l2 :
  table_at m a (l1 ++ l2) ↔ table_at m a l1 ∧ table_at m (a + Z.of_nat (length l1)) l2.
Proof.
  revert a. induction l1 as [|b l1 IH]; intros a; cbn [app length].
  - rewrite Z.add_0_r. split; [intros; split; [apply table_at_nil|done]|tauto].
  - rewrite !table_at_cons, IH, Nat2Z.inj_succ, <- Z.add_1_l, Z.add_assoc. tauto.
Qed.

Lemma load_bytes_at m size a v :
  table_at m a (little_endian size v) → 0 ≤ v < 256 ^ Z.of_nat size → load_bytes m size a = Some v.
Proof.
  revert a v. induction size as [|size IH]; intros a v Hm Hv; cbn [load_bytes little_endian] in *.
  { f_equal. cbn in Hv. lia. }
  apply table_at_cons in Hm as [Hb Hm]. rewrite Nat2Z.inj_succ, Z.pow_succ_r in Hv by lia.
  assert (Hb' : m !! a = Some (v mod 256)) by done. rewrite Hb'. cbn [mbind option_bind].
  rewrite (IH _ (v / 256) Hm).
  - cbn [mbind option_bind]. f_equal. pose proof (Z.div_mod v 256). lia.
  - split; [apply Z.div_pos; lia|]. apply Z.div_lt_upper_bound; lia.
Qed.

(** ** A MADT as ACPI describes it *)

Inductive madt_entry :=
| ME_LOCAL_APIC (processor_id apic_id flags : Z)
| ME_IO_APIC (id address interrupt_base : Z)
| ME_OVERRIDE (bus irq global_system_interrupt flags : Z)
| ME_X2APIC (apic_id flags processor_id : Z)
| ME_OTHER (type : Z) (body : list Z).

Definition madt_entry_bytes (e : madt_entry) : list Z :=
  match e with
  | ME_LOCAL_APIC processor id flags => [0; 8; processor; id] ++ little_endian 4 flags
  | ME_IO_APIC id address base =>
      [1; 12; id; 0] ++ little_endian 4 address ++ little_endian 4 base
  | ME_OVERRIDE bus irq gsi flags => [2; 10; bus; irq] ++ little_endian 4 gsi ++ little_endian 2 flags
  | ME_X2APIC id flags processor =>
      [9; 16; 0; 0] ++ little_endian 4 id ++ little_endian 4 flags ++ little_endian 4 processor
  | ME_OTHER type body => [type; 2 + Z.of_nat (length body)] ++ body
  end.

Definition byte (v : Z) : Prop := 0 ≤ v < 256.
Definition madt_entry_valid (e : madt_entry) : Prop :=
  match e with
  | ME_LOCAL_APIC processor id flags => byte processor ∧ byte id ∧ 0 ≤ flags < 2 ^ 32
  | ME_IO_APIC id address base => byte id ∧ 0 ≤ address < 2 ^ 32 ∧ 0 ≤ base < 2 ^ 32
  | ME_OVERRIDE bus irq gsi flags => byte bus ∧ byte irq ∧ 0 ≤ gsi < 2 ^ 32 ∧ 0 ≤ flags < 2 ^ 16
  | ME_X2APIC id flags processor => 0 ≤ id < 2 ^ 32 ∧ 0 ≤ flags < 2 ^ 32 ∧ 0 ≤ processor < 2 ^ 32
  | ME_OTHER type body => byte type ∧ madt_entry_type_of type = MADT_OTHER ∧ (length body ≤ 253)%nat
  end.

Definition madt_bytes (entries : list madt_entry) : list Z := flat_map madt_entry_bytes entries.

(** The table at [madt]: its length field and its entries. *)
Record madt_at (m : byte_memory) (madt : Z) (entries : list madt_entry) : Prop := {
  madt_valid : Forall madt_entry_valid entries;
  madt_length_field :
    sdt_length m madt = Some (SIZEOF_MADT + Z.of_nat (length (madt_bytes entries)));
  madt_content : table_at m (madt + SIZEOF_MADT) (madt_bytes entries);
}.

(** What each loop makes of an entry. *)
Definition io_apic_entry (a : io_apic) (e : madt_entry) : io_apic :=
  match e with
  | ME_IO_APIC id address base =>
      a <| io_apic_id := id |> <| base_address := address |> <| global_interrupt_base := base |>
  | ME_OVERRIDE _ irq gsi flags =>
      if irq <? 16 then
        a <| interrupt_source_overrides ::= <[Z.to_nat irq := MkOverride true irq gsi flags]> |>
      else a
  | _ => a
  end.

Definition enabled_processor (e : madt_entry) : list Z :=
  match e with
  | ME_LOCAL_APIC _ id flags | ME_X2APIC id flags _ => if Z.odd flags then [id] else []
  | _ => []
  end.
(** The processors the firmware lists as enabled; 64 are used. *)
Definition enabled_processors (entries : list madt_entry) : list Z :=
  take SMP_CPU_COUNT_MAX (flat_map enabled_processor entries).

(** ** The loops *)

Lemma madt_entry_length e :
  madt_entry_valid e → ∃ type tail,
    madt_entry_bytes e = type :: Z.of_nat (length (madt_entry_bytes e)) :: tail ∧
    0 ≤ type < 256 ∧ 0 ≤ Z.of_nat (length (madt_entry_bytes e)) < 256.
Proof.
  destruct e; cbn [madt_entry_bytes madt_entry_valid]; unfold byte; intros Hv;
    rewrite ?length_app, ?length_little_endian; cbn [length]; eexists _, _;
    (split; [cbn; f_equal; f_equal; lia|lia]).
Qed.

(** One turn reads one entry. *)
Lemma madt_walk_entries {Obj A} (m : byte_memory) (action : madt_entry_type → Z → A → option A)
    (f : A → madt_entry → A) entries fuel pointer a (Q : A → Obj → list bus_event → Prop) g log :
  (∀ e p s, madt_entry_valid e → table_at m p (madt_entry_bytes e) →
     ∃ t, load_u8 m p = Some t ∧ action (madt_entry_type_of t) p s = Some (f s e)) →
  Forall madt_entry_valid entries → table_at m pointer (madt_bytes entries) →
  (length entries ≤ fuel)%nat → Q (fold_left f entries a) g log →
  dwp (madt_walk m action fuel pointer (pointer + Z.of_nat (length (madt_bytes entries))) a) Q g log.
Proof.
  intros Haction. revert fuel pointer a.
  induction entries as [|e entries IH]; intros fuel pointer a Hv Hm Hf HQ.
  { cbn [madt_bytes flat_map length]. destruct fuel; cbn [madt_walk];
      rewrite (proj2 (Z.leb_le _ _)) by lia; by apply dwp_ret. }
  apply Forall_cons_1 in Hv as [He Hv]. unfold madt_bytes in *. cbn [flat_map] in *.
  apply table_at_app in Hm as [Hme Hm].
  destruct (madt_entry_length e He) as (type & tail & Hb & Ht & Hl).
  rewrite length_app in *. destruct fuel as [|fuel]; [cbn in Hf; lia|]. cbn [madt_walk].
  rewrite (proj2 (Z.leb_gt _ _)) by (rewrite Hb; cbn [length]; lia).
  destruct (Haction e pointer a He Hme) as (t & Hlt & Hact).
  assert (Hlen : load_u8 m (pointer + 1) = Some (Z.of_nat (length (madt_entry_bytes e)))).
  { apply load_bytes_at; [|lia]. rewrite Hb in Hme. apply table_at_cons in Hme as [_ Hme].
    apply table_at_cons in Hme as [Hme _]. apply table_at_cons. rewrite Z.mod_small by done.
    split; [done|apply table_at_nil]. }
  dwp_step. eapply dwp_certainly; [exact Hlt|]. dwp_step. eapply dwp_certainly; [exact Hact|].
  dwp_step. eapply dwp_certainly; [exact Hlen|]. rewrite Nat2Z.inj_add, Z.add_assoc.
  apply IH; [done|done|cbn in Hf; lia|done].
Qed.

Lemma madt_entries_bound entries :
  Forall madt_entry_valid entries → (length entries ≤ length (madt_bytes entries))%nat.
Proof.
  induction 1 as [|e entries He _ IH]; [done|]. unfold madt_bytes in *. cbn [flat_map length].
  rewrite length_app. destruct (madt_entry_length e He) as (? & ? & -> & _). cbn [length]. lia.
Qed.

Lemma madt_entries_fold {Obj A} m madt (action : madt_entry_type → Z → A → option A) f entries a
    (Q : A → Obj → list bus_event → Prop) g log :
  (∀ e p s, madt_entry_valid e → table_at m p (madt_entry_bytes e) →
     ∃ t, load_u8 m p = Some t ∧ action (madt_entry_type_of t) p s = Some (f s e)) →
  madt_at m madt entries → Q (fold_left f entries a) g log →
  dwp (madt_entries m madt action a) Q g log.
Proof.
  intros Haction [Hv Hl Hm] HQ. unfold madt_entries. dwp_step. eapply dwp_certainly; [exact Hl|].
  rewrite Z.add_assoc. eapply madt_walk_entries; [exact Haction|done..| |done].
  pose proof (madt_entries_bound entries Hv). unfold SIZEOF_MADT. lia.
Qed.

(** The fields of an entry, from its bytes. *)
Ltac entry_fields :=
  repeat match goal with
  | H : table_at _ _ (_ ++ _) |- _ => apply table_at_app in H as [? H]
  | H : table_at _ _ (_ :: _) |- _ => apply table_at_cons in H as [? H]
  end;
  rewrite ?length_little_endian in *; change (Z.of_nat 4) with 4 in *; cbn [length] in *;
  rewrite <- ?Z.add_assoc in *; cbn [Z.add Pos.add Pos.succ] in *.

Lemma load_u8_at m a v : m !! a = Some v → byte v → load_u8 m a = Some v.
Proof.
  intros Hm Hv. apply load_bytes_at; [|done]. apply table_at_cons. unfold byte in Hv.
  rewrite Z.mod_small by lia. split; [done|apply table_at_nil].
Qed.

Lemma io_apic_action_entry m e p a :
  madt_entry_valid e → table_at m p (madt_entry_bytes e) →
  ∃ t, load_u8 m p = Some t ∧ io_apic_action m (madt_entry_type_of t) p a = Some (io_apic_entry a e).
Proof.
  intros Hv Hm. destruct e; cbn [madt_entry_valid madt_entry_bytes] in *; unfold byte in Hv; entry_fields;
    (eexists; split; [apply load_u8_at; [eassumption|unfold byte; lia]|]); cbn [madt_entry_type_of]; try done.
  - cbn [io_apic_action]. rewrite (load_u8_at _ _ id) by (done || unfold byte; lia).
    unfold load_u32. rewrite (load_bytes_at m 4 (p + 4) address) by (done || lia).
    by rewrite (load_bytes_at m 4 (p + 8) interrupt_base) by (done || lia).
  - cbn [io_apic_action]. rewrite (load_u8_at _ _ irq) by (done || unfold byte; lia).
    cbn [mbind option_bind io_apic_entry]. destruct (irq <? 16); [|done].
    unfold load_u32, load_u16. rewrite (load_bytes_at m 4 (p + 4) global_system_interrupt) by (done || lia).
    by rewrite (load_bytes_at m 2 (p + 8) flags) by (done || lia).
  - destruct Hv as (_ & -> & _). done.
Qed.

Lemma smp_action_entry m e p ids :
  madt_entry_valid e → table_at m p (madt_entry_bytes e) →
  ∃ t, load_u8 m p = Some t ∧
    smp_action m (madt_entry_type_of t) p ids =
    Some (if (length ids <? SMP_CPU_COUNT_MAX)%nat then ids ++ enabled_processor e else ids).
Proof.
  intros Hv Hm. assert (Hnone : ∀ b : bool, ids = if b then ids ++ [] else ids).
  { intros []; by rewrite ?app_nil_r. }
  destruct e; cbn [madt_entry_valid madt_entry_bytes enabled_processor] in *; unfold byte in Hv; entry_fields;
    (eexists; split; [apply load_u8_at; [eassumption|unfold byte; lia]|]); cbn [madt_entry_type_of];
    try (cbn [smp_action]; by rewrite <- Hnone).
  - cbn [smp_action]. unfold load_u32. rewrite (load_bytes_at m 4 (p + 4) flags) by (done || lia).
    rewrite (load_u8_at _ _ apic_id) by (done || unfold byte; lia).
    cbn [mbind option_bind]. by destruct (Z.odd flags), (length ids <? SMP_CPU_COUNT_MAX)%nat; rewrite ?app_nil_r.
  - cbn [smp_action]. unfold load_u32. rewrite (load_bytes_at m 4 (p + 8) flags) by (done || lia).
    rewrite (load_bytes_at m 4 (p + 4) apic_id) by (done || lia).
    cbn [mbind option_bind]. by destruct (Z.odd flags), (length ids <? SMP_CPU_COUNT_MAX)%nat; rewrite ?app_nil_r.
  - destruct Hv as (_ & -> & _). cbn [smp_action]. by rewrite <- Hnone.
Qed.

Lemma enabled_processors_fold entries ids :
  (length ids ≤ SMP_CPU_COUNT_MAX)%nat →
  fold_left (λ s e, if (length s <? SMP_CPU_COUNT_MAX)%nat then s ++ enabled_processor e else s) entries ids
  = take SMP_CPU_COUNT_MAX (ids ++ flat_map enabled_processor entries).
Proof.
  revert ids. induction entries as [|e entries IH]; intros ids Hl; cbn [fold_left flat_map].
  { by rewrite app_nil_r, take_ge by lia. }
  destruct (Nat.ltb_spec (length ids) SMP_CPU_COUNT_MAX) as [Hlt|Hge].
  - rewrite IH; [by rewrite <- app_assoc|]. rewrite length_app.
    assert (length (enabled_processor e) ≤ 1)%nat; [|lia].
    destruct e; cbn [enabled_processor]; try (cbn; lia); destruct (Z.odd flags); cbn; lia.
  - rewrite IH by done. by rewrite !take_app_le, !take_ge by lia.
Qed.

Lemma create_smp_info_spec {Obj} m acpi madt entries (Q : _ → Obj → list bus_event → Prop) g log :
  acpi_madt acpi = madt → madt ≠ 0 → madt_at m madt entries →
  Q (Ok (enabled_processors entries)) g log → dwp (create_smp_info m acpi) Q g log.
Proof.
  intros <- Hmadt Hm HQ. unfold create_smp_info, current_madt, current_table.
  rewrite (proj2 (Z.eqb_neq _ 0)) by done. dwp_step.
  eapply (madt_entries_fold m _ _
            (λ s e, if (length s <? SMP_CPU_COUNT_MAX)%nat then s ++ enabled_processor e else s));
    [intros; by apply smp_action_entry|done|].
  rewrite enabled_processors_fold by (cbn; lia). by apply dwp_ret.
Qed.

Lemma configure_from_madt_spec madt entries Q g log :
  madt ≠ 0 → madt_at (hal_memory g) madt entries →
  Q (Ok tt) (g <| io_apic_core ::= λ a, fold_left io_apic_entry entries a |>) log →
  dwp (configure_from_madt madt) Q g log.
Proof.
  intros Hmadt Hm HQ. unfold configure_from_madt. rewrite (proj2 (Z.eqb_neq _ 0)) by done. dwp_steps.
  eapply madt_entries_fold; [intros; by apply io_apic_action_entry|done|].
  unfold update_io_apic. dwp_steps. done.
Qed.

(** C22: The MADT is read back as it was written.  On every table that encodes a
    list of entries of the kinds and sizes of ACPI, [io_apic::configure_from_madt]
    ends and keeps exactly what the entries say (the last I/O APIC, and the last
    override of each of the 16 ISA interrupts), and [create_smp_info] answers the
    identifiers of the enabled processors, in order, up to the 64 the kernel has
    room for. *)
Theorem madt_reads_back madt entries g log :
  madt ≠ 0 → acpi_madt (acpi_core g) = madt → madt_at (hal_memory g) madt entries →
  dwp (configure_from_madt madt)
    (λ r g' log', r = Ok tt ∧ log' = log ∧
       g' = g <| io_apic_core ::= λ a, fold_left io_apic_entry entries a |>) g log ∧
  dwp (create_smp_info (hal_memory g) (acpi_core g))
    (λ r g' log', r = Ok (enabled_processors entries) ∧ log' = log ∧ g' = g) g log.
Proof.
  intros Hmadt Ha Hm. split.
  - by eapply configure_from_madt_spec.
  - by eapply create_smp_info_spec.
Qed.

(** An entry of length 0 holds the loop over the MADT: from an entry of the
    table whose length byte is 0, no number of turns ends it, whatever the entry's
    kind, unless reading the entry is undefined. *)
Theorem madt_empty_entry_never_ends {Obj A} m (action : madt_entry_type → Z → A → option A)
    pointer end_ type fuel (a : A) (g : Obj) log :
  pointer < end_ → load_u8 m pointer = Some type → load_u8 m (pointer + 1) = Some 0 →
  (∀ s, is_Some (action (madt_entry_type_of type) pointer s)) →
  madt_walk m action fuel pointer end_ a g log = Running.
Proof.
  intros Hlt Ht Hl Ha. revert a. induction fuel as [|fuel IH]; intros a; cbn [madt_walk];
    rewrite (proj2 (Z.leb_gt _ _)) by done; [done|].
  destruct (Ha a) as [a' Ha']. unfold mbind, D_bind, certainly. rewrite Ht, Ha', Hl, Z.add_0_r.
  apply IH.
Qed.

(** ** A table in memory *)

Fixpoint memory_of (address : Z) (l : list Z) : byte_memory :=
  match l with
  | [] => ∅
  | b :: l' => <[address := b]> (memory_of (address + 1) l')
  end.
Definition madt_table (entries : list madt_entry) : list Z :=
  APIC_SIGNATURE ++ little_endian 4 (SIZEOF_MADT + Z.of_nat (length (madt_bytes entries)))
  ++ replicate 36 0 ++ madt_bytes entries.

Lemma memory_of_below a l i : i < a → memory_of a l !! i = None.
Proof.
  revert a. induction l as [|b l IH]; intros a Hi; cbn [memory_of]; [apply lookup_empty|].
  rewrite lookup_insert_ne by lia. apply IH. lia.
Qed.
Lemma table_at_memory_of a l : table_at (memory_of a l) a l.
Proof.
  revert a. induction l as [|b l IH]; intros a; [apply table_at_nil|].
  cbn [memory_of]. apply table_at_cons. split; [apply lookup_insert_eq|].
  intros i c Hi. rewrite lookup_insert_ne by lia. by apply IH.
Qed.

Lemma madt_table_at m madt entries :
  Forall madt_entry_valid entries → SIZEOF_MADT + Z.of_nat (length (madt_bytes entries)) < 2 ^ 32 →
  table_at m madt (madt_table entries) → madt_at m madt entries.
Proof.
  intros Hv Hl Hm. unfold madt_table in Hm. repeat (apply table_at_app in Hm as [? Hm]).
  unfold SIZEOF_MADT in *. split; [done| |].
  - apply load_bytes_at; [done|]. change (256 ^ Z.of_nat 4) with (2 ^ 32). unfold SIZEOF_MADT. lia.
  - rewrite length_little_endian, length_replicate in Hm. cbn [APIC_SIGNATURE length] in Hm.
    by rewrite <- !Z.add_assoc in Hm.
Qed.

(** Three processors, the last one disabled, an I/O APIC, two overrides and an
    entry of another kind. *)
Definition example_madt_entries : list madt_entry :=
  [ME_LOCAL_APIC 0 0 1; ME_LOCAL_APIC 1 2 1; ME_LOCAL_APIC 2 4 0; ME_IO_APIC 0 0xFEC00000 0;
   ME_OVERRIDE 0 0 2 0; ME_OVERRIDE 0 9 9 0xF; ME_OTHER 4 [0xFF; 0; 0; 1]].
Definition example_madt : Z := physical_to_virtual_address 0x7000.
Definition example_madt_memory : byte_memory := memory_of example_madt (madt_table example_madt_entries).
Definition example_globals : hal_globals :=
  (initial_globals example_madt_memory) <| acpi_core ::= λ a, a <| acpi_madt := example_madt |> |>.

Lemma example_entries_valid : Forall madt_entry_valid example_madt_entries.
Proof.
  unfold example_madt_entries.
  repeat (apply Forall_cons_2; [cbn; unfold byte; split_and?; try done; cbn; lia|]). apply Forall_nil_2.
Qed.
Lemma example_madt_at : madt_at (hal_memory example_globals) example_madt example_madt_entries.
Proof.
  apply madt_table_at; [apply example_entries_valid|by vm_compute|].
  apply table_at_memory_of.
Qed.

Lemma madt_reads_back_witness :
  dwp (configure_from_madt example_madt)
    (λ r g' log', r = Ok tt ∧ log' = [] ∧
       g' = example_globals <| io_apic_core ::= λ a, fold_left io_apic_entry example_madt_entries a |>)
    example_globals [] ∧
  dwp (create_smp_info (hal_memory example_globals) (acpi_core example_globals))
    (λ r g' log', r = Ok (enabled_processors example_madt_entries) ∧ log' = [] ∧ g' = example_globals)
    example_globals [] ∧
  enabled_processors example_madt_entries = [0; 2].
Proof.
  assert (Hr := madt_reads_back example_madt example_madt_entries example_globals []
                  ltac:(by vm_compute) eq_refl example_madt_at).
  destruct Hr as [H1 H2]. split; [exact H1|split; [exact H2|reflexivity]].
Defined.

Lemma madt_empty_entry_never_ends_witness :
  madt_walk (memory_of 44 [4; 0; 0; 0]) (λ _ _ (n : nat), Some (S n)) 1000 44 48 0%nat tt [] = Running.
Proof.
  apply (madt_empty_entry_never_ends (memory_of 44 [4; 0; 0; 0]) (λ _ _ (n : nat), Some (S n)) 44 48 4
           1000 0%nat tt []); [lia|reflexivity|reflexivity|]. intros s. by eexists.
Defined.
