(* ===== verification/ApicProofs.v ===== *)
(** Interrupt routing: what the I/O APIC and the local APIC hold after the drivers
    ran, from the log of their accesses. *)

From S2P Require Import Prelude Word Types Kernel MemoryTypes Devices CString Bus Acpi Platform Apic AcpiProofs.
Import local_apic_offset io_apic_register_index.

(** A property of bytes is checked on each of them. *)
Lemma byte_cases (P : Z → bool) :
  forallb (λ n, P (Z.of_nat n)) (seq 0 256) = true → ∀ v, 0 ≤ v < 256 → P v = true.
Proof.
  intros Hall v Hv. rewrite forallb_forall in Hall.
  replace v with (Z.of_nat (Z.to_nat v)) by lia. apply Hall, in_seq. lia.
Qed.

(** ** The I/O APIC: a selector and the registers behind its window *)

Record io_apic_device := MkIoApicDevice { selected : Z; io_registers : gmap Z Z }.

(** The select register has 8 bits. *)
Definition io_apic_step (a : io_apic) (d : io_apic_device) (e : bus_event) : io_apic_device :=
  match e with
  | BUS_WRITE (MMIO p) v =>
      if p =? register_select a then MkIoApicDevice (wrap8 v) (io_registers d)
      else if p =? window a then MkIoApicDevice (selected d) (<[selected d := v]> (io_registers d))
      else d
  | _ => d
  end.
Definition io_apic_after (a : io_apic) (d : io_apic_device) (log : list bus_event) : io_apic_device :=
  fold_left (io_apic_step a) log d.

Lemma io_apic_after_app a d log1 log2 :
  io_apic_after a d (log1 ++ log2) = io_apic_after a (io_apic_after a d log1) log2.
Proof. apply fold_left_app. Qed.

(** The redirection entry of a pin, and its fields (82093AA, 3.2.4). *)
Definition redirection (d : io_apic_device) (pin : Z) : option Z :=
  low ← io_registers d !! (REDIRECTION_TABLE + pin * 2);
  high ← io_registers d !! (REDIRECTION_TABLE + pin * 2 + 1);
  Some (low + 2 ^ 32 * high).
Record route := MkRoute {
  route_vector : Z;
  route_mode : Z;
  route_logical : bool;
  route_active_low : bool;
  route_level : bool;
  route_masked : bool;
  route_destination : Z;
}.
Definition decode_route (entry : Z) : route :=
  MkRoute (Z.land entry 0xFF) (Z.land (Z.shiftr entry 8) 7) (Z.testbit entry 11) (Z.testbit entry 13)
    (Z.testbit entry 15) (Z.testbit entry 16) (Z.land (Z.shiftr entry 56) 0xFF).

(** The controller is set up, and not at the addresses of another register. *)
Record io_apic_ready (a : io_apic) : Prop := {
  ready_select : register_select a ≠ 0;
  ready_window : window a ≠ 0;
  ready_distinct : window a ≠ register_select a;
}.

(** The pin of an IRQ. *)
Definition irq_pin (a : io_apic) (irq : Z) : Z :=
  resolve_global_system_interrupt a irq - global_interrupt_base a.

(** The route [configure_irq] means. *)
Definition irq_route (a : io_apic) (irq : Z) (masked : bool) : route :=
  let flags := resolve_interrupt_flags a irq in
  MkRoute (wrap8 (IO_BASE + irq)) 0 false (Z.land flags 3 =? 3) (Z.land (Z.shiftr flags 2) 3 =? 3) masked 0.

Lemma make_redirect_entry_route v low level mask :
  0 ≤ v < 256 →
  let e := make_redirect_entry v DELIVERY_MODE.FIXED PHYSICAL IDLE low level mask 0 in
  decode_route e = MkRoute v 0 false low level mask 0 ∧ 0 ≤ e < 2 ^ 32.
Proof.
  intros Hv. cbn zeta.
  assert (Hb := byte_cases (λ v,
    forallb (λ '(low, level, mask),
      let e := make_redirect_entry v DELIVERY_MODE.FIXED PHYSICAL IDLE low level mask 0 in
      let r := decode_route e in
      (route_vector r =? v) && (route_mode r =? 0) && negb (route_logical r)
      && eqb (route_active_low r) low && eqb (route_level r) level && eqb (route_masked r) mask
      && (route_destination r =? 0) && (0 <=? e) && (e <? 2 ^ 32))
      (list_prod (list_prod [true; false] [true; false]) [true; false])) ltac:(by vm_compute) v Hv).
  cbn beta in Hb. rewrite forallb_forall in Hb. specialize (Hb (low, level, mask)). cbn beta iota zeta in Hb.
  set (e := make_redirect_entry _ _ _ _ _ _ _ _) in *.
  rewrite !andb_true_iff, !Z.eqb_eq, !eqb_true_iff, negb_true_iff, Z.leb_le, Z.ltb_lt in Hb.
  destruct Hb as ((((((((H1 & H2) & H3) & H4) & H5) & H6) & H7) & H8) & H9).
  { rewrite !in_prod_iff. by destruct low, level, mask; cbn; intuition. }
  split; [|done]. destruct (decode_route e) as [] eqn:Hd. cbn in *. by subst.
Qed.

Section io_apic.
Context `{bus_device} `{config}.

Lemma irq_redirect_entry_route a irq mask :
  decode_route (irq_redirect_entry a irq mask) = irq_route a irq mask ∧
  0 ≤ irq_redirect_entry a irq mask < 2 ^ 32.
Proof.
  unfold irq_redirect_entry, irq_route. cbn zeta.
  assert (∀ b : bool, (if b then ACTIVE_LOW else ACTIVE_HIGH) = b ∧ (if b then LEVEL else EDGE) = b)
    as Hb by (by intros []).
  rewrite (proj1 (Hb (_ =? 3))), (proj2 (Hb (_ =? 3))). apply make_redirect_entry_route.
  by apply Z.mod_pos_bound.
Qed.

(** The four writes of an entry that fits 32 bits. *)
Definition entry_writes (a : io_apic) (pin entry : Z) : list bus_event :=
  let r := REDIRECTION_TABLE + pin * 2 in
  [BUS_WRITE (MMIO (register_select a)) r; BUS_WRITE (MMIO (window a)) entry;
   BUS_WRITE (MMIO (register_select a)) (r + 1); BUS_WRITE (MMIO (window a)) 0].

Lemma configure_entry_spec a pin entry Q g log :
  io_apic_core g = a → io_apic_ready a → 0 ≤ entry < 2 ^ 32 →
  Q (Ok tt) g (log ++ entry_writes a pin entry) → dwp (configure_entry pin entry) Q g log.
Proof.
  intros Ha [Hs Hw _] He HQ. unfold configure_entry, io_apic_write. dwp_steps. rewrite Ha.
  rewrite (proj2 (Z.eqb_neq (register_select a) 0)), (proj2 (Z.eqb_neq (window a) 0)) by done.
  cbn [orb]. dwp_steps. rewrite Ha.
  rewrite (proj2 (Z.eqb_neq (register_select a) 0)), (proj2 (Z.eqb_neq (window a) 0)) by done.
  cbn [orb]. dwp_steps. change 0xFFFFFFFF with (Z.ones 32). rewrite !Z.land_ones by lia.
  rewrite (Z.mod_small entry), Z.shiftr_div_pow2, (Z.div_small entry) by lia.
  by rewrite <- !app_assoc.
Qed.

Lemma configure_irq_spec a irq mask Q g log :
  io_apic_core g = a → io_apic_ready a → 0 ≤ irq_pin a irq < 256 →
  Q (Ok tt) g (log ++ entry_writes a (irq_pin a irq) (irq_redirect_entry a irq mask)) →
  dwp (configure_irq irq mask) Q g log.
Proof.
  intros Ha Hr Hp HQ. unfold configure_irq. dwp_steps. rewrite Ha. unfold irq_pin in *.
  rewrite (proj2 (Z.ltb_ge _ _)) by lia. rewrite wrap8_id by lia.
  eapply configure_entry_spec; [done..|by apply irq_redirect_entry_route|done].
Qed.

(** Two registers of the device, those of the pin, have changed. *)
Lemma entry_writes_after a d pin entry :
  io_apic_ready a → 0 ≤ pin < 120 → 0 ≤ entry < 2 ^ 32 →
  let d' := io_apic_after a d (entry_writes a pin entry) in
  redirection d' pin = Some entry ∧
  ∀ r, r ≠ REDIRECTION_TABLE + pin * 2 → r ≠ REDIRECTION_TABLE + pin * 2 + 1 →
    io_registers d' !! r = io_registers d !! r.
Proof.
  intros [_ _ Hne] Hp He. cbn zeta. unfold io_apic_after, entry_writes. cbn [fold_left io_apic_step].
  rewrite !Z.eqb_refl, !(proj2 (Z.eqb_neq _ _) Hne). cbn [selected io_registers].
  unfold redirection, REDIRECTION_TABLE in *. cbn [io_registers]. rewrite !wrap8_id by lia.
  rewrite (lookup_insert_ne _ _ (16 + pin * 2)) by lia. rewrite !lookup_insert_eq.
  split; [cbn; f_equal; lia|]. intros r H1 H2. by rewrite !lookup_insert_ne by done.
Qed.

Lemma entry_writes_other a d pin pin' entry :
  io_apic_ready a → 0 ≤ pin < 120 → 0 ≤ entry < 2 ^ 32 → pin' ≠ pin →
  redirection (io_apic_after a d (entry_writes a pin entry)) pin' = redirection d pin'.
Proof.
  intros Hr Hp He Hne. destruct (entry_writes_after a d pin entry Hr Hp He) as [_ Ho].
  unfold redirection. by rewrite !Ho by lia.
Qed.

Definition masked_at (d : io_apic_device) (pin : Z) : Prop :=
  ∃ e, redirection d pin = Some e ∧ route_masked (decode_route e) = true.

Lemma masked_writes a d pin irq :
  io_apic_ready a → irq_pin a irq = pin → 0 ≤ pin < 120 →
  let d' := io_apic_after a d (entry_writes a pin (irq_redirect_entry a irq MASKED)) in
  masked_at d' pin ∧ ∀ pin', redirection d' pin' = redirection d pin' ∨ masked_at d' pin'.
Proof.
  intros Hr <- Hp. cbn zeta. destruct (irq_redirect_entry_route a irq MASKED) as [Hd He].
  assert (Hm : masked_at (io_apic_after a d (entry_writes a (irq_pin a irq) (irq_redirect_entry a irq MASKED)))
                 (irq_pin a irq)).
  { eexists. split; [by apply entry_writes_after|]. by rewrite Hd. }
  split; [done|]. intros pin'. destruct (decide (pin' = irq_pin a irq)) as [->|]; [by right|].
  left. by apply entry_writes_other.
Qed.

(** The loop of [disable_interrupt_all], from IRQ [irq] on. *)
Lemma disable_loop_spec a turns irq d Q g log :
  io_apic_core g = a → io_apic_ready a →
  (∀ i, irq ≤ i < irq + Z.of_nat turns → 0 ≤ irq_pin a i < 120) →
  (∀ new, let d' := io_apic_after a d new in
     (∀ i, irq ≤ i < irq + Z.of_nat turns → masked_at d' (irq_pin a i)) →
     (∀ pin, redirection d' pin = redirection d pin ∨ masked_at d' pin) →
     Q (Ok tt) g (log ++ new)) →
  dwp (for_irqs turns irq io_apic_disable_interrupt) Q g log.
Proof.
  intros Ha Hr. revert irq d log. induction turns as [|turns IH]; intros irq d log Hp HQ; cbn [for_irqs].
  { apply dwp_ret. rewrite <- (app_nil_r log). apply HQ; [lia|by left]. }
  dwp_step. assert (0 ≤ irq_pin a irq < 120) as Hpin by (apply Hp; lia).
  eapply configure_irq_spec; [done..|lia|].
  destruct (masked_writes a d _ irq Hr eq_refl Hpin) as [Hm Hother].
  set (w := entry_writes a (irq_pin a irq) (irq_redirect_entry a irq MASKED)) in *. cbn beta iota.
  apply (IH (irq + 1) (io_apic_after a d w)); [intros i Hi; apply Hp; lia|].
  intros new d' Hmasked Hothers. rewrite <- app_assoc. unfold d' in *. rewrite <- io_apic_after_app in *.
  apply HQ.
  - intros i Hi. destruct (decide (i = irq)) as [->|]; [|apply Hmasked; lia].
    destruct (Hothers (irq_pin a irq)) as [Hsame|]; [|done]. unfold masked_at. by rewrite Hsame.
  - intros pin. destruct (Hothers pin) as [Hsame|]; [|by right].
    destruct (Hother pin) as [Hs|Hmp]; [left; by rewrite Hsame, Hs|right].
    unfold masked_at. by rewrite Hsame.
Qed.

(** The controller as [init] sets it up from the table. *)
Definition configured_io_apic (entries : list madt_entry) (a : io_apic) : io_apic :=
  let a' := fold_left io_apic_entry entries a in
  let base := physical_to_virtual_address (base_address a') in
  a' <| register_select := base + REGISTER_SELECT |> <| window := base + REGISTER_WINDOW |>.

Lemma physical_to_virtual_pos x : 0 ≤ x → 0 < physical_to_virtual_address x.
Proof.
  intros Hx. unfold physical_to_virtual_address. set (b := KERNEL_VIRTUAL_BASE).
  assert (0 ≤ Z.lor x b) by (apply Z.lor_nonneg; split; [done|by vm_compute]).
  assert (Z.lor x b ≠ 0); [|lia]. intros Hz. by apply Z.lor_eq_0_iff in Hz as [_ ?].
Qed.

Lemma configured_ready entries a :
  0 ≤ base_address (configured_io_apic entries a) → io_apic_ready (configured_io_apic entries a).
Proof.
  intros Hb. pose proof (physical_to_virtual_pos _ Hb).
  split; cbn; unfold REGISTER_SELECT, REGISTER_WINDOW; cbn in H1; lia.
Qed.

(** The number of redirection entries of the controller: its version register, which the
    driver reads first, holds the number of the last one in bits 16 to 23. *)
Definition reported_entries (a : io_apic) (log : list bus_event) : Z :=
  (device_read (log ++ [BUS_WRITE (MMIO (register_select a)) 1]) (MMIO (window a)) / 2 ^ 16) mod 2 ^ 8 + 1.

(** The driver counts them in eight bits. *)
Lemma max_redirection_entries_spec v :
  let n := (v / 2 ^ 16) mod 2 ^ 8 + 1 in n < 2 ^ 8 → max_redirection_entries (wrap32 v) = n.
Proof.
  intros n Hn. unfold max_redirection_entries, wrap8, wrap32.
  rewrite (Z.land_ones _ 8 ltac:(lia) : Z.land _ 0xFF = _), Z.shiftr_div_pow2 by lia.
  change (2 ^ 32) with (2 ^ 16 * 2 ^ 16). rewrite Z.rem_mul_r, (Z.mul_comm (2 ^ 16)), Z.div_add by lia.
  rewrite (Z.div_small (v mod 2 ^ 16)) by (apply Z.mod_pos_bound; lia). rewrite Z.add_0_l.
  rewrite Z.mod_mod_divide by (by exists (2 ^ 8)). fold n. apply Z.mod_small.
  unfold n in *. pose proof (Z.mod_pos_bound (v / 2 ^ 16) (2 ^ 8) eq_refl). lia.
Qed.

(** C23: Initialising the I/O APIC silences it.  On a platform whose MADT encodes
    [entries] and whose controller has at most 255 redirection entries, [io_apic::init]
    succeeds, keeps the controller's address, base and the overrides of the table, leaves
    every pin that an IRQ below the number of entries resolves to masked, never leaves a
    pin unmasked that it wrote to (every redirection entry is as before or masked), and
    completes the pending interrupt on the local APIC as its last access.  These pins are
    assumed to be below 120, where the driver addresses the entries in eight bits. *)
Theorem io_apic_init_masks madt entries g log d0 :
  let a := configured_io_apic entries (io_apic_core g) in
  let n := reported_entries a log in
  madt ≠ 0 → madt_at (hal_memory g) madt entries → 0 ≤ base_address a → local_apic_core g ≠ 0 →
  n < 2 ^ 8 → (∀ irq, 0 ≤ irq < n → 0 ≤ irq_pin a irq < 120) →
  dwp (io_apic_init madt)
    (λ r g' log', r = Ok tt ∧ g' = g <| io_apic_core := a |> ∧
       ∃ new, log' = log ++ new ++ [BUS_WRITE (local_apic_register (local_apic_core g) END_OF_INTERRUPT) 0] ∧
         let d := io_apic_after a d0 new in
         (∀ irq, 0 ≤ irq < n → masked_at d (irq_pin a irq)) ∧
         (∀ pin, redirection d pin = redirection d0 pin ∨ masked_at d pin)) g log.
Proof.
  intros a n Hmadt Hm Hb Hl Hbound Hpins. pose proof (configured_ready entries (io_apic_core g) Hb) as Hr.
  fold a in Hr. unfold io_apic_init. dwp_step. eapply configure_from_madt_spec; [done..|]. dwp_step.
  unfold io_apic_configure_registers. dwp_steps.
  set (g1 := _ <| io_apic_core ::= _ |>). change (io_apic_core g1) with
    (fold_left io_apic_entry entries (io_apic_core g)).
  rewrite (proj2 (Z.eqb_neq _ 0)) by (pose proof (physical_to_virtual_pos _ Hb) as Hp; cbn in Hp |- *; lia).
  unfold update_io_apic. dwp_steps. set (g2 := _ <| io_apic_core ::= _ |>).
  assert (g2 = g <| io_apic_core := a |>) as -> by done. clear g1.
  set (g2 := g <| io_apic_core := a |>). unfold io_apic_disable_interrupt_all, io_apic_read. dwp_steps.
  change (io_apic_core g2) with a. assert (register_select a ≠ 0 ∧ window a ≠ 0) as [Hs Hw] by (split; apply Hr).
  rewrite (proj2 (Z.eqb_neq (register_select a) 0)), (proj2 (Z.eqb_neq (window a) 0)) by done.
  cbn [orb]. dwp_steps.
  assert (Hmax : max_redirection_entries (wrap32 (device_read
    (log ++ [BUS_WRITE (MMIO (register_select a)) VERSION]) (MMIO (window a)))) = n)
    by exact (max_redirection_entries_spec _ Hbound).
  rewrite Hmax.
  assert (Hn : 0 ≤ n) by (apply Z.add_nonneg_nonneg; [by apply Z.mod_pos_bound|lia]).
  set (read := [BUS_WRITE (MMIO (register_select a)) VERSION; BUS_READ (MMIO (window a))]).
  assert (Hread : ∀ pin, redirection (io_apic_after a d0 read) pin = redirection d0 pin).
  { intros pin. unfold io_apic_after, read. cbn [fold_left io_apic_step]. by rewrite Z.eqb_refl. }
  eapply (disable_loop_spec a _ 0 (io_apic_after a d0 read)); [done..| |].
  { intros i Hi. apply Hpins. lia. }
  intros new d' Hmasked Hothers. unfold end_of_interrupt, local_apic_write. dwp_steps.
  change (local_apic_core g2) with (local_apic_core g). rewrite (proj2 (Z.eqb_neq _ 0)) by done. dwp_steps.
  split; [done|]. split; [done|]. exists (read ++ new).
  split; [by rewrite <- !app_assoc|]. cbn zeta. rewrite io_apic_after_app. split.
  - intros irq Hi. apply Hmasked. lia.
  - intros pin. rewrite <- Hread. apply Hothers.
Qed.

End io_apic.

(** A controller with 24 pins. *)
Definition example_io_globals : hal_globals := example_globals <| local_apic_core := 0x1000 |>.
Definition example_io_apic : io_apic := configured_io_apic example_madt_entries (io_apic_core example_io_globals).
Definition example_io_device : bus_device := λ log a,
  if bool_decide (a = MMIO (window example_io_apic)) then Z.shiftl 23 16 else 0.

Lemma example_io_pins irq :
  0 ≤ irq < reported_entries (H := example_io_device) example_io_apic [] → 0 ≤ irq_pin example_io_apic irq < 120.
Proof.
  assert (reported_entries (H := example_io_device) example_io_apic [] = 24) as -> by (by vm_compute).
  intros Hi. assert (Hall : forallb (λ n, let p := irq_pin example_io_apic (Z.of_nat n) in
    (0 <=? p) && (p <? 120)) (seq 0 24) = true) by (by vm_compute).
  rewrite forallb_forall in Hall. specialize (Hall (Z.to_nat irq)). cbn zeta in Hall.
  rewrite Z2Nat.id in Hall by lia. rewrite andb_true_iff, Z.leb_le, Z.ltb_lt in Hall.
  apply Hall. apply in_seq. lia.
Qed.

Lemma io_apic_init_masks_witness :
  dwp (io_apic_init (H := example_io_device) example_madt)
    (λ r g' log', r = Ok tt ∧ g' = example_io_globals <| io_apic_core := example_io_apic |> ∧
       ∃ new, log' = [] ++ new ++ [BUS_WRITE (local_apic_register 0x1000 END_OF_INTERRUPT) 0] ∧
         let d := io_apic_after example_io_apic (MkIoApicDevice 0 ∅) new in
         (∀ irq, 0 ≤ irq < reported_entries (H := example_io_device) example_io_apic [] →
            masked_at d (irq_pin example_io_apic irq)) ∧
         (∀ pin, redirection d pin = redirection (MkIoApicDevice 0 ∅) pin ∨ masked_at d pin))
    example_io_globals [] ∧
  reported_entries (H := example_io_device) example_io_apic [] = 24 ∧ irq_pin example_io_apic 0 = 2.
Proof.
  split; [|split; by vm_compute].
  exact (io_apic_init_masks (H := example_io_device) example_madt example_madt_entries example_io_globals []
           (MkIoApicDevice 0 ∅) ltac:(by vm_compute) example_madt_at ltac:(by vm_compute) ltac:(by vm_compute)
           ltac:(by vm_compute) example_io_pins).
Defined.
