(* ===== verification/SmpProofs.v ===== *)
(** Inter-processor interrupts and the start of the other processors: the commands
    the local APIC is given, from the log of the accesses. *)

From S2P Require Import Prelude Word Types Kernel MemoryTypes Devices CString Bus Acpi Platform Apic AcpiProofs ApicProofs.
Import local_apic_offset.

(** ** The interrupt command register: a write of its low half sends *)

Definition icr_step (base : Z) (st : Z * list (Z * Z)) (e : bus_event) : Z * list (Z * Z) :=
  match e with
  | BUS_WRITE (MMIO p) v =>
      if p =? base + ICR_HIGH then (v, snd st)
      else if p =? base + ICR_LOW then (fst st, snd st ++ [(fst st, v)])
      else st
  | _ => st
  end.
Definition icr_after (base : Z) (st : Z * list (Z * Z)) (log : list bus_event) : Z * list (Z * Z) :=
  fold_left (icr_step base) log st.

(** A command as the processor reads it (Intel SDM vol. 3A, figure 11-12). *)
Record ipi_command := MkIpi {
  ipi_destination : Z;
  ipi_vector : Z;
  ipi_mode : Z;
  ipi_level_assert : bool;
  ipi_trigger_level : bool;
}.
Definition decode_icr (c : Z * Z) : ipi_command :=
  let '(high, low) := c in
  MkIpi (Z.shiftr high 24) (Z.land low 0xFF) (Z.land (Z.shiftr low 8) 7) (Z.testbit low 14) (Z.testbit low 15).
(** The commands sent by the accesses of a log. *)
Definition commands (base : Z) (log : list bus_event) : list ipi_command :=
  map decode_icr (snd (icr_after base (0, []) log)).

(** [new] sends [cmds], whatever was selected before. *)
Definition issues (base : Z) (new : list bus_event) (cmds : list ipi_command) : Prop :=
  ∀ st, map decode_icr (snd (icr_after base st new)) = map decode_icr (snd st) ++ cmds.

Lemma issues_commands base new cmds : issues base new cmds → commands base new = cmds.
Proof. intros Hi. apply (Hi (0, [])). Qed.
Lemma issues_nil base : issues base [] [].
Proof. intros st. by rewrite app_nil_r. Qed.
Lemma issues_app base n1 n2 c1 c2 :
  issues base n1 c1 → issues base n2 c2 → issues base (n1 ++ n2) (c1 ++ c2).
Proof.
  intros H1 H2 st. unfold icr_after. rewrite fold_left_app. fold (icr_after base st n1).
  fold (icr_after base (icr_after base st n1) n2). by rewrite H2, H1, app_assoc.
Qed.
Lemma issues_read base a : issues base [BUS_READ a] [].
Proof. intros st. by rewrite app_nil_r. Qed.
Lemma issues_reads base t n : issues base (timer_reads t n) [].
Proof.
  induction n as [|n IH]; [apply issues_nil|].
  apply (issues_app base [_] (timer_reads t n) [] []); [apply issues_read|done].
Qed.

Definition byte_ipi (vector mode trigger level destination : Z) : ipi_command :=
  MkIpi destination vector mode (level =? 1) (trigger =? 1).

(** The two halves [ipi] writes mean what its caller asked for. *)
Lemma icr_decodes vector mode trigger level destination :
  0 ≤ vector < 256 → 0 ≤ destination < 256 → In mode [0; 5; 6] → In trigger [0; 1] → In level [0; 1] →
  decode_icr (wrap32 (make_icr_high destination), wrap32 (make_icr_low vector mode NO_SHORTHAND trigger level))
  = byte_ipi vector mode trigger level destination.
Proof.
  intros Hv Hd Hm Ht Hl.
  assert (Hhigh := byte_cases (λ d, Z.shiftr (wrap32 (make_icr_high d)) 24 =? d) ltac:(by vm_compute) _ Hd).
  assert (Hlow := byte_cases (λ v, forallb (λ '(mode, trigger, level),
    let low := wrap32 (make_icr_low v mode NO_SHORTHAND trigger level) in
    (Z.land low 0xFF =? v) && (Z.land (Z.shiftr low 8) 7 =? mode) &&
    eqb (Z.testbit low 14) (level =? 1) && eqb (Z.testbit low 15) (trigger =? 1))
    (list_prod (list_prod [0; 5; 6] [0; 1]) [0; 1])) ltac:(by vm_compute) _ Hv).
  cbn beta in Hhigh, Hlow. rewrite forallb_forall in Hlow. specialize (Hlow (mode, trigger, level)).
  cbn beta iota zeta in Hlow. rewrite !andb_true_iff, !Z.eqb_eq, !eqb_true_iff in *.
  destruct Hlow as [[[H1 H2] H3] H4]; [by rewrite !in_prod_iff|].
  unfold decode_icr, byte_ipi. by rewrite Hhigh, H1, H2, H3, H4.
Qed.

(** ** Platforms that deliver *)

Section smp.
Context `{bus_device} `{config}.

(** The local APIC is mapped and delivers what it is given at once; the PM timer
    runs; [fuel] is enough for the longest wait, 10 ms. *)
Record platform_ready (g : hal_globals) (step : Z) (fuel : nat) : Prop := {
  pr_apic : local_apic_core g ≠ 0;
  pr_delivers : ∀ log, Z.testbit (device_read log (local_apic_register (local_apic_core g) ICR_LOW)) 12 = false;
  pr_timer : timer_ready (acpi_pm_timer_core g);
  pr_ticking : ticking (acpi_pm_timer_core g) step;
  pr_step : 35795 + step ≤ 2 ^ bits (acpi_pm_timer_core g);
  pr_fuel : 35795 ≤ Z.of_nat fuel;
}.

(** [m] succeeds, changes no object and sends [cmds]. *)
Definition sends (g : hal_globals) (m : driver hal_result) (cmds : list ipi_command) : Prop :=
  ∀ log (Q : hal_result → hal_globals → list bus_event → Prop),
    (∀ new, issues (local_apic_core g) new cmds → Q (Ok tt) g (log ++ new)) → dwp m Q g log.

Lemma sends_and_then g m1 m2 c1 c2 :
  sends g m1 c1 → sends g m2 c2 → sends g (let! _ := m1 in m2) (c1 ++ c2).
Proof.
  intros H1 H2 log Q HQ. dwp_step. apply H1. intros n1 Hn1. cbn beta iota. apply H2. intros n2 Hn2.
  rewrite <- app_assoc. apply HQ. by apply issues_app.
Qed.

Lemma wait_sends g step fuel us :
  platform_ready g step fuel → 0 ≤ us ≤ 10000 → sends g (pm_timer_wait fuel us) [].
Proof.
  intros [Ha Hd Hr Ht Hs Hf] Hus log Q HQ.
  assert (us * TIMER_FREQUENCY / 1000000 ≤ 35795).
  { change 35795 with (10000 * TIMER_FREQUENCY / 1000000).
    apply Z.div_le_mono; [lia|]. unfold TIMER_FREQUENCY. lia. }
  eapply (pm_timer_wait_spec _ step); [done..|lia|lia|lia|]. intros n _ _. apply HQ, issues_reads.
Qed.

Lemma ipi_wait_sends g step fuel : platform_ready g step fuel → sends g (ipi_wait fuel) [].
Proof.
  intros [Ha Hd _ _ _ _] log Q HQ. unfold ipi_wait. cbn [ipi_wait_loop]. unfold local_apic_read. dwp_steps.
  rewrite (proj2 (Z.eqb_neq _ 0)) by done. dwp_steps.
  assert (Z.land (wrap32 (device_read log (local_apic_register (local_apic_core g) ICR_LOW))) (Z.shiftl 1 12)
          = 0) as ->.
  { apply Z.bits_inj'. intros i Hi. rewrite Z.land_spec, Z.bits_0, Z.shiftl_1_l.
    rewrite Z.pow2_bits_eqb by lia. destruct (Z.eqb_spec 12 i) as [<-|]; [|apply andb_false_r].
    unfold wrap32. by rewrite Z.mod_pow2_bits_low, Hd by lia. }
  rewrite Z.eqb_refl. dwp_steps. apply HQ, issues_read.
Qed.

Lemma ipi_sends g step fuel vector mode destination trigger level :
  platform_ready g step fuel → 0 ≤ vector < 256 → 0 ≤ destination < 256 → In mode [0; 5; 6] →
  In trigger [0; 1] → In level [0; 1] →
  sends g (ipi fuel vector mode NO_SHORTHAND destination trigger level)
    [byte_ipi vector mode trigger level destination].
Proof.
  intros Hp Hv Hd Hm Ht Hl log Q HQ. unfold ipi, local_apic_write. dwp_steps.
  rewrite (proj2 (Z.eqb_neq _ 0)) by apply Hp. dwp_steps. rewrite (proj2 (Z.eqb_neq _ 0)) by apply Hp.
  dwp_steps. eapply ipi_wait_sends; [done|]. intros new Hn. rewrite <- !app_assoc.
  apply HQ. apply (issues_app _ [_; _] new [_] []); [|done].
  intros st. unfold icr_after, local_apic_register. cbn [app fold_left icr_step].
  change (4 * (ICR_HIGH / 4)) with ICR_HIGH. change (4 * (ICR_LOW / 4)) with ICR_LOW.
  rewrite !Z.eqb_refl, (proj2 (Z.eqb_neq _ _)) by (unfold ICR_LOW, ICR_HIGH; lia). cbn [fst snd].
  by rewrite map_app, <- icr_decodes by done.
Qed.

(** The commands that start a processor: INIT, its release, and the page of the
    start-up code twice. *)
Definition start_sequence (page apic_id : Z) : list ipi_command :=
  [byte_ipi 0 5 1 1 apic_id; byte_ipi 0 5 1 0 apic_id; byte_ipi page 6 0 1 apic_id; byte_ipi page 6 0 1 apic_id].

Record trampoline_page (address page : Z) : Prop := {
  page_address : address = page * 4096;
  page_range : 0 ≤ page < 256;
}.

Lemma startup_sends g step fuel address page apic_id :
  platform_ready g step fuel → trampoline_page address page → 0 ≤ apic_id < 256 →
  sends g (ipi_startup fuel address apic_id) [byte_ipi page 6 0 1 apic_id].
Proof.
  intros Hp [-> Hpage] Hid. unfold ipi_startup. change PAGE_SIZE with 4096.
  rewrite Z.mod_mul by lia. cbn [Z.eqb negb]. rewrite (proj2 (Z.ltb_ge _ _)) by lia.
  rewrite Z.shiftr_div_pow2 by lia. change (2 ^ 12) with 4096. rewrite Z.div_mul, wrap8_id by lia.
  eapply ipi_sends; cbn; try done; tauto.
Qed.

Lemma start_core_sends g step fuel address page apic_id :
  platform_ready g step fuel → trampoline_page address page → 0 ≤ apic_id < 256 →
  sends g (start_core fuel address apic_id) (start_sequence page apic_id).
Proof.
  intros Hp Ht Hid. unfold start_core, start_sequence. rewrite wrap8_id by done.
  apply (sends_and_then g _ _ [_; _] [_; _]).
  { apply (sends_and_then g _ _ [_] [_]); [eapply ipi_sends; cbn; try done; tauto|].
    apply (sends_and_then g _ _ [] [_]); [eapply wait_sends; [done|lia]|].
    eapply ipi_sends; cbn; try done; tauto. }
  apply (sends_and_then g _ _ [] [_; _]); [eapply wait_sends; [done|lia]|].
  apply (sends_and_then g _ _ [_] [_]); [by eapply startup_sends|].
  apply (sends_and_then g _ _ [] [_]); [eapply wait_sends; [done|lia]|].
  apply (sends_and_then g _ _ [_] []); [by eapply startup_sends|eapply wait_sends; [done|lia]].
Qed.

(** The processors to start. *)
Definition other_processors (bsp : Z) (ids : list Z) : list Z := filter (λ id, id ≠ bsp) ids.

Lemma start_cores_sends g step fuel address page bsp ids count log Q :
  platform_ready g step fuel → trampoline_page address page →
  Forall (λ id, 0 ≤ id < CPU_COUNT_MAX) (other_processors bsp ids) →
  count + Z.of_nat (length (other_processors bsp ids)) ≤ CPU_COUNT_MAX →
  (∀ new, issues (local_apic_core g) new (flat_map (start_sequence page) (other_processors bsp ids)) →
     Q (Ok (count + Z.of_nat (length (other_processors bsp ids)))) g (log ++ new)) →
  dwp (start_cores fuel address bsp ids count) Q g log.
Proof.
  intros Hp Ht. revert count log. unfold other_processors.
  induction ids as [|id ids IH]; intros count log Hids Hc HQ; cbn [start_cores].
  { apply dwp_ret. rewrite <- (app_nil_r log). rewrite <- (Z.add_0_r count) at 1. apply HQ, issues_nil. }
  rewrite filter_cons in *. destruct (decide (id ≠ bsp)) as [Hne|Heq].
  - apply Forall_cons_1 in Hids as [Hid Hids]. cbn [length flat_map] in *.
    rewrite (proj2 (Z.leb_gt _ _)) by lia. rewrite (proj2 (Z.eqb_neq _ _)) by done.
    rewrite (proj2 (Z.leb_gt _ _)) by lia. dwp_step.
    eapply start_core_sends; [done..|unfold CPU_COUNT_MAX in *; lia|]. intros n1 Hn1. cbn beta iota.
    apply IH; [done|lia|]. intros n2 Hn2. rewrite <- app_assoc.
    replace (count + 1 + _) with (count + Z.of_nat (S (length (filter (λ id, id ≠ bsp) ids)))) by lia.
    apply HQ. by apply issues_app.
  - apply dec_stable in Heq as ->. rewrite Z.eqb_refl. destruct (Z.leb_spec CPU_COUNT_MAX count).
    + assert (filter (λ id, id ≠ bsp) ids = []) as Hnil by (apply length_zero_iff_nil; lia).
      rewrite Hnil in *. apply dwp_ret. rewrite <- (app_nil_r log). rewrite <- (Z.add_0_r count).
      apply HQ, issues_nil.
    + by apply IH.
Qed.

(** The identifier of the running processor, as the local APIC answers it. *)
Definition own_apic_id (g : hal_globals) (log : list bus_event) : Z :=
  Z.land (Z.shiftr (wrap32 (device_read log (local_apic_register (local_apic_core g) ID_REGISTER))) 24) 0xFF.

(** C21: Every other processor is started, once and in the order of the MADT.  On a
    platform whose MADT encodes [entries] (with the boot processor among the enabled
    ones and every identifier below 64), whose local APIC delivers interrupts and
    whose PM timer runs, [init_sub_cores] succeeds; the commands given to the local
    APIC are, for each enabled processor but the boot processor, INIT asserted, INIT
    de-asserted and two start-up interrupts at the page of the start-up code; and the
    number of cores to wait for is theirs plus one. *)
Theorem sub_cores_started t m' madt entries page step fuel g log :
  let ids := enabled_processors entries in
  let bsp := own_apic_id g log in
  platform_ready g step fuel → copy_trampoline t (hal_memory g) = Some m' →
  madt ≠ 0 → acpi_madt (acpi_core g) = madt → madt_at m' madt entries →
  trampoline_page (boot_ap_trampoline_start t) page →
  (1 < length ids)%nat → In bsp ids → Forall (λ id, 0 ≤ id < CPU_COUNT_MAX) (other_processors bsp ids) →
  dwp (init_sub_cores fuel t)
    (λ r g' log', r = Ok tt ∧
       expected_cores g' = 1 + Z.of_nat (length (other_processors bsp ids)) ∧ hal_memory g' = m' ∧
       ∃ new, log' = log ++ new ∧
         commands (local_apic_core g) new = flat_map (start_sequence page) (other_processors bsp ids)) g log.
Proof.
  intros ids bsp Hp Hcopy Hmadt Hacpi Hm Ht Hlen Hbsp Hids. unfold init_sub_cores. dwp_steps.
  eapply dwp_certainly; [exact Hcopy|]. dwp_steps.
  eapply create_smp_info_spec; [exact Hacpi|done|exact Hm|]. cbn beta iota. fold ids. dwp_steps.
  rewrite (proj2 (Nat.leb_gt _ _)) by done. unfold local_apic_id, local_apic_read. dwp_steps.
  cbn [local_apic_core]. set (g3 := _ <| smp_info_core := ids |>).
  change (local_apic_core g3) with (local_apic_core g).
  rewrite (proj2 (Z.eqb_neq _ 0)) by apply Hp. dwp_steps. fold (own_apic_id g log). fold bsp.
  assert (Hp3 : platform_ready g3 step fuel) by (by destruct Hp).
  assert (Hcount : (length (other_processors bsp ids) < 64)%nat).
  { assert (length ids ≤ 64)%nat by (unfold ids, enabled_processors, SMP_CPU_COUNT_MAX; rewrite length_take; lia).
    assert (length (other_processors bsp ids) < length ids)%nat; [|lia].
    apply length_filter_lt with bsp; [by apply list_elem_of_In|]. by intros ?. }
  eapply start_cores_sends; [exact Hp3|exact Ht|done|unfold CPU_COUNT_MAX; lia|].
  intros new Hnew. cbn beta iota. dwp_steps. split; [done|]. split; [done|]. split; [done|].
  eexists. split; [by rewrite <- app_assoc|]. apply issues_commands.
  apply (issues_app _ [_] new []); [apply issues_read|done].
Qed.

End smp.

(** ** Two processors *)

(** The platform of the examples: the local APIC at its usual address answers that
    it belongs to processor 0 and that nothing is pending; the PM timer counts. *)
Definition example_apic_base : Z := physical_to_virtual_address 0xFEE00000.
Definition example_platform : hal_globals :=
  example_globals <| local_apic_core := example_apic_base |> <| acpi_pm_timer_core := example_timer |>.

(** A start-up code of 16 bytes at 0x8000, copied from 0x20000, with its descriptor
    inside. *)
Definition example_trampoline : trampoline := MkTrampoline 0x20000 0x8000 0x8010 0x8004 0x9000 0x9018.
Definition example_smp_platform : hal_globals :=
  example_platform <| hal_memory := memory_of (physical_to_virtual_address 0x8000) (replicate 16 0)
    ∪ memory_of (physical_to_virtual_address 0x20000) (seqZ 1 16) ∪ example_madt_memory |>.
Definition example_copied_memory : byte_memory :=
  default ∅ (copy_trampoline example_trampoline (hal_memory example_smp_platform)).

Lemma example_copied :
  copy_trampoline example_trampoline (hal_memory example_smp_platform) = Some example_copied_memory.
Proof.
  assert (Hs : bool_decide (is_Some (copy_trampoline example_trampoline (hal_memory example_smp_platform))) = true)
    by (vm_compute; reflexivity).
  unfold example_copied_memory. apply bool_decide_eq_true in Hs as [m ->]. done.
Qed.

Lemma example_platform_ready : platform_ready (H := example_device) example_smp_platform 1 (Z.to_nat 40000).
Proof.
  split; [by vm_compute|intros log|apply example_timer_ready|apply example_ticking|by vm_compute|by vm_compute].
  reflexivity.
Qed.

Lemma example_copied_madt : madt_at example_copied_memory example_madt example_madt_entries.
Proof.
  apply madt_table_at; [apply example_entries_valid|by vm_compute|].
  assert (Hb : forallb (λ i, bool_decide (example_copied_memory !! (example_madt + Z.of_nat i)
                 = madt_table example_madt_entries !! i)) (seq 0 (length (madt_table example_madt_entries))) = true)
    by (by vm_compute).
  rewrite forallb_forall in Hb. intros i b Hi.
  specialize (Hb i). rewrite bool_decide_eq_true in Hb. rewrite Hb; [done|].
  apply in_seq. apply lookup_lt_Some in Hi. lia.
Qed.

Lemma sub_cores_started_witness :
  dwp (init_sub_cores (H := example_device) (Z.to_nat 40000) example_trampoline)
    (λ r g' log', r = Ok tt ∧
       expected_cores g' = 1 + Z.of_nat (length (other_processors 0 (enabled_processors example_madt_entries))) ∧
       hal_memory g' = example_copied_memory ∧
       ∃ new, log' = [] ++ new ∧
         commands (local_apic_core example_smp_platform) new =
         flat_map (start_sequence 8) (other_processors 0 (enabled_processors example_madt_entries)))
    example_smp_platform [] ∧
  other_processors 0 (enabled_processors example_madt_entries) = [2].
Proof.
  split; [|reflexivity].
  apply (sub_cores_started (H := example_device) example_trampoline
           example_copied_memory example_madt example_madt_entries 8 1 (Z.to_nat 40000) example_smp_platform []).
  - exact example_platform_ready.
  - exact example_copied.
  - by vm_compute.
  - reflexivity.
  - exact example_copied_madt.
  - split; [reflexivity|lia].
  - by vm_compute.
  - left. reflexivity.
  - repeat constructor; by vm_compute.
Defined.
