(* ===== verification/Interrupt.v ===== *)
(** The entries from x86-64: exceptions, interrupts and the [syscall] instruction
    (src/src/hal/x86_64/interrupt/interrupt.cpp, interrupt.hpp,
    interrupt_descriptor.hpp, src/src/hal/x86_64/systemcall/syscall.cpp), and the
    registration of the kernel's handlers ([interrupt_manager::init] of
    src/src/kernel/interrupt/interrupt_manager.cpp).

    The assembly stubs have saved the user's registers in the context of the
    current process when these functions run.  Log output is left out. *)

From S2P Require Import Prelude Word Types Dll Kernel Hal ProcessManager MemoryTypes Memory Devices Reclamation KernelCall.
From S2P Require Import Bus Acpi Platform Apic.
Import register_index.

(** ** interrupt.hpp *)

Module exception_type.
Definition DIVISION_ERROR : Z := 0.
Definition DEBUG : Z := 1.
Definition NMI : Z := 2.
Definition BREAKPOINT : Z := 3.
Definition OVERFLOW : Z := 4.
Definition BOUND_RANGE_EXCEEDED : Z := 5.
Definition INVALID_OPCODE : Z := 6.
Definition DEVICE_NOT_AVAILABLE : Z := 7.
Definition DOUBLE_FAULT : Z := 8.
Definition COPROCESSOR_SEGMENT_OVERRUN : Z := 9.
Definition INVALID_TSS : Z := 10.
Definition SEGMENT_NOT_PRESENT : Z := 11.
Definition STACK_SEGMENT_FAULT : Z := 12.
Definition GENERAL_PROTECTION_FAULT : Z := 13.
Definition PAGE_FAULT : Z := 14.
Definition X87_FLOATING_POINT_EXCEPTION : Z := 16.
Definition ALIGNMENT_CHECK : Z := 17.
Definition MACHINE_CHECK : Z := 18.
Definition SIMD_FLOATING_POINT_EXCEPTION : Z := 19.
Definition VIRTUALIZATION_EXCEPTION : Z := 20.
Definition CONTROL_PROTECTION_EXCEPTION : Z := 21.
Definition HYPERVISOR_INJECTION_EXCEPTION : Z := 28.
Definition VMM_COMMUNICATION_EXCEPTION : Z := 29.
Definition SECURITY_EXCEPTION : Z := 30.
End exception_type.

(** [reserved_irq::BASE], the first vector that is not an exception. *)
Definition INTERRUPT_BASE : Z := 0x20.

(** ** The registered handlers

    Function pointers, null before [interrupt_manager::init]. *)
Record interrupt_handlers := MkHandlers {
  timer_handler : option (M unit);
  kernel_call_handler : option (kernel_call_type → M unit);
  interrupt_dispatcher : option (Z → M unit);
  ipi_reschedule_handler : option (M unit);
  fault_dispatcher : option (fault_type → Z → Z → Z → M unit);
}.
#[global] Instance eta_handlers : Eta interrupt_handlers := λ x,
  MkHandlers (timer_handler x) (kernel_call_handler x) (interrupt_dispatcher x)
    (ipi_reschedule_handler x) (fault_dispatcher x).
Definition no_handlers : interrupt_handlers := MkHandlers None None None None None.

Definition register_system_timer_handler (handler : option (M unit)) (h : interrupt_handlers)
    : hal_result * interrupt_handlers :=
  match handler with
  | None => (Err HE_ILLEGAL_ARGUMENT, h)
  | Some _ => (Ok tt, h <| timer_handler := handler |>)
  end.
Definition register_ipi_reschedule_handler (handler : option (M unit)) (h : interrupt_handlers)
    : hal_result * interrupt_handlers :=
  match handler with
  | None => (Err HE_ILLEGAL_ARGUMENT, h)
  | Some _ => (Ok tt, h <| ipi_reschedule_handler := handler |>)
  end.
Definition register_kernel_call_handler (handler : option (kernel_call_type → M unit))
    (h : interrupt_handlers) : hal_result * interrupt_handlers :=
  match handler with
  | None => (Err HE_ILLEGAL_ARGUMENT, h)
  | Some _ => (Ok tt, h <| kernel_call_handler := handler |>)
  end.
Definition register_interrupt_dispatcher (dispatcher : option (Z → M unit)) (h : interrupt_handlers)
    : hal_result * interrupt_handlers :=
  match dispatcher with
  | None => (Err HE_ILLEGAL_ARGUMENT, h)
  | Some _ => (Ok tt, h <| interrupt_dispatcher := dispatcher |>)
  end.
Definition register_fault_dispatcher (dispatcher : option (fault_type → Z → Z → Z → M unit))
    (h : interrupt_handlers) : hal_result * interrupt_handlers :=
  match dispatcher with
  | None => (Err HE_ILLEGAL_ARGUMENT, h)
  | Some _ => (Ok tt, h <| fault_dispatcher := dispatcher |>)
  end.

(** How an entry leaves the kernel: to user mode with these registers, to the
    interrupted IDLE loop, to a new IDLE loop, or never. *)
Inductive kernel_exit :=
| EXIT_USER (registers : list Z)
| EXIT_KERNEL
| EXIT_IDLE_LOOP
| EXIT_HALT.

(** [interrupt_descriptor_64] *)
Record interrupt_descriptor := MkDescriptor {
  offset_low : Z;
  kernel_cs : Z;
  ist : Z;
  gate_type : Z;
  offset_mid : Z;
  offset_high : Z;
  gate_reserved : Z;
}.
Definition INTERRUPT_GATE : Z := 0xe.
Definition PRESENT : Z := 0x80.
Definition DPL_3 : Z := 0x60.
Definition INTERRUPT_DESCRIPTOR_SIZE_MAX : nat := 256.

(** What [register_idt_handler] writes for a handler. *)
Definition make_descriptor (handler : Z) : interrupt_descriptor :=
  MkDescriptor (Z.land handler 0xffff) 0x08 1 (Z.lor (Z.lor INTERRUPT_GATE PRESENT) DPL_3)
    (Z.land (Z.shiftr handler 16) 0xffff) (Z.land (Z.shiftr handler 32) 0xffffffff) 0.

(** ** syscall.cpp: the model-specific registers *)

Definition MSR_EFER : Z := 0xC0000080.
Definition MSR_STAR : Z := 0xc0000081.
Definition MSR_LSTAR : Z := 0xc0000082.
Definition MSR_CSTAR : Z := 0xc0000083.
Definition MSR_SFMASK : Z := 0xc0000084.
Definition SYSCALL_EXTENSION : Z := Z.shiftl 1 0.
Definition NO_EXECUTE : Z := Z.shiftl 1 11.
Definition RFLAGS_INTERRUPT : Z := Z.shiftl 1 9.
Definition USER_CS_NULL : Z := 0x18.
Definition star_value : Z := Z.lor (Z.shiftl (Z.lor USER_CS_NULL 0x03) 48) (Z.shiftl KERNEL_CS 32).

(** [handler] is the address of [_syscall_handler]. *)
Definition init_syscall `{bus_device} (handler : Z) : driver hal_result :=
  efer ← read_msr MSR_EFER;
  write_msr MSR_EFER (Z.lor (Z.lor efer SYSCALL_EXTENSION) NO_EXECUTE);;
  write_msr MSR_SFMASK RFLAGS_INTERRUPT;;
  write_msr MSR_LSTAR handler;;
  write_msr MSR_STAR star_value;;
  write_msr MSR_CSTAR 0;;
  bus_ok.

Section interrupt.
Context `{config}.

(** ** interrupt_manager.cpp *)

(** The results of the registrations are not looked at. *)
Definition init_handler (h : interrupt_handlers) : interrupt_handlers :=
  let h := (register_system_timer_handler (Some handle_timer_interrupt) h).2 in
  let h := (register_kernel_call_handler (Some (λ t, handle_kernel_call (Some t);; mret tt)) h).2 in
  let h := (register_interrupt_dispatcher (Some handle_interrupt) h).2 in
  let h := (register_ipi_reschedule_handler (Some (handle_ipi_reschedule;; mret tt)) h).2 in
  (register_fault_dispatcher
     (Some (λ type code arch_code address, handle_fault type code arch_code address;; mret tt)) h).2.

(** From handler [i]. *)
Fixpoint init_irq_notification_handlers_from (turns : nat) (i : Z) : M unit :=
  match turns with
  | O => mret tt
  | S turns' =>
      modify irq_notification_handlers i (λ v, v <| irq_number := i |>);;
      modify slots (irq_slot i) (λ _, initial_slot);;
      init_irq_notification_handlers_from turns' (i + 1)
  end.
Definition init_irq_notification_handlers : M unit :=
  init_irq_notification_handlers_from (Z.to_nat IRQ_NUMBER_MAX) 0.

Definition interrupt_manager_init (h : interrupt_handlers) : M (kernel_result * interrupt_handlers) :=
  init_irq_notification_handlers;;
  mret (Ok tt, init_handler h).

(** ** The core-local variables, through GS *)

Definition gs_local_variable : M cpu_local_variable :=
  core ← this_core;
  local ← defined (gs_base core);
  load cpu_local_variables local.

Definition current_context : M (list Z) :=
  lv ← gs_local_variable;
  current ← defined (current_process lv);
  cp ← load processes current;
  mret (registers cp).

(** [restore_user_context]: [iretq] loads RIP, RFLAGS and RSP and the segments
    from the context; [sysretq] takes RIP from RCX and RFLAGS from R11. *)
Definition user_registers (context : list Z) : option (list Z) :=
  enter_from ← get_register context ENTER_FROM;
  if enter_from =? ENTRY_SYSCALL then
    rip ← get_register context RIP;
    rflags ← get_register context RFLAGS;
    Some (set_register R11 rflags (set_register RCX rip context))
  else Some context.
Definition restore_user_context : M kernel_exit :=
  context ← current_context;
  regs ← defined (user_registers context);
  mret (EXIT_USER regs).

(** ** interrupt.cpp *)

(** [_flush_tlb] of the running core. *)
Definition flush_tlb : M unit := c ← reads current_core; emit (EV_INVALIDATE_TLB c None).

Definition dispatch_external_interrupt (h : interrupt_handlers) (irq_number : Z) : M unit :=
  if irq_number =? TIMER_VECTOR then
    handler ← defined (timer_handler h); handler
  else if irq_number =? IPI_HALT then mret tt
  else if irq_number =? IPI_RESCHEDULE_VECTOR then
    handler ← defined (ipi_reschedule_handler h); handler;;
    ack_interrupt;;
    mret tt
  else if irq_number =? IPI_INVALIDATE_TLB_VECTOR then
    flush_tlb;;
    ack_interrupt;;
    mret tt
  else
    dispatcher ← defined (interrupt_dispatcher h);
    dispatcher (wsub irq_number IO_BASE).

(** The fault the kernel is told of; [fault_type::NONE] for the vectors Intel
    reserves. *)
Definition exception_fault (irq_number error_code : Z) : fault_type :=
  match irq_number with
  | 0 | 4 | 16 => FT_INVALID_ARITHMETIC
  | 14 => if Z.testbit error_code 4 then FT_MEMORY_INSTRUCTION_FETCH else FT_MEMORY
  | 6 => FT_INVALID_INSTRUCTION
  | 2 | 5 | 7 | 8 | 9 | 10 | 11 | 12 | 13 | 17 | 18 | 19 | 20 | 21 | 28 | 29 | 30 | 3 | 1 => FT_FATAL
  | _ => FT_NONE
  end.

(** [cr2] is what the processor left in CR2. *)
Definition do_irq_from_user (h : interrupt_handlers) (cr2 irq_number error_code : Z) : M kernel_exit :=
  (if irq_number <? INTERRUPT_BASE then
     context ← current_context;
     rip ← defined (get_register context RIP);
     let fault := exception_fault irq_number error_code in
     let fault_address := if irq_number =? exception_type.PAGE_FAULT then cr2 else rip in
     dispatcher ← defined (fault_dispatcher h);
     dispatcher fault irq_number error_code fault_address
   else dispatch_external_interrupt h irq_number);;
  lv ← gs_local_variable;
  if is_idle lv then mret EXIT_IDLE_LOOP else restore_user_context.

Definition do_irq_from_kernel (h : interrupt_handlers) (irq_number : Z) : M kernel_exit :=
  lv ← gs_local_variable;
  if (INTERRUPT_BASE <=? irq_number) && is_idle lv then
    dispatch_external_interrupt h irq_number;;
    lv ← gs_local_variable;
    if is_idle lv then mret EXIT_KERNEL else restore_user_context
  else mret EXIT_HALT.

(** The interrupt descriptor tables of the cores; an access out of range is
    undefined. *)
Definition register_idt_handler (irq_number handler : Z) (idts : gmap Z (list interrupt_descriptor))
    : M (result (gmap Z (list interrupt_descriptor)) hal_error) :=
  let? core_number := current_core_number in
  idt ← defined (idts !! core_number);
  defined (idt !! Z.to_nat irq_number);;
  mret (Ok (<[core_number := <[Z.to_nat irq_number := make_descriptor handler]> idt]> idts)).

(** [for (i = 0; i < 256; i++)]; the handlers are 16 bytes apart. *)
Fixpoint init_idt_from (turns : nat) (i interrupt_handlers : Z) (idts : gmap Z (list interrupt_descriptor))
    : M (result (gmap Z (list interrupt_descriptor)) hal_error) :=
  match turns with
  | O => mret (Ok idts)
  | S turns' =>
      let? idts' := register_idt_handler i (interrupt_handlers + 16 * i) idts in
      init_idt_from turns' (i + 1) interrupt_handlers idts'
  end.
Definition init_idt_handler (interrupt_handlers : Z) (idts : gmap Z (list interrupt_descriptor))
    : M (result (gmap Z (list interrupt_descriptor)) hal_error) :=
  init_idt_from INTERRUPT_DESCRIPTOR_SIZE_MAX 0 interrupt_handlers idts.

(** ** syscall.cpp *)

(** The answer says whether the process that runs next entered through an
    interrupt; [None] when the core went to the IDLE loop instead.  A call without a
    registered handler never ends. *)
Definition do_syscall (h : interrupt_handlers) (kernel_call_number : Z) : M (option bool) :=
  match kernel_call_handler h with
  | None => out_of_fuel
  | Some handler =>
      match kernel_call_type_of_sword kernel_call_number with
      | Some type =>
          previous ← gs_local_variable;
          handler type;;
          clv ← gs_local_variable;
          if is_idle clv then mret None
          else
            next ← defined (current_process clv);
            np ← load processes next;
            (if decide (current_process clv = current_process previous) then
               fs ← defined (get_register (registers np) FS_BASE);
               gs ← defined (get_register (registers np) GS_BASE);
               modify_core (λ c, c <| fs_base := fs |> <| user_gs_base := gs |>)
             else mret tt);;
            enter_from ← defined (get_register (registers np) ENTER_FROM);
            mret (Some (negb (enter_from =? ENTRY_SYSCALL)))
      | None =>
          match fault_dispatcher h with
          | None => out_of_fuel
          | Some dispatcher =>
              context ← current_context;
              rip ← defined (get_register context RIP);
              dispatcher FT_INVALID_KERNEL_CALL kernel_call_number 0 rip;;
              context ← current_context;
              enter_from ← defined (get_register context ENTER_FROM);
              mret (Some (negb (enter_from =? ENTRY_SYSCALL)))
          end
      end
  end.

End interrupt.
