(* ===== verification/InterruptProofs.v ===== *)
(** The entries of x86-64: interrupts arrive at the handler of the line they were
    enabled for, a fault nobody resolves stops the process, and what the descriptor
    tables and model-specific registers say. *)

From S2P Require Import Prelude Word Types Dll Kernel Slot Scheduler SchedulerProofs Hal ProcessManager ProcessManagerProofs.
From S2P Require Import MemoryTypes Memory Devices Reclamation KernelCall CString.
From S2P Require Import Bus Acpi Platform Apic AcpiProofs ApicProofs SmpProofs Interrupt.
Import register_index.

Section routing.
Context `{config}.

(** The handlers the kernel registers. *)
Definition kernel_handlers : interrupt_handlers := init_handler no_handlers.

Lemma dispatch_device v :
  v ≠ TIMER_VECTOR → v ≠ IPI_HALT → v ≠ IPI_RESCHEDULE_VECTOR → v ≠ IPI_INVALIDATE_TLB_VECTOR →
  dispatch_external_interrupt kernel_handlers v = handle_interrupt (wsub v IO_BASE).
Proof.
  intros H1 H2 H3 H4. unfold dispatch_external_interrupt.
  by rewrite (proj2 (Z.eqb_neq _ _) H1), (proj2 (Z.eqb_neq _ _) H2), (proj2 (Z.eqb_neq _ _) H3),
    (proj2 (Z.eqb_neq _ _) H4).
Qed.

(** C18: An enabled interrupt reaches its own handler.  When [enable_interrupt]
    accepts an IRQ (its vector is below the reserved ones), it programs the pin the
    IRQ resolves to, and no other register of the controller, with an unmasked entry
    of the polarity and trigger mode of the firmware's override, for the boot
    processor; and the vector of that entry, when it arrives, is handled as exactly
    that IRQ: not as an exception, the timer, an inter-processor interrupt or another
    device. *)
Theorem enabled_interrupt_reaches_handler irq g log d0 :
  let a := io_apic_core g in
  io_apic_ready a → 0 ≤ irq < 256 → IO_BASE + irq < IPI_HALT → 0 ≤ irq_pin a irq < 120 →
  dwp (x86_64_enable_interrupt irq)
    (λ r g' log', r = Ok tt ∧ g' = g ∧ ∃ new, log' = log ++ new ∧
       let d := io_apic_after a d0 new in
       (∃ entry, redirection d (irq_pin a irq) = Some entry ∧ decode_route entry = irq_route a irq UNMASKED) ∧
       (∀ pin, pin ≠ irq_pin a irq → redirection d pin = redirection d0 pin)) g log ∧
  (let v := route_vector (irq_route a irq UNMASKED) in
   INTERRUPT_BASE ≤ v ∧ dispatch_external_interrupt kernel_handlers v = handle_interrupt irq).
Proof.
  intros a Hr Hirq Hvec Hpin. destruct (irq_redirect_entry_route a irq UNMASKED) as [Hd He]. split.
  - unfold x86_64_enable_interrupt, io_apic_enable_interrupt.
    rewrite (proj2 (Z.leb_gt 256 irq)), (proj2 (Z.leb_gt IPI_HALT _)) by lia.
    apply (configure_irq_spec a); [done..|lia|]. split; [done|]. split; [done|]. eexists. split; [done|].
    destruct (entry_writes_after a d0 (irq_pin a irq) (irq_redirect_entry a irq UNMASKED) Hr Hpin He) as [H1 _].
    split; [by eexists|]. intros pin Hne. by apply entry_writes_other.
  - assert (Hv : route_vector (irq_route a irq UNMASKED) = IO_BASE + irq).
    { cbn. apply wrap8_id. unfold IO_BASE, IPI_HALT in *. destruct SMP_ENABLED; lia. }
    rewrite Hv. split; [unfold IO_BASE, INTERRUPT_BASE; lia|].
    rewrite dispatch_device.
    + by rewrite wsub_id, Z.add_simpl_l by (unfold IO_BASE in *; lia).
    + unfold IO_BASE, TIMER_VECTOR. lia.
    + lia.
    + unfold IPI_RESCHEDULE_VECTOR, IPI_HALT in *. destruct SMP_ENABLED; lia.
    + unfold IPI_INVALIDATE_TLB_VECTOR, IPI_HALT in *. destruct SMP_ENABLED; lia.
Qed.

(** What the receiving core does with an inter-processor interrupt. *)
Definition ipi_handler (type : ipi_type) : M unit :=
  (match type with
   | IPI_RESCHEDULE => handle_ipi_reschedule;; mret tt
   | IPI_INVALIDATE_TLB => flush_tlb
   end);;
  ack_interrupt;; mret tt.

(** An inter-processor interrupt is understood by the core it was sent to.
    [send_ipi] gives the local APIC one command, a fixed-delivery interrupt to the
    APIC identifier of the core, whose vector the receiver dispatches as the type
    that was sent (a TLB invalidation flushes, a reschedule reschedules) and
    completes once. *)
Theorem sent_ipi_is_dispatched `{bus_device} type core apic_id step fuel g log :
  platform_ready g step fuel → 0 ≤ core → core_apic_ids g !! Z.to_nat core = Some apic_id → 0 ≤ apic_id < 256 →
  ∃ v, dwp (x86_64_send_ipi fuel type core)
    (λ r g' log', r = Ok tt ∧ g' = g ∧ ∃ new, log' = log ++ new ∧
       commands (local_apic_core g) new = [byte_ipi v 0 0 1 apic_id]) g log ∧
  INTERRUPT_BASE ≤ v < 256 ∧ ∀ k, dispatch_external_interrupt kernel_handlers v k = ipi_handler type k.
Proof.
  intros Hp Hcore Hid Ha. exists (IPI_RESCHEDULE_VECTOR + raw_ipi_type type).
  assert (Hv : INTERRUPT_BASE ≤ IPI_RESCHEDULE_VECTOR + raw_ipi_type type < 256).
  { unfold IPI_RESCHEDULE_VECTOR, INTERRUPT_BASE, raw_ipi_type. destruct SMP_ENABLED, type; lia. }
  split; [|split; [done|]].
  - unfold x86_64_send_ipi. dwp_steps. rewrite (proj2 (Z.leb_le 0 core)) by done.
    eapply dwp_certainly; [exact Hid|]. rewrite !wrap8_id by (unfold INTERRUPT_BASE in *; lia).
    eapply (ipi_sends _ step); [done|unfold INTERRUPT_BASE in *; lia|done|by left|by left|by right; left|].
    intros new Hn. split; [done|]. split; [done|]. exists new. split; [done|]. by apply issues_commands.
  - intros k. unfold dispatch_external_interrupt, IPI_RESCHEDULE_VECTOR, IPI_INVALIDATE_TLB_VECTOR, IPI_HALT,
      TIMER_VECTOR, ipi_handler, raw_ipi_type. by destruct SMP_ENABLED, type.
Qed.

(** ** Faults *)

Definition faulted (reason : fault_type) (code arch_code address : Z) (v : process) : process :=
  v <| fault_reason := reason |> <| fault_address := address |> <| fault_code := code |>
    <| arch_fault_code := arch_code |> <| status := PS_BLOCKED_SUSPEND |>.

(** A process [p] that runs on a uniprocessor and has no resolver for its faults;
    [next] runs after it. *)
Record unresolved (k : kernel) (p : Z) (v : process) (cpu : cpu_local_variable) (hc : hal_core)
    (qs : ready_queues) (next : Z) (nv : process) (idle : bool) (qs' : ready_queues)
    (root : capability_slot) (fs gs : Z) : Prop := {
  un_cpu : on_cpu BSP_ID k cpu hc p;
  un_busy : is_idle cpu = false;
  un_process : processes k !! p = Some v;
  un_running : is_in_ready_queue v = false;
  un_resolver : ∃ sv, slots k !! process_slot_ref p RESOLVER_PORT = Some sv ∧
    (type sv ≠ CT_IPC_PORT ∨ component sv = None);
  un_ready : sched_inv BSP_ID k qs;
  un_next : next_to_run (idle_process (process_manager_core cpu)) qs = (next, idle, qs');
  un_other : next ≠ p;
  un_runnable : runnable k next nv root fs gs;
}.

Lemma processes_insert_insert (k : kernel) p x y :
  k <| processes ::= <[p := x]> |> <| processes ::= <[p := y]> |> = k <| processes ::= <[p := y]> |>.
Proof. destruct k. cbv [upd]. ksimpl_goal. by rewrite insert_insert_eq. Qed.

Lemma handle_fault_unresolved k p v cpu hc qs next nv idle qs' root fs gs reason code arch_code address :
  one_core → unresolved k p v cpu hc qs next nv idle qs' root fs gs →
  wp (handle_fault reason code arch_code address)
     (λ _ k', dispatched BSP_ID next (data_0 (data root)) fs gs idle qs'
        (k <| processes ::= <[p := faulted reason code arch_code address v]> |>) k') k.
Proof.
  intros Hone [Hon Hb Hv Hrun' (sv & Hsv & Hres) Hinv Hnext Hne Hrun]. pose proof Hon as [Hcpu Hcur _ _ _].
  set (k1 := k <| processes ::= <[p := faulted reason code arch_code address v]> |>).
  assert (Hswitch : wp (try_schedule_and_switch BSP_ID)
    (λ _ k', dispatched BSP_ID next (data_0 (data root)) fs gs idle qs' k1 k') k1).
  { eapply wp_mono; [|eapply (try_schedule_and_switch_spec Hone BSP_ID k1 qs cpu hc p nv root fs gs)].
    - intros r k' [-> Hd]. unfold rescheduled in Hd. rewrite Hnext in Hd. cbn beta iota in Hd.
      by rewrite Hb, andb_false_r in Hd.
    - by destruct Hon.
    - eexists. apply lookup_insert_eq.
    - by eapply sched_inv_insert; [..|right].
    - rewrite Hnext. destruct Hrun. split; try done.
      change (<[p := faulted reason code arch_code address v]> (processes k) !! next = Some nv).
      by rewrite lookup_insert_ne by done. }
  unfold handle_fault. wp_head. eapply current_local_variable_spec; [done|]. wp_steps. rewrite Hb. wp_steps.
  unfold current_process_manager. rewrite Hone. cbn [negb]. wp_steps.
  unfold retrieve_current_process, current_process_on_this_core. repeat wp_head.
  eapply current_local_variable_spec; [done|]. cbn [transform_error]. wp_steps. rewrite Hcur. wp_steps.
  unfold report_fault. cbn [transform_error]. wp_steps.
  assert (Hfinal : wp (modify processes p (λ p, p <| status := PS_BLOCKED_SUSPEND |>);; fail (A := unit) CE_INVALID_DESCRIPTOR)
    (λ r k', match r with
             | Ok _ => False
             | Err _ => k' = k1
             end) (k <| processes ::= <[p := v <| fault_reason := reason |> <| fault_address := address |>
                        <| fault_code := code |> <| arch_fault_code := arch_code |>]> |>)).
  { wp_steps. unfold k1. by rewrite processes_insert_insert. }
  destruct Hres as [Hres|Hres].
  - destruct (type sv); try done; (eapply wp_mono; [|exact Hfinal]); (intros [r|e] k' Hk; [done|rewrite Hk; exact Hswitch]).
  - rewrite Hres. destruct (type sv); (eapply wp_mono; [|exact Hfinal]); (intros [r|e] k' Hk; [done|rewrite Hk; exact Hswitch]).
Qed.

Lemma gs_local_variable_spec c k cpu hc p Q : on_cpu c k cpu hc p → Q cpu k → wp gs_local_variable Q k.
Proof. intros [Hc _ Hh _ Hg] HQ. unfold gs_local_variable, this_core. by wp_steps. Qed.

Lemma current_context_spec c k cpu hc p v Q :
  on_cpu c k cpu hc p → processes k !! p = Some v → Q (registers v) k → wp current_context Q k.
Proof.
  intros Hon Hv HQ. unfold current_context. wp_head. eapply gs_local_variable_spec; [done|].
  destruct Hon as [_ Hcur _ _ _]. by wp_steps.
Qed.

(** A process keeps its context over a switch. *)
Lemma dispatched_lookup c p root fs gs idle qs' k k' q v :
  dispatched c p root fs gs idle qs' k k' → processes k !! q = Some v →
  ∃ v', processes k' !! q = Some v' ∧ context_core v' = context_core v.
Proof.
  intros Hd Hq. pose proof (disp_processes _ _ _ _ _ _ _ _ _ Hd) as Hp.
  assert (Hl : (context_core <$> processes k') !! q = Some (context_core v)) by (by rewrite Hp, lookup_fmap, Hq).
  rewrite lookup_fmap in Hl. destruct (processes k' !! q) as [v'|]; [|done]. exists v'. split; [done|].
  exact (Some_inj _ _ Hl).
Qed.

(** The process that was stopped by a fault: suspended, with the fault for whoever
    looks at it. *)
Definition stopped_by (k' : kernel) (p : Z) (reason : fault_type) (code arch_code address : Z) : Prop :=
  ∃ v', processes k' !! p = Some v' ∧ status v' = PS_BLOCKED_SUSPEND ∧ fault_reason v' = reason ∧
    fault_code v' = code ∧ arch_fault_code v' = arch_code ∧ fault_address v' = address.

Lemma dispatched_stopped c next root fs gs idle qs' k p v reason code arch_code address k' :
  dispatched c next root fs gs idle qs'
    (k <| processes ::= <[p := faulted reason code arch_code address v]> |>) k' →
  stopped_by k' p reason code arch_code address.
Proof.
  intros Hd. destruct (dispatched_lookup _ _ _ _ _ _ _ _ _ p (faulted reason code arch_code address v) Hd)
    as (v' & Hv' & Hc); [apply lookup_insert_eq|].
  exists v'. split; [done|]. split_and!.
  - exact (f_equal status Hc).
  - exact (f_equal fault_reason Hc).
  - exact (f_equal fault_code Hc).
  - exact (f_equal arch_fault_code Hc).
  - exact (f_equal fault_address Hc).
Qed.

Lemma unresolved_next k p v cpu hc qs next nv idle qs' root fs gs w k' :
  unresolved k p v cpu hc qs next nv idle qs' root fs gs →
  dispatched BSP_ID next (data_0 (data root)) fs gs idle qs' (k <| processes ::= <[p := w]> |>) k' →
  ∃ cpu' hc' nv', on_cpu BSP_ID k' cpu' hc' next ∧ is_idle cpu' = idle ∧
    processes k' !! next = Some nv' ∧ registers nv' = registers nv.
Proof.
  intros Hu Hd. destruct (disp_cpu _ _ _ _ _ _ _ _ _ Hd) as (cpu' & hc' & Hon & Hi & _).
  destruct (dispatched_lookup _ _ _ _ _ _ _ _ _ next nv Hd) as (nv' & Hn & Hc).
  { change (<[p := w]> (processes k) !! next = Some nv). rewrite lookup_insert_ne by (by destruct Hu).
    destruct Hu as [_ _ _ _ _ _ _ _ []]. done. }
  exists cpu', hc', nv'. split_and!; try done. exact (f_equal registers Hc).
Qed.

(** C17: An exception nobody resolves stops its process and nothing else.  On a
    uniprocessor, for every exception vector and error code, a process without a
    resolver port that raises it is suspended with the reason, vector, error code and
    address of its fault (CR2 for a page fault, its instruction pointer otherwise),
    the scheduler's choice gets the processor, and the kernel leaves to user mode
    with the registers of that process, or to the IDLE loop when none is ready; the
    faulting process is not returned to. *)
Theorem user_exception_stops k p v cpu hc qs next nv idle qs' root fs gs cr2 irq error_code rip regs :
  one_core → unresolved k p v cpu hc qs next nv idle qs' root fs gs →
  0 ≤ irq < INTERRUPT_BASE → get_register (registers v) RIP = Some rip →
  user_registers (registers nv) = Some regs →
  wp (do_irq_from_user kernel_handlers cr2 irq error_code)
     (λ exit k', exit = (if idle then EXIT_IDLE_LOOP else EXIT_USER regs) ∧
        stopped_by k' p (exception_fault irq error_code) irq error_code (if irq =? 14 then cr2 else rip) ∧
        sched_inv BSP_ID k' qs' ∧ ∃ cpu' hc', on_cpu BSP_ID k' cpu' hc' next ∧ is_idle cpu' = idle) k.
Proof.
  intros Hone Hu Hirq Hrip Hregs. pose proof Hu as [Hon _ Hv _ _ _ _ _ _].
  unfold do_irq_from_user. rewrite (proj2 (Z.ltb_lt _ _)) by lia. wp_head. wp_head.
  eapply current_context_spec; [done..|]. wp_head. eapply wp_defined; [exact Hrip|].
  cbn [fault_dispatcher kernel_handlers init_handler register_fault_dispatcher snd upd defined]. repeat wp_head.
  eapply wp_mono; [|by eapply handle_fault_unresolved]. intros r k1 Hd. wp_steps.
  destruct (unresolved_next _ _ _ _ _ _ _ _ _ _ _ _ _ _ _ Hu Hd) as (cpu' & hc' & nv' & Hon' & Hi & Hn & Hr).
  eapply gs_local_variable_spec; [done|]. rewrite Hi.
  assert (Hpost : stopped_by k1 p (exception_fault irq error_code) irq error_code (if irq =? 14 then cr2 else rip) ∧
    sched_inv BSP_ID k1 qs' ∧ ∃ cpu' hc', on_cpu BSP_ID k1 cpu' hc' next ∧ is_idle cpu' = idle).
  { split; [exact (dispatched_stopped _ _ _ _ _ _ _ _ _ _ _ _ _ _ _ Hd)|]. split; [by destruct Hd|]. by eexists _, _. }
  destruct idle; [by wp_steps|].
  unfold restore_user_context. wp_head. eapply current_context_spec; [done..|]. rewrite Hr.
  wp_head. eapply wp_defined; [exact Hregs|]. by wp_steps.
Qed.

(** C37: An invalid kernel call leaves the kernel while the core is idle.  When a
    process without a resolver issues an unknown kernel call and no process is ready,
    the process is suspended and the core switches to the IDLE process; [do_syscall]
    then answers which way to restore a user context, as for a process that runs,
    although the core is marked idle and the current context is the IDLE
    process's: the check that sends every other entry to the IDLE loop is missing
    here, so that the assembly restores the context of the IDLE process. *)
Theorem invalid_call_resumes_idle k p v cpu hc qs next nv qs' root fs gs number rip enter_from :
  one_core → unresolved k p v cpu hc qs next nv true qs' root fs gs →
  kernel_call_type_of_sword number = None → get_register (registers v) RIP = Some rip →
  get_register (registers nv) ENTER_FROM = Some enter_from →
  wp (do_syscall kernel_handlers number)
     (λ r k', r = Some (negb (enter_from =? ENTRY_SYSCALL)) ∧
        next = idle_process (process_manager_core cpu) ∧
        stopped_by k' p FT_INVALID_KERNEL_CALL number 0 rip ∧
        ∃ cpu' hc', on_cpu BSP_ID k' cpu' hc' next ∧ is_idle cpu' = true) k.
Proof.
  intros Hone Hu Hnumber Hrip Hef. pose proof Hu as [Hon _ Hv _ _ _ Hnext _ _].
  assert (Hidle : next = idle_process (process_manager_core cpu)).
  { revert Hnext. unfold next_to_run. destruct (abs_schedule qs) as [[[] ]|]; congruence. }
  unfold do_syscall. cbn [kernel_call_handler fault_dispatcher kernel_handlers init_handler
    register_fault_dispatcher register_kernel_call_handler register_ipi_reschedule_handler
    register_interrupt_dispatcher register_system_timer_handler snd upd].
  rewrite Hnumber. wp_head. eapply current_context_spec; [done..|]. wp_head. eapply wp_defined; [exact Hrip|].
  repeat wp_head. eapply wp_mono; [|by eapply handle_fault_unresolved]. intros r k1 Hd. wp_steps.
  destruct (unresolved_next _ _ _ _ _ _ _ _ _ _ _ _ _ _ _ Hu Hd) as (cpu' & hc' & nv' & Hon' & Hi & Hn & Hr).
  eapply current_context_spec; [done..|]. rewrite Hr. wp_head. eapply wp_defined; [exact Hef|]. wp_steps.
  split; [done|]. split; [done|]. split; [exact (dispatched_stopped _ _ _ _ _ _ _ _ _ _ _ _ _ _ _ Hd)|]. by eexists _, _.
Qed.

(** ** Descriptor tables *)

(** A gate as the processor reads it (Intel SDM vol. 3A, figure 6-8). *)
Record gate := MkGate { gate_handler : Z; gate_selector : Z; gate_stack : Z; gate_present : bool; gate_privilege : Z }.
Definition decode_gate (d : interrupt_descriptor) : gate :=
  MkGate (offset_low d + 2 ^ 16 * offset_mid d + 2 ^ 32 * offset_high d) (kernel_cs d) (Z.land (ist d) 7)
    (Z.testbit (gate_type d) 7) (Z.land (Z.shiftr (gate_type d) 5) 3).

Lemma make_descriptor_gate handler :
  0 ≤ handler < 2 ^ 64 → decode_gate (make_descriptor handler) = MkGate handler 0x08 1 true 3.
Proof.
  intros Hh. unfold decode_gate, make_descriptor. cbn [offset_low offset_mid offset_high kernel_cs ist gate_type].
  change 0xffff with (Z.ones 16). change 0xffffffff with (Z.ones 32).
  rewrite !Z.land_ones, !Z.shiftr_div_pow2 by lia. f_equal.
  pose proof (Z.div_mod handler (2 ^ 16)). pose proof (Z.div_mod (handler / 2 ^ 16) (2 ^ 16)).
  rewrite Z.div_div in * by lia. change (2 ^ 16 * 2 ^ 16) with (2 ^ 32) in *.
  rewrite (Z.mod_small (handler / 2 ^ 32)); [lia|]. split; [apply Z.div_pos; lia|].
  apply Z.div_lt_upper_bound; lia.
Qed.

Lemma current_core_number_spec c k cpu hc p Q :
  on_cpu c k cpu hc p → Q (Ok (core_number cpu)) k → wp current_core_number Q k.
Proof.
  intros Hon HQ. unfold current_core_number. wp_head. eapply current_local_variable_spec; [done|].
  destruct Hon. by wp_steps.
Qed.

Lemma init_idt_from_spec c k cpu hc p turns i base idts idt Q :
  on_cpu c k cpu hc p → idts !! core_number cpu = Some idt → 0 ≤ i →
  (Z.to_nat i + turns ≤ length idt)%nat →
  (∀ idt', length idt' = length idt →
     (∀ j, idt' !! j = if decide (Z.to_nat i ≤ j < Z.to_nat i + turns)%nat
                       then Some (make_descriptor (base + 16 * Z.of_nat j)) else idt !! j) →
     Q (Ok (<[core_number cpu := idt']> idts)) k) →
  wp (init_idt_from turns i base idts) Q k.
Proof.
  intros Hon. revert i idts idt. induction turns as [|turns IH]; intros i idts idt Hi H0 Hl HQ; cbn [init_idt_from].
  { wp_steps. rewrite <- (insert_id idts (core_number cpu) idt) by done. apply HQ; [done|].
    intros j. rewrite decide_False by lia. done. }
  unfold register_idt_handler. repeat wp_head. eapply current_core_number_spec; [done|]. wp_head.
  eapply wp_defined; [exact Hi|]. destruct (lookup_lt_is_Some_2 idt (Z.to_nat i)) as [d Hd]; [lia|].
  wp_head. eapply wp_defined; [exact Hd|]. wp_steps.
  eapply (IH (i + 1) _ (<[Z.to_nat i := make_descriptor (base + 16 * i)]> idt)).
  - apply lookup_insert_eq.
  - lia.
  - rewrite length_insert. lia.
  - intros idt' Hl' Hj. rewrite insert_insert_eq. apply HQ; [by rewrite Hl', length_insert|].
    intros j. rewrite Hj. destruct (decide (j = Z.to_nat i)) as [->|Hne].
    + rewrite decide_False, decide_True, list_lookup_insert_eq by lia. by rewrite Z2Nat.id.
    + rewrite list_lookup_insert_ne by done. repeat case_decide; (done || lia).
Qed.

(** The interrupt descriptor table sends every vector to its own stub.  After
    [init_idt_handler], each of the 256 gates of the running core's table is present
    and decodes to the address of the assembly stub of its vector, in the kernel's
    code segment, on the kernel stack (IST 1); the tables of the other cores are
    untouched.  Every gate has privilege level 3, so that user code can raise every
    vector with an INT instruction, those of devices and exceptions included. *)
Theorem idt_gates k c cpu hc p base idts idt :
  on_cpu c k cpu hc p → idts !! core_number cpu = Some idt → length idt = INTERRUPT_DESCRIPTOR_SIZE_MAX →
  0 ≤ base → base + 16 * 256 ≤ 2 ^ 64 →
  wp (init_idt_handler base idts)
     (λ r k', k' = k ∧ ∃ idt', r = Ok (<[core_number cpu := idt']> idts) ∧
        ∀ vector, 0 ≤ vector < 256 → ∃ d, idt' !! Z.to_nat vector = Some d ∧
          decode_gate d = MkGate (base + 16 * vector) KERNEL_CS 1 true 3) k.
Proof.
  intros Hon Hi Hl Hb Hb'. unfold init_idt_handler.
  eapply init_idt_from_spec; [done|exact Hi|lia|unfold INTERRUPT_DESCRIPTOR_SIZE_MAX in *; lia|].
  intros idt' _ Hj. split; [done|]. exists idt'. split; [done|]. intros vector Hv. eexists.
  split; [rewrite Hj, decide_True by (unfold INTERRUPT_DESCRIPTOR_SIZE_MAX; lia); done|].
  rewrite Z2Nat.id by lia. apply make_descriptor_gate. lia.
Qed.

End routing.

(** The selectors [sysretq] loads (Intel SDM vol. 2B): CS is the top field of STAR
    plus 16, SS plus 8. *)
Definition sysret_cs (star : Z) : Z := Z.shiftr star 48 + 16.
Definition sysret_ss (star : Z) : Z := Z.shiftr star 48 + 8.

Lemma sysret_selectors context :
  init_hardware_context CM_USER = (context, Ok tt) →
  get_register context CS = Some (sysret_cs star_value) ∧ get_register context SS = Some (sysret_ss star_value).
Proof. intros Hc. injection Hc as <-. by vm_compute. Qed.

(** ** Examples *)

Section example.
#[local] Existing Instance example_config.

Lemma enabled_interrupt_reaches_handler_witness :
  let g := example_io_globals <| io_apic_core := example_io_apic |> in
  dwp (x86_64_enable_interrupt 9)
    (λ r g' log', r = Ok tt ∧ g' = g ∧ ∃ new, log' = [] ++ new ∧
       let d := io_apic_after example_io_apic (MkIoApicDevice 0 ∅) new in
       (∃ entry, redirection d (irq_pin example_io_apic 9) = Some entry ∧
                 decode_route entry = irq_route example_io_apic 9 UNMASKED) ∧
       (∀ pin, pin ≠ irq_pin example_io_apic 9 → redirection d pin = redirection (MkIoApicDevice 0 ∅) pin)) g [] ∧
  irq_route example_io_apic 9 UNMASKED = MkRoute 0x39 0 false true true false 0 ∧
  dispatch_external_interrupt kernel_handlers 0x39 = handle_interrupt 9.
Proof.
  intros g. destruct (enabled_interrupt_reaches_handler 9 g [] (MkIoApicDevice 0 ∅))
    as [H1 [_ H2]].
  - apply configured_ready. by vm_compute.
  - lia.
  - by vm_compute.
  - by vm_compute.
  - split; [exact H1|split; [reflexivity|exact H2]].
Defined.

Lemma sent_ipi_is_dispatched_witness :
  ∃ v, dwp (x86_64_send_ipi (H := example_device) (Z.to_nat 40000) IPI_INVALIDATE_TLB 1)
    (λ r g' log', r = Ok tt ∧ g' = example_smp_platform ∧ ∃ new, log' = [] ++ new ∧
       commands (local_apic_core example_smp_platform) new = [byte_ipi v 0 0 1 0]) example_smp_platform [] ∧
  INTERRUPT_BASE ≤ v < 256 ∧
  ∀ k, dispatch_external_interrupt kernel_handlers v k = ipi_handler IPI_INVALIDATE_TLB k.
Proof.
  apply (sent_ipi_is_dispatched (H0 := example_device) IPI_INVALIDATE_TLB 1 0 1 (Z.to_nat 40000)
           example_smp_platform []); [exact example_platform_ready|lia|reflexivity|lia].
Defined.

(** Process 3 runs without a resolver; in the first state processes 1 and 2 are
    ready, in the second none is. *)
Definition example_faulting : kernel :=
  (example_machine 10) <| slots ::= <[process_slot_ref 3 RESOLVER_PORT := initial_slot]> |>.
Definition lonely_cpu : cpu_local_variable := MkCpu (Some 3) 0 (MkProcessManager 0 initial_scheduler) false None.
Definition example_lonely : kernel := example_faulting <| cpu_local_variables := {[0 := lonely_cpu]} |>.

Lemma example_faulting_unresolved :
  unresolved example_faulting 3 ((ready_process 5 None None false) <| quantum := 10 |>) (example_cpu 3) example_core
    example_queues 1 (ready_process 5 None (Some 2) true) false (update_queue 5 [2] example_queues)
    (example_space 1) 0 0.
Proof.
  split; try done.
  - eexists. split; [reflexivity|by left].
  - destruct (example_machine_inv 10) as (cpu & Hc & Hr). by exists cpu.
Qed.
Lemma example_lonely_unresolved :
  unresolved example_lonely 3 ((ready_process 5 None None false) <| quantum := 10 |>) lonely_cpu example_core
    (λ _, []) 0 initial_process true (λ _, []) (example_space 0) 0 0.
Proof.
  split; try done.
  - eexists. split; [reflexivity|by left].
  - eexists. split; [reflexivity|apply sched_repr_initial].
Qed.

Lemma user_exception_stops_witness :
  wp (do_irq_from_user kernel_handlers 0xdead000 14 6)
     (λ exit k', exit = EXIT_USER (replicate 23 0) ∧
        stopped_by k' 3 FT_MEMORY 14 6 0xdead000 ∧ sched_inv BSP_ID k' (update_queue 5 [2] example_queues) ∧
        ∃ cpu' hc', on_cpu BSP_ID k' cpu' hc' 1 ∧ is_idle cpu' = false) example_faulting.
Proof.
  exact (user_exception_stops _ _ _ _ _ _ _ _ _ _ _ _ _ 0xdead000 14 6 0 (replicate 23 0) eq_refl
           example_faulting_unresolved ltac:(unfold INTERRUPT_BASE; lia) eq_refl eq_refl).
Defined.

Lemma invalid_call_resumes_idle_witness :
  wp (do_syscall kernel_handlers 7)
     (λ r k', r = Some true ∧ 0 = idle_process (process_manager_core lonely_cpu) ∧
        stopped_by k' 3 FT_INVALID_KERNEL_CALL 7 0 0 ∧
        ∃ cpu' hc', on_cpu BSP_ID k' cpu' hc' 0 ∧ is_idle cpu' = true) example_lonely.
Proof.
  exact (invalid_call_resumes_idle _ _ _ _ _ _ _ _ _ _ _ _ 7 0 0 eq_refl example_lonely_unresolved
           eq_refl eq_refl eq_refl).
Defined.

Lemma idt_gates_witness :
  let idt := replicate 256 (MkDescriptor 0 0 0 0 0 0 0) in
  wp (init_idt_handler 0xFFFF800000102000 {[0 := idt]})
     (λ r k', k' = example_machine 10 ∧ ∃ idt', r = Ok (<[0 := idt']> {[0 := idt]}) ∧
        ∀ vector, 0 ≤ vector < 256 → ∃ d, idt' !! Z.to_nat vector = Some d ∧
          decode_gate d = MkGate (0xFFFF800000102000 + 16 * vector) KERNEL_CS 1 true 3) (example_machine 10).
Proof.
  intros idt. apply (idt_gates (example_machine 10) 0 (example_cpu 3) example_core 3 0xFFFF800000102000
    {[0 := idt]} idt); [by split|reflexivity|reflexivity|lia|lia].
Defined.
End example.
