(* ===== verification/Gic.v ===== *)
(** The devices of the AArch64 platforms: the GICv2 interrupt controller and the
    generic timer (src/src/hal/aarch64/platform/qemu/interrupt/gic.cpp,
    time/generic_timer.cpp; the files under platform/rpi4b are the same code for other
    addresses), the start of the other processors (platform/qemu/boot/smp.cpp,
    platform/rpi4b/boot/smp.cpp, [start_secondary_cores] of
    src/src/hal/aarch64/arch/cpu.cpp) and the interrupt entry
    (src/src/hal/aarch64/interrupt/interrupt.cpp).

    Barriers order accesses that the log orders already, and log output says nothing
    about the state; both are left out. *)

From S2P Require Import Prelude Word Types Kernel MemoryTypes DeviceTree CpuTopology Bus.

(** ** platform.hpp *)

Class gic_platform := {
  GIC_DISTRIBUTOR_BASE : Z;
  GIC_CPU_INTERFACE_BASE : Z;
}.
Definition qemu_platform : gic_platform :=
  {| GIC_DISTRIBUTOR_BASE := 0x08000000; GIC_CPU_INTERFACE_BASE := 0x08010000 |}.
Definition rpi4b_platform : gic_platform :=
  {| GIC_DISTRIBUTOR_BASE := 0xff841000; GIC_CPU_INTERFACE_BASE := 0xff842000 |}.
Definition GENERIC_TIMER_IRQ : Z := 30.

(** [interrupt_count], [timer_interval], and the interrupts in service per core. *)
Record gic_globals := MkGicGlobals {
  interrupt_count : Z;
  timer_interval : Z;
  active_irqs : list Z;
  active_irq_valid : list bool;
}.
#[global] Instance eta_gic_globals : Eta gic_globals := λ x,
  MkGicGlobals (interrupt_count x) (timer_interval x) (active_irqs x) (active_irq_valid x).
Definition initial_gic : gic_globals :=
  MkGicGlobals 0 0 (replicate (Z.to_nat CPU_COUNT_MAX) 0) (replicate (Z.to_nat CPU_COUNT_MAX) false).

Abbreviation gic_driver := (D gic_globals).

(** The kernel's handlers, as far as the devices see them; null pointers are
    [None].  [invalidate_tlb_all] is a broadcast instruction. *)
Record gic_handlers := MkGicHandlers {
  gic_timer_handler : option (gic_driver unit);
  gic_interrupt_dispatcher : option (Z → gic_driver unit);
  gic_ipi_reschedule_handler : option (gic_driver unit);
  invalidate_tlb_all : gic_driver unit;
}.

Section gic.
Context `{bus_device} `{gic_platform}.

Definition gicd (offset : Z) : bus_access :=
  MMIO (physical_to_virtual_address (GIC_DISTRIBUTOR_BASE + offset)).
Definition gicc (offset : Z) : bus_access :=
  MMIO (physical_to_virtual_address (GIC_CPU_INTERFACE_BASE + offset)).

(** ** gic.cpp *)

(** [for (irq = start; irq < start + turns * step; irq += step)]. *)
Fixpoint for_each_irq (turns : nat) (irq step : Z) (f : Z → gic_driver unit) : gic_driver unit :=
  match turns with
  | O => mret tt
  | S turns' => f irq;; for_each_irq turns' (irq + step) step f
  end.

Definition init_current_core_interrupt_controller : gic_driver hal_result :=
  bus_write (gicd 0x080) 0xffffffff;;
  bus_write (gicd 0x180) 0xffffffff;;
  bus_write (gicd 0x280) 0xffffffff;;
  for_each_irq 8 0 4 (λ irq, bus_write (gicd (0x400 + irq)) 0xa0a0a0a0);;
  bus_write (gicc 0x000) 0;;
  bus_write (gicc 0x004) 0xff;;
  bus_write (gicc 0x008) 0x3;;
  bus_write (gicc 0x000) 7;;
  bus_ok.

(** The count is a multiple of 32, at most [IRQ_NUMBER_MAX]. *)
Definition count_interrupts (typer : Z) : Z :=
  let count := (Z.land typer 0x1f + 1) * 32 in
  if IRQ_NUMBER_MAX <? count then IRQ_NUMBER_MAX else count.

Definition init_interrupt_controller : gic_driver hal_result :=
  bus_write (gicd 0x000) 0;;
  bus_write (gicc 0x000) 0;;
  typer ← bus_read (gicd 0x004);
  let count := count_interrupts (wrap32 typer) in
  set_objects (λ g, g <| interrupt_count := count |>);;
  for_each_irq (Z.to_nat (count / 32)) 0 32 (λ irq,
    let index := irq / 32 in
    bus_write (gicd (0x080 + index * 4)) 0xffffffff;;
    bus_write (gicd (0x180 + index * 4)) 0xffffffff;;
    bus_write (gicd (0x280 + index * 4)) 0xffffffff);;
  for_each_irq (Z.to_nat (count / 4)) 0 4 (λ irq,
    bus_write (gicd (0x400 + irq)) 0xa0a0a0a0;;
    if 32 <=? irq then bus_write (gicd (0x800 + irq)) 0x01010101 else mret tt);;
  bus_write (gicd 0x000) 3;;
  init_current_core_interrupt_controller.

Definition enable_irq (irq_number : Z) : gic_driver hal_result :=
  count ← objects interrupt_count;
  if count <=? irq_number then bus_fail HE_ILLEGAL_ARGUMENT
  else
    bus_write (gicd (0x100 + irq_number / 32 * 4)) (Z.shiftl 1 (irq_number mod 32));;
    bus_ok.

Definition disable_irq (irq_number : Z) : gic_driver hal_result :=
  count ← objects interrupt_count;
  if count <=? irq_number then bus_fail HE_ILLEGAL_ARGUMENT
  else
    bus_write (gicd (0x180 + irq_number / 32 * 4)) (Z.shiftl 1 (irq_number mod 32));;
    bus_ok.

Definition acknowledge_irq : gic_driver Z := v ← bus_read (gicc 0x00c); mret (wrap32 v).
Definition gic_end_of_interrupt (irq_number : Z) : gic_driver unit :=
  bus_write (gicc 0x010) (wrap32 irq_number).

Definition send_sgi (sgi core_number : Z) : gic_driver hal_result :=
  if (16 <=? sgi) || (8 <=? core_number) then bus_fail HE_ILLEGAL_ARGUMENT
  else
    bus_write (gicd 0xf00) (Z.lor (wrap32 (Z.shiftl (Z.shiftl 1 core_number) 16)) sgi);;
    bus_ok.

(** ** generic_timer.cpp *)

Definition init_system_timer : gic_driver hal_result :=
  bus_write (SYSREG CNTP_CTL_EL0) 0;;
  enable_irq GENERIC_TIMER_IRQ.

Definition rearm_system_timer : gic_driver unit :=
  interval ← objects timer_interval;
  if interval =? 0 then mret tt else bus_write (SYSREG CNTP_TVAL_EL0) interval.

Definition start_system_timer : gic_driver hal_result :=
  interval ← objects timer_interval;
  if interval =? 0 then bus_fail HE_INIT_FIRST
  else
    rearm_system_timer;;
    bus_write (SYSREG CNTP_CTL_EL0) 1;;
    bus_ok.

Definition configure_timer (hz : Z) : gic_driver hal_result :=
  if hz =? 0 then bus_fail HE_ILLEGAL_ARGUMENT
  else
    v ← bus_read (SYSREG CNTFRQ_EL0);
    let interval := wrap v / hz in
    set_objects (λ g, g <| timer_interval := interval |>);;
    if interval =? 0 then bus_fail HE_ILLEGAL_ARGUMENT else start_system_timer.

(** ** smp.cpp *)

Definition PSCI_CPU_ON_64 : Z := 0xc4000003.

(** qemu: PSCI. *)
Definition qemu_start_cpu (conduit : psci_conduit) (cpu : cpu_description) (entry_address : Z)
    : gic_driver hal_result :=
  if negb (match enable_method cpu with ENABLE_PSCI => true | _ => false end) || (entry_address =? 0)
  then bus_fail HE_UNSUPPORTED
  else
    let cpu_on smc :=
      result ← bus_read (FIRMWARE smc PSCI_CPU_ON_64 (mpidr cpu) entry_address (mpidr cpu));
      if wrap result =? 0 then bus_ok else bus_fail HE_NO_SUCH_DEVICE in
    match conduit with
    | CONDUIT_HVC => cpu_on false
    | CONDUIT_SMC => cpu_on true
    | CONDUIT_NONE => bus_fail HE_UNSUPPORTED
    end.

(** rpi4b: a table in memory the processor spins on. *)
Definition rpi4b_start_cpu (cpu : cpu_description) (entry_address : Z) : gic_driver hal_result :=
  if negb (match enable_method cpu with ENABLE_SPIN_TABLE => true | _ => false end)
     || (release_address cpu =? 0) || (entry_address =? 0)
  then bus_fail HE_UNSUPPORTED
  else
    bus_write (MMIO (physical_to_virtual_address (release_address cpu))) entry_address;;
    bus_ok.

(** ** cpu.cpp *)

(** The loop over the processors but the first. *)
Fixpoint start_each_cpu (start_cpu : cpu_description → Z → gic_driver hal_result) (entry_address : Z)
    (cpus : list cpu_description) : gic_driver hal_result :=
  match cpus with
  | [] => bus_ok
  | cpu :: cpus' =>
      let! _ := start_cpu cpu entry_address in
      start_each_cpu start_cpu entry_address cpus'
  end.
Definition start_secondary_cores `{config} (start_cpu : cpu_description → Z → gic_driver hal_result)
    (entry_address : Z) (cpus : list cpu_description) : gic_driver hal_result :=
  if negb SMP_ENABLED then bus_ok
  else if (length cpus =? 1)%nat then bus_ok
  else start_each_cpu start_cpu entry_address (drop 1 cpus).

Definition aarch64_init_current_core (vectors : Z) : gic_driver hal_result :=
  cpacr ← bus_read (SYSREG CPACR_EL1);
  bus_write (SYSREG CPACR_EL1) (Z.lor (wrap cpacr) (Z.shiftl 3 20));;
  bus_write (SYSREG VBAR_EL1) vectors;;
  bus_ok.

(** ** interrupt.cpp: interrupts *)

Section entry.
(** What [current_core_number] answers on the core that runs. *)
Context (core_number : result Z hal_error).

Definition current_irq_slot : Z :=
  match core_number with
  | Ok core => if CPU_COUNT_MAX <=? core then BSP_ID else core
  | Err _ => BSP_ID
  end.

Definition end_active_irq : gic_driver unit :=
  let slot := current_irq_slot in
  irqs ← objects active_irqs;
  irq ← certainly (irqs !! Z.to_nat slot);
  gic_end_of_interrupt irq;;
  set_objects (λ g, g <| active_irq_valid ::= <[Z.to_nat slot := false]> |>).

Definition aarch64_ack_interrupt : gic_driver hal_result :=
  let slot := current_irq_slot in
  valid ← objects active_irq_valid;
  v ← certainly (valid !! Z.to_nat slot);
  if negb v then bus_fail HE_TRY_AGAIN else end_active_irq;; bus_ok.

Definition IPI_RESCHEDULE_ID : Z := 0.
Definition IPI_INVALIDATE_TLB_ID : Z := 1.

Definition aarch64_send_ipi (type : ipi_type) (core : Z) : gic_driver hal_result :=
  send_sgi (match type with IPI_RESCHEDULE => IPI_RESCHEDULE_ID | IPI_INVALIDATE_TLB => IPI_INVALIDATE_TLB_ID end)
    core.

Definition dispatch_irq (h : gic_handlers) (irq : Z) : gic_driver unit :=
  if irq =? GENERIC_TIMER_IRQ then
    rearm_system_timer;;
    match gic_timer_handler h with Some handler => handler | None => end_active_irq end
  else if irq =? IPI_RESCHEDULE_ID then
    (match gic_ipi_reschedule_handler h with Some handler => handler | None => mret tt end);;
    end_active_irq
  else if irq =? IPI_INVALIDATE_TLB_ID then
    invalidate_tlb_all h;;
    end_active_irq
  else
    match gic_interrupt_dispatcher h with Some dispatcher => dispatcher irq | None => end_active_irq end.

(** The case of an interrupt in [aarch64_handle_exception]. *)
Definition handle_irq_exception (h : gic_handlers) : gic_driver unit :=
  let slot := Z.to_nat current_irq_slot in
  iar ← acknowledge_irq;
  let irq := Z.land iar 0x3ff in
  let valid := irq <? 1020 in
  set_objects (λ g, g <| active_irqs ::= <[slot := iar]> |> <| active_irq_valid ::= <[slot := valid]> |>);;
  if valid then dispatch_irq h irq else mret tt.

(** [handle_timer] and [handle_interrupt] of src/src/kernel/interrupt/interrupt_manager.cpp
    as the devices see them: what the process manager and the notification port do is
    [work]; then the line is masked (an error is only reported) and completed. *)
Definition kernel_gic_handlers (work : Z → gic_driver unit) : gic_handlers := {|
  gic_timer_handler := Some (work GENERIC_TIMER_IRQ;; aarch64_ack_interrupt;; mret tt);
  gic_interrupt_dispatcher := Some (λ irq, work irq;; disable_irq irq;; aarch64_ack_interrupt;; mret tt);
  gic_ipi_reschedule_handler := Some (work IPI_RESCHEDULE_ID);
  invalidate_tlb_all := mret tt;
|}.

(** [enable_interrupt_all] and [disable_interrupt_all]: the mask of the core. *)
Definition aarch64_enable_interrupt_all : gic_driver hal_result := bus_write (SYSREG DAIFCLR) 2;; bus_ok.
Definition aarch64_disable_interrupt_all : gic_driver hal_result := bus_write (SYSREG DAIFSET) 2;; bus_ok.

End entry.
End gic.
