(* ===== verification/GicProofs.v ===== *)
(** The GICv2: which interrupts a log of accesses leaves enabled, and that every
    interrupt taken is completed once. *)

From S2P Require Import Prelude Word Types Kernel MemoryTypes DeviceTree CpuTopology Bus Gic.

(** The distributor and the CPU interface occupy a page each, in the direct map. *)
Record gic_layout (P : gic_platform) : Prop := {
  layout_distributor : 0 ≤ @GIC_DISTRIBUTOR_BASE P;
  layout_interface : @GIC_DISTRIBUTOR_BASE P + 0x1000 ≤ @GIC_CPU_INTERFACE_BASE P;
  layout_end : @GIC_CPU_INTERFACE_BASE P + 0x1000 ≤ 2 ^ 47;
}.

Lemma direct_map_inj a b :
  0 ≤ a < 2 ^ 47 → 0 ≤ b < 2 ^ 47 → physical_to_virtual_address a = physical_to_virtual_address b → a = b.
Proof.
  assert (Hback : ∀ x, 0 ≤ x < 2 ^ 47 → Z.land (physical_to_virtual_address x) (Z.ones 47) = x).
  { intros x Hx. unfold physical_to_virtual_address. rewrite Z.land_lor_distr_l.
    assert (Z.land KERNEL_VIRTUAL_BASE (Z.ones 47) = 0) as -> by reflexivity.
    by rewrite Z.lor_0_r, Z.land_ones, Z.mod_small by lia. }
  intros Ha Hb He. by rewrite <- (Hback a Ha), <- (Hback b Hb), He.
Qed.

Section gic.
Context `{bus_device} (P : gic_platform) (Hlayout : gic_layout P).
#[local] Existing Instance P.

Lemma gicd_inj x y : 0 ≤ x < 0x1000 → 0 ≤ y < 0x1000 → gicd x = gicd y → x = y.
Proof.
  intros Hx Hy He. injection He as He. destruct Hlayout as [L1 L2 L3]. apply direct_map_inj in He; lia.
Qed.
Lemma gicc_gicd x y : 0 ≤ x < 0x1000 → 0 ≤ y < 0x1000 → gicc x ≠ gicd y.
Proof.
  intros Hx Hy He. injection He as He. destruct Hlayout as [L1 L2 L3]. apply direct_map_inj in He; lia.
Qed.

(** ** The enable bits: a write of 1 to the set (clear) register of an interrupt
    enables (disables) it *)

Definition set_enable (irq : Z) : bus_access := gicd (0x100 + irq / 32 * 4).
Definition clear_enable (irq : Z) : bus_access := gicd (0x180 + irq / 32 * 4).

Definition enable_step (irq : Z) (enabled : bool) (e : bus_event) : bool :=
  match e with
  | BUS_WRITE a v =>
      if Z.testbit v (irq mod 32) then
        if decide (a = set_enable irq) then true
        else if decide (a = clear_enable irq) then false else enabled
      else enabled
  | _ => enabled
  end.
Definition enabled_after (irq : Z) (enabled : bool) (log : list bus_event) : bool :=
  fold_left (enable_step irq) log enabled.

Lemma enabled_after_app irq b l1 l2 : enabled_after irq b (l1 ++ l2) = enabled_after irq (enabled_after irq b l1) l2.
Proof. apply fold_left_app. Qed.

(** Accesses that do not set the enable bit of [irq]. *)
Definition quiet (irq : Z) (e : bus_event) : Prop := ∀ v, e ≠ BUS_WRITE (set_enable irq) v.

Lemma quiet_false irq l : Forall (quiet irq) l → enabled_after irq false l = false.
Proof.
  unfold enabled_after. induction 1 as [|e l He _ IH]; [done|]. cbn [fold_left].
  destruct e as [a v|]; [|done]. cbn [enable_step]. destruct (Z.testbit _ _); [|done].
  destruct (decide (a = set_enable irq)) as [->|]; [by destruct (He v)|]. by destruct (decide _).
Qed.

(** Once cleared and never set, an interrupt is disabled. *)
Lemma cleared_false irq b l1 l2 v :
  clear_enable irq ≠ set_enable irq → Z.testbit v (irq mod 32) = true → Forall (quiet irq) l2 →
  enabled_after irq b (l1 ++ BUS_WRITE (clear_enable irq) v :: l2) = false.
Proof.
  intros Hne Hv Hq. rewrite enabled_after_app. unfold enabled_after at 1. cbn [fold_left enable_step].
  rewrite Hv, decide_False by done. rewrite decide_True by done. by apply quiet_false.
Qed.

Lemma clear_set_ne irq : 0 ≤ irq < 256 → clear_enable irq ≠ set_enable irq.
Proof.
  intros Hirq He. assert (0 ≤ irq / 32 < 8) by (split; [apply Z.div_pos; lia|apply Z.div_lt_upper_bound; lia]).
  apply gicd_inj in He; lia.
Qed.

Lemma testbit_all irq : Z.testbit 0xffffffff (irq mod 32) = true.
Proof.
  change 0xffffffff with (Z.ones 32). apply Z.ones_spec_low. by apply Z.mod_pos_bound.
Qed.

(** ** The loops *)

Lemma for_each_irq_spec turns irq step f (ev : Z → list bus_event) Q g log :
  (∀ i Q' log', Q' tt g (log' ++ ev i) → dwp (f i) Q' g log') →
  Q tt g (log ++ flat_map (λ n, ev (irq + step * Z.of_nat n)) (seq 0 turns)) →
  dwp (for_each_irq turns irq step f) Q g log.
Proof.
  intros Hf. revert irq log. induction turns as [|turns IH]; intros irq log HQ; cbn [for_each_irq].
  { apply dwp_ret. by rewrite app_nil_r in HQ. }
  dwp_step. apply Hf. apply IH. cbn [seq flat_map] in HQ. rewrite Z.mul_0_r, Z.add_0_r, app_assoc in HQ.
  rewrite <- seq_shift, flat_map_concat_map, map_map, <- flat_map_concat_map in HQ.
  erewrite flat_map_ext; [exact HQ|]. intros n. cbn beta. f_equal. lia.
Qed.

(** What [init_interrupt_controller] does after it knows the number of interrupts. *)
Definition group_events (irq : Z) : list bus_event :=
  [BUS_WRITE (gicd (0x080 + irq / 32 * 4)) 0xffffffff; BUS_WRITE (gicd (0x180 + irq / 32 * 4)) 0xffffffff;
   BUS_WRITE (gicd (0x280 + irq / 32 * 4)) 0xffffffff].
Definition priority_events (irq : Z) : list bus_event :=
  BUS_WRITE (gicd (0x400 + irq)) 0xa0a0a0a0
  :: (if 32 <=? irq then [BUS_WRITE (gicd (0x800 + irq)) 0x01010101] else []).
Definition core_events : list bus_event :=
  [BUS_WRITE (gicd 0x080) 0xffffffff; BUS_WRITE (gicd 0x180) 0xffffffff; BUS_WRITE (gicd 0x280) 0xffffffff]
  ++ flat_map (λ n, [BUS_WRITE (gicd (0x400 + (0 + 4 * Z.of_nat n))) 0xa0a0a0a0]) (seq 0 8)
  ++ [BUS_WRITE (gicc 0x000) 0; BUS_WRITE (gicc 0x004) 0xff; BUS_WRITE (gicc 0x008) 0x3; BUS_WRITE (gicc 0x000) 7].
Definition controller_events (count : Z) : list bus_event :=
  flat_map (λ n, group_events (0 + 32 * Z.of_nat n)) (seq 0 (Z.to_nat (count / 32)))
  ++ flat_map (λ n, priority_events (0 + 4 * Z.of_nat n)) (seq 0 (Z.to_nat (count / 4)))
  ++ BUS_WRITE (gicd 0x000) 3 :: core_events.

Lemma init_current_core_spec Q g log :
  Q (Ok tt) g (log ++ core_events) → dwp init_current_core_interrupt_controller Q g log.
Proof.
  intros HQ. unfold init_current_core_interrupt_controller. dwp_steps.
  apply (for_each_irq_spec _ _ _ _ (λ irq, [BUS_WRITE (gicd (0x400 + irq)) 0xa0a0a0a0])).
  { intros i Q' log' HQ'. by dwp_steps. }
  cbn beta. dwp_steps. unfold core_events in HQ. by rewrite <- !app_assoc in *.
Qed.

Lemma init_interrupt_controller_spec Q g log :
  let before := [BUS_WRITE (gicd 0x000) 0; BUS_WRITE (gicc 0x000) 0; BUS_READ (gicd 0x004)] in
  let count := count_interrupts (wrap32 (device_read (log ++ take 2 before) (gicd 0x004))) in
  Q (Ok tt) (g <| interrupt_count := count |>) (log ++ before ++ controller_events count) →
  dwp init_interrupt_controller Q g log.
Proof.
  intros before count HQ. unfold init_interrupt_controller. dwp_steps.
  rewrite <- (app_assoc log [_] [_]). cbn [app].
  change (count_interrupts (wrap32 (device_read (log ++ _) _))) with count.
  apply (for_each_irq_spec _ _ _ _ group_events).
  { intros i Q' log' HQ'. dwp_steps. by rewrite <- !app_assoc. }
  dwp_step. apply (for_each_irq_spec _ _ _ _ priority_events).
  { intros i Q' log' HQ'. unfold priority_events in HQ'. dwp_steps.
    destruct (32 <=? i); dwp_steps; [by rewrite <- app_assoc|done]. }
  dwp_steps. apply init_current_core_spec. unfold controller_events in HQ. by rewrite <- !app_assoc in *.
Qed.

(** A write to a register of the distributor outside the set registers. *)
Lemma quiet_gicd irq x v :
  0 ≤ irq < 256 → 0 ≤ x < 0x1000 → (x < 0x100 ∨ 0x120 ≤ x) → quiet irq (BUS_WRITE (gicd x) v).
Proof.
  intros Hirq Hx Hr w He. injection He as He _.
  assert (0 ≤ irq / 32 < 8) by (split; [apply Z.div_pos; lia|apply Z.div_lt_upper_bound; lia]).
  apply (f_equal MMIO), gicd_inj in He; lia.
Qed.
Lemma quiet_gicc irq x v : 0 ≤ irq < 256 → 0 ≤ x < 0x1000 → quiet irq (BUS_WRITE (gicc x) v).
Proof.
  intros Hirq Hx w He. injection He as He _.
  assert (0 ≤ irq / 32 < 8) by (split; [apply Z.div_pos; lia|apply Z.div_lt_upper_bound; lia]).
  apply (f_equal MMIO) in He. apply gicc_gicd in He; [done|lia|lia].
Qed.

Lemma Forall_flat_map_seq {A} (Q : A → Prop) (f : nat → list A) n :
  (∀ i, (i < n)%nat → Forall Q (f i)) → Forall Q (flat_map f (seq 0 n)).
Proof.
  intros Hf. apply Forall_forall. intros x Hx. apply list_elem_of_In, in_flat_map in Hx as (i & Hi & Hx).
  apply in_seq in Hi. apply list_elem_of_In in Hx. specialize (Hf i). rewrite Forall_forall in Hf. apply Hf; [lia|done].
Qed.

Lemma loop_index count step n i :
  0 ≤ count ≤ step * n → 0 < step → (i < Z.to_nat (count / step))%nat → 0 ≤ Z.of_nat i < n.
Proof.
  intros Hc Hs Hi. pose proof (Z.div_le_upper_bound count step n Hs (proj2 Hc)).
  pose proof (Z.div_pos count step (proj1 Hc) Hs). lia.
Qed.

Lemma quiet_group irq i : 0 ≤ irq < 256 → 0 ≤ i < 8 → Forall (quiet irq) (group_events (0 + 32 * i)).
Proof.
  intros Hirq Hi. unfold group_events. rewrite Z.add_0_l, (Z.mul_comm 32 i), Z.div_mul by lia.
  repeat (apply Forall_cons_2; [apply quiet_gicd; lia|]). apply Forall_nil_2.
Qed.
Lemma quiet_priority irq i : 0 ≤ irq < 256 → 0 ≤ i < 64 → Forall (quiet irq) (priority_events (0 + 4 * i)).
Proof.
  intros Hirq Hi. unfold priority_events. apply Forall_cons_2; [apply quiet_gicd; lia|].
  destruct (32 <=? _); [|apply Forall_nil_2].
  apply Forall_cons_2; [apply quiet_gicd; lia|apply Forall_nil_2].
Qed.
Lemma quiet_core irq : 0 ≤ irq < 256 → Forall (quiet irq) core_events.
Proof.
  intros Hirq. unfold core_events.
  repeat first [apply Forall_app; split | apply Forall_flat_map_seq; intros i Hi | apply Forall_cons_2
               | apply Forall_nil_2]; first [apply quiet_gicd; lia | apply quiet_gicc; lia].
Qed.

Lemma controller_quiet irq count :
  0 ≤ irq < 256 → 0 ≤ count ≤ 256 → Forall (quiet irq) (controller_events count).
Proof.
  intros Hirq Hc. unfold controller_events.
  apply Forall_app; split; [|apply Forall_app; split].
  - apply Forall_flat_map_seq. intros i Hi. apply quiet_group; [done|]. eapply (loop_index count 32); lia.
  - apply Forall_flat_map_seq. intros i Hi. apply quiet_priority; [done|]. eapply (loop_index count 4); lia.
  - apply Forall_cons_2; [apply quiet_gicd; lia|by apply quiet_core].
Qed.

Lemma controller_clears irq count :
  0 ≤ irq < count → count mod 32 = 0 → BUS_WRITE (clear_enable irq) 0xffffffff ∈ controller_events count.
Proof.
  intros Hirq Hm. unfold controller_events. apply elem_of_app. left. apply list_elem_of_In, in_flat_map.
  exists (Z.to_nat (irq / 32)). assert (0 ≤ irq / 32) by (apply Z.div_pos; lia). split.
  - apply in_seq. assert (irq / 32 < count / 32); [|lia].
    apply Z.div_lt_upper_bound; [lia|]. pose proof (Z.div_mod count 32). lia.
  - unfold group_events, clear_enable. rewrite Z2Nat.id, Z.add_0_l, (Z.mul_comm 32), Z.div_mul by lia.
    right. by left.
Qed.

Lemma count_interrupts_range typer : 32 ≤ count_interrupts typer ≤ 256 ∧ count_interrupts typer mod 32 = 0.
Proof.
  unfold count_interrupts, IRQ_NUMBER_MAX. change 0x1f with (Z.ones 5). rewrite Z.land_ones by lia.
  pose proof (Z.mod_pos_bound typer (2 ^ 5) ltac:(lia)). destruct (Z.ltb_spec 256 ((typer mod 2 ^ 5 + 1) * 32)).
  - split; [lia|done].
  - split; [lia|]. apply Z.mod_mul. lia.
Qed.

(** One bit of one register. *)
Lemma single_bit n irq :
  0 ≤ n < 256 → 0 ≤ irq < 256 → irq / 32 = n / 32 →
  Z.testbit (Z.shiftl 1 (n mod 32)) (irq mod 32) = (irq =? n).
Proof.
  intros Hn Hi Hd. pose proof (Z.mod_pos_bound n 32 ltac:(lia)). pose proof (Z.mod_pos_bound irq 32 ltac:(lia)).
  rewrite Z.shiftl_1_l, Z.pow2_bits_eqb by lia.
  pose proof (Z.div_mod n 32). pose proof (Z.div_mod irq 32).
  destruct (Z.eqb_spec (n mod 32) (irq mod 32)), (Z.eqb_spec irq n); subst; lia || done.
Qed.

Lemma enable_register_inj base n irq :
  0 ≤ base → base + 0x20 ≤ 0x1000 → 0 ≤ n < 256 → 0 ≤ irq < 256 →
  gicd (base + n / 32 * 4) = gicd (base + irq / 32 * 4) → irq / 32 = n / 32.
Proof.
  intros Hb Hb' Hn Hi He.
  assert (0 ≤ n / 32 < 8) by (split; [apply Z.div_pos; lia|apply Z.div_lt_upper_bound; lia]).
  assert (0 ≤ irq / 32 < 8) by (split; [apply Z.div_pos; lia|apply Z.div_lt_upper_bound; lia]).
  apply gicd_inj in He; lia.
Qed.

Lemma set_write_enables n irq b :
  0 ≤ n < 256 → 0 ≤ irq < 256 →
  enabled_after irq b [BUS_WRITE (set_enable n) (Z.shiftl 1 (n mod 32))] = if irq =? n then true else b.
Proof.
  intros Hn Hi. unfold enabled_after. cbn [fold_left enable_step].
  destruct (decide (set_enable n = set_enable irq)) as [He|Hne].
  - apply enable_register_inj in He; [|lia..]. rewrite single_bit by done. by destruct (irq =? n).
  - assert (irq ≠ n) by congruence. rewrite (proj2 (Z.eqb_neq _ _)) by done.
    destruct (Z.testbit _ _); [|done]. destruct (decide _) as [He|]; [|done].
    assert (0 ≤ n / 32 < 8) by (split; [apply Z.div_pos; lia|apply Z.div_lt_upper_bound; lia]).
    assert (0 ≤ irq / 32 < 8) by (split; [apply Z.div_pos; lia|apply Z.div_lt_upper_bound; lia]).
    apply gicd_inj in He; lia.
Qed.
Lemma clear_write_disables n irq b :
  0 ≤ n < 256 → 0 ≤ irq < 256 →
  enabled_after irq b [BUS_WRITE (clear_enable n) (Z.shiftl 1 (n mod 32))] = if irq =? n then false else b.
Proof.
  intros Hn Hi. unfold enabled_after. cbn [fold_left enable_step].
  assert (0 ≤ n / 32 < 8) by (split; [apply Z.div_pos; lia|apply Z.div_lt_upper_bound; lia]).
  assert (0 ≤ irq / 32 < 8) by (split; [apply Z.div_pos; lia|apply Z.div_lt_upper_bound; lia]).
  rewrite (decide_False (P := clear_enable n = set_enable irq)) by (intros He; apply gicd_inj in He; lia).
  destruct (decide (clear_enable n = clear_enable irq)) as [He|Hne].
  - apply enable_register_inj in He; [|lia..]. rewrite single_bit by done. by destruct (irq =? n).
  - assert (irq ≠ n) by congruence. rewrite (proj2 (Z.eqb_neq _ _)) by done. by destruct (Z.testbit _ _).
Qed.

(** The GIC's enable bits follow the kernel's requests.  Initialising the
    controller leaves every interrupt it has (32 to 256 of them, as it reports)
    disabled, whatever the firmware had enabled; afterwards, [enable_irq] enables
    exactly the interrupt it is given and [disable_irq] disables exactly that one, and
    both refuse, without an access, an interrupt the controller does not have. *)
Theorem gic_enable_bits g log n :
  0 ≤ n → interrupt_count g ≤ 256 →
  dwp init_interrupt_controller
    (λ r g' log', r = Ok tt ∧ 32 ≤ interrupt_count g' ≤ 256 ∧ ∃ new, log' = log ++ new ∧
       ∀ irq b, 0 ≤ irq < interrupt_count g' → enabled_after irq b new = false) g log ∧
  dwp (enable_irq n)
    (λ r g' log', g' = g ∧
       if n <? interrupt_count g
       then r = Ok tt ∧ ∃ new, log' = log ++ new ∧
              ∀ irq b, 0 ≤ irq < 256 → enabled_after irq b new = if irq =? n then true else b
       else r = Err HE_ILLEGAL_ARGUMENT ∧ log' = log) g log ∧
  dwp (disable_irq n)
    (λ r g' log', g' = g ∧
       if n <? interrupt_count g
       then r = Ok tt ∧ ∃ new, log' = log ++ new ∧
              ∀ irq b, 0 ≤ irq < 256 → enabled_after irq b new = if irq =? n then false else b
       else r = Err HE_ILLEGAL_ARGUMENT ∧ log' = log) g log.
Proof.
  intros Hn Hc. split; [|split].
  - apply init_interrupt_controller_spec. set (count := count_interrupts _). change (interrupt_count _) with count.
    destruct (count_interrupts_range (wrap32 (device_read (log ++ take 2 [BUS_WRITE (gicd 0x000) 0;
      BUS_WRITE (gicc 0x000) 0; BUS_READ (gicd 0x004)]) (gicd 0x004)))) as [Hr Hm]. fold count in Hr, Hm.
    split; [done|]. split; [done|]. eexists. split; [done|]. intros irq b Hirq.
    destruct (list_elem_of_split _ _ (controller_clears irq count Hirq Hm)) as (l1 & l2 & Hl).
    pose proof (controller_quiet irq count ltac:(lia) ltac:(lia)) as Hq. rewrite Hl in *.
    apply Forall_app in Hq as [_ Hq]. apply Forall_cons_1 in Hq as [_ Hq]. rewrite app_assoc.
    apply cleared_false; [apply clear_set_ne; lia|apply testbit_all|done].
  - unfold enable_irq. dwp_steps. rewrite Z.leb_antisym. destruct (Z.ltb_spec n (interrupt_count g)); cbn [negb]; dwp_steps.
    + split; [done|]. split; [done|]. eexists. split; [done|]. intros irq b Hirq. by apply set_write_enables; [lia|].
    + done.
  - unfold disable_irq. dwp_steps. rewrite Z.leb_antisym. destruct (Z.ltb_spec n (interrupt_count g)); cbn [negb]; dwp_steps.
    + split; [done|]. split; [done|]. eexists. split; [done|]. intros irq b Hirq. by apply clear_write_disables; [lia|].
    + done.
Qed.

(** ** Completion *)

Definition is_eoi (e : bus_event) : bool :=
  match e with BUS_WRITE a _ => bool_decide (a = gicc 0x010) | _ => false end.
Definition completions (l : list bus_event) : list bus_event := List.filter is_eoi l.

Lemma completions_app l1 l2 : completions (l1 ++ l2) = completions l1 ++ completions l2.
Proof. apply List.filter_app. Qed.
Lemma completions_none l : Forall (λ e, is_eoi e = false) l → completions l = [].
Proof. unfold completions. induction 1 as [|e l He _ IH]; [done|]. cbn [List.filter]. by rewrite He. Qed.
Lemma gicd_not_eoi x v : 0 ≤ x < 0x1000 → is_eoi (BUS_WRITE (gicd x) v) = false.
Proof. intros Hx. apply bool_decide_eq_false. intros He. symmetry in He. by apply gicc_gicd in He. Qed.
Lemma eoi_is_eoi v : is_eoi (BUS_WRITE (gicc 0x010) v) = true.
Proof. by apply bool_decide_eq_true. Qed.

(** Work that leaves the interrupts in service to the entry code. *)
Definition leaves_service (work : Z → gic_driver unit) : Prop :=
  ∀ irq (Q : unit → gic_globals → list bus_event → Prop) g log,
    (∀ g' new, active_irqs g' = active_irqs g → active_irq_valid g' = active_irq_valid g →
       interrupt_count g' = interrupt_count g → Forall (λ e, is_eoi e = false) new → Q tt g' (log ++ new)) →
    dwp (work irq) Q g log.

Lemma end_active_irq_spec core iar Q g log :
  active_irqs g !! Z.to_nat (current_irq_slot core) = Some iar → 0 ≤ iar < 2 ^ 32 →
  Q tt (g <| active_irq_valid ::= <[Z.to_nat (current_irq_slot core) := false]> |>) (log ++ [BUS_WRITE (gicc 0x010) iar]) →
  dwp (end_active_irq core) Q g log.
Proof.
  intros Hi Hr HQ. unfold end_active_irq. dwp_steps. eapply dwp_certainly; [exact Hi|].
  unfold gic_end_of_interrupt, wrap32. rewrite Z.mod_small by lia. by dwp_steps.
Qed.

Lemma ack_interrupt_spec core iar Q g log :
  active_irqs g !! Z.to_nat (current_irq_slot core) = Some iar → 0 ≤ iar < 2 ^ 32 →
  active_irq_valid g !! Z.to_nat (current_irq_slot core) = Some true →
  Q (Ok tt) (g <| active_irq_valid ::= <[Z.to_nat (current_irq_slot core) := false]> |>) (log ++ [BUS_WRITE (gicc 0x010) iar]) →
  dwp (aarch64_ack_interrupt core) Q g log.
Proof.
  intros Hi Hr Hv HQ. unfold aarch64_ack_interrupt. dwp_steps. eapply dwp_certainly; [exact Hv|].
  cbn [negb]. dwp_step. eapply end_active_irq_spec; [done..|]. by dwp_steps.
Qed.

(** What the entry code did: it completed the interrupt once, with the whole
    acknowledged value, last, and after masking the line when the line is a device's. *)
Definition completed_once (core : result Z hal_error) (iar : Z) (g g' : gic_globals) (new : list bus_event) : Prop :=
  completions new = [BUS_WRITE (gicc 0x010) iar] ∧ last new = Some (BUS_WRITE (gicc 0x010) iar) ∧
  active_irq_valid g' !! Z.to_nat (current_irq_slot core) = Some false ∧
  (let irq := Z.land iar 0x3ff in
   irq ≠ GENERIC_TIMER_IRQ → IPI_INVALIDATE_TLB_ID < irq → irq < interrupt_count g →
   ∃ before, new = before ++ [BUS_WRITE (clear_enable irq) (Z.shiftl 1 (irq mod 32)); BUS_WRITE (gicc 0x010) iar]).

Lemma completed_once_intro core iar g g' before :
  completions before = [] → active_irq_valid g' !! Z.to_nat (current_irq_slot core) = Some false →
  (let irq := Z.land iar 0x3ff in
   irq ≠ GENERIC_TIMER_IRQ → IPI_INVALIDATE_TLB_ID < irq → irq < interrupt_count g →
   last before = Some (BUS_WRITE (clear_enable irq) (Z.shiftl 1 (irq mod 32)))) →
  completed_once core iar g g' (before ++ [BUS_WRITE (gicc 0x010) iar]).
Proof.
  intros Hb Hv Hm. unfold completed_once. rewrite completions_app, Hb, last_snoc. cbn [completions List.filter app].
  rewrite eoi_is_eoi. split; [done|]. split; [done|]. split; [done|]. cbn zeta. intros H1 H2 H3.
  specialize (Hm H1 H2 H3). apply last_Some in Hm as [l ->]. exists l. by rewrite <- app_assoc.
Qed.

(** [iar] is in service on the core. *)
Definition in_service (core : result Z hal_error) (iar : Z) (g : gic_globals) : Prop :=
  0 ≤ iar < 2 ^ 32 ∧ active_irqs g !! Z.to_nat (current_irq_slot core) = Some iar ∧
  active_irq_valid g !! Z.to_nat (current_irq_slot core) = Some true.

(** Before the completion: the line is masked, where it has to be. *)
Definition ready_to_complete (iar : Z) (g0 : gic_globals) (l : list bus_event) : Prop :=
  completions l = [] ∧
  (let irq := Z.land iar 0x3ff in
   irq ≠ GENERIC_TIMER_IRQ → IPI_INVALIDATE_TLB_ID < irq → irq < interrupt_count g0 →
   last l = Some (BUS_WRITE (clear_enable irq) (Z.shiftl 1 (irq mod 32)))).
Definition completes (core : result Z hal_error) (iar : Z) (g0 : gic_globals) (log0 : list bus_event)
    (g' : gic_globals) (log' : list bus_event) : Prop :=
  ∃ new, log' = log0 ++ new ∧ completed_once core iar g0 g' new.

Lemma end_completes core iar g g0 log0 l :
  in_service core iar g → ready_to_complete iar g0 l →
  dwp (end_active_irq core) (λ _, completes core iar g0 log0) g (log0 ++ l).
Proof.
  intros (Hr & Hi & Hv) [Hl Hm]. eapply end_active_irq_spec; [done..|]. rewrite <- app_assoc.
  eexists. split; [done|]. apply completed_once_intro; [done| |done].
  apply list_lookup_insert_eq. by eapply lookup_lt_Some.
Qed.
Lemma ack_completes core iar g g0 log0 l :
  in_service core iar g → ready_to_complete iar g0 l →
  dwp (aarch64_ack_interrupt core;; mret tt) (λ _, completes core iar g0 log0) g (log0 ++ l).
Proof.
  intros (Hr & Hi & Hv) [Hl Hm]. dwp_step. eapply ack_interrupt_spec; [done..|]. dwp_step. rewrite <- app_assoc.
  eexists. split; [done|]. apply completed_once_intro; [done| |done].
  apply list_lookup_insert_eq. by eapply lookup_lt_Some.
Qed.

(** The work of the kernel comes between. *)
Lemma work_between work core irq iar g log0 l (f : gic_driver unit) Q :
  leaves_service work → in_service core iar g → completions l = [] →
  (∀ g' l', in_service core iar g' → interrupt_count g' = interrupt_count g → completions l' = [] →
     dwp f Q g' (log0 ++ l')) →
  dwp (work irq;; f) Q g (log0 ++ l).
Proof.
  intros Hwork (Hr & Hi & Hv) Hl Hf. dwp_step. apply Hwork. intros g' new Hai Hav Hic Hnew. rewrite <- app_assoc.
  apply Hf; [by unfold in_service; rewrite Hai, Hav|done|by rewrite completions_app, Hl, completions_none].
Qed.

Lemma dispatch_irq_completes work core iar g log0 l :
  leaves_service work → in_service core iar g → interrupt_count g ≤ 256 → completions l = [] →
  dwp (dispatch_irq core (kernel_gic_handlers core work) (Z.land iar 0x3ff)) (λ _, completes core iar g log0) g (log0 ++ l).
Proof.
  intros Hwork Hs Hmax Hl. assert (Hirq : 0 ≤ Z.land iar 0x3ff) by (destruct Hs; apply Z.land_nonneg; lia).
  unfold dispatch_irq. destruct (Z.eqb_spec (Z.land iar 0x3ff) GENERIC_TIMER_IRQ) as [Ht|Ht].
  { unfold rearm_system_timer. dwp_steps. cbn [kernel_gic_handlers gic_timer_handler].
    assert (Hrest : ∀ l', completions l' = [] →
      dwp (work GENERIC_TIMER_IRQ;; aarch64_ack_interrupt core;; mret tt) (λ _, completes core iar g log0) g (log0 ++ l')).
    { intros l' Hl'. eapply work_between; [done..|]. intros g' l'' Hs' _ Hl''. by apply ack_completes. }
    destruct (timer_interval g =? 0); dwp_step; [by apply Hrest|].
    rewrite <- app_assoc. apply Hrest. by rewrite completions_app, Hl. }
  destruct (Z.eqb_spec (Z.land iar 0x3ff) IPI_RESCHEDULE_ID) as [Hr|Hr].
  { cbn [kernel_gic_handlers gic_ipi_reschedule_handler]. eapply work_between; [done..|]. intros g' l' Hs' _ Hl'.
    apply end_completes; [done|]. split; [done|]. cbn zeta. rewrite Hr. by intros _ Hlt. }
  destruct (Z.eqb_spec (Z.land iar 0x3ff) IPI_INVALIDATE_TLB_ID) as [Hn|Hn].
  { cbn [kernel_gic_handlers invalidate_tlb_all]. dwp_steps. apply end_completes; [done|]. split; [done|].
    cbn zeta. rewrite Hn. by intros _ Hlt. }
  cbn [kernel_gic_handlers gic_interrupt_dispatcher]. eapply work_between; [done..|]. intros g' l' Hs' Hc' Hl'.
  unfold disable_irq. do 3 dwp_step. rewrite Z.leb_antisym, Hc'.
  destruct (Z.ltb_spec (Z.land iar 0x3ff) (interrupt_count g)); cbn [negb].
  - do 3 dwp_step. rewrite <- app_assoc. apply ack_completes; [done|]. split; [|by rewrite last_snoc].
    rewrite completions_app, Hl'. cbn [app completions List.filter]. rewrite gicd_not_eoi; [done|].
    assert (0 ≤ Z.land iar 0x3ff / 32 < 8) by (split; [apply Z.div_pos; lia|apply Z.div_lt_upper_bound; lia]). lia.
  - dwp_step. apply ack_completes; [done|]. split; [done|]. cbn zeta. lia.
Qed.

(** C19: Every interrupt a core takes is completed exactly once.  Whatever the
    interrupt (the timer, an IPI, a device's line) and whatever the kernel does about
    it, the end-of-interrupt register is written once, as the last access, with the
    whole value that was acknowledged (the core bits of an IPI included); a device's
    line is masked immediately before, so that a level-triggered line cannot fire
    again; the core has no interrupt in service afterwards.  A spurious interrupt
    (1020 and above) is not completed and nothing else is accessed. *)
Theorem irq_completed_once work core g log :
  leaves_service work → interrupt_count g ≤ 256 →
  (Z.to_nat (current_irq_slot core) < length (active_irqs g))%nat →
  (Z.to_nat (current_irq_slot core) < length (active_irq_valid g))%nat →
  let iar := wrap32 (device_read log (gicc 0x00c)) in
  dwp (handle_irq_exception core (kernel_gic_handlers core work))
    (λ _ g' log', ∃ new, log' = log ++ new ∧
       if Z.land iar 0x3ff <? 1020 then completed_once core iar g g' new
       else new = [BUS_READ (gicc 0x00c)] ∧ active_irq_valid g' !! Z.to_nat (current_irq_slot core) = Some false) g log.
Proof.
  intros Hwork Hmax Hi Hv iar. unfold handle_irq_exception, acknowledge_irq. dwp_steps. fold iar.
  destruct (Z.ltb_spec (Z.land iar 0x3ff) 1020).
  - set (g1 := g <| active_irqs ::= _ |> <| active_irq_valid ::= _ |>).
    change (completed_once core iar g) with (completed_once core iar g1).
    apply (dispatch_irq_completes work core iar g1 log [_]); [done| |done|done].
    split; [apply Z.mod_pos_bound; lia|]. split; by apply list_lookup_insert_eq.
  - dwp_steps. eexists. split; [done|]. split; [done|]. by apply list_lookup_insert_eq.
Qed.

End gic.

Lemma qemu_layout : gic_layout qemu_platform.
Proof. split; by vm_compute. Qed.
Lemma rpi4b_layout : gic_layout rpi4b_platform.
Proof. split; by vm_compute. Qed.

(** A controller with 96 interrupts; interrupt 33 is pending, then none. *)
Definition gic_example_device : bus_device := λ log a,
  if bool_decide (a = @gicd qemu_platform 0x004) then 2
  else if bool_decide (a = @gicc qemu_platform 0x00c) then
    (if bool_decide (log = []) then 33 else 1023)
  else 0.
Definition gic_example : gic_globals := initial_gic <| interrupt_count := 96 |>.

Lemma gic_enable_bits_witness :
  dwp (init_interrupt_controller (H := gic_example_device) (H0 := qemu_platform))
    (λ r g' log', r = Ok tt ∧ 32 ≤ interrupt_count g' ≤ 256 ∧ ∃ new, log' = [] ++ new ∧
       ∀ irq b, 0 ≤ irq < interrupt_count g' → enabled_after qemu_platform irq b new = false) gic_example [].
Proof. exact (proj1 (gic_enable_bits (H := gic_example_device) qemu_platform qemu_layout gic_example [] 33 ltac:(lia) ltac:(by vm_compute))). Defined.

(** The kernel asks another core to reschedule. *)
Definition example_work (irq : Z) : gic_driver unit := send_sgi (H0 := qemu_platform) IPI_RESCHEDULE_ID 1;; mret tt.
Lemma example_work_leaves_service : leaves_service qemu_platform example_work.
Proof.
  intros irq Q g log HQ. unfold example_work, send_sgi. dwp_step.
  change ((16 <=? IPI_RESCHEDULE_ID) || (8 <=? 1)) with false. cbn iota. dwp_steps.
  apply HQ; [done..|]. apply Forall_cons_2; [|apply Forall_nil_2]. by apply gicd_not_eoi; [apply qemu_layout|].
Qed.

Lemma irq_completed_once_witness :
  dwp (handle_irq_exception (H := gic_example_device) (H0 := qemu_platform) (Ok 0)
         (kernel_gic_handlers (H0 := qemu_platform) (Ok 0) example_work))
    (λ _ g' log', ∃ new, log' = [] ++ new ∧ completed_once qemu_platform (Ok 0) 33 gic_example g' new) gic_example [].
Proof.
  exact (irq_completed_once (H := gic_example_device) qemu_platform qemu_layout example_work (Ok 0) gic_example []
    example_work_leaves_service ltac:(by vm_compute) ltac:(vm_compute; lia) ltac:(vm_compute; lia)).
Defined.
