(* ===== verification/SmpBoot.v ===== *)
(** The start of the other processors on a multiprocessor, as the cores interleave:
    [start_other_cores], [try_allocate_core_number] and [mark_core_booted] of
    src/src/hal/x86_64/arch/cpu.cpp with [x86_64_ap_entry] of
    src/src/hal/x86_64/arch/arch_initializer.cpp, and [start_other_cores],
    [current_logical_core], [mark_current_core_booted] and [aarch64_ap_entry] of
    src/src/hal/aarch64/arch/cpu.cpp.

    A step is one atomic access of one core to the words the cores share.  What the
    operations in between answer (the set-up of the core's own registers, its
    interrupt controller, timer and process manager) is an input of the step: the
    theorems hold for every answer.  Log output is left out.

    [boot] is what the start promises, without locks and core numbers; both platforms
    refine it. *)

From S2P Require Import Prelude Word Types Kernel MemoryTypes CpuTopology Lock.

(** ** The shared words *)

(** [is_ap_runnable], [booted_core_count] and [has_ap_boot_failed]
    ([secondary_cores_runnable], [booted_core_count] and [secondary_boot_failed]). *)
Record boot_flags := MkFlags {
  is_ap_runnable : Z;
  booted_core_count : Z;
  has_ap_boot_failed : Z;
}.
#[global] Instance eta_boot_flags : Eta boot_flags := λ x,
  MkFlags (is_ap_runnable x) (booted_core_count x) (has_ap_boot_failed x).
Definition initial_flags : boot_flags := MkFlags 0 1 0.

(** [++booted_core_count], a byte. *)
Definition count_core (f : boot_flags) : boot_flags := f <| booted_core_count ::= λ n, wrap8 (n + 1) |>.
Definition fail_boot (f : boot_flags) : boot_flags := f <| has_ap_boot_failed := atomic_store 1 |>.

(** Where the first core stands in [start_other_cores]: before the release, before
    the loop's test, before the test of the failure flag, before the test of the time
    (AArch64), after the return. *)
Inductive bsp_pc :=
| BSP_RELEASE
| BSP_COUNT
| BSP_FLAG
| BSP_TIME
| BSP_RETURN (r : hal_result).

(** ** What the start promises *)

(** A processor is on its way to the barrier, has passed it, has been counted, is
    about to report a failure, has reported it. *)
Inductive phase :=
| BOOTING
| RELEASED
| ONLINE
| FAILING (counted : bool)
| FAILED (counted : bool).
Definition counted (p : phase) : bool :=
  match p with ONLINE => true | FAILING c | FAILED c => c | _ => false end.
Definition reported (p : phase) : bool := match p with FAILED _ => true | _ => false end.

Record boot := MkBoot {
  flags : boot_flags;
  bsp : bsp_pc;
  phases : list phase;
}.
Definition initial_boot (aps : nat) : boot := MkBoot initial_flags BSP_RELEASE (replicate aps BOOTING).

(** [expected]: the number of cores to wait for. *)
Inductive boot_step (expected : Z) (b : boot) : boot → Prop :=
| boot_release :
    bsp b = BSP_RELEASE →
    boot_step expected b (MkBoot ((flags b) <| is_ap_runnable := 1 |>) BSP_COUNT (phases b))
| boot_alone :
    bsp b = BSP_RELEASE → expected = 1 →
    boot_step expected b (MkBoot (flags b) (BSP_RETURN (Ok tt)) (phases b))
| boot_complete :
    bsp b = BSP_COUNT → expected ≤ booted_core_count (flags b) →
    boot_step expected b (MkBoot (flags b) (BSP_RETURN (Ok tt)) (phases b))
| boot_incomplete :
    bsp b = BSP_COUNT → booted_core_count (flags b) < expected →
    boot_step expected b (MkBoot (flags b) BSP_FLAG (phases b))
| boot_give_up :
    bsp b = BSP_FLAG → has_ap_boot_failed (flags b) ≠ 0 →
    boot_step expected b (MkBoot (flags b) (BSP_RETURN (Err HE_NO_SUCH_DEVICE)) (phases b))
| boot_no_failure pc :
    bsp b = BSP_FLAG → has_ap_boot_failed (flags b) = 0 → pc = BSP_TIME ∨ pc = BSP_COUNT →
    boot_step expected b (MkBoot (flags b) pc (phases b))
| boot_time r :
    bsp b = BSP_TIME → r = BSP_COUNT ∨ r = BSP_RETURN (Err HE_TIMEOUT) →
    boot_step expected b (MkBoot (flags b) r (phases b))
| boot_pass i :
    phases b !! i = Some BOOTING → is_ap_runnable (flags b) ≠ 0 →
    boot_step expected b (MkBoot (flags b) (bsp b) (<[i := RELEASED]> (phases b)))
| boot_count i :
    phases b !! i = Some RELEASED →
    boot_step expected b (MkBoot (count_core (flags b)) (bsp b) (<[i := ONLINE]> (phases b)))
| boot_fail i p :
    phases b !! i = Some p → p = BOOTING ∨ p = RELEASED ∨ p = ONLINE →
    boot_step expected b (MkBoot (flags b) (bsp b) (<[i := FAILING (counted p)]> (phases b)))
| boot_report i c :
    phases b !! i = Some (FAILING c) →
    boot_step expected b (MkBoot (fail_boot (flags b)) (bsp b) (<[i := FAILED c]> (phases b))).

Abbreviation boot_reachable expected aps := (rtc (boot_step expected) (initial_boot aps)).

(** ** x86-64 *)

(** A processor in [x86_64_ap_entry]: in [try_allocate_core_number] before the lock,
    with it, and before the release; before [configure_local_variable] and
    [init_sub_core]; at the barrier; before the process manager and the timer are
    initialised; before [switch_to_idle]; in [mark_core_booted] before the lock, the
    load, the store, and the release; in the IDLE loop; before the failure is stored;
    returned. *)
Inductive x86_ap :=
| AP_ENTRY
| AP_ALLOCATE
| AP_UNLOCK (r : result Z hal_error)
| AP_CONFIGURE (core : Z)
| AP_BARRIER (core : Z)
| AP_INIT (core : Z)
| AP_IDLE (core : Z)
| AP_MARK_LOCK (core : Z)
| AP_MARK_LOAD (core : Z)
| AP_MARK_STORE (core count : Z)
| AP_MARK_UNLOCK (core : Z)
| AP_IDLE_LOOP (core : Z)
| AP_FAIL (core : option Z)
| AP_RETURNED (core : option Z).

Record x86_smp := MkX86Smp {
  x86_flags : boot_flags;
  cpu_lock : Z;
  current_cpu_number : Z;
  x86_bsp : bsp_pc;
  x86_aps : list x86_ap;
}.
Definition initial_x86_smp (aps : nat) : x86_smp :=
  MkX86Smp initial_flags 0 0 BSP_RELEASE (replicate aps AP_ENTRY).

(** [if (current_cpu_number >= CPU_COUNT_MAX - 1) ... else ++current_cpu_number]. *)
Definition try_allocate_core_number (n : Z) : result Z hal_error * Z :=
  if CPU_COUNT_MAX - 1 <=? n then (Err HE_NO_SUCH_DEVICE, n) else (Ok (wadd n 1), wadd n 1).

(** One action of a processor: its next place and the shared words. *)
Definition x86_ap_step (answer : bool) (pc : x86_ap) (s : x86_smp) : x86_ap * boot_flags * Z * Z :=
  let f := x86_flags s in
  let l := cpu_lock s in
  let n := current_cpu_number s in
  let take next := let r := try_lock l in (if is_ok r.1 then next else pc, f, r.2, n) in
  match pc with
  | AP_ENTRY => take AP_ALLOCATE
  | AP_ALLOCATE => let r := try_allocate_core_number n in (AP_UNLOCK r.1, f, l, r.2)
  | AP_UNLOCK r =>
      (match r with Ok core => AP_CONFIGURE core | Err _ => AP_FAIL None end, f, unlock l, n)
  | AP_CONFIGURE core => (if answer then AP_BARRIER core else AP_FAIL (Some core), f, l, n)
  | AP_BARRIER core => (if is_ap_runnable f =? 0 then pc else AP_INIT core, f, l, n)
  | AP_INIT core => (if answer then AP_IDLE core else AP_FAIL (Some core), f, l, n)
  | AP_IDLE core => (if answer then AP_MARK_LOCK core else AP_FAIL (Some core), f, l, n)
  | AP_MARK_LOCK core => take (AP_MARK_LOAD core)
  | AP_MARK_LOAD core => (AP_MARK_STORE core (booted_core_count f), f, l, n)
  | AP_MARK_STORE core count =>
      (AP_MARK_UNLOCK core, f <| booted_core_count := atomic_store (wrap8 (count + 1)) |>, l, n)
  | AP_MARK_UNLOCK core => (AP_IDLE_LOOP core, f, unlock l, n)
  | AP_IDLE_LOOP core => (pc, f, l, n)
  | AP_FAIL core => (AP_RETURNED core, fail_boot f, l, n)
  | AP_RETURNED core => (pc, f, l, n)
  end.

(** [start_other_cores]. *)
Definition x86_bsp_step (expected : Z) (pc : bsp_pc) (f : boot_flags) : bsp_pc * boot_flags :=
  match pc with
  | BSP_RELEASE => (BSP_COUNT, f <| is_ap_runnable := atomic_store 1 |>)
  | BSP_COUNT => (if booted_core_count f <? expected then BSP_FLAG else BSP_RETURN (Ok tt), f)
  | BSP_FLAG => (if has_ap_boot_failed f =? 0 then BSP_COUNT else BSP_RETURN (Err HE_NO_SUCH_DEVICE), f)
  | BSP_TIME | BSP_RETURN _ => (pc, f)
  end.

Inductive x86_smp_step (expected : Z) (s : x86_smp) : x86_smp → Prop :=
| x86_step_bsp pc f :
    x86_bsp_step expected (x86_bsp s) (x86_flags s) = (pc, f) →
    x86_smp_step expected s (MkX86Smp f (cpu_lock s) (current_cpu_number s) pc (x86_aps s))
| x86_step_ap i answer pc pc' f l n :
    x86_aps s !! i = Some pc → x86_ap_step answer pc s = (pc', f, l, n) →
    x86_smp_step expected s (MkX86Smp f l n (x86_bsp s) (<[i := pc']> (x86_aps s))).

Abbreviation x86_smp_reachable expected aps := (rtc (x86_smp_step expected) (initial_x86_smp aps)).

Definition x86_phase (pc : x86_ap) : phase :=
  match pc with
  | AP_ENTRY | AP_ALLOCATE | AP_CONFIGURE _ | AP_BARRIER _ | AP_UNLOCK _ => BOOTING
  | AP_INIT _ | AP_IDLE _ | AP_MARK_LOCK _ | AP_MARK_LOAD _ | AP_MARK_STORE _ _ => RELEASED
  | AP_MARK_UNLOCK _ | AP_IDLE_LOOP _ => ONLINE
  | AP_FAIL _ => FAILING false
  | AP_RETURNED _ => FAILED false
  end.
Definition x86_boot (s : x86_smp) : boot :=
  MkBoot (x86_flags s) (x86_bsp s) (x86_phase <$> x86_aps s).

(** ** AArch64 *)

(** [current_logical_core], from description [index]. *)
Fixpoint find_logical_core (cpus : list cpu_description) (affinity index : Z) : result Z hal_error :=
  match cpus with
  | [] => Err HE_NO_SUCH_DEVICE
  | cpu :: cpus' =>
      if Z.land (mpidr cpu) MPIDR_AFFINITY_MASK =? affinity then Ok index
      else find_logical_core cpus' affinity (index + 1)
  end.
Definition current_logical_core (cpus : list cpu_description) (mpidr_el1 : Z) : result Z hal_error :=
  find_logical_core cpus (Z.land mpidr_el1 MPIDR_AFFINITY_MASK) 0.

(** A processor in [aarch64_ap_entry]: at the entry; before
    [configure_local_variable], [init_current_core],
    [init_current_core_interrupt_controller], [init_system_timer]; at the barrier;
    before the process manager's [init], [start_system_timer], [switch_to_idle],
    [mark_current_core_booted], [restore_context]; in the IDLE process; before the
    failure is stored; halted. *)
Inductive arm_ap :=
| SC_ENTRY
| SC_LOCAL (core : Z)
| SC_CORE (core : Z)
| SC_GIC (core : Z)
| SC_TIMER (core : Z)
| SC_BARRIER (core : Z)
| SC_MANAGER (core : Z)
| SC_START (core : Z)
| SC_IDLE (core : Z)
| SC_MARK (core : Z)
| SC_RESTORE (core : Z)
| SC_RUNNING (core : Z)
| SC_FAIL (marked : bool)
| SC_HALTED (marked : bool).

Record arm_smp := MkArmSmp {
  arm_flags : boot_flags;
  arm_bsp : bsp_pc;
  arm_aps : list arm_ap;
}.
Definition initial_arm_smp (aps : nat) : arm_smp := MkArmSmp initial_flags BSP_RELEASE (replicate aps SC_ENTRY).

(** One action of the processor whose MPIDR_EL1 is [mpidr_el1]. *)
Definition arm_ap_step (cpus : list cpu_description) (mpidr_el1 : Z) (answer : bool) (pc : arm_ap) (f : boot_flags)
    : arm_ap * boot_flags :=
  let try_ next := (if answer then next else SC_FAIL false, f) in
  match pc with
  | SC_ENTRY => (match current_logical_core cpus mpidr_el1 with Ok core => SC_LOCAL core | Err _ => SC_FAIL false end, f)
  | SC_LOCAL core => try_ (SC_CORE core)
  | SC_CORE core => try_ (SC_GIC core)
  | SC_GIC core => try_ (SC_TIMER core)
  | SC_TIMER core => try_ (SC_BARRIER core)
  | SC_BARRIER core => (if is_ap_runnable f =? 0 then pc else SC_MANAGER core, f)
  | SC_MANAGER core => try_ (SC_START core)
  | SC_START core => try_ (SC_IDLE core)
  | SC_IDLE core => try_ (SC_MARK core)
  | SC_MARK core => (SC_RESTORE core, count_core f)
  | SC_RESTORE core => (if answer then SC_RUNNING core else SC_FAIL true, f)
  | SC_RUNNING _ | SC_HALTED _ => (pc, f)
  | SC_FAIL marked => (SC_HALTED marked, fail_boot f)
  end.

(** [start_other_cores]: [now] is the counter as the loop reads it. *)
Definition arm_bsp_step (expected frequency started_at now : Z) (pc : bsp_pc) (f : boot_flags) : bsp_pc * boot_flags :=
  match pc with
  | BSP_RELEASE =>
      if expected =? 1 then (BSP_RETURN (Ok tt), f)
      else (BSP_COUNT, f <| is_ap_runnable := atomic_store 1 |>)
  | BSP_COUNT => (if booted_core_count f <? expected then BSP_FLAG else BSP_RETURN (Ok tt), f)
  | BSP_FLAG => (if has_ap_boot_failed f =? 0 then BSP_TIME else BSP_RETURN (Err HE_NO_SUCH_DEVICE), f)
  | BSP_TIME =>
      (if (frequency =? 0) || (wmul frequency 5 <? wsub now started_at) then BSP_RETURN (Err HE_TIMEOUT)
       else BSP_COUNT, f)
  | BSP_RETURN _ => (pc, f)
  end.

(** [cpus]: the descriptions, the first core's first; processor [i] is that of
    description [i + 1]. *)
Inductive arm_smp_step (cpus : list cpu_description) (frequency started_at : Z) (s : arm_smp) : arm_smp → Prop :=
| arm_step_bsp now pc f :
    arm_bsp_step (Z.of_nat (length cpus)) frequency started_at now (arm_bsp s) (arm_flags s) = (pc, f) →
    arm_smp_step cpus frequency started_at s (MkArmSmp f pc (arm_aps s))
| arm_step_ap i cpu answer pc pc' f :
    cpus !! (i + 1)%nat = Some cpu → arm_aps s !! i = Some pc →
    arm_ap_step cpus (mpidr cpu) answer pc (arm_flags s) = (pc', f) →
    arm_smp_step cpus frequency started_at s (MkArmSmp f (arm_bsp s) (<[i := pc']> (arm_aps s))).

Definition arm_phase (pc : arm_ap) : phase :=
  match pc with
  | SC_ENTRY | SC_LOCAL _ | SC_CORE _ | SC_GIC _ | SC_TIMER _ | SC_BARRIER _ => BOOTING
  | SC_MANAGER _ | SC_START _ | SC_IDLE _ | SC_MARK _ => RELEASED
  | SC_RESTORE _ | SC_RUNNING _ => ONLINE
  | SC_FAIL marked => FAILING marked
  | SC_HALTED marked => FAILED marked
  end.
Definition arm_boot (s : arm_smp) : boot := MkBoot (arm_flags s) (arm_bsp s) (arm_phase <$> arm_aps s).

(** * Properties

    The start of the other processors: both platforms refine [boot], the first core
    reports success only when every core is online, and no two cores get the same
    core number. *)

(** ** Counting over a list that is updated in place *)

Section count.
Context {A : Type} (P : A → bool).

Definition how_many (l : list A) : Z := foldr (λ x n, Z.b2z (P x) + n) 0 l.

Lemma how_many_cons x l : how_many (x :: l) = Z.b2z (P x) + how_many l.
Proof. done. Qed.
Lemma how_many_app l1 l2 : how_many (l1 ++ l2) = how_many l1 + how_many l2.
Proof. induction l1 as [|x l1 IH]; [done|]. cbn [app]. rewrite !how_many_cons. lia. Qed.
Lemma how_many_bounds l : 0 ≤ how_many l ≤ Z.of_nat (length l).
Proof. induction l as [|x l IH]; [done|]. rewrite how_many_cons. cbn [length]. destruct (P x); cbn [Z.b2z]; lia. Qed.
Lemma how_many_insert l i x y :
  l !! i = Some x → how_many (<[i := y]> l) = how_many l - Z.b2z (P x) + Z.b2z (P y).
Proof.
  revert i. induction l as [|z l IH]; intros [|i] Hi; [done..| |].
  - injection Hi as ->. change (<[0%nat := y]> (x :: l)) with (y :: l). rewrite !how_many_cons. lia.
  - specialize (IH i Hi). change (<[S i := y]> (z :: l)) with (z :: <[i := y]> l). rewrite !how_many_cons. lia.
Qed.
Lemma how_many_all l : how_many l = Z.of_nat (length l) → Forall (λ x, P x = true) l.
Proof.
  induction l as [|x l IH]; [by constructor|]. intros Hl. pose proof (how_many_bounds l).
  rewrite how_many_cons in Hl. cbn [length] in Hl.
  destruct (P x) eqn:Hx; cbn in Hl; constructor; [done|apply IH; lia|lia|lia].
Qed.
Lemma how_many_none l : how_many l = 0 → Forall (λ x, P x = false) l.
Proof.
  induction l as [|x l IH]; [by constructor|]. intros Hl. pose proof (how_many_bounds l).
  rewrite how_many_cons in Hl.
  destruct (P x) eqn:Hx; cbn in Hl; [lia|]. constructor; [done|apply IH; lia].
Qed.
Lemma how_many_replicate n x : P x = false → how_many (replicate n x) = 0.
Proof. intros Hx. induction n as [|n IH]; [done|]. cbn [replicate]. rewrite how_many_cons, Hx. exact IH. Qed.
Lemma how_many_in l i x : l !! i = Some x → P x = true → 1 ≤ how_many l.
Proof.
  intros Hi Hx. rewrite <- (take_drop_middle l i x Hi), how_many_app, how_many_cons, Hx.
  pose proof (how_many_bounds (take i l)). pose proof (how_many_bounds (drop (S i) l)). cbn [Z.b2z]. lia.
Qed.
Lemma how_many_two l i j x y :
  l !! i = Some x → l !! j = Some y → P x = true → P y = true → how_many l ≤ 1 → i = j.
Proof.
  intros Hi Hj Hx Hy Hl. destruct (decide (i = j)) as [->|Hne]; [done|exfalso].
  assert (Hcut : how_many l = how_many (take i l) + 1 + how_many (drop (S i) l)).
  { rewrite <- (take_drop_middle l i x Hi) at 1. rewrite how_many_app, how_many_cons, Hx. cbn [Z.b2z]. lia. }
  pose proof (how_many_bounds (take i l)). pose proof (how_many_bounds (drop (S i) l)).
  destruct (decide (j < i)%nat).
  - assert (take i l !! j = Some y) by by rewrite lookup_take_lt.
    pose proof (how_many_in (take i l) j y ltac:(done) Hy). lia.
  - assert (drop (S i) l !! (j - S i)%nat = Some y) by (rewrite lookup_drop; replace (S i + (j - S i))%nat with j by lia; done).
    pose proof (how_many_in (drop (S i) l) (j - S i) y ltac:(done) Hy). lia.
Qed.
Lemma how_many_exists l : 1 ≤ how_many l → ∃ i x, l !! i = Some x ∧ P x = true.
Proof.
  induction l as [|x l IH]; [done|]. rewrite how_many_cons. intros Hl.
  destruct (P x) eqn:Hx; [by exists 0%nat, x|]. destruct IH as (i & y & Hi & Hy); [cbn in Hl; lia|]. by exists (S i), y.
Qed.
End count.
Arguments how_many : simpl never.

(** ** What the start promises *)

Record boot_inv (expected : Z) (aps : nat) (b : boot) : Prop := {
  inv_length : length (phases b) = aps;
  inv_count : booted_core_count (flags b) = 1 + how_many counted (phases b);
  inv_failed : has_ap_boot_failed (flags b) ≠ 0 → 1 ≤ how_many reported (phases b);
  inv_released : is_ap_runnable (flags b) = 0 → Forall (λ p, counted p = false ∧ p ≠ RELEASED) (phases b);
  inv_bsp : match bsp b with
            | BSP_RELEASE => is_ap_runnable (flags b) = 0
            | BSP_RETURN (Ok _) => expected ≤ booted_core_count (flags b)
            | BSP_RETURN (Err e) => e = HE_NO_SUCH_DEVICE ∧ has_ap_boot_failed (flags b) ≠ 0 ∨ e = HE_TIMEOUT
            | _ => True
            end;
}.

Lemma boot_inv_initial expected aps : boot_inv expected aps (initial_boot aps).
Proof.
  split; cbn.
  - by rewrite length_replicate.
  - by rewrite how_many_replicate.
  - done.
  - intros _. by apply Forall_replicate.
  - done.
Qed.

(** A processor moves: what it leaves unchanged. *)
Lemma inv_bsp_move expected aps b f l :
  boot_inv expected aps b → is_ap_runnable f = is_ap_runnable (flags b) →
  booted_core_count (flags b) ≤ booted_core_count f →
  (has_ap_boot_failed (flags b) ≠ 0 → has_ap_boot_failed f ≠ 0) →
  match bsp (MkBoot f (bsp b) l) with
  | BSP_RELEASE => is_ap_runnable f = 0
  | BSP_RETURN (Ok _) => expected ≤ booted_core_count f
  | BSP_RETURN (Err e) => e = HE_NO_SUCH_DEVICE ∧ has_ap_boot_failed f ≠ 0 ∨ e = HE_TIMEOUT
  | _ => True
  end.
Proof.
  intros [_ _ _ _ Hb] Hr Hc Hf. cbn. destruct (bsp b) as [| | | |[|]]; [by rewrite Hr|done..|lia|].
  destruct Hb as [[-> Hb]| ->]; [left|by right]. auto.
Qed.

Lemma boot_step_inv expected aps b b' :
  (aps < 255)%nat → boot_inv expected aps b → boot_step expected b b' → boot_inv expected aps b'.
Proof.
  intros Haps Hinv Hstep. pose proof Hinv as [Hl Hc Hf Hr Hb].
  destruct Hstep as [Hpc|Hpc He|Hpc He|Hpc He|Hpc He|pc Hpc He Ho|r Hpc Ho|i Hi Hrun|i Hi|i p Hi Hp|i c Hi].
  - split; cbn; [done..| |done]. done.
  - split; cbn; try done. pose proof (how_many_bounds counted (phases b)). lia.
  - by split.
  - by split.
  - split; cbn; try done. by left.
  - split; cbn; try done. by destruct Ho as [-> | ->].
  - split; cbn; try done. destruct Ho as [-> | ->]; [done|by right].
  - split; cbn; [by rewrite length_insert|rewrite (how_many_insert _ _ _ _ _ Hi); cbn; lia
      |rewrite (how_many_insert _ _ _ _ _ Hi); cbn; intros; specialize (Hf ltac:(done)); lia|done
      |by apply (inv_bsp_move expected aps b (flags b) (<[i := RELEASED]> (phases b)))].
  - assert (Hnew : how_many counted (<[i := ONLINE]> (phases b)) = how_many counted (phases b) + 1)
      by (rewrite (how_many_insert _ _ _ _ _ Hi); cbn; lia).
    pose proof (how_many_bounds counted (<[i := ONLINE]> (phases b))) as Hbound. rewrite length_insert, Hl in Hbound.
    assert (Hw : wrap8 (booted_core_count (flags b) + 1) = booted_core_count (flags b) + 1)
      by (pose proof (how_many_bounds counted (phases b)); apply Z.mod_small; lia).
    split; cbn; [by rewrite length_insert|rewrite Hnew, Hw; lia
      |rewrite (how_many_insert _ _ _ _ _ Hi); cbn; intros; specialize (Hf ltac:(done)); lia| |].
    + intros H0. specialize (Hr H0). rewrite Forall_lookup in Hr. by destruct (Hr i RELEASED Hi).
    + apply (inv_bsp_move expected aps b (count_core (flags b)) (<[i := ONLINE]> (phases b))); cbn; [done|done|lia|done].
  - split; cbn; [by rewrite length_insert| | | |].
    + rewrite (how_many_insert _ _ _ _ _ Hi). cbn [counted]. lia.
    + rewrite (how_many_insert _ _ _ _ _ Hi). destruct Hp as [-> |[-> | ->]]; cbn; intros; specialize (Hf ltac:(done)); lia.
    + intros H0. specialize (Hr H0). apply Forall_insert; [done|]. rewrite Forall_lookup in Hr. by destruct (Hr i p Hi).
    + by apply (inv_bsp_move expected aps b (flags b) (<[i := FAILING (counted p)]> (phases b))).
  - split; cbn; [by rewrite length_insert| | | |].
    + rewrite (how_many_insert _ _ _ _ _ Hi). cbn [counted]. lia.
    + rewrite (how_many_insert _ _ _ _ _ Hi). pose proof (how_many_bounds reported (phases b)). cbn. lia.
    + intros H0. specialize (Hr H0). apply Forall_insert; [done|]. rewrite Forall_lookup in Hr. by destruct (Hr i _ Hi).
    + by apply (inv_bsp_move expected aps b (fail_boot (flags b)) (<[i := FAILED c]> (phases b))).
Qed.

Lemma boot_reachable_inv expected aps b :
  (aps < 255)%nat → boot_reachable expected aps b → boot_inv expected aps b.
Proof.
  intros Haps Hr. apply (rtc_ind_r (λ b, boot_inv expected aps b) (initial_boot aps) (boot_inv_initial expected aps)) in Hr; [done|].
  intros b1 b2 _ Hs Hinv. by eapply boot_step_inv.
Qed.

(** What the first core is told, when it waits for all the cores. *)
Lemma boot_result aps b :
  (aps < 255)%nat → boot_reachable (Z.of_nat aps + 1) aps b →
  (bsp b = BSP_RELEASE → Forall (λ p, counted p = false ∧ p ≠ RELEASED) (phases b)) ∧
  (bsp b = BSP_RETURN (Ok tt) → Forall (λ p, counted p = true) (phases b)) ∧
  (∀ e, bsp b = BSP_RETURN (Err e) → e = HE_NO_SUCH_DEVICE ∧ 1 ≤ how_many reported (phases b) ∨ e = HE_TIMEOUT).
Proof.
  intros Haps Hr. apply boot_reachable_inv in Hr as [Hl Hc Hf Hrun Hb]; [|done]. split_and!.
  - intros He. rewrite He in Hb. auto.
  - intros He. rewrite He in Hb. apply how_many_all. pose proof (how_many_bounds counted (phases b)). lia.
  - intros e He. rewrite He in Hb. destruct Hb as [[-> Hb]| ->]; [left|by right]. auto.
Qed.

(** ** x86-64: the lock and the core numbers *)

Definition holds_cpu_lock (pc : x86_ap) : bool :=
  match pc with AP_ALLOCATE | AP_UNLOCK _ | AP_MARK_LOAD _ | AP_MARK_STORE _ _ | AP_MARK_UNLOCK _ => true | _ => false end.

(** The core number a processor was given. *)
Definition ap_core (pc : x86_ap) : option Z :=
  match pc with
  | AP_ENTRY | AP_ALLOCATE | AP_UNLOCK (Err _) => None
  | AP_UNLOCK (Ok core) | AP_CONFIGURE core | AP_BARRIER core | AP_INIT core | AP_IDLE core | AP_MARK_LOCK core
  | AP_MARK_LOAD core | AP_MARK_STORE core _ | AP_MARK_UNLOCK core | AP_IDLE_LOOP core => Some core
  | AP_FAIL core | AP_RETURNED core => core
  end.
Definition core_numbers (s : x86_smp) : list Z := omap ap_core (x86_aps s).

Record x86_inv (s : x86_smp) : Prop := {
  inv_lock : cpu_lock s = how_many holds_cpu_lock (x86_aps s) ∧ how_many holds_cpu_lock (x86_aps s) ≤ 1;
  inv_store : ∀ i core count, x86_aps s !! i = Some (AP_MARK_STORE core count) → count = booted_core_count (x86_flags s);
  inv_number : 0 ≤ current_cpu_number s < CPU_COUNT_MAX;
  inv_cores : core_numbers s ≡ₚ seqZ 1 (current_cpu_number s);
}.

Lemma omap_replicate_none {A B} (f : A → option B) x n : f x = None → omap f (replicate n x) = [].
Proof. intros Hx. induction n as [|n IH]; [done|]. cbn. by rewrite Hx. Qed.
Lemma omap_insert {A B} (f : A → option B) l i x y :
  l !! i = Some x → omap f (<[i := y]> l) ++ option_list (f x) ≡ₚ option_list (f y) ++ omap f l.
Proof.
  intros Hi. rewrite <- (take_drop_middle l i x Hi) at 2.
  rewrite insert_take_drop by by eapply lookup_lt_Some.
  rewrite !omap_app. cbn. destruct (f x), (f y); cbn; solve_Permutation || by rewrite ?app_nil_r.
Qed.

Lemma x86_inv_initial aps : x86_inv (initial_x86_smp aps).
Proof.
  split; cbn.
  - by rewrite how_many_replicate.
  - intros i core count Hi. by apply lookup_replicate in Hi as [? _].
  - done.
  - unfold core_numbers. cbn. by rewrite omap_replicate_none.
Qed.

(** The lock word. *)
Lemma try_lock_word l : l = 0 ∨ l = 1 → try_lock l = (if l =? 0 then Ok tt else Err KE_TRY_AGAIN, 1).
Proof. by intros [-> | ->]. Qed.

Lemma x86_lock_kept s answer i pc pc' f l n :
  x86_inv s → x86_aps s !! i = Some pc → x86_ap_step answer pc s = (pc', f, l, n) →
  l = how_many holds_cpu_lock (<[i := pc']> (x86_aps s)) ∧ how_many holds_cpu_lock (<[i := pc']> (x86_aps s)) ≤ 1.
Proof.
  intros [[Hl H1] _ _ _] Hi Hs. rewrite (how_many_insert _ _ _ _ _ Hi). pose proof (how_many_bounds holds_cpu_lock (x86_aps s)) as Hb.
  assert (Hin : holds_cpu_lock pc = true → how_many holds_cpu_lock (x86_aps s) = 1)
    by (intros Hh; pose proof (how_many_in holds_cpu_lock _ _ _ Hi Hh); lia).
  unfold x86_ap_step, unlock, atomic_store in Hs. rewrite try_lock_word in Hs by lia.
  destruct pc; cbn in Hs; simplify_eq; cbn [holds_cpu_lock Z.b2z] in *;
    repeat case_match; simplify_eq/=; try (specialize (Hin eq_refl)); try lia.
Qed.

(** Only the processor that holds the lock writes the count. *)
Lemma x86_store_kept s answer i pc pc' f l n :
  x86_inv s → x86_aps s !! i = Some pc → x86_ap_step answer pc s = (pc', f, l, n) →
  ∀ j core count, <[i := pc']> (x86_aps s) !! j = Some (AP_MARK_STORE core count) → count = booted_core_count f.
Proof.
  intros [[_ H1] Hstore _ _] Hi Hs j core count Hj.
  apply list_lookup_insert_Some in Hj as [(<- & -> & _)|[Hne Hj]].
  - unfold x86_ap_step in Hs. destruct pc; cbn in Hs; repeat case_match; by simplify_eq/=.
  - rewrite (Hstore _ _ _ Hj). destruct pc; cbn in Hs; repeat case_match; simplify_eq/=; try done.
    by destruct (Hne (how_many_two holds_cpu_lock _ _ _ _ _ Hi Hj eq_refl eq_refl H1)).
Qed.

(** A step other than the allocation keeps the core number of the processor. *)
Lemma x86_core_kept s answer pc pc' f l n :
  x86_ap_step answer pc s = (pc', f, l, n) →
  ap_core pc' = ap_core pc ∧ n = current_cpu_number s ∨
  pc = AP_ALLOCATE ∧ ap_core pc' = Some (current_cpu_number s + 1) ∧ n = current_cpu_number s + 1 ∧ n < CPU_COUNT_MAX ∨
  CPU_COUNT_MAX ≤ current_cpu_number s + 1 ∧ pc = AP_ALLOCATE ∧ ap_core pc' = None ∧ n = current_cpu_number s ∨
  ¬ 0 ≤ current_cpu_number s < CPU_COUNT_MAX.
Proof.
  intros Hs. destruct pc; cbn in Hs; repeat case_match; simplify_eq/=; try (by left).
  unfold try_allocate_core_number. right.
  destruct (Z.leb_spec (CPU_COUNT_MAX - 1) (current_cpu_number s)); cbn; [right; left; split; [lia|done]|].
  destruct (decide (0 ≤ current_cpu_number s)); [|right; right; intros [? _]; contradiction].
  left. rewrite wadd_id by (unfold CPU_COUNT_MAX in *; lia). split; [done|]. split; [done|]. lia.
Qed.

Lemma x86_cores_kept s answer i pc pc' f l n :
  x86_inv s → x86_aps s !! i = Some pc → x86_ap_step answer pc s = (pc', f, l, n) →
  0 ≤ n < CPU_COUNT_MAX ∧ omap ap_core (<[i := pc']> (x86_aps s)) ≡ₚ seqZ 1 n.
Proof.
  intros [_ _ Hn Hc] Hi Hs. pose proof (omap_insert ap_core _ _ _ pc' Hi) as Hp. unfold core_numbers in Hc.
  rewrite Hc in Hp.
  destruct (x86_core_kept s answer pc pc' f l n Hs) as [[Ha ->]|[(-> & Ha & -> & Hlt)|[(Hge & -> & Ha & ->)|Hbad]]]; [| | |done].
  - split; [done|]. rewrite Ha in Hp. destruct (ap_core pc) as [c|]; cbn in Hp; rewrite ?app_nil_r in Hp; [|done].
    rewrite (Permutation_app_comm _ [c]) in Hp. by apply Permutation_cons_inv in Hp.
  - split; [lia|]. rewrite Ha in Hp. cbn in Hp. rewrite app_nil_r in Hp. rewrite Hp.
    rewrite seqZ_app by lia. cbn. rewrite (Permutation_app_comm _ (seqZ _ 1)). cbn.
    by replace (1 + current_cpu_number s) with (current_cpu_number s + 1) by lia.
  - split; [done|]. rewrite Ha in Hp. cbn in Hp. by rewrite app_nil_r in Hp.
Qed.

Lemma x86_step_inv expected s s' : x86_inv s → x86_smp_step expected s s' → x86_inv s'.
Proof.
  intros Hinv [pc f Hs|i answer pc pc' f l n Hi Hs].
  - destruct Hinv as [Hl Hst Hn Hc]. split; cbn; [done| |done..].
    intros i core count Hi. rewrite (Hst _ _ _ Hi). destruct (x86_bsp s); cbn in Hs; by simplify_eq/=.
  - pose proof (x86_cores_kept _ _ _ _ _ _ _ _ Hinv Hi Hs) as [Hn Hc].
    split; cbn; [by eapply x86_lock_kept|by eapply x86_store_kept|done|done].
Qed.
Lemma x86_reachable_inv expected aps s : x86_smp_reachable expected aps s → x86_inv s.
Proof.
  intros Hr. apply (rtc_ind_r x86_inv (initial_x86_smp aps) (x86_inv_initial aps)) in Hr; [done|].
  intros s1 s2 _ Hs Hinv. by eapply x86_step_inv.
Qed.

(** ** The refinements *)

(** A processor's step: it leaves the shared words and its phase alone, or is a step
    of [boot]. *)
Inductive ap_simulated {A} (ph : A → phase) (f : boot_flags) (x : A) : A → boot_flags → Prop :=
| simulated_stutter y : ph y = ph x → ap_simulated ph f x y f
| simulated_pass y : ph x = BOOTING → ph y = RELEASED → is_ap_runnable f ≠ 0 → ap_simulated ph f x y f
| simulated_count y : ph x = RELEASED → ph y = ONLINE → ap_simulated ph f x y (count_core f)
| simulated_fail y :
    ph x = BOOTING ∨ ph x = RELEASED ∨ ph x = ONLINE → ph y = FAILING (counted (ph x)) → ap_simulated ph f x y f
| simulated_report y c : ph x = FAILING c → ph y = FAILED c → ap_simulated ph f x y (fail_boot f).

Lemma ap_simulated_step {A} (ph : A → phase) expected f f' pc l i x y :
  l !! i = Some x → ap_simulated ph f x y f' →
  rtc (boot_step expected) (MkBoot f pc (ph <$> l)) (MkBoot f' pc (ph <$> <[i := y]> l)).
Proof.
  intros Hi Hs. rewrite list_fmap_insert. assert (Hp : (ph <$> l) !! i = Some (ph x)) by by rewrite list_lookup_fmap, Hi.
  destruct Hs as [y Hy|y Hx Hy Hr|y Hx Hy|y Hx Hy|y c Hx Hy]; rewrite Hy.
  - by rewrite (list_insert_id _ _ _ Hp).
  - apply rtc_once. rewrite Hx in Hp. exact (boot_pass expected (MkBoot f pc (ph <$> l)) i Hp Hr).
  - apply rtc_once. rewrite Hx in Hp. exact (boot_count expected (MkBoot f pc (ph <$> l)) i Hp).
  - apply rtc_once. exact (boot_fail expected (MkBoot f pc (ph <$> l)) i (ph x) Hp Hx).
  - apply rtc_once. rewrite Hx in Hp. exact (boot_report expected (MkBoot f pc (ph <$> l)) i c Hp).
Qed.

Lemma x86_ap_simulated s answer i pc pc' f l n :
  x86_inv s → x86_aps s !! i = Some pc → x86_ap_step answer pc s = (pc', f, l, n) →
  ap_simulated x86_phase (x86_flags s) pc pc' f.
Proof.
  intros [_ Hst _ _] Hi Hs. destruct pc as [| |[]| |core| | | | |core count| | | |]; cbn in Hs; simplify_eq;
    try (repeat case_match; simplify_eq/=;
         first [by apply simulated_stutter | by apply simulated_fail; cbn; auto | by eapply simulated_report]).
  - destruct (Z.eqb_spec (is_ap_runnable (x86_flags s)) 0); [by apply simulated_stutter|by apply simulated_pass].
  - rewrite (Hst _ _ _ Hi). by apply simulated_count.
Qed.

Lemma x86_bsp_simulated expected l pc pc' f f' :
  x86_bsp_step expected pc f = (pc', f') →
  rtc (boot_step expected) (MkBoot f pc l) (MkBoot f' pc' l).
Proof.
  intros Hs. destruct pc; cbn in Hs; simplify_eq; try done; apply rtc_once.
  - by apply (boot_release expected (MkBoot f BSP_RELEASE l)).
  - destruct (Z.ltb_spec (booted_core_count f') expected).
    + by apply (boot_incomplete expected (MkBoot f' BSP_COUNT l)).
    + by apply (boot_complete expected (MkBoot f' BSP_COUNT l)).
  - destruct (Z.eqb_spec (has_ap_boot_failed f') 0).
    + apply (boot_no_failure expected (MkBoot f' BSP_FLAG l)); auto.
    + by apply (boot_give_up expected (MkBoot f' BSP_FLAG l)).
Qed.

Lemma arm_ap_simulated cpus mpidr_el1 answer pc pc' f f' :
  arm_ap_step cpus mpidr_el1 answer pc f = (pc', f') → ap_simulated arm_phase f pc pc' f'.
Proof.
  intros Hs. destruct pc as [| | | | |core| | | |core| | | |]; cbn in Hs; simplify_eq;
    try (repeat case_match; simplify_eq/=;
         first [by apply simulated_stutter | by apply simulated_fail; cbn; auto | by eapply simulated_report]).
  - destruct (Z.eqb_spec (is_ap_runnable f') 0); [by apply simulated_stutter|by apply simulated_pass].
  - by apply simulated_count.
Qed.

Lemma arm_bsp_simulated expected frequency started_at now l pc pc' f f' :
  arm_bsp_step expected frequency started_at now pc f = (pc', f') →
  rtc (boot_step expected) (MkBoot f pc l) (MkBoot f' pc' l).
Proof.
  intros Hs. destruct pc; cbn in Hs; simplify_eq; try done; apply rtc_once.
  - destruct (Z.eqb_spec expected 1); simplify_eq.
    + by apply (boot_alone 1 (MkBoot f' BSP_RELEASE l)).
    + by apply (boot_release expected (MkBoot f BSP_RELEASE l)).
  - destruct (Z.ltb_spec (booted_core_count f') expected).
    + by apply (boot_incomplete expected (MkBoot f' BSP_COUNT l)).
    + by apply (boot_complete expected (MkBoot f' BSP_COUNT l)).
  - destruct (Z.eqb_spec (has_ap_boot_failed f') 0).
    + apply (boot_no_failure expected (MkBoot f' BSP_FLAG l)); auto.
    + by apply (boot_give_up expected (MkBoot f' BSP_FLAG l)).
  - apply (boot_time expected (MkBoot f' BSP_TIME l)); [done|]. destruct (_ || _); auto.
Qed.

Lemma x86_boot_reachable expected aps s :
  x86_smp_reachable expected aps s → boot_reachable expected aps (x86_boot s).
Proof.
  intros Hr. assert (H0 : x86_boot (initial_x86_smp aps) = initial_boot aps)
    by (unfold x86_boot, initial_boot; cbn; by rewrite fmap_replicate).
  rewrite <- H0. clear H0. revert s Hr. apply (rtc_ind_r (λ s, rtc _ _ (x86_boot s))); [done|].
  intros s1 s2 Hr1 Hs IH.
  etrans; [exact IH|]. pose proof (x86_reachable_inv _ _ _ Hr1) as Hinv.
  destruct Hs as [pc f Hs|i answer pc pc' f l n Hi Hs].
  - by apply x86_bsp_simulated.
  - eapply ap_simulated_step; [done|]. by eapply x86_ap_simulated.
Qed.

Lemma arm_boot_reachable cpus frequency started_at aps s :
  rtc (arm_smp_step cpus frequency started_at) (initial_arm_smp aps) s →
  boot_reachable (Z.of_nat (length cpus)) aps (arm_boot s).
Proof.
  intros Hr. assert (H0 : arm_boot (initial_arm_smp aps) = initial_boot aps)
    by (unfold arm_boot, initial_boot; cbn; by rewrite fmap_replicate).
  rewrite <- H0. clear H0. revert s Hr. apply (rtc_ind_r (λ s, rtc _ _ (arm_boot s))); [done|].
  intros s1 s2 Hr1 Hs IH.
  etrans; [exact IH|]. destruct Hs as [now pc f Hs|i cpu answer pc pc' f Hc Hi Hs].
  - by eapply arm_bsp_simulated.
  - eapply ap_simulated_step; [done|]. by eapply arm_ap_simulated.
Qed.

(** C6: The start of the other processors does what it promises, on both platforms and
    in every interleaving: each reachable state of the cores, with their lock, core
    numbers and local steps, is one of the abstract start, in which a processor passes
    the barrier only after the release, is counted in one atomic step, and reports its
    failure in another.  (On x86-64 the count is a load and a store, which the lock
    makes one step; on AArch64 it is an atomic addition.) *)
Theorem smp_boot_refined expected aps x86 cpus frequency started_at arm :
  (x86_smp_reachable expected aps x86 → boot_reachable expected aps (x86_boot x86)) ∧
  (rtc (arm_smp_step cpus frequency started_at) (initial_arm_smp aps) arm →
   boot_reachable (Z.of_nat (length cpus)) aps (arm_boot arm)).
Proof. split; [apply x86_boot_reachable|apply arm_boot_reachable]. Qed.

(** ** x86-64: enough core numbers *)

Lemma length_omap_le {A B} (f : A → option B) l : (length (omap f l) ≤ length l)%nat.
Proof. induction l as [|x l IH]; [done|]. cbn. destruct (f x); cbn; lia. Qed.
Lemma length_omap_lt {A B} (f : A → option B) l i x :
  l !! i = Some x → f x = None → (length (omap f l) < length l)%nat.
Proof.
  intros Hi Hx. rewrite <- (take_drop_middle l i x Hi), omap_app, !length_app. cbn. rewrite Hx.
  pose proof (length_omap_le f (take i l)). pose proof (length_omap_le f (drop (S i) l)). lia.
Qed.
Lemma length_omap_all {A B} (f : A → option B) l : Forall (λ x, is_Some (f x)) l → length (omap f l) = length l.
Proof. induction 1 as [|x l [y Hx] _ IH]; [done|]. cbn. rewrite Hx. cbn. by rewrite IH. Qed.

(** Every processor that asked for a core number has one. *)
Definition numbered (pc : x86_ap) : Prop := pc = AP_ENTRY ∨ pc = AP_ALLOCATE ∨ is_Some (ap_core pc).

Record x86_started (aps : nat) (s : x86_smp) : Prop := {
  started_inv : x86_inv s;
  started_length : length (x86_aps s) = aps;
  started_numbered : Forall numbered (x86_aps s);
  started_bsp : x86_bsp s ≠ BSP_TIME ∧ x86_bsp s ≠ BSP_RETURN (Err HE_TIMEOUT);
}.

Lemma numbered_step s answer pc pc' f l n :
  x86_ap_step answer pc s = (pc', f, l, n) → numbered pc →
  (pc = AP_ALLOCATE → 0 ≤ current_cpu_number s < CPU_COUNT_MAX - 1) → numbered pc'.
Proof.
  intros Hs Hp Ha. unfold numbered in *.
  destruct (x86_core_kept s answer pc pc' f l n Hs) as [[Hc _]|[(_ & Hc & _)|[(Hge & -> & _)|Hbad]]].
  - destruct Hp as [-> |[-> |Hp]].
    + cbn in Hs. destruct (is_ok _); simplify_eq; auto.
    + cbn in Hs. specialize (Ha eq_refl). unfold try_allocate_core_number in Hs.
      rewrite (proj2 (Z.leb_gt _ _)) in Hs by lia. by simplify_eq/=.
    + right. right. by rewrite Hc.
  - right. right. by rewrite Hc.
  - specialize (Ha eq_refl). lia.
  - destruct Hp as [-> |[-> |Hp]]; [cbn in Hs; destruct (is_ok _); simplify_eq; auto|by specialize (Ha eq_refl); lia|].
    right. right. destruct pc; cbn in Hs, Hp; repeat case_match; simplify_eq/=; by eauto.
Qed.

Lemma core_number_left aps s i pc :
  (Z.of_nat aps < CPU_COUNT_MAX) → x86_inv s → length (x86_aps s) = aps → x86_aps s !! i = Some pc → ap_core pc = None →
  0 ≤ current_cpu_number s < CPU_COUNT_MAX - 1.
Proof.
  intros Haps [_ _ Hn Hc] Hl Hi Hp. pose proof (length_omap_lt ap_core _ _ _ Hi Hp) as Hlt.
  apply Permutation_length in Hc. unfold core_numbers in Hc. rewrite Hc, length_seqZ in Hlt. lia.
Qed.

Lemma x86_started_reachable aps expected s :
  Z.of_nat aps < CPU_COUNT_MAX → x86_smp_reachable expected aps s → x86_started aps s.
Proof.
  intros Haps. apply (rtc_ind_r (x86_started aps)).
  { split; [apply x86_inv_initial|by cbn; rewrite length_replicate|by apply Forall_replicate; left|done]. }
  intros s1 s2 _ Hs [Hinv Hl Hnum Hb]. split; [by eapply x86_step_inv| | |].
  - destruct Hs; cbn; [done|by rewrite length_insert].
  - destruct Hs as [|i answer pc pc' f l n Hi Hs]; cbn; [done|]. apply Forall_insert; [done|].
    eapply numbered_step; [done| |].
    + by eapply Forall_lookup_1.
    + intros ->. by eapply core_number_left.
  - destruct Hs as [pc f Hs|]; cbn; [|done]. destruct (x86_bsp s1); cbn in Hs; repeat case_match; by simplify_eq.
Qed.

(** C5: Starting the processors of an x86-64 machine.  With up to 63 of them, in every
    interleaving: no two are given the same core number, every number is that of a slot
    of the core-local variables, and none is refused one; none passes the barrier
    before [start_other_cores] releases it; when [start_other_cores] succeeds every
    processor has switched to its IDLE process and been counted, and they have exactly
    the numbers 1 to the number of processors; when it fails, a processor has failed. *)
Theorem x86_cores_online aps s :
  Z.of_nat aps < CPU_COUNT_MAX → x86_smp_reachable (Z.of_nat aps + 1) aps s →
  NoDup (core_numbers s) ∧ Forall (λ c, 1 ≤ c < CPU_COUNT_MAX) (core_numbers s) ∧
  (∀ i r, x86_aps s !! i = Some (AP_UNLOCK r) → is_ok r = true) ∧
  (x86_bsp s = BSP_RELEASE → Forall (λ pc, counted (x86_phase pc) = false ∧ x86_phase pc ≠ RELEASED) (x86_aps s)) ∧
  (x86_bsp s = BSP_RETURN (Ok tt) →
   Forall (λ pc, x86_phase pc = ONLINE) (x86_aps s) ∧ core_numbers s ≡ₚ seqZ 1 (Z.of_nat aps)) ∧
  (∀ e, x86_bsp s = BSP_RETURN (Err e) → e = HE_NO_SUCH_DEVICE ∧ ∃ i core, x86_aps s !! i = Some (AP_RETURNED core)).
Proof.
  intros Haps Hr. pose proof (x86_started_reachable _ _ _ Haps Hr) as [Hinv Hl Hnum [_ Hb]].
  pose proof Hinv as [_ _ Hn Hc]. unfold CPU_COUNT_MAX in Haps.
  destruct (boot_result aps (x86_boot s) ltac:(lia) (x86_boot_reachable _ _ _ Hr)) as (Hrel & Hok & Herr).
  cbn [x86_boot bsp phases] in Hrel, Hok, Herr. split_and!.
  - rewrite Hc. apply NoDup_seqZ.
  - rewrite Hc. apply Forall_seqZ. lia.
  - intros i r Hi. apply (Forall_lookup_1 _ _ _ _ Hnum) in Hi as [?|[?|[core Hi]]]; [done..|]. by destruct r.
  - intros He. specialize (Hrel He). by rewrite Forall_fmap in Hrel.
  - intros He. specialize (Hok He). rewrite Forall_fmap in Hok.
    assert (Hon : Forall (λ pc, x86_phase pc = ONLINE) (x86_aps s))
      by (eapply Forall_impl; [exact Hok|]; intros pc Hpc; by destruct pc).
    split; [done|]. assert (Hlen : length (core_numbers s) = aps).
    { rewrite <- Hl. apply length_omap_all. eapply Forall_impl; [exact Hon|]. intros pc Hpc. destruct pc; cbn in *; naive_solver. }
    rewrite Hc in Hlen |- *. rewrite length_seqZ in Hlen. by replace (Z.of_nat aps) with (current_cpu_number s) by lia.
  - intros e He. destruct (Herr e He) as [[-> Hone]| ->]; [|done]. split; [done|].
    destruct (how_many_exists _ _ Hone) as (i & p & Hp & Hrep). rewrite list_lookup_fmap in Hp.
    exists i. destruct (x86_aps s !! i) as [pc|]; [|done]. simplify_eq/=. destruct pc; try done. by eexists.
Qed.

(** ** AArch64 *)

Definition affinity (cpu : cpu_description) : Z := Z.land (mpidr cpu) MPIDR_AFFINITY_MASK.

Lemma find_logical_core_spec cpus cpu n index :
  NoDup (affinity <$> cpus) → cpus !! n = Some cpu →
  find_logical_core cpus (affinity cpu) index = Ok (index + Z.of_nat n).
Proof.
  revert n index. induction cpus as [|c cpus IH]; intros n index Hd Hn; [done|]. cbn [find_logical_core].
  apply NoDup_cons in Hd as [Hc Hd]. fold (affinity c). destruct n as [|n].
  - injection Hn as ->. rewrite Z.eqb_refl. f_equal. lia.
  - rewrite (proj2 (Z.eqb_neq _ _)); [rewrite (IH n) by done; f_equal; lia|].
    intros He. apply Hc. rewrite He. apply list_elem_of_fmap. exists cpu. split; [done|]. by eapply list_elem_of_lookup_2.
Qed.

Definition arm_core (pc : arm_ap) : option Z :=
  match pc with
  | SC_LOCAL core | SC_CORE core | SC_GIC core | SC_TIMER core | SC_BARRIER core | SC_MANAGER core | SC_START core
  | SC_IDLE core | SC_MARK core | SC_RESTORE core | SC_RUNNING core => Some core
  | SC_ENTRY | SC_FAIL _ | SC_HALTED _ => None
  end.

Lemma arm_cores_kept cpus frequency started_at aps s :
  NoDup (affinity <$> cpus) → rtc (arm_smp_step cpus frequency started_at) (initial_arm_smp aps) s →
  ∀ i pc core, arm_aps s !! i = Some pc → arm_core pc = Some core → core = Z.of_nat i + 1.
Proof.
  intros Hd. apply (rtc_ind_r (λ s, ∀ i pc core, arm_aps s !! i = Some pc → arm_core pc = Some core → core = Z.of_nat i + 1)).
  { intros i pc core Hi. by apply lookup_replicate in Hi as [-> _]. }
  intros s1 s2 _ Hs IH i pc core Hi Hc. destruct Hs as [|j cpu answer pc1 pc2 f Hcpu Hj Hs]; [by eapply IH|].
  cbn in Hi. apply list_lookup_insert_Some in Hi as [(<- & -> & _)|[Hne Hi]]; [|by eapply IH].
  destruct pc1; cbn in Hs; try (repeat case_match; simplify_eq/=; by eapply IH).
  unfold current_logical_core in Hs. fold (affinity cpu) in Hs. rewrite (find_logical_core_spec _ _ _ _ Hd Hcpu) in Hs.
  simplify_eq/=. lia.
Qed.

(** Starting the processors of an AArch64 machine.  With up to 63 described
    processors of distinct affinities, in every interleaving: a processor only ever
    uses the core-local variables of its own description; none passes the barrier
    before [start_other_cores] releases it; when [start_other_cores] succeeds every
    processor has switched to its IDLE process and been counted; when it reports a
    missing device a processor has reported a failure, and its only other error is the
    timeout. *)
Theorem arm_cores_online cpus frequency started_at aps s :
  NoDup (affinity <$> cpus) → length cpus = S aps → Z.of_nat aps < CPU_COUNT_MAX →
  rtc (arm_smp_step cpus frequency started_at) (initial_arm_smp aps) s →
  (∀ i pc core, arm_aps s !! i = Some pc → arm_core pc = Some core → core = Z.of_nat i + 1) ∧
  (arm_bsp s = BSP_RELEASE → Forall (λ pc, counted (arm_phase pc) = false ∧ arm_phase pc ≠ RELEASED) (arm_aps s)) ∧
  (arm_bsp s = BSP_RETURN (Ok tt) → Forall (λ pc, counted (arm_phase pc) = true) (arm_aps s)) ∧
  (∀ e, arm_bsp s = BSP_RETURN (Err e) →
     e = HE_NO_SUCH_DEVICE ∧ (∃ i c, arm_aps s !! i = Some (SC_HALTED c)) ∨ e = HE_TIMEOUT).
Proof.
  intros Hd Hl Haps Hr. unfold CPU_COUNT_MAX in Haps. pose proof (arm_boot_reachable _ _ _ _ _ Hr) as Hb.
  replace (Z.of_nat (length cpus)) with (Z.of_nat aps + 1) in Hb by lia.
  destruct (boot_result aps (arm_boot s) ltac:(lia) Hb) as (Hrel & Hok & Herr).
  cbn [arm_boot bsp phases] in Hrel, Hok, Herr. split; [by eapply arm_cores_kept|]. split_and!.
  - intros He. specialize (Hrel He). by rewrite Forall_fmap in Hrel.
  - intros He. specialize (Hok He). by rewrite Forall_fmap in Hok.
  - intros e He. destruct (Herr e He) as [[-> Hone]| ->]; [left|by right]. split; [done|].
    destruct (how_many_exists _ _ Hone) as (i & p & Hp & Hrep). rewrite list_lookup_fmap in Hp.
    exists i. destruct (arm_aps s !! i) as [pc|]; [|done]. simplify_eq/=. destruct pc; try done. by eexists.
Qed.

(** ** Executions *)

(** A schedule: the first core's turns and those of the processors. *)
Fixpoint run_x86 (expected : Z) (turns : list (option nat)) (s : x86_smp) : x86_smp :=
  match turns with
  | [] => s
  | None :: turns' =>
      let r := x86_bsp_step expected (x86_bsp s) (x86_flags s) in
      run_x86 expected turns' (MkX86Smp r.2 (cpu_lock s) (current_cpu_number s) r.1 (x86_aps s))
  | Some i :: turns' =>
      match x86_aps s !! i with
      | None => s
      | Some pc =>
          match x86_ap_step true pc s with
          | (pc', f, l, n) => run_x86 expected turns' (MkX86Smp f l n (x86_bsp s) (<[i := pc']> (x86_aps s)))
          end
      end
  end.
Lemma run_x86_steps expected turns s : rtc (x86_smp_step expected) s (run_x86 expected turns s).
Proof.
  revert s. induction turns as [|[i|] turns IH]; intros s; cbn [run_x86]; [done| |].
  - destruct (x86_aps s !! i) as [pc|] eqn:Hi; [|done]. destruct (x86_ap_step true pc s) as [[[pc' f] l] n] eqn:Hs.
    eapply rtc_l; [by eapply x86_step_ap|apply IH].
  - eapply rtc_l; [|apply IH]. apply x86_step_bsp. by destruct (x86_bsp_step _ _ _).
Qed.

Fixpoint run_arm (cpus : list cpu_description) (frequency started_at now : Z) (turns : list (option nat)) (s : arm_smp) : arm_smp :=
  match turns with
  | [] => s
  | None :: turns' =>
      let r := arm_bsp_step (Z.of_nat (length cpus)) frequency started_at now (arm_bsp s) (arm_flags s) in
      run_arm cpus frequency started_at now turns' (MkArmSmp r.2 r.1 (arm_aps s))
  | Some i :: turns' =>
      match cpus !! (i + 1)%nat, arm_aps s !! i with
      | Some cpu, Some pc =>
          let r := arm_ap_step cpus (mpidr cpu) true pc (arm_flags s) in
          run_arm cpus frequency started_at now turns' (MkArmSmp r.2 (arm_bsp s) (<[i := r.1]> (arm_aps s)))
      | _, _ => s
      end
  end.
Lemma run_arm_steps cpus frequency started_at now turns s :
  rtc (arm_smp_step cpus frequency started_at) s (run_arm cpus frequency started_at now turns s).
Proof.
  revert s. induction turns as [|[i|] turns IH]; intros s; cbn [run_arm]; [done| |].
  - destruct (cpus !! (i + 1)%nat) as [cpu|] eqn:Hc; [|done]. destruct (arm_aps s !! i) as [pc|] eqn:Hi; [|done].
    eapply rtc_l; [|apply IH]. by eapply arm_step_ap; [..|apply surjective_pairing].
  - eapply rtc_l; [|apply IH]. eapply (arm_step_bsp _ _ _ _ now), surjective_pairing.
Qed.

(** Two processors that take turns, and the first core. *)
Definition example_turns : list (option nat) := concat (replicate 20 [Some 0%nat; None; Some 1%nat]).
Definition example_x86 : x86_smp := run_x86 3 example_turns (initial_x86_smp 2).
Definition example_cpus : list cpu_description :=
  [MkCpu 0x80000000 0 ENABLE_PSCI; MkCpu 0x80000001 0 ENABLE_PSCI; MkCpu 0x80000100 0 ENABLE_PSCI].
Definition example_arm : arm_smp := run_arm example_cpus 62500000 1000 2000 example_turns (initial_arm_smp 2).

Lemma smp_boot_refined_witness :
  boot_reachable 3 2 (x86_boot example_x86) ∧ boot_reachable 3 2 (arm_boot example_arm).
Proof.
  split.
  - exact (proj1 (smp_boot_refined 3 2 example_x86 example_cpus 62500000 1000 example_arm) (run_x86_steps _ _ _)).
  - exact (proj2 (smp_boot_refined 3 2 example_x86 example_cpus 62500000 1000 example_arm) (run_arm_steps _ _ _ _ _ _)).
Defined.

Lemma x86_cores_online_witness :
  x86_bsp example_x86 = BSP_RETURN (Ok tt) ∧
  Forall (λ pc, x86_phase pc = ONLINE) (x86_aps example_x86) ∧ core_numbers example_x86 ≡ₚ seqZ 1 2.
Proof.
  split; [by vm_compute|].
  exact (proj1 (proj2 (proj2 (proj2 (proj2 (x86_cores_online 2 example_x86 eq_refl (run_x86_steps _ _ _)))))) ltac:(by vm_compute)).
Defined.

Lemma arm_cores_online_witness :
  arm_bsp example_arm = BSP_RETURN (Ok tt) ∧ Forall (λ pc, counted (arm_phase pc) = true) (arm_aps example_arm).
Proof.
  split; [by vm_compute|].
  assert (Hd : NoDup (affinity <$> example_cpus)) by (apply (bool_decide_eq_true_1 _); by vm_compute).
  exact (proj1 (proj2 (proj2 (arm_cores_online example_cpus 62500000 1000 2 example_arm Hd eq_refl eq_refl
    (run_arm_steps _ _ _ _ _ _)))) ltac:(by vm_compute)).
Defined.
