(* ===== verification/Aarch64Process.v ===== *)
(** Contexts and exceptions of AArch64: src/src/hal/aarch64/process/process_manager.cpp,
    the register indices of include/hal/aarch64/arch/arch_context.hpp, the core-local
    variables of src/src/hal/aarch64/arch/cpu.cpp and the synchronous exceptions of
    src/src/hal/aarch64/interrupt/interrupt.cpp.  (The interrupts are in Gic.v.)

    TPIDR_EL1 is the field [gs_base] of [hal_core] and TTBR0_EL1 the field [cr3]: the
    registers that name the core-local variables and the user page table of a core. *)

From S2P Require Import Prelude Word Types Dll Kernel Hal MemoryTypes Aarch64Memory ProcessManager Memory Devices Reclamation KernelCall Bus Acpi Platform Apic Interrupt.

(** ** arch_context.hpp *)

Module aarch64_register_index.
Definition X8 : Z := 8.
Definition SP_EL0 : Z := 31.
Definition ELR_EL1 : Z := 32.
Definition SPSR_EL1 : Z := 33.
Definition TPIDR_EL0 : Z := 34.
End aarch64_register_index.
Import aarch64_register_index.

Definition SPSR_MODE_EL0T : Z := 0x0.
Definition SPSR_MODE_EL1H : Z := 0x5.
Definition AARCH64_HARDWARE_CONTEXT_SIZE : Z := 35.
Definition AARCH64_FLOATING_CONTEXT_SIZE : Z := 66.

Record exception_frame := MkExceptionFrame {
  frame_registers : list Z;
  esr_el1 : Z;
  far_el1 : Z;
}.

(** ** process_manager.cpp *)

(** x8 carries the number of the kernel call. *)
Definition aarch64_message_register_index (index : Z) : Z := if index <? 8 then index else index + 1.

Definition aarch64_get_message_register (target_process index : Z) : M (result Z hal_error) :=
  tp ← load processes target_process;
  if index <? 10 then
    v ← defined (get_register (registers tp) (aarch64_message_register_index index)); mret (Ok v)
  else
    match buffer tp with
    | None => fail HE_NO_SUCH_ADDRESS
    | Some b => buf ← load ipc_buffers b; v ← defined (messages buf !! Z.to_nat index); mret (Ok v)
    end.

Definition aarch64_configure_message_register (target_process index value : Z) : M hal_result :=
  tp ← load processes target_process;
  if index <? 10 then
    modify processes target_process (λ p, p <| registers ::= set_register (aarch64_message_register_index index) value |>);; ok
  else
    match buffer tp with
    | None => fail HE_NO_SUCH_ADDRESS
    | Some b => set_message b index value;; ok
    end.

Definition aarch64_general_register_index (type : register_type) : Z :=
  match type with
  | RT_INSTRUCTION_POINTER => ELR_EL1
  | RT_STACK_POINTER => SP_EL0
  | RT_THREAD_LOCAL_BASE => TPIDR_EL0
  end.
Definition aarch64_get_general_register (target_process : Z) (type : register_type) : M (result Z hal_error) :=
  tp ← load processes target_process;
  v ← defined (get_register (registers tp) (aarch64_general_register_index type)); mret (Ok v).
Definition aarch64_configure_general_register (target_process : Z) (type : register_type) (value : Z) : M hal_result :=
  modify processes target_process
    (λ p, p <| registers ::= set_register (aarch64_general_register_index type) value |>);; ok.

Definition SVC_INSTRUCTION_BYTES : Z := 4.
Definition aarch64_restart_syscall (target : Z) : M unit :=
  tp ← load processes target;
  elr ← defined (get_register (registers tp) ELR_EL1);
  modify processes target (λ p, p <| registers ::= set_register ELR_EL1 (wsub elr SVC_INSTRUCTION_BYTES) |>).

(** The context [init_hardware_context] writes, and its answer. *)
Definition aarch64_init_hardware_context (mode : cpu_mode) : list Z * hal_result :=
  let context := replicate (Z.to_nat AARCH64_HARDWARE_CONTEXT_SIZE) 0 in
  match mode with
  | CM_KERNEL => (set_register SPSR_EL1 SPSR_MODE_EL1H context, Ok tt)
  | CM_USER => (set_register SPSR_EL1 SPSR_MODE_EL0T context, Ok tt)
  | _ => (context, Err HE_ILLEGAL_ARGUMENT)
  end.
Definition aarch64_configure_floating_context (target : Z) : M hal_result :=
  modify processes target
    (λ p, p <| floating_registers := replicate (Z.to_nat AARCH64_FLOATING_CONTEXT_SIZE) 0 |>);; ok.

(** [static_cast<a9n::sword>]. *)
Definition to_sword (x : Z) : Z := if x <? 2 ^ 63 then x else x - 2 ^ 64.

Section process.
Context `{config}.

Definition load_user_page_table (address : Z) : M unit :=
  modify_core (λ c, c <| cr3 := address |>);;
  c ← reads current_core; emit (EV_INVALIDATE_TLB c None).

(** The bits of [owner] in the word. *)
Definition set_owner (owner owners : Z) : Z := Z.lor owners owner.
Definition clear_owner (owner owners : Z) : Z := Z.land owners (2 ^ 64 - 1 - owner).

Definition aarch64_switch_context (preview_process next_process : Z) : M hal_result :=
  core ← this_core;
  modify processes preview_process (λ p, p <| floating_registers := floating_unit core |>);;
  np ← load processes next_process;
  modify_core (λ c, c <| floating_unit := floating_registers np |>);;
  root ← load slots (process_slot_ref next_process ROOT_ADDRESS_SPACE);
  let next_root := convert_slot_data_to_page_table (data root) in
  if table_address next_root =? 0 then fail HE_NO_SUCH_ADDRESS
  else
    current_root ← current_user_page_table;
    if current_root =? table_address next_root then ok
    else
      owner ← defined (shl 1 (Z.land (core_affinity np) (WORD_BITS - 1)));
      (if SMP_ENABLED then
         owners ← aarch64_read_address_space_owners next_root;
         aarch64_write_address_space_owners next_root (set_owner owner owners)
       else mret tt);;
      load_user_page_table (table_address next_root);;
      (if SMP_ENABLED && negb (current_root =? 0) then
         let previous_root := make_page_table current_root DEPTH_L0 in
         owners ← aarch64_read_address_space_owners previous_root;
         aarch64_write_address_space_owners previous_root (clear_owner owner owners)
       else mret tt);;
      ok.

(** ** cpu.cpp *)

Definition aarch64_current_local_variable : M (result Z hal_error) :=
  core ← this_core;
  match gs_base core with
  | None => fail HE_INIT_FIRST
  | Some local_variable => mret (Ok local_variable)
  end.
Definition aarch64_current_core_number : M (result Z hal_error) :=
  let? local_variable := aarch64_current_local_variable in
  lv ← load cpu_local_variables local_variable; mret (Ok (core_number lv)).
Definition aarch64_core_count (cpus : Z) : Z := if SMP_ENABLED then cpus else 1.

(** ** interrupt.cpp *)

(** The process whose context [current_context] points to; null before the first
    switch. *)
Definition aarch64_current_context : M (option Z) :=
  local ← aarch64_current_local_variable;
  match local with
  | Err _ => mret None
  | Ok local_variable => lv ← load cpu_local_variables local_variable; mret (current_process lv)
  end.
Definition save_current_context (frame : exception_frame) : M unit :=
  current ← aarch64_current_context;
  match current with
  | None => mret tt
  | Some p => modify processes p (λ v, v <| registers := take (Z.to_nat AARCH64_HARDWARE_CONTEXT_SIZE) (frame_registers frame) |>)
  end.

(** [restore_context]: the answer is its error, or the context that is restored. *)
Definition aarch64_restore_context (current_mode : cpu_mode) : M (result (list Z) hal_error) :=
  match current_mode with
  | CM_KERNEL | CM_USER =>
      let? local_variable := aarch64_current_local_variable in
      lv ← load cpu_local_variables local_variable;
      match current_process lv with
      | None => fail HE_NO_SUCH_ADDRESS
      | Some p => v ← load processes p; mret (Ok (registers v))
      end
  | _ => fail HE_ILLEGAL_ARGUMENT
  end.

Definition exception_class (esr : Z) : Z := Z.land (Z.shiftr esr 26) 0x3f.
Definition CLASS_SVC : Z := 0x15.

Definition sync_fault_type (class : Z) : fault_type :=
  match class with
  | 0x20 | 0x21 => FT_MEMORY_INSTRUCTION_FETCH
  | 0x24 | 0x25 => FT_MEMORY
  | 0x00 => FT_INVALID_INSTRUCTION
  | _ => FT_ARCHITECTURE
  end.

(** The answer says whether the function returns; [fatal_exception] does not. *)
Definition dispatch_user_sync (h : interrupt_handlers) (frame : exception_frame) : M bool :=
  let class := exception_class (esr_el1 frame) in
  if class =? CLASS_SVC then
    match kernel_call_handler h with
    | None => mret false
    | Some handler =>
        x8 ← defined (get_register (frame_registers frame) X8);
        let kernel_call_number := to_sword x8 in
        match kernel_call_type_of_sword kernel_call_number with
        | Some type => handler type;; mret true
        | None =>
            match fault_dispatcher h with
            | None => mret false
            | Some dispatcher =>
                elr ← defined (get_register (frame_registers frame) ELR_EL1);
                dispatcher FT_INVALID_KERNEL_CALL kernel_call_number 0 elr;;
                mret true
            end
        end
    end
  else
    match fault_dispatcher h with
    | None => mret false
    | Some dispatcher => dispatcher (sync_fault_type class) class (esr_el1 frame) (far_el1 frame);; mret true
    end.

(** [irq] is the interrupt's case (Gic.v, [handle_irq_exception]).  The answer holds
    the registers the core resumes with. *)
Definition aarch64_handle_exception (h : interrupt_handlers) (irq : M unit) (frame : exception_frame)
    (vector_kind : Z) : M kernel_exit :=
  save_current_context frame;;
  returns ← (match vector_kind with
             | 2 => dispatch_user_sync h frame
             | 1 | 3 => irq;; mret true
             | _ => mret false
             end);
  if negb returns then mret EXIT_HALT
  else
    current ← aarch64_current_context;
    match current with
    | None => mret EXIT_HALT
    | Some p => v ← load processes p; mret (EXIT_USER (registers v))
    end.

End process.

(** * Properties

    AArch64: a kernel call carries its message registers in and out of the kernel, and
    a context switch moves the core from one address space to the other. *)

From S2P Require Import AddressSpaceProofs.
Import aarch64_register_index.

(** The core that runs has its local variables and a current process. *)
Record on_arm_core (k : kernel) (hc : hal_core) (local : Z) (cpu : cpu_local_variable) (p : Z) (v : process) : Prop := {
  on_core_hal : hal_cores k !! current_core k = Some hc;
  on_core_local : gs_base hc = Some local;
  on_core_cpu : cpu_local_variables k !! local = Some cpu;
  on_core_process : current_process cpu = Some p;
  on_core_value : processes k !! p = Some v;
}.

Lemma aarch64_current_context_spec k hc local cpu p v Q :
  on_arm_core k hc local cpu p v → Q (Some p) k → wp aarch64_current_context Q k.
Proof.
  intros [Hh Hl Hc Hp Hv] HQ. unfold aarch64_current_context, aarch64_current_local_variable, this_core.
  wp_steps. rewrite Hl. wp_steps. by rewrite Hp.
Qed.

Lemma aarch64_message_register_range i :
  0 ≤ i < 10 → 0 ≤ aarch64_message_register_index i < 11 ∧ aarch64_message_register_index i ≠ X8.
Proof. intros Hi. unfold aarch64_message_register_index, X8. destruct (Z.ltb_spec i 8); lia. Qed.

(** A kernel call that reads message register [i] of its caller and answers in [j]. *)
Definition echo_handler (p i j : Z) (f : kernel_call_type → Z → Z) (type : kernel_call_type) : M unit :=
  r ← aarch64_get_message_register p i;
  match r with
  | Ok x => aarch64_configure_message_register p j (f type x);; mret tt
  | Err _ => mret tt
  end.

Section exceptions.
Context `{config}.

Lemma save_current_context_spec k hc local cpu p v frame Q :
  on_arm_core k hc local cpu p v → length (frame_registers frame) = 35%nat →
  Q tt (k <| processes ::= <[p := v <| registers := frame_registers frame |>]> |>) → wp (save_current_context frame) Q k.
Proof.
  intros Hon Hl HQ. unfold save_current_context. wp_head. eapply aarch64_current_context_spec; [done|].
  destruct Hon as [Hh Hlo Hc Hp Hv]. change (Z.to_nat AARCH64_HARDWARE_CONTEXT_SIZE) with 35%nat.
  rewrite <- Hl, firstn_all. by wp_steps.
Qed.

(** A kernel call of an AArch64 process carries its arguments in and its answer out,
    and nothing else.  An SVC with the number of a kernel call in x8 calls the kernel's
    handler with that call; the handler reads in message register [i] what the process
    had in the register that carries it (x0 to x7, x9, x10); what it writes to message
    register [j] is in the process's register when it resumes, and every other register
    of the process (x8, the stack pointer, the return address, the saved state
    included) is the one it had at the call. *)
Theorem svc_carries_messages k hc local cpu p v frame h irq i j f number type x :
  on_arm_core k hc local cpu p v → length (frame_registers frame) = 35%nat →
  exception_class (esr_el1 frame) = CLASS_SVC →
  kernel_call_handler h = Some (echo_handler p i j f) →
  frame_registers frame !! Z.to_nat X8 = Some number →
  kernel_call_type_of_sword (to_sword number) = Some type →
  0 ≤ i < 10 → 0 ≤ j < 10 →
  frame_registers frame !! Z.to_nat (aarch64_message_register_index i) = Some x →
  wp (aarch64_handle_exception h irq frame 2)
    (λ e k', e = EXIT_USER (<[Z.to_nat (aarch64_message_register_index j) := f type x]> (frame_registers frame)) ∧
             aarch64_message_register_index j ≠ X8) k.
Proof.
  intros Hon Hl Hcls Hh H8 Hty Hi Hj Hx. pose proof (aarch64_message_register_range j Hj) as [_ Hne].
  unfold aarch64_handle_exception. wp_head. eapply save_current_context_spec; [done..|].
  destruct Hon as [Hhc Hlo Hc Hp Hv]. unfold dispatch_user_sync. rewrite Hcls, Z.eqb_refl, Hh.
  wp_head. wp_head. eapply wp_defined; [exact H8|]. rewrite Hty.
  unfold echo_handler, aarch64_get_message_register, aarch64_configure_message_register.
  rewrite (proj2 (Z.ltb_lt i 10)), (proj2 (Z.ltb_lt j 10)) by lia. wp_steps. cbn [negb]. wp_head. eapply aarch64_current_context_spec.
  { by split; [exact Hhc|exact Hlo|exact Hc|exact Hp|lookup_solve]. }
  wp_steps. done.
Qed.

(** ** Context switches *)

Lemma set_owner_bits n owners i :
  0 ≤ n → 0 ≤ i → Z.testbit (set_owner (2 ^ n) owners) i = bool_decide (i = n) || Z.testbit owners i.
Proof.
  intros Hn Hi. unfold set_owner. rewrite Z.lor_spec, Z.pow2_bits_eqb, orb_comm by done. f_equal.
  destruct (Z.eqb_spec n i), (bool_decide_reflect (i = n)); congruence.
Qed.
Lemma clear_owner_bits n owners i :
  0 ≤ n < 64 → 0 ≤ i < 64 → Z.testbit (clear_owner (2 ^ n) owners) i = negb (bool_decide (i = n)) && Z.testbit owners i.
Proof.
  intros Hn Hi. unfold clear_owner. rewrite Z.land_spec, andb_comm. f_equal.
  replace (2 ^ 64 - 1 - 2 ^ n) with (Z.ldiff (Z.ones 64) (2 ^ n)).
  - rewrite Z.ldiff_spec, Z.ones_spec_low, Z.pow2_bits_eqb by lia. cbn [andb]. f_equal.
    destruct (Z.eqb_spec n i), (bool_decide_reflect (i = n)); congruence.
  - rewrite <- Z.sub_nocarry_ldiff; [by rewrite Z.ones_equiv, <- Z.sub_1_r|].
    apply Z.bits_inj'. intros b Hb. rewrite Z.ldiff_spec, Z.bits_0, Z.pow2_bits_eqb by lia.
    destruct (Z.eqb_spec n b) as [<-|]; [|done]. by rewrite Z.ones_spec_low by lia.
Qed.

Definition owners_address (root : Z) : Z := root + 8 * ADDRESS_SPACE_OWNERS_INDEX.

(** A context switch on an AArch64 multiprocessor moves the core from one address
    space to the other.  The core translates through the next process's table, its
    translations are invalidated, the floating-point unit holds the next process's state
    and the previous process's is saved; in the words that record which cores use an
    address space, the core's bit is set in the next one's and cleared in the
    previous one's, every other bit of the two and every other word of memory stays
    the same. *)
Theorem aarch64_switch_moves_core k hc p pv q qv sv root w w0 :
  let r0 := Z.land (cr3 hc) descriptor_address_mask in
  let n := Z.land (core_affinity qv) 63 in
  SMP_ENABLED = true → p ≠ q →
  hal_cores k !! current_core k = Some hc → processes k !! p = Some pv → processes k !! q = Some qv →
  slots k !! process_slot_ref q ROOT_ADDRESS_SPACE = Some sv →
  table_address (convert_slot_data_to_page_table (data sv)) = root → root ≠ 0 → r0 ≠ 0 → r0 ≠ root →
  memory_words k !! owners_address root = Some w → memory_words k !! owners_address r0 = Some w0 →
  wp (aarch64_switch_context p q)
    (λ r k', r = Ok tt ∧
       hal_cores k' !! current_core k' = Some (hc <| cr3 := root |> <| floating_unit := floating_registers qv |>) ∧
       processes k' !! p = Some (pv <| floating_registers := floating_unit hc |>) ∧
       events k' = events k ++ [EV_INVALIDATE_TLB (current_core k) None] ∧
       (∃ w' w0', memory_words k' = <[owners_address r0 := w0']> (<[owners_address root := w']> (memory_words k)) ∧
          ∀ i, 0 ≤ i < 64 → Z.testbit w' i = bool_decide (i = n) || Z.testbit w i ∧
                            Z.testbit w0' i = negb (bool_decide (i = n)) && Z.testbit w0 i)) k.
Proof.
  intros r0 n Hsmp Hpq Hhc Hp Hq Hs Hroot Hr Hr0 Hne Hw Hw0.
  assert (Hn : 0 ≤ n < 64) by (unfold n; change 63 with (Z.ones 6); rewrite Z.land_ones by lia; by apply Z.mod_pos_bound).
  unfold aarch64_switch_context, this_core, modify_core, current_user_page_table. rewrite Hsmp.
  wp_steps. rewrite Hroot, (proj2 (Z.eqb_neq root 0)) by done. unfold this_core. wp_steps.
  change (Z.land (cr3 _) descriptor_address_mask) with r0. rewrite (proj2 (Z.eqb_neq r0 root)) by done.
  wp_head. change (Z.land (core_affinity qv) (WORD_BITS - 1)) with n. eapply wp_defined; [by apply shl_1|].
  unfold aarch64_read_address_space_owners, aarch64_write_address_space_owners, load_user_page_table, modify_core, emit.
  rewrite Hroot. fold (owners_address root). wp_steps. rewrite (proj2 (Z.eqb_neq r0 0)) by done. cbn [andb negb].
  change (table_address (make_page_table r0 DEPTH_L0)) with r0. fold (owners_address r0).
  assert (owners_address root ≠ owners_address r0) by (unfold owners_address; lia).
  wp_steps. split; [done|]. split; [ksimpl_goal; by rewrite lookup_insert_eq|].
  split; [ksimpl_goal; apply lookup_insert_eq|]. split; [done|]. eexists _, _. split; [done|].
  intros i Hi. by rewrite set_owner_bits, clear_owner_bits by lia.
Qed.
End exceptions.

(** ** Examples *)

(** Two processes on core 1, in the address spaces at 0x2000 and 0x4000. *)
Definition arm_example_core : hal_core := MkHalCore 0x2000 0 0 true (Some 1) [7; 8].
Definition arm_example_frame : exception_frame :=
  MkExceptionFrame (<[8%nat := 2 ^ 64 - 2]> (Z.of_nat <$> seq 100 35)) (Z.shiftl 0x15 26) 0.
Definition arm_example : kernel :=
  initial_kernel
    <| processes := {[3 := initial_process; 4 := initial_process <| core_affinity := 1 |> <| floating_registers := [5; 6] |>]} |>
    <| slots := {[process_slot_ref 4 ROOT_ADDRESS_SPACE := initial_slot <| data := SlotData 0x4000 4 0 |>]} |>
    <| cpu_local_variables := {[1 := (initial_cpu 0 1) <| current_process := Some 3 |>]} |>
    <| current_core := 1 |> <| hal_cores := {[1 := arm_example_core]} |>
    <| memory_words := {[owners_address 0x2000 := 0xa; owners_address 0x4000 := 0x5]} |>.

Lemma svc_carries_messages_witness :
  wp (aarch64_handle_exception (no_handlers <| kernel_call_handler := Some (echo_handler 3 9 0 (λ _, Z.succ)) |>)
        (mret tt) arm_example_frame 2)
    (λ e k', e = EXIT_USER (<[0%nat := 111]> (frame_registers arm_example_frame)) ∧
             aarch64_message_register_index 0 ≠ X8) arm_example.
Proof.
  apply (svc_carries_messages arm_example arm_example_core 1 ((initial_cpu 0 1) <| current_process := Some 3 |>) 3
           initial_process arm_example_frame
           (no_handlers <| kernel_call_handler := Some (echo_handler 3 9 0 (λ _, Z.succ)) |>) (mret tt) 9 0
           (λ _, Z.succ) (2 ^ 64 - 2) YIELD 110);
    first [by vm_compute | lia | by split; vm_compute].
Defined.

Lemma aarch64_switch_moves_core_witness :
  wp (aarch64_switch_context (H := smp_example_config) 3 4)
    (λ r k', r = Ok tt ∧
       hal_cores k' !! current_core k' = Some (arm_example_core <| cr3 := 0x4000 |> <| floating_unit := [5; 6] |>) ∧
       processes k' !! 3 = Some (initial_process <| floating_registers := [7; 8] |>) ∧
       events k' = [] ++ [EV_INVALIDATE_TLB 1 None] ∧
       (∃ w' w0', memory_words k' = <[owners_address 0x2000 := w0']> (<[owners_address 0x4000 := w']> (memory_words arm_example)) ∧
          ∀ i, 0 ≤ i < 64 → Z.testbit w' i = bool_decide (i = 1) || Z.testbit 0x5 i ∧
                            Z.testbit w0' i = negb (bool_decide (i = 1)) && Z.testbit 0xa i)) arm_example.
Proof.
  exact (aarch64_switch_moves_core (H := smp_example_config) arm_example arm_example_core 3 initial_process 4
    (initial_process <| core_affinity := 1 |> <| floating_registers := [5; 6] |>)
    (initial_slot <| data := SlotData 0x4000 4 0 |>) 0x4000 0x5 0xa
    eq_refl ltac:(done) eq_refl eq_refl eq_refl eq_refl eq_refl ltac:(done) ltac:(by vm_compute) ltac:(by vm_compute)
    eq_refl eq_refl).
Defined.
