(* ===== verification/Cpu.v ===== *)
(** The set-up of an x86-64 core: control registers and [cpuid]
    (src/src/hal/x86_64/include/hal/x86_64/arch/control_register.hpp, cpuid.hpp,
    msr.hpp), the memory types of the page attribute table (memory/memory_types.hpp),
    the floating-point unit (arch/floating_point.hpp), the descriptor tables
    (arch/segment_configurator.hpp, segment_configurator.cpp) and
    [init_cpu_core], [configure_local_variable] of arch/cpu.cpp. *)

From S2P Require Import Prelude Word Types Kernel Hal Bus.

(** ** control_register.hpp *)

Module cr0_flag.
Definition NOT_WRITE_THROUGH : Z := Z.shiftl 1 29.
Definition CACHE_DISABLE : Z := Z.shiftl 1 30.
End cr0_flag.
Module cr4_flag.
Definition PAGE_GLOBAL : Z := Z.shiftl 1 7.
Definition OS_FX_SAVE_RESTORE : Z := Z.shiftl 1 9.
Definition OS_XMM_EXCEPTION : Z := Z.shiftl 1 10.
Definition CR4_FS_GS_BASE : Z := Z.shiftl 1 16.
Definition PCID : Z := Z.shiftl 1 17.
Definition OS_X_SAVE : Z := Z.shiftl 1 18.
End cr4_flag.
Import cr0_flag cr4_flag.

(** [x & ~mask] on 64 bits. *)
Definition clear_bits (x mask : Z) : Z := Z.land x (2 ^ 64 - 1 - mask).

(** ** segment_configurator.hpp *)

Definition KERNEL_TSS : Z := 0x30.

Record task_state_segment := MkTss {
  rsp_0 : Z;
  ist_1 : Z;
}.
Definition SIZEOF_TSS : Z := 104.

Record global_descriptor_table := MkGdt {
  gdt_null : Z;
  kernel_code_segment : Z;
  kernel_data_segment : Z;
  user_code_segment_32 : Z;
  user_data_segment : Z;
  user_code_segment : Z;
  tss_low : Z;
  tss_high : Z;
}.
#[global] Instance eta_gdt : Eta global_descriptor_table := λ x,
  MkGdt (gdt_null x) (kernel_code_segment x) (kernel_data_segment x) (user_code_segment_32 x)
    (user_data_segment x) (user_code_segment x) (tss_low x) (tss_high x).
Definition SIZEOF_GDT : Z := 64.
Definition SIZEOF_IDT : Z := 4096.

Definition create_segment_descriptor (base limit access flags : Z) : Z :=
  let d := Z.shiftl (Z.land (Z.shiftr base 24) 0xFF) 56 in
  let d := Z.lor d (Z.shiftl (Z.land flags 0xF) 52) in
  let d := Z.lor d (Z.shiftl (Z.land (Z.shiftr limit 16) 0xF) 48) in
  let d := Z.lor d (Z.shiftl access 40) in
  let d := Z.lor d (Z.shiftl (Z.land (Z.shiftr base 16) 0xFF) 32) in
  let d := Z.lor d (Z.shiftl (Z.land base 0xFFFF) 16) in
  Z.lor d (Z.land limit 0xFFFF).

Definition create_segment_access_field (is_present is_user is_system_segment is_executable is_comforming
    is_readable_writable is_accessed : bool) : Z :=
  let d := Z.shiftl (Z.b2z is_present) 7 in
  let d := Z.lor d (Z.shiftl (if is_user then 3 else 0) 5) in
  let d := Z.lor d (Z.shiftl (Z.b2z (negb is_system_segment)) 4) in
  let d := Z.lor d (Z.shiftl (Z.b2z is_executable) 3) in
  let d := Z.lor d (Z.shiftl (Z.b2z is_comforming) 2) in
  let d := Z.lor d (Z.shiftl (Z.b2z is_readable_writable) 1) in
  Z.lor d (Z.b2z is_accessed).

Definition TSS_AVAILABLE_64 : Z := 0x9.
Definition create_system_segment_access_field (is_present is_user : bool) (type : Z) : Z :=
  let d := Z.shiftl (Z.b2z is_present) 7 in
  let d := Z.lor d (Z.shiftl (if is_user then 3 else 0) 5) in
  Z.lor d (Z.land type 0xF).

Definition SEGMENT_BASE : Z := 0.
Definition SEGMENT_LIMIT : Z := 0xFFFFF.
Definition SEGMENT_CODE : Z := 0xA.
Definition SEGMENT_DATA : Z := 0xA.
Definition KERNEL_CODE : Z :=
  create_segment_descriptor SEGMENT_BASE SEGMENT_LIMIT
    (create_segment_access_field true false false true false true true) SEGMENT_CODE.
Definition KERNEL_DATA : Z :=
  create_segment_descriptor SEGMENT_BASE SEGMENT_LIMIT
    (create_segment_access_field true false false false false true true) SEGMENT_DATA.
Definition USER_CODE : Z :=
  create_segment_descriptor SEGMENT_BASE SEGMENT_LIMIT
    (create_segment_access_field true true false true false true true) SEGMENT_CODE.
Definition USER_DATA : Z :=
  create_segment_descriptor SEGMENT_BASE SEGMENT_LIMIT
    (create_segment_access_field true true false false false true true) SEGMENT_DATA.

(** What [configure_gdt] and [configure_tss] leave in the table. *)
Definition with_segments (gdt : global_descriptor_table) : global_descriptor_table :=
  MkGdt (gdt_null gdt) KERNEL_CODE KERNEL_DATA 0 USER_DATA USER_CODE (tss_low gdt) (tss_high gdt).
Definition with_tss (tss_address : Z) (gdt : global_descriptor_table) : global_descriptor_table :=
  gdt <| tss_low := create_segment_descriptor (Z.land tss_address 0xFFFFFFFF) SIZEOF_TSS
                      (create_system_segment_access_field true false TSS_AVAILABLE_64) 0x4 |>
      <| tss_high := Z.shiftr tss_address 32 |>.

(** ** cpu.hpp: the variables of a core *)

Record arch_cpu_local_variable := MkArchCpu {
  arch_local_apic_id : Z;
  arch_gdt : global_descriptor_table;
  arch_tss : task_state_segment;
}.
#[global] Instance eta_arch_cpu : Eta arch_cpu_local_variable := λ x,
  MkArchCpu (arch_local_apic_id x) (arch_gdt x) (arch_tss x).

(** The globals, and the addresses the tables of a core are at. *)
Record cpu_globals := MkCpuGlobals {
  arch_cpu_local_variables : gmap Z arch_cpu_local_variable;
  cpu_x_save_mask : Z;
}.
#[global] Instance eta_cpu_globals : Eta cpu_globals := λ x,
  MkCpuGlobals (arch_cpu_local_variables x) (cpu_x_save_mask x).
Class cpu_layout := {
  gdt_address : Z → Z;
  idt_address : Z → Z;
  tss_address : Z → Z;
  initial_floating_context_address : Z;
}.

Abbreviation cpu_driver := (D cpu_globals).

(** ** cpuid.hpp, msr.hpp: for any driver objects *)

Section processor.
Context `{bus_device} {S : Type}.

Definition read_register (r : x86_register) : D S Z := v ← bus_read (REGISTER r); mret (wrap v).
Definition write_register (r : x86_register) (value : Z) : D S unit := bus_write (REGISTER r) value.
Definition instruction (i : x86_instruction) (operand : Z) : D S unit := bus_write (INSTRUCTION i) operand.
Definition msr_read (index : Z) : D S Z := v ← bus_read (MSR index); mret (wrap v).
Definition msr_write (index value : Z) : D S unit := bus_write (MSR index) value.

Record cpuid_info := MkCpuid { cpuid_rax : Z; cpuid_rbx : Z; cpuid_rcx : Z; cpuid_rdx : Z }.
Definition try_get_cpuid (leaf subleaf : Z) : D S cpuid_info :=
  a ← bus_read (CPUID leaf subleaf 0);
  b ← bus_read (CPUID leaf subleaf 1);
  c ← bus_read (CPUID leaf subleaf 2);
  d ← bus_read (CPUID leaf subleaf 3);
  mret (MkCpuid (wrap32 a) (wrap32 b) (wrap32 c) (wrap32 d)).

Definition HIGHEST_FUNCTION_PARAMETER_AND_MANUFACTURER_ID : Z := 0x00000000.
Definition PROCESSOR_INFO_AND_FEATURE_BITS : Z := 0x00000001.
Definition EXTENDED_PROCESSOR_INFO_AND_FEATURE_BITS : Z := 0x80000001.
Definition PROCESSOR_BRAND_STRING_0 : Z := 0x80000002.
Definition PROCESSOR_BRAND_STRING_1 : Z := 0x80000003.
Definition PROCESSOR_BRAND_STRING_2 : Z := 0x80000004.

(** The bytes of a 32-bit word in memory. *)
Definition word_bytes (w : Z) : list Z :=
  [Z.land w 0xff; Z.land (Z.shiftr w 8) 0xff; Z.land (Z.shiftr w 16) 0xff; Z.land (Z.shiftr w 24) 0xff].

Definition try_get_vendor_id : D S (list Z) :=
  info ← try_get_cpuid HIGHEST_FUNCTION_PARAMETER_AND_MANUFACTURER_ID 0;
  mret (word_bytes (cpuid_rbx info) ++ word_bytes (cpuid_rdx info) ++ word_bytes (cpuid_rcx info) ++ [0]).
Definition info_bytes (i : cpuid_info) : list Z :=
  word_bytes (cpuid_rax i) ++ word_bytes (cpuid_rbx i) ++ word_bytes (cpuid_rcx i) ++ word_bytes (cpuid_rdx i).
Definition try_get_cpu_name : D S (list Z) :=
  i0 ← try_get_cpuid PROCESSOR_BRAND_STRING_0 0;
  i1 ← try_get_cpuid PROCESSOR_BRAND_STRING_1 0;
  i2 ← try_get_cpuid PROCESSOR_BRAND_STRING_2 0;
  mret (info_bytes i0 ++ info_bytes i1 ++ info_bytes i2 ++ [0]).
Definition try_get_processor_info_and_feature : D S cpuid_info := try_get_cpuid PROCESSOR_INFO_AND_FEATURE_BITS 0.

(** ** memory_types.hpp *)

Definition MSR_PAT : Z := 0x277.
Definition target_pat (pat : Z) : Z :=
  Z.lor (Z.lor (clear_bits pat (Z.lor (Z.lor 0xff (Z.shiftl 0xff 8)) (Z.shiftl 0xff 24))) 6) (Z.shiftl 1 8).

Definition configure_cpu_memory_types : D S hal_result :=
  features ← try_get_cpuid PROCESSOR_INFO_AND_FEATURE_BITS 0;
  if Z.land (cpuid_rdx features) (Z.shiftl 1 16) =? 0 then bus_fail HE_UNSUPPORTED
  else
    pat ← msr_read MSR_PAT;
    if pat =? target_pat pat then bus_ok
    else
      cr0 ← read_register R_CR0;
      cr4 ← read_register R_CR4;
      if negb (Z.land cr4 PCID =? 0) then bus_fail HE_UNSUPPORTED
      else
        write_register R_CR0 (clear_bits (Z.lor cr0 CACHE_DISABLE) NOT_WRITE_THROUGH);;
        instruction WBINVD 0;;
        write_register R_CR4 (clear_bits cr4 PAGE_GLOBAL);;
        msr_write MSR_PAT (target_pat pat);;
        cr3 ← read_register R_CR3;
        write_register R_CR3 cr3;;
        instruction WBINVD 0;;
        write_register R_CR4 cr4;;
        write_register R_CR0 cr0;;
        bus_ok.

End processor.

Section cpu.
Context `{bus_device} `{cpu_layout}.

(** ** floating_point.hpp *)

Definition X_CR0_MASK : Z := Z.lor (Z.lor (Z.shiftl 1 0) (Z.shiftl 1 1)) (Z.shiftl 1 2).
Definition DEFAULT_MXCSR : Z := 0x1F80.

Definition reset_floating_unit : cpu_driver unit :=
  instruction FINIT 0;;
  write_register R_MXCSR DEFAULT_MXCSR.
Definition init_floating_context_template : cpu_driver unit :=
  reset_floating_unit;;
  instruction XSAVEOPT initial_floating_context_address.
Definition configure_floating_mode : cpu_driver unit :=
  write_register R_XCR0 X_CR0_MASK;;
  mask ← read_register R_XCR0;
  set_objects (λ g, g <| cpu_x_save_mask := mask |>);;
  init_floating_context_template.

(** ** segment_configurator.cpp *)

(** The ten bytes [lgdt] and [lidt] load: the limit and the address. *)
Definition descriptor_table_register (size address : Z) : Z := size - 1 + Z.shiftl address 16.
Definition load_gdt (core : Z) : cpu_driver unit :=
  write_register R_GDTR (descriptor_table_register SIZEOF_GDT (gdt_address core)).
Definition load_idt (core : Z) : cpu_driver unit :=
  write_register R_IDTR (descriptor_table_register SIZEOF_IDT (idt_address core)).
Definition load_segment_register (code_segment_register : Z) : cpu_driver unit :=
  write_register R_CS code_segment_register;;
  write_register R_DATA_SEGMENTS KERNEL_DS.
Definition load_task_register (segment_register : Z) : cpu_driver unit := write_register R_TR segment_register.

(** The variables of core [core]; a number out of range is undefined. *)
Definition modify_arch (core : Z) (f : arch_cpu_local_variable → arch_cpu_local_variable) : cpu_driver unit :=
  cpus ← objects arch_cpu_local_variables;
  v ← certainly (cpus !! core);
  set_objects (λ g, g <| arch_cpu_local_variables ::= <[core := f v]> |>).

Definition configure_gdt (core : Z) : cpu_driver unit :=
  modify_arch core (λ v, v <| arch_gdt ::= with_segments |>);;
  load_gdt core.
Definition configure_idt (core : Z) : cpu_driver unit := load_idt core.
Definition configure_tss (core : Z) : cpu_driver unit :=
  modify_arch core (λ v, v <| arch_gdt ::= with_tss (tss_address core) |>).

(** ** cpu.cpp *)

Definition cpu_features : Z :=
  Z.lor (Z.lor (Z.lor (Z.lor CR4_FS_GS_BASE PAGE_GLOBAL) OS_X_SAVE) OS_FX_SAVE_RESTORE) OS_XMM_EXCEPTION.
Definition init_cpu_core_features : cpu_driver hal_result :=
  cr4 ← read_register R_CR4;
  write_register R_CR4 (Z.lor cr4 cpu_features);;
  configure_floating_mode;;
  bus_ok.

(** [current_arch_local_variable] answers the variables of the core that runs, or
    the error of [current_local_variable]. *)
Definition init_cpu_core_segments (current : result Z hal_error) : cpu_driver hal_result :=
  match current with
  | Err e => bus_fail e
  | Ok core =>
      configure_gdt core;;
      configure_idt core;;
      configure_tss core;;
      load_gdt core;;
      load_segment_register KERNEL_CS;;
      load_task_register KERNEL_TSS;;
      load_idt core;;
      bus_ok
  end.

Definition init_cpu_core (current : result Z hal_error) : cpu_driver hal_result :=
  cr0 ← read_register R_CR0;
  write_register R_CR0 (clear_bits cr0 (Z.lor CACHE_DISABLE NOT_WRITE_THROUGH));;
  let! _ := init_cpu_core_features in
  init_cpu_core_segments current.

(** [target]: the address, core number and kernel stack of the variables; a null
    pointer is [None]. *)
Definition configure_local_variable (target : option (Z * Z * Z)) : cpu_driver hal_result :=
  match target with
  | None => bus_fail HE_ILLEGAL_ARGUMENT
  | Some (address, core_number, kernel_stack_pointer) =>
      if kernel_stack_pointer =? 0 then bus_fail HE_INIT_FIRST
      else
        init_cpu_core_features;;
        write_register R_GS_BASE address;;
        modify_arch core_number (λ v, v <| arch_tss := MkTss kernel_stack_pointer kernel_stack_pointer |>);;
        bus_ok
  end.

End cpu.

(** * Properties

    The set-up of an x86-64 core: the descriptor tables the processor is given describe
    the segments the kernel's selectors name, and the page attribute table gives the
    mapping flags their meaning. *)

From S2P Require Import MemoryTypes Memory.
Import cr0_flag cr4_flag.

(** ** Fields of words *)

(** The [w] bits of [x] from bit [off]. *)
Definition bits_of (x off w : Z) : Z := Z.land (Z.shiftr x off) (Z.ones w).

Lemma bits_of_spec x off w n :
  0 ≤ off → 0 ≤ w → 0 ≤ n → Z.testbit (bits_of x off w) n = (n <? w) && Z.testbit x (n + off).
Proof.
  intros Ho Hw Hn. unfold bits_of. rewrite Z.land_spec, Z.shiftr_spec, Z.testbit_ones_nonneg by lia. apply andb_comm.
Qed.
Lemma bits_of_lor a b off w : bits_of (Z.lor a b) off w = Z.lor (bits_of a off w) (bits_of b off w).
Proof. unfold bits_of. by rewrite Z.shiftr_lor, Z.land_lor_distr_l. Qed.
Lemma bits_of_outside x w' k off w :
  0 ≤ off → 0 ≤ w → 0 ≤ k → 0 ≤ w' → (off + w ≤ k ∨ k + w' ≤ off) →
  bits_of (Z.shiftl (Z.land x (Z.ones w')) k) off w = 0.
Proof.
  intros Ho Hw Hk Hw' Hd. apply Z.bits_inj'. intros n Hn. rewrite bits_of_spec, Z.bits_0 by lia.
  destruct (Z.ltb_spec n w); [|done]. cbn [andb]. destruct (Z.lt_ge_cases (n + off) k).
  - apply Z.shiftl_spec_low. lia.
  - rewrite Z.shiftl_spec_high, Z.land_spec, Z.testbit_ones_nonneg by lia.
    rewrite (proj2 (Z.ltb_ge _ _)) by lia. apply andb_false_r.
Qed.
Lemma bits_of_inside x w' k off w :
  0 ≤ off → 0 ≤ w' → off ≤ k → k + w' ≤ off + w →
  bits_of (Z.shiftl (Z.land x (Z.ones w')) k) off w = Z.shiftl (Z.land x (Z.ones w')) (k - off).
Proof.
  intros Ho Hw' Hk Hd. apply Z.bits_inj'. intros n Hn. rewrite bits_of_spec by lia.
  destruct (Z.lt_ge_cases (n + off) k).
  - rewrite !Z.shiftl_spec_low by lia. apply andb_false_r.
  - rewrite !Z.shiftl_spec_high, !Z.land_spec, !Z.testbit_ones_nonneg by lia.
    replace (n + off - k) with (n - (k - off)) by lia. destruct (Z.ltb_spec n w); [done|].
    rewrite (proj2 (Z.ltb_ge _ _)) by lia. by rewrite andb_false_r.
Qed.

(** A word of 32 bits is its low half and two bytes. *)
Lemma three_fields x :
  0 ≤ x < 2 ^ 32 →
  Z.lor (Z.lor (Z.shiftl (Z.land (Z.shiftr x 24) (Z.ones 8)) 24) (Z.shiftl (Z.land (Z.shiftr x 16) (Z.ones 8)) 16))
    (Z.land x (Z.ones 16)) = x.
Proof.
  intros Hx. apply Z.bits_inj'. intros n Hn.
  rewrite !Z.lor_spec, !Z.land_spec, !(Z.shiftl_spec _ _ _ Hn), Z.testbit_ones_nonneg by lia.
  assert (Hhigh : 32 ≤ n → Z.testbit x n = false).
  { intros H32. rewrite <- (Z.mod_small x (2 ^ 32)) by done. by apply Z.mod_pow2_bits_high. }
  assert (Hf : ∀ k, 0 ≤ k → Z.testbit (Z.land (Z.shiftr x k) (Z.ones 8)) (n - k) = Z.testbit x n && (k <=? n) && (n <? k + 8)).
  { intros k Hk. destruct (Z.leb_spec k n).
    - rewrite Z.land_spec, Z.shiftr_spec, Z.testbit_ones_nonneg by lia. replace (n - k + k) with n by lia.
      rewrite andb_true_r. f_equal. destruct (Z.ltb_spec (n - k) 8), (Z.ltb_spec n (k + 8)); lia || done.
    - rewrite Z.testbit_neg_r by lia. by rewrite andb_false_r. }
  rewrite !Hf by lia. destruct (Z.lt_ge_cases n 32); [|by rewrite Hhigh].
  destruct (Z.testbit x n); [|done]. cbn [andb].
  destruct (Z.leb_spec 24 n), (Z.leb_spec 16 n), (Z.ltb_spec n (24 + 8)), (Z.ltb_spec n (16 + 8)), (Z.ltb_spec n 16);
    try lia; done.
Qed.

(** ** Segments as the processor reads them *)

Record segment_view := MkSegment {
  seg_base : Z; seg_limit : Z; seg_type : Z; seg_system : bool; seg_dpl : Z; seg_present : bool; seg_long : bool }.
Definition descriptor_base (d : Z) : Z := Z.lor (Z.shiftl (bits_of d 56 8) 24) (bits_of d 16 24).
Definition descriptor_limit (d : Z) : Z := Z.lor (Z.shiftl (bits_of d 48 4) 16) (bits_of d 0 16).
Definition read_segment (d : Z) : segment_view :=
  MkSegment (descriptor_base d) (descriptor_limit d) (bits_of d 40 4) (negb (Z.testbit d 44)) (bits_of d 45 2)
    (Z.testbit d 47) (Z.testbit d 53).

Ltac descriptor_fields :=
  unfold create_segment_descriptor; change 0xFF with (Z.ones 8); change 0xF with (Z.ones 4); change 0xFFFF with (Z.ones 16).
Ltac fields_step :=
  first [rewrite bits_of_outside by lia | rewrite bits_of_inside by lia].

Lemma byte_field x : 0 ≤ x < 256 → Z.land x (Z.ones 8) = x.
Proof. intros Hx. rewrite Z.land_ones by lia. by apply Z.mod_small. Qed.
Lemma half_field x : Z.land x (Z.ones 16) = Z.shiftl (Z.land x (Z.ones 16)) 0.
Proof. by rewrite Z.shiftl_0_r. Qed.

(** Where a descriptor puts its base, whatever the rest. *)
Lemma created_base base limit access flags :
  0 ≤ base < 2 ^ 32 → 0 ≤ access < 256 →
  descriptor_base (create_segment_descriptor base limit access flags) = base.
Proof.
  intros Hb Ha. unfold descriptor_base. descriptor_fields. rewrite <- (byte_field access Ha).
  rewrite (half_field limit). rewrite !bits_of_lor. repeat fields_step. rewrite !Z.lor_0_r, !Z.lor_0_l.
  cbn [Z.sub Z.add Z.opp Z.pos_sub]. rewrite Z.shiftl_0_r, Z.lor_assoc. rewrite Z.shiftl_0_r.
  by apply three_fields.
Qed.

(** The other fields of a descriptor, from the bytes it was made of. *)
Lemma created_access base limit access flags :
  0 ≤ access < 256 → bits_of (create_segment_descriptor base limit access flags) 40 8 = access.
Proof.
  intros Ha. descriptor_fields. rewrite <- (byte_field access Ha) at 1.
  rewrite (half_field limit). rewrite !bits_of_lor. repeat fields_step. rewrite !Z.lor_0_r, !Z.lor_0_l.
  change (40 - 40) with 0. by rewrite Z.shiftl_0_r, byte_field.
Qed.
Lemma created_flags base limit access flags :
  0 ≤ access < 256 → bits_of (create_segment_descriptor base limit access flags) 52 4 = Z.land flags (Z.ones 4).
Proof.
  intros Ha. descriptor_fields. rewrite <- (byte_field access Ha).
  rewrite (half_field limit). rewrite !bits_of_lor. repeat fields_step. rewrite !Z.lor_0_r, ?Z.lor_0_l.
  change (52 - 52) with 0. by rewrite Z.shiftl_0_r.
Qed.
Lemma created_limit base limit access flags :
  0 ≤ access < 256 → 0 ≤ limit < 2 ^ 16 →
  descriptor_limit (create_segment_descriptor base limit access flags) = limit.
Proof.
  intros Ha Hl. unfold descriptor_limit. descriptor_fields. rewrite <- (byte_field access Ha).
  rewrite (half_field limit). rewrite !bits_of_lor. repeat fields_step. rewrite !Z.lor_0_r, !Z.lor_0_l.
  change (48 - 48) with 0. change (0 - 0) with 0. rewrite !Z.shiftl_0_r.
  rewrite (Z.shiftr_div_pow2 limit), (Z.div_small limit), Z.land_0_l, Z.shiftl_0_l by lia.
  rewrite Z.lor_0_l, Z.land_ones by lia. by apply Z.mod_small.
Qed.

Lemma bits_of_bits x off w o w' :
  0 ≤ off → 0 ≤ o → 0 ≤ w' → o + w' ≤ w → bits_of x (off + o) w' = bits_of (bits_of x off w) o w'.
Proof.
  intros. apply Z.bits_inj'. intros n Hn. rewrite !bits_of_spec by lia. rewrite Z.add_assoc, (Z.add_shuffle0 n off o).
  destruct (Z.ltb_spec n w'); [|done]. by rewrite (proj2 (Z.ltb_lt (n + o) w)) by lia.
Qed.
Lemma testbit_bits x off w n : 0 ≤ off → 0 ≤ n < w → Z.testbit x (off + n) = Z.testbit (bits_of x off w) n.
Proof. intros. rewrite bits_of_spec, (proj2 (Z.ltb_lt n w)), Z.add_comm by lia. done. Qed.

Lemma read_created base limit access flags :
  0 ≤ base < 2 ^ 32 → 0 ≤ access < 256 → 0 ≤ limit < 2 ^ 16 →
  read_segment (create_segment_descriptor base limit access flags) =
    MkSegment base limit (bits_of access 0 4) (negb (Z.testbit access 4)) (bits_of access 5 2) (Z.testbit access 7)
      (Z.testbit (Z.land flags (Z.ones 4)) 1).
Proof.
  intros Hb Ha Hl. unfold read_segment. rewrite created_base, created_limit by done.
  set (d := create_segment_descriptor _ _ _ _). pose proof (created_access base limit access flags Ha) as Hacc.
  pose proof (created_flags base limit access flags Ha) as Hfl. fold d in Hacc, Hfl.
  f_equal.
  - rewrite <- Hacc. apply (bits_of_bits d 40 8 0 4); lia.
  - f_equal. rewrite <- Hacc. apply (testbit_bits d 40 8 4); lia.
  - rewrite <- Hacc. apply (bits_of_bits d 40 8 5 2); lia.
  - rewrite <- Hacc. apply (testbit_bits d 40 8 7); lia.
  - rewrite <- Hfl. apply (testbit_bits d 52 4 1); lia.
Qed.

(** ** The tables of a core *)

Definition gdt_words (t : global_descriptor_table) : list Z :=
  [gdt_null t; kernel_code_segment t; kernel_data_segment t; user_code_segment_32 t; user_data_segment t;
   user_code_segment t; tss_low t; tss_high t].
(** The descriptor a selector names: its low three bits are the requested privilege. *)
Definition selected (t : global_descriptor_table) (selector : Z) : option Z := gdt_words t !! Z.to_nat (selector / 8).

Definition code_segment (dpl : Z) : segment_view := MkSegment 0 0xFFFFF 0xB false dpl true true.
Definition data_segment (dpl : Z) : segment_view := MkSegment 0 0xFFFFF 0x3 false dpl true true.

(** The selectors of the kernel and of a process name the segments they are for, and
    the task register names the task state segment. *)
Definition segments_described (t : global_descriptor_table) (tss : Z) : Prop :=
  read_segment <$> selected t KERNEL_CS = Some (code_segment 0) ∧
  read_segment <$> selected t KERNEL_DS = Some (data_segment 0) ∧
  read_segment <$> selected t (Z.lor USER_CS 3) = Some (code_segment 3) ∧
  read_segment <$> selected t (Z.lor USER_DS 3) = Some (data_segment 3) ∧
  (∃ low high, selected t KERNEL_TSS = Some low ∧ selected t (KERNEL_TSS + 8) = Some high ∧
     read_segment low = MkSegment (tss mod 2 ^ 32) SIZEOF_TSS TSS_AVAILABLE_64 true 0 true false ∧
     seg_base (read_segment low) + 2 ^ 32 * high = tss).

Lemma segments_described_configured t tss : 0 ≤ tss → segments_described (with_tss tss (with_segments t)) tss.
Proof.
  intros Ht. split; [by vm_compute|]. split; [by vm_compute|]. split; [by vm_compute|]. split; [by vm_compute|].
  exists (tss_low (with_tss tss (with_segments t))), (Z.shiftr tss 32). split; [done|]. split; [done|].
  cbn [with_tss tss_low upd]. unfold with_tss. cbn. change 0xFFFFFFFF with (Z.ones 32). rewrite Z.land_ones by lia.
  pose proof (Z.mod_pos_bound tss (2 ^ 32) ltac:(lia)). rewrite read_created by (done || by vm_compute).
  split; [done|]. cbn [seg_base]. rewrite Z.shiftr_div_pow2, Z.add_comm by lia.
  unfold read_segment. cbn [seg_base]. rewrite created_base by (done || by vm_compute). symmetry. by apply Z.div_mod.
Qed.

(** The last value written to a register. *)
Fixpoint last_write (a : bus_access) (l : list bus_event) : option Z :=
  match l with
  | [] => None
  | BUS_WRITE b v :: l' =>
      match last_write a l' with Some w => Some w | None => if bool_decide (a = b) then Some v else None end
  | _ :: l' => last_write a l'
  end.

Lemma bit_cleared x mask n : Z.testbit (2 ^ 64 - 1 - mask) n = false → Z.testbit (clear_bits x mask) n = false.
Proof. intros Hm. unfold clear_bits. by rewrite Z.land_spec, Hm, andb_false_r. Qed.
Lemma bit_kept x mask n :
  Z.testbit x n = true → Z.testbit (2 ^ 64 - 1 - mask) n = true → Z.testbit (clear_bits x mask) n = true.
Proof. intros Hx Hm. unfold clear_bits. by rewrite Z.land_spec, Hx, Hm. Qed.
Lemma bit_set x y n : Z.testbit y n = true → Z.testbit (Z.lor x y) n = true.
Proof. intros Hy. by rewrite Z.lor_spec, Hy, orb_true_r. Qed.

Section cpu.
Context `{bus_device} `{cpu_layout}.

(** After [init_cpu_core] the core runs with the tables of its own variables.  The
    last tables loaded are its own GDT and IDT; in that GDT the code and data selectors
    the kernel uses, and those it gives to processes, name flat present segments of
    privilege 0 and 3, and the task register's selector names a present TSS
    descriptor whose 64-bit base is the core's task state segment; the caches are on,
    and the features the kernel relies on (FSGSBASE, XSAVE, FXSAVE) are enabled.  The
    variables of the other cores stay the same. *)
Theorem core_tables_installed core v g log :
  arch_cpu_local_variables g !! core = Some v → 0 ≤ tss_address core →
  dwp (init_cpu_core (Ok core))
    (λ r g' log', r = Ok tt ∧ ∃ v' new, log' = log ++ new ∧
       arch_cpu_local_variables g' = <[core := v']> (arch_cpu_local_variables g) ∧ arch_tss v' = arch_tss v ∧
       segments_described (arch_gdt v') (tss_address core) ∧
       last_write (REGISTER R_GDTR) new = Some (descriptor_table_register SIZEOF_GDT (gdt_address core)) ∧
       last_write (REGISTER R_IDTR) new = Some (descriptor_table_register SIZEOF_IDT (idt_address core)) ∧
       last_write (REGISTER R_TR) new = Some KERNEL_TSS ∧ last_write (REGISTER R_CS) new = Some KERNEL_CS ∧
       last_write (REGISTER R_XCR0) new = Some X_CR0_MASK ∧
       (∃ cr0, last_write (REGISTER R_CR0) new = Some cr0 ∧ Z.testbit cr0 29 = false ∧ Z.testbit cr0 30 = false) ∧
       (∃ cr4, last_write (REGISTER R_CR4) new = Some cr4 ∧ Z.testbit cr4 16 = true ∧ Z.testbit cr4 18 = true ∧
               Z.testbit cr4 9 = true)) g log.
Proof.
  intros Hv Ht. unfold init_cpu_core, init_cpu_core_features, configure_floating_mode, init_floating_context_template,
    reset_floating_unit, init_cpu_core_segments, configure_gdt, configure_idt, configure_tss, modify_arch,
    load_gdt, load_idt, load_segment_register, load_task_register, read_register, write_register, instruction.
  dwp_steps. eapply dwp_certainly; [exact Hv|]. dwp_steps. eapply dwp_certainly; [apply lookup_insert_eq|]. dwp_steps.
  split; [done|]. rewrite <- !app_assoc. eexists _, _. split; [done|].
  split; [apply insert_insert_eq|]. split; [done|]. split; [by apply segments_described_configured|].
  do 5 (split; [reflexivity|]). split.
  - eexists. split; [reflexivity|]. split; by apply bit_cleared.
  - eexists. split; [reflexivity|]. split_and!; by apply bit_set.
Qed.
End cpu.

(** ** Memory types *)

(** Entry [i] of the page attribute table, and the entry a leaf of the page tables
    selects with its PWT and PCD bits (the PAT bit is never set). *)
Definition pat_entry (pat i : Z) : Z := bits_of pat (8 * i) 8.
Definition pat_index (flags : Z) : Z := Z.b2z (Z.testbit flags 3) + 2 * Z.b2z (Z.testbit flags 4).
(** Write-back, write-combining and strong uncacheable (Intel SDM vol. 3A, table 12-10). *)
Definition memory_type_of (f : mapping_flag) : Z :=
  match f with MAPPING_NORMAL => 6 | MAPPING_BUFFERED => 1 | MAPPING_UNCACHED => 0 end.

Lemma target_pat_bit pat i n :
  0 ≤ i < 8 → 0 ≤ n < 8 →
  Z.testbit (target_pat pat) (n + 8 * i) =
    if bool_decide (i = 0) then Z.testbit 6 n else if bool_decide (i = 1) then Z.testbit 1 n
    else if bool_decide (i = 3) then false else Z.testbit pat (n + 8 * i).
Proof.
  intros Hi Hn. unfold target_pat, clear_bits. rewrite !Z.lor_spec, Z.land_spec.
  assert (i = 0 ∨ i = 1 ∨ i = 2 ∨ i = 3 ∨ i = 4 ∨ i = 5 ∨ i = 6 ∨ i = 7) as Hc by lia.
  assert (n = 0 ∨ n = 1 ∨ n = 2 ∨ n = 3 ∨ n = 4 ∨ n = 5 ∨ n = 6 ∨ n = 7) as Hd by lia.
  repeat (destruct Hc as [-> |Hc]); try subst i; repeat (destruct Hd as [-> |Hd]); try subst n;
    destruct (Z.testbit pat _); reflexivity.
Qed.

Lemma target_pat_entry pat i :
  0 ≤ i < 8 →
  pat_entry (target_pat pat) i =
    if bool_decide (i = 0) then 6 else if bool_decide (i = 1) then 1 else if bool_decide (i = 3) then 0 else pat_entry pat i.
Proof.
  intros Hi. unfold pat_entry. apply Z.bits_inj'. intros n Hn. rewrite bits_of_spec by lia.
  destruct (Z.ltb_spec n 8) as [Hlt|Hge]; cbn [andb].
  - rewrite target_pat_bit by lia. repeat case_bool_decide; [done..|by rewrite Z.bits_0|].
    rewrite bits_of_spec, (proj2 (Z.ltb_lt n 8)) by lia. done.
  - symmetry. repeat case_bool_decide; [..|by rewrite Z.bits_0|].
    + apply (Z.bits_above_log2 6); [done|]. change (Z.log2 6) with 2. lia.
    + apply (Z.bits_above_log2 1); [done|]. change (Z.log2 1) with 0. lia.
    + rewrite bits_of_spec, (proj2 (Z.ltb_ge n 8)) by lia. done.
Qed.

(** The page attribute table gives every mapping flag its memory type. *)
Definition types_effective (pat : Z) : Prop :=
  ∀ rights f, get_mapping_flag rights = Some f → pat_entry pat (pat_index (mapping_cache_flags rights)) = memory_type_of f.

Lemma mapping_pat_index rights f :
  get_mapping_flag rights = Some f →
  pat_index (mapping_cache_flags rights) = match f with MAPPING_NORMAL => 0 | MAPPING_BUFFERED => 1 | MAPPING_UNCACHED => 3 end.
Proof. intros Hf. unfold mapping_cache_flags. rewrite Hf. by destruct f. Qed.
Lemma types_effective_target pat : types_effective (target_pat pat).
Proof. intros rights f Hf. rewrite (mapping_pat_index _ _ Hf), target_pat_entry by (destruct f; lia). by destruct f. Qed.

Definition is_read (e : bus_event) : bool := match e with BUS_READ _ => true | _ => false end.

Section memory_types.
Context `{bus_device} {S : Type}.

(** C24: [configure_cpu_memory_types] makes the memory types of mappings true.  When it
    succeeds, the page attribute table (the one in force before, if it was right
    already) maps the cache bits that [mapping_cache_flags] puts in a page-table entry
    for a normal, buffered or uncached mapping to write-back, write-combining and
    uncacheable memory, and the entries it has no business with are unchanged; if it
    wrote the table, caching was disabled and global pages off at that moment, and
    CR0 and CR4 end with the values they had.  When it refuses the processor it has
    written nothing. *)
Theorem memory_types_installed (g : S) log :
  let reads := map (λ n, BUS_READ (CPUID 1 0 n)) [0; 1; 2; 3] in
  let pat := wrap (device_read (log ++ reads) (MSR MSR_PAT)) in
  let reads' := reads ++ [BUS_READ (MSR MSR_PAT)] in
  dwp configure_cpu_memory_types
    (λ r g' log', g' = g ∧ ∃ new, log' = log ++ new ∧
       match r with
       | Err e => e = HE_UNSUPPORTED ∧ forallb is_read new = true
       | Ok _ =>
           let final := default pat (last_write (MSR MSR_PAT) new) in
           types_effective final ∧
           (∀ i, i = 2 ∨ 4 ≤ i < 8 → pat_entry final i = pat_entry pat i) ∧
           (forallb is_read new = true ∨
            ∃ before after cr0 cr4, new = before ++ BUS_WRITE (MSR MSR_PAT) final :: after ∧
              last_write (REGISTER R_CR0) before = Some cr0 ∧ Z.testbit cr0 30 = true ∧ Z.testbit cr0 29 = false ∧
              last_write (REGISTER R_CR4) before = Some cr4 ∧ Z.testbit cr4 7 = false ∧
              last_write (REGISTER R_CR0) new = Some (wrap (device_read (log ++ reads') (REGISTER R_CR0))) ∧
              last_write (REGISTER R_CR4) new =
                Some (wrap (device_read (log ++ reads' ++ [BUS_READ (REGISTER R_CR0)]) (REGISTER R_CR4))))
       end) g log.
Proof.
  intros reads pat reads'. unfold configure_cpu_memory_types, try_get_cpuid, msr_read, msr_write, read_register, write_register, instruction.
  dwp_steps. destruct (Z.land _ _ =? 0); dwp_steps.
  { split; [done|]. rewrite <- !app_assoc. eexists. split; [done|]. split; reflexivity. }
  rewrite <- !app_assoc. change (wrap (device_read (log ++ _) (MSR MSR_PAT))) with pat.
  destruct (Z.eqb_spec pat (target_pat pat)) as [Heq|Hne]; dwp_steps.
  { split; [done|]. rewrite <- ?app_assoc. eexists. split; [done|]. cbn [last_write app default].
    split; [rewrite Heq; apply types_effective_target|]. split; [done|]. by left. }
  destruct (negb _); dwp_steps.
  { split; [done|]. rewrite <- !app_assoc. eexists. split; [done|]. split; reflexivity. }
  split; [done|]. rewrite <- !app_assoc. eexists. split; [done|].
  change (last_write (MSR MSR_PAT) _) with (Some (target_pat pat)).
  change (default pat (Some (target_pat pat))) with (target_pat pat). cbn zeta.
  split; [apply types_effective_target|]. split.
  { intros i Hi. rewrite target_pat_entry by lia. by repeat (rewrite bool_decide_false by lia). }
  right. eexists [_; _; _; _; _; _; _; _; _; _], _, _, _. split; [reflexivity|]. split; [reflexivity|].
  split; [by apply bit_kept; [apply bit_set|]|]. split; [by apply bit_cleared|].
  split; [reflexivity|]. split; [by apply bit_cleared|]. split; reflexivity.
Qed.
End memory_types.

(** A processor with a page attribute table in its reset state, and no PCID. *)
Definition example_processor : bus_device := λ _ a,
  match a with
  | CPUID 1 0 3 => Z.shiftl 1 16
  | MSR 0x277 => 0x0007040600070406
  | REGISTER R_CR0 => 0x80000011
  | REGISTER R_CR4 => 0xa0
  | _ => 0
  end.
Definition example_layout : cpu_layout := {|
  gdt_address := λ core, 0xffff800000010000 + 0x2000 * core;
  idt_address := λ core, 0xffff800000010100 + 0x2000 * core;
  tss_address := λ core, 0xffff800000011100 + 0x2000 * core;
  initial_floating_context_address := 0xffff800000008000;
|}.
Definition example_arch_cpu : arch_cpu_local_variable := MkArchCpu 0 (MkGdt 0 0 0 0 0 0 0 0) (MkTss 0 0).

Lemma core_tables_installed_witness :
  dwp (init_cpu_core (H := example_processor) (H0 := example_layout) (Ok 1))
    (λ r g' log', r = Ok tt ∧ ∃ v' new, log' = [] ++ new ∧
       arch_cpu_local_variables g' = <[1 := v']> {[1 := example_arch_cpu]} ∧ arch_tss v' = MkTss 0 0 ∧
       segments_described (arch_gdt v') 0xffff800000013100 ∧
       last_write (REGISTER R_GDTR) new = Some (descriptor_table_register SIZEOF_GDT 0xffff800000012000) ∧
       last_write (REGISTER R_IDTR) new = Some (descriptor_table_register SIZEOF_IDT 0xffff800000012100) ∧
       last_write (REGISTER R_TR) new = Some KERNEL_TSS ∧ last_write (REGISTER R_CS) new = Some KERNEL_CS ∧
       last_write (REGISTER R_XCR0) new = Some X_CR0_MASK ∧
       (∃ cr0, last_write (REGISTER R_CR0) new = Some cr0 ∧ Z.testbit cr0 29 = false ∧ Z.testbit cr0 30 = false) ∧
       (∃ cr4, last_write (REGISTER R_CR4) new = Some cr4 ∧ Z.testbit cr4 16 = true ∧ Z.testbit cr4 18 = true ∧
               Z.testbit cr4 9 = true)) (MkCpuGlobals {[1 := example_arch_cpu]} 0) [].
Proof.
  exact (core_tables_installed (H := example_processor) (H0 := example_layout) 1 example_arch_cpu
    (MkCpuGlobals {[1 := example_arch_cpu]} 0) [] eq_refl ltac:(by vm_compute)).
Defined.

(** The example's processor takes the long way. *)
Example example_cpu_writes_pat :
  dwp (configure_cpu_memory_types (H := example_processor)) (λ r _ log', r = Ok tt ∧
    last_write (MSR MSR_PAT) log' = Some 0x0007040600070106) tt [].
Proof. by vm_compute. Qed.
