(* ===== verification/VmcsField.v ===== *)
(** The encoding of the fields of a VMCS
    (src/src/hal/x86_64/include/hal/x86_64/virtualization/vmx/vmcs_field.hpp): the
    encoding and the constants. *)

From S2P Require Import Prelude Word.

Inductive vmcs_access_type := FULL | HIGH.
Inductive vmcs_type := CONTROL | VM_EXIT_INFORMATION | GUEST_STATE | HOST_STATE.
Inductive vmcs_width := BIT_16 | BIT_64 | BIT_32 | NATURAL_WIDTH.

#[global] Instance vmcs_access_type_eq_dec : EqDecision vmcs_access_type.
Proof. solve_decision. Defined.
#[global] Instance vmcs_type_eq_dec : EqDecision vmcs_type.
Proof. solve_decision. Defined.
#[global] Instance vmcs_width_eq_dec : EqDecision vmcs_width.
Proof. solve_decision. Defined.

Definition access_type_word (a : vmcs_access_type) : Z := match a with FULL => 0 | HIGH => 1 end.
Definition type_word (t : vmcs_type) : Z :=
  match t with CONTROL => 0 | VM_EXIT_INFORMATION => 1 | GUEST_STATE => 2 | HOST_STATE => 3 end.
Definition width_word (w : vmcs_width) : Z :=
  match w with BIT_16 => 0 | BIT_64 => 1 | BIT_32 => 2 | NATURAL_WIDTH => 3 end.

(** The steps of the constructor, on the word [all]. *)
Definition configure_access_type (access_type : vmcs_access_type) (all : Z) : Z := Z.lor all (access_type_word access_type).
Definition configure_index (index all : Z) : Z := Z.lor all (Z.shiftl (Z.land index (Z.shiftl 1 9 - 1)) 1).
Definition configure_type (type : vmcs_type) (all : Z) : Z := Z.lor all (Z.shiftl (type_word type) 10).
Definition configure_width (width : vmcs_width) (all : Z) : Z := Z.lor all (Z.shiftl (width_word width) 13).
Definition reserved_section : Z := Z.lor (Z.shiftl 1 12) (wrap32 (Z.shiftl (Z.shiftl 1 17 - 1) 15)).
Definition clear_reserved_section (all : Z) : Z := Z.land all (2 ^ 32 - 1 - reserved_section).

Definition vmcs_field (access_type : vmcs_access_type) (index : Z) (type : vmcs_type) (width : vmcs_width) : Z :=
  clear_reserved_section
    (configure_width width (configure_type type (configure_index index (configure_access_type access_type 0)))).

Module vmcs_fields.
Definition VIRTUAL_PROCESSOR_IDENTIFIER : Z := vmcs_field FULL 0 CONTROL BIT_16.
Definition POSTED_INTERRUPT_NOTIFICATION_VECTOR : Z := vmcs_field FULL 1 CONTROL BIT_16.
Definition EPTP_INDEX : Z := vmcs_field FULL 2 CONTROL BIT_16.
Definition HLAT_PREFIX_SIZE : Z := vmcs_field FULL 3 CONTROL BIT_16.
Definition LAST_PID_POINTER_INDEX : Z := vmcs_field FULL 4 CONTROL BIT_16.
Definition GUEST_ES_SELECTOR : Z := vmcs_field FULL 0 GUEST_STATE BIT_16.
Definition GUEST_CS_SELECTOR : Z := vmcs_field FULL 1 GUEST_STATE BIT_16.
Definition GUEST_SS_SELECTOR : Z := vmcs_field FULL 2 GUEST_STATE BIT_16.
Definition GUEST_DS_SELECTOR : Z := vmcs_field FULL 3 GUEST_STATE BIT_16.
Definition GUEST_FS_SELECTOR : Z := vmcs_field FULL 4 GUEST_STATE BIT_16.
Definition GUEST_GS_SELECTOR : Z := vmcs_field FULL 5 GUEST_STATE BIT_16.
Definition GUEST_LDTR_SELECTOR : Z := vmcs_field FULL 6 GUEST_STATE BIT_16.
Definition GUEST_TR_SELECTOR : Z := vmcs_field FULL 7 GUEST_STATE BIT_16.
Definition GUEST_INTERRUPT_STATUS : Z := vmcs_field FULL 8 GUEST_STATE BIT_16.
Definition PML_INDEX : Z := vmcs_field FULL 9 GUEST_STATE BIT_16.
Definition GUEST_UINV : Z := vmcs_field FULL 10 GUEST_STATE BIT_16.
Definition HOST_ES_SELECTOR : Z := vmcs_field FULL 0 HOST_STATE BIT_16.
Definition HOST_CS_SELECTOR : Z := vmcs_field FULL 1 HOST_STATE BIT_16.
Definition HOST_SS_SELECTOR : Z := vmcs_field FULL 2 HOST_STATE BIT_16.
Definition HOST_DS_SELECTOR : Z := vmcs_field FULL 3 HOST_STATE BIT_16.
Definition HOST_FS_SELECTOR : Z := vmcs_field FULL 4 HOST_STATE BIT_16.
Definition HOST_GS_SELECTOR : Z := vmcs_field FULL 5 HOST_STATE BIT_16.
Definition HOST_TR_SELECTOR : Z := vmcs_field FULL 6 HOST_STATE BIT_16.
Definition ADDRESS_OF_IO_BITMAP_A : Z := vmcs_field FULL 0 CONTROL BIT_64.
Definition ADDRESS_OF_IO_BITMAP_B : Z := vmcs_field FULL 1 CONTROL BIT_64.
Definition ADDRESS_OF_MSR_BITMAPS : Z := vmcs_field FULL 2 CONTROL BIT_64.
Definition VM_EXIT_MSR_STORE_ADDRESS : Z := vmcs_field FULL 3 CONTROL BIT_64.
Definition VM_EXIT_MSR_LOAD_ADDRESS : Z := vmcs_field FULL 4 CONTROL BIT_64.
Definition VM_ENTRY_MSR_LOAD_ADDRESS : Z := vmcs_field FULL 5 CONTROL BIT_64.
Definition EXECUTIVE_VMCS_POINTER : Z := vmcs_field FULL 6 CONTROL BIT_64.
Definition PML_ADDRESS : Z := vmcs_field FULL 7 CONTROL BIT_64.
Definition TSC_OFFSET : Z := vmcs_field FULL 8 CONTROL BIT_64.
Definition VIRTUAL_APIC_ADDRESS : Z := vmcs_field FULL 9 CONTROL BIT_64.
Definition APIC_ACCESS_ADDRESS : Z := vmcs_field FULL 10 CONTROL BIT_64.
Definition POSTED_INTERRUPT_DESCRIPTOR_ADDRESS : Z := vmcs_field FULL 11 CONTROL BIT_64.
Definition VM_FUNCTION_CONTROLS : Z := vmcs_field FULL 12 CONTROL BIT_64.
Definition EPT_POINTER : Z := vmcs_field FULL 13 CONTROL BIT_64.
Definition EOI_EXIT_BITMAP_0 : Z := vmcs_field FULL 14 CONTROL BIT_64.
Definition EOI_EXIT_BITMAP_1 : Z := vmcs_field FULL 15 CONTROL BIT_64.
Definition EOI_EXIT_BITMAP_2 : Z := vmcs_field FULL 16 CONTROL BIT_64.
Definition EOI_EXIT_BITMAP_3 : Z := vmcs_field FULL 17 CONTROL BIT_64.
Definition EPTP_LIST_ADDRESS : Z := vmcs_field FULL 18 CONTROL BIT_64.
Definition VMREAD_BITMAP_ADDRESS : Z := vmcs_field FULL 19 CONTROL BIT_64.
Definition VMWRITE_BITMAP_ADDRESS : Z := vmcs_field FULL 20 CONTROL BIT_64.
Definition VIRTUALIZATION_EXCEPTION_INFORMATION_ADDRESS : Z := vmcs_field FULL 21 CONTROL BIT_64.
Definition XSS_EXITING_BITMAP : Z := vmcs_field FULL 22 CONTROL BIT_64.
Definition ENCLS_EXITING_BITMAP : Z := vmcs_field FULL 23 CONTROL BIT_64.
Definition SUB_PAGE_PERMISSION_TABLE_POINTER : Z := vmcs_field FULL 24 CONTROL BIT_64.
Definition TSC_MULTIPLIER : Z := vmcs_field FULL 25 CONTROL BIT_64.
Definition TERTIARY_PROCESSOR_BASED_VM_EXECUTION_CONTROLS : Z := vmcs_field FULL 26 CONTROL BIT_64.
Definition ENCLV_EXITING_BITMAP : Z := vmcs_field FULL 27 CONTROL BIT_64.
Definition LOW_PASID_DIRECTORY_ADDRESS : Z := vmcs_field FULL 28 CONTROL BIT_64.
Definition HIGH_PASID_DIRECTORY_ADDRESS : Z := vmcs_field FULL 29 CONTROL BIT_64.
Definition SHARED_EPT_POINTER : Z := vmcs_field FULL 30 CONTROL BIT_64.
Definition PCONFIG_EXITING_BITMAP : Z := vmcs_field FULL 31 CONTROL BIT_64.
Definition HYPERVISOR_MANAGED_LINEAR_ADDRESS_TRANSLATION_POINTER : Z := vmcs_field FULL 32 CONTROL BIT_64.
Definition PID_POINTER_TABLE_ADDRESS : Z := vmcs_field FULL 33 CONTROL BIT_64.
Definition SECONDARY_VM_EXIT_CONTROLS : Z := vmcs_field FULL 34 CONTROL BIT_64.
Definition IA32_SPEC_CTRL_MASK : Z := vmcs_field FULL 37 CONTROL BIT_64.
Definition IA32_SPEC_CTRL_SHADOW : Z := vmcs_field FULL 38 CONTROL BIT_64.
Definition GUEST_PHYSICAL_ADDRESS : Z := vmcs_field FULL 0 VM_EXIT_INFORMATION BIT_64.
Definition VMCS_LINK_POINTER : Z := vmcs_field FULL 0 GUEST_STATE BIT_64.
Definition VMCS_LINK_POINTER_HIGH : Z := vmcs_field HIGH 0 GUEST_STATE BIT_64.
Definition GUEST_IA32_DEBUGCTL : Z := vmcs_field FULL 1 GUEST_STATE BIT_64.
Definition GUEST_IA32_PAT : Z := vmcs_field FULL 2 GUEST_STATE BIT_64.
Definition GUEST_IA32_EFER : Z := vmcs_field FULL 3 GUEST_STATE BIT_64.
Definition GUEST_IA32_PERF_GLOBAL_CTRL : Z := vmcs_field FULL 4 GUEST_STATE BIT_64.
Definition GUEST_PDPTE0 : Z := vmcs_field FULL 5 GUEST_STATE BIT_64.
Definition GUEST_PDPTE1 : Z := vmcs_field FULL 6 GUEST_STATE BIT_64.
Definition GUEST_PDPTE2 : Z := vmcs_field FULL 7 GUEST_STATE BIT_64.
Definition GUEST_PDPTE3 : Z := vmcs_field FULL 8 GUEST_STATE BIT_64.
Definition GUEST_IA32_BNDCFGS : Z := vmcs_field FULL 9 GUEST_STATE BIT_64.
Definition GUEST_IA32_RTIT_CTL : Z := vmcs_field FULL 10 GUEST_STATE BIT_64.
Definition GUEST_IA32_LBR_CTL : Z := vmcs_field FULL 11 GUEST_STATE BIT_64.
Definition GUEST_IA32_PKRS : Z := vmcs_field FULL 12 GUEST_STATE BIT_64.
Definition HOST_IA32_PAT : Z := vmcs_field FULL 0 HOST_STATE BIT_64.
Definition HOST_IA32_EFER : Z := vmcs_field FULL 1 HOST_STATE BIT_64.
Definition HOST_IA32_PERF_GLOBAL_CTRL : Z := vmcs_field FULL 2 HOST_STATE BIT_64.
Definition HOST_IA32_PKRS : Z := vmcs_field FULL 3 HOST_STATE BIT_64.
Definition PIN_BASED_VM_EXECUTION_CONTROLS : Z := vmcs_field FULL 0 CONTROL BIT_32.
Definition PRIMARY_PROCESSOR_BASED_VM_EXECUTION_CONTROLS : Z := vmcs_field FULL 1 CONTROL BIT_32.
Definition EXCEPTION_BITMAP : Z := vmcs_field FULL 2 CONTROL BIT_32.
Definition PAGE_FAULT_ERROR_CODE_MASK : Z := vmcs_field FULL 3 CONTROL BIT_32.
Definition PAGE_FAULT_ERROR_CODE_MATCH : Z := vmcs_field FULL 4 CONTROL BIT_32.
Definition CR3_TARGET_COUNT : Z := vmcs_field FULL 5 CONTROL BIT_32.
Definition PRIMARY_VM_EXIT_CONTROLS : Z := vmcs_field FULL 6 CONTROL BIT_32.
Definition VM_EXIT_MSR_STORE_COUNT : Z := vmcs_field FULL 7 CONTROL BIT_32.
Definition VM_EXIT_MSR_LOAD_COUNT : Z := vmcs_field FULL 8 CONTROL BIT_32.
Definition VM_ENTRY_CONTROLS : Z := vmcs_field FULL 9 CONTROL BIT_32.
Definition VM_ENTRY_MSR_LOAD_COUNT : Z := vmcs_field FULL 10 CONTROL BIT_32.
Definition VM_ENTRY_INTERRUPTION_INFORMATION_FIELD : Z := vmcs_field FULL 11 CONTROL BIT_32.
Definition VM_ENTRY_EXCEPTION_ERROR_CODE : Z := vmcs_field FULL 12 CONTROL BIT_32.
Definition VM_ENTRY_INSTRUCTION_LENGTH : Z := vmcs_field FULL 13 CONTROL BIT_32.
Definition TPR_THRESHOLD : Z := vmcs_field FULL 14 CONTROL BIT_32.
Definition SECONDARY_PROCESSOR_BASED_VM_EXECUTION_CONTROLS : Z := vmcs_field FULL 15 CONTROL BIT_32.
Definition PLE_GAP : Z := vmcs_field FULL 16 CONTROL BIT_32.
Definition PLE_WINDOW : Z := vmcs_field FULL 17 CONTROL BIT_32.
Definition INSTRUCTION_TIMEOUT_CONTROL : Z := vmcs_field FULL 18 CONTROL BIT_32.
Definition VM_INSTRUCTION_ERROR : Z := vmcs_field FULL 0 VM_EXIT_INFORMATION BIT_32.
Definition EXIT_REASON : Z := vmcs_field FULL 1 VM_EXIT_INFORMATION BIT_32.
Definition VM_EXIT_INTERRUPTION_INFORMATION : Z := vmcs_field FULL 2 VM_EXIT_INFORMATION BIT_32.
Definition VM_EXIT_INTERRUPTION_ERROR_CODE : Z := vmcs_field FULL 3 VM_EXIT_INFORMATION BIT_32.
Definition IDT_VECTORING_INFORMATION_FIELD : Z := vmcs_field FULL 4 VM_EXIT_INFORMATION BIT_32.
Definition IDT_VECTORING_ERROR_CODE : Z := vmcs_field FULL 5 VM_EXIT_INFORMATION BIT_32.
Definition VM_EXIT_INSTRUCTION_LENGTH : Z := vmcs_field FULL 6 VM_EXIT_INFORMATION BIT_32.
Definition VM_EXIT_INSTRUCTION_INFORMATION : Z := vmcs_field FULL 7 VM_EXIT_INFORMATION BIT_32.
Definition GUEST_ES_LIMIT : Z := vmcs_field FULL 0 GUEST_STATE BIT_32.
Definition GUEST_CS_LIMIT : Z := vmcs_field FULL 1 GUEST_STATE BIT_32.
Definition GUEST_SS_LIMIT : Z := vmcs_field FULL 2 GUEST_STATE BIT_32.
Definition GUEST_DS_LIMIT : Z := vmcs_field FULL 3 GUEST_STATE BIT_32.
Definition GUEST_FS_LIMIT : Z := vmcs_field FULL 4 GUEST_STATE BIT_32.
Definition GUEST_GS_LIMIT : Z := vmcs_field FULL 5 GUEST_STATE BIT_32.
Definition GUEST_LDTR_LIMIT : Z := vmcs_field FULL 6 GUEST_STATE BIT_32.
Definition GUEST_TR_LIMIT : Z := vmcs_field FULL 7 GUEST_STATE BIT_32.
Definition GUEST_GDTR_LIMIT : Z := vmcs_field FULL 8 GUEST_STATE BIT_32.
Definition GUEST_IDTR_LIMIT : Z := vmcs_field FULL 9 GUEST_STATE BIT_32.
Definition GUEST_ES_ACCESS_RIGHTS : Z := vmcs_field FULL 10 GUEST_STATE BIT_32.
Definition GUEST_CS_ACCESS_RIGHTS : Z := vmcs_field FULL 11 GUEST_STATE BIT_32.
Definition GUEST_SS_ACCESS_RIGHTS : Z := vmcs_field FULL 12 GUEST_STATE BIT_32.
Definition GUEST_DS_ACCESS_RIGHTS : Z := vmcs_field FULL 13 GUEST_STATE BIT_32.
Definition GUEST_FS_ACCESS_RIGHTS : Z := vmcs_field FULL 14 GUEST_STATE BIT_32.
Definition GUEST_GS_ACCESS_RIGHTS : Z := vmcs_field FULL 15 GUEST_STATE BIT_32.
Definition GUEST_LDTR_ACCESS_RIGHTS : Z := vmcs_field FULL 16 GUEST_STATE BIT_32.
Definition GUEST_TR_ACCESS_RIGHTS : Z := vmcs_field FULL 17 GUEST_STATE BIT_32.
Definition GUEST_INTERRUPTIBILITY_STATE : Z := vmcs_field FULL 18 GUEST_STATE BIT_32.
Definition GUEST_ACTIVITY_STATE : Z := vmcs_field FULL 19 GUEST_STATE BIT_32.
Definition GUEST_SMBASE : Z := vmcs_field FULL 20 GUEST_STATE BIT_32.
Definition GUEST_IA32_SYSENTER_CS : Z := vmcs_field FULL 21 GUEST_STATE BIT_32.
Definition VMX_PREEMPTION_TIMER_VALUE : Z := vmcs_field FULL 23 GUEST_STATE BIT_32.
Definition HOST_IA32_SYSENTER_CS : Z := vmcs_field FULL 0 HOST_STATE BIT_32.
Definition CR0_GUEST_HOST_MASK : Z := vmcs_field FULL 0 CONTROL NATURAL_WIDTH.
Definition CR4_GUEST_HOST_MASK : Z := vmcs_field FULL 1 CONTROL NATURAL_WIDTH.
Definition CR0_READ_SHADOW : Z := vmcs_field FULL 2 CONTROL NATURAL_WIDTH.
Definition CR4_READ_SHADOW : Z := vmcs_field FULL 3 CONTROL NATURAL_WIDTH.
Definition CR3_TARGET_VALUE_0 : Z := vmcs_field FULL 4 CONTROL NATURAL_WIDTH.
Definition CR3_TARGET_VALUE_1 : Z := vmcs_field FULL 5 CONTROL NATURAL_WIDTH.
Definition CR3_TARGET_VALUE_2 : Z := vmcs_field FULL 6 CONTROL NATURAL_WIDTH.
Definition CR3_TARGET_VALUE_3 : Z := vmcs_field FULL 7 CONTROL NATURAL_WIDTH.
Definition EXIT_QUALIFICATION : Z := vmcs_field FULL 0 VM_EXIT_INFORMATION NATURAL_WIDTH.
Definition IO_RCX : Z := vmcs_field FULL 1 VM_EXIT_INFORMATION NATURAL_WIDTH.
Definition IO_RSI : Z := vmcs_field FULL 2 VM_EXIT_INFORMATION NATURAL_WIDTH.
Definition IO_RDI : Z := vmcs_field FULL 3 VM_EXIT_INFORMATION NATURAL_WIDTH.
Definition IO_RIP : Z := vmcs_field FULL 4 VM_EXIT_INFORMATION NATURAL_WIDTH.
Definition GUEST_LINEAR_ADDRESS : Z := vmcs_field FULL 5 VM_EXIT_INFORMATION NATURAL_WIDTH.
Definition GUEST_CR0 : Z := vmcs_field FULL 0 GUEST_STATE NATURAL_WIDTH.
Definition GUEST_CR3 : Z := vmcs_field FULL 1 GUEST_STATE NATURAL_WIDTH.
Definition GUEST_CR4 : Z := vmcs_field FULL 2 GUEST_STATE NATURAL_WIDTH.
Definition GUEST_ES_BASE : Z := vmcs_field FULL 3 GUEST_STATE NATURAL_WIDTH.
Definition GUEST_CS_BASE : Z := vmcs_field FULL 4 GUEST_STATE NATURAL_WIDTH.
Definition GUEST_SS_BASE : Z := vmcs_field FULL 5 GUEST_STATE NATURAL_WIDTH.
Definition GUEST_DS_BASE : Z := vmcs_field FULL 6 GUEST_STATE NATURAL_WIDTH.
Definition GUEST_FS_BASE : Z := vmcs_field FULL 7 GUEST_STATE NATURAL_WIDTH.
Definition GUEST_GS_BASE : Z := vmcs_field FULL 8 GUEST_STATE NATURAL_WIDTH.
Definition GUEST_LDTR_BASE : Z := vmcs_field FULL 9 GUEST_STATE NATURAL_WIDTH.
Definition GUEST_TR_BASE : Z := vmcs_field FULL 10 GUEST_STATE NATURAL_WIDTH.
Definition GUEST_GDTR_BASE : Z := vmcs_field FULL 11 GUEST_STATE NATURAL_WIDTH.
Definition GUEST_IDTR_BASE : Z := vmcs_field FULL 12 GUEST_STATE NATURAL_WIDTH.
Definition GUEST_DR7 : Z := vmcs_field FULL 13 GUEST_STATE NATURAL_WIDTH.
Definition GUEST_RSP : Z := vmcs_field FULL 14 GUEST_STATE NATURAL_WIDTH.
Definition GUEST_RIP : Z := vmcs_field FULL 15 GUEST_STATE NATURAL_WIDTH.
Definition GUEST_RFLAGS : Z := vmcs_field FULL 16 GUEST_STATE NATURAL_WIDTH.
Definition GUEST_PENDING_DEBUG_EXCEPTIONS : Z := vmcs_field FULL 17 GUEST_STATE NATURAL_WIDTH.
Definition GUEST_IA32_SYSENTER_ESP : Z := vmcs_field FULL 18 GUEST_STATE NATURAL_WIDTH.
Definition GUEST_IA32_SYSENTER_EIP : Z := vmcs_field FULL 19 GUEST_STATE NATURAL_WIDTH.
Definition GUEST_IA32_S_CET : Z := vmcs_field FULL 20 GUEST_STATE NATURAL_WIDTH.
Definition GUEST_SSP : Z := vmcs_field FULL 21 GUEST_STATE NATURAL_WIDTH.
Definition GUEST_IA32_INTERRUPT_SSP_TABLE_ADDR : Z := vmcs_field FULL 22 GUEST_STATE NATURAL_WIDTH.
Definition HOST_CR0 : Z := vmcs_field FULL 0 HOST_STATE NATURAL_WIDTH.
Definition HOST_CR3 : Z := vmcs_field FULL 1 HOST_STATE NATURAL_WIDTH.
Definition HOST_CR4 : Z := vmcs_field FULL 2 HOST_STATE NATURAL_WIDTH.
Definition HOST_FS_BASE : Z := vmcs_field FULL 3 HOST_STATE NATURAL_WIDTH.
Definition HOST_GS_BASE : Z := vmcs_field FULL 4 HOST_STATE NATURAL_WIDTH.
Definition HOST_TR_BASE : Z := vmcs_field FULL 5 HOST_STATE NATURAL_WIDTH.
Definition HOST_GDTR_BASE : Z := vmcs_field FULL 6 HOST_STATE NATURAL_WIDTH.
Definition HOST_IDTR_BASE : Z := vmcs_field FULL 7 HOST_STATE NATURAL_WIDTH.
Definition HOST_IA32_SYSENTER_ESP : Z := vmcs_field FULL 8 HOST_STATE NATURAL_WIDTH.
Definition HOST_IA32_SYSENTER_EIP : Z := vmcs_field FULL 9 HOST_STATE NATURAL_WIDTH.
Definition HOST_RSP : Z := vmcs_field FULL 10 HOST_STATE NATURAL_WIDTH.
Definition HOST_RIP : Z := vmcs_field FULL 11 HOST_STATE NATURAL_WIDTH.
Definition HOST_IA32_S_CET : Z := vmcs_field FULL 12 HOST_STATE NATURAL_WIDTH.
Definition HOST_SSP : Z := vmcs_field FULL 13 HOST_STATE NATURAL_WIDTH.
Definition HOST_IA32_INTERRUPT_SSP_TABLE_ADDR : Z := vmcs_field FULL 14 HOST_STATE NATURAL_WIDTH.

(** All of them, in the order of the header. *)
Definition all_fields : list Z :=
  [VIRTUAL_PROCESSOR_IDENTIFIER; POSTED_INTERRUPT_NOTIFICATION_VECTOR; EPTP_INDEX; HLAT_PREFIX_SIZE;
   LAST_PID_POINTER_INDEX; GUEST_ES_SELECTOR; GUEST_CS_SELECTOR; GUEST_SS_SELECTOR; GUEST_DS_SELECTOR;
   GUEST_FS_SELECTOR; GUEST_GS_SELECTOR; GUEST_LDTR_SELECTOR; GUEST_TR_SELECTOR; GUEST_INTERRUPT_STATUS;
   PML_INDEX; GUEST_UINV; HOST_ES_SELECTOR; HOST_CS_SELECTOR; HOST_SS_SELECTOR; HOST_DS_SELECTOR;
   HOST_FS_SELECTOR; HOST_GS_SELECTOR; HOST_TR_SELECTOR; ADDRESS_OF_IO_BITMAP_A; ADDRESS_OF_IO_BITMAP_B;
   ADDRESS_OF_MSR_BITMAPS; VM_EXIT_MSR_STORE_ADDRESS; VM_EXIT_MSR_LOAD_ADDRESS; VM_ENTRY_MSR_LOAD_ADDRESS;
   EXECUTIVE_VMCS_POINTER; PML_ADDRESS; TSC_OFFSET; VIRTUAL_APIC_ADDRESS; APIC_ACCESS_ADDRESS;
   POSTED_INTERRUPT_DESCRIPTOR_ADDRESS; VM_FUNCTION_CONTROLS; EPT_POINTER; EOI_EXIT_BITMAP_0; EOI_EXIT_BITMAP_1;
   EOI_EXIT_BITMAP_2; EOI_EXIT_BITMAP_3; EPTP_LIST_ADDRESS; VMREAD_BITMAP_ADDRESS; VMWRITE_BITMAP_ADDRESS;
   VIRTUALIZATION_EXCEPTION_INFORMATION_ADDRESS; XSS_EXITING_BITMAP; ENCLS_EXITING_BITMAP;
   SUB_PAGE_PERMISSION_TABLE_POINTER; TSC_MULTIPLIER; TERTIARY_PROCESSOR_BASED_VM_EXECUTION_CONTROLS;
   ENCLV_EXITING_BITMAP; LOW_PASID_DIRECTORY_ADDRESS; HIGH_PASID_DIRECTORY_ADDRESS; SHARED_EPT_POINTER;
   PCONFIG_EXITING_BITMAP; HYPERVISOR_MANAGED_LINEAR_ADDRESS_TRANSLATION_POINTER; PID_POINTER_TABLE_ADDRESS;
   SECONDARY_VM_EXIT_CONTROLS; IA32_SPEC_CTRL_MASK; IA32_SPEC_CTRL_SHADOW; GUEST_PHYSICAL_ADDRESS;
   VMCS_LINK_POINTER; VMCS_LINK_POINTER_HIGH; GUEST_IA32_DEBUGCTL; GUEST_IA32_PAT; GUEST_IA32_EFER;
   GUEST_IA32_PERF_GLOBAL_CTRL; GUEST_PDPTE0; GUEST_PDPTE1; GUEST_PDPTE2; GUEST_PDPTE3; GUEST_IA32_BNDCFGS;
   GUEST_IA32_RTIT_CTL; GUEST_IA32_LBR_CTL; GUEST_IA32_PKRS; HOST_IA32_PAT; HOST_IA32_EFER;
   HOST_IA32_PERF_GLOBAL_CTRL; HOST_IA32_PKRS; PIN_BASED_VM_EXECUTION_CONTROLS;
   PRIMARY_PROCESSOR_BASED_VM_EXECUTION_CONTROLS; EXCEPTION_BITMAP; PAGE_FAULT_ERROR_CODE_MASK;
   PAGE_FAULT_ERROR_CODE_MATCH; CR3_TARGET_COUNT; PRIMARY_VM_EXIT_CONTROLS; VM_EXIT_MSR_STORE_COUNT;
   VM_EXIT_MSR_LOAD_COUNT; VM_ENTRY_CONTROLS; VM_ENTRY_MSR_LOAD_COUNT; VM_ENTRY_INTERRUPTION_INFORMATION_FIELD;
   VM_ENTRY_EXCEPTION_ERROR_CODE; VM_ENTRY_INSTRUCTION_LENGTH; TPR_THRESHOLD;
   SECONDARY_PROCESSOR_BASED_VM_EXECUTION_CONTROLS; PLE_GAP; PLE_WINDOW; INSTRUCTION_TIMEOUT_CONTROL;
   VM_INSTRUCTION_ERROR; EXIT_REASON; VM_EXIT_INTERRUPTION_INFORMATION; VM_EXIT_INTERRUPTION_ERROR_CODE;
   IDT_VECTORING_INFORMATION_FIELD; IDT_VECTORING_ERROR_CODE; VM_EXIT_INSTRUCTION_LENGTH;
   VM_EXIT_INSTRUCTION_INFORMATION; GUEST_ES_LIMIT; GUEST_CS_LIMIT; GUEST_SS_LIMIT; GUEST_DS_LIMIT;
   GUEST_FS_LIMIT; GUEST_GS_LIMIT; GUEST_LDTR_LIMIT; GUEST_TR_LIMIT; GUEST_GDTR_LIMIT; GUEST_IDTR_LIMIT;
   GUEST_ES_ACCESS_RIGHTS; GUEST_CS_ACCESS_RIGHTS; GUEST_SS_ACCESS_RIGHTS; GUEST_DS_ACCESS_RIGHTS;
   GUEST_FS_ACCESS_RIGHTS; GUEST_GS_ACCESS_RIGHTS; GUEST_LDTR_ACCESS_RIGHTS; GUEST_TR_ACCESS_RIGHTS;
   GUEST_INTERRUPTIBILITY_STATE; GUEST_ACTIVITY_STATE; GUEST_SMBASE; GUEST_IA32_SYSENTER_CS;
   VMX_PREEMPTION_TIMER_VALUE; HOST_IA32_SYSENTER_CS; CR0_GUEST_HOST_MASK; CR4_GUEST_HOST_MASK; CR0_READ_SHADOW;
   CR4_READ_SHADOW; CR3_TARGET_VALUE_0; CR3_TARGET_VALUE_1; CR3_TARGET_VALUE_2; CR3_TARGET_VALUE_3;
   EXIT_QUALIFICATION; IO_RCX; IO_RSI; IO_RDI; IO_RIP; GUEST_LINEAR_ADDRESS; GUEST_CR0; GUEST_CR3; GUEST_CR4;
   GUEST_ES_BASE; GUEST_CS_BASE; GUEST_SS_BASE; GUEST_DS_BASE; GUEST_FS_BASE; GUEST_GS_BASE; GUEST_LDTR_BASE;
   GUEST_TR_BASE; GUEST_GDTR_BASE; GUEST_IDTR_BASE; GUEST_DR7; GUEST_RSP; GUEST_RIP; GUEST_RFLAGS;
   GUEST_PENDING_DEBUG_EXCEPTIONS; GUEST_IA32_SYSENTER_ESP; GUEST_IA32_SYSENTER_EIP; GUEST_IA32_S_CET; GUEST_SSP;
   GUEST_IA32_INTERRUPT_SSP_TABLE_ADDR; HOST_CR0; HOST_CR3; HOST_CR4; HOST_FS_BASE; HOST_GS_BASE; HOST_TR_BASE;
   HOST_GDTR_BASE; HOST_IDTR_BASE; HOST_IA32_SYSENTER_ESP; HOST_IA32_SYSENTER_EIP; HOST_RSP; HOST_RIP;
   HOST_IA32_S_CET; HOST_SSP; HOST_IA32_INTERRUPT_SSP_TABLE_ADDR].
End vmcs_fields.
