(* ===== verification/Vmx.v ===== *)
(** Intel VT-x: src/src/hal/x86_64/virtualization/vmx/vmx.cpp and vmcs.cpp with
    include/hal/x86_64/virtualization/vmx/vmx_result.hpp, vmx_msr.hpp, vmx.hpp,
    vmcs.hpp and vmcs_region.hpp.

    A VMX instruction is a write of its operand followed by a read of the flags it
    leaves; [vmread] and [vmwrite] access a field of the current VMCS.  Log output is
    left out. *)

From S2P Require Import Prelude Word Types Kernel Hal MemoryTypes Bus Cpu VmcsField.
Import vmcs_fields.

(** ** vmx_result.hpp *)

Inductive vmx_error := VM_FAIL_VALID | VM_FAIL_INVALID.
Abbreviation vmx_result := (result unit vmx_error).
Definition RFLAGS_CARRY : Z := Z.shiftl 1 0.
Definition RFLAGS_ZERO : Z := Z.shiftl 1 6.
Definition check_vmx_result (rflags : Z) : vmx_result :=
  if negb (Z.land rflags RFLAGS_CARRY =? 0) then Err VM_FAIL_INVALID
  else if negb (Z.land rflags RFLAGS_ZERO =? 0) then Err VM_FAIL_VALID
  else Ok tt.

(** ** vmcs.hpp: the control words *)

Inductive pin_based_control :=
| EXTERNAL_INTERRUPT | NMI_EXITING | VIRTUAL_NMI | ACTIVATE_VMX_PREEMPTION_TIMER | PROCESS_POSTED_INTERRUPTS.
Definition pin_bit (c : pin_based_control) : Z :=
  match c with
  | EXTERNAL_INTERRUPT => 0 | NMI_EXITING => 3 | VIRTUAL_NMI => 5
  | ACTIVATE_VMX_PREEMPTION_TIMER => 6 | PROCESS_POSTED_INTERRUPTS => 7
  end.
Definition pin_controls : list pin_based_control :=
  [EXTERNAL_INTERRUPT; NMI_EXITING; VIRTUAL_NMI; ACTIVATE_VMX_PREEMPTION_TIMER; PROCESS_POSTED_INTERRUPTS].

Inductive processor_based_control :=
| INTERRUPT_WINDOW_EXITING | USE_TSC_OFFSETTING | HLT_EXITING | INVD_EXITING | MWAIT_EXITING | RDPMC_EXITING
| RDTSC_EXITING | CR3_LOAD_EXITING | CR3_STORE_EXITING | CR8_LOAD_EXITING | CR8_STORE_EXITING | USE_TPR_SHADOW
| NMI_WINDOW_EXITING | MOV_DR_EXITING | UNCONDITIONAL_IO_EXITING | USE_IO_BITMAPS | MONITOR_TRAP_FLAG
| USE_MSR_BITMAPS | MONITOR_EXITING | PAUSE_EXITING | ACTIVATE_SECONDARY_CONTROLS.
Definition processor_bit (c : processor_based_control) : Z :=
  match c with
  | INTERRUPT_WINDOW_EXITING => 2 | USE_TSC_OFFSETTING => 3 | HLT_EXITING => 7 | INVD_EXITING => 9
  | MWAIT_EXITING => 10 | RDPMC_EXITING => 11 | RDTSC_EXITING => 12 | CR3_LOAD_EXITING => 15
  | CR3_STORE_EXITING => 16 | CR8_LOAD_EXITING => 19 | CR8_STORE_EXITING => 20 | USE_TPR_SHADOW => 21
  | NMI_WINDOW_EXITING => 22 | MOV_DR_EXITING => 23 | UNCONDITIONAL_IO_EXITING => 24 | USE_IO_BITMAPS => 25
  | MONITOR_TRAP_FLAG => 27 | USE_MSR_BITMAPS => 28 | MONITOR_EXITING => 29 | PAUSE_EXITING => 30
  | ACTIVATE_SECONDARY_CONTROLS => 31
  end.
Definition processor_controls : list processor_based_control :=
  [INTERRUPT_WINDOW_EXITING; USE_TSC_OFFSETTING; HLT_EXITING; INVD_EXITING; MWAIT_EXITING; RDPMC_EXITING;
   RDTSC_EXITING; CR3_LOAD_EXITING; CR3_STORE_EXITING; CR8_LOAD_EXITING; CR8_STORE_EXITING; USE_TPR_SHADOW;
   NMI_WINDOW_EXITING; MOV_DR_EXITING; UNCONDITIONAL_IO_EXITING; USE_IO_BITMAPS; MONITOR_TRAP_FLAG;
   USE_MSR_BITMAPS; MONITOR_EXITING; PAUSE_EXITING; ACTIVATE_SECONDARY_CONTROLS].

(** [all |= (value ? 1 : 0) << bit], the body of every setter, and the getters. *)
Definition configure_control (bit : Z) (value : bool) (all : Z) : Z := Z.lor all (Z.shiftl (Z.b2z value) bit).
Definition control (bit all : Z) : bool := negb (Z.land (Z.shiftr all bit) 1 =? 0).

(** The constructors: [value] holds the arguments. *)
Definition pin_based_vm_execution_contol (value : pin_based_control → bool) : Z :=
  fold_left (λ all c, configure_control (pin_bit c) (value c) all) pin_controls 0.
Definition processor_based_vm_execution_control (value : processor_based_control → bool) : Z :=
  fold_left (λ all c, configure_control (processor_bit c) (value c) all) processor_controls 0.

(** ** vmx_msr.hpp, msr.hpp *)

Definition VMX_BASIC : Z := 0x480.
Definition VMX_CR0_FIXED_0 : Z := 0x486.
Definition VMX_CR0_FIXED_1 : Z := 0x487.
Definition VMX_CR4_FIXED_0 : Z := 0x488.
Definition VMX_CR4_FIXED_1 : Z := 0x489.
Definition FEATURE_CONTROL : Z := 0x3a.
Definition LOCK_BIT : Z := Z.shiftl 1 0.
Definition ENABLE_VMX_OUTSIDE_SMX : Z := Z.shiftl 1 2.
Definition CPUID_VMX : Z := Z.shiftl 1 5.

(** "GenuineIntel" with its terminator. *)
Definition INTEL : list Z := [71; 101; 110; 117; 105; 110; 101; 73; 110; 116; 101; 108; 0].

(** ** The regions: the first words of [vmxon_region_core] and [vmcs_region_core] *)

Record vmx_globals := MkVmxGlobals {
  vmxon_revision_id : Z;
  vmcs_region_field : Z;
}.
#[global] Instance eta_vmx_globals : Eta vmx_globals := λ x, MkVmxGlobals (vmxon_revision_id x) (vmcs_region_field x).
Class vmx_layout := {
  vmxon_region_core : Z;
  vmcs_region_core : Z;
}.
Definition configure_revision_id (identifier field : Z) : Z := Z.lor field (Z.land identifier (Z.shiftl 1 31 - 1)).
Definition configure_shadow_indicator (state : bool) (field : Z) : Z := Z.lor field (Z.shiftl (Z.b2z state) 31).

Abbreviation vmx_driver := (D vmx_globals).

Section vmx.
Context `{bus_device} `{vmx_layout}.

(** ** vmcs.hpp: the instructions *)

Definition vmx_flags : vmx_driver vmx_result := rflags ← read_register R_RFLAGS; mret (check_vmx_result rflags).

Definition vm_read (field : Z) : vmx_driver (result Z vmx_error) :=
  value ← bus_read (VMCS field);
  r ← vmx_flags;
  mret (match r with Ok _ => Ok (wrap value) | Err e => Err e end).
Definition vm_write (field value : Z) : vmx_driver vmx_result :=
  bus_write (VMCS field) value;;
  vmx_flags.
Definition vm_clear (region : Z) : vmx_driver vmx_result :=
  instruction VMCLEAR (virtual_to_physical_address region);;
  vmx_flags.
Definition vm_pointer_load (region : Z) : vmx_driver vmx_result :=
  instruction VMPTRLD (virtual_to_physical_address region);;
  vmx_flags.
Definition launch_vm : vmx_driver vmx_result :=
  instruction VMLAUNCH 0;;
  vmx_flags.

Definition try_get_vmcs_revision_id : vmx_driver (result Z hal_error) :=
  v ← msr_read VMX_BASIC;
  let revision_id := wrap32 v in
  mret (if revision_id =? 0 then Err HE_UNEXPECTED else Ok revision_id).

(** ** vmx.cpp *)

Definition enable_vmx_outside_smx : vmx_driver hal_result :=
  value ← msr_read FEATURE_CONTROL;
  if value =? 0 then bus_fail HE_UNSUPPORTED
  else msr_write FEATURE_CONTROL (Z.lor value ENABLE_VMX_OUTSIDE_SMX);; bus_ok.

Definition check_feature_control : vmx_driver hal_result :=
  value ← msr_read FEATURE_CONTROL;
  if Z.land value ENABLE_VMX_OUTSIDE_SMX =? 0 then
    if Z.land value LOCK_BIT =? 0 then bus_fail HE_UNSUPPORTED else enable_vmx_outside_smx
  else bus_ok.

Definition check_support_vmx : vmx_driver hal_result :=
  id ← try_get_vendor_id;
  if negb (bool_decide (id = INTEL)) then bus_fail HE_UNSUPPORTED
  else
    info ← try_get_processor_info_and_feature;
    if Z.land (cpuid_rcx info) CPUID_VMX =? 0 then bus_fail HE_UNSUPPORTED
    else check_feature_control.

Record vmx_control_registers := MkControlRegisters {
  cr0_fixed_0 : Z; cr0_fixed_1 : Z; cr4_fixed_0 : Z; cr4_fixed_1 : Z }.
Definition get_vmx_control_registers : vmx_driver vmx_control_registers :=
  a ← msr_read VMX_CR0_FIXED_0;
  b ← msr_read VMX_CR0_FIXED_1;
  c ← msr_read VMX_CR4_FIXED_0;
  d ← msr_read VMX_CR4_FIXED_1;
  mret (MkControlRegisters (wrap32 a) (wrap32 b) (wrap32 c) (wrap32 d)).
Definition configure_vmx_control_registers (crs : vmx_control_registers) : vmx_driver hal_result :=
  cr0 ← read_register R_CR0;
  let target_cr0 := wrap32 (Z.land (Z.lor cr0 (cr0_fixed_0 crs)) (cr0_fixed_1 crs)) in
  cr4 ← read_register R_CR4;
  let target_cr4 := wrap32 (Z.land (Z.lor cr4 (cr4_fixed_0 crs)) (cr4_fixed_1 crs)) in
  if (target_cr0 =? 0) || (target_cr4 =? 0) then bus_fail HE_UNEXPECTED
  else
    write_register R_CR0 target_cr0;;
    write_register R_CR4 target_cr4;;
    bus_ok.
Definition enable_vmx_control_registers : vmx_driver hal_result :=
  crs ← get_vmx_control_registers;
  configure_vmx_control_registers crs.

Definition configure_vmxon_region : vmx_driver hal_result :=
  let! revision_id := try_get_vmcs_revision_id in
  set_objects (λ g, g <| vmxon_revision_id := revision_id |>);;
  bus_ok.

Definition vmxon (region_address : Z) : vmx_driver vmx_result :=
  if negb (region_address mod PAGE_SIZE =? 0) then mret (Err VM_FAIL_VALID)
  else
    instruction VMXON (virtual_to_physical_address region_address);;
    vmx_flags.

Definition enable_vmx : vmx_driver hal_result :=
  let! _ := check_support_vmx in
  let! _ := enable_vmx_control_registers in
  let! _ := configure_vmxon_region in
  r ← vmxon vmxon_region_core;
  match r with Ok _ => bus_ok | Err _ => bus_fail HE_UNEXPECTED end.

(** ** vmcs.cpp

    [concrete_vm_write(field, value)] evaluates its value where it is written, whatever
    came of the writes before. *)
Definition then_write (r : vmx_result) (field value : Z) : vmx_driver vmx_result :=
  match r with Ok _ => vm_write field value | Err e => mret (Err e) end.

Fixpoint then_writes (r : vmx_result) (l : list (Z * Z)) : vmx_driver vmx_result :=
  match l with
  | [] => mret r
  | (field, value) :: l' => r' ← then_write r field value; then_writes r' l'
  end.

Definition configure_common_registers : vmx_driver vmx_result :=
  pat ← msr_read MSR_PAT;
  r ← vm_write HOST_IA32_PAT pat;
  efer ← msr_read 0xC0000080;
  then_write r HOST_IA32_EFER efer.
Definition configure_control_registers : vmx_driver vmx_result :=
  cr0 ← read_register R_CR0;
  r ← vm_write HOST_CR0 cr0;
  cr3 ← read_register R_CR3;
  r ← then_write r HOST_CR3 cr3;
  cr4 ← read_register R_CR4;
  then_write r HOST_CR4 cr4.

(** [core]: the core that runs. *)
Definition configure_segment_registers `{cpu_layout} (core : Z) : vmx_driver vmx_result :=
  r ← vm_write HOST_CS_SELECTOR KERNEL_CS;
  then_writes r
    [(HOST_DS_SELECTOR, KERNEL_DS); (HOST_ES_SELECTOR, KERNEL_DS); (HOST_SS_SELECTOR, KERNEL_DS);
     (HOST_FS_SELECTOR, 0); (HOST_GS_SELECTOR, 0); (HOST_TR_SELECTOR, KERNEL_TSS);
     (HOST_GDTR_BASE, gdt_address core); (HOST_IDTR_BASE, idt_address core); (HOST_TR_BASE, tss_address core)].
Definition configure_sysenter_registers : vmx_driver vmx_result :=
  r ← vm_write HOST_IA32_SYSENTER_CS KERNEL_CS;
  then_writes r [(HOST_IA32_SYSENTER_EIP, 0); (HOST_IA32_SYSENTER_ESP, 0)].
Definition configure_host_state_registers : vmx_driver vmx_result :=
  r ← vm_write HOST_RIP 0;
  then_write r HOST_RSP 0.
Definition configure_host_state `{cpu_layout} (core : Z) : vmx_driver vmx_result :=
  let! _ := configure_common_registers in
  let! _ := configure_control_registers in
  let! _ := configure_segment_registers core in
  let! _ := configure_host_state_registers in
  configure_sysenter_registers.
Definition configure_guest_state : vmx_driver vmx_result :=
  r ← vm_write VMCS_LINK_POINTER (2 ^ 64 - 1);
  then_write r VMCS_LINK_POINTER_HIGH (2 ^ 64 - 1).

Definition init_vmcs `{cpu_layout} (core revision_id : Z) : vmx_driver vmx_result :=
  set_objects (λ g, g <| vmcs_region_field ::= configure_revision_id revision_id |>);;
  let! _ := vm_clear vmcs_region_core in
  let! _ := vm_pointer_load vmcs_region_core in
  let! _ := configure_host_state core in
  let! _ := configure_guest_state in
  vm_write GUEST_IA32_DEBUGCTL KERNEL_DS.

Definition update_vmcs_host_state_per_cpu `{cpu_layout} (core : result Z hal_error) : vmx_driver vmx_result :=
  match core with
  | Err _ => mret (Err VM_FAIL_INVALID)
  | Ok core =>
      cr3 ← read_register R_CR3;
      r ← vm_write HOST_CR3 cr3;
      gs ← read_register R_GS_BASE;
      r ← then_write r HOST_GS_BASE gs;
      fs ← read_register R_FS_BASE;
      r ← then_write r HOST_FS_BASE fs;
      then_writes r
        [(HOST_GDTR_BASE, gdt_address core); (HOST_IDTR_BASE, idt_address core); (HOST_TR_BASE, tss_address core)]
  end.

(** [launch_vm().or_else(log_vm_instruction_error)]: the error is read and, if it can be
    read, the first one is answered. *)
Definition launch_or_log : vmx_driver vmx_result :=
  r ← launch_vm;
  match r with
  | Ok _ => mret (Ok tt)
  | Err error =>
      e ← vm_read VM_INSTRUCTION_ERROR;
      mret (match e with Ok _ => Err error | Err error' => Err error' end)
  end.
Definition run_test_vm `{cpu_layout} (core : Z) : vmx_driver hal_result :=
  revision ← try_get_vmcs_revision_id;
  r ← (match revision with
       | Err _ => mret (Err VM_FAIL_INVALID)
       | Ok revision_id =>
           let! _ := init_vmcs core revision_id in
           let! _ := launch_or_log in
           launch_or_log
       end);
  match r with Ok _ => bus_ok | Err _ => bus_fail HE_UNEXPECTED end.

End vmx.

(** * Properties

    Intel VT-x: the encodings of the VMCS fields are those of distinct fields, the
    control words read back what they were built from, and which processors
    [check_feature_control] accepts. *)

From S2P Require Import Memory Cpu.
Import vmcs_fields.

(** ** Fields *)

(** A field as the processor decodes it (Intel SDM vol. 3C, table 25-21). *)
Record field_view := MkField {
  field_access : vmcs_access_type; field_index : Z; field_type : vmcs_type; field_width : vmcs_width }.
#[global] Instance field_view_eq_dec : EqDecision field_view.
Proof. solve_decision. Defined.

Definition decode_access (w : Z) : vmcs_access_type := if w =? 0 then FULL else HIGH.
Definition decode_type (w : Z) : vmcs_type :=
  match w with 0 => CONTROL | 1 => VM_EXIT_INFORMATION | 2 => GUEST_STATE | _ => HOST_STATE end.
Definition decode_width (w : Z) : vmcs_width :=
  match w with 0 => BIT_16 | 1 => BIT_64 | 2 => BIT_32 | _ => NATURAL_WIDTH end.
Definition decode_field (f : Z) : field_view :=
  MkField (decode_access (bits_of f 0 1)) (bits_of f 1 9) (decode_type (bits_of f 10 2)) (decode_width (bits_of f 13 2)).
Definition reserved_clear (f : Z) : bool := negb (Z.testbit f 12) && (f <? 2 ^ 15) && (0 <=? f).

(** One test of every encoding there is. *)
Definition encodes (a : vmcs_access_type) (t : vmcs_type) (w : vmcs_width) (i : Z) : bool :=
  bool_decide (decode_field (vmcs_field a i t w) = MkField a i t w) && reserved_clear (vmcs_field a i t w).
Lemma forallb_in {A} (f : A → bool) l x : forallb f l = true → x ∈ l → f x = true.
Proof. rewrite forallb_forall. intros Hf Hx. by apply Hf, list_elem_of_In. Qed.

Lemma every_field_encodes a t w : forallb (encodes a t w) (seqZ 0 512) = true.
Proof. destruct a, t, w; vm_compute; reflexivity. Qed.
Lemma field_encodes a i t w : 0 ≤ i < 512 → encodes a t w i = true.
Proof.
  intros Hi. apply (forallb_in (encodes a t w) (seqZ 0 512)); [apply every_field_encodes|]. apply elem_of_seqZ. lia.
Qed.

(** C35: The encoding of VMCS fields.  The processor decodes a field's word to the access
    type, index (of nine bits), type and width it was built from, and its reserved bits
    are clear; the 182 constants of the header are pairwise different fields. *)
Theorem vmcs_fields_decode a i t w :
  0 ≤ i < 512 →
  decode_field (vmcs_field a i t w) = MkField a i t w ∧ reserved_clear (vmcs_field a i t w) = true ∧
  NoDup all_fields ∧ length all_fields = 182%nat.
Proof.
  intros Hi. pose proof (field_encodes a i t w Hi) as He. unfold encodes in He. apply andb_prop in He as [Hd Hr].
  split; [by apply bool_decide_eq_true in Hd|]. split; [done|].
  split; [|reflexivity]. apply (bool_decide_eq_true_1 _). by vm_compute.
Qed.

Lemma vmcs_fields_decode_witness :
  decode_field HOST_RIP = MkField FULL 11 HOST_STATE NATURAL_WIDTH ∧ reserved_clear HOST_RIP = true ∧
  NoDup all_fields ∧ length all_fields = 182%nat.
Proof. exact (vmcs_fields_decode FULL 11 HOST_STATE NATURAL_WIDTH ltac:(lia)). Defined.

(** ** Control words *)

Lemma control_testbit bit all : 0 ≤ bit → control bit all = Z.testbit all bit.
Proof.
  intros Hb. unfold control. change 1 with (Z.ones 1). fold (bits_of all bit 1).
  assert (Ht : Z.testbit (bits_of all bit 1) 0 = Z.testbit all bit) by (rewrite bits_of_spec by lia; done).
  assert (Hr : 0 ≤ bits_of all bit 1 < 2) by (unfold bits_of; rewrite Z.land_ones by lia; by apply Z.mod_pos_bound).
  assert (Hc : bits_of all bit 1 = 0 ∨ bits_of all bit 1 = 1) by lia. rewrite <- Ht. by destruct Hc as [-> | ->].
Qed.
Lemma configured_testbit bit value all n :
  0 ≤ bit → 0 ≤ n → Z.testbit (configure_control bit value all) n = Z.testbit all n || (value && bool_decide (n = bit)).
Proof.
  intros Hb Hn. unfold configure_control. rewrite Z.lor_spec. f_equal. destruct value; cbn [Z.b2z andb].
  - rewrite Z.shiftl_1_l, Z.pow2_bits_eqb by done. destruct (Z.eqb_spec bit n), (bool_decide_reflect (n = bit)); congruence.
  - by rewrite Z.shiftl_0_l, Z.bits_0.
Qed.

Section control_words.
Context {C : Type} (bit : C → Z) (value : C → bool) (Hbit : ∀ c, 0 ≤ bit c) (Hinj : ∀ c d, bit c = bit d → c = d).

Lemma built_testbit l all n :
  0 ≤ n →
  Z.testbit (fold_left (λ all c, configure_control (bit c) (value c) all) l all) n =
    Z.testbit all n || existsb (λ c, value c && bool_decide (n = bit c)) l.
Proof.
  intros Hn. revert all. induction l as [|c l IH]; intros all; cbn [fold_left existsb]; [by rewrite orb_false_r|].
  rewrite IH, configured_testbit by done. by rewrite orb_assoc.
Qed.

Lemma built_control l c :
  c ∈ l → control (bit c) (fold_left (λ all c, configure_control (bit c) (value c) all) l 0) = value c.
Proof.
  intros Hc. rewrite control_testbit, built_testbit, Z.bits_0 by done. cbn [orb].
  destruct (existsb _ l) eqn:He.
  - apply existsb_exists in He as (d & _ & Hd). apply andb_prop in Hd as [Hv Hb].
    apply bool_decide_eq_true, Hinj in Hb as <-. done.
  - destruct (value c) eqn:Hv; [|done]. rewrite <- not_true_iff_false in He. exfalso. apply He.
    apply existsb_exists. exists c. split; [by apply list_elem_of_In|]. rewrite Hv. by rewrite bool_decide_true.
Qed.
End control_words.

(** The control words of a virtual machine.  Every control of a pin-based and of a
    processor-based control word reads back as the argument the word was built with.
    Setting a control with [configure_*] sets that control and no other; but
    [configure_*] with [false] does nothing: a control that is on cannot be turned
    off. *)
Theorem vm_controls_read_back pin processor (p : pin_based_control) (c : processor_based_control) bit all n :
  0 ≤ bit → 0 ≤ n →
  control (pin_bit p) (pin_based_vm_execution_contol pin) = pin p ∧
  control (processor_bit c) (processor_based_vm_execution_control processor) = processor c ∧
  control n (configure_control bit true all) = control n all || bool_decide (n = bit) ∧
  configure_control bit false all = all.
Proof.
  intros Hb Hn. split_and!.
  - apply (built_control pin_bit pin); [by intros []|by intros [] []|].
    destruct p; apply list_elem_of_In; cbn; tauto.
  - apply (built_control processor_bit processor); [by intros []|by intros [] []|].
    destruct c; apply list_elem_of_In; cbn; tauto.
  - rewrite !control_testbit by done. by rewrite configured_testbit.
  - unfold configure_control. cbn [Z.b2z]. by rewrite Z.shiftl_0_l, Z.lor_0_r.
Qed.

Lemma vm_controls_read_back_witness :
  control 7 (processor_based_vm_execution_control (λ c, match c with HLT_EXITING => true | _ => false end)) = true ∧
  control 7 (configure_control 7 false 0x80) = true.
Proof.
  destruct (vm_controls_read_back (λ _, false) (λ c, match c with HLT_EXITING => true | _ => false end)
    NMI_EXITING HLT_EXITING 7 0x80 7 ltac:(lia) ltac:(lia)) as (_ & Hc & _ & He).
  split; [exact Hc|rewrite He; reflexivity].
Defined.

(** ** The feature control register *)

Lemma bit_tested x n : 0 ≤ n → (Z.land x (Z.shiftl 1 n) =? 0) = negb (Z.testbit x n).
Proof.
  intros Hn. rewrite Z.shiftl_1_l. destruct (Z.testbit x n) eqn:Hx; cbn [negb].
  - apply Z.eqb_neq. intros H0. apply (f_equal (λ y, Z.testbit y n)) in H0.
    rewrite Z.land_spec, Z.pow2_bits_true, Hx, Z.bits_0 in H0 by done. done.
  - apply Z.eqb_eq, Z.bits_inj'. intros i Hi. rewrite Z.land_spec, Z.pow2_bits_eqb, Z.bits_0 by done.
    destruct (Z.eqb_spec n i) as [->|]; [by rewrite Hx|]. apply andb_false_r.
Qed.

Section vmx.
Context `{bus_device}.

(** Which feature-control registers [check_support_vmx] accepts.  With VMX enabled
    outside SMX it succeeds without a write.  Otherwise the lock bit is tested the
    wrong way round: an unlocked register, which software may write to enable VMX, is
    refused as locked; a locked one, which refuses writes with a general-protection
    fault, is written. *)
Theorem vmx_lock_inverted (g : vmx_globals) log :
  let value := wrap (device_read log (MSR FEATURE_CONTROL)) in
  let again := wrap (device_read (log ++ [BUS_READ (MSR FEATURE_CONTROL)]) (MSR FEATURE_CONTROL)) in
  dwp check_feature_control
    (λ r g' log', g' = g ∧ ∃ new, log' = log ++ BUS_READ (MSR FEATURE_CONTROL) :: new ∧
       if Z.testbit value 2 then r = Ok tt ∧ new = []
       else if negb (Z.testbit value 0) then r = Err HE_UNSUPPORTED ∧ new = []
       else if again =? 0 then r = Err HE_UNSUPPORTED ∧ new = [BUS_READ (MSR FEATURE_CONTROL)]
       else r = Ok tt ∧ new = [BUS_READ (MSR FEATURE_CONTROL); BUS_WRITE (MSR FEATURE_CONTROL) (Z.lor again 4)]) g log.
Proof.
  intros value again. unfold check_feature_control, enable_vmx_outside_smx, msr_read, msr_write. dwp_steps. fold value.
  unfold ENABLE_VMX_OUTSIDE_SMX, LOCK_BIT. rewrite !bit_tested by lia.
  destruct (Z.testbit value 2); cbn [negb]; dwp_steps; [split; [done|]; by eexists|].
  destruct (Z.testbit value 0); cbn [negb]; dwp_steps; [|split; [done|]; by eexists].
  fold again. destruct (again =? 0); dwp_steps; split; try done; rewrite <- ?app_assoc; by eexists.
Qed.
End vmx.
