(* ===== verification/Serial.v ===== *)
(** The serial ports: src/src/hal/x86_64/io/serial.cpp (16550),
    src/src/hal/aarch64/platform/qemu/io/serial.cpp and
    src/src/hal/aarch64/platform/rpi4b/io/serial.cpp (PL011). *)

From S2P Require Import Prelude Word Types MemoryTypes Bus.

(** The registers a driver polls and transfers through, and what its status says. *)
Class serial_port := {
  status_register : bus_access;
  data_register : bus_access;
  transmit_ready : Z → bool;
  receive_ready : Z → bool;
}.

(** ** 16550 *)

Definition COM_1 : Z := 0x3f8.
Definition COM_RBR : Z := 0.
Definition COM_DLL : Z := 0.
Definition COM_DLH : Z := 1.
Definition COM_IER : Z := 1.
Definition COM_FCR : Z := 2.
Definition COM_LCR : Z := 3.
Definition COM_MCR : Z := 4.
Definition COM_LSR : Z := 5.
Definition com_port : serial_port := {|
  status_register := PORT (COM_1 + COM_LSR) 8;
  data_register := PORT (COM_1 + COM_RBR) 8;
  transmit_ready := λ s, negb (Z.land s 0x20 =? 0);
  receive_ready := λ s, negb (Z.land s 0x01 =? 0);
|}.

(** ** PL011 *)

Definition UART_DATA : Z := 0x000.
Definition UART_FLAG : Z := 0x018.
Definition UART_INTEGER_BAUD : Z := 0x024.
Definition UART_FRACTION_BAUD : Z := 0x028.
Definition UART_LINE_CONTROL : Z := 0x02c.
Definition UART_CONTROL : Z := 0x030.
Definition UART_INTERRUPT_MASK : Z := 0x038.
Definition UART_INTERRUPT_CLEAR : Z := 0x044.
Definition uart_register (base offset : Z) : bus_access := MMIO (physical_to_virtual_address (base + offset)).
Definition pl011_port (base : Z) : serial_port := {|
  status_register := uart_register base UART_FLAG;
  data_register := uart_register base UART_DATA;
  transmit_ready := λ s, Z.land s (Z.shiftl 1 5) =? 0;
  receive_ready := λ s, Z.land s (Z.shiftl 1 4) =? 0;
|}.

Definition QEMU_UART_BASE : Z := 0x09000000.
Definition QEMU_UART_CLOCK : Z := 24000000.
Definition RPI4B_UART_BASE : Z := 0xfe201000.
Definition RPI4B_GPIO_BASE : Z := 0xfe200000.
Definition RPI4B_UART_CLOCK : Z := 48000000.

(** The divisors, for [16 * baud_rate] not 0: [clock / (16 * baud_rate)] and its fraction in 64ths, rounded. *)
Definition integer_divisor (clock baud_rate : Z) : Z := clock / wmul 16 baud_rate.
Definition qemu_fractional_divisor (clock baud_rate : Z) : Z :=
  Z.land (wadd (wmul (clock mod wmul 16 baud_rate) 64) (wmul 8 baud_rate) / wmul 16 baud_rate) 0x3f.
Definition rpi4b_fractional_divisor (clock baud_rate : Z) : Z :=
  wadd (wmul (clock mod wmul 16 baud_rate) 64) (wmul 16 baud_rate / 2) / wmul 16 baud_rate.

Section serial.
Context `{bus_device} {S : Type}.

(** Reads [status] until [ready]: [fuel] reads at most. *)
Fixpoint poll (fuel : nat) (status : bus_access) (ready : Z → bool) : D S unit :=
  match fuel with
  | O => still_running
  | Datatypes.S fuel' =>
      s ← bus_read status;
      if ready (wrap32 s) then mret tt else poll fuel' status ready
  end.

Definition read_serial `{serial_port} (fuel : nat) : D S Z :=
  poll fuel status_register receive_ready;;
  v ← bus_read data_register;
  mret (Z.land v 0xff).
Definition write_serial `{serial_port} (fuel : nat) (data : Z) : D S unit :=
  poll fuel status_register transmit_ready;;
  bus_write data_register (wrap8 data).

(** The bytes at the pointer, the terminator included; reading past it is
    undefined. *)
Fixpoint write_chars `{serial_port} (fuel : nat) (out : list Z) : D S unit :=
  match out with
  | [] => certainly None
  | c :: out' => if c =? 0 then mret tt else write_serial fuel c;; write_chars fuel out'
  end.
Definition write_string_serial `{serial_port} (fuel : nat) (out : option (list Z)) : D S unit :=
  match out with None => mret tt | Some out => write_chars fuel out end.

(** ** Initialisation *)

Definition serial_port_write (offset value : Z) : D S unit := bus_write (PORT (COM_1 + offset) 8) value.
Definition serial_port_wait : D S unit := bus_write (PORT 0x80 8) 0.
(** A division by zero is undefined. *)
Definition not_zero (x : Z) : D S unit := certainly (if x =? 0 then None else Some tt).
Definition default_baud (baud_rate : Z) : Z := if baud_rate =? 0 then 115200 else baud_rate.

Definition reconfigure_serial : D S unit :=
  serial_port_write COM_MCR 0x0b;;
  serial_port_write COM_FCR 0x07;;
  serial_port_write COM_IER 0x01.

Definition com_init_serial (baud_rate : Z) : D S unit :=
  let baud_rate := default_baud baud_rate in
  serial_port_write COM_FCR 0xc7;; serial_port_wait;;
  serial_port_write COM_IER 0x00;; serial_port_wait;;
  serial_port_write COM_LCR (Z.shiftl 1 7);; serial_port_wait;;
  let divisor := wrap16 (115200 / baud_rate) in
  serial_port_write COM_DLL (Z.land divisor 0xff);; serial_port_wait;;
  serial_port_write COM_DLH (Z.shiftr divisor 8);; serial_port_wait;;
  serial_port_write COM_LCR 0x03;; serial_port_wait.

Definition qemu_init_serial (fuel : nat) (baud_rate : Z) : D S unit :=
  let baud_rate := default_baud baud_rate in
  let uart := uart_register QEMU_UART_BASE in
  bus_write (uart UART_CONTROL) 0;;
  poll fuel (uart UART_FLAG) (λ s, Z.land s (Z.shiftl 1 3) =? 0);;
  not_zero (wmul 16 baud_rate);;
  bus_write (uart UART_INTEGER_BAUD) (wrap32 (integer_divisor QEMU_UART_CLOCK baud_rate));;
  bus_write (uart UART_FRACTION_BAUD) (wrap32 (qemu_fractional_divisor QEMU_UART_CLOCK baud_rate));;
  bus_write (uart UART_LINE_CONTROL) (Z.lor (Z.shiftl 3 5) (Z.shiftl 1 4));;
  bus_write (uart UART_INTERRUPT_MASK) 0;;
  bus_write (uart UART_INTERRUPT_CLEAR) 0x7ff;;
  bus_write (uart UART_CONTROL) (Z.lor (Z.lor (Z.shiftl 1 0) (Z.shiftl 1 8)) (Z.shiftl 1 9)).

Definition gpio_register (offset : Z) : bus_access := MMIO (physical_to_virtual_address (RPI4B_GPIO_BASE + offset)).
Definition FUNCTION_SELECT_1 : Z := 0x004.
Definition PULL_UP_DOWN_0 : Z := 0x0e4.
Definition clear_bits_32 (x mask : Z) : Z := Z.land x (2 ^ 32 - 1 - mask).
Definition configure_uart_pins : D S unit :=
  f ← bus_read (gpio_register FUNCTION_SELECT_1);
  let function_select := clear_bits_32 (wrap32 f) (Z.lor (Z.shiftl 7 12) (Z.shiftl 7 15)) in
  bus_write (gpio_register FUNCTION_SELECT_1) (Z.lor function_select (Z.lor (Z.shiftl 4 12) (Z.shiftl 4 15)));;
  p ← bus_read (gpio_register PULL_UP_DOWN_0);
  bus_write (gpio_register PULL_UP_DOWN_0) (clear_bits_32 (wrap32 p) (wrap32 (Z.lor (Z.shiftl 3 28) (Z.shiftl 3 30)))).

Definition rpi4b_init_serial (baud_rate : Z) : D S unit :=
  let baud_rate := default_baud baud_rate in
  let uart := uart_register RPI4B_UART_BASE in
  configure_uart_pins;;
  bus_write (uart UART_CONTROL) 0;;
  bus_write (uart UART_INTERRUPT_MASK) 0;;
  bus_write (uart UART_INTERRUPT_CLEAR) 0x7ff;;
  not_zero (wmul 16 baud_rate);;
  bus_write (uart UART_INTEGER_BAUD) (wrap32 (integer_divisor RPI4B_UART_CLOCK baud_rate));;
  bus_write (uart UART_FRACTION_BAUD) (wrap32 (rpi4b_fractional_divisor RPI4B_UART_CLOCK baud_rate));;
  bus_write (uart UART_LINE_CONTROL) (Z.lor (Z.shiftl 3 5) (Z.shiftl 1 4));;
  bus_write (uart UART_CONTROL) (Z.lor (Z.lor (Z.shiftl 1 9) (Z.shiftl 1 8)) 1).

End serial.

(** * Properties

    The serial ports: a string is sent byte by byte, in order; the baud-rate divisors
    of the PL011. *)

Section serial.
Context `{bus_device} `{serial_port} {S : Type}.

(** The device has room for a byte within [fuel] looks at its status, whenever it is
    asked. *)
Definition transmits (fuel : nat) : Prop :=
  ∀ log, ∃ n, (n < fuel)%nat ∧
    transmit_ready (wrap32 (device_read (log ++ replicate n (BUS_READ status_register)) status_register)) = true.

Lemma poll_spec status ready n : ∀ fuel (g : S) log (Q : unit → S → list bus_event → Prop),
  (n < fuel)%nat → ready (wrap32 (device_read (log ++ replicate n (BUS_READ status)) status)) = true →
  (∀ m, Q tt g (log ++ replicate m (BUS_READ status))) → dwp (poll fuel status ready) Q g log.
Proof.
  induction n as [|n IH]; intros [|fuel] g log Q Hn Hr HQ; try lia; cbn [poll]; dwp_step; dwp_step.
  - rewrite app_nil_r in Hr. rewrite Hr. dwp_steps. apply (HQ 1%nat).
  - destruct (ready (wrap32 (device_read log status))) eqn:He; dwp_steps; [apply (HQ 1%nat)|].
    apply IH; [lia|by rewrite <- app_assoc|]. intros m. rewrite <- app_assoc. apply (HQ (Datatypes.S m)).
Qed.

Definition is_write (e : bus_event) : bool := match e with BUS_WRITE _ _ => true | _ => false end.
Definition writes (l : list bus_event) : list bus_event := List.filter is_write l.

Lemma writes_reads m a : writes (replicate m (BUS_READ a)) = [].
Proof. induction m as [|m IH]; [done|]. exact IH. Qed.
Lemma writes_app l1 l2 : writes (l1 ++ l2) = writes l1 ++ writes l2.
Proof. apply List.filter_app. Qed.

Lemma write_chars_spec fuel chars : ∀ (g : S) log,
  transmits fuel → Forall (λ c, 0 < c < 256) chars →
  dwp (write_chars fuel (chars ++ [0]))
    (λ _ g' log', g' = g ∧ ∃ new, log' = log ++ new ∧ writes new = map (BUS_WRITE data_register) chars) g log.
Proof.
  intros g log Ht Hc. revert log. induction Hc as [|c chars Hc _ IH]; intros log; cbn [app write_chars].
  { apply dwp_ret. split; [done|]. exists []. by rewrite app_nil_r. }
  rewrite (proj2 (Z.eqb_neq c 0)) by lia. dwp_step. unfold write_serial. dwp_step.
  destruct (Ht log) as (n & Hn & Hr). apply (poll_spec _ _ n); [done..|]. intros m. dwp_step.
  eapply dwp_mono; [|apply IH]. intros _ g' log' (-> & new & -> & Hw). split; [done|].
  eexists. rewrite <- !app_assoc. split; [done|]. rewrite !writes_app, writes_reads, Hw. cbn.
  unfold wrap8. by rewrite Z.mod_small by lia.
Qed.

(** A string written to a serial port is sent, whole and in order.  On a port that
    has room for a byte within [fuel] looks, [write_string_serial] ends, and the only
    writes it made are those of the bytes of the string before its terminator, each
    once and in order, to the data register; a null pointer sends nothing. *)
Theorem serial_sends_string fuel chars (g : S) log :
  transmits fuel → Forall (λ c, 0 < c < 256) chars →
  dwp (write_string_serial fuel (Some (chars ++ [0])))
    (λ _ g' log', g' = g ∧ ∃ new, log' = log ++ new ∧ writes new = map (BUS_WRITE data_register) chars) g log ∧
  dwp (write_string_serial fuel None) (λ _ g' log', g' = g ∧ log' = log) g log.
Proof. intros Ht Hc. split; [by apply write_chars_spec|by apply dwp_ret]. Qed.
End serial.

(** A 16550 that needs two looks for every byte. *)
Definition slow_com : bus_device := λ log a,
  match last log with Some (BUS_READ _) => 0x60 | _ => 0x00 end.

Lemma slow_com_transmits : transmits (H := slow_com) (H0 := com_port) 3.
Proof.
  intros log. exists 1%nat. split; [lia|]. unfold device_read, slow_com. cbn [replicate]. by rewrite last_snoc.
Qed.

Lemma serial_sends_string_witness :
  dwp (write_string_serial (H := slow_com) (H0 := com_port) 3 (Some ([65; 57; 78] ++ [0])))
    (λ _ g' log', g' = tt ∧ ∃ new, log' = [] ++ new ∧
       writes new = [BUS_WRITE (PORT 0x3f8 8) 65; BUS_WRITE (PORT 0x3f8 8) 57; BUS_WRITE (PORT 0x3f8 8) 78]) tt [].
Proof.
  exact (proj1 (serial_sends_string (H := slow_com) (H0 := com_port) 3 [65; 57; 78] tt [] slow_com_transmits
    ltac:(repeat constructor; lia))).
Defined.

(** ** Baud rates *)

Lemma fraction_exact clock baud :
  0 < baud < 2 ^ 32 → 0 < clock < 2 ^ 32 →
  let f := (clock mod (16 * baud) * 64 + 8 * baud) / (16 * baud) in
  qemu_fractional_divisor clock baud = Z.land f 0x3f ∧ rpi4b_fractional_divisor clock baud = f ∧
  integer_divisor clock baud = clock / (16 * baud) ∧ 0 ≤ f ≤ 64.
Proof.
  intros Hb Hc f. pose proof (Z.mod_pos_bound clock (16 * baud) ltac:(lia)) as Hm.
  unfold qemu_fractional_divisor, rpi4b_fractional_divisor, integer_divisor.
  rewrite (wmul_id 16 baud), (wmul_id 8 baud), (wmul_id (clock mod (16 * baud)) 64) by lia.
  replace (16 * baud / 2) with (8 * baud) by (apply Z.div_unique with 0; lia).
  rewrite wadd_id by lia. split; [done|]. split; [done|]. split; [done|].
  split; [apply Z.div_pos; lia|]. unfold f. apply Z.lt_succ_r, Z.div_lt_upper_bound; lia.
Qed.

(** The divisors programmed into a PL011.  Integer part and 64ths together are the
    clock divided by sixteen times the baud rate, rounded to the nearest 64th, on the
    Raspberry Pi as long as the fraction is below 64 and on QEMU's board likewise.
    When the fraction rounds up to a whole, neither carries it: QEMU's driver drops it,
    so that the divisor is short by almost one, and the Raspberry Pi's writes 64 to a
    register of six bits. *)
Theorem pl011_divisor_rounds clock baud :
  0 < baud < 2 ^ 32 → 0 < clock < 2 ^ 32 →
  let whole := integer_divisor clock baud in
  let fraction := rpi4b_fractional_divisor clock baud in
  Z.abs (2 * ((64 * whole + fraction) * (16 * baud) - 64 * clock)) ≤ 16 * baud ∧
  0 ≤ fraction ≤ 64 ∧ qemu_fractional_divisor clock baud = if fraction =? 64 then 0 else fraction.
Proof.
  intros Hb Hc whole fraction. destruct (fraction_exact clock baud Hb Hc) as (Hq & Hr & Hi & Hf).
  unfold whole, fraction. rewrite Hq, Hr, Hi. set (f := _ / _) in *. split_and!; [|lia|lia|].
  - pose proof (Z.div_mod clock (16 * baud) ltac:(lia)) as Hd.
    pose proof (Z.mod_pos_bound (clock mod (16 * baud) * 64 + 8 * baud) (16 * baud) ltac:(lia)).
    pose proof (Z.div_mod (clock mod (16 * baud) * 64 + 8 * baud) (16 * baud) ltac:(lia)) as He. fold f in He. nia.
  - change 0x3f with (Z.ones 6). rewrite Z.land_ones by lia. destruct (Z.eqb_spec f 64) as [->|]; [done|].
    apply Z.mod_small. lia.
Qed.

(** At 115 432 baud QEMU's divisor is 12 instead of 13. *)
Lemma pl011_divisor_rounds_witness :
  let whole := integer_divisor QEMU_UART_CLOCK 115432 in
  let fraction := rpi4b_fractional_divisor QEMU_UART_CLOCK 115432 in
  (Z.abs (2 * ((64 * whole + fraction) * (16 * 115432) - 64 * QEMU_UART_CLOCK)) ≤ 16 * 115432 ∧
   0 ≤ fraction ≤ 64 ∧ qemu_fractional_divisor QEMU_UART_CLOCK 115432 = if fraction =? 64 then 0 else fraction) ∧
  whole = 12 ∧ fraction = 64.
Proof.
  split; [|by vm_compute].
  exact (pl011_divisor_rounds QEMU_UART_CLOCK 115432 ltac:(lia) ltac:(unfold QEMU_UART_CLOCK; lia)).
Defined.
