(* ===== verification/Startup.v ===== *)
(** The order of initialisation: src/src/kernel/main.cpp, the IDLE processes of
    src/src/kernel/process/process_manager.cpp, and the two architectures,
    src/src/hal/x86_64/arch/arch_initializer.cpp and
    src/src/hal/aarch64/arch/arch_initializer.cpp.

    Every part that is initialised has its own objects and its own file.  A machine
    is the product of these objects; [zoom] runs a part on its component.  Output
    of the log is left out. *)

From S2P Require Import Prelude Word Types Dll Kernel Slot Hal ProcessManager Queues MemoryTypes Memory Generic.
From S2P Require Import Pcb AddressSpace Devices Reclamation KernelCall Boot CString MemoryMap DeviceTree CpuTopology.
From S2P Require Import Bus Acpi Platform Apic Interrupt Gic Cpu VmcsField Vmx Serial.

(** ** Parts of a machine *)

(** Run [m] on the component [f] of the state. *)
Definition zoom {S T A} (f : S → T) `{!Upd f} (m : D T A) : D S A := λ s log,
  match m (f s) log with
  | Done a t log' => Done a (s <| f := t |>) log'
  | Stuck => Stuck
  | Running => Running
  end.

(** Run an operation of the kernel. *)
Definition in_kernel {A} (m : M A) : D kernel A := λ k log,
  match m k with
  | Ret a k' => Done a k' log
  | Undefined => Stuck
  | OutOfFuel => Running
  end.

(** [or_else]. *)
Definition bus_or_else {S A E} (m : D S (result A E)) (f : E → D S (result A E)) : D S (result A E) :=
  r ← m; match r with Ok a => mret (Ok a) | Err e => f e end.

(** ** The addresses of globals *)

Class startup_layout := {
  (** process_manager.cpp: [idle_context] and [idle_address_space_storage] *)
  idle_context : Z;
  idle_address_space_storage : Z;
  (** [a9n::hal::idle] *)
  idle_entry : Z;
  (** [cpu_local_variables[i]] and the top of [kernel_stacks[i]] *)
  cpu_local_variable_address : Z → Z;
  kernel_stack_top : Z → Z;
  (** [_syscall_handler], [interrupt_handlers], [exception vectors] *)
  syscall_handler : Z;
  interrupt_handlers_address : Z;
  exception_vectors : Z;
  (** the start-up code of the other processors *)
  ap_trampoline : trampoline;
  (** [__init_constructors_start] and [__init_constructors_end] *)
  init_constructors_start : Z;
  init_constructors_end : Z;
}.

(** ** process_manager.cpp *)

Section idle.
Context `{config} `{startup_layout}.

Definition idle_root : slot_ref := process_slot_ref idle_context ROOT_ADDRESS_SPACE.

Definition init_idle_context : M kernel_result :=
  let '(context, r) := init_hardware_context CM_KERNEL in
  modify processes idle_context (λ p, p <| registers := context |>);;
  let? _ := map_error convert_hal_to_kernel_error
              (let? _ := mret r in configure_floating_context idle_context) in
  let? _ :=
    let? table := map_error convert_hal_to_kernel_error
                    (make_address_space (virtual_to_physical_address idle_address_space_storage)) in
    try_configure_address_space_slot idle_root table in
  map_error convert_hal_to_kernel_error
    (configure_general_register idle_context RT_INSTRUCTION_POINTER idle_entry).

Definition configure_idle (target core_number : Z) : M kernel_result :=
  source ← load processes idle_context;
  modify processes target
    (λ p, p <| registers := registers source |> <| floating_registers := floating_registers source |>
            <| quantum := QUANTUM_MAX |> <| priority := 0 |> <| core_affinity := core_number |>
            <| status := PS_IDLE |>);;
  root ← load slots idle_root;
  try_configure_address_space_slot (process_slot_ref target ROOT_ADDRESS_SPACE)
    (convert_slot_data_to_page_table (data root)).

(** [cpu_local_variables[c].process_manager_core.init(core_number)]: the manager has a
    [highest_priority] of its own, besides that of its scheduler, which nothing reads. *)
Definition process_manager_init (c core_number : Z) : M kernel_result :=
  local ← load cpu_local_variables c;
  configure_idle (idle_process (process_manager_core local)) core_number.

(** ** cpu.hpp *)

(** [for (i = 0; i < CPU_COUNT_MAX; i++)]; the stacks are addresses of the layout. *)
Fixpoint init_cpu_local_variable_from (turns : nat) (i : Z) : M unit :=
  match turns with
  | O => mret tt
  | S turns' =>
      modify cpu_local_variables i (λ v, v <| core_number := i |>);;
      init_cpu_local_variable_from turns' (i + 1)
  end.
Definition init_cpu_local_variable : M unit := init_cpu_local_variable_from (Z.to_nat CPU_COUNT_MAX) 0.

End idle.

(** ** The x86-64 machine

    The kernel's state, the objects of the HAL, of the processor set-up and of VMX, the
    interrupt descriptor tables, the handlers of the kernel, [SUPPORT_2MiB_PAGE] and
    [SUPPORT_1GiB_PAGE], and the allocator and init page of the boot. *)

Record machine := MkMachine {
  machine_kernel : kernel;
  machine_hal : hal_globals;
  machine_cpu : cpu_globals;
  machine_vmx : vmx_globals;
  machine_idts : gmap Z (list interrupt_descriptor);
  machine_handlers : interrupt_handlers;
  support_2mib_page : bool;
  support_1gib_page : bool;
  machine_boot : boot_state;
}.
#[global] Instance eta_machine : Eta machine := λ x,
  MkMachine (machine_kernel x) (machine_hal x) (machine_cpu x) (machine_vmx x) (machine_idts x)
    (machine_handlers x) (support_2mib_page x) (support_1gib_page x) (machine_boot x).

Abbreviation boot_driver := (D machine).
Definition kernel_step {A} (m : M A) : boot_driver A := zoom machine_kernel (in_kernel m).
Definition hal_step {A} (m : driver A) : boot_driver A := zoom machine_hal m.

(** [x_save_mask] is one global for the processor set-up and the context switch. *)
Definition cpu_step {A} (m : cpu_driver A) : boot_driver A :=
  a ← zoom machine_cpu m;
  mask ← objects (λ s, cpu_x_save_mask (machine_cpu s));
  kernel_step (updates (λ k, k <| x_save_mask := mask |>));;
  mret a.

(** The failure that is taken for a machine without the feature. *)
Definition unsupported_is_ok (m : boot_driver hal_result) : boot_driver hal_result :=
  bus_or_else m (λ e, match e with HE_UNSUPPORTED => bus_ok | _ => bus_fail e end).

Section x86_64.
Context `{config} `{startup_layout} `{bus_device} `{cpu_layout} `{vmx_layout}.
(** The looks at the PM timer a wait may take, and the global constructors. *)
Context (fuel : nat) (constructors : list (boot_driver unit)).

(** The count is computed from the same symbol twice. *)
Definition constructor_count : Z := wsub init_constructors_end init_constructors_end / 8.
Fixpoint call_constructors (turns i : nat) : boot_driver unit :=
  match turns with
  | O => mret tt
  | S turns' =>
      constructor ← certainly (constructors !! i);
      constructor;;
      call_constructors turns' (S i)
  end.
Definition init_global_constructors : boot_driver unit := call_constructors (Z.to_nat constructor_count) 0.

(** [configure_local_variable(&cpu_local_variables[c])]: the registers it writes are
    those the kernel reads its variables through. *)
Definition install_local_variable (c : Z) : boot_driver hal_result :=
  local ← kernel_step (load cpu_local_variables c);
  let! _ := cpu_step (configure_local_variable
                        (Some (cpu_local_variable_address c, core_number local, kernel_stack_top c))) in
  kernel_step (modify_core (λ v, v <| fs_gs_base_enabled := true |> <| gs_base := Some c |>));;
  bus_ok.

(** [init_cpu_core]: the features come first, and enable the instructions
    [current_local_variable] uses. *)
Definition init_this_cpu_core : boot_driver hal_result :=
  kernel_step (modify_core (λ v, v <| fs_gs_base_enabled := true |>));;
  current ← kernel_step current_core_number;
  cpu_step (init_cpu_core current).

(** [arch_cpu_local_variables[core].local_apic_id = local_apic_core.id()]. *)
Definition record_apic_id (core : Z) : boot_driver hal_result :=
  let! id := hal_step local_apic_id in
  ids ← objects (λ s, core_apic_ids (machine_hal s));
  certainly (ids !! Z.to_nat core);;
  hal_step (set_objects (λ g, g <| core_apic_ids ::= <[Z.to_nat core := id]> |>));;
  bus_ok.

(** [acpi_core.init(...)], then [current_madt()]. *)
Definition init_acpi (rsdp_address : Z) : boot_driver (result Z hal_error) :=
  if rsdp_address =? 0 then bus_fail HE_NO_SUCH_ADDRESS
  else
    g ← objects machine_hal;
    acpi ← certainly (acpi_init (hal_memory g) (physical_to_virtual_address rsdp_address) (acpi_core g));
    hal_step (set_objects (λ g, g <| acpi_core := acpi |>));;
    mret (current_madt acpi).

(** [init_idt_handler()] fills the table of the core that runs. *)
Definition install_idt : boot_driver hal_result :=
  idts ← objects machine_idts;
  let! idts' := kernel_step (init_idt_handler interrupt_handlers_address idts) in
  set_objects (λ s, s <| machine_idts := idts' |>);;
  bus_ok.

(** Bits 29 and 26 of EDX. *)
Definition check_huge_pages : boot_driver hal_result :=
  info ← try_get_cpuid EXTENDED_PROCESSOR_INFO_AND_FEATURE_BITS 0;
  set_objects (λ s, s <| support_2mib_page := negb (Z.land (cpuid_rdx info) (Z.shiftl 1 29) =? 0) |>
                      <| support_1gib_page := negb (Z.land (cpuid_rdx info) (Z.shiftl 1 26) =? 0) |>);;
  bus_ok.

Definition init_vmx : boot_driver hal_result := unsupported_is_ok (zoom machine_vmx enable_vmx).

(** The last steps, from the serial port on. *)
Definition finish_main_core : boot_driver hal_result :=
  reconfigure_serial;;
  try_get_vendor_id;;
  try_get_cpu_name;;
  let! _ := check_huge_pages in
  init_vmx.

(** The steps that report failure and those that do not; an [or_else] that logs and
    passes the error on is left out. *)
Definition init_main_core (rsdp_address : Z) : boot_driver hal_result :=
  install_local_variable BSP_ID;;
  let! _ := configure_cpu_memory_types in
  let! _ := init_this_cpu_core in
  let! _ := hal_step local_apic_init in
  let! _ := record_apic_id BSP_ID in
  hal_step init_pic;;
  let! madt_base := init_acpi rsdp_address in
  let! _ := hal_step (io_apic_init madt_base) in
  hal_step configure_imcr_to_apic;;
  acpi ← objects (λ s, acpi_core (machine_hal s));
  let! fadt_base := mret (current_fadt acpi) in
  let! _ := hal_step (pm_timer_init fadt_base) in
  let! _ := hal_step (local_apic_timer_init fuel) in
  let! _ := hal_step (init_syscall syscall_handler) in
  let! _ := install_idt in
  finish_main_core.

Definition init_sub_core : boot_driver hal_result :=
  let! _ := configure_cpu_memory_types in
  let! _ := init_this_cpu_core in
  let! _ := hal_step local_apic_init in
  let! local_variable := kernel_step current_local_variable in
  local ← kernel_step (load cpu_local_variables local_variable);
  let! _ := record_apic_id (core_number local) in
  let! _ := install_idt in
  let! _ := hal_step (init_syscall syscall_handler) in
  init_vmx.

(** The identity map of the boot is entry 0 of the kernel's top table. *)
Definition unmap_lower_memory_mapping : boot_driver hal_result :=
  if kernel_pml4 =? 0 then bus_fail HE_NO_SUCH_ADDRESS
  else
    kernel_step (modify memory_words kernel_pml4 (λ _, 0);;
                 c ← reads current_core; emit (EV_INVALIDATE_TLB c (Some 0)));;
    bus_ok.

Definition init_architecture (arch_info : list Z) : boot_driver hal_result :=
  init_global_constructors;;
  rsdp_address ← certainly (arch_info !! 0%nat);
  let! _ := init_main_core rsdp_address in
  let! _ := (if SMP_ENABLED then unsupported_is_ok (hal_step (init_sub_cores fuel ap_trampoline)) else bus_ok) in
  unmap_lower_memory_mapping.

(** ** main.cpp *)

(** An operation of Boot.v, on its allocator and page. *)
Definition boot_step {A} (m : B A) : boot_driver A :=
  b ← objects machine_boot;
  ab ← kernel_step (m b);
  set_objects (λ s, s <| machine_boot := snd ab |>);;
  mret (fst ab).

(** How [kernel_entry] ends: it returns a number, stays in an endless loop, or has left
    to the init process with the answer of [switch_to_user]. *)
Inductive boot_exit :=
| BOOT_RETURNED (value : Z)
| BOOT_HANGS
| BOOT_LEFT (r : kernel_result).

Definition SYSTEM_CLOCK_FREQUENCY : Z := 250.

Context (pool : Z) (KERNEL_VERSION A9N_ARCHITECTURE_NAME A9N_PLATFORM_NAME : list Z).
(** [start_other_cores()]: what the cores do at the same time is SmpBoot.v. *)
Context (start_other_cores : boot_driver hal_result).

Definition init_interrupt_system : boot_driver unit :=
  h ← objects machine_handlers;
  rh ← kernel_step (interrupt_manager_init h);
  set_objects (λ s, s <| machine_handlers := snd rh |>);;
  hal_step x86_64_ack_interrupt;;
  mret tt.

(** The result is stored and not looked at. *)
Definition init_process_management : boot_driver unit :=
  kernel_step (let? _ := init_idle_context in process_manager_init BSP_ID BSP_ID);;
  mret tt.

Definition launch_init (boot : boot_info) : boot_driver boot_exit :=
  init_res ← boot_step (create_init pool KERNEL_VERSION A9N_ARCHITECTURE_NAME A9N_PLATFORM_NAME boot);
  if negb (is_ok init_res) then mret BOOT_HANGS
  else
    started ← start_other_cores;
    if negb (is_ok started) then mret (BOOT_RETURNED 0)
    else
      r ← kernel_step (switch_to_user BSP_ID);
      mret (BOOT_LEFT r).

Definition kernel_entry (boot : boot_info) : boot_driver boot_exit :=
  com_init_serial 115200;;
  kernel_step init_cpu_local_variable;;
  arch_res ← init_architecture (arch_info boot);
  if negb (is_ok arch_res) then mret (BOOT_RETURNED 0)
  else
    init_interrupt_system;;
    clock_result ← hal_step (configure_system_clock_frequency SYSTEM_CLOCK_FREQUENCY);
    if negb (is_ok clock_result) then mret (BOOT_RETURNED 0)
    else
      init_process_management;;
      launch_init boot.

End x86_64.

(** ** The AArch64 machine

    The kernel's state, the objects of the interrupt controller and timer, the memory the
    device tree is in, and what is known of the processors. *)

Record arm_machine := MkArmMachine {
  arm_kernel : kernel;
  arm_gic : gic_globals;
  arm_memory : byte_memory;
  arm_topology : topology_state;
}.
#[global] Instance eta_arm_machine : Eta arm_machine := λ x,
  MkArmMachine (arm_kernel x) (arm_gic x) (arm_memory x) (arm_topology x).

Abbreviation arm_driver := (D arm_machine).
Definition arm_kernel_step {A} (m : M A) : arm_driver A := zoom arm_kernel (in_kernel m).
Definition gic_step {A} (m : gic_driver A) : arm_driver A := zoom arm_gic m.

Section aarch64.
Context `{config} `{startup_layout} `{bus_device} `{gic_platform}.
Context (constructors : list (arm_driver unit)).
(** How the platform starts a processor, with the conduit of the device tree, and the
    address it starts at. *)
Context (start_cpu : psci_conduit → cpu_description → Z → gic_driver hal_result) (secondary_entry : Z).

(** [for (current = begin; current < end; ++current)]: [turns] pointers are left. *)
Fixpoint aarch64_call_constructors (turns i : nat) : arm_driver unit :=
  match turns with
  | O => mret tt
  | S turns' =>
      constructor ← certainly (constructors !! i);
      constructor;;
      aarch64_call_constructors turns' (S i)
  end.
Definition aarch64_init_global_constructors : arm_driver unit :=
  aarch64_call_constructors (Z.to_nat ((init_constructors_end - init_constructors_start) / 8)) 0.

(** [configure_local_variable(&cpu_local_variables[c])]: TPIDR_EL1. *)
Definition aarch64_configure_local_variable (target : option Z) : arm_driver hal_result :=
  match target with
  | None => bus_fail HE_ILLEGAL_ARGUMENT
  | Some c =>
      if kernel_stack_top c =? 0 then bus_fail HE_INIT_FIRST
      else
        arm_kernel_step (modify_core (λ v, v <| gs_base := Some c |>));;
        bus_ok
  end.

(** [mpidr_el1] of the boot processor is an argument. *)
Definition discover_processors (mpidr_el1 dtb_address : Z) : arm_driver hal_result :=
  m ← objects arm_memory;
  rt ← certainly (discover_cpu_topology m mpidr_el1 dtb_address);
  set_objects (λ s, s <| arm_topology := snd rt |>);;
  mret (fst rt).

Definition start_processors : arm_driver hal_result :=
  t ← objects arm_topology;
  gic_step (start_secondary_cores (start_cpu (discovered_psci_conduit t)) secondary_entry (cpu_descriptions t)).

(** [msr ttbr0_el1] and the broadcast invalidation behind it. *)
Definition drop_identity_map : arm_driver unit :=
  arm_kernel_step (modify_core (λ v, v <| cr3 := 0 |>);;
                   c ← reads current_core; emit (EV_INVALIDATE_TLB c None)).

Definition aarch64_init_architecture (mpidr_el1 : Z) (arch_info : list Z) : arm_driver hal_result :=
  aarch64_init_global_constructors;;
  let! _ := aarch64_configure_local_variable (Some BSP_ID) in
  let! _ := gic_step (aarch64_init_current_core exception_vectors) in
  dtb_address ← certainly (arch_info !! 0%nat);
  let! _ := (if SMP_ENABLED then discover_processors mpidr_el1 dtb_address else bus_ok) in
  let! _ := gic_step init_interrupt_controller in
  let! _ := gic_step init_system_timer in
  let! _ := (if SMP_ENABLED then start_processors else bus_ok) in
  drop_identity_map;;
  bus_ok.

End aarch64.
