(* ===== verification/StartupProofs.v ===== *)
(** The end of the initialisation: [kernel_entry] leaves to the init process. *)

From S2P Require Import Prelude Word Types Dll Kernel Slot SlotProofs Hal Scheduler SchedulerProofs ProcessManager.
From S2P Require Import ProcessManagerProofs Node NodeProofs Queues MemoryTypes Memory Generic Pcb AddressSpace Devices.
From S2P Require Import AcpiProofs Reclamation KernelCall Boot CString MemoryMap DeviceTree CpuTopology.
From S2P Require Import Bus Acpi Platform Apic Interrupt Gic Cpu VmcsField Vmx Serial Startup.

(** ** Relations every run of a driver keeps *)

Definition dkeeps {S A} (R : S → S → Prop) (m : D S A) : Prop :=
  ∀ s log, match m s log with Done _ s' _ => R s s' | _ => True end.

Section dkeeps.
Context {S : Type} (R : S → S → Prop) `{!PreOrder R}.

Lemma dkeeps_run {A} (m : D S A) s log a s' log' : dkeeps R m → m s log = Done a s' log' → R s s'.
Proof. intros Hm Hr. specialize (Hm s log). by rewrite Hr in Hm. Qed.
Lemma dkeeps_ret {A} (a : A) : dkeeps R (mret a).
Proof. intros s log. change (R s s). reflexivity. Qed.
Lemma dkeeps_bind {A C} (m : D S A) (f : A → D S C) : dkeeps R m → (∀ a, dkeeps R (f a)) → dkeeps R (mbind f m).
Proof.
  intros Hm Hf s log. unfold mbind, D_bind. specialize (Hm s log). destruct (m s log) as [a s1 log1| |]; [|done..].
  specialize (Hf a s1 log1). destruct (f a s1 log1); [|done..]. by transitivity s1.
Qed.
Lemma dkeeps_and_then {A C E} (m : D S (result A E)) (f : A → D S (result C E)) :
  dkeeps R m → (∀ a, dkeeps R (f a)) → dkeeps R (bus_and_then m f).
Proof. intros Hm Hf. apply dkeeps_bind; [done|]. intros [a|e]; [apply Hf|apply dkeeps_ret]. Qed.
Lemma dkeeps_or_else {A E} (m : D S (result A E)) (f : E → D S (result A E)) :
  dkeeps R m → (∀ e, dkeeps R (f e)) → dkeeps R (bus_or_else m f).
Proof. intros Hm Hf. apply dkeeps_bind; [done|]. intros [a|e]; [apply dkeeps_ret|apply Hf]. Qed.
Lemma dkeeps_certainly {A} (o : option A) : dkeeps R (certainly o).
Proof. intros s log. destruct o; [change (R s s); reflexivity|exact I]. Qed.
Lemma dkeeps_objects {A} (f : S → A) : dkeeps R (objects f).
Proof. intros s log. change (R s s). reflexivity. Qed.
Lemma dkeeps_set_objects f : (∀ s, R s (f s)) → dkeeps R (set_objects f).
Proof. intros Hf s log. apply Hf. Qed.
Lemma dkeeps_write a v : dkeeps R (bus_write a v).
Proof. intros s log. change (R s s). reflexivity. Qed.
Lemma dkeeps_read `{bus_device} a : dkeeps R (bus_read a).
Proof. intros s log. change (R s s). reflexivity. Qed.
Lemma dkeeps_zoom {T A} (f : S → T) `{!Upd f} (m : D T A) : (∀ s t, R s (s <| f := t |>)) → dkeeps R (zoom f m).
Proof. intros Hf s log. unfold zoom. by destruct (m (f s) log). Qed.
End dkeeps.

(** The parts of a run that ended. *)
Lemma done_bind {S A C} (m : D S A) (f : A → D S C) s log c s' log' :
  mbind f m s log = Done c s' log' → ∃ a s1 log1, m s log = Done a s1 log1 ∧ f a s1 log1 = Done c s' log'.
Proof. unfold mbind, D_bind. destruct (m s log) as [a s1 log1| |]; [|done..]. eauto. Qed.
Lemma kernel_step_done {A} (m : M A) s log a s' log' :
  kernel_step m s log = Done a s' log' →
  ∃ k', m (machine_kernel s) = Ret a k' ∧ s' = s <| machine_kernel := k' |> ∧ log' = log.
Proof.
  unfold kernel_step, zoom, in_kernel. destruct (m (machine_kernel s)) as [a1 k1| |]; [|done..]. intros [= <- <- <-]. eauto.
Qed.

Create HintDb dkeeps discriminated.
Ltac dkeeps_by lem := apply lem; [typeclasses eauto|..].
Ltac dkeeps_step :=
  lazymatch goal with
  | |- dkeeps _ (mret _) => dkeeps_by @dkeeps_ret
  | |- dkeeps _ bus_ok => dkeeps_by @dkeeps_ret
  | |- dkeeps _ (bus_fail _) => dkeeps_by @dkeeps_ret
  | |- dkeeps _ (mbind _ _) => dkeeps_by @dkeeps_bind; [|intros ?]
  | |- dkeeps _ (bus_and_then _ _) => dkeeps_by @dkeeps_and_then; [|intros ?]
  | |- dkeeps _ (bus_or_else _ _) => dkeeps_by @dkeeps_or_else; [|intros ?]
  | |- dkeeps _ (certainly _) => dkeeps_by @dkeeps_certainly
  | |- dkeeps _ (objects _) => dkeeps_by @dkeeps_objects
  | |- dkeeps _ (bus_write _ _) => dkeeps_by @dkeeps_write
  | |- dkeeps _ (bus_read _) => dkeeps_by @dkeeps_read
  | |- dkeeps _ (match _ with _ => _ end) => case_match
  | |- dkeeps _ _ => solve [eauto with dkeeps nocore]
  end.
Ltac dkeeps_steps := repeat dkeeps_step.

(** ** What the configuration of the init process leaves alone *)

(** What the scheduler and the context switch read of a process. *)
Definition thread_view (v : process) : list Z * Z * Z * bool * option Z * option Z :=
  (registers v, priority v, core_affinity v, is_in_ready_queue v, next v, preview v).

Definition core_view (k : kernel) : gmap Z cpu_local_variable * Z * gmap Z hal_core :=
  (cpu_local_variables k, current_core k, hal_cores k).

(** The cores are unchanged; so are, for [same_threads], the threads. *)
Definition same_cores (k k' : kernel) : Prop := core_view k' = core_view k.
Definition same_threads (k k' : kernel) : Prop :=
  core_view k' = core_view k ∧ thread_view <$> processes k' = thread_view <$> processes k.

#[global] Instance same_cores_preorder : PreOrder same_cores.
Proof. split; [done|]. intros ???. unfold same_cores. congruence. Qed.
#[global] Instance same_threads_preorder : PreOrder same_threads.
Proof. split; [done|]. intros ??? [] []. split; congruence. Qed.

(** No array has a capability in the slot that will hold the address space. *)
Definition space_slot_free (k : kernel) : Prop :=
  ∀ a v, slots k !! array_slot a OFFSET_PROCESS_ADDRESS_SPACE = Some v → type v = CT_NONE ∧ reclaiming v = false.
Definition keeps_slot_free (k k' : kernel) : Prop := space_slot_free k → space_slot_free k'.
#[global] Instance keeps_slot_free_preorder : PreOrder keeps_slot_free.
Proof. split; [by intros ??|]. intros ??? H1 H2 H. auto. Qed.

Lemma same_threads_modify `{Countable K} {V} (heap : kernel → gmap K V) `{!Upd heap} p f :
  (∀ k v, heap k !! p = Some v → same_threads k (k <| heap ::= <[p := f v]> |>)) → keeps same_threads (modify heap p f).
Proof. intros Hf k. apply wlp_modify. auto. Qed.
Lemma same_threads_updates f : (∀ k, same_threads k (f k)) → keeps same_threads (updates f).
Proof. intros Hf k. by apply wlp_updates. Qed.

(** A step that only writes slots, words of memory or events. *)
#[export] Hint Extern 2 (keeps same_threads (modify slots _ _)) =>
  apply same_threads_modify; intros ???; split; reflexivity : keeps.
#[export] Hint Extern 2 (keeps same_threads (modify memory_words _ _)) =>
  apply same_threads_modify; intros ???; split; reflexivity : keeps.
#[export] Hint Extern 2 (keeps same_threads (updates _)) =>
  apply same_threads_updates; intros ?; split; reflexivity : keeps.

Lemma same_threads_process p f :
  (∀ v, thread_view (f v) = thread_view v) → keeps same_threads (modify processes p f).
Proof.
  intros Hf. apply same_threads_modify. intros k v Hv. split; [done|].
  ksimpl_goal. rewrite fmap_insert, Hf. apply insert_id. by rewrite lookup_fmap, Hv.
Qed.

Section configuration.
Context `{config}.

Lemma retrieve_from_keeps R `{!PreOrder R} s i e : keeps R (retrieve_from s i e).
Proof. unfold retrieve_from, retrieve_slot. keeps_steps; eauto with keeps. Qed.
Hint Resolve retrieve_from_keeps : keeps.
Lemma init_node_slot_keeps R `{!PreOrder R} pcb o : keeps R (init_node_slot pcb o).
Proof. unfold init_node_slot. keeps_steps. Qed.
Lemma root_table_of_keeps R `{!PreOrder R} pcb : keeps R (root_table_of pcb).
Proof. unfold root_table_of. keeps_steps. Qed.
Hint Resolve init_node_slot_keeps root_table_of_keeps : keeps.

Lemma init_threads s : keeps same_threads (init s).
Proof. unfold init. eauto with keeps. Qed.
Lemma insert_sibling_threads s d : keeps same_threads (insert_sibling s d).
Proof. unfold insert_sibling, insert. keeps_steps. Qed.
Hint Resolve init_threads insert_sibling_threads : keeps.
Lemma try_copy_threads d s : keeps same_threads (try_copy_capability_slot d s).
Proof. unfold try_copy_capability_slot. keeps_steps. Qed.
Lemma unlink_threads s : keeps same_threads (unlink_and_clear_slot s).
Proof. unfold unlink_and_clear_slot, remove_from_dependency_node. keeps_steps. Qed.
Hint Resolve try_copy_threads unlink_threads : keeps.

(** *** The memory manager *)

Lemma copy_words_threads n d s : keeps same_threads (copy_words n d s).
Proof. revert d s. induction n as [|n IH]; intros d s; cbn [copy_words]; keeps_steps; apply IH. Qed.
Lemma clear_words_threads n a : keeps same_threads (clear_words n a).
Proof. revert a. induction n as [|n IH]; intros a; cbn [clear_words]; keeps_steps; apply IH. Qed.
Hint Resolve copy_words_threads clear_words_threads : keeps.
Lemma make_address_space_threads a : keeps same_threads (make_address_space a).
Proof. unfold make_address_space, write_address_space_owners. keeps_steps. Qed.
Lemma try_configure_address_space_threads s t : keeps same_threads (try_configure_address_space_slot s t).
Proof. unfold try_configure_address_space_slot. keeps_steps. Qed.
Lemma traverse_tables_keeps R `{!PreOrder R} n t a i : keeps R (traverse_tables n t a i).
Proof. revert t i. induction n as [|n IH]; intros t i; cbn [traverse_tables]; keeps_steps; apply IH. Qed.
Hint Resolve traverse_tables_keeps : keeps.
Lemma invalidate_local_tlb_threads b t a : keeps same_threads (invalidate_local_tlb b t a).
Proof. unfold invalidate_local_tlb, this_core, emit. keeps_steps. Qed.
Hint Resolve invalidate_local_tlb_threads : keeps.
Lemma map_page_table_threads root t a r : keeps same_threads (map_page_table root t a r).
Proof. unfold map_page_table, traverse_page_table_entry. keeps_steps. Qed.
Lemma map_frame_threads root f a r : keeps same_threads (map_frame root f a r).
Proof. unfold map_frame, traverse_page_table_entry. keeps_steps. Qed.
Lemma search_unset_loop_keeps R `{!PreOrder R} n t a i : keeps R (search_unset_loop n t a i).
Proof. revert t i. induction n as [|n IH]; intros t i; cbn [search_unset_loop]; keeps_steps; apply IH. Qed.
Hint Resolve search_unset_loop_keeps : keeps.
Lemma search_unset_threads root a bits : keeps same_threads (search_unset_page_table_depth root a bits).
Proof. unfold search_unset_page_table_depth. keeps_steps. Qed.
Hint Resolve make_address_space_threads try_configure_address_space_threads map_page_table_threads map_frame_threads
  search_unset_threads : keeps.

(** *** The boot *)

Lemma keeps_boot_bind R `{!PreOrder R} {A C} (m : B A) (f : A → B C) b :
  keeps R (m b) → (∀ a b', keeps R (f a b')) → keeps R (mbind (M := B) f m b).
Proof. intros Hm Hf. apply (keeps_bind R (m b)); [done|]. intros [a b']. apply Hf. Qed.
Lemma keeps_boot_then R `{!PreOrder R} {A C E} (m : B (result A E)) (f : A → B (result C E)) b :
  keeps R (m b) → (∀ a b', keeps R (f a b')) → keeps R (band_then m f b).
Proof.
  intros Hm Hf. apply keeps_boot_bind; [done..|]. intros [a|e] b'; [apply Hf|by apply keeps_ret].
Qed.
Lemma keeps_boot_lift R `{!PreOrder R} {A} (m : M A) b : keeps R m → keeps R (lift m b).
Proof. intros Hm. apply keeps_bind; [done|done|]. intros a. by apply keeps_ret. Qed.

Lemma init_allocate_keeps R `{!PreOrder R} pool size count construct b :
  (∀ a, keeps R (construct a)) → keeps R (init_allocate pool size count construct b).
Proof. intros Hc. unfold init_allocate. keeps_steps. Qed.
Lemma ballocate_keeps R `{!PreOrder R} {E} (e : E) m b : keeps R (m b) → keeps R (ballocate_or e m b).
Proof. intros Hm. apply keeps_boot_bind; [done..|]. intros. by apply keeps_ret. Qed.

Ltac boot_keeps_step :=
  lazymatch goal with
  | |- keeps _ (band_then _ _ _) => apply keeps_boot_then; [typeclasses eauto| |intros ? ?]
  | |- keeps _ (mbind (M := B) _ _ _) => apply keeps_boot_bind; [typeclasses eauto| |intros ? ?]
  | |- keeps _ (lift _ _) => apply keeps_boot_lift; [typeclasses eauto|]
  | |- keeps _ (ballocate_or _ _ _) => apply ballocate_keeps; [typeclasses eauto|]
  | |- keeps _ (init_allocate _ _ _ _ _) => apply init_allocate_keeps; [typeclasses eauto|intros ?]
  | |- keeps _ (mret (M := B) _ _) => apply keeps_ret; typeclasses eauto
  | |- keeps _ (bfail _ _) => apply keeps_ret; typeclasses eauto
  | |- keeps _ ((match _ with _ => _ end) _) => case_match
  | |- keeps _ _ => keeps_step
  end; cbn beta iota.
Ltac boot_keeps := repeat boot_keeps_step.

Context (pool : Z).

Lemma construct_page_threads a : keeps same_threads (construct_page a).
Proof. unfold construct_page. eauto with keeps. Qed.
Lemma construct_slots_threads n a : keeps same_threads (construct_slots n a).
Proof. unfold construct_slots. eauto with keeps. Qed.
Hint Resolve construct_page_threads construct_slots_threads : keeps.

Lemma configure_io_ports_threads pcb : keeps same_threads (try_configure_init_io_ports pcb).
Proof. unfold try_configure_init_io_ports, try_configure_io_port_slot. keeps_steps. Qed.
Lemma configure_page_table_slot_threads s t : keeps same_threads (try_configure_page_table_slot s t).
Proof. unfold try_configure_page_table_slot. keeps_steps. Qed.
Lemma configure_frame_slot_threads s f : keeps same_threads (try_configure_frame_slot s f).
Proof. unfold try_configure_frame_slot. keeps_steps. Qed.
Lemma configure_generic_slot_threads s g : keeps same_threads (try_configure_generic_slot s g).
Proof. unfold try_configure_generic_slot. keeps_steps. Qed.
Lemma configure_region_threads pcb : keeps same_threads (try_configure_init_interrupt_region pcb).
Proof. unfold try_configure_init_interrupt_region, try_configure_interrupt_region_slot. keeps_steps. Qed.
Lemma configure_node_slot_threads s n : keeps same_threads (try_configure_capability_node_slot s n).
Proof. unfold try_configure_capability_node_slot. keeps_steps. Qed.
Hint Resolve configure_io_ports_threads configure_page_table_slot_threads configure_frame_slot_threads
  configure_generic_slot_threads configure_region_threads configure_node_slot_threads : keeps.

Lemma map_table_threads root node i d a b :
  keeps same_threads (allocate_and_map_page_table pool root node i d a b).
Proof. unfold allocate_and_map_page_table. boot_keeps. Qed.
Lemma page_tables_loop_threads fuel root node last i a b :
  keeps same_threads (init_page_tables_loop pool fuel root node last i a b).
Proof.
  revert i a b. induction fuel as [|fuel IH]; intros i a b; cbn [init_page_tables_loop]; boot_keeps;
    auto using map_table_threads.
Qed.
Lemma page_tables_threads pcb info b : keeps same_threads (try_configure_init_page_tables pool pcb info b).
Proof. unfold try_configure_init_page_tables. boot_keeps. apply page_tables_loop_threads. Qed.

Lemma ipc_buffer_frame_threads pcb s f : keeps same_threads (configure_ipc_buffer_frame pcb s f).
Proof. unfold configure_ipc_buffer_frame. keeps_steps. by apply same_threads_process. Qed.
Lemma init_frame_threads pcb info root node i : keeps same_threads (configure_init_frame pcb info root node i).
Proof. unfold configure_init_frame. keeps_steps. apply ipc_buffer_frame_threads. Qed.
Lemma frames_loop_threads turns pcb info root node i : keeps same_threads (init_frames_loop turns pcb info root node i).
Proof.
  revert i. induction turns as [|turns IH]; intros i; cbn [init_frames_loop]; keeps_steps; auto using init_frame_threads.
Qed.
Lemma frames_threads pcb info : keeps same_threads (try_configure_init_frames pcb info).
Proof. unfold try_configure_init_frames. keeps_steps. apply frames_loop_threads. Qed.
Lemma generics_loop_threads turns info node i : keeps same_threads (init_generics_loop turns info node i).
Proof. revert i. induction turns as [|turns IH]; intros i; cbn [init_generics_loop]; keeps_steps; apply IH. Qed.
Lemma generics_threads pcb info : keeps same_threads (try_configure_init_generics pcb info).
Proof. unfold try_configure_init_generics. keeps_steps. apply generics_loop_threads. Qed.

(** *** The slot of the address space stays free until it is filled *)

Definition free_slot (v : capability_slot) : Prop := type v = CT_NONE ∧ reclaiming v = false.

Lemma slot_free_modify t f :
  (∀ v, (∃ a, t = array_slot a OFFSET_PROCESS_ADDRESS_SPACE) → free_slot v → free_slot (f v)) →
  keeps keeps_slot_free (modify slots t f).
Proof.
  intros Hf k. apply wlp_modify. intros v Hv Hfree a w. ksimpl_goal. rewrite lookup_insert.
  case_decide as Heq; [|apply Hfree]. intros [= <-]. apply Hf; [by exists a|]. apply (Hfree a). congruence.
Qed.
Lemma slot_free_other `{Countable K} {V} (heap : kernel → gmap K V) `{!Upd heap} p f :
  (∀ k v, slots (k <| heap ::= <[p := f v]> |>) = slots k) → keeps keeps_slot_free (modify heap p f).
Proof. intros Hs k. apply wlp_modify. intros v Hv Hfree a w. rewrite Hs. apply Hfree. Qed.
Lemma slot_free_updates f :
  (∀ k, slots (f k) = slots k) → keeps keeps_slot_free (updates f).
Proof. intros Hs k. apply wlp_updates. intros Hfree a w. rewrite Hs. apply Hfree. Qed.
#[local] Hint Extern 2 (keeps keeps_slot_free (modify slots _ _)) =>
  apply slot_free_modify; first [by intros v [? ?]; discriminate | by intros v _ [? ?]] : keeps.
#[local] Hint Extern 2 (keeps keeps_slot_free (modify memory_words _ _)) =>
  apply slot_free_other; reflexivity : keeps.
#[local] Hint Extern 2 (keeps keeps_slot_free (modify processes _ _)) =>
  apply slot_free_other; reflexivity : keeps.
#[local] Hint Extern 2 (keeps keeps_slot_free (updates _)) =>
  apply slot_free_updates; reflexivity : keeps.

Lemma make_slots_free a n σ b i v :
  make_slots a n σ !! array_slot b i = Some v → v = initial_slot ∨ σ !! array_slot b i = Some v.
Proof.
  unfold make_slots. induction (seq 0 n) as [|j l IH]; cbn [foldr]; [by right|].
  rewrite lookup_insert. case_decide; [by intros [= <-]; left|exact IH].
Qed.
Lemma construct_slots_free n a : keeps keeps_slot_free (construct_slots n a).
Proof.
  intros k. apply wlp_updates. intros Hfree b w. ksimpl_goal. intros Hw.
  destruct (make_slots_free _ _ _ _ _ _ Hw) as [->|Hw']; [done|by apply (Hfree b)].
Qed.
Lemma construct_page_free a : keeps keeps_slot_free (construct_page a).
Proof. unfold construct_page. eauto with keeps. Qed.
Lemma make_pcb_free a : keeps keeps_slot_free (make_process_control_block a).
Proof.
  intros k. apply wlp_updates. intros Hfree b w. ksimpl_goal. cbn [foldr].
  rewrite !lookup_insert_ne by done. apply Hfree.
Qed.
Lemma init_free s : keeps keeps_slot_free (init s).
Proof. unfold init. eauto with keeps. Qed.
Lemma insert_sibling_free s d : keeps keeps_slot_free (insert_sibling s d).
Proof. unfold insert_sibling, insert. keeps_steps. Qed.
Hint Resolve construct_slots_free construct_page_free make_pcb_free init_free insert_sibling_free : keeps.
Lemma try_copy_free a i s :
  i ≠ OFFSET_PROCESS_ADDRESS_SPACE → keeps keeps_slot_free (try_copy_capability_slot (array_slot a i) s).
Proof.
  intros Hi. unfold try_copy_capability_slot. keeps_steps. apply slot_free_modify. by intros v [b [= _ ?]].
Qed.

(** A computation that finds slot [i] of some array, or fails. *)
Definition finds_index {E} (m : M (result slot_ref E)) (i : Z) : Prop :=
  ∀ k, wlp m (λ r k', k' = k ∧ ∀ t, r = Ok t → ∃ a, t = array_slot a i) k.

Lemma node_retrieve_index n i : finds_index (node_retrieve_slot n i) i.
Proof.
  intros k. unfold node_retrieve_slot. wlp_steps. case_match; wlp_steps; [|done].
  split; [done|]. intros t [= <-]. eauto.
Qed.
Lemma map_error_index {E F} (g : E → F) m i : finds_index m i → finds_index (map_error g m) i.
Proof.
  intros Hm k. wlp_step. eapply wlp_mono; [|apply Hm]. intros [t|e] k' [-> Ht]; split; try done. intros ? [= <-]. by apply Ht.
Qed.
Lemma retrieve_from_index s i e : finds_index (retrieve_from s i e) i.
Proof.
  intros k. unfold retrieve_from. do 4 wlp_step. apply (map_error_index _ _ i). intros k'. unfold retrieve_slot.
  case_match; try (by apply wlp_ret). apply node_retrieve_index.
Qed.

Lemma keeps_boot_found R `{!PreOrder R} {C E} (m : M (result slot_ref E)) i (f : slot_ref → B (result C E)) b :
  finds_index m i → (∀ a b', keeps R (f (array_slot a i) b')) → keeps R (band_then (lift m) f b).
Proof.
  intros Hm Hf k. unfold band_then, lift, mbind at 1, B_bind. apply wlp_bind, wlp_bind.
  eapply wlp_mono; [|apply Hm]. intros r k' [-> Hr]. apply wlp_ret. cbn [fst snd].
  destruct r as [t|e]; [|by apply wlp_ret]. destruct (Hr t eq_refl) as [a ->]. apply Hf.
Qed.
Lemma keeps_found R `{!PreOrder R} {C E} (m : M (result slot_ref E)) i (f : slot_ref → M (result C E)) :
  finds_index m i → (∀ a, keeps R (f (array_slot a i))) → keeps R (and_then m f).
Proof.
  intros Hm Hf k. apply wlp_and_then. eapply wlp_mono; [|apply Hm]. intros [t|e] k' [-> Hr]; [|done].
  destruct (Hr t eq_refl) as [a ->]. apply Hf.
Qed.

(** *** The creation of the init process *)

Definition not_space_slot (t : slot_ref) : Prop := ∀ a, t ≠ array_slot a OFFSET_PROCESS_ADDRESS_SPACE.
Lemma index_not_space a i : i ≠ OFFSET_PROCESS_ADDRESS_SPACE → not_space_slot (array_slot a i).
Proof. by intros Hi b [= _ ?]. Qed.
Lemma configure_node_slot_free t n : not_space_slot t → keeps keeps_slot_free (try_configure_capability_node_slot t n).
Proof.
  intros Ht. unfold try_configure_capability_node_slot. keeps_steps; apply slot_free_modify; by intros v [b Hb]; destruct (Ht b).
Qed.
Lemma make_node_free t radix b : not_space_slot t → keeps keeps_slot_free (try_make_node pool t radix b).
Proof.
  intros Ht. unfold try_make_node. boot_keeps. by apply configure_node_slot_free.
Qed.
Lemma make_node_threads t radix b : keeps same_threads (try_make_node pool t radix b).
Proof. unfold try_make_node. boot_keeps. Qed.

Lemma init_nodes_threads s pcb b : keeps same_threads (try_create_init_process_nodes pool s pcb b).
Proof.
  unfold try_create_init_process_nodes, try_make_init_node. boot_keeps; auto using make_node_threads with keeps.
Qed.
Lemma make_init_node_free root i radix b :
  i ≠ OFFSET_PROCESS_ADDRESS_SPACE → keeps keeps_slot_free (try_make_init_node pool root i radix b).
Proof.
  intros Hi. unfold try_make_init_node. apply (keeps_boot_found _ _ _ _ _ (retrieve_from_index _ _ _)).
  intros a b'. by apply make_node_free, index_not_space.
Qed.
Lemma init_nodes_free s pcb b : keeps keeps_slot_free (try_create_init_process_nodes pool s pcb b).
Proof.
  unfold try_create_init_process_nodes. boot_keeps_step; [boot_keeps|]. boot_keeps_step; [by apply make_node_free|].
  do 2 (apply (keeps_boot_found _ _ _ _ _ (map_error_index _ _ _ (node_retrieve_index _ _))); intros ? ?;
        boot_keeps_step; [apply keeps_boot_lift; [typeclasses eauto|by apply try_copy_free]|]).
  boot_keeps; by apply make_init_node_free.
Qed.

Lemma pcb_slot_threads b : keeps same_threads (try_create_process_control_block_slot pool b).
Proof. unfold try_create_process_control_block_slot. boot_keeps. Qed.
Lemma pcb_slot_free b : keeps keeps_slot_free (try_create_process_control_block_slot pool b).
Proof. unfold try_create_process_control_block_slot. boot_keeps. Qed.

Lemma wlp_conj {A} (m : M A) Q1 Q2 k : wlp m Q1 k → wlp m Q2 k → wlp m (λ a k', Q1 a k' ∧ Q2 a k') k.
Proof. rewrite !wlp_run. naive_solver. Qed.
Lemma wlp_boot_then {A C E} (m : B (result A E)) (f : A → B (result C E)) b Q k :
  wlp (m b) (λ rb k', match rb.1 with Ok a => wlp (f a rb.2) Q k' | Err e => Q (Err e, rb.2) k' end) k →
  wlp (band_then m f b) Q k.
Proof.
  intros Hm. unfold band_then, mbind at 1, B_bind. apply wlp_bind. eapply wlp_mono; [|exact Hm].
  intros [[a|e] b'] k'; cbn [fst snd]; [done|]. by apply wlp_ret.
Qed.
Lemma wlp_lift {A} (m : M A) b Q k : wlp m (λ a k', Q (a, b) k') k → wlp (lift m b) Q k.
Proof. intros Hm. unfold lift. apply wlp_bind. eapply wlp_mono; [|exact Hm]. intros a k' Ha. by apply wlp_ret. Qed.

(** What is known of the process while it is configured: its address is in the pool and
    it is in no queue. *)
Definition fresh_thread (pcb : Z) (k : kernel) : Prop :=
  pool ≤ pcb ∧ ∃ v, processes k !! pcb = Some v ∧ is_in_ready_queue v = false ∧ next v = None ∧ preview v = None.
Lemma same_threads_cores k k' : same_threads k k' → same_cores k k'.
Proof. by intros []. Qed.
Lemma same_threads_lookup k k' p v :
  same_threads k k' → processes k !! p = Some v → ∃ v', processes k' !! p = Some v' ∧ thread_view v' = thread_view v.
Proof.
  intros [_ Hp] Hv. assert ((thread_view <$> processes k') !! p = Some (thread_view v)) as Hl.
  { by rewrite Hp, lookup_fmap, Hv. }
  rewrite lookup_fmap in Hl. apply fmap_Some in Hl as (v' & ? & ?). eauto.
Qed.
Lemma fresh_thread_kept pcb k k' : same_threads k k' → fresh_thread pcb k → fresh_thread pcb k'.
Proof.
  intros Hs (Hp & v & Hv & ? & ? & ?). split; [done|]. destruct (same_threads_lookup _ _ _ _ Hs Hv) as (v' & ? & [=]).
  exists v'. split_and!; [done|congruence..].
Qed.

Lemma align_to_nonneg x size : 0 ≤ align_to x size.
Proof. unfold align_to. apply Z.mod_pos_bound. done. Qed.

Lemma allocate_nonneg current size count start current' :
  allocate current size count = Some (Ok (start, current')) → 0 ≤ start.
Proof. unfold allocate. repeat case_match; intros; simplify_eq. apply align_to_nonneg. Qed.

Lemma pcb_slot_index b k :
  wlp (try_create_process_control_block_slot pool b) (λ rb _, ∀ s, rb.1 = Ok s → ∃ a, s = array_slot a 0) k.
Proof.
  unfold try_create_process_control_block_slot. apply wlp_boot_then. apply wlp_run. intros [r b'] k' _. cbn [fst].
  case_match; [|done]. apply wlp_ret. intros s [= <-]. eauto.
Qed.

Lemma wlp_allocate {E} (e : E) size count construct b Q k :
  (∀ b', Q (Err e, b') k) →
  (∀ start, 0 ≤ start → wlp (construct (pool + start)) (λ _ k', ∀ b', Q (Ok (pool + start), b') k') k) →
  wlp (ballocate_or e (init_allocate pool size count construct) b) Q k.
Proof.
  intros Herr Hok. unfold ballocate_or, mbind at 1, B_bind. apply wlp_bind. unfold init_allocate.
  apply wlp_bind, wlp_defined. intros [[start current]|er] Ha; [|by do 2 apply wlp_ret].
  apply wlp_bind. eapply wlp_mono; [|apply Hok; by eapply allocate_nonneg]. intros [] k' Hk. by do 2 apply wlp_ret.
Qed.

Lemma create_pcb_spec a b k :
  space_slot_free k →
  wlp (try_create_process_control_block pool (array_slot a 0) b)
    (λ rb k', same_cores k k' ∧ space_slot_free k' ∧ ∀ pcb, rb.1 = Ok pcb → fresh_thread pcb k') k.
Proof.
  intros Hfree. unfold try_create_process_control_block. apply wlp_boot_then, wlp_allocate; [done|]. intros start Hs.
  pose proof (proj1 (wlp_run _ _ _) (make_pcb_free (pool + start) k) _ _ eq_refl Hfree) as Hf1.
  apply wlp_updates. intros b1. cbn [fst snd]. apply wlp_boot_then, wlp_lift.
  unfold try_configure_process_control_block_slot. wlp_steps. cbn [fst snd]. apply wlp_ret.
  split; [done|]. split.
  - intros b' w. ksimpl_goal. rewrite lookup_insert_ne by done. apply Hf1.
  - intros pcb [= <-]. split; [lia|]. ksimpl_goal. rewrite lookup_insert_eq. eexists. split; [done|]. done.
Qed.

Lemma create_init_pcb_spec b k :
  space_slot_free k →
  wlp (try_create_init_process_control_block pool b)
    (λ rb k', same_cores k k' ∧ space_slot_free k' ∧ ∀ s pcb, rb.1 = Ok (s, pcb) → fresh_thread pcb k') k.
Proof.
  intros Hfree. unfold try_create_init_process_control_block. apply wlp_boot_then.
  eapply wlp_mono; [|apply wlp_conj; [apply pcb_slot_index|apply wlp_conj; [apply pcb_slot_threads|apply pcb_slot_free]]].
  intros [[s|e] b1] k1 (Hs & Ht%same_threads_cores & Hf); cbn [fst snd] in *; [|by split_and!; auto].
  destruct (Hs s eq_refl) as [a ->]. apply wlp_boot_then.
  eapply wlp_mono; [|apply (create_pcb_spec a b1 k1); auto].
  intros [[pcb|e] b2] k2 (Hc2 & Hf2 & Hpcb); cbn [fst snd] in *; [|by split_and!; [transitivity k1|..]].
  apply wlp_boot_then. eapply wlp_mono; [|apply wlp_conj; [apply init_nodes_threads|apply init_nodes_free]].
  intros [r b3] k3 [Ht3 Hf3]. cbn [fst snd] in *.
  assert (same_cores k k3) by (etransitivity; [exact Ht|etransitivity; [exact Hc2|by apply same_threads_cores]]).
  destruct r; [apply wlp_ret|]; split_and!; auto; [|done]. intros s' pcb' [= <- <-]. eapply fresh_thread_kept; eauto.
Qed.

(** *** The configuration of the init process *)

Lemma remove_free_slot a k :
  space_slot_free k →
  wlp (try_remove_and_init (array_slot a OFFSET_PROCESS_ADDRESS_SPACE)) (λ _ k', same_threads k k') k.
Proof.
  intros Hfree. unfold try_remove_and_init, remove_slot, reclamation_fuel. do 2 wlp_step. cbn [remove_slot_fuel].
  unfold remove_slot_body. wlp_step. wlp_step. destruct (Hfree a _ H0) as [-> ->]. rewrite decide_True by done.
  apply unlink_threads.
Qed.

Lemma configure_io_ports_free pcb : keeps keeps_slot_free (try_configure_init_io_ports pcb).
Proof.
  unfold try_configure_init_io_ports. apply (keeps_found _ _ OFFSET_IO_PORT); [apply retrieve_from_index|].
  intros a. unfold try_configure_io_port_slot. keeps_steps; apply slot_free_modify; by intros v [b ?]; simplify_eq.
Qed.
Lemma make_address_space_free a : keeps keeps_slot_free (make_address_space a).
Proof.
  assert (∀ n d s, keeps keeps_slot_free (copy_words n d s)).
  { induction n as [|n IH]; intros d s; cbn [copy_words]; keeps_steps; apply IH. }
  unfold make_address_space, write_address_space_owners. keeps_steps.
Qed.
Lemma configure_root_space_free pcb t :
  keeps keeps_slot_free (try_configure_address_space_slot (process_slot_ref pcb ROOT_ADDRESS_SPACE) t).
Proof. unfold try_configure_address_space_slot. keeps_steps. Qed.

(** From a state with a free slot, a step of the boot keeps the threads. *)
Lemma root_address_space_threads pcb b k :
  space_slot_free k → wlp (try_configure_init_root_address_space pool pcb b) (λ _ k', same_threads k k') k.
Proof.
  intros Hfree. unfold try_configure_init_root_address_space. apply wlp_boot_then.
  eapply wlp_mono; [|apply wlp_conj].
  2:{ apply (ballocate_keeps same_threads), init_allocate_keeps; [typeclasses eauto|]. intros. apply construct_page_threads. }
  2:{ apply (ballocate_keeps keeps_slot_free), init_allocate_keeps; [typeclasses eauto|]. intros. apply construct_page_free. }
  intros [[m|e] b1] k1 [Ht1 Hf1]; [|done]. specialize (Hf1 Hfree). cbn [fst snd]. apply wlp_boot_then, wlp_lift.
  eapply wlp_mono; [|apply wlp_conj; [apply keeps_map_error, make_address_space_threads|apply keeps_map_error, make_address_space_free]];
    try typeclasses eauto.
  intros [t|e] k2 [Ht2 Hf2]; cbn [fst snd]; [|by transitivity k1]. specialize (Hf2 Hf1). apply wlp_lift, wlp_and_then.
  eapply wlp_mono; [|apply retrieve_from_index]. intros [s|e] k3 [-> Hs]; [|by transitivity k1].
  destruct (Hs s eq_refl) as [a ->]. apply wlp_and_then.
  eapply wlp_mono; [|apply wlp_conj; [apply try_configure_address_space_threads|apply configure_root_space_free]].
  intros [u|e] k3 [Ht3 Hf3]; (assert (same_threads k k3) by (etransitivity; [exact Ht1|by transitivity k2])); [|done].
  apply wlp_and_then. eapply wlp_mono; [|apply remove_free_slot; auto]. intros [w|e] k4 Ht4; [|by transitivity k3].
  eapply wlp_mono; [|apply try_copy_threads]. intros r k5 Ht5. transitivity k3; [done|by transitivity k4].
Qed.
Lemma address_space_threads pcb boot b k :
  space_slot_free k → wlp (try_configure_init_address_space pool pcb boot b) (λ _ k', same_threads k k') k.
Proof.
  intros Hfree. unfold try_configure_init_address_space. apply wlp_boot_then.
  eapply wlp_mono; [|by apply root_address_space_threads]. intros [[[]|e] b1] k1 Ht1; [|done]. cbn [fst snd].
  eapply wlp_mono; [intros r k2 Ht2; transitivity k1; [exact Ht1|exact Ht2]|].
  apply (keeps_boot_then same_threads); [apply page_tables_threads|]. intros _ b2.
  apply keeps_boot_then; [typeclasses eauto|apply keeps_boot_lift, frames_threads; typeclasses eauto|]. intros _ b3.
  apply keeps_boot_then; [typeclasses eauto|apply keeps_boot_lift, generics_threads; typeclasses eauto|]. intros _ b4.
  apply keeps_boot_lift, configure_region_threads. typeclasses eauto.
Qed.

(** The queues with the init process alone. *)
Definition only_init (pcb : Z) : ready_queues := update_queue (PRIORITY_MAX - 1) [pcb] (λ _, []).
(** The registers it starts with. *)
Definition start_registers (boot : boot_info) : list Z :=
  set_register register_index.RIP (entry_point_address (boot_init_image_info boot)) (fst (init_hardware_context CM_USER)).

Record init_ready (boot : boot_info) (pcb : Z) (cpu : cpu_local_variable) (k k' : kernel) : Prop := {
  ready_core_number : current_core k' = current_core k;
  ready_cores : hal_cores k' = hal_cores k;
  ready_cpu : ∃ sched, cpu_local_variables k' !! BSP_ID =
    Some (cpu <| process_manager_core ::= λ pm, pm <| scheduler_core := sched |> |>);
  ready_sched : sched_inv BSP_ID k' (only_init pcb);
  ready_thread : ∃ v, processes k' !! pcb = Some v ∧ status v = PS_READY ∧ registers v = start_registers boot;
  ready_pool : pool ≤ pcb;
}.

Lemma empty_queues_inv k k' : same_cores k k' → sched_inv BSP_ID k (λ _, []) → sched_inv BSP_ID k' (λ _, []).
Proof.
  intros Hs (cpu & Hc & [H1 H2 H3 H4 H5 H6]). injection Hs as Hs _ _. exists cpu. rewrite Hs. split; [done|].
  split; try done.
  - intros i p Hp%not_elem_of_nil. done.
Qed.

(** The registers and the priority of the process are set. *)
Lemma configure_thread_spec pcb boot k :
  fresh_thread pcb k →
  wlp (modify processes pcb (λ p, p <| registers := fst (init_hardware_context CM_USER) |>);;
       configure_floating_context pcb;;
       configure_general_register pcb RT_INSTRUCTION_POINTER (entry_point_address (boot_init_image_info boot));;
       modify processes pcb (λ p, p <| priority := PRIORITY_MAX - 1 |>))
    (λ _ k', core_view k' = core_view k ∧ slots k' = slots k ∧ ∃ v, processes k' !! pcb = Some v ∧
       registers v = start_registers boot ∧ priority v = PRIORITY_MAX - 1 ∧ is_in_ready_queue v = false ∧
       next v = None ∧ preview v = None) k.
Proof.
  intros (_ & v & Hv & Hq & Hn & Hp). unfold configure_floating_context, configure_general_register. wlp_steps.
  lookup_simpl. simplify_eq. split; [done|]. split; [done|]. eexists. split; [done|]. done.
Qed.

Lemma configure_init_spec pcb boot b cpu k :
  cpu_local_variables k !! BSP_ID = Some cpu → idle_process (process_manager_core cpu) ≠ pcb →
  sched_inv BSP_ID k (λ _, []) → space_slot_free k → fresh_thread pcb k →
  wlp (try_configure_init_process_control_block pool pcb boot b)
    (λ rb k', rb.1 = Ok tt → init_ready boot pcb cpu k k') k.
Proof.
  intros Hcpu Hidle Hinv Hfree Hfresh. unfold try_configure_init_process_control_block, mbind at 1, B_bind.
  apply wlp_bind, wlp_lift. eapply wlp_mono; [|by apply (configure_thread_spec pcb boot)].
  intros [] k1 (Hc1 & Hs1 & v1 & Hv1 & Hr1 & Hp1 & Hq1 & Hn1 & Hw1). cbn [fst snd].
  assert (space_slot_free k1) as Hf1 by (intros a w; rewrite Hs1; apply Hfree).
  apply wlp_boot_then, wlp_lift. eapply wlp_mono; [|apply wlp_conj; [apply configure_io_ports_threads|apply configure_io_ports_free]].
  intros [u|e] k2 [Ht2 Hf2]; [|done]. cbn [fst snd]. apply wlp_boot_then.
  eapply wlp_mono; [|apply address_space_threads; auto]. intros [[w|e] b3] k3 Ht3; [|done]. cbn [fst snd].
  assert (same_threads k1 k3) as Ht by (by transitivity k2). destruct (same_threads_lookup _ _ _ _ Ht Hv1) as (v3 & Hv3 & Hview).
  assert (same_cores k k3) as Hc3 by (etransitivity; [exact Hc1|by apply same_threads_cores]).
  injection Hview as Hr3 Hp3 _ Hq3 Hn3 Hw3. apply wlp_lift, wp_wlp.
  assert (cpu_local_variables k3 !! BSP_ID = Some cpu) as Hcpu3 by (injection Hc3 as -> _ _; done).
  eapply wp_mono; [|apply (mark_scheduled_on_spec BSP_ID k3 (λ _, []) cpu pcb v3)]; try done.
  - intros r k4 [-> (sc & ps & -> & Hrep & Hframe & _)] _. destruct Hfresh as [Hpool _].
    destruct (link_frame_lookup _ _ _ _ _ Hframe (lookup_insert_eq _ pcb _)) as (v4 & Hv4 & Hcore).
    unfold ready_queues_with in *. rewrite Hq3, Hq1, Hp3, Hp1 in Hrep. injection Hc3 as _ Hcc Hch. split; try done.
    + eexists. by apply with_sched_cpu.
    + apply sched_inv_with; [by exists cpu|exact Hrep].
    + exists v4. split; [exact Hv4|]. unfold ready_core, readied in Hcore. injection Hcore. intros. split; congruence.
  - by apply (empty_queues_inv k).
  - rewrite Hp3, Hp1. unfold PRIORITY_MAX. lia.
  - unfold sched_consistent. rewrite Hq3, Hq1, Hn3, Hw3, Hn1, Hw1. done.
Qed.

Lemma create_init_spec version architecture platform boot b cpu k :
  cpu_local_variables k !! BSP_ID = Some cpu → idle_process (process_manager_core cpu) < pool →
  sched_inv BSP_ID k (λ _, []) → space_slot_free k →
  wlp (create_init pool version architecture platform boot b)
    (λ rb k', rb.1 = Ok tt → ∃ pcb, init_ready boot pcb cpu k k') k.
Proof.
  intros Hcpu Hidle Hinv Hfree. unfold create_init. apply wlp_boot_then, wlp_lift, wlp_ret. cbn [fst snd].
  case_match; [|done]. apply wlp_boot_then. eapply wlp_mono; [|by apply create_init_pcb_spec].
  intros [[[s pcb]|e] b1] k1 (Hc1 & Hf1 & Hfresh); cbn [fst snd] in *; [|done]. specialize (Hfresh s pcb eq_refl).
  apply wlp_boot_then. unfold try_configure_init_info. apply wlp_bind, wlp_defined. intros r _.
  destruct r; apply wlp_ret; cbn [fst snd]; [|done].
  eapply wlp_mono; [|apply (configure_init_spec pcb boot _ cpu k1)]; try done.
  - intros rb k2 Hrb Hok. exists pcb. destruct (Hrb Hok). injection Hc1 as _ Hcc Hch. split; congruence || done.
  - by injection Hc1 as -> _ _.
  - destruct Hfresh. lia.
  - by apply (empty_queues_inv k).
Qed.

(** *** The switch to the init process *)

Definition running_view (v : process) : list Z * process_status := (registers v, status v).
(** The variables of the cores, the slots and the running view of the processes. *)
Definition same_run (k k' : kernel) : Prop :=
  cpu_local_variables k' = cpu_local_variables k ∧ current_core k' = current_core k ∧ slots k' = slots k ∧
  running_view <$> processes k' = running_view <$> processes k ∧
  sched_view <$> processes k' = sched_view <$> processes k.
#[local] Instance same_run_preorder : PreOrder same_run.
Proof. split; [done|]. intros ??? (?&?&?&?&?) (?&?&?&?&?). repeat split; congruence. Qed.

Lemma same_run_modify `{Countable K} {V} (heap : kernel → gmap K V) `{!Upd heap} p f :
  (∀ k v, heap k !! p = Some v → same_run k (k <| heap ::= <[p := f v]> |>)) → keeps same_run (modify heap p f).
Proof. intros Hf k. apply wlp_modify. auto. Qed.
Lemma same_run_floating p x : keeps same_run (modify processes p (λ v, v <| floating_registers := x |>)).
Proof.
  apply same_run_modify. intros k v Hv. repeat split; ksimpl_goal; rewrite fmap_insert; apply insert_id; by rewrite lookup_fmap, Hv.
Qed.
Lemma modify_core_run f : keeps same_run (modify_core f).
Proof. unfold modify_core. keeps_steps. apply same_run_modify. intros. repeat split. Qed.
#[local] Hint Extern 2 (keeps same_run (modify memory_words _ _)) =>
  apply same_run_modify; intros; repeat split : keeps.
Hint Resolve same_run_floating modify_core_run : keeps.
Lemma switch_context_run p q : keeps same_run (switch_context p q).
Proof.
  unfold switch_context, switch_floating_context, this_core, read_address_space_owners, write_address_space_owners.
  keeps_steps.
Qed.

(** The core ends in the address space of the process, unless that has none. *)
Definition in_space (p : Z) (k : kernel) : Prop :=
  ∃ root hc, slots k !! process_slot_ref p ROOT_ADDRESS_SPACE = Some root ∧ hal_cores k !! current_core k = Some hc ∧
    (data_0 (data root) = 0 ∨ cr3 hc = data_0 (data root)).
Lemma switch_context_space p q k : wlp (switch_context p q) (λ _ k', in_space q k') k.
Proof.
  unfold switch_context. apply wlp_bind. apply wlp_run. intros _ k1 _.
  unfold this_core, modify_core, read_address_space_owners, write_address_space_owners.
  wlp_steps. lookup_simpl. simplify_eq. ksimpl. match goal with |- context [?x =? 0] => destruct (Z.eqb_spec x 0) end.
  { wlp_steps. eexists _, _. split; [done|]. split; [lookup_solve|]. by left. }
  match goal with |- context [?x =? ?y] => destruct (Z.eqb_spec x y) end.
  { wlp_steps. eexists _, _. split; [done|]. split; [lookup_solve|]. by right. }
  wlp_steps. destruct SMP_ENABLED; wlp_steps; lookup_simpl; simplify_eq;
    eexists _, _; (split; [done|]); (split; [lookup_solve|]); by right.
Qed.

(** The processor is with the init process, which starts at the entry point of its image,
    in user mode and in its own address space; no other process is ready. *)
Record runs_init (boot : boot_info) (pcb : Z) (k : kernel) : Prop := {
  runs_current : ∃ cpu, cpu_local_variables k !! BSP_ID = Some cpu ∧ current_process cpu = Some pcb;
  runs_thread : ∃ v, processes k !! pcb = Some v ∧ status v = PS_READY ∧ registers v = start_registers boot;
  runs_space : in_space pcb k;
  runs_alone : ∃ qs, sched_inv BSP_ID k qs ∧ ∀ i, qs i = [];
}.

Lemma switch_to_user_spec boot pcb cpu hc v k :
  cpu_local_variables k !! BSP_ID = Some cpu → hal_cores k !! current_core k = Some hc →
  fs_gs_base_enabled hc = true → gs_base hc = Some BSP_ID → sched_inv BSP_ID k (only_init pcb) →
  processes k !! pcb = Some v → status v = PS_READY → registers v = start_registers boot →
  wlp (switch_to_user BSP_ID) (λ r k', r = Ok tt ∧ runs_init boot pcb k') k.
Proof.
  intros Hcpu Hhc Hfs Hgs Hinv Hv Hst Hreg. unfold switch_to_user, current_local_variable, this_core.
  do 6 wlp_step. replace v0 with hc by congruence. rewrite Hfs, Hgs. cbn [negb]. do 2 wlp_step.
  eapply wlp_mono; [|apply wp_wlp, (schedule_spec BSP_ID k (only_init pcb)); done].
  intros r k1. replace (abs_schedule (only_init pcb)) with (Some (PRIORITY_MAX - 1, pcb, @nil Z)) by reflexivity.
  intros [-> (sc & ps & -> & Hrep & Hframe & _)].
  destruct (link_frame_lookup _ _ _ _ _ Hframe Hv) as (v1 & Hv1 & Hcore).
  assert (status v1 = status v ∧ registers v1 = registers v) as [Hs1 Hr1] by (injection Hcore; intros; split; congruence).
  clear Hcore.
  do 3 wlp_step.
  set (k2 := _ <| cpu_local_variables ::= _ |>).
  eapply wlp_mono; [|apply wlp_conj; [apply switch_context_space|apply switch_context_run]].
  intros r k3 [Hspace (Hcpus & Hcc & Hslots & Hrun & Hsv)]. wlp_steps. split; [done|].
  rewrite (with_sched_cpu BSP_ID sc ps k cpu Hcpu) in *. simplify_eq.
  assert (cpu_local_variables k3 !! BSP_ID =
    Some (cpu <| process_manager_core ::= λ pm, pm <| scheduler_core := sc |> |> <| current_process := Some pcb |>)) as Hc3.
  { rewrite Hcpus. apply lookup_insert_eq. }
  split; [eauto| |done|].
  - assert ((running_view <$> processes k3) !! pcb = Some (running_view v1)) as Hl.
    { rewrite Hrun, lookup_fmap. unfold k2. ksimpl_goal. change (running_view <$> ps !! pcb = Some (running_view v1)). by rewrite Hv1. }
    rewrite lookup_fmap in Hl. apply fmap_Some in Hl as (v3 & Hv3 & [= Hr3 Hs3]). exists v3. split; [done|]. split; congruence.
  - exists (update_queue (PRIORITY_MAX - 1) [] (only_init pcb)). split.
    + eexists. split; [exact Hc3|]. ksimpl_goal. eapply sched_repr_view; [|exact Hrep]. exact Hsv.
    + intros i. unfold only_init, update_queue. by repeat case_decide.
Qed.
End configuration.

(** ** From the entry of the kernel *)

(** The core reaches its variables. *)
Definition gs_ready (k : kernel) : Prop :=
  ∃ hc, hal_cores k !! current_core k = Some hc ∧ fs_gs_base_enabled hc = true ∧ gs_base hc = Some BSP_ID.
Definition manager_of (k : kernel) : option process_manager := process_manager_core <$> cpu_local_variables k !! BSP_ID.

(** What the initialisation before the init process keeps. *)
Record stage (k k' : kernel) : Prop := {
  stage_core : current_core k' = current_core k;
  stage_manager : manager_of k' = manager_of k;
  stage_slot : space_slot_free k → space_slot_free k';
  stage_gs : gs_ready k → gs_ready k';
}.
#[global] Instance stage_preorder : PreOrder stage.
Proof. split; [done|]. intros ??? [] []. split; [congruence..|auto|auto]. Qed.
Definition machine_stage (s s' : machine) : Prop := stage (machine_kernel s) (machine_kernel s').
#[global] Instance machine_stage_preorder : PreOrder machine_stage.
Proof. split; [by intros s|]. intros ???. unfold machine_stage. by etransitivity. Qed.

Lemma kernel_step_stage {A} (m : M A) : keeps stage m → dkeeps machine_stage (kernel_step m).
Proof.
  intros Hm s log. unfold kernel_step, zoom, in_kernel. pose proof (proj1 (wlp_run _ _ _) (Hm (machine_kernel s))) as Hk.
  destruct (m (machine_kernel s)) as [a k'| |]; [|done..]. by apply (Hk a).
Qed.
Lemma zoom_stage {T A} (f : machine → T) `{!Upd f} (m : D T A) :
  (∀ s t, machine_kernel (s <| f := t |>) = machine_kernel s) → dkeeps machine_stage (zoom f m).
Proof. intros Hf. apply dkeeps_zoom. intros s t. unfold machine_stage. by rewrite Hf. Qed.
Lemma hal_step_stage {A} (m : driver A) : dkeeps machine_stage (hal_step m).
Proof. by apply zoom_stage. Qed.
#[export] Hint Resolve kernel_step_stage hal_step_stage : dkeeps.

(** *** Steps on the kernel's state *)

Lemma stage_modify `{Countable K} {V} (heap : kernel → gmap K V) `{!Upd heap} p f :
  (∀ k v, heap k !! p = Some v → stage k (k <| heap ::= <[p := f v]> |>)) → keeps stage (modify heap p f).
Proof. intros Hf k. apply wlp_modify. auto. Qed.
Lemma stage_updates f : (∀ k, stage k (f k)) → keeps stage (updates f).
Proof. intros Hf k. by apply wlp_updates. Qed.
Lemma stage_slots t f :
  (∀ v, (∃ a, t = array_slot a OFFSET_PROCESS_ADDRESS_SPACE) → free_slot v → free_slot (f v)) →
  keeps stage (modify slots t f).
Proof.
  intros Hf. apply stage_modify. intros k v Hv. split; try done.
  apply (proj1 (wlp_run _ _ _) (slot_free_modify t f Hf k) tt). unfold modify. by rewrite Hv.
Qed.
Lemma stage_same k k' :
  current_core k' = current_core k → cpu_local_variables k' = cpu_local_variables k → slots k' = slots k →
  hal_cores k' = hal_cores k → stage k k'.
Proof.
  intros Hc Hv Hs Hh. split; [done|unfold manager_of; congruence| |].
  - intros Hf a v. rewrite Hs. apply Hf.
  - unfold gs_ready. by rewrite Hc, Hh.
Qed.
Lemma stage_cores f :
  (∀ hc, (fs_gs_base_enabled hc = true → fs_gs_base_enabled (f hc) = true) ∧
         (gs_base hc = Some BSP_ID → gs_base (f hc) = Some BSP_ID)) → keeps stage (modify_core f).
Proof.
  intros Hf k. unfold modify_core. wlp_steps. split; try done. intros (hc & Hhc & Hfs & Hgs).
  assert (v = hc) as -> by congruence. destruct (Hf hc) as [H1 H2]. eexists. split; [apply lookup_insert_eq|auto].
Qed.

#[export] Hint Extern 2 (keeps stage (modify memory_words _ _)) =>
  apply stage_modify; intros; by apply stage_same : keeps.
#[export] Hint Extern 2 (keeps stage (modify processes _ _)) =>
  apply stage_modify; intros; by apply stage_same : keeps.
#[export] Hint Extern 2 (keeps stage (modify irq_notification_handlers _ _)) =>
  apply stage_modify; intros; by apply stage_same : keeps.
#[export] Hint Extern 2 (keeps stage (modify slots _ _)) =>
  apply stage_slots; first [by intros v [? ?]; discriminate | by intros v _ [? ?]] : keeps.
#[export] Hint Extern 2 (keeps stage (updates _)) => apply stage_updates; intros; by apply stage_same : keeps.
#[export] Hint Extern 2 (keeps stage (modify_core _)) => apply stage_cores; intros; by split : keeps.
#[export] Hint Extern 2 (keeps stage (emit _)) => apply stage_updates; intros; by apply stage_same : keeps.

Lemma local_variables_stage turns i : keeps stage (init_cpu_local_variable_from turns i).
Proof.
  revert i. induction turns as [|turns IH]; intros i; cbn [init_cpu_local_variable_from]; keeps_steps.
  apply stage_modify. intros k v Hv. split; try done. unfold manager_of. ksimpl_goal.
  destruct (decide (i = BSP_ID)) as [->|]; [by rewrite lookup_insert_eq, Hv|by rewrite lookup_insert_ne].
Qed.
Lemma irq_handlers_stage turns i : keeps stage (init_irq_notification_handlers_from turns i).
Proof. revert i. induction turns as [|turns IH]; intros i; cbn [init_irq_notification_handlers_from]; keeps_steps; apply IH. Qed.

Section entry.
Context `{config} `{startup_layout} `{bus_device} `{cpu_layout} `{vmx_layout}.

Lemma copy_words_stage n d s : keeps stage (copy_words n d s).
Proof. revert d s. induction n as [|n IH]; intros d s; cbn [copy_words]; keeps_steps; apply IH. Qed.
Hint Resolve copy_words_stage : keeps.
Lemma configure_process_space_stage p t :
  keeps stage (try_configure_address_space_slot (process_slot_ref p ROOT_ADDRESS_SPACE) t).
Proof. unfold try_configure_address_space_slot. keeps_steps. Qed.
Hint Resolve configure_process_space_stage : keeps.
Lemma process_management_stage : keeps stage (let? _ := init_idle_context in process_manager_init BSP_ID BSP_ID).
Proof.
  unfold init_idle_context, process_manager_init, configure_idle, configure_floating_context, make_address_space,
    write_address_space_owners, configure_general_register, init_hardware_context, idle_root. keeps_steps.
Qed.
Lemma current_core_number_stage : keeps stage current_core_number.
Proof. unfold current_core_number, current_local_variable, this_core. keeps_steps. Qed.
Lemma install_idt_stage h idts : keeps stage (init_idt_handler h idts).
Proof.
  unfold init_idt_handler. generalize 0 at 1 as i. revert idts.
  induction INTERRUPT_DESCRIPTOR_SIZE_MAX as [|n IH]; intros idts i; cbn [init_idt_from]; keeps_steps.
  unfold register_idt_handler. keeps_steps. apply current_core_number_stage.
Qed.

(** *** Steps of the machine *)

#[local] Hint Extern 2 (dkeeps machine_stage (set_objects _)) =>
  apply dkeeps_set_objects; intros; by apply stage_same : dkeeps.
Lemma cpu_step_stage {A} (m : cpu_driver A) : dkeeps machine_stage (cpu_step m).
Proof.
  unfold cpu_step. dkeeps_step; [by apply zoom_stage|]. dkeeps_steps. apply kernel_step_stage. eauto with keeps.
Qed.
Hint Resolve cpu_step_stage : dkeeps.
Lemma unsupported_stage m : dkeeps machine_stage m → dkeeps machine_stage (unsupported_is_ok m).
Proof. intros Hm. unfold unsupported_is_ok. dkeeps_steps. Qed.
Lemma memory_types_stage : dkeeps machine_stage configure_cpu_memory_types.
Proof.
  unfold configure_cpu_memory_types, try_get_cpuid, msr_read, msr_write, read_register, write_register, instruction.
  dkeeps_steps.
Qed.
Lemma this_core_stage : dkeeps machine_stage init_this_cpu_core.
Proof.
  unfold init_this_cpu_core. dkeeps_steps; apply kernel_step_stage; [eauto with keeps|apply current_core_number_stage].
Qed.
Lemma record_apic_stage c : dkeeps machine_stage (record_apic_id c).
Proof. unfold record_apic_id. dkeeps_steps. Qed.
Lemma init_acpi_stage a : dkeeps machine_stage (init_acpi a).
Proof. unfold init_acpi. dkeeps_steps. Qed.
Lemma machine_idt_stage : dkeeps machine_stage install_idt.
Proof. unfold install_idt. dkeeps_steps. apply kernel_step_stage, install_idt_stage. Qed.
Lemma huge_pages_stage : dkeeps machine_stage check_huge_pages.
Proof. unfold check_huge_pages, try_get_cpuid. dkeeps_steps. Qed.
Lemma init_vmx_stage : dkeeps machine_stage init_vmx.
Proof. apply unsupported_stage. by apply zoom_stage. Qed.
Hint Resolve memory_types_stage this_core_stage record_apic_stage init_acpi_stage machine_idt_stage huge_pages_stage
  init_vmx_stage : dkeeps.
Lemma serial_stage : dkeeps machine_stage (reconfigure_serial (S := machine)).
Proof. unfold reconfigure_serial, serial_port_write, serial_port_wait. dkeeps_steps. Qed.
Lemma vendor_stage : dkeeps machine_stage (try_get_vendor_id (S := machine)).
Proof. unfold try_get_vendor_id, try_get_cpuid. dkeeps_steps. Qed.
Lemma name_stage : dkeeps machine_stage (try_get_cpu_name (S := machine)).
Proof. unfold try_get_cpu_name, try_get_cpuid. dkeeps_steps. Qed.
Hint Resolve serial_stage vendor_stage name_stage : dkeeps.
Lemma install_local_variable_stage : dkeeps machine_stage (install_local_variable BSP_ID).
Proof.
  unfold install_local_variable. dkeeps_steps; apply kernel_step_stage; [keeps_steps|].
  intros k. unfold modify_core. wlp_steps. split; try done. intros _. eexists. split; [apply lookup_insert_eq|done].
Qed.
Hint Resolve install_local_variable_stage : dkeeps.

Lemma unmap_stage : dkeeps machine_stage unmap_lower_memory_mapping.
Proof. unfold unmap_lower_memory_mapping. dkeeps_steps. apply kernel_step_stage. keeps_steps. Qed.
Hint Resolve unmap_stage : dkeeps.

Context (Hstack : kernel_stack_top BSP_ID ≠ 0).

Lemma configure_local_ok a n g log r g' log' :
  configure_local_variable (Some (a, n, kernel_stack_top BSP_ID)) g log = Done r g' log' → r = Ok tt.
Proof.
  unfold configure_local_variable. rewrite (proj2 (Z.eqb_neq _ _) Hstack).
  intros (? & ? & ? & _ & Hd1)%done_bind. apply done_bind in Hd1 as (? & ? & ? & _ & Hd1).
  apply done_bind in Hd1 as (? & ? & ? & _ & Hd1). by injection Hd1 as <- _ _.
Qed.
Lemma install_gs s log r s' log' :
  install_local_variable BSP_ID s log = Done r s' log' → gs_ready (machine_kernel s').
Proof.
  unfold install_local_variable. intros (local & s1 & log1 & _ & Hd1)%done_bind.
  apply done_bind in Hd1 as (r2 & s2 & log2 & Hd2 & Hd1). apply done_bind in Hd2 as (r3 & s3 & log3 & Hd3 & Hd2).
  assert (r3 = Ok tt) as ->.
  { unfold zoom in Hd3. destruct (configure_local_variable _ _ _) as [r4 g4 log4| |] eqn:Hd4; [|done..].
    apply configure_local_ok in Hd4. congruence. }
  apply done_bind in Hd2 as (? & ? & ? & _ & Hd2). apply done_bind in Hd2 as (? & ? & ? & _ & Hd2). injection Hd2 as <- <- <-.
  apply done_bind in Hd1 as (? & s5 & ? & (k5 & Hk5 & -> & ->)%kernel_step_done & Hd1). injection Hd1 as <- <- <-.
  assert (∀ k, wlp (modify_core (λ v, v <| fs_gs_base_enabled := true |> <| gs_base := Some BSP_ID |>))
                 (λ _ k', gs_ready k') k) as Hw.
  { intros k. unfold modify_core. wlp_steps. eexists. split; [apply lookup_insert_eq|done]. }
  exact (proj1 (wlp_run _ _ _) (Hw _) _ _ Hk5).
Qed.

Lemma main_core_gs fuel a s log r s' log' :
  init_main_core fuel a s log = Done r s' log' →
  machine_stage s s' ∧ gs_ready (machine_kernel s').
Proof.
  unfold init_main_core, finish_main_core. intros (r1 & s1 & log1 & Hi & Hd)%done_bind.
  assert (machine_stage s1 s') as Hs.
  { eapply dkeeps_run; [|exact Hd]. dkeeps_steps. }
  split; [|apply Hs; by eapply install_gs]. transitivity s1; [|done].
  eapply dkeeps_run; [|exact Hi]. apply install_local_variable_stage.
Qed.

Lemma architecture_gs fuel constructors info s log s' log' r :
  init_architecture fuel constructors info s log = Done r s' log' → machine_stage s s' ∧ gs_ready (machine_kernel s').
Proof.
  unfold init_architecture, init_global_constructors, constructor_count.
  replace (wsub init_constructors_end init_constructors_end) with 0 by (unfold wsub, wrap; by rewrite Z.sub_diag).
  intros (? & ? & ? & Hc & Hd)%done_bind. injection Hc as <- <- <-.
  apply done_bind in Hd as (rsdp & s1 & log1 & Ha & Hd). destruct (info !! 0%nat); [|done]. injection Ha as <- <- <-.
  apply done_bind in Hd as (r2 & s2 & log2 & (Hs & Hg)%main_core_gs & Hd).
  assert (machine_stage s2 s') as Hs2.
  { eapply dkeeps_run; [|exact Hd]. destruct r2; dkeeps_steps. apply unsupported_stage. dkeeps_steps. }
  split; [by transitivity s2|by apply Hs2].
Qed.

(** *** The other cores

    While they start they leave the variables and registers of the boot core and the
    objects in the pool alone. *)
Definition boot_core_kept (pool : Z) (s s' : machine) : Prop :=
  let k := machine_kernel s in
  let k' := machine_kernel s' in
  current_core k' = current_core k ∧ cpu_local_variables k' !! BSP_ID = cpu_local_variables k !! BSP_ID ∧
  hal_cores k' !! current_core k = hal_cores k !! current_core k ∧
  ∀ p, pool ≤ p → processes k' !! p = processes k !! p.

Lemma only_init_kept pcb k k' :
  cpu_local_variables k' !! BSP_ID = cpu_local_variables k !! BSP_ID → processes k' !! pcb = processes k !! pcb →
  sched_inv BSP_ID k (only_init pcb) → sched_inv BSP_ID k' (only_init pcb).
Proof.
  intros Hc Hp (cpu & Hcpu & [A1 A2 A3 A4 A5 A6]). exists cpu. split; [congruence|].
  assert (∀ i q, q ∈ only_init pcb i → q = pcb) as Hq.
  { intros i q. unfold only_init, update_queue. case_decide; set_solver. }
  split; try done.
  - intros i. eapply dlist_ext; [|apply A2]. intros y ->%Hq. unfold heap_links. by rewrite Hp.
  - intros i q Hi. pose proof (Hq i q Hi) as ->. rewrite Hp. by apply A3.
Qed.

Lemma launch_spec pool version architecture platform others boot s log r s' log' cpu :
  cpu_local_variables (machine_kernel s) !! BSP_ID = Some cpu → idle_process (process_manager_core cpu) < pool →
  sched_inv BSP_ID (machine_kernel s) (λ _, []) → space_slot_free (machine_kernel s) → gs_ready (machine_kernel s) →
  dkeeps (boot_core_kept pool) others →
  launch_init pool version architecture platform others boot s log = Done (BOOT_LEFT r) s' log' →
  r = Ok tt ∧ ∃ pcb, pool ≤ pcb ∧ runs_init boot pcb (machine_kernel s').
Proof.
  intros Hcpu Hidle Hinv Hfree (hc & Hhc & Hfs & Hgs) Ho. unfold launch_init.
  intros (res & s1 & log1 & Hc & Hd)%done_bind. destruct (is_ok res) eqn:Hok; [|done]. cbn [negb] in Hd.
  unfold boot_step in Hc. apply done_bind in Hc as (b & ? & ? & Hb & Hc). injection Hb as <- <- <-.
  apply done_bind in Hc as ([res' b'] & ? & ? & (k1 & Hk1 & -> & ->)%kernel_step_done & Hc).
  apply done_bind in Hc as (? & ? & ? & Hset & Hc). injection Hset as <- <- <-. injection Hc as -> <- <-.
  assert (res = Ok tt) as -> by (destruct res as [[]|]; done).
  pose proof (proj1 (wlp_run _ _ _) (create_init_spec pool version architecture platform boot (machine_boot s) cpu
    (machine_kernel s) Hcpu Hidle Hinv Hfree) _ _ Hk1 eq_refl) as [pcb [R1 R2 [sched R3] R4 (v & Hv & Hst & Hreg) R5]].
  apply done_bind in Hd as (started & s2 & log2 & Ho2 & Hd). pose proof (dkeeps_run _ _ _ _ _ _ _ Ho Ho2) as (O1 & O2 & O3 & O4).
  cbn [machine_kernel upd] in O1, O2, O3, O4. destruct (is_ok started); [|done]. cbn [negb] in Hd.
  apply done_bind in Hd as (r3 & ? & ? & (k3 & Hk3 & -> & ->)%kernel_step_done & Hd). injection Hd as <- <- <-.
  assert (processes (machine_kernel s2) !! pcb = Some v) as Hv2 by (rewrite O4 by done; exact Hv).
  destruct (proj1 (wlp_run _ _ _) (switch_to_user_spec boot pcb _ hc v (machine_kernel s2)
    ltac:(rewrite O2; exact R3) ltac:(rewrite O1, O3, R1, R2; exact Hhc) Hfs Hgs
    ltac:(eapply only_init_kept; [exact O2|by rewrite O4|exact R4]) Hv2 Hst Hreg) _ _ Hk3) as [-> Hrun].
  split; [done|]. by exists pcb.
Qed.

Lemma com_serial_stage baud : dkeeps machine_stage (com_init_serial (S := machine) baud).
Proof. unfold com_init_serial, serial_port_write, serial_port_wait. dkeeps_steps. Qed.
Lemma interrupt_system_stage : dkeeps machine_stage init_interrupt_system.
Proof.
  unfold init_interrupt_system. dkeeps_steps. apply kernel_step_stage.
  unfold interrupt_manager_init, init_irq_notification_handlers. keeps_steps. apply irq_handlers_stage.
Qed.
End entry.

(** A run that leaves for user mode has switched to the init process. *)
Definition left_to_init (pool : Z) (boot : boot_info) (x : run machine boot_exit) : Prop :=
  match x with
  | Done (BOOT_LEFT r) s' _ => r = Ok tt ∧ ∃ pcb, pool ≤ pcb ∧ runs_init boot pcb (machine_kernel s')
  | _ => True
  end.

(** C4: The boot of the machine ends in the init process.  Whenever [kernel_entry] gets as far
    as leaving for user mode (it may stop before, when a device or the boot information
    is refused), the switch has succeeded: the process the boot core runs is the one that
    [create_init] made in the pool, ready, with the registers of a user context whose
    instruction pointer is the entry point of the image, in the address space of its root
    slot, and no other process is ready on that core.  This holds for any devices,
    whatever the other cores do to their own objects meanwhile. *)
Theorem kernel_entry_runs_init `{config} `{startup_layout} `{bus_device} `{cpu_layout} `{vmx_layout} fuel constructors
    pool version architecture platform others boot s log cpu :
  kernel_stack_top BSP_ID ≠ 0 →
  cpu_local_variables (machine_kernel s) !! BSP_ID = Some cpu →
  scheduler_core (process_manager_core cpu) = initial_scheduler → idle_process (process_manager_core cpu) < pool →
  space_slot_free (machine_kernel s) → dkeeps (boot_core_kept pool) others →
  left_to_init pool boot (kernel_entry fuel constructors pool version architecture platform others boot s log).
Proof.
  intros Hstack Hcpu Hsched Hidle Hfree Ho. destruct (kernel_entry _ _ _ _ _ _ _ _ _ _) as [[| |r] s' log'| |] eqn:He; try exact I. cbn [left_to_init].
  revert He. unfold kernel_entry.
  intros (? & s1 & log1 & HS1%(dkeeps_run _ _ _ _ _ _ _ (com_serial_stage _)) & Hd)%done_bind.
  apply done_bind in Hd as (? & s2 & log2 & HS2%(dkeeps_run _ _ _ _ _ _ _ (kernel_step_stage _ (local_variables_stage _ _))) & Hd).
  apply done_bind in Hd as (res & s3 & log3 & [HS3 Hgs]%(architecture_gs Hstack) & Hd). destruct (is_ok res); [|done]. cbn [negb] in Hd.
  apply done_bind in Hd as (? & s4 & log4 & HS4%(dkeeps_run _ _ _ _ _ _ _ interrupt_system_stage) & Hd).
  apply done_bind in Hd as (clock & s5 & log5 & HS5%(dkeeps_run _ _ _ _ _ _ _ (hal_step_stage _)) & Hd).
  destruct (is_ok clock); [|done]. cbn [negb] in Hd.
  apply done_bind in Hd as (? & s6 & log6 & HS6 & Hd).
  assert (machine_stage s5 s6) as HS7.
  { eapply dkeeps_run; [|exact HS6]. unfold init_process_management. dkeeps_steps. apply kernel_step_stage, process_management_stage. }
  assert (machine_stage s s6) as Hs.
  { do 5 (etransitivity; [eassumption|]). exact HS7. }
  assert (machine_stage s3 s6) as Hs3.
  { do 2 (etransitivity; [eassumption|]). exact HS7. }
  destruct Hs as [_ Hm Hslot _]. unfold manager_of in Hm. rewrite Hcpu in Hm. apply fmap_Some in Hm as (cpu6 & Hcpu6 & Hpm).
  eapply (launch_spec Hstack); [exact Hcpu6| | | |by apply Hs3|exact Ho|exact Hd]; [by rewrite <- Hpm| |auto].
  exists cpu6. split; [done|]. rewrite <- Hpm, Hsched. apply sched_repr_initial.
Qed.

(** ** A machine that boots

    One core; the tables of the firmware, a processor without VMX, a PM timer that goes on
    by 4096 ticks between two looks, an image of three pages. *)

Section example.
#[local] Existing Instance example_config.

Definition boot_layout : startup_layout := {|
  idle_context := 1; idle_address_space_storage := physical_to_virtual_address 0x3000; idle_entry := 0xFFFF800000100000;
  cpu_local_variable_address := λ c, 0xFFFF800000200000 + 0x400 * c;
  kernel_stack_top := λ c, 0xFFFF800000300000 + 0x2000 * (c + 1);
  syscall_handler := 0xFFFF800000101000; interrupt_handlers_address := 0xFFFF800000102000;
  exception_vectors := 0; ap_trampoline := MkTrampoline 0x20000 0x8000 0x8010 0x8004 0x9000 0x9018;
  init_constructors_start := 0; init_constructors_end := 8;
|}.
Definition boot_vmx_layout : vmx_layout := {| vmxon_region_core := 0x10000; vmcs_region_core := 0x11000 |}.
Definition boot_device : bus_device := λ log a,
  match a with
  | CPUID 1 0 3 => Z.shiftl 1 16
  | MSR 0x277 => 0x0007040600070406
  | REGISTER R_CR0 => 0x80000011
  | REGISTER R_CR4 => 0xa0
  | PORT 0x608 32 => 4096 * Z.of_nat (length log)
  | _ => 0
  end.

Fixpoint bytes_le (n : nat) (v : Z) : list Z :=
  match n with O => [] | S n' => v mod 256 :: bytes_le n' (v / 256) end.
Definition boot_rsdp : list Z := RSDP_SIGNATURE ++ replicate 8 0 ++ bytes_le 4 0 ++ bytes_le 4 36 ++ bytes_le 8 0x6000.
Definition boot_xsdt : list Z := bytes_le 4 0 ++ bytes_le 4 52 ++ replicate 28 0 ++ bytes_le 8 0x8000 ++ bytes_le 8 0x7000.
Definition boot_fadt : list Z :=
  FACP_SIGNATURE ++ bytes_le 4 116 ++ [2] ++ replicate 67 0 ++ bytes_le 4 0x608 ++ replicate 11 0 ++ [4] ++ replicate 20 0
  ++ bytes_le 4 0.
Definition boot_tables : byte_memory :=
  memory_of (physical_to_virtual_address 0x5000) boot_rsdp ∪ memory_of (physical_to_virtual_address 0x6000) boot_xsdt
  ∪ memory_of (physical_to_virtual_address 0x8000) boot_fadt ∪ example_madt_memory.

Definition boot_words (a : Z) : gmap Z Z := list_to_map ((λ i, (a + 8 * Z.of_nat i, 0)) <$> seq 0 512).
Definition boot_kernel : kernel :=
  initial_kernel
    <| cpu_local_variables := list_to_map ((λ i, (Z.of_nat i, initial_cpu (100 + Z.of_nat i) 0)) <$> seq 0 64) |>
    <| processes := {[1 := initial_process; 100 := initial_process]} |>
    <| slots := {[process_slot_ref 1 ROOT_ADDRESS_SPACE := initial_slot;
                  process_slot_ref 100 ROOT_ADDRESS_SPACE := initial_slot]}
                ∪ list_to_map ((λ i, (irq_slot (Z.of_nat i), initial_slot)) <$> seq 0 256) |>
    <| irq_notification_handlers := list_to_map ((λ i, (Z.of_nat i, MkIrqHandler 0 false)) <$> seq 0 256) |>
    <| hal_cores := {[0 := MkHalCore 0x1000 0 0 false None []]} |>
    <| memory_words := boot_words 0x1000 ∪ boot_words 0x3000 |>.
Definition boot_machine : machine :=
  MkMachine boot_kernel (initial_globals boot_tables) (MkCpuGlobals {[0 := example_arch_cpu]} 0) (MkVmxGlobals 0 0)
    {[0 := replicate 256 (make_descriptor 0)]} no_handlers false false
    (MkBootState 0 (MkInitInfo 0 0 0 [] [] [] [] 0 [] 0 (replicate 128 (Boot.MkDescriptor 0 0 false)) 0)).
Definition boot_image : boot_info :=
  MkBootInfo (MkMemoryInfo 1 [MkEntry 0x1000000 16 MMT_FREE]) (MkImage 0x400000 3 0x10 0x1000 0x2000) [0x5000].
Definition boot_run : run machine boot_exit :=
  kernel_entry (H0 := boot_layout) (H1 := boot_device) (H2 := example_layout) (H3 := boot_vmx_layout) 20 []
    0xFFFF800000A00000 [48; 46; 49; 46; 48] [] [] bus_ok boot_image boot_machine [].

Lemma boot_slots_free : space_slot_free boot_kernel.
Proof.
  intros a v. unfold boot_kernel. cbn [slots upd]. rewrite lookup_union_Some_raw. intros [Hl|[_ Hl]].
  - rewrite lookup_insert_ne, lookup_singleton_ne in Hl by done. done.
  - apply elem_of_list_to_map_2, list_elem_of_fmap in Hl as (i & [=] & _).
Qed.

Lemma boot_cpu : cpu_local_variables boot_kernel !! BSP_ID = Some (initial_cpu 100 0).
Proof. by vm_compute. Qed.
Lemma bus_ok_kept pool : dkeeps (boot_core_kept pool) (bus_ok (E := hal_error)).
Proof. intros s log. change (boot_core_kept pool s s). repeat split. Qed.

Definition succeeds (x : run machine hal_result) : bool := match x with Done (Ok _) _ _ => true | _ => false end.
Lemma boot_core_starts :
  succeeds (init_main_core (H0 := boot_layout) (H1 := boot_device) (H2 := example_layout) (H3 := boot_vmx_layout)
    20 0x5000 boot_machine []) = true.
Proof. by vm_compute. Qed.

(** On this machine the core is set up, and the theorem applies. *)
Lemma kernel_entry_runs_init_witness :
  succeeds (init_main_core (H0 := boot_layout) (H1 := boot_device) (H2 := example_layout) (H3 := boot_vmx_layout)
    20 0x5000 boot_machine []) = true ∧
  left_to_init 0xFFFF800000A00000 boot_image boot_run.
Proof.
  split; [exact boot_core_starts|].
  exact (kernel_entry_runs_init (H0 := boot_layout) (H1 := boot_device) (H2 := example_layout) (H3 := boot_vmx_layout)
    20 [] 0xFFFF800000A00000 [48; 46; 49; 46; 48] [] [] bus_ok boot_image boot_machine [] (initial_cpu 100 0)
    ltac:(done) boot_cpu eq_refl ltac:(done) boot_slots_free (bus_ok_kept _)).
Defined.
End example.
